(* ===== verification/_CoqProject ===== *)
-Q . S2P
Prelude.v
Sable.v
Bytes.v
Logic.v
Demo.v
Records.v
Events.v
Identifiers.v
Users.v
Invitations.v
Accounts.v
Sessions.v
Touches.v
Credentials.v
Recovery.v
Ceremonies.v
Verification.v
Organization.v
RateLimit.v
WriterLease.v
SigningKeys.v
Guards.v
OperatorAuth.v
Search.v
Webhooks.v
ServiceAccounts.v
RemoteMutations.v
Tokens.v
Management.v
Fleet.v
FleetConnections.v
FleetRoles.v
ManagementEndpoint.v
Connector.v
FleetRpc.v
FleetService.v
System.v
Snapshot.v
BackupSnapshot.v
Envelope.v
Backups.v
CommandLine.v
