(* ===== verification/Prelude.v ===== *)
(** * RustyAuth: a verification development

    RustyAuth is a passkey authentication service.  One Rust process serves an HTTP
    API and control-plane RPCs; all durable state lives in SableDB, a key-value
    server that speaks the Redis protocol.  This library models the service's store
    (src/src/store.rs and src/src/store/), the guards and authorization in front of
    it, its rate limiter, its signing keys and service tokens, its backups and operator
    commands, and the fleet control plane: its store, its RPC handlers and the
    connector by which private realms are reached.

    ** How the program is modelled

    - Prelude: strings as lists of code points with Rust's text functions, machine
      integers as [N] with saturating and checked operations, decimal text, keys.
    - Sable: everything the sources call and do not define (uuid, sha2, hex, base64,
      serde_json, webauthn-rs, SableDB) is a class with its documented laws, bundled
      in [Env].  SableDB is a map from keys to values with deadlines; [exec_cmd] is the
      effect of each command.  [M E A] is the effect monad: an oracle supplies
      the clock, randomness and the fate of every round trip (delivered, request
      lost, reply lost), and the world carries the datastore.  An async function of
      the store is a program in [M error]; [?] and [bail!] are the error of the
      monad; a panic is the error [EPanic].  The mutation lock and the snapshot gate
      make each operation of one process atomic; round trips can still fail between
      its reads and its commit.
    - Logic: [moves] (a preorder on datastore contents kept by every run), [wp] (weakest
      preconditions), [keeps], [returns].
    - Bytes: big-endian integers, UTF-8 decoding and the bytes of a UUID.
    - Demo: a concrete environment.  It shows that the laws of the classes can hold
      and runs the witnesses of the theorems by evaluation.

    ** Components

    - Records: [record_ids] of store.rs and listings of a record family.
    - Events: store/events.rs.  The log is well formed ([log_ok]) between its minimum and its last
      sequence; readers get exactly the window after their cursor.
    - Identifiers, Users, Accounts: store/users/{identifiers,profile,records}.rs.  Canonical forms, stored
      accounts, lookup indexes and registration; the invariant is [accounts_ok].
    - Search: store/users/search.rs.  Following the cursors yields every match once.
    - Invitations, Recovery, Verification, Ceremonies: the one-time secrets and records of the files of
      the same names; each is redeemed at most once.
    - Sessions, Touches: store/sessions.rs and the touch writer of store.rs.  A request is granted only
      with a live, unrevoked, unexpired session; activity is never invented.
    - Credentials: store/credentials.rs.  The sign-in commit and counter checks.
    - Organization, OperatorAuth: store/organization.rs and operator_auth.rs.  Operator grants, bootstrap,
      tombstones, roles, capabilities and step-up.
    - Guards: auth/guard.rs and auth/error.rs, the cookie and bearer readers of auth/session.rs.
    - RateLimit: rate_limit.rs.  Budgets per window, failure behaviour, client addresses.
    - WriterLease: store/writer_lease.rs and the lease task of main.rs.  At most one process believes it
      holds the lease.
    - SigningKeys: jwt/{key_material,keyset,rotation,runtime}.rs.  A key stays published as long as tokens
      signed with it live; a new key is published before it signs.
    - Webhooks: store/webhooks.rs and event retention.  Retention never crosses a cursor; the backlog
      counter is exact.
    - ServiceAccounts: store/service_accounts.rs.  A secret is exchanged only while its credential is in
      force.
    - RemoteMutations: store/remote_mutations.rs.  An abstract machine of requests and the refinement that
      the datastore implements it; a request is granted at most once.
    - Tokens: service tokens of jwt/{issuance,validation}.rs.  A token is worth exactly its scopes until
      it expires, across key rotations.
    - Management: store/management.rs.  Pairing codes, grants of a fleet on a realm, their
      rotation and revocation.
    - Fleet, FleetConnections, FleetRoles: store/fleet.rs and the fleet part of operator_auth.rs.  The
      hierarchy of organizations, projects and environments ([fleet_ok]); connections
      and assignment epochs ([conn_ok]); delegated roles ([bindings_ok]) and the access they give.
      The theorems on connections consider completed pairings under unused
      identifiers, which the code does not check.
    - ManagementEndpoint: the endpoint boundary and the sealing of credentials in fleet_rpc.rs.  A
      production client reaches publicly routable addresses only.
    - Connector: the outbound connector of telemetry.rs.  Signed frames, the session with its
      outstanding commands as a step relation ([session_next]), pairing, and the execution of a
      command by the realm.  [connector_roundtrip] composes both ends for a realm that holds the
      key; [stored_digest_unusable] shows that the grants Management stores do not give it.
    - FleetRpc: validation, paging and messages of fleet_rpc.rs.  Following page tokens ends
      with every record listed once.
    - FleetService: the handlers of the fleet service.  Listings are exact and scoped;
      nobody delegates a role above their own.
    - System: the operations of the account store together.  Every state reachable from an empty
      datastore keeps the accounts and the log consistent.
    - Snapshot: store/snapshot.rs.  Which keys are exported, the export, the restore with its
      in-progress marker and the backup lease.  The export is exact; an interrupted restore is
      noticed; a stored webhook delivery makes every export fail ([delivery_stops_backups]).
    - BackupSnapshot: backup/snapshot.rs.  The captured snapshot, its manifest and its validation
      against an index of all records.  A valid snapshot is sound ([sound_snapshot]); two kinds of
      fleet audit records stop all captures.
    - Envelope: backup/envelope.rs.  Sealing and opening; opening arbitrary bytes never panics.
    - Backups: backup/object.rs and backup/scheduler.rs.  Upload with read-back, download, listing,
      status and the scheduler, and the verify and restore commands.  [disaster_recovery] composes
      capture, sealing, opening, validation and restore on an empty datastore.
    - CommandLine: cli.rs, the dispatch of main.rs and the realm's half of outbound pairing in
      telemetry.rs.  The parser accepts exactly the usage text; commands respect the writer
      lease; [restore_command_refused] shows that the restore command is refused by its own
      lease.

    Definitions keep the names of the source; fields carry a short prefix where the
    source reuses a name.  Loops are structural recursion over the list they walk, so
    no fuel is needed; a SCAN cycle is one list of batches.  There are two exceptions.
    [walk_pages] is a client following page tokens: [paging_terminates] gives the number of
    pages that is always enough.  [list_pages] follows the continuation tokens of the object
    store: [list_prefix_complete] shows that fuel for the pages served is enough.  The tick and
    shutdown events of the backup scheduler are an explicit list.

    The families of keys in the snapshot validation, strings in the source, are the
    constructors of [Family]; the hash maps of its index are finite maps, grouped by
    realm, log and fleet, and walked in the order of the map. The status that a
    [BackupStore] shares between tasks is passed explicitly, its operation lock makes
    runs sequential. A command yields what it prints and how it ends.

    ** Assumptions

    Laws of the classes in Sable, SigningKeys, Tokens, Connector ([ExtMac]), Envelope
    ([ExtBackup]: decoding, decompression and decryption invert their counterparts, a
    tag is sixteen bytes), Backups ([ExtBucket]: the object store does not touch the
    datastore, a timestamp has no slash) and CommandLine ([ExtProcess]: neither does the
    control plane); freshness of drawn identifiers and secrets where a theorem names it;
    monotone server time where a theorem names it. Objects read from the bucket are
    arbitrary. The answers of realms, name resolution, URL parsing, RFC 3339 text and
    protobuf encodings are parameters without laws. Nothing is assumed of the strength
    of digests or MACs: [signing_bytes_injective] says that the signed bytes determine
    the frame, not that a signature cannot be forged.

    ** Not modelled

    - Configuration loading, the wiring and shutdown of the server, the container health
      check, webhook delivery over HTTP and the browser console: input and output around
      the modelled operations.
    - The construction of the object store client, and the scripted fallback by which leases
      are released on servers without DELIFEQ, which SableDB has.
    - The HTTP handlers of accounts and the RPC services other than the fleet's; they
      are adapters over the modelled operations.
    - Claims of user access tokens.
    - Telemetry: aggregation, export, acceptance and archiving, the fleet's analytics
      stores and its cache of realm snapshots, hence the two fleet handlers that
      read them.  A connector session takes the acceptance of a batch as an argument,
      and a realm the operations behind a command. *)

From Stdlib Require Import Ascii String.
From Stdlib Require Export NArith ZifyN ZifyBool Lia Sorted.
From stdpp Require Export base tactics numbers list gmap option.
Export String.StringSyntax.
Export list_basics.list list_relations.list list_monad.list list_misc.list list_numbers.list.

#[global] Set Default Goal Selector "!".
Open Scope N_scope.

#[global] Arguments N.add : simpl never.
#[global] Arguments N.sub : simpl never.
#[global] Arguments N.mul : simpl never.
#[global] Arguments N.div : simpl never.
#[global] Arguments N.modulo : simpl never.
#[global] Arguments N.pow : simpl never.

(** ** Strings

    A Rust [String]/[str] is a sequence of Unicode scalar values; it is modelled
    by the list of their code points.  [len] is the UTF-8 length in bytes (what
    [str::len] returns) and [bytes] the UTF-8 encoding (what [str::bytes]
    iterates over). *)

Abbreviation str := (list N).

Fixpoint lit (s : string) : str :=
  match s with
  | EmptyString => []
  | String a s' => N_of_ascii a :: lit s'
  end.

Declare Scope rust_scope.
Delimit Scope rust_scope with rust.
Notation "# s" := (lit s%string) (at level 8, s at level 0, format "# s") : rust_scope.
Notation "'chr' s" := (match lit s%string with c :: _ => c | [] => 0 end)
  (at level 8, s at level 0, only parsing) : rust_scope.
Open Scope rust_scope.

Definition utf8_width (c : N) : N :=
  if c <? 128 then 1 else if c <? 2048 then 2 else if c <? 65536 then 3 else 4.

Definition utf8_encode (c : N) : list N :=
  if c <? 128 then [c]
  else if c <? 2048 then [192 + c / 64; 128 + c mod 64]
  else if c <? 65536 then [224 + c / 4096; 128 + (c / 64) mod 64; 128 + c mod 64]
  else [240 + c / 262144; 128 + (c / 4096) mod 64; 128 + (c / 64) mod 64; 128 + c mod 64].

Fixpoint len (s : str) : N :=
  match s with
  | [] => 0
  | c :: s' => utf8_width c + len s'
  end.

Fixpoint bytes (s : str) : list N :=
  match s with
  | [] => []
  | c :: s' => utf8_encode c ++ bytes s'
  end.

(** *** Character classes of the standard library ([char] and [u8] methods) *)

Definition in_range (lo hi c : N) : bool := (lo <=? c) && (c <=? hi).
Definition is_ascii_digit (c : N) : bool := in_range 48 57 c.
Definition is_ascii_uppercase (c : N) : bool := in_range 65 90 c.
Definition is_ascii_lowercase (c : N) : bool := in_range 97 122 c.
Definition is_ascii_alphanumeric (c : N) : bool :=
  is_ascii_digit c || is_ascii_uppercase c || is_ascii_lowercase c.
Definition is_ascii_hexdigit (c : N) : bool :=
  is_ascii_digit c || in_range 65 70 c || in_range 97 102 c.
(** [char::is_ascii_whitespace]: space, tab, line feed, form feed, carriage return. *)
Definition is_ascii_whitespace (c : N) : bool :=
  (c =? 32) || (c =? 9) || (c =? 10) || (c =? 12) || (c =? 13).
(** [char::is_whitespace]: the Unicode [White_Space] property. *)
Definition is_whitespace (c : N) : bool :=
  in_range 9 13 c || (c =? 32) || (c =? 133) || (c =? 160) || (c =? 5760)
  || in_range 8192 8202 c || (c =? 8232) || (c =? 8233) || (c =? 8239)
  || (c =? 8287) || (c =? 12288).
(** [char::is_control]: the Unicode category [Cc]. *)
Definition is_control (c : N) : bool := (c <=? 31) || in_range 127 159 c.
Definition to_ascii_lowercase (c : N) : N := if is_ascii_uppercase c then c + 32 else c.
Definition is_ascii (s : str) : bool := forallb (λ c, c <? 128) s.

(** *** [str] methods *)

Fixpoint drop_while (p : N → bool) (s : str) : str :=
  match s with
  | [] => []
  | c :: s' => if p c then drop_while p s' else s
  end.

Definition trim_start (s : str) : str := drop_while is_whitespace s.
Definition trim_end (s : str) : str := reverse (drop_while is_whitespace (reverse s)).
Definition trim (s : str) : str := trim_end (trim_start s).
Definition trim_end_matches (c : N) (s : str) : str :=
  reverse (drop_while (N.eqb c) (reverse s)).

Fixpoint strip_prefix (p s : str) : option str :=
  match p, s with
  | [], _ => Some s
  | a :: p', b :: s' => if a =? b then strip_prefix p' s' else None
  | _ :: _, [] => None
  end.

Definition starts_with (p s : str) : bool :=
  match strip_prefix p s with Some _ => true | None => false end.
Definition ends_with_char (c : N) (s : str) : bool :=
  match last s with Some d => d =? c | None => false end.

Fixpoint split_once (c : N) (s : str) : option (str * str) :=
  match s with
  | [] => None
  | d :: s' => if d =? c then Some ([], s')
               else match split_once c s' with
                    | Some (a, b) => Some (d :: a, b)
                    | None => None
                    end
  end.

(** [str::split(char)]: never empty, one more part than separators. *)
Fixpoint split (c : N) (s : str) : list str :=
  match s with
  | [] => [[]]
  | d :: s' => if d =? c then [] :: split c s'
               else match split c s' with
                    | part :: rest => (d :: part) :: rest
                    | [] => [[d]]
                    end
  end.

Fixpoint contains_str (p s : str) : bool :=
  starts_with p s || match s with [] => false | _ :: s' => contains_str p s' end.

Definition contains_char (c : N) (s : str) : bool := existsb (N.eqb c) s.

Fixpoint join (sep : str) (l : list str) : str :=
  match l with
  | [] => []
  | [s] => s
  | s :: l' => s ++ sep ++ join sep l'
  end.

(** The order of strings and of integer sequences: [Ord] compares bytes, which for
    UTF-8 is the order of the code points. *)
Fixpoint lex_ltb (a b : list N) : bool :=
  match a, b with
  | x :: a, y :: b => (x <? y) || ((x =? y) && lex_ltb a b)
  | [], _ :: _ => true
  | _, [] => false
  end.

(** [BTreeSet::insert] on the sorted list of the set's keys. *)
Fixpoint key_insert (x : str) (l : list str) : list str :=
  match l with
  | [] => [x]
  | y :: l' => if lex_ltb x y then x :: l
               else if lex_ltb y x then y :: key_insert x l'
               else l
  end.

(** [slice::chunks]: pieces of [n] elements, the last one possibly shorter. *)
Fixpoint chunks_fuel {A : Type} (fuel n : nat) (l : list A) : list (list A) :=
  match fuel, l with
  | S fuel, _ :: _ => take n l :: chunks_fuel fuel n (drop n l)
  | _, _ => []
  end.
Definition chunks {A : Type} (n : nat) (l : list A) : list (list A) := chunks_fuel (length l) n l.

(** ** Machine integers

    [u64] values are natural numbers at most [u64_max]; the arithmetic of the
    source is written out with the method it uses. *)

Definition u32_max : N := 4294967295.
Definition u64_max : N := 18446744073709551615.
Definition i64_max : N := 9223372036854775807.
Definition saturating_add (a b : N) : N := N.min (a + b) u64_max.
Definition saturating_sub (a b : N) : N := a - b.
Definition saturating_mul (a b : N) : N := N.min (a * b) u64_max.
Definition checked_add (a b : N) : option N :=
  if a + b <=? u64_max then Some (a + b) else None.
Definition checked_sub (a b : N) : option N := if b <=? a then Some (a - b) else None.

(** ** Decimal text of integers ([Display] and [FromStr] of [u64]) *)

Fixpoint show_fuel (f : nat) (n : N) : str :=
  match f with
  | O => []
  | S f' => (if n <? 10 then [] else show_fuel f' (n / 10)) ++ [48 + n mod 10]
  end.

Definition show_u64 (n : N) : str := show_fuel (S (N.to_nat (N.log2 n))) n.

Definition pad_left (width : nat) (s : str) : str :=
  replicate (width - length s) 48 ++ s.

Definition dec_step (acc : option N) (c : N) : option N :=
  match acc with
  | Some a => if is_ascii_digit c then Some (a * 10 + (c - 48)) else None
  | None => None
  end.

Definition parse_digits (s : str) : option N := foldl dec_step (Some 0) s.

Definition parse_u64 (s : str) : option N :=
  let digits := match s with 43 :: s' => s' | _ => s end in
  match digits with
  | [] => None
  | _ => match parse_digits digits with
         | Some n => if n <=? u64_max then Some n else None
         | None => None
         end
  end.

(** ** Results *)

Inductive result (E A : Type) : Type :=
  | Ok (a : A)
  | Err (e : E).
Arguments Ok {E A} a.
Arguments Err {E A} e.

Definition is_ok {E A} (r : result E A) : bool := match r with Ok _ => true | Err _ => false end.

Definition ok_or {E A} (e : E) (x : option A) : result E A :=
  match x with Some a => Ok a | None => Err e end.

(** [Option::is_some] and [Option::filter] *)
Definition is_some {A : Type} (x : option A) : bool := match x with Some _ => true | None => false end.
Definition option_filter {A : Type} (p : A → bool) (x : option A) : option A :=
  match x with Some a => if p a then Some a else None | None => None end.

Lemma option_filter_Some {A : Type} (p : A → bool) x a : option_filter p x = Some a ↔ x = Some a ∧ p a = true.
Proof.
  destruct x as [b|]; simpl; [|split; [done|by intros [? _]]].
  destruct (p b) eqn:Hb; (split; [intros [= <-]|intros [[= ->] Ha]]); congruence || done.
Qed.

Lemma existsb_false_elem {A : Type} (p : A → bool) l x : existsb p l = false → x ∈ l → p x = true → False.
Proof.
  intros Hn Hx Hp. assert (existsb p l = true); [|congruence]. apply existsb_exists. exists x. by rewrite <- list_elem_of_In.
Qed.

#[global] Instance result_ret {E} : MRet (result E) := λ A a, Ok a.
#[global] Instance result_bind {E} : MBind (result E) := λ A B f r,
  match r with Ok a => f a | Err e => Err e end.

(** ** Tactics and hint databases of the development *)

(** [keys]: side conditions that two datastore keys differ.
    [rust]: routine facts about strings, options and integers. *)
Create HintDb keys discriminated.
Create HintDb rust discriminated.

(** Reflect boolean tests of the code in the hypotheses and the goal. *)
Ltac reflect :=
  repeat match goal with
  | H : _ && _ = true |- _ => apply andb_true_iff in H; destruct H
  | H : _ || _ = false |- _ => apply orb_false_iff in H; destruct H
  | H : negb _ = true |- _ => apply negb_true_iff in H
  | H : negb _ = false |- _ => apply negb_false_iff in H
  | H : (_ <=? _)%N = true |- _ => apply N.leb_le in H
  | H : (_ <=? _)%N = false |- _ => apply N.leb_gt in H
  | H : (_ <? _)%N = true |- _ => apply N.ltb_lt in H
  | H : (_ <? _)%N = false |- _ => apply N.ltb_ge in H
  | H : (_ =? _)%N = true |- _ => apply N.eqb_eq in H
  | H : (_ =? _)%N = false |- _ => apply N.eqb_neq in H
  | H : bool_decide _ = true |- _ => apply bool_decide_eq_true in H
  | H : bool_decide _ = false |- _ => apply bool_decide_eq_false in H
  end.

(** Case split on every scrutinee that blocks the goal or a hypothesis. *)
Ltac split_ifs := repeat case_match; simplify_eq/=.

Ltac deex := repeat match goal with
  | H : ∃ x, _ |- _ => let x' := fresh x in destruct H as [x' H]
  | H : _ ∧ _ |- _ => destruct H
  end.

(** ** Facts about integers *)

Lemma saturating_add_le a b : saturating_add a b ≤ a + b.
Proof. unfold saturating_add. lia. Qed.

Lemma saturating_add_max a b : saturating_add a b ≤ u64_max.
Proof. unfold saturating_add. lia. Qed.

Lemma saturating_add_ge a b : a ≤ u64_max → a ≤ saturating_add a b.
Proof. unfold saturating_add. lia. Qed.

Lemma saturating_add_exact a b : a + b ≤ u64_max → saturating_add a b = a + b.
Proof. unfold saturating_add. lia. Qed.

Lemma saturating_succ_ne a : a < u64_max → saturating_add a 1 ≠ a.
Proof. unfold saturating_add. lia. Qed.

Lemma checked_add_Some a b c : checked_add a b = Some c ↔ c = a + b ∧ a + b ≤ u64_max.
Proof. unfold checked_add. destruct (N.leb_spec (a + b) u64_max); split; intros; simplify_eq; intuition (subst; done || lia). Qed.

#[export] Hint Resolve saturating_add_le saturating_add_max : rust.

(** ** Facts about orders and chunks *)

Definition lex_lt (a b : list N) : Prop := lex_ltb a b = true.

#[global] Instance lex_lt_strict : StrictOrder lex_lt.
Proof.
  unfold lex_lt. split.
  - intros a. unfold complement. induction a as [|x a IH]; simpl; [done|].
    rewrite N.ltb_irrefl, N.eqb_refl. exact IH.
  - intros a. induction a as [|x a IH]; intros [|y b] [|z c]; simpl; try done.
    intros [Hxy|[Hxy Hab]%andb_true_iff]%orb_true_iff [Hyz|[Hyz Hbc]%andb_true_iff]%orb_true_iff;
      apply orb_true_iff.
    1-3: left; lia.
    right. apply andb_true_iff. split; [lia|by eapply IH].
Qed.

Lemma lex_lt_total a b : a ≠ b → lex_lt a b ∨ lex_lt b a.
Proof.
  unfold lex_lt. revert b. induction a as [|x a IH]; intros [|y b] Hne; simpl; [done|by left|by right|].
  destruct (N.lt_trichotomy x y) as [Hxy|[->|Hxy]].
  - left. apply orb_true_iff. left. lia.
  - rewrite N.ltb_irrefl, N.eqb_refl. simpl. apply IH. congruence.
  - right. apply orb_true_iff. left. lia.
Qed.

Lemma lex_lt_neq a b : lex_lt a b → a ≠ b.
Proof. intros Hab ->. by apply (irreflexivity lex_lt) in Hab. Qed.

Lemma lex_ltb_false a b : lex_ltb a b = false → a = b ∨ lex_lt b a.
Proof.
  intros Hab. destruct (decide (a = b)) as [|Hne]; [by left|]. destruct (lex_lt_total a b Hne); [|by right].
  unfold lex_lt in *. congruence.
Qed.

Lemma key_insert_elem x y l : y ∈ key_insert x l ↔ y = x ∨ y ∈ l.
Proof.
  induction l as [|z l IH]; simpl; [set_solver|]. destruct (lex_ltb x z) eqn:H1; [set_solver|].
  destruct (lex_ltb z x) eqn:H2; [set_solver|].
  apply lex_ltb_false in H1 as [->|H1]; [set_solver|]. unfold lex_lt in H1. congruence.
Qed.

Lemma key_insert_sorted x l : StronglySorted lex_lt l → StronglySorted lex_lt (key_insert x l).
Proof.
  induction 1 as [|y l Hs IH Hall]; simpl; [repeat constructor|]. destruct (lex_ltb x y) eqn:H1.
  - constructor; [by constructor|]. constructor; [done|]. eapply Forall_impl; [done|]. intros z Hz.
    by transitivity y.
  - destruct (lex_ltb y x) eqn:H2; [|by constructor]. constructor; [done|]. apply Forall_forall.
    intros z [->|Hz]%key_insert_elem; [done|]. rewrite Forall_forall in Hall. auto.
Qed.

Lemma chunks_fuel_concat {A : Type} fuel n (l : list A) :
  (0 < n)%nat → (length l ≤ fuel)%nat → concat (chunks_fuel fuel n l) = l.
Proof.
  intros Hn. revert l. induction fuel as [|fuel IH]; intros [|x l] Hl; simpl in *; try done; try lia.
  destruct n as [|n]; [lia|]. rewrite IH.
  - by rewrite (take_drop (S n) (x :: l)).
  - rewrite length_drop. simpl. lia.
Qed.

Lemma chunks_concat {A : Type} n (l : list A) : (0 < n)%nat → concat (chunks n l) = l.
Proof. intros Hn. by apply chunks_fuel_concat. Qed.

(** ** Facts about decimal text *)

Lemma dec_step_None s : foldl dec_step None s = None.
Proof. induction s; simpl; done. Qed.

Lemma is_ascii_digit_spec d : d < 10 → is_ascii_digit (48 + d) = true.
Proof. intros. unfold is_ascii_digit, in_range. apply andb_true_iff. split; apply N.leb_le; lia. Qed.

Lemma show_fuel_value f n : n < 2 ^ N.of_nat f → parse_digits (show_fuel f n) = Some n.
Proof.
  unfold parse_digits. revert n. induction f as [|f IH]; intros n Hn.
  { simpl in *. f_equal. lia. }
  simpl. rewrite foldl_app. case_match eqn:Hlt; reflect; simpl.
  - rewrite N.mod_small, is_ascii_digit_spec by lia. f_equal. lia.
  - rewrite IH.
    + simpl. rewrite is_ascii_digit_spec by (apply N.mod_lt; lia).
      f_equal. pose proof (N.Div0.div_mod n 10). lia.
    + assert (n / 10 ≤ n / 2) by (apply N.div_le_compat_l; lia).
      enough (n / 2 < 2 ^ N.of_nat f) by lia.
      apply N.Div0.div_lt_upper_bound.
      rewrite Nat2N.inj_succ, N.pow_succ_r' in Hn. lia.
Qed.

Lemma show_u64_value n : parse_digits (show_u64 n) = Some n.
Proof.
  unfold show_u64. apply show_fuel_value.
  rewrite Nat2N.inj_succ, N2Nat.id.
  destruct (N.eq_dec n 0) as [->|]; [done|]. apply N.log2_spec. lia.
Qed.

Lemma show_fuel_digits f n : Forall (λ c, 48 ≤ c < 58) (show_fuel f n).
Proof.
  revert n. induction f as [|f IH]; intros n; simpl; [done|].
  apply Forall_app. split.
  - case_match; [done|apply IH].
  - repeat constructor; pose proof (N.mod_lt n 10 ltac:(done)); lia.
Qed.

Lemma show_u64_nonempty n : show_u64 n ≠ [].
Proof. unfold show_u64. simpl. intros H%app_eq_nil. naive_solver. Qed.

Lemma parse_show n : parse_u64 (show_u64 n) = if n <=? u64_max then Some n else None.
Proof.
  pose proof (show_u64_value n) as Hv.
  pose proof (show_fuel_digits (S (N.to_nat (N.log2 n))) n) as Hd. fold (show_u64 n) in Hd.
  pose proof (show_u64_nonempty n) as Hne. unfold parse_u64.
  destruct (show_u64 n) as [|c s] eqn:E; [done|].
  assert (Hc : match c :: s with 43 :: s' => s' | _ => c :: s end = c :: s).
  { inversion Hd; subst.
    destruct c as [|p]; [lia|]. do 6 (destruct p as [p|p|]; try done; try lia). }
  by rewrite Hc, Hv.
Qed.

(** Printing a [u64] and parsing it back is the identity. *)
Lemma parse_show_u64 n : n ≤ u64_max → parse_u64 (show_u64 n) = Some n.
Proof. intros Hn. rewrite parse_show. by apply N.leb_le in Hn as ->. Qed.

#[global] Instance show_u64_inj : Inj (=) (=) show_u64.
Proof.
  intros a b H. apply (f_equal parse_digits) in H.
  rewrite !show_u64_value in H. by simplify_eq.
Qed.

Lemma show_u64_digits n : Forall (λ c, 48 ≤ c < 58) (show_u64 n).
Proof. apply show_fuel_digits. Qed.

(** ** Facts about keys

    Keys are built by appending text to a literal prefix.  Two prefixes neither
    of which is a prefix of the other never produce the same key. *)

Fixpoint apart (p q : str) : bool :=
  match p, q with
  | a :: p', b :: q' => negb (a =? b) || apart p' q'
  | _, _ => false
  end.

Lemma apart_app p q a b : apart p q = true → p ++ a ≠ q ++ b.
Proof.
  revert q. induction p as [|x p IH]; intros [|y q]; try done. simpl.
  intros [Hxy|Hr]%orb_true_iff Heq; simplify_eq.
  - reflect. done.
  - by apply (IH q).
Qed.

Lemma apart_app_l p q a : apart p q = true → p ++ a ≠ q.
Proof. intros H. rewrite <- (app_nil_r q). by apply apart_app. Qed.

Lemma apart_app_r p q b : apart p q = true → p ≠ q ++ b.
Proof. intros H. rewrite <- (app_nil_r p). by apply apart_app. Qed.

Lemma apart_ne p q : apart p q = true → p ≠ q.
Proof. intros H. rewrite <- (app_nil_r p), <- (app_nil_r q). by apply apart_app. Qed.

(** Decide that two keys built from literal prefixes differ. *)
Ltac key_neq :=
  solve [ assumption
        | apply not_eq_sym; assumption
        | apply apart_app; vm_compute; reflexivity
        | apply apart_app_l; vm_compute; reflexivity
        | apply apart_app_r; vm_compute; reflexivity
        | apply apart_ne; vm_compute; reflexivity ].

#[export] Hint Extern 1 (_ ≠ _) => key_neq : keys.

Lemma strip_prefix_app p s : strip_prefix p (p ++ s) = Some s.
Proof. induction p as [|a p IH]; simpl; [done|]. by rewrite N.eqb_refl. Qed.

Lemma strip_prefix_Some p s t : strip_prefix p s = Some t → s = p ++ t.
Proof.
  revert s. induction p as [|a p IH]; intros s; simpl; [naive_solver|].
  destruct s as [|b s]; [done|]. case_match; [|done]. reflect. subst.
  intros H. by rewrite (IH s H).
Qed.

Lemma starts_with_spec p s : starts_with p s = true ↔ ∃ t, s = p ++ t.
Proof.
  unfold starts_with. split.
  - case_match eqn:H; [|done]. intros _. apply strip_prefix_Some in H. eauto.
  - intros [t ->]. by rewrite strip_prefix_app.
Qed.
