(* ===== verification/Sable.v ===== *)
(** * The outside world: libraries, the datastore, and the effect monad

    Everything the store module of RustyAuth calls but does not define is a
    parameter here, with the documented behaviour the code relies on as laws of a
    class: the [uuid] crate, SHA-256 / hex / base64url, [serde_json], the
    [webauthn-rs] types, and SableDB (the Valkey-compatible datastore).  The
    operations of the store are then programs of a small state-and-error monad
    whose world holds the datastore and whose oracle supplies clock readings,
    random bytes, fresh UUIDs and the fate of every datastore round trip: a trip
    is delivered, or its request is lost, or its reply is lost after the commands
    took effect. *)

From S2P Require Import Prelude.

(** ** UUIDs *)

(** [uuid::Uuid]: a 128-bit value, ordered as an unsigned integer. *)
Record Uuid := mkUuid { uuid_bits : N; uuid_wf : bool_decide (uuid_bits < 2 ^ 128) }.

#[global] Instance uuid_bits_inj : Inj (=) (=) uuid_bits.
Proof. intros [a Ha] [b Hb]; simpl; intros ->. f_equal. apply proof_irrel. Qed.

#[global] Instance Uuid_eq_dec : EqDecision Uuid.
Proof.
  intros u v. destruct (decide (uuid_bits u = uuid_bits v)) as [H|H].
  - left. by apply uuid_bits_inj.
  - right. by intros ->.
Defined.

Definition uuid_ltb (u v : Uuid) : bool := uuid_bits u <? uuid_bits v.

Class ExtUuid := {
  uuid_show : Uuid → str;
  uuid_parse : str → option Uuid;
  uuid_parse_show u : uuid_parse (uuid_show u) = Some u;
  (** hyphenated hexadecimal text *)
  uuid_show_chars u : forallb (λ c, is_ascii_hexdigit c || (c =? 45)) (uuid_show u) = true;
  uuid_show_nonempty u : uuid_show u ≠ []
}.

#[global] Instance uuid_show_inj `{ExtUuid} : Inj (=) (=) uuid_show.
Proof. intros u v Huv. apply (f_equal uuid_parse) in Huv. rewrite !uuid_parse_show in Huv. by simplify_eq. Qed.

(** ** Digests and text encodings *)

Definition is_b64url (c : N) : bool :=
  is_ascii_alphanumeric c || (c =? 45) || (c =? 95).

Definition is_byte (b : N) : Prop := b < 256.

Class ExtCrypto := {
  sha256 : list N → list N;
  sha256_length b : length (sha256 b) = 32%nat;
  sha256_bytes b : Forall is_byte (sha256 b);
  hex_encode : list N → str;
  hex_encode_length b : length (hex_encode b) = (2 * length b)%nat;
  hex_encode_digits b : forallb is_ascii_hexdigit (hex_encode b) = true;
  hex_decode : str → option (list N);
  hex_decode_encode b : Forall is_byte b → hex_decode (hex_encode b) = Some b;
  hex_decode_odd s : Nat.odd (length s) = true → hex_decode s = None;
  b64url_encode : list N → str;
  b64url_length b : length (b64url_encode b) = ((length b * 4 + 2) / 3)%nat;
  b64url_alphabet b : forallb is_b64url (b64url_encode b) = true
}.

(** [subtle::ConstantTimeEq] on byte strings is equality. *)
Definition ct_eq (a b : str) : bool := bool_decide (a = b).

(** ** [serde_json] *)

Class Serde (A : Type) := {
  to_json : A → str;
  from_json : str → option A;
  from_to_json a : from_json (to_json a) = Some a
}.
#[global] Hint Mode Serde ! : typeclass_instances.

Class ExtJson := {
  Value : Type;
  Value_eq_dec :: EqDecision Value;
  json_empty_object : Value;
  (** [json!({ name: number, .. })] *)
  json_numbers : list (str * N) → Value
}.

(** ** [webauthn-rs] *)

Class ExtWebauthn := {
  Passkey : Type;
  AuthenticationResult : Type;
  PasskeyRegistration : Type;
  PasskeyAuthentication : Type;
  passkey_cred_id : Passkey → list N;
  passkey_counter : Passkey → N;
  result_cred_id : AuthenticationResult → list N;
  result_counter : AuthenticationResult → N;
  result_user_verified : AuthenticationResult → bool;
  (** [Passkey::update_credential]: [None] when the credential ids differ,
      otherwise the passkey after the update and whether it changed. *)
  update_credential : Passkey → AuthenticationResult → option (Passkey * bool)
}.

(** ** SableDB

    A stored value and the server time at which it expires, if it has a TTL. *)

Record entry := Entry { e_val : str; e_deadline : option N }.

Definition expired (t : N) (e : entry) : bool :=
  match e_deadline e with Some d => d <=? t | None => false end.

(** What [GET key] sees at server time [t]. *)
Definition live (t : N) (m : gmap str entry) (k : str) : option str :=
  match m !! k with
  | Some e => if expired t e then None else Some (e_val e)
  | None => None
  end.

(** What [TTL key] answers: -2 for no key, -1 for no expiry, else the seconds left. *)
Definition time_to_live (t : N) (x : option entry) : Z :=
  match x with
  | Some e =>
      if expired t e then (-2)%Z
      else match e_deadline e with Some d => Z.of_N (d - t) | None => (-1)%Z end
  | None => (-2)%Z
  end.

Inductive cmd :=
  | GET (k : str)
  | MGET (ks : list str)
  | GETDEL (k : str)
  | GETEX (k : str) (ttl : N)
  | SET (k v : str)
  | SETEX (k v : str) (ttl : N)
  | SETNX (k v : str)
  | SET_NX_EX (k v : str) (ttl : N)
  | SET_XX_EX (k v : str) (ttl : N)
  | DEL (ks : list str)
  | DELIFEQ (k v : str)
  | MSET (kvs : list (str * str))
  | INCR (k : str)
  | EXPIRE (k : str) (ttl : N)
  | TTL (k : str)
  | PING.

Inductive reply :=
  | RNil
  | ROk
  | RInt (n : N)
  | RSigned (n : Z)
  | RBulk (v : str)
  | RArray (vs : list (option str))
  | RErr.

Definition bulk (x : option str) : reply := match x with Some v => RBulk v | None => RNil end.

Definition mset (kvs : list (str * str)) (m : gmap str entry) : gmap str entry :=
  foldl (λ m kv, <[kv.1 := Entry kv.2 None]> m) m kvs.

Definition del_all (ks : list str) (m : gmap str entry) : gmap str entry :=
  foldl (λ m k, delete k m) m ks.

(** The documented effect of each command at server time [t]. *)
Definition exec_cmd (t : N) (c : cmd) (m : gmap str entry) : reply * gmap str entry :=
  match c with
  | GET k => (bulk (live t m k), m)
  | MGET ks => (RArray (live t m <$> ks), m)
  | GETDEL k => (bulk (live t m k), delete k m)
  | GETEX k ttl =>
      match live t m k with
      | Some v => (RBulk v, <[k := Entry v (Some (t + ttl))]> m)
      | None => (RNil, m)
      end
  | SET k v => (ROk, <[k := Entry v None]> m)
  | SETEX k v ttl =>
      if ttl =? 0 then (RErr, m) else (ROk, <[k := Entry v (Some (t + ttl))]> m)
  | SETNX k v =>
      match live t m k with
      | Some _ => (RInt 0, m)
      | None => (RInt 1, <[k := Entry v None]> m)
      end
  | SET_NX_EX k v ttl =>
      match live t m k with
      | Some _ => (RNil, m)
      | None => (ROk, <[k := Entry v (Some (t + ttl))]> m)
      end
  | SET_XX_EX k v ttl =>
      match live t m k with
      | Some _ => (ROk, <[k := Entry v (Some (t + ttl))]> m)
      | None => (RNil, m)
      end
  | DEL ks => (RInt (N.of_nat (length (List.filter (λ k, bool_decide (is_Some (live t m k))) ks))),
               del_all ks m)
  | DELIFEQ k v =>
      if bool_decide (live t m k = Some v) then (RInt 1, delete k m) else (RInt 0, m)
  | MSET kvs => (ROk, mset kvs m)
  | INCR k =>
      match live t m k with
      | None => (RInt 1, <[k := Entry (show_u64 1) None]> m)
      | Some v => match parse_u64 v with
                  | Some n =>
                      if n <? i64_max
                      then (RInt (n + 1), <[k := Entry (show_u64 (n + 1)) (m !! k ≫= e_deadline)]> m)
                      else (RErr, m)
                  | None => (RErr, m)
                  end
      end
  | EXPIRE k ttl =>
      match live t m k with
      | Some v => (RInt 1, <[k := Entry v (Some (t + ttl))]> m)
      | None => (RInt 0, m)
      end
  | TTL k => (RSigned (time_to_live t (m !! k)), m)
  | PING => (RBulk #"PONG", m)
  end.

(** A pipeline runs its commands in order without interleaving; a failing
    command does not undo the others. *)
Fixpoint exec_pipe (t : N) (cs : list cmd) (m : gmap str entry) : list reply * gmap str entry :=
  match cs with
  | [] => ([], m)
  | c :: cs' => let '(r, m1) := exec_cmd t c m in
                let '(rs, m2) := exec_pipe t cs' m1 in (r :: rs, m2)
  end.

Class ExtSable := {
  db : Type;
  db_view : db → gmap str entry;
  db_exec : N → list cmd → db → list reply * db;
  db_exec_reply t cs d : (db_exec t cs d).1 = (exec_pipe t cs (db_view d)).1;
  db_exec_view t cs d : db_view (db_exec t cs d).2 = (exec_pipe t cs (db_view d)).2;
  (** The batches of one complete [SCAN MATCH prefix*] cycle, in the order the
      server yields them: every live key with the prefix at least once. *)
  db_scan : N → str → db → list (list str);
  db_scan_spec t p d k :
    k ∈ concat (db_scan t p d) ↔ starts_with p k = true ∧ is_Some (live t (db_view d) k)
}.

Class Env := {
  env_uuid :: ExtUuid;
  env_crypto :: ExtCrypto;
  env_json :: ExtJson;
  env_webauthn :: ExtWebauthn;
  env_sable :: ExtSable
}.

(** ** Errors *)

Inductive StorePolicyError :=
  | IdentifierAlreadyExists | IdentifierLimit | IdentifierNotLinked | FinalIdentifier
  | CredentialAlreadyExists | UserMissing | CredentialNotLinked | FinalCredential
  | OrganizationMissing | ServiceAccountMissing | ServiceCredentialMissing
  | InvalidServiceCredential | ServiceScopeDenied | FleetResourceMissing | FleetSlugConflict
  | FleetParentArchived | FleetHasActiveChildren | FleetIdempotencyConflict
  | FleetConnectionAttemptExpired | FleetConnectionConflict
  | FleetAnalyticsIdempotencyConflict | RealmPairingInvalid | RealmFleetGrantInvalid
  | RemoteMutationIdempotencyConflict | RemoteMutationPending.

Inductive EventLogIntegrityError :=
  | CursorExpired (minimum_available : N)
  | MissingSequence (sequence : N)
  | MalformedRecord (sequence : N)
  | UnexpectedSequence (expected actual : N).

(** [anyhow::Error] as the store produces it. *)
Inductive error :=
  | EDb                                  (** the datastore round trip failed *)
  | EDecode                              (** stored JSON or number does not decode *)
  | EUuid                                (** stored text is not a UUID *)
  | EPolicy (e : StorePolicyError)
  | ELog (e : EventLogIntegrityError)
  | EBail (msg : String.string)          (** [bail!] and [Option::context] *)
  | ECommitRejected                      (** [AuthenticationCommitError::Rejected] *)
  | EPanic.                              (** [expect], slice and index panics *)

#[global] Arguments EBail msg%_string_scope.

(** ** The monad *)

Inductive fate := Delivered | LostRequest | LostReply.

Record trip := Trip { t_at : N; t_fate : fate }.

Record oracle := Oracle {
  o_now : nat → N;
  o_rand : nat → nat → N;
  o_uuid : nat → Uuid;
  o_trip : nat → trip
}.

Section Monad.
Context `{Env}.

Record world := World {
  w_db : db;
  w_now : nat;
  w_rand : nat;
  w_uuid : nat;
  w_trip : nat
}.

Definition vw (w : world) : gmap str entry := db_view (w_db w).

Definition M (E A : Type) : Type := oracle → world → result E A * world.

#[global] Instance M_ret {E} : MRet (M E) := λ A a o w, (Ok a, w).
#[global] Instance M_bind {E} : MBind (M E) := λ A B k m o w,
  match m o w with
  | (Ok a, w') => k a o w'
  | (Err e, w') => (Err e, w')
  end.

Definition fail {E A} (e : E) : M E A := λ o w, (Err e, w).
Definition lift {E A} (r : result E A) : M E A := λ o w, (r, w).
(** [Option::ok_or] followed by [?]. *)
Definition some_or {E A} (e : E) (x : option A) : M E A := lift (ok_or e x).
(** Early return of an error unless the condition holds. *)
Definition ensure {E} (b : bool) (e : E) : M E unit := if b then mret tt else fail e.
Definition map_err {E F A} (f : E → F) (m : M E A) : M F A := λ o w,
  match m o w with
  | (Ok a, w') => (Ok a, w')
  | (Err e, w') => (Err (f e), w')
  end.
(** Run and keep the outcome as a value. *)
Definition attempt {E F A} (m : M E A) : M F (result E A) := λ o w,
  let '(r, w') := m o w in (Ok r, w').

Fixpoint mapM_ {E A B} (f : A → M E B) (l : list A) : M E (list B) :=
  match l with
  | [] => mret []
  | a :: l' => b ← f a; bs ← mapM_ f l'; mret (b :: bs)
  end.

Fixpoint foldM {E A B} (f : B → A → M E B) (l : list A) (b : B) : M E B :=
  match l with
  | [] => mret b
  | a :: l' => b' ← f b a; foldM f l' b'
  end.

(** *** Clock, randomness, identifiers *)

Definition now {E} : M E N := λ o w,
  (Ok (o_now o (w_now w)),
   World (w_db w) (S (w_now w)) (w_rand w) (w_uuid w) (w_trip w)).

(** [rand::random::<[u8; n]>()] *)
Definition random_bytes {E} (n : nat) : M E (list N) := λ o w,
  (Ok ((λ i, o_rand o (w_rand w) i mod 256) <$> seq 0 n),
   World (w_db w) (w_now w) (S (w_rand w)) (w_uuid w) (w_trip w)).

(** [Uuid::new_v4()] *)
Definition new_v4 {E} : M E Uuid := λ o w,
  (Ok (o_uuid o (w_uuid w)),
   World (w_db w) (w_now w) (w_rand w) (S (w_uuid w)) (w_trip w)).

(** *** Datastore round trips *)

Definition after_trip (w : world) (d : db) : world :=
  World d (w_now w) (w_rand w) (w_uuid w) (S (w_trip w)).

Definition is_err (r : reply) : bool := match r with RErr => true | _ => false end.

(** One round trip with a command or a pipeline ([query_async]). *)
Definition query (cs : list cmd) : M error (list reply) := λ o w,
  let tr := o_trip o (w_trip w) in
  match t_fate tr with
  | LostRequest => (Err EDb, after_trip w (w_db w))
  | LostReply => (Err EDb, after_trip w (db_exec (t_at tr) cs (w_db w)).2)
  | Delivered =>
      let '(rs, d) := db_exec (t_at tr) cs (w_db w) in
      (if existsb is_err rs then Err EDb else Ok rs, after_trip w d)
  end.

Definition execute (cs : list cmd) : M error unit := _ ← query cs; mret tt.

(** A complete [SCAN] cycle over the keys with a prefix, batch by batch; the
    cycle fails if one of its trips does. *)
Definition scan (p : str) : M error (list (list str)) := λ o w,
  let tr := o_trip o (w_trip w) in
  match t_fate tr with
  | Delivered => (Ok (db_scan (t_at tr) p (w_db w)), after_trip w (w_db w))
  | _ => (Err EDb, after_trip w (w_db w))
  end.

(** *** The helpers of [impl Store] in store.rs *)

Definition decode_bulk (rs : list reply) : result error (option str) :=
  match rs with
  | [RNil] => Ok None
  | [RBulk v] => Ok (Some v)
  | _ => Err EDb
  end.

(** [Store::get::<String>] *)
Definition get (k : str) : M error (option str) := rs ← query [GET k]; lift (decode_bulk rs).

(** [Store::get::<u64>] *)
Definition get_u64 (k : str) : M error (option N) :=
  v ← get k;
  match v with
  | None => mret None
  | Some v => lift (match parse_u64 v with Some n => Ok (Some n) | None => Err EDb end)
  end.

(** [Store::get_json] *)
Definition get_json {A} `{Serde A} (k : str) : M error (option A) :=
  v ← get k;
  match v with
  | None => mret None
  | Some v => a ← some_or EDecode (from_json v); mret (Some a)
  end.

(** [Store::take_json] *)
Definition take_json {A} `{Serde A} (k : str) : M error (option A) :=
  rs ← query [GETDEL k];
  v ← lift (decode_bulk rs);
  match v with
  | None => mret None
  | Some v => a ← some_or EDecode (from_json v); mret (Some a)
  end.

(** [Store::set_json_ex] *)
Definition set_json_ex {A} `{Serde A} (k : str) (a : A) (seconds : N) : M error unit :=
  execute [SETEX k (to_json a) seconds].

(** [AsyncCommands::set_nx] with a [bool] reply *)
Definition set_nx (k v : str) : M error bool :=
  rs ← query [SETNX k v];
  lift (match rs with [RInt n] => Ok (negb (n =? 0)) | _ => Err EDb end).

(** [Store::delete] *)
Definition store_delete (k : str) : M error unit := execute [DEL [k]].
End Monad.

#[global] Arguments M : clear implicits.
#[global] Arguments M {_} E A.
