(* ===== verification/Bytes.v ===== *)
(** * Byte strings

    Big-endian integers, the bytes of a UUID, and the UTF-8 decoder of the standard
    library, with the round trips the formats rest on. *)

From S2P Require Import Prelude Sable.

(** ** Big-endian integers ([to_be_bytes], [from_be_bytes]) *)

Fixpoint be_bytes (n : nat) (v : N) : list N :=
  match n with
  | O => []
  | S n => be_bytes n (v / 256) ++ [v mod 256]
  end.

Definition be_value (b : list N) : N := foldl (λ acc x, acc * 256 + x) 0 b.

Lemma be_bytes_length n v : length (be_bytes n v) = n.
Proof. revert v. induction n as [|n IH]; intros v; simpl; [done|]. rewrite length_app, IH. simpl. lia. Qed.

Lemma be_bytes_bytes n v : Forall (λ b, b < 256) (be_bytes n v).
Proof.
  revert v. induction n as [|n IH]; intros v; simpl; [constructor|]. apply Forall_app. split; [done|].
  apply Forall_singleton, N.mod_lt. lia.
Qed.

Lemma be_value_app b x : be_value (b ++ [x]) = be_value b * 256 + x.
Proof. unfold be_value. by rewrite foldl_app. Qed.

Lemma be_value_bytes n v : v < 256 ^ N.of_nat n → be_value (be_bytes n v) = v.
Proof.
  revert v. induction n as [|n IH]; intros v Hv; simpl.
  - rewrite N.pow_0_r in Hv. unfold be_value. simpl. lia.
  - rewrite be_value_app, IH; [pose proof (N.div_mod v 256); lia|].
    rewrite Nat2N.inj_succ, N.pow_succ_r' in Hv. apply N.Div0.div_lt_upper_bound. lia.
Qed.

Lemma be_bytes_inj n v v' : v < 256 ^ N.of_nat n → v' < 256 ^ N.of_nat n → be_bytes n v = be_bytes n v' → v = v'.
Proof. intros Hv Hv' Heq. rewrite <- (be_value_bytes n v), <- (be_value_bytes n v'), Heq by done. done. Qed.

Lemma be_value_lt b : Forall (λ x, x < 256) b → be_value b < 256 ^ N.of_nat (length b).
Proof.
  induction b as [|x b IH] using rev_ind; intros Hb; [done|]. apply Forall_app in Hb as [Hb Hx]. apply Forall_cons in Hx as [Hx _].
  rewrite be_value_app, length_app, Nat2N.inj_add, N.pow_add_r. specialize (IH Hb).
  change (256 ^ N.of_nat (length [x])) with 256. set (P := 256 ^ _) in *. lia.
Qed.

(** ** [Uuid::as_bytes] and [Uuid::from_slice] *)

Definition uuid_as_bytes (u : Uuid) : list N := be_bytes 16 (uuid_bits u).

Definition uuid_of_bits (n : N) : option Uuid :=
  match decide (bool_decide (n < 2 ^ 128)) with
  | left H => Some (mkUuid n H)
  | right _ => None
  end.

Definition uuid_from_slice (b : list N) : option Uuid :=
  if (length b =? 16)%nat then uuid_of_bits (be_value b) else None.

Lemma uuid_from_bytes u : uuid_from_slice (uuid_as_bytes u) = Some u.
Proof.
  unfold uuid_from_slice, uuid_as_bytes. rewrite be_bytes_length, Nat.eqb_refl.
  assert (Hu : uuid_bits u < 2 ^ 128) by (destruct u as [n Hn]; simpl; by apply bool_decide_unpack in Hn).
  rewrite be_value_bytes by exact Hu. unfold uuid_of_bits. case_decide as Hd.
  - f_equal. by apply (inj uuid_bits).
  - destruct Hd. by apply bool_decide_pack.
Qed.

(** ** [String::from_utf8] *)

Definition is_continuation (b : N) : bool := (128 <=? b) && (b <? 192).

(** A Unicode scalar value. *)
Definition is_scalar (c : N) : bool := (c <? 55296) || ((57344 <=? c) && (c <? 1114112)).

Fixpoint from_utf8 (b : list N) : option str :=
  match b with
  | [] => Some []
  | x :: b1 =>
      if x <? 128 then cons x <$> from_utf8 b1
      else match b1 with
      | [] => None
      | y :: b2 =>
          if negb (is_continuation y) then None
          else if x <? 192 then None
          else if x <? 224 then
            let c := (x - 192) * 64 + (y - 128) in
            if c <? 128 then None else cons c <$> from_utf8 b2
          else match b2 with
          | [] => None
          | z :: b3 =>
              if negb (is_continuation z) then None
              else if x <? 240 then
                let c := (x - 224) * 4096 + (y - 128) * 64 + (z - 128) in
                if (c <? 2048) || negb (is_scalar c) then None else cons c <$> from_utf8 b3
              else match b3 with
              | [] => None
              | u :: b4 =>
                  if negb (is_continuation u) then None
                  else
                    let c := (x - 240) * 262144 + (y - 128) * 4096 + (z - 128) * 64 + (u - 128) in
                    if (c <? 65536) || negb (is_scalar c) then None else cons c <$> from_utf8 b4
              end
          end
      end
  end.

Ltac decide_byte t b := let H := fresh in assert (t = b) as H by (unfold is_continuation; lia); rewrite H; clear H; cbn [negb orb].

Lemma from_utf8_2 h l s :
  2 <= h < 32 → l < 64 → from_utf8 (192 + h :: 128 + l :: s) = cons (h * 64 + l) <$> from_utf8 s.
Proof.
  intros Hh Hl. cbn [from_utf8]. decide_byte (192 + h <? 128) false. decide_byte (is_continuation (128 + l)) true.
  decide_byte (192 + h <? 192) false. decide_byte (192 + h <? 224) true. cbv zeta.
  replace ((192 + h - 192) * 64 + (128 + l - 128)) with (h * 64 + l) by lia. by decide_byte (h * 64 + l <? 128) false.
Qed.

Lemma from_utf8_3 h m l s :
  h < 16 → m < 64 → l < 64 → 2048 <= h * 4096 + m * 64 + l → is_scalar (h * 4096 + m * 64 + l) = true →
  from_utf8 (224 + h :: 128 + m :: 128 + l :: s) = cons (h * 4096 + m * 64 + l) <$> from_utf8 s.
Proof.
  intros Hh Hm Hl Hc Hs. cbn [from_utf8]. decide_byte (224 + h <? 128) false. decide_byte (is_continuation (128 + m)) true.
  decide_byte (224 + h <? 192) false. decide_byte (224 + h <? 224) false. decide_byte (is_continuation (128 + l)) true.
  decide_byte (224 + h <? 240) true. cbv zeta.
  replace ((224 + h - 224) * 4096 + (128 + m - 128) * 64 + (128 + l - 128)) with (h * 4096 + m * 64 + l) by lia.
  decide_byte (h * 4096 + m * 64 + l <? 2048) false. by rewrite Hs.
Qed.

Lemma from_utf8_4 g h m l s :
  h < 64 → m < 64 → l < 64 → 65536 <= g * 262144 + h * 4096 + m * 64 + l →
  is_scalar (g * 262144 + h * 4096 + m * 64 + l) = true →
  from_utf8 (240 + g :: 128 + h :: 128 + m :: 128 + l :: s) = cons (g * 262144 + h * 4096 + m * 64 + l) <$> from_utf8 s.
Proof.
  intros Hh Hm Hl Hc Hs. cbn [from_utf8]. decide_byte (240 + g <? 128) false. decide_byte (is_continuation (128 + h)) true.
  decide_byte (240 + g <? 192) false. decide_byte (240 + g <? 224) false. decide_byte (is_continuation (128 + m)) true.
  decide_byte (240 + g <? 240) false. decide_byte (is_continuation (128 + l)) true. cbv zeta.
  replace ((240 + g - 240) * 262144 + (128 + h - 128) * 4096 + (128 + m - 128) * 64 + (128 + l - 128))
    with (g * 262144 + h * 4096 + m * 64 + l) by lia.
  decide_byte (g * 262144 + h * 4096 + m * 64 + l <? 65536) false. by rewrite Hs.
Qed.

(** The digits of a code point to base 64. *)
Lemma sextet_digits c :
  c = c / 64 * 64 + c mod 64 ∧ c = c / 4096 * 4096 + (c / 64) mod 64 * 64 + c mod 64 ∧
  c = c / 262144 * 262144 + (c / 4096) mod 64 * 4096 + (c / 64) mod 64 * 64 + c mod 64.
Proof.
  pose proof (N.div_mod c 64 ltac:(lia)). pose proof (N.div_mod (c / 64) 64 ltac:(lia)).
  pose proof (N.div_mod (c / 64 / 64) 64 ltac:(lia)).
  replace (c / 4096) with (c / 64 / 64) by (rewrite N.Div0.div_div; done).
  replace (c / 262144) with (c / 64 / 64 / 64) by (rewrite !N.Div0.div_div; done). lia.
Qed.

Lemma from_utf8_encode c s : is_scalar c = true → from_utf8 (utf8_encode c ++ s) = cons c <$> from_utf8 s.
Proof.
  intros Hc. destruct (sextet_digits c) as (E2 & E3 & E4).
  assert (Hm : ∀ x, x mod 64 < 64) by (intros; apply N.mod_lt; lia).
  unfold utf8_encode. destruct (c <? 128) eqn:H1; [cbn [app from_utf8]; by rewrite H1|].
  destruct (c <? 2048) eqn:H2; [|destruct (c <? 65536) eqn:H3]; cbn [app]; reflect.
  - rewrite from_utf8_2; [by rewrite <- E2|pose proof (Hm c); lia|done].
  - rewrite from_utf8_3; [by rewrite <- E3| |done|done|by rewrite <- E3|by rewrite <- E3].
    pose proof (Hm c). pose proof (Hm (c / 64)). lia.
  - rewrite from_utf8_4; [by rewrite <- E4|done|done|done|by rewrite <- E4|by rewrite <- E4].
Qed.

Lemma from_utf8_bytes s : forallb is_scalar s = true → from_utf8 (bytes s) = Some s.
Proof.
  induction s as [|c s IH]; [done|]. cbn [forallb bytes]. intros [Hc Hs]%andb_true_iff.
  by rewrite from_utf8_encode, IH.
Qed.

(** *** The encoder inverts the decoder *)

Lemma utf8_encode_2 h l : 2 ≤ h → h < 32 → l < 64 → utf8_encode (h * 64 + l) = [192 + h; 128 + l].
Proof.
  intros Hh Hh' Hl. unfold utf8_encode. replace (_ <? 128) with false by lia. replace (_ <? 2048) with true by lia.
  rewrite N.div_add_l, N.div_small, N.add_0_r, (N.add_comm (h * 64)), N.Div0.mod_add, N.mod_small by lia. done.
Qed.

Lemma code_sextets h m l : m < 64 → l < 64 →
  (h * 4096 + m * 64 + l) / 4096 = h ∧ ((h * 4096 + m * 64 + l) / 64) mod 64 = m ∧ (h * 4096 + m * 64 + l) mod 64 = l.
Proof.
  intros Hm Hl. assert (Hdiv : (h * 4096 + m * 64 + l) / 64 = h * 64 + m).
  { replace (h * 4096 + m * 64 + l) with ((h * 64 + m) * 64 + l) by lia. rewrite N.div_add_l, N.div_small by lia. lia. }
  split_and!.
  - change 4096 with (64 * 64) at 2. rewrite <- N.Div0.div_div, Hdiv, N.div_add_l, N.div_small by lia. lia.
  - rewrite Hdiv, N.add_comm, N.Div0.mod_add. by apply N.mod_small.
  - replace (h * 4096 + m * 64 + l) with (l + (h * 64 + m) * 64) by lia. rewrite N.Div0.mod_add. by apply N.mod_small.
Qed.

Lemma utf8_encode_3 h m l : 2048 ≤ h * 4096 + m * 64 + l → h < 16 → m < 64 → l < 64 →
  utf8_encode (h * 4096 + m * 64 + l) = [224 + h; 128 + m; 128 + l].
Proof.
  intros Hc Hh Hm Hl. destruct (code_sextets h m l Hm Hl) as (E1 & E2 & E3). unfold utf8_encode.
  replace (_ <? 128) with false by lia. replace (_ <? 2048) with false by lia. replace (_ <? 65536) with true by lia. by rewrite E1, E2, E3.
Qed.

Lemma utf8_encode_4 g h m l : 65536 ≤ g * 262144 + h * 4096 + m * 64 + l → h < 64 → m < 64 → l < 64 →
  utf8_encode (g * 262144 + h * 4096 + m * 64 + l) = [240 + g; 128 + h; 128 + m; 128 + l].
Proof.
  intros Hc Hh Hm Hl. replace (g * 262144 + h * 4096) with ((g * 64 + h) * 4096) in * by lia.
  destruct (code_sextets (g * 64 + h) m l Hm Hl) as (E1 & E2 & E3). unfold utf8_encode.
  replace (_ <? 128) with false by lia. replace (_ <? 2048) with false by lia. replace (_ <? 65536) with false by lia.
  change 262144 with (4096 * 64). rewrite <- N.Div0.div_div, E1, E2, E3, N.div_add_l, N.div_small by lia.
  rewrite (N.add_comm (g * 64)), N.Div0.mod_add, N.mod_small by lia. by rewrite N.add_0_r.
Qed.

Lemma from_utf8_inv b s : from_utf8 b = Some s → bytes s = b.
Proof.
  remember (length b) as n eqn:Hn. revert b s Hn. induction n as [n IH] using lt_wf_ind. intros b s -> Hs.
  assert (Hrec : ∀ c b' s', cons c <$> from_utf8 b' = Some s' → (length b' < length b)%nat → bytes s' = utf8_encode c ++ b').
  { intros c b' s' Hc Hlt. destruct (from_utf8 b') as [t|] eqn:Ht; [|done]. injection Hc as <-. cbn [bytes].
    by rewrite (IH (length b') Hlt b' t eq_refl Ht). }
  clear IH. destruct b as [|x b1]; [by injection Hs as <-|]. cbn [from_utf8] in Hs.
  destruct (x <? 128) eqn:H1; [apply Hrec in Hs; [|cbn; lia]; rewrite Hs; unfold utf8_encode; by rewrite H1|].
  destruct b1 as [|y b2]; [done|]. destruct (negb (is_continuation y)) eqn:Hy; [done|]. destruct (x <? 192) eqn:H2; [done|].
  unfold is_continuation in *. cbv zeta in Hs. destruct (x <? 224) eqn:H3.
  { destruct (_ <? 128) eqn:Hc in Hs; [done|]. apply Hrec in Hs; [|cbn; lia]. rewrite Hs, utf8_encode_2 by lia. cbn [app]. repeat f_equal; lia. }
  destruct b2 as [|z b3]; [done|]. destruct (negb _) eqn:Hz in Hs; [done|]. destruct (x <? 240) eqn:H4.
  { destruct (_ || _) eqn:Hc in Hs; [done|]. apply Hrec in Hs; [|cbn; lia]. rewrite Hs, utf8_encode_3 by lia. cbn [app]. repeat f_equal; lia. }
  destruct b3 as [|u b4]; [done|]. destruct (negb _) eqn:Hu in Hs; [done|].
  destruct (_ || _) eqn:Hc in Hs; [done|]. apply Hrec in Hs; [|cbn; lia]. rewrite Hs, utf8_encode_4 by lia. cbn [app]. repeat f_equal; lia.
Qed.

Lemma bytes_app a b : bytes (a ++ b) = bytes a ++ bytes b.
Proof. induction a as [|c a IH]; [done|]. cbn [app bytes]. by rewrite IH, app_assoc. Qed.

Lemma bytes_length s : N.of_nat (length (bytes s)) = len s.
Proof.
  induction s as [|c s IH]; [done|]. cbn [bytes len]. rewrite length_app, Nat2N.inj_add, IH. f_equal.
  unfold utf8_encode, utf8_width. by repeat case_match.
Qed.

(** The decoded text is as long as the bytes. *)
Lemma from_utf8_len b s : from_utf8 b = Some s → len s = N.of_nat (length b).
Proof. intros Hs. by rewrite <- (from_utf8_inv b s Hs), bytes_length. Qed.

(** Text of ASCII is Unicode. *)
Lemma ascii_scalar s : forallb (λ c, c <? 128) s = true → forallb is_scalar s = true.
Proof. rewrite !forallb_forall. intros Hs c Hc. specialize (Hs c Hc). unfold is_scalar. lia. Qed.

(** ** Slices: [&b[from..to]] and [b[i]] panic outside the bounds *)

Definition slice (b : list N) (from to : N) : result error (list N) :=
  if (from <=? to) && (to <=? N.of_nat (length b)) then Ok (take (N.to_nat (to - from)) (drop (N.to_nat from) b)) else Err EPanic.

Definition byte_at (b : list N) (i : N) : result error N := ok_or EPanic (b !! N.to_nat i).

Definition starts_with_bytes (p b : list N) : bool := bool_decide (take (length p) b = p).

Lemma slice_app a m c from to :
  N.of_nat (length a) = from → N.of_nat (length a + length m) = to → slice (a ++ m ++ c) from to = Ok m.
Proof.
  intros <- <-. unfold slice. rewrite !length_app.
  replace ((N.of_nat (length a) <=? _) && _) with true by lia. f_equal.
  rewrite Nat2N.id, drop_app_length. replace (N.to_nat _) with (length m) by lia. apply take_app_length.
Qed.

Lemma slice_in b from to : from ≤ to → to ≤ N.of_nat (length b) → ∃ s, slice b from to = Ok s ∧ N.of_nat (length s) = to - from.
Proof.
  intros Hf Ht. unfold slice. replace ((from <=? to) && _) with true by lia. eexists. split; [done|].
  rewrite length_take, length_drop. lia.
Qed.

Lemma starts_with_bytes_app p b : starts_with_bytes p (p ++ b) = true.
Proof. unfold starts_with_bytes. rewrite take_app_length. by apply bool_decide_eq_true. Qed.

Lemma starts_with_bytes_same p m b : length p = length m → starts_with_bytes p (m ++ b) = bool_decide (m = p).
Proof. intros Hl. unfold starts_with_bytes. by rewrite Hl, take_app_length. Qed.
