(* ===== verification/Logic.v ===== *)
(** * Reasoning about store programs

    Three tools shared by the components:
    - frame lemmas: a pipeline changes only the keys its commands write;
    - [moves R m]: whatever the oracle does, running [m] relates the datastore
      before and after by the preorder [R] (used for invariants that must survive
      lost requests and lost replies);
    - [wp m o w Q]: the outcome of [m] from world [w] under oracle [o] satisfies
      [Q], with one rule per primitive. *)

From S2P Require Import Prelude Sable.

(** ** Frames *)

Definition cmd_writes (c : cmd) : list str :=
  match c with
  | GET _ | MGET _ | TTL _ | PING => []
  | GETDEL k | GETEX k _ | SET k _ | SETEX k _ _ | SETNX k _ | SET_NX_EX k _ _
  | SET_XX_EX k _ _ | DELIFEQ k _ | INCR k | EXPIRE k _ => [k]
  | DEL ks => ks
  | MSET kvs => kvs.*1
  end.

Definition pipe_writes (cs : list cmd) : list str := concat (cmd_writes <$> cs).

Lemma mset_ne kvs m k : k ∉ kvs.*1 → mset kvs m !! k = m !! k.
Proof.
  revert m. induction kvs as [|[k' v] kvs IH]; intros m Hk; simpl; [done|].
  unfold mset in *. simpl in *. apply not_elem_of_cons in Hk as [Hne Hk].
  rewrite IH by done. by rewrite lookup_insert_ne.
Qed.

Lemma mset_app l1 l2 m : mset (l1 ++ l2) m = mset l2 (mset l1 m).
Proof. unfold mset. by rewrite foldl_app. Qed.

Lemma mset_elem kvs m k v :
  NoDup kvs.*1 → (k, v) ∈ kvs → mset kvs m !! k = Some (Entry v None).
Proof.
  revert m. induction kvs as [|[k' v'] kvs IH]; intros m Hnd Hin; [set_solver|].
  simpl in Hnd. apply NoDup_cons in Hnd as [Hnin Hnd].
  apply elem_of_cons in Hin as [Heq|Hin].
  - simplify_eq. change (mset ((k', v') :: kvs) m) with (mset kvs (<[k':=Entry v' None]> m)).
    rewrite mset_ne by done. by rewrite lookup_insert_eq.
  - by apply IH.
Qed.

Lemma del_all_ne ks m k : k ∉ ks → del_all ks m !! k = m !! k.
Proof.
  revert m. induction ks as [|k' ks IH]; intros m Hk; simpl; [done|].
  unfold del_all in *. simpl in *. apply not_elem_of_cons in Hk as [Hne Hk].
  rewrite IH by done. by rewrite lookup_delete_ne.
Qed.

Lemma del_all_None ks m k : m !! k = None → del_all ks m !! k = None.
Proof.
  revert m. induction ks as [|k' ks IH]; intros m Hk; simpl; [done|].
  apply IH. rewrite lookup_delete. by case_decide.
Qed.

Lemma del_all_elem ks m k : k ∈ ks → del_all ks m !! k = None.
Proof.
  revert m. induction ks as [|k' ks IH]; intros m Hk; [set_solver|].
  apply elem_of_cons in Hk as [->|Hk].
  - apply (del_all_None ks). by rewrite lookup_delete_eq.
  - by apply IH.
Qed.

Lemma exec_cmd_frame t c m k : k ∉ cmd_writes c → (exec_cmd t c m).2 !! k = m !! k.
Proof.
  intros Hk. destruct c; simpl in *; try done;
    try (rewrite list_elem_of_singleton in Hk);
    repeat case_match; simpl; try done;
    rewrite ?lookup_insert_ne, ?lookup_delete_ne by congruence; try done.
  - by apply del_all_ne.
  - by apply mset_ne.
Qed.

Lemma exec_pipe_cons t c cs m :
  (exec_pipe t (c :: cs) m).2 = (exec_pipe t cs (exec_cmd t c m).2).2.
Proof. simpl. destruct (exec_cmd t c m) as [r m1]. simpl. by destruct (exec_pipe t cs m1). Qed.

Lemma exec_pipe_app t cs1 cs2 m :
  (exec_pipe t (cs1 ++ cs2) m).2 = (exec_pipe t cs2 (exec_pipe t cs1 m).2).2.
Proof.
  revert m. induction cs1 as [|c cs1 IH]; intros m; [done|].
  by rewrite <- app_comm_cons, !exec_pipe_cons, IH.
Qed.

Lemma exec_pipe_frame t cs m k : k ∉ pipe_writes cs → (exec_pipe t cs m).2 !! k = m !! k.
Proof.
  revert m. induction cs as [|c cs IH]; intros m Hk; [done|].
  rewrite exec_pipe_cons. unfold pipe_writes in *. simpl in Hk.
  rewrite elem_of_app in Hk. rewrite IH by naive_solver. apply exec_cmd_frame. naive_solver.
Qed.

(** Two stores agree on every key that satisfies [P]. *)
Definition agree_on (P : str → Prop) (m m' : gmap str entry) : Prop :=
  ∀ k, P k → m' !! k = m !! k.

#[global] Instance agree_on_preorder P : PreOrder (agree_on P).
Proof.
  split; unfold agree_on; [done|]. intros m1 m2 m3 H12 H23 k Hk.
  rewrite H23 by done. by apply H12.
Qed.

Lemma live_eq t m m' k : m' !! k = m !! k → live t m' k = live t m k.
Proof. unfold live. by intros ->. Qed.

Lemma live_Some t m k v : live t m k = Some v → ∃ dl, m !! k = Some (Entry v dl).
Proof.
  unfold live. intros Hl. destruct (m !! k) as [[v' dl]|]; [|done].
  destruct (expired t _); simplify_eq/=. eauto.
Qed.

Lemma live_persistent t m k v : m !! k = Some (Entry v None) → live t m k = Some v.
Proof. unfold live, expired. by intros ->. Qed.

Lemma live_missing t m k : m !! k = None → live t m k = None.
Proof. unfold live. by intros ->. Qed.

Lemma live_insert t m k e :
  live t (<[k := e]> m) k = if expired t e then None else Some (e_val e).
Proof. unfold live. by rewrite lookup_insert_eq. Qed.

Lemma live_insert_ne t m k k' e : k ≠ k' → live t (<[k := e]> m) k' = live t m k'.
Proof. intros. apply live_eq. by rewrite lookup_insert_ne. Qed.

(** Commands that write no key of a family. *)
Definition untouched (P : str → bool) (cs : list cmd) : bool :=
  forallb (λ k, negb (P k)) (pipe_writes cs).

Lemma untouched_agree P t cs m :
  untouched P cs = true → agree_on (λ k, P k = true) m (exec_pipe t cs m).2.
Proof.
  intros Hf k Hk. apply exec_pipe_frame. intros Hin.
  unfold untouched in Hf. rewrite forallb_forall in Hf.
  apply list_elem_of_In, Hf in Hin. by rewrite Hk in Hin.
Qed.

(** Evaluate lookups in updated contents. *)
Ltac look :=
  repeat first
    [ rewrite lookup_insert_eq
    | rewrite lookup_delete_eq
    | rewrite lookup_insert_ne by (key_neq || (intros ?Hk; simplify_eq; congruence))
    | rewrite lookup_delete_ne by (key_neq || (intros ?Hk; simplify_eq; congruence)) ].

(** ** Preorders kept by every run *)

Create HintDb moves discriminated.

Section Moves.
Context `{Env}.

Definition moves {E A : Type} (R : relation (gmap str entry)) (m : M E A) : Prop :=
  ∀ o w, R (vw w) (vw (m o w).2).

Lemma moves_mono {E A : Type} (R R' : relation (gmap str entry)) (m : M E A) :
  (∀ x y, R x y → R' x y) → moves R m → moves R' m.
Proof. intros HR Hm o w. apply HR, Hm. Qed.

Context (R : relation (gmap str entry)) `{!PreOrder R}.

Lemma moves_ret {E A : Type} (a : A) : moves R (mret a : M E A).
Proof. intros o w. reflexivity. Qed.
Lemma moves_fail {E A : Type} (e : E) : moves R (fail e : M E A).
Proof. intros o w. reflexivity. Qed.
Lemma moves_lift {E A : Type} (r : result E A) : moves R (lift r).
Proof. intros o w. reflexivity. Qed.
Lemma moves_some_or {E A : Type} (e : E) (x : option A) : moves R (some_or e x).
Proof. apply moves_lift. Qed.
Lemma moves_ensure {E} b (e : E) : moves R (ensure b e).
Proof. unfold ensure. destruct b; [apply moves_ret|apply moves_fail]. Qed.
Lemma moves_now {E} : moves R (now : M E N).
Proof. intros o w. reflexivity. Qed.
Lemma moves_random {E} n : moves R (random_bytes n : M E (list N)).
Proof. intros o w. reflexivity. Qed.
Lemma moves_new_v4 {E} : moves R (new_v4 : M E Uuid).
Proof. intros o w. reflexivity. Qed.
Lemma moves_scan p : moves R (scan p).
Proof. intros o w. unfold scan. case_match; reflexivity. Qed.

Lemma moves_bind {E A B : Type} (m : M E A) (k : A → M E B) :
  moves R m → (∀ a, moves R (k a)) → moves R (m ≫= k).
Proof.
  intros Hm Hk o w. specialize (Hm o w). unfold mbind, M_bind.
  destruct (m o w) as [[a|e] w'] eqn:Hrun; simpl in *; [|done].
  etrans; [done|apply Hk].
Qed.

Lemma moves_attempt {E F A : Type} (m : M E A) : moves R m → moves R (attempt (F:=F) m).
Proof. intros Hm o w. specialize (Hm o w). unfold attempt. by destruct (m o w). Qed.

Lemma moves_map_err {E F A : Type} (f : E → F) (m : M E A) : moves R m → moves R (map_err f m).
Proof. intros Hm o w. specialize (Hm o w). unfold map_err. by destruct (m o w) as [[] ?]. Qed.

Lemma moves_mapM {E A B : Type} (f : A → M E B) l : (∀ a, moves R (f a)) → moves R (mapM_ f l).
Proof.
  intros Hf. induction l; simpl; [apply moves_ret|].
  apply moves_bind; [done|]. intros. apply moves_bind; [done|]. intros. apply moves_ret.
Qed.

Lemma moves_foldM {E A B : Type} (f : B → A → M E B) l b :
  (∀ b a, moves R (f b a)) → moves R (foldM f l b).
Proof.
  intros Hf. revert b. induction l; intros b; simpl; [apply moves_ret|].
  apply moves_bind; [done|]. done.
Qed.

Lemma moves_query cs : (∀ t m, R m (exec_pipe t cs m).2) → moves R (query cs).
Proof.
  intros Hc o w. unfold query, vw. destruct (t_fate _); simpl.
  - specialize (Hc (t_at (o_trip o (w_trip w))) (db_view (w_db w))).
    rewrite <- db_exec_view in Hc. by destruct (db_exec _ _ _).
  - reflexivity.
  - by rewrite db_exec_view.
Qed.

Lemma moves_execute cs : (∀ t m, R m (exec_pipe t cs m).2) → moves R (execute cs).
Proof. intros. apply moves_bind; [by apply moves_query|]. intros. apply moves_ret. Qed.

Lemma moves_get k : moves R (get k).
Proof. apply moves_bind; [apply moves_query; reflexivity|]. intros. apply moves_lift. Qed.

Lemma moves_get_u64 k : moves R (get_u64 k).
Proof.
  apply moves_bind; [apply moves_get|]. intros []; [apply moves_lift|apply moves_ret].
Qed.

Lemma moves_get_json {A} `{Serde A} k : moves R (get_json k : M error (option A)).
Proof.
  apply moves_bind; [apply moves_get|]. intros []; [|apply moves_ret].
  apply moves_bind; [apply moves_some_or|]. intros. apply moves_ret.
Qed.

Lemma moves_take_json {A} `{Serde A} k :
  (∀ m, R m (delete k m)) → moves R (take_json k : M error (option A)).
Proof.
  intros Hd. apply moves_bind; [apply moves_query; intros; apply Hd|]. intros.
  apply moves_bind; [apply moves_lift|]. intros []; [|apply moves_ret].
  apply moves_bind; [apply moves_some_or|]. intros. apply moves_ret.
Qed.
End Moves.

#[export] Hint Resolve moves_ret moves_fail moves_lift moves_some_or moves_ensure moves_now
  moves_random moves_new_v4 moves_scan moves_attempt moves_mapM moves_foldM
  moves_get moves_get_u64 moves_get_json : moves.

(** Walk through a program, leaving the effectful leaves as goals. *)
Ltac moves_step :=
  match goal with
  | |- moves _ (mbind _ _) => apply moves_bind; [apply _| |intros]
  | |- moves _ (match ?x with _ => _ end) => destruct x
  | |- moves _ (if ?x then _ else _) => destruct x
  | |- moves _ (let '(_, _) := ?x in _) => destruct x
  | |- ∀ _, _ => intros
  | |- _ => solve [eauto with moves typeclass_instances]
  end.
Ltac moves_go := repeat moves_step.

(** ** Outcomes *)

Section Wp.
Context `{Env}.

Definition wp {E A : Type} (m : M E A) (o : oracle) (w : world)
  (Q : result E A → world → Prop) : Prop := Q (m o w).1 (m o w).2.

(** Every round trip is delivered. *)
Definition reliable (o : oracle) : Prop := ∀ i, t_fate (o_trip o i) = Delivered.

(** Server time of the next round trip. *)
Definition trip_time (o : oracle) (w : world) : N := t_at (o_trip o (w_trip w)).

Definition tick (w : world) : world :=
  World (w_db w) (S (w_now w)) (w_rand w) (w_uuid w) (w_trip w).
Definition clock (o : oracle) (w : world) : N := o_now o (w_now w).

Lemma vw_tick w : vw (tick w) = vw w.
Proof. done. Qed.

Lemma wp_ret {E A : Type} (a : A) o w (Q : result E A → _) : Q (Ok a) w → wp (mret a) o w Q.
Proof. done. Qed.

Lemma wp_fail {E A : Type} (e : E) o w (Q : result E A → _) : Q (Err e) w → wp (fail e) o w Q.
Proof. done. Qed.

Lemma wp_lift {E A : Type} (r : result E A) o w Q : Q r w → wp (lift r) o w Q.
Proof. done. Qed.

Lemma wp_mono {E A : Type} (m : M E A) o w (Q Q' : result E A → world → Prop) :
  wp m o w Q → (∀ r w', Q r w' → Q' r w') → wp m o w Q'.
Proof. unfold wp. eauto. Qed.

Lemma wp_bind {E A B : Type} (m : M E A) (k : A → M E B) o w Q :
  wp m o w (λ r w1, match r with
                    | Ok a => wp (k a) o w1 Q
                    | Err e => Q (Err e) w1
                    end) →
  wp (m ≫= k) o w Q.
Proof. unfold wp, mbind, M_bind. by destruct (m o w) as [[a|e] w1]. Qed.

Lemma wp_map_err {E F A : Type} (f : E → F) (m : M E A) o w (Q : result F A → world → Prop) :
  wp m o w (λ r w1, Q (match r with Ok a => Ok a | Err e => Err (f e) end) w1) →
  wp (map_err f m) o w Q.
Proof. unfold wp, map_err. by destruct (m o w) as [[a|e] w1]. Qed.

Lemma wp_attempt {E F A : Type} (m : M E A) o w (Q : result F _ → world → Prop) :
  wp m o w (λ r w1, Q (Ok r) w1) → wp (attempt m) o w Q.
Proof. unfold wp, attempt. by destruct (m o w). Qed.

Lemma wp_ensure {E} b (e : E) o w Q :
  (b = true → Q (Ok tt) w) → (b = false → Q (Err e) w) → wp (ensure b e) o w Q.
Proof. unfold wp, ensure. destruct b; simpl; auto. Qed.

Lemma wp_some_or {E A : Type} (e : E) (x : option A) o w Q :
  (∀ a, x = Some a → Q (Ok a) w) → (x = None → Q (Err e) w) → wp (some_or e x) o w Q.
Proof. unfold wp, some_or. destruct x; simpl; auto. Qed.

Lemma wp_now {E} o w (Q : result E N → _) : Q (Ok (clock o w)) (tick w) → wp now o w Q.
Proof. done. Qed.

Lemma wp_random_bytes {E} n o w (Q : result E (list N) → world → Prop) :
  (∀ raw w', length raw = n → w_db w' = w_db w → w_now w' = w_now w → w_trip w' = w_trip w → Q (Ok raw) w') →
  wp (random_bytes n) o w Q.
Proof. intros HQ. apply HQ; [|done..]. by rewrite length_fmap, length_seq. Qed.

Lemma wp_new_v4 {E} o w (Q : result E Uuid → world → Prop) :
  (∀ id w', w_db w' = w_db w → w_now w' = w_now w → w_trip w' = w_trip w → Q (Ok id) w') →
  wp new_v4 o w Q.
Proof. intros HQ. by apply HQ. Qed.

(** A pipeline without failing commands: either it is delivered, or the trip
    fails with the pipeline applied entirely or not at all. *)
Lemma wp_query cs o w Q :
  (∀ d, t_fate (o_trip o (w_trip w)) ≠ Delivered →
     db_view d = vw w ∨ db_view d = (exec_pipe (trip_time o w) cs (vw w)).2 →
     Q (Err EDb) (after_trip w d)) →
  (∀ d, t_fate (o_trip o (w_trip w)) = Delivered →
     db_view d = (exec_pipe (trip_time o w) cs (vw w)).2 →
     let rs := (exec_pipe (trip_time o w) cs (vw w)).1 in
     Q (if existsb is_err rs then Err EDb else Ok rs) (after_trip w d)) →
  wp (query cs) o w Q.
Proof.
  intros Hfail Hok. unfold wp, query, trip_time, vw in *.
  destruct (t_fate (o_trip o (w_trip w))) eqn:Hf.
  - pose proof (db_exec_reply (t_at (o_trip o (w_trip w))) cs (w_db w)) as Hr.
    pose proof (db_exec_view (t_at (o_trip o (w_trip w))) cs (w_db w)) as Hv.
    destruct (db_exec _ cs (w_db w)) as [rs d]. simpl in *. subst rs. by apply Hok.
  - simpl. apply Hfail; [done|by left].
  - simpl. apply Hfail; [done|right]. by rewrite db_exec_view.
Qed.

Lemma wp_execute cs o w (Q : result error unit → world → Prop) :
  existsb is_err (exec_pipe (trip_time o w) cs (vw w)).1 = false →
  (∀ d, t_fate (o_trip o (w_trip w)) ≠ Delivered →
     db_view d = vw w ∨ db_view d = (exec_pipe (trip_time o w) cs (vw w)).2 →
     Q (Err EDb) (after_trip w d)) →
  (∀ d, db_view d = (exec_pipe (trip_time o w) cs (vw w)).2 → Q (Ok tt) (after_trip w d)) →
  wp (execute cs) o w Q.
Proof.
  intros Hne Hfail Hok. apply wp_bind, wp_query; [done|].
  simpl. intros d _ Hd. rewrite Hne. apply wp_ret. auto.
Qed.

Lemma wp_get k o w (Q : result error (option str) → world → Prop) :
  (∀ d, t_fate (o_trip o (w_trip w)) ≠ Delivered → db_view d = vw w →
     Q (Err EDb) (after_trip w d)) →
  (∀ d, db_view d = vw w → Q (Ok (live (trip_time o w) (vw w) k)) (after_trip w d)) →
  wp (get k) o w Q.
Proof.
  intros Hfail Hok. apply wp_bind, wp_query.
  - intros d Hf [Hd|Hd]; apply Hfail; auto.
  - intros d _ Hd. simpl in *. destruct (live _ _ k) as [v|]; simpl; apply wp_lift; by apply Hok.
Qed.

Lemma wp_get_json {A} `{Serde A} k o w (Q : result error (option A) → world → Prop) :
  (∀ d, t_fate (o_trip o (w_trip w)) ≠ Delivered → db_view d = vw w →
     Q (Err EDb) (after_trip w d)) →
  (∀ d, db_view d = vw w →
     Q (match live (trip_time o w) (vw w) k with
        | None => Ok None
        | Some v => match from_json v with Some a => Ok (Some a) | None => Err EDecode end
        end) (after_trip w d)) →
  wp (get_json k) o w Q.
Proof.
  intros Hfail Hok. apply wp_bind, wp_get; [done|]. intros d Hd. specialize (Hok d Hd).
  destruct (live _ _ k) as [v|]; [|done]. apply wp_bind, wp_some_or.
  - intros a Ha. rewrite Ha in Hok. by apply wp_ret.
  - intros Ha. by rewrite Ha in Hok.
Qed.

Lemma wp_get_u64 k o w (Q : result error (option N) → world → Prop) :
  (∀ d, t_fate (o_trip o (w_trip w)) ≠ Delivered → db_view d = vw w →
     Q (Err EDb) (after_trip w d)) →
  (∀ d, db_view d = vw w →
     Q (match live (trip_time o w) (vw w) k with
        | None => Ok None
        | Some v => match parse_u64 v with Some n => Ok (Some n) | None => Err EDb end
        end) (after_trip w d)) →
  wp (get_u64 k) o w Q.
Proof.
  intros Hfail Hok. apply wp_bind, wp_get; [done|]. intros d Hd. specialize (Hok d Hd).
  destruct (live _ _ k) as [v|]; [|done]. apply wp_lift. by destruct (parse_u64 v).
Qed.

Lemma wp_take_json {A} `{Serde A} k o w (Q : result error (option A) → world → Prop) :
  (∀ d, t_fate (o_trip o (w_trip w)) ≠ Delivered →
     db_view d = vw w ∨ db_view d = delete k (vw w) → Q (Err EDb) (after_trip w d)) →
  (∀ d, db_view d = delete k (vw w) →
     Q (match live (trip_time o w) (vw w) k with
        | None => Ok None
        | Some v => match from_json v with Some a => Ok (Some a) | None => Err EDecode end
        end) (after_trip w d)) →
  wp (take_json k) o w Q.
Proof.
  intros Hfail Hok. apply wp_bind, wp_query; [done|]. intros d _ Hd. specialize (Hok d Hd).
  simpl. destruct (live _ _ k) as [v|]; simpl; apply wp_bind, wp_lift; [|by apply wp_ret].
  apply wp_bind, wp_some_or.
  - intros a Ha. rewrite Ha in Hok. by apply wp_ret.
  - intros Ha. by rewrite Ha in Hok.
Qed.
End Wp.

(** Discharge the failure branch of a rule under a reliable oracle. *)
Ltac no_fault := let d := fresh in let Hf := fresh in
  intros d Hf; exfalso; apply Hf; match goal with R : reliable _ |- _ => apply R end.

(** ** Outcomes up to the datastore contents

    Most proofs only need how the contents move; these variants hide the
    bookkeeping of clocks and trips. *)

Section Contents.
Context `{Env}.

Lemma not_delivered o i : t_fate (o_trip o i) ≠ Delivered → ¬ reliable o.
Proof. intros Hf Hr. by rewrite Hr in Hf. Qed.

(** Programs that write nothing. *)
Lemma wp_reads {E A : Type} (m : M E A) o w (Q : result E A → world → Prop) :
  moves eq m → (∀ r w', vw w' = vw w → Q r w') → wp m o w Q.
Proof. intros Hm HQ. apply HQ. symmetry. apply Hm. Qed.

(** Remember the run. *)
Lemma wp_run {E A : Type} (m : M E A) o w (Q : result E A → world → Prop) :
  wp m o w (λ r w', m o w = (r, w') → Q r w') → wp m o w Q.
Proof. unfold wp. destruct (m o w) as [r w']. auto. Qed.

(** The same, with the value that the run returns. *)
Lemma wp_reads_run {E A : Type} (m : M E A) o w (Q : result E A → world → Prop) :
  moves eq m → (∀ r w', vw w' = vw w → m o w = (r, w') → Q r w') → wp m o w Q.
Proof. intros Hm HQ. apply HQ; [symmetry; apply Hm|apply surjective_pairing]. Qed.

Lemma wp_moves {E A : Type} R (m : M E A) o w : moves R m → wp m o w (λ _ w', R (vw w) (vw w')).
Proof. intros Hm. apply Hm. Qed.

Lemma wp_get_view k o w (Q : result error (option str) → world → Prop) :
  (∀ w', vw w' = vw w → ¬ reliable o → Q (Err EDb) w') →
  (∀ t w', vw w' = vw w → Q (Ok (live t (vw w) k)) w') → wp (get k) o w Q.
Proof.
  intros Hf Hok. apply wp_get.
  - intros d Hd Hv. apply Hf; [done|by eapply not_delivered].
  - intros d Hv. by apply Hok.
Qed.

Lemma wp_get_json_view {A} `{Serde A} k o w (Q : result error (option A) → world → Prop) :
  (∀ w', vw w' = vw w → ¬ reliable o → Q (Err EDb) w') →
  (∀ t w', vw w' = vw w →
     Q (match live t (vw w) k with
        | None => Ok None
        | Some v => match from_json v with Some a => Ok (Some a) | None => Err EDecode end
        end) w') →
  wp (get_json k) o w Q.
Proof.
  intros Hf Hok. apply wp_get_json.
  - intros d Hd Hv. apply Hf; [done|by eapply not_delivered].
  - intros d Hv. by apply Hok.
Qed.

Lemma wp_take_json_view {A} `{Serde A} k o w (Q : result error (option A) → world → Prop) :
  (∀ w', vw w' = vw w ∨ vw w' = delete k (vw w) → ¬ reliable o → Q (Err EDb) w') →
  (∀ t w', vw w' = delete k (vw w) →
     Q (match live t (vw w) k with
        | None => Ok None
        | Some v => match from_json v with Some a => Ok (Some a) | None => Err EDecode end
        end) w') →
  wp (take_json k) o w Q.
Proof.
  intros Hf Hok. apply wp_take_json.
  - intros d Hd Hv. apply Hf; [done|by eapply not_delivered].
  - intros d Hv. by apply Hok.
Qed.

Lemma wp_set_nx_view k v o w (Q : result error bool → world → Prop) :
  (∀ t w', vw w' = vw w ∨ live t (vw w) k = None ∧ vw w' = <[k := Entry v None]> (vw w) →
     ¬ reliable o → Q (Err EDb) w') →
  (∀ t w', live t (vw w) k = None → vw w' = <[k := Entry v None]> (vw w) → Q (Ok true) w') →
  (∀ t w', is_Some (live t (vw w) k) → vw w' = vw w → Q (Ok false) w') →
  wp (set_nx k v) o w Q.
Proof.
  intros Hf Hnew Hold. apply wp_bind, wp_query.
  - intros d Hd Hv. apply (Hf (trip_time o w)); [|by eapply not_delivered]. simpl in Hv.
    destruct (live _ (vw w) k) eqn:Hl; simpl in Hv; [left; by destruct Hv|].
    destruct Hv as [Hv|Hv]; [by left|by right].
  - intros d _ Hv. cbv zeta. simpl in *. destruct (live _ (vw w) k) eqn:Hl; simpl in *; apply wp_lift.
    + by eapply Hold.
    + by eapply Hnew.
Qed.

Lemma wp_execute_view cs o w (Q : result error unit → world → Prop) :
  (∀ w' t, ¬ reliable o ∨ existsb is_err (exec_pipe t cs (vw w)).1 = true →
     vw w' = vw w ∨ vw w' = (exec_pipe t cs (vw w)).2 → Q (Err EDb) w') →
  (∀ w' t, existsb is_err (exec_pipe t cs (vw w)).1 = false →
     vw w' = (exec_pipe t cs (vw w)).2 → Q (Ok tt) w') →
  wp (execute cs) o w Q.
Proof.
  intros Hf Hok. apply wp_bind, wp_query.
  - intros d Hd Hv. apply (Hf _ (trip_time o w)); [left; by eapply not_delivered|done].
  - intros d _ Hv. cbv zeta. destruct (existsb is_err _) eqn:He.
    + apply (Hf _ (trip_time o w)); auto.
    + apply wp_ret, (Hok _ (trip_time o w)); auto.
Qed.

(** A property of the contents that the pipeline preserves holds after it,
    whatever happens to the trip. *)
Lemma wp_execute_inv (I : gmap str entry → Prop) cs o w :
  I (vw w) → (∀ t, I (exec_pipe t cs (vw w)).2) → wp (execute cs) o w (λ _ w', I (vw w')).
Proof.
  intros H0 H1. apply wp_execute_view.
  - intros w' t _ [->| ->]; auto.
  - intros w' t _ ->. auto.
Qed.

Lemma wp_execute_inv_err (I : gmap str entry → Prop) cs o w :
  I (vw w) → (∀ t, I (exec_pipe t cs (vw w)).2) →
  wp (execute cs) o w (λ r w', I (vw w') ∧ ∀ e, r = Err e → e = EDb).
Proof.
  intros H0 H1. apply wp_execute_view.
  - intros w' t _ [->| ->]; split; auto; congruence.
  - intros w' t _ ->. split; [auto|done].
Qed.

(** [p] keeps property [I] of the contents for the outcomes of oracle [o]. *)
Definition keeps {E A : Type} (o : oracle) (I : gmap str entry → Prop) (p : M E A) : Prop :=
  ∀ w, I (vw w) → wp p o w (λ _ w', I (vw w')).

Lemma keeps_bind {E A B : Type} o I (m : M E A) (k : A → M E B) :
  keeps o I m → (∀ a, keeps o I (k a)) → keeps o I (m ≫= k).
Proof.
  intros Hm Hk w HI. apply wp_bind. eapply wp_mono; [by apply Hm|].
  intros [a|e] w' HI'; [by apply Hk|done].
Qed.

Lemma keeps_moves {E A : Type} o I (R : relation _) (m : M E A) :
  moves R m → (∀ m m', R m m' → I m → I m') → keeps o I m.
Proof. intros Hm HR w HI. eapply HR; [apply Hm|done]. Qed.

Lemma keeps_reads {E A : Type} o I (m : M E A) : moves eq m → keeps o I m.
Proof. intros Hm. eapply keeps_moves; [done|]. by intros ? ? ->. Qed.

Lemma keeps_execute o I cs :
  (∀ t m, I m → I (exec_pipe t cs m).2) → keeps o I (execute cs).
Proof. intros Hc w HI. apply wp_execute_inv; auto. Qed.
End Contents.

(** ** Returned values *)

Section Returns.
Context `{Env}.

(** Whatever the world and the network do, a value that [m] returns satisfies
    [P]. *)
Definition returns {E A : Type} (P : A → Prop) (m : M E A) : Prop :=
  ∀ o w a w', m o w = (Ok a, w') → P a.

Lemma returns_ret {E A : Type} (P : A → Prop) a : P a → returns P (mret a : M E A).
Proof. intros Ha o w ? ? [= <- _]. done. Qed.
Lemma returns_lift {E A : Type} (P : A → Prop) (r : result E A) : (∀ a, r = Ok a → P a) → returns P (lift r).
Proof. intros Hr o w a w' [= Ha _]. auto. Qed.
Lemma returns_some_or {E A : Type} (P : A → Prop) (e : E) x : (∀ a, x = Some a → P a) → returns P (some_or e x).
Proof. intros Hx. apply returns_lift. destruct x; naive_solver. Qed.
Lemma returns_any {E A : Type} (m : M E A) : returns (λ _, True) m.
Proof. done. Qed.

Lemma returns_bind {E A B : Type} (P : A → Prop) (Q : B → Prop) (m : M E A) (k : A → M E B) :
  returns P m → (∀ a, P a → returns Q (k a)) → returns Q (m ≫= k).
Proof.
  intros Hm Hk o w b w'. unfold mbind, M_bind. destruct (m o w) as [[a|e] w1] eqn:Hr; [|done].
  apply (Hk a (Hm _ _ _ _ Hr)).
Qed.
Lemma returns_then {E A B : Type} (Q : B → Prop) (m : M E A) (k : A → M E B) :
  (∀ a, returns Q (k a)) → returns Q (m ≫= k).
Proof. intros Hk. apply (returns_bind _ _ _ _ (returns_any m)). auto. Qed.

Lemma moves_bind_returns {E A B : Type} R `{!PreOrder R} (P : A → Prop) (m : M E A) (k : A → M E B) :
  returns P m → moves R m → (∀ a, P a → moves R (k a)) → moves R (m ≫= k).
Proof.
  intros Hp Hm Hk o w. specialize (Hp o w). specialize (Hm o w). unfold mbind, M_bind.
  destruct (m o w) as [[a|e] w1] eqn:Hr; simpl in *; [|done]. etrans; [exact Hm|]. by eapply Hk, Hp.
Qed.
End Returns.
