(* ===== verification/Demo.v ===== *)
(** * A concrete environment

    The classes of Sable.v are satisfiable: this file instantiates them with small
    executable functions (a finite map as the datastore, decimal UUIDs, a prefix
    code in place of JSON).  The witnesses of the development's theorems run in
    this environment after importing [DemoEnv]. *)

From S2P Require Import Prelude Sable Logic.

Module DemoEnv.

(** Decide a closed equation by evaluating both sides. *)
Ltac eval_eq := match goal with |- _ = ?y => vm_cast_no_check (eq_refl y) end.

(** ** UUIDs *)

Definition demo_uuid_parse (s : str) : option Uuid :=
  match parse_digits s with
  | Some n => match decide (bool_decide (n < 2 ^ 128)) with
              | left H => Some (mkUuid n H)
              | right _ => None
              end
  | None => None
  end.

#[local] Program Instance demo_uuid : ExtUuid :=
  {| uuid_show u := show_u64 (uuid_bits u); uuid_parse := demo_uuid_parse |}.
Next Obligation.
  intros [n Hn]. unfold demo_uuid_parse. simpl. rewrite show_u64_value.
  case_decide; [|done]. f_equal. by apply uuid_bits_inj.
Qed.
Next Obligation.
  intros u. cbn. apply forallb_forall. intros c Hc%list_elem_of_In. pose proof (show_u64_digits (uuid_bits u)) as Hd.
  rewrite Forall_forall in Hd. specialize (Hd c Hc). unfold is_ascii_hexdigit, is_ascii_digit, in_range.
  apply orb_true_iff. left. apply orb_true_iff. left. apply orb_true_iff. left. apply andb_true_iff. split; apply N.leb_le; lia.
Qed.
Next Obligation. intros u. cbn. apply show_u64_nonempty. Qed.

(** ** Digests and encodings *)

Definition hex_digit (n : N) : N := if n <? 10 then 48 + n else 87 + n.
Definition demo_hex (b : list N) : str := b ≫= λ x, [hex_digit ((x / 16) mod 16); hex_digit (x mod 16)].

Lemma hex_digit_ok n : n < 16 → is_ascii_hexdigit (hex_digit n) = true.
Proof. unfold hex_digit, is_ascii_hexdigit, is_ascii_digit, in_range. case_match; reflect; lia. Qed.

Lemma demo_hex_digits b : forallb is_ascii_hexdigit (demo_hex b) = true.
Proof.
  induction b as [|x b IH]; [done|]. simpl.
  rewrite !hex_digit_ok by (apply N.mod_lt; lia). done.
Qed.

Definition hex_value (c : N) : option N :=
  if is_ascii_digit c then Some (c - 48) else if in_range 97 102 c then Some (c - 87) else None.

Fixpoint demo_unhex (s : str) : option (list N) :=
  match s with
  | [] => Some []
  | [_] => None
  | c :: d :: s => x ← hex_value c; y ← hex_value d; b ← demo_unhex s; Some (x * 16 + y :: b)
  end.

Lemma hex_value_digit n : n < 16 → hex_value (hex_digit n) = Some n.
Proof.
  intros Hn. unfold hex_value, hex_digit, is_ascii_digit, in_range. destruct (n <? 10) eqn:Ht.
  - replace ((48 <=? 48 + n) && _) with true by lia. f_equal. lia.
  - replace ((48 <=? 87 + n) && _) with false by lia. replace ((97 <=? 87 + n) && _) with true by lia. f_equal. lia.
Qed.

Lemma demo_unhex_hex b : Forall is_byte b → demo_unhex (demo_hex b) = Some b.
Proof.
  induction 1 as [|x b Hx Hb IH]; [done|]. unfold is_byte in Hx. change (demo_hex (x :: b)) with
    (hex_digit ((x / 16) mod 16) :: hex_digit (x mod 16) :: demo_hex b). cbn [demo_unhex].
  rewrite !hex_value_digit, IH by (apply N.mod_lt; done). cbn. do 2 f_equal. rewrite (N.mod_small (x / 16)).
  - pose proof (N.div_mod x 16 ltac:(done)). lia.
  - apply N.Div0.div_lt_upper_bound. lia.
Qed.

Lemma demo_unhex_odd s : Nat.odd (length s) = true → demo_unhex s = None.
Proof.
  remember (length s) as n eqn:Hn. revert s Hn. induction n as [n IH] using lt_wf_ind. intros [|c [|d s]] ->; [done..|].
  intros Hodd. cbn [demo_unhex]. rewrite (IH (length s) ltac:(cbn; lia) s eq_refl Hodd). by repeat destruct (hex_value _).
Qed.

Definition b64_char (n : N) : N :=
  if n <? 26 then 65 + n else if n <? 52 then 71 + n else if n <? 62 then n - 4
  else if n =? 62 then 45 else 95.

Fixpoint demo_b64 (b : list N) : str :=
  match b with
  | [] => []
  | [x] => [b64_char (x / 4 mod 64); b64_char (x * 16 mod 64)]
  | [x; y] => [b64_char (x / 4 mod 64); b64_char ((x * 16 + y / 16) mod 64);
               b64_char (y * 4 mod 64)]
  | x :: y :: z :: b' =>
      [b64_char (x / 4 mod 64); b64_char ((x * 16 + y / 16) mod 64);
       b64_char ((y * 4 + z / 64) mod 64); b64_char (z mod 64)] ++ demo_b64 b'
  end.

Lemma b64_char_ok n : n < 64 → is_b64url (b64_char n) = true.
Proof.
  unfold b64_char, is_b64url, is_ascii_alphanumeric, is_ascii_digit, is_ascii_uppercase,
    is_ascii_lowercase, in_range. repeat case_match; reflect; lia.
Qed.

Lemma list_ind3 {A : Type} (P : list A → Prop) :
  P [] → (∀ x, P [x]) → (∀ x y, P [x; y]) → (∀ x y z l, P l → P (x :: y :: z :: l)) → ∀ l, P l.
Proof.
  intros H0 H1 H2 H3. fix IH 1. intros [|x [|y [|z l]]]; [done|by apply H1|by apply H2|].
  apply H3, IH.
Qed.

Lemma demo_b64_length b : length (demo_b64 b) = ((length b * 4 + 2) / 3)%nat.
Proof.
  induction b as [| | |x y z b IH] using list_ind3; [done..|].
  simpl length. rewrite IH.
  replace (S (S (S (length b))) * 4 + 2)%nat with (length b * 4 + 2 + 4 * 3)%nat by lia.
  rewrite Nat.div_add by lia. lia.
Qed.

Lemma demo_b64_alphabet b : forallb is_b64url (demo_b64 b) = true.
Proof.
  induction b as [| | |x y z b IH] using list_ind3; simpl;
    rewrite ?b64_char_ok by (apply N.mod_lt; lia); done.
Qed.

(** Not a digest function: the last 32 bytes, padded.  The laws only ask for the
    length. *)
Definition demo_sha256 (b : list N) : list N := (λ x, x mod 256) <$> take 32 (reverse b ++ replicate 32 0).

#[local] Program Instance demo_crypto : ExtCrypto :=
  {| sha256 := demo_sha256; hex_encode := demo_hex; hex_decode := demo_unhex; b64url_encode := demo_b64 |}.
Next Obligation. intros b. unfold demo_sha256. rewrite length_fmap, length_take, length_app, length_replicate. lia. Qed.
Next Obligation. intros b. apply Forall_fmap, Forall_forall. intros x _. by apply N.mod_lt. Qed.
Next Obligation. intros b. induction b as [|x b IH]; [done|]. simpl in *. rewrite IH. lia. Qed.
Next Obligation. apply demo_hex_digits. Qed.
Next Obligation. apply demo_unhex_hex. Qed.
Next Obligation. apply demo_unhex_odd. Qed.
Next Obligation. apply demo_b64_length. Qed.
Next Obligation. apply demo_b64_alphabet. Qed.

(** ** A prefix code for [serde_json] *)

Class Codec (A : Type) := {
  enc : A → list N;
  dec : list N → option (A * list N);
  dec_enc a r : dec (enc a ++ r) = Some (a, r)
}.

#[export] Program Instance codec_N : Codec N :=
  {| enc n := [n]; dec l := match l with n :: r => Some (n, r) | [] => None end |}.
Next Obligation. done. Qed.

#[export] Program Instance codec_prod {A B : Type} `{Codec A, Codec B} : Codec (A * B) :=
  {| enc p := enc p.1 ++ enc p.2;
     dec l := '(a, r) ← dec l; '(b, r) ← dec r; Some ((a, b), r) |}.
Next Obligation. intros A B CA CB [a b] r. simpl. rewrite <- app_assoc, dec_enc. simpl. by rewrite dec_enc. Qed.

Program Definition codec_iso {A B : Type} `{Codec A} (f : B → A) (g : A → option B)
    (Hfg : ∀ b, g (f b) = Some b) : Codec B :=
  {| enc b := enc (f b); dec l := '(a, r) ← dec l; b ← g a; Some (b, r) |}.
Next Obligation. intros. simpl. rewrite dec_enc. simpl. by rewrite Hfg. Qed.

#[export] Program Instance codec_bool : Codec bool :=
  codec_iso (A:=N) (λ b : bool, if b then 1 else 0) (λ n, Some (n =? 1)) _.
Next Obligation. by intros []. Qed.

#[export] Program Instance codec_unit : Codec unit := codec_iso (A:=N) (B:=unit) (λ _, 0) (λ _, Some tt) _.
Next Obligation. by intros []. Qed.

#[export] Program Instance codec_option {A : Type} `{Codec A} : Codec (option A) :=
  {| enc x := match x with Some a => 1 :: enc a | None => [0] end;
     dec l := match l with
              | n :: r => if n =? 1 then '(a, r) ← dec r; Some (Some a, r) else Some (None, r)
              | [] => None
              end |}.
Next Obligation. intros A CA [a|] r; simpl; [|done]. by rewrite dec_enc. Qed.

Fixpoint dec_list {A : Type} `{Codec A} (n : nat) (l : list N) : option (list A * list N) :=
  match n with
  | O => Some ([], l)
  | S n => '(a, r) ← dec l; '(xs, r) ← dec_list n r; Some (a :: xs, r)
  end.

Lemma dec_list_enc {A : Type} `{Codec A} (x : list A) r :
  dec_list (length x) (concat (enc <$> x) ++ r) = Some (x, r).
Proof.
  induction x as [|a x IH]; [done|]. rewrite fmap_cons. simpl. rewrite <- app_assoc, dec_enc.
  simpl. by rewrite IH.
Qed.

#[export] Program Instance codec_list {A : Type} `{Codec A} : Codec (list A) :=
  {| enc x := N.of_nat (length x) :: concat (enc <$> x);
     dec l := match l with n :: r => dec_list (N.to_nat n) r | [] => None end |}.
Next Obligation. intros A CA x r. simpl. rewrite Nat2N.id. apply dec_list_enc. Qed.

#[export] Program Instance codec_uuid : Codec Uuid :=
  codec_iso (A:=N) uuid_bits (λ n, match decide (bool_decide (n < 2 ^ 128)) with
                                   | left H => Some (mkUuid n H)
                                   | right _ => None
                                   end) _.
Next Obligation. intros [n Hn]. simpl. case_decide; [|done]. f_equal. by apply uuid_bits_inj. Qed.

(** Every value with a code has a JSON text. *)
Definition decode_all {A : Type} `{Codec A} (s : list N) : option A :=
  match dec s with
  | Some (a, []) => Some a
  | _ => None
  end.

#[export] Program Instance demo_serde {A : Type} `{Codec A} : Serde A :=
  {| to_json := enc; from_json := decode_all |}.
Next Obligation.
  intros A CA a. unfold decode_all. rewrite <- (app_nil_r (enc a)). by rewrite dec_enc.
Qed.

#[local] Instance demo_json : ExtJson :=
  {| Value := list (str * list N); json_empty_object := []; json_numbers l := prod_map id (λ n, [n]) <$> l |}.

(** ** WebAuthn *)

(** A passkey is its credential id and signature counter; an authentication
    result is a credential id, a counter and the user-verification flag. *)
#[local] Instance demo_webauthn : ExtWebauthn :=
  {| Passkey := list N * N; AuthenticationResult := list N * N * bool;
     PasskeyRegistration := list N; PasskeyAuthentication := list N;
     passkey_cred_id := fst; passkey_counter := snd;
     result_cred_id r := r.1.1; result_counter r := r.1.2; result_user_verified r := r.2;
     update_credential p r :=
       if bool_decide (p.1 = r.1.1)
       then Some ((p.1, N.max p.2 r.1.2), p.2 <? r.1.2) else None |}.

(** ** The datastore

    An association list, newest binding first, with the commands written out on
    it; its view is the finite map of Sable.v. *)

Definition alist := list (str * entry).

Fixpoint str_eqb (a b : str) : bool :=
  match a, b with
  | [], [] => true
  | x :: a', y :: b' => (x =? y) && str_eqb a' b'
  | _, _ => false
  end.

Fixpoint al_lookup (k : str) (l : alist) : option entry :=
  match l with
  | [] => None
  | (k', e) :: l' => if str_eqb k k' then Some e else al_lookup k l'
  end.

Definition al_delete (k : str) (l : alist) : alist := List.filter (λ p, negb (str_eqb k p.1)) l.
Definition al_view (l : alist) : gmap str entry := list_to_map l.

Definition al_live (t : N) (l : alist) (k : str) : option str :=
  match al_lookup k l with
  | Some e => if expired t e then None else Some (e_val e)
  | None => None
  end.

Definition al_dead_or (t : N) (l : alist) (k : str) (dead : reply * alist)
    (alive : str → reply * alist) : reply * alist :=
  match al_live t l k with
  | Some v => alive v
  | None => dead
  end.

Definition al_exec (t : N) (c : cmd) (l : alist) : reply * alist :=
  match c with
  | GET k => (bulk (al_live t l k), l)
  | MGET ks => (RArray (al_live t l <$> ks), l)
  | GETDEL k => (bulk (al_live t l k), al_delete k l)
  | GETEX k ttl => al_dead_or t l k (RNil, l) (λ v, (RBulk v, (k, Entry v (Some (t + ttl))) :: l))
  | SET k v => (ROk, (k, Entry v None) :: l)
  | SETEX k v ttl => if ttl =? 0 then (RErr, l) else (ROk, (k, Entry v (Some (t + ttl))) :: l)
  | SETNX k v => al_dead_or t l k (RInt 1, (k, Entry v None) :: l) (λ _, (RInt 0, l))
  | SET_NX_EX k v ttl => al_dead_or t l k (ROk, (k, Entry v (Some (t + ttl))) :: l) (λ _, (RNil, l))
  | SET_XX_EX k v ttl => al_dead_or t l k (RNil, l) (λ _, (ROk, (k, Entry v (Some (t + ttl))) :: l))
  | DEL ks => (RInt (N.of_nat (length (List.filter (λ k, bool_decide (is_Some (al_live t l k))) ks))),
               foldl (λ l k, al_delete k l) l ks)
  | DELIFEQ k v =>
      if bool_decide (al_live t l k = Some v) then (RInt 1, al_delete k l) else (RInt 0, l)
  | MSET kvs => (ROk, foldl (λ l kv, (kv.1, Entry kv.2 None) :: l) l kvs)
  | INCR k =>
      al_dead_or t l k (RInt 1, (k, Entry (show_u64 1) None) :: l)
        (λ v, match parse_u64 v with
              | Some n =>
                  if n <? i64_max
                  then (RInt (n + 1), (k, Entry (show_u64 (n + 1)) (al_lookup k l ≫= e_deadline)) :: l)
                  else (RErr, l)
              | None => (RErr, l)
              end)
  | EXPIRE k ttl =>
      al_dead_or t l k (RInt 0, l) (λ v, (RInt 1, (k, Entry v (Some (t + ttl))) :: l))
  | TTL k => (RSigned (time_to_live t (al_lookup k l)), l)
  | PING => (RBulk #"PONG", l)
  end.

Fixpoint al_pipe (t : N) (cs : list cmd) (l : alist) : list reply * alist :=
  match cs with
  | [] => ([], l)
  | c :: cs' => let '(r, l1) := al_exec t c l in
                let '(rs, l2) := al_pipe t cs' l1 in (r :: rs, l2)
  end.

Lemma str_eqb_spec a b : str_eqb a b = true ↔ a = b.
Proof.
  revert b. induction a as [|x a IH]; intros [|y b]; simpl; try done.
  rewrite andb_true_iff, N.eqb_eq, IH. naive_solver.
Qed.

Lemma al_lookup_view k l : al_view l !! k = al_lookup k l.
Proof.
  unfold al_view. induction l as [|[k' e] l IH]; [done|]. simpl.
  destruct (str_eqb k k') eqn:Hk.
  - apply str_eqb_spec in Hk as ->. by rewrite lookup_insert_eq.
  - rewrite lookup_insert_ne, IH; [done|]. intros ->.
    by rewrite (proj2 (str_eqb_spec k k) eq_refl) in Hk.
Qed.

Lemma al_delete_view k l : al_view (al_delete k l) = delete k (al_view l).
Proof.
  unfold al_view, al_delete. induction l as [|[k' e] l IH]; simpl; [by rewrite delete_empty|].
  destruct (str_eqb k k') eqn:Hk; simpl; rewrite IH.
  - apply str_eqb_spec in Hk as ->. by rewrite delete_insert_eq.
  - rewrite delete_insert_ne; [done|]. intros ->.
    by rewrite (proj2 (str_eqb_spec k' k') eq_refl) in Hk.
Qed.

Lemma al_live_view t l k : live t (al_view l) k = al_live t l k.
Proof. unfold live, al_live. by rewrite al_lookup_view. Qed.

Lemma al_mset_view kvs l :
  al_view (foldl (λ l kv, (kv.1, Entry kv.2 None) :: l) l kvs) = mset kvs (al_view l).
Proof. revert l. induction kvs as [|[k v] kvs IH]; intros l; simpl; [done|]. by rewrite IH. Qed.

Lemma al_del_view ks l : al_view (foldl (λ l k, al_delete k l) l ks) = del_all ks (al_view l).
Proof.
  revert l. induction ks as [|k ks IH]; intros l; simpl; [done|]. by rewrite IH, al_delete_view.
Qed.

Lemma al_exec_view t c l :
  (al_exec t c l).1 = (exec_cmd t c (al_view l)).1 ∧
  al_view (al_exec t c l).2 = (exec_cmd t c (al_view l)).2.
Proof.
  destruct c; simpl; unfold al_dead_or; rewrite ?al_live_view.
  - done.
  - split; [|done]. f_equal. apply list_fmap_ext. intros. by rewrite al_live_view.
  - by rewrite al_delete_view.
  - by destruct (al_live t l k).
  - done.
  - by destruct (ttl =? 0).
  - by destruct (al_live t l k).
  - by destruct (al_live t l k).
  - by destruct (al_live t l k).
  - split; [|apply al_del_view]. f_equal. do 2 f_equal. apply List.filter_ext. intros.
    by rewrite al_live_view.
  - case_bool_decide; simpl; [|done]. by rewrite al_delete_view.
  - split; [done|apply al_mset_view].
  - destruct (al_live t l k) as [v|]; [|done]. destruct (parse_u64 v) as [n|]; [|done].
    destruct (n <? i64_max); [|done]. simpl. by rewrite al_lookup_view.
  - by destruct (al_live t l k).
  - by rewrite al_lookup_view.
  - done.
Qed.

Lemma al_pipe_view t cs l :
  (al_pipe t cs l).1 = (exec_pipe t cs (al_view l)).1 ∧
  al_view (al_pipe t cs l).2 = (exec_pipe t cs (al_view l)).2.
Proof.
  revert l. induction cs as [|c cs IH]; intros l; simpl; [done|].
  pose proof (al_exec_view t c l) as [H1 H2]. destruct (al_exec t c l) as [r l1].
  destruct (exec_cmd t c (al_view l)) as [r' m1]. simpl in *. subst.
  specialize (IH l1) as [IH1 IH2]. destruct (al_pipe t cs l1), (exec_pipe t cs (al_view l1)).
  simpl in *. by subst.
Qed.

Definition demo_scan (t : N) (p : str) (l : alist) : list (list str) :=
  [remove_dups (List.filter (λ k, starts_with p k && bool_decide (is_Some (al_live t l k))) l.*1)].

#[local] Program Instance demo_sable : ExtSable :=
  {| db := alist; db_view := al_view; db_exec := al_pipe; db_scan := demo_scan |}.
Next Obligation. intros. apply al_pipe_view. Qed.
Next Obligation. intros. apply al_pipe_view. Qed.
Next Obligation.
  intros t p m k. unfold demo_scan. cbn [concat]. rewrite app_nil_r, elem_of_remove_dups, list_elem_of_In, filter_In,
    andb_true_iff, bool_decide_eq_true, <- list_elem_of_In, list_elem_of_fmap, al_live_view.
  split; [tauto|]. intros [Hp [v Hl]]. split; [|eauto].
  rewrite <- al_live_view in Hl. apply live_Some in Hl as [dl He]. exists (k, Entry v dl).
  split; [done|]. by apply elem_of_list_to_map_2.
Qed.

(** Each key comes once, so a scan is no longer than the contents. *)
Lemma demo_scan_length t p l : (length (concat (demo_scan t p l)) ≤ size (al_view l))%nat.
Proof.
  unfold demo_scan. cbn [concat]. rewrite app_nil_r. set (ks := remove_dups _).
  rewrite <- (size_list_to_set (C := gset str) ks) by apply NoDup_remove_dups.
  rewrite <- (size_dom (D := gset str)). apply subseteq_size. intros k Hk. apply elem_of_list_to_set in Hk.
  unfold ks in Hk. rewrite elem_of_remove_dups, list_elem_of_In, filter_In, andb_true_iff, bool_decide_eq_true in Hk.
  destruct Hk as (_ & _ & [v Hl]). rewrite <- al_live_view in Hl. apply live_Some in Hl as [dl He].
  by eapply elem_of_dom_2.
Qed.

#[export] Instance demo_env : Env := {}.

(** Clock, server time, randomness and UUIDs count up from a base; every trip is
    delivered. *)
Definition demo_uuid_of (n : nat) : Uuid :=
  match decide (bool_decide (N.of_nat n < 2 ^ 128)) with
  | left H => mkUuid _ H
  | right _ => mkUuid 0 I
  end.

Definition demo_oracle : oracle :=
  Oracle (λ n, 1000 + N.of_nat n) (λ n i, N.of_nat (n + i)) demo_uuid_of
    (λ n, Trip (1000 + N.of_nat n) Delivered).

Definition demo_world (l : alist) : world := World (l : db) 0 0 1 0.

Lemma demo_view_forall (w : @world demo_env) (P : str * entry → bool) k e :
  forallb P (w_db w : alist) = true → vw w !! k = Some e → P (k, e) = true.
Proof.
  rewrite forallb_forall. intros HP He. apply HP, list_elem_of_In. by apply elem_of_list_to_map_2.
Qed.

(** Elaborate a term before matching it with the goal. *)
Ltac via t := let H := fresh in pose proof t as H; exact H.

Lemma run_ok {A : Type} (r : result error A * world) a : r.1 = Ok a → r = (Ok a, r.2).
Proof. destruct r as [x w]. simpl. by intros ->. Qed.

Lemma is_ok_run {A : Type} (r : result error A * world) :
  is_ok r.1 = true → ∃ a, r = (Ok a, r.2).
Proof. destruct r as [[a|e] w]; [|done]. eauto. Qed.

Lemma demo_reliable n : t_fate (o_trip demo_oracle n) = Delivered.
Proof. done. Qed.

End DemoEnv.
