(* ===== verification/Records.v ===== *)
(** * Record families (Store::record_ids in src/src/store.rs)

    Listing the identifiers of a record family by scanning its key prefix.  The
    source collects them in a [BTreeSet], so the result is the strictly
    increasing list of the identifiers found. *)

From S2P Require Import Prelude Sable Logic.

Definition MAX_SNAPSHOT_KEYS : N := 1000000.

(** [BTreeSet::insert] on the sorted list of the set's elements. *)
Fixpoint set_insert (x : Uuid) (l : list Uuid) : list Uuid :=
  match l with
  | [] => [x]
  | y :: l' => if uuid_ltb x y then x :: l
               else if uuid_ltb y x then y :: set_insert x l'
               else l
  end.

(** [sort_by_key] with an ordering test; the keys of the source are unique. *)
Fixpoint insert_by {A : Type} (before : A → A → bool) (x : A) (l : list A) : list A :=
  match l with
  | [] => [x]
  | y :: l' => if before y x then y :: insert_by before x l' else x :: l
  end.

Fixpoint sort_by {A : Type} (before : A → A → bool) (l : list A) : list A :=
  match l with
  | [] => []
  | x :: l' => insert_by before x (sort_by before l')
  end.

Lemma insert_by_elem {A : Type} (before : A → A → bool) (x y : A) l : x ∈ insert_by before y l ↔ x = y ∨ x ∈ l.
Proof. induction l as [|z l IH]; simpl; [set_solver|]. destruct (before z y); set_solver. Qed.

Lemma sort_by_elem {A : Type} (before : A → A → bool) (x : A) l : x ∈ sort_by before l ↔ x ∈ l.
Proof. induction l as [|y l IH]; simpl; [done|]. rewrite insert_by_elem, IH. set_solver. Qed.

(** Sorting by a key that no two elements share. *)
Section SortKey.
Context {A K : Type} (key : A → K) (R : relation K) (ltb : K → K → bool).
Context `{!Transitive R} (ltb_spec : ∀ a b, ltb a b = true ↔ R a b) (total : ∀ a b, a ≠ b → R a b ∨ R b a).

Lemma insert_by_ordered x l :
  key x ∉ key <$> l → StronglySorted (λ a b, R (key a) (key b)) l →
  StronglySorted (λ a b, R (key a) (key b)) (insert_by (λ a b, ltb (key a) (key b)) x l).
Proof using Type*.
  intros Hx. induction 1 as [|y l Hs IH Hall]; cbn [insert_by]; [repeat constructor|].
  cbn in Hx. apply not_elem_of_cons in Hx as [Hxy Hx]. destruct (ltb (key y) (key x)) eqn:Hlt.
  - apply ltb_spec in Hlt. constructor; [by apply IH|]. apply Forall_forall. intros z Hz.
    apply insert_by_elem in Hz as [->|Hz]; [done|]. rewrite Forall_forall in Hall. by apply Hall.
  - assert (Hxlt : R (key x) (key y)).
    { destruct (total _ _ Hxy) as [|Hyx]; [done|]. apply ltb_spec in Hyx. congruence. }
    constructor; [by constructor|]. constructor; [done|]. eapply Forall_impl; [exact Hall|].
    intros z Hz. by transitivity (key y).
Qed.

Lemma sort_by_ordered l :
  NoDup (key <$> l) → StronglySorted (λ a b, R (key a) (key b)) (sort_by (λ a b, ltb (key a) (key b)) l).
Proof using Type*.
  induction l as [|x l IH]; cbn; [constructor|]. intros [Hx Hnd]%NoDup_cons. apply insert_by_ordered; [|by apply IH].
  intros (y & Hy & Hin)%list_elem_of_fmap. apply Hx. rewrite Hy. apply list_elem_of_fmap_2. by eapply sort_by_elem.
Qed.
End SortKey.

(** Lexicographic order on [(u64, Uuid)] keys. *)
Definition key_before (a b : N * Uuid) : bool :=
  (a.1 <? b.1) || ((a.1 =? b.1) && uuid_ltb a.2 b.2).

Section Records.
Context `{Env}.

Definition insert_key (prefix : str) (ids : list Uuid) (key : str) : result error (list Uuid) :=
  s ← ok_or (EBail "record scan returned an invalid key") (strip_prefix prefix key);
  id ← ok_or EUuid (uuid_parse s);
  Ok (set_insert id ids).

Fixpoint insert_keys (prefix : str) (ids : list Uuid) (keys : list str) : result error (list Uuid) :=
  match keys with
  | [] => Ok ids
  | key :: keys' => ids ← insert_key prefix ids key; insert_keys prefix ids keys'
  end.

Definition insert_batch (prefix : str) (ids : list Uuid) (batch : list str) : M error (list Uuid) :=
  ids ← lift (insert_keys prefix ids batch);
  ensure (negb (MAX_SNAPSHOT_KEYS <? N.of_nat (length ids)))
    (EBail "RustyAuth record family exceeds the one-million-key safety limit");;
  mret ids.

Definition record_ids (prefix : str) : M error (list Uuid) :=
  batches ← scan prefix;
  foldM (insert_batch prefix) batches [].

(** Load the records of a family, skipping the ones that vanished meanwhile. *)
Fixpoint load_records {A : Type} (load : Uuid → M error (option A)) (ids : list Uuid) :
    M error (list A) :=
  match ids with
  | [] => mret []
  | id :: ids' =>
      r ← load id;
      rs ← load_records load ids';
      mret (match r with Some a => a :: rs | None => rs end)
  end.

Lemma record_ids_reads R `{!PreOrder R} prefix : moves R (record_ids prefix).
Proof. unfold record_ids, insert_batch. moves_go. apply moves_foldM; [apply _|]. intros. moves_go. Qed.

Lemma load_records_reads {A : Type} R `{!PreOrder R} (load : Uuid → M error (option A)) ids :
  (∀ id, moves R (load id)) → moves R (load_records load ids).
Proof. intros Hl. induction ids as [|id ids IH]; simpl; moves_go. Qed.

(** ** The result is the set of identifiers found *)

Definition uuid_lt (a b : Uuid) : Prop := uuid_bits a < uuid_bits b.

Lemma uuid_ltb_spec a b : uuid_ltb a b = true ↔ uuid_lt a b.
Proof. apply N.ltb_lt. Qed.

#[global] Instance uuid_lt_trans : Transitive uuid_lt.
Proof. unfold uuid_lt. intros a b c. lia. Qed.

Lemma uuid_lt_total a b : a ≠ b → uuid_lt a b ∨ uuid_lt b a.
Proof. intros Hne. unfold uuid_lt. assert (uuid_bits a ≠ uuid_bits b) by (by intros ?%uuid_bits_inj). lia. Qed.

Lemma set_insert_elem x y l : y ∈ set_insert x l ↔ y = x ∨ y ∈ l.
Proof.
  induction l as [|z l IH]; simpl; [set_solver|]. destruct (uuid_ltb x z) eqn:H1; [set_solver|].
  destruct (uuid_ltb z x) eqn:H2; [set_solver|].
  assert (x = z) as -> by (apply uuid_bits_inj; unfold uuid_ltb in *; lia). set_solver.
Qed.

Lemma set_insert_sorted x l : StronglySorted uuid_lt l → StronglySorted uuid_lt (set_insert x l).
Proof.
  induction 1 as [|y l Hs IH Hall]; simpl; [repeat constructor|].
  destruct (uuid_ltb x y) eqn:H1.
  - apply uuid_ltb_spec in H1. constructor; [by constructor|]. constructor; [done|].
    eapply Forall_impl; [done|]. unfold uuid_lt in *. intros z Hz. simpl in *. lia.
  - destruct (uuid_ltb y x) eqn:H2; [|by constructor]. apply uuid_ltb_spec in H2.
    constructor; [done|]. apply Forall_forall. intros z [->|Hz]%set_insert_elem; [done|].
    rewrite Forall_forall in Hall. auto.
Qed.

Lemma insert_keys_spec p ids keys ids' :
  insert_keys p ids keys = Ok ids' → StronglySorted uuid_lt ids →
  StronglySorted uuid_lt ids' ∧
  ∀ id, id ∈ ids' ↔ id ∈ ids ∨ ∃ s, p ++ s ∈ keys ∧ uuid_parse s = Some id.
Proof.
  revert ids. induction keys as [|k keys IH]; intros ids; simpl.
  { intros [= <-]. set_solver. }
  intros Hk Hs. unfold insert_key in Hk. destruct (strip_prefix p k) as [s|] eqn:Hp; [|done].
  apply strip_prefix_Some in Hp. subst k. simpl in Hk.
  destruct (uuid_parse s) as [x|] eqn:Hx; [|done]. simpl in Hk.
  destruct (IH _ Hk (set_insert_sorted x ids Hs)) as [Hs' Hel]. split; [done|].
  intros id. rewrite Hel, set_insert_elem. setoid_rewrite elem_of_cons. split.
  - intros [[->|?]|(s' & ? & ?)]; eauto 10.
  - intros [?|(s' & [Heq|?] & ?)]; eauto. simplify_eq. auto.
Qed.

Lemma wp_insert_batches p batches ids o w (Q : result error (list Uuid) → world → Prop) :
  StronglySorted uuid_lt ids →
  (∀ e, Q (Err e) w) →
  (∀ ids', StronglySorted uuid_lt ids' →
     (∀ id, id ∈ ids' ↔ id ∈ ids ∨ ∃ s, p ++ s ∈ concat batches ∧ uuid_parse s = Some id) →
     Q (Ok ids') w) →
  wp (foldM (insert_batch p) batches ids) o w Q.
Proof.
  revert ids. induction batches as [|b batches IH]; intros ids Hs He Hok; simpl.
  { apply wp_ret, Hok; [done|]. set_solver. }
  apply wp_bind, wp_bind, wp_lift. destruct (insert_keys p ids b) as [ids1|e] eqn:Hk; [|done].
  destruct (insert_keys_spec _ _ _ _ Hk Hs) as [Hs1 Hel1].
  apply wp_bind, wp_ensure; [intros _|intros _; apply He]. apply wp_ret, IH; [done..|].
  intros ids' Hs' Hel. apply Hok; [done|]. intros id. rewrite Hel, Hel1. simpl.
  setoid_rewrite elem_of_app. naive_solver.
Qed.

(** A family listing that succeeds is strictly increasing and contains exactly
    the identifiers whose key is live. *)
Lemma wp_record_ids p o w (Q : result error (list Uuid) → world → Prop) :
  (∀ e w', vw w' = vw w → Q (Err e) w') →
  (∀ ids w' t, vw w' = vw w → StronglySorted uuid_lt ids →
     (∀ id, id ∈ ids ↔ ∃ s, is_Some (live t (vw w) (p ++ s)) ∧ uuid_parse s = Some id) →
     Q (Ok ids) w') →
  wp (record_ids p) o w Q.
Proof.
  intros He Hok. apply wp_bind. unfold wp at 1, scan. destruct (t_fate _) eqn:Hf; simpl; [|by apply He..].
  apply wp_insert_batches; [constructor|intros; by apply He|].
  intros ids' Hs Hel. eapply (Hok ids' _ (trip_time o w)); [done..|]. intros id. rewrite Hel.
  setoid_rewrite db_scan_spec. split.
  - intros [[]%not_elem_of_nil|(s & [_ Hl] & Hp)]. eauto.
  - intros (s & Hl & Hp). right. exists s. split_and!; [|done|done]. apply starts_with_spec. eauto.
Qed.

(** *** Well-formed families

    Every record is stored under its identifier, without time to live, and satisfies
    [P]. *)

(** The records of a family that pass a test. *)
Definition load_if {A : Type} (load : Uuid → M error (option A)) (p : A → bool) (id : Uuid) : M error (option A) :=
  r ← load id;
  mret (option_filter p r).

(** A record without time to live. *)
Definition holds {A : Type} `{Serde A} (m : gmap str entry) (k : str) (r : A) : Prop := m !! k = Some (Entry (to_json r) None).

Lemma holds_inj {A : Type} `{Serde A} m k (r r' : A) : holds m k r → holds m k r' → r = r'.
Proof.
  unfold holds. intros Hr Hr'. rewrite Hr in Hr'. injection Hr' as Hj.
  apply (f_equal (from_json (A:=A))) in Hj. rewrite !from_to_json in Hj. by injection Hj.
Qed.

Definition records {A : Type} `{Serde A} (key : Uuid → str) (rid : A → Uuid) (P : A → Prop) (m : gmap str entry) : Prop :=
  ∀ id e, m !! key id = Some e → ∃ r, e = Entry (to_json r) None ∧ rid r = id ∧ P r.

Lemma records_holds {A : Type} `{Serde A} key rid (P : A → Prop) m id (r : A) :
  records key rid P m → holds m (key id) r → rid r = id ∧ P r.
Proof.
  intros Hok Hr. destruct (Hok _ _ Hr) as (r' & Heq & Hid & HP). injection Heq as Heq.
  by rewrite (holds_inj m (key id) r r') by (unfold holds; congruence).
Qed.

(** Contents and the supply of identifiers are as before. *)
Definition undisturbed (w w' : world) : Prop := vw w' = vw w ∧ w_uuid w' = w_uuid w.

#[global] Instance undisturbed_preorder : PreOrder undisturbed.
Proof. split; [done|]. intros w1 w2 w3 [H1 H2] [H3 H4]. split; congruence. Qed.

Lemma wp_record {A : Type} `{Serde A} key rid (P : A → Prop) id o w (Q : result error (option A) → world → Prop) :
  records key rid P (vw w) → (∀ w', undisturbed w w' → Q (Err EDb) w') →
  (∀ w', undisturbed w w' → vw w !! key id = None → Q (Ok None) w') →
  (∀ r w', undisturbed w w' → holds (vw w) (key id) r → rid r = id → P r → Q (Ok (Some r)) w') →
  wp (get_json (key id)) o w Q.
Proof.
  intros Hok He Hn Hs. apply wp_get_json; [intros d _ Hv; by apply He|]. intros d Hv.
  destruct (vw w !! key id) as [e|] eqn:Hk; [|rewrite live_missing by done; by apply Hn].
  destruct (Hok _ _ Hk) as (r & -> & Hid & HP). rewrite (live_persistent _ _ _ _ Hk), from_to_json. by apply Hs.
Qed.

(** Fresh identifiers: the next one names no record. *)
Definition fresh_id (key : Uuid → str) (o : oracle) (w : world) : Prop := vw w !! key (o_uuid o (w_uuid w)) = None.

(** The record under a key of a family, however it was read. *)
Lemma records_live {A : Type} `{Serde A} key rid (P : A → Prop) m id r :
  records key rid P m → (∃ t v, live t m (key id) = Some v ∧ from_json v = Some r) → rid r = id.
Proof.
  intros Hok (t & v & Hl & Hj). apply live_Some in Hl as [dl Hk]. destruct (Hok _ _ Hk) as (r' & Heq & Hid & _).
  injection Heq as -> _. rewrite from_to_json in Hj. by injection Hj as <-.
Qed.

Lemma wp_load_if {A : Type} `{Serde A} key rid (P : A → Prop) (load : Uuid → M error (option A)) p ids o w Q :
  records key rid P (vw w) → (∀ id, load id = get_json (key id)) → (∀ e w', vw w' = vw w → Q (Err e) w') →
  (∀ l w', vw w' = vw w → rid <$> l `sublist_of` ids →
     (∀ r, r ∈ l ↔ ∃ id, id ∈ ids ∧ holds (vw w) (key id) r ∧ p r = true) → Q (Ok l) w') →
  wp (load_records (load_if load p) ids) o w Q.
Proof.
  intros Hok Hload. revert w Q Hok. induction ids as [|id ids IH]; intros w Q Hok He Hdone; cbn [load_records].
  { apply wp_ret, Hdone; [done|done|]. intros r. split; [by intros ?%elem_of_nil|by intros (? & ?%elem_of_nil & _)]. }
  assert (Hrest : ∀ x w1, undisturbed w w1 → (∀ r, x = Some r ↔ holds (vw w) (key id) r ∧ p r = true) →
    wp (rs ← load_records (load_if load p) ids; mret (match x with Some a => a :: rs | None => rs end)) o w1 Q).
  { intros x w1 [Hv1 _] Hx. apply wp_bind, IH; [by rewrite Hv1|intros e w2 Hv2; apply He; congruence|].
    intros l w2 Hv2 Hsub Hl. apply wp_ret, Hdone; [congruence| |].
    { destruct x as [a|]; [|by constructor]. cbn.
      destruct (records_holds key rid P (vw w) id a) as [-> _]; [done|by apply Hx|]. by constructor. }
    intros r. setoid_rewrite elem_of_cons. rewrite Hv1 in Hl.
    transitivity (x = Some r ∨ r ∈ l).
    - destruct x as [a|]; [rewrite elem_of_cons|].
      + split; (intros [Ha|?]; [left|by right]); congruence.
      + split; [by right|by intros [?|?]].
    - rewrite Hx, Hl. split.
      + intros [[? ?]|(i & ? & ? & ?)]; [exists id|exists i]; split_and!; auto.
      + intros (i & [->|?] & ? & ?); [by left|right]. by exists i. }
  apply wp_bind. unfold load_if at 1. rewrite Hload. apply wp_bind, (wp_record _ _ _ _ _ _ _ Hok).
  - intros w1 [Hv _]. by apply He.
  - intros w1 Hw1 Hn. apply wp_ret, Hrest; [done|]. intros r. unfold holds. simpl. split; [done|]. rewrite Hn. by intros [? _].
  - intros r w1 Hw1 Hr _ _. apply wp_ret, Hrest; [done|]. intros r'. rewrite option_filter_Some. split.
    + by intros [[= <-] Hp].
    + intros [Hr' Hp]. by rewrite (holds_inj _ _ _ _ Hr Hr').
Qed.

(** A listing sorted by identifier. *)
Definition id_before {A : Type} (rid : A → Uuid) (a b : A) : Prop := uuid_lt (rid a) (rid b).

Lemma insert_by_sorted {A : Type} (rid : A → Uuid) x l :
  rid x ∉ rid <$> l → StronglySorted (id_before rid) l →
  StronglySorted (id_before rid) (insert_by (λ a b, uuid_ltb (rid a) (rid b)) x l).
Proof. apply (insert_by_ordered rid uuid_lt uuid_ltb uuid_ltb_spec uuid_lt_total). Qed.

Lemma sort_by_sorted {A : Type} (rid : A → Uuid) l :
  NoDup (rid <$> l) → StronglySorted (id_before rid) (sort_by (λ a b, uuid_ltb (rid a) (rid b)) l).
Proof. apply (sort_by_ordered rid uuid_lt uuid_ltb uuid_ltb_spec uuid_lt_total). Qed.

Lemma ids_nodup ids : StronglySorted uuid_lt ids → NoDup ids.
Proof.
  induction 1 as [|x l Hs IH Hall]; constructor; [|done]. intros Hx. rewrite Forall_forall in Hall.
  specialize (Hall x Hx). unfold uuid_lt in Hall. lia.
Qed.

Lemma wp_listing_nodup {A : Type} `{Serde A} prefix key rid (P : A → Prop) (load : Uuid → M error (option A)) p before o w Q :
  (∀ id, key id = prefix ++ uuid_show id) →
  records key rid P (vw w) → (∀ id, load id = get_json (key id)) → (∀ e w', vw w' = vw w → Q (Err e) w') →
  (∀ l w', vw w' = vw w → NoDup (rid <$> l) → (∀ id r, holds (vw w) (key id) r → p r = true → r ∈ l) →
     (∀ r, r ∈ l → p r = true ∧ ∃ id, holds (vw w) (key id) r) → Q (Ok (sort_by before l)) w') →
  wp (ids ← record_ids prefix; records ← load_records (load_if load p) ids; mret (sort_by before records)) o w Q.
Proof.
  intros Hkey Hok Hload He Hdone. apply wp_bind, wp_record_ids; [done|]. intros ids w1 t Hv1 Hsort Hids.
  apply wp_bind. apply (wp_load_if key rid P); [by rewrite Hv1|done|intros e w2 Hv2; apply He; congruence|].
  intros l w2 Hv2 Hsub Hl. rewrite Hv1 in Hl. apply wp_ret, Hdone; [congruence| | |].
  - eapply sublist_NoDup; [by apply ids_nodup|done].
  - intros id r Hr Hp. apply Hl. exists id. split; [|done]. apply Hids. exists (uuid_show id).
    split; [|apply uuid_parse_show]. rewrite <- Hkey, (live_persistent _ _ _ _ Hr). eauto.
  - intros r Hr. apply Hl in Hr as (id & _ & Hr & Hp). split; [done|by exists id].
Qed.

Lemma wp_listing {A : Type} `{Serde A} prefix key rid (P : A → Prop) (load : Uuid → M error (option A)) p before o w Q :
  (∀ id, key id = prefix ++ uuid_show id) →
  records key rid P (vw w) → (∀ id, load id = get_json (key id)) → (∀ e w', vw w' = vw w → Q (Err e) w') →
  (∀ l w', vw w' = vw w → (∀ id r, holds (vw w) (key id) r → p r = true → r ∈ l) →
     (∀ r, r ∈ l → p r = true ∧ ∃ id, holds (vw w) (key id) r) → Q (Ok l) w') →
  wp (ids ← record_ids prefix; records ← load_records (load_if load p) ids; mret (sort_by before records)) o w Q.
Proof.
  intros Hkey Hok Hload He Hdone. apply (wp_listing_nodup prefix key rid P); [done..|].
  intros l w' Hv _ H1 H2. apply Hdone; [done| |].
  - intros id r Hr Hp. by eapply sort_by_elem, H1.
  - intros r Hr. by eapply H2, sort_by_elem.
Qed.

(** The listing by identifier: strictly increasing, and exactly the records that pass. *)
Lemma wp_listing_sorted {A : Type} `{Serde A} prefix key rid (P : A → Prop) (load : Uuid → M error (option A)) p o w Q :
  (∀ id, key id = prefix ++ uuid_show id) →
  records key rid P (vw w) → (∀ id, load id = get_json (key id)) → (∀ e w', vw w' = vw w → Q (Err e) w') →
  (∀ l w', vw w' = vw w → StronglySorted (id_before rid) l →
     (∀ r, r ∈ l ↔ p r = true ∧ ∃ id, holds (vw w) (key id) r) → Q (Ok l) w') →
  wp (ids ← record_ids prefix; records ← load_records (load_if load p) ids;
      mret (sort_by (λ a b, uuid_ltb (rid a) (rid b)) records)) o w Q.
Proof.
  intros Hkey Hok Hload He Hdone. apply (wp_listing_nodup prefix key rid P); [done..|].
  intros l w' Hv Hnd H1 H2. apply Hdone; [done|by apply sort_by_sorted|]. intros r. rewrite sort_by_elem. split; [by apply H2|].
  intros [Hp [id Hr]]. by eapply H1.
Qed.
End Records.

#[export] Hint Resolve record_ids_reads : moves.
