(* ===== verification/Events.v ===== *)
(** * The append-only event log (src/src/store/events.rs)

    Every mutation of the store writes its audit events in the same atomic
    pipeline as the records it changes.  The component keeps a counter
    [auth:event-sequence], a retention boundary [auth:event-min-sequence] and one
    record [auth:event:<sequence>] per event.  [log_ok m lo hi] is the invariant
    that makes the log trustworthy for its consumers (webhooks, analytics, event
    streaming): the records from [lo] to [hi] are all present, decode, and carry
    their own sequence number.  [log_extends] is the corresponding preorder on
    datastores; [moves_commit] is the lemma every mutation of the store uses to
    show that it extends the log. *)

From S2P Require Import Prelude Sable Logic Demo.

(** The configuration [Store] carries besides its connection and its locks. *)
Record Store := mkStore { tenant_id : str }.

Definition SEQUENCE_KEY : str := #"auth:event-sequence".
Definition MIN_SEQUENCE_KEY : str := #"auth:event-min-sequence".
Definition event_key (sequence : N) : str := #"auth:event:" ++ show_u64 sequence.

Section Events.
Context `{Env}.

Record AuthEvent := mkEvent {
  ev_sequence : N;
  ev_id : Uuid;
  ev_tenant_id : str;
  ev_type : str;
  ev_subject : option Uuid;
  ev_occurred_at : N;
  ev_data : Value
}.

Definition with_data (data : Value) (ev : AuthEvent) : AuthEvent :=
  mkEvent (ev_sequence ev) (ev_id ev) (ev_tenant_id ev) (ev_type ev) (ev_subject ev)
    (ev_occurred_at ev) data.

Context `{!Serde AuthEvent}.

Definition latest_event_sequence : M error N :=
  v ← get_u64 SEQUENCE_KEY; mret (default 0 v).

Definition minimum_event_sequence : M error N :=
  v ← get_u64 MIN_SEQUENCE_KEY; mret (default 1 v).

Definition pending_event (self : Store) (first : N)
    (input : nat * (str * option Uuid)) : M error AuthEvent :=
  let '(index, (event_type, subject)) := input in
  sequence ← some_or (EBail "auth event sequence exhausted")
               (checked_add first (N.of_nat index));
  id ← new_v4;
  occurred_at ← now;
  mret (mkEvent sequence id (tenant_id self) event_type subject occurred_at json_empty_object).

(** [Iterator::enumerate] *)
Fixpoint enumerate_from {A : Type} (n : nat) (l : list A) : list (nat * A) :=
  match l with
  | [] => []
  | x :: l' => (n, x) :: enumerate_from (S n) l'
  end.

Definition pending_events (self : Store) (inputs : list (str * option Uuid)) :
    M error (list AuthEvent) :=
  latest ← latest_event_sequence;
  first ← some_or (EBail "auth event sequence exhausted") (checked_add latest 1);
  mapM_ (pending_event self first) (enumerate_from 0 inputs).

Definition queue_events (events : list AuthEvent) : list cmd :=
  match last events with
  | None => []
  | Some final =>
      [MSET (((λ ev, (event_key (ev_sequence ev), to_json ev)) <$> events)
             ++ [(SEQUENCE_KEY, show_u64 (ev_sequence final))])]
  end.

(** [Vec::pop().expect(..)] *)
Definition pop_event (events : list AuthEvent) : M error AuthEvent :=
  some_or EPanic (last events).

Definition append_event_locked (self : Store) (event_type : str) (subject : option Uuid) :
    M error AuthEvent :=
  events ← pending_events self [(event_type, subject)];
  event ← pop_event events;
  execute (queue_events [event]);;
  mret event.

(** The two lock-taking wrappers run the same steps. *)
Definition append_event_within_snapshot := append_event_locked.
Definition append_event := append_event_within_snapshot.

Definition append_event_with_data (self : Store) (event_type : str) (subject : option Uuid)
    (data : Value) : M error AuthEvent :=
  events ← pending_events self [(event_type, subject)];
  event ← pop_event events;
  let event := with_data data event in
  execute (queue_events [event]);;
  mret event.

Definition append_telemetry_events (self : Store)
    (inputs : list (str * option Uuid * Value)) : M error unit :=
  match inputs with
  | [] => mret tt
  | _ =>
      events ← pending_events self inputs.*1;
      let events := zip_with (λ ev input, with_data input.2 ev) events inputs in
      execute (queue_events events)
  end.

(** The checks of one stored record against the sequence it must carry. *)
Definition check_record (expected : N) (value : option str) : result error AuthEvent :=
  match value with
  | None => Err (ELog (MissingSequence expected))
  | Some value =>
      match from_json value with
      | None => Err (ELog (MalformedRecord expected))
      | Some event =>
          if ev_sequence event =? expected then Ok event
          else Err (ELog (UnexpectedSequence expected (ev_sequence event)))
      end
  end.

Fixpoint check_records (expected : N) (values : list (option str)) :
    result error (list AuthEvent) :=
  match values with
  | [] => Ok []
  | value :: values' =>
      match check_record expected value with
      | Err e => Err e
      | Ok event =>
          match check_records (expected + 1) values' with
          | Err e => Err e
          | Ok events => Ok (event :: events)
          end
      end
  end.

(** The keys of the inclusive range [first..=first + count - 1]. *)
Fixpoint event_keys (first : N) (count : nat) : list str :=
  match count with
  | O => []
  | S count' => event_key first :: event_keys (first + 1) count'
  end.

Definition mget (ks : list str) : M error (list (option str)) :=
  rs ← query [MGET ks];
  lift (match rs with [RArray vs] => Ok vs | _ => Err EDb end).

Definition events (after limit : N) : M error (list AuthEvent) :=
  if limit =? 0 then mret []
  else
    minimum ← minimum_event_sequence;
    if saturating_add after 1 <? minimum then fail (ELog (CursorExpired minimum))
    else
      latest ← latest_event_sequence;
      let stop := N.min latest (saturating_add after limit) in
      if stop <=? after then mret []
      else
        values ← mget (event_keys (after + 1) (N.to_nat (stop - after)));
        lift (check_records (after + 1) values).

(** ** The invariant *)

(** A persistent counter: present with this value, or absent at its default. *)
Definition counter_at (m : gmap str entry) (k : str) (n dflt : N) : Prop :=
  m !! k = Some (Entry (show_u64 n) None) ∨ (m !! k = None ∧ n = dflt).

(** The record at sequence [s] is present without a TTL and decodes to [ev]. *)
Definition event_at (m : gmap str entry) (s : N) (ev : AuthEvent) : Prop :=
  m !! event_key s = Some (Entry (to_json ev) None) ∧ ev_sequence ev = s.

Record log_ok (m : gmap str entry) (lo hi : N) : Prop := {
  log_latest : counter_at m SEQUENCE_KEY hi 0;
  log_minimum : counter_at m MIN_SEQUENCE_KEY lo 1;
  log_bounds : 1 ≤ lo ∧ lo ≤ hi + 1 ∧ hi ≤ u64_max ∧ lo ≤ u64_max;
  log_records s : lo ≤ s → s ≤ hi → ∃ ev, event_at m s ev
}.

(** [m'] holds a well-formed log from [lo], at least up to [hi], with the
    records of [m] up to [hi] unchanged. *)
Definition extends_from (m : gmap str entry) (lo hi : N) (m' : gmap str entry) : Prop :=
  ∃ hi', hi ≤ hi' ∧ log_ok m' lo hi' ∧
         ∀ s, lo ≤ s → s ≤ hi → m' !! event_key s = m !! event_key s.

Definition log_extends (m m' : gmap str entry) : Prop :=
  ∀ lo hi, log_ok m lo hi → extends_from m lo hi m'.

#[global] Instance log_extends_preorder : PreOrder log_extends.
Proof.
  split.
  - intros m lo hi Hok. exists hi. by split_and!.
  - intros m1 m2 m3 H12 H23 lo hi Hok. unfold extends_from.
    destruct (H12 lo hi Hok) as (hi2 & Hle2 & Hok2 & Hev2).
    destruct (H23 lo hi2 Hok2) as (hi3 & Hle3 & Hok3 & Hev3).
    exists hi3. split_and!; [lia|done|]. intros s Hs1 Hs2.
    rewrite Hev3 by lia. by apply Hev2.
Qed.

(** Keys of the log all start with this text; no other family does. *)
Definition is_log_key (k : str) : bool := starts_with #"auth:event" k.

(** Commands that write no key of the log. *)
Definition log_foreign (cs : list cmd) : bool := untouched is_log_key cs.

(** The keys of the log determine whether it is well formed. *)
Lemma log_ok_agree m m' lo hi :
  agree_on (λ k, is_log_key k = true) m m' → log_ok m lo hi → log_ok m' lo hi.
Proof.
  intros Ha [Hl Hm Hb Hr]. split; [..|done|].
  - unfold counter_at in *. by rewrite (Ha SEQUENCE_KEY).
  - unfold counter_at in *. by rewrite (Ha MIN_SEQUENCE_KEY).
  - unfold event_at in *. intros s. rewrite (Ha (event_key s)) by done. apply Hr.
Qed.

Lemma log_extends_agree m m' : agree_on (λ k, is_log_key k = true) m m' → log_extends m m'.
Proof.
  intros Ha lo hi Hok. exists hi. split_and!; [lia|by eapply log_ok_agree|].
  intros s _ _. by apply Ha.
Qed.

Lemma log_foreign_agree t cs m :
  log_foreign cs = true → agree_on (λ k, is_log_key k = true) m (exec_pipe t cs m).2.
Proof. apply untouched_agree. Qed.

Lemma log_extends_foreign t cs m :
  log_foreign cs = true → log_extends m (exec_pipe t cs m).2.
Proof. intros. by apply log_extends_agree, log_foreign_agree. Qed.

(** ** Appending *)

(** Events numbered consecutively after [hi]. *)
Definition numbered (hi : N) (evs : list AuthEvent) : Prop :=
  hi + N.of_nat (length evs) ≤ u64_max ∧
  ∀ i ev, evs !! i = Some ev → ev_sequence ev = hi + 1 + N.of_nat i.

(** The event built for an input of [pending_events]. *)
Definition event_for (self : Store) (input : str * option Uuid) (ev : AuthEvent) : Prop :=
  ev_type ev = input.1 ∧ ev_subject ev = input.2 ∧ ev_tenant_id ev = tenant_id self.

Lemma live_counter t m k n dflt :
  counter_at m k n dflt → n ≤ u64_max →
  match live t m k with
  | None => n = dflt
  | Some v => parse_u64 v = Some n
  end.
Proof.
  intros [Hk|[Hk ->]] Hn.
  - rewrite (live_persistent _ _ _ _ Hk). by apply parse_show_u64.
  - by rewrite live_missing.
Qed.

Lemma wp_counter k n dflt o w (Q : result error N → world → Prop) :
  counter_at (vw w) k n dflt → n ≤ u64_max →
  (∀ d, t_fate (o_trip o (w_trip w)) ≠ Delivered → db_view d = vw w →
     Q (Err EDb) (after_trip w d)) →
  (∀ d, db_view d = vw w → Q (Ok n) (after_trip w d)) →
  wp (v ← get_u64 k; mret (default dflt v)) o w Q.
Proof.
  intros Hc Hn Hfail Hok. apply wp_bind, wp_get_u64; [done|]. intros d Hd.
  pose proof (live_counter (trip_time o w) _ _ _ _ Hc Hn) as Hl.
  destruct (live _ _ k); [rewrite Hl|subst dflt]; apply wp_ret; simpl; auto.
Qed.

Lemma wp_pending_list self first inputs n o w Q :
  (∀ w', vw w' = vw w → w_trip w' = w_trip w →
     u64_max + 1 < first + N.of_nat (n + length inputs) →
     Q (Err (EBail "auth event sequence exhausted")) w') →
  (∀ evs w', vw w' = vw w → w_trip w' = w_trip w →
     Forall2 (event_for self) inputs evs →
     (∀ i ev, evs !! i = Some ev →
        ev_sequence ev = first + N.of_nat (n + i) ∧ ev_sequence ev ≤ u64_max) →
     Q (Ok evs) w') →
  wp (mapM_ (pending_event self first) (enumerate_from n inputs)) o w Q.
Proof.
  revert n w Q. induction inputs as [|[ty subj] inputs IH]; intros n w Q Herr Hok; simpl.
  { apply wp_ret, Hok; [done..|]. intros i ev Hi. by rewrite lookup_nil in Hi. }
  apply wp_bind, wp_bind, wp_some_or.
  - intros s [-> Hs]%checked_add_Some. apply wp_bind.
    unfold wp at 1. simpl. apply wp_bind, wp_now, wp_ret, wp_bind, IH.
    + intros w' Hv Ht Hlt. apply Herr; [done..|]. simpl. lia.
    + intros evs w' Hv Ht Hf Hi. apply wp_ret, Hok; [done..| |].
      * constructor; [done|]. done.
      * intros [|i] ev Hev; simplify_eq/=.
        -- rewrite Nat.add_0_r. lia.
        -- apply Hi in Hev. by rewrite Nat.add_succ_r in *.
  - intros Hs. apply Herr; [done..|]. unfold checked_add in Hs. case_match; [done|].
    reflect. simpl. lia.
Qed.

Lemma wp_pending_events self inputs lo hi o w Q :
  log_ok (vw w) lo hi →
  (∀ e w', vw w' = vw w →
     (reliable o → u64_max < hi + N.max 1 (N.of_nat (length inputs))) → Q (Err e) w') →
  (∀ evs w', vw w' = vw w → numbered hi evs → Forall2 (event_for self) inputs evs →
     Q (Ok evs) w') →
  wp (pending_events self inputs) o w Q.
Proof.
  intros [Hl _ Hb _] Herr Hok. apply wp_bind, (wp_counter _ hi 0); [done|lia|..].
  { intros d Hf Hd. apply Herr; [done|]. intros Hr. by rewrite Hr in Hf. }
  intros d Hd. apply wp_bind, wp_some_or.
  - intros first [-> Hlt]%checked_add_Some. apply wp_pending_list; simpl.
    + intros w' Hv _ Hgt. apply Herr; [by rewrite Hv|]. lia.
    + intros evs w' Hv _ Hf Hi. pose proof (Forall2_length _ _ _ Hf) as Hlen.
      apply Hok; [by rewrite Hv| |done]. split.
      * destruct (last evs) as [ev|] eqn:Hlast.
        -- rewrite last_lookup in Hlast. apply Hi in Hlast.
           destruct evs; simpl in *; lia.
        -- apply last_None in Hlast. subst. simpl. lia.
      * intros i ev Hev. by apply Hi in Hev as [? _].
  - intros Hs. apply Herr; [done|]. unfold checked_add in Hs. case_match; [done|]. reflect. lia.
Qed.

Lemma numbered_lookup_key hi evs i ev :
  numbered hi evs → evs !! i = Some ev → event_key (ev_sequence ev) = event_key (hi + 1 + N.of_nat i).
Proof. intros [_ Hn] Hi. by rewrite (Hn i ev Hi). Qed.

#[global] Instance event_key_inj : Inj (=) (=) event_key.
Proof. intros a b Hab. unfold event_key in Hab. simplify_eq. by apply show_u64_inj. Qed.

Definition event_pairs (evs : list AuthEvent) : list (str * str) :=
  (λ ev, (event_key (ev_sequence ev), to_json ev)) <$> evs.

Lemma event_pairs_nodup hi evs : numbered hi evs → NoDup (event_pairs evs).*1.
Proof.
  intros [_ Hn]. unfold event_pairs. rewrite <- list_fmap_compose. apply NoDup_alt.
  intros i j k Hi Hj. rewrite list_lookup_fmap in Hi, Hj.
  destruct (evs !! i) as [ei|] eqn:Hei; [|done]. destruct (evs !! j) as [ej|] eqn:Hej; [|done].
  simpl in *. assert (Hk : event_key (ev_sequence ei) = event_key (ev_sequence ej)) by congruence.
  apply event_key_inj in Hk. apply Hn in Hei. apply Hn in Hej. lia.
Qed.

Lemma event_pairs_apart evs k : (∀ s, k ≠ event_key s) → k ∉ (event_pairs evs).*1.
Proof.
  intros Hk. unfold event_pairs. rewrite <- list_fmap_compose, list_elem_of_fmap.
  intros (ev & -> & _). by apply (Hk (ev_sequence ev)).
Qed.

Lemma event_key_seq_ne s : SEQUENCE_KEY ≠ event_key s.
Proof. unfold SEQUENCE_KEY, event_key. key_neq. Qed.
Lemma event_key_min_ne s : MIN_SEQUENCE_KEY ≠ event_key s.
Proof. unfold MIN_SEQUENCE_KEY, event_key. key_neq. Qed.

(** Writing consecutively numbered events extends a well-formed log by exactly
    those events and leaves the older ones alone. *)
Lemma log_append m lo hi evs t :
  log_ok m lo hi → numbered hi evs →
  let m' := (exec_pipe t (queue_events evs) m).2 in
  log_ok m' lo (hi + N.of_nat (length evs)) ∧
  (∀ i ev, evs !! i = Some ev → event_at m' (hi + 1 + N.of_nat i) ev) ∧
  (∀ s, s ≤ hi → m' !! event_key s = m !! event_key s).
Proof.
  intros [Hl Hm Hb Hr] Hnum. unfold queue_events. fold (event_pairs evs).
  destruct (last evs) as [final|] eqn:Hlast.
  2:{ apply last_None in Hlast. subst. rewrite N.add_0_r. simpl. split_and!; [done|done|done]. }
  assert (Hnew : ∀ i ev, evs !! i = Some ev →
      event_at (mset (event_pairs evs ++ [(SEQUENCE_KEY, show_u64 (ev_sequence final))]) m)
        (hi + 1 + N.of_nat i) ev).
  { intros i ev Hi. destruct Hnum as [Hmax Hn]. specialize (Hn i ev Hi) as Hseq. split; [|done].
    rewrite mset_app. cbn. rewrite lookup_insert_ne by apply event_key_seq_ne.
    apply mset_elem; [apply (event_pairs_nodup hi); by split|]. unfold event_pairs.
    apply list_elem_of_fmap. exists ev. split; [by rewrite <- Hseq|]. by eapply list_elem_of_lookup_2. }
  assert (Hold : ∀ s, s ≤ hi →
      mset (event_pairs evs ++ [(SEQUENCE_KEY, show_u64 (ev_sequence final))]) m !! event_key s
      = m !! event_key s).
  { intros s Hs. apply mset_ne. rewrite fmap_app. apply not_elem_of_app. split.
    - unfold event_pairs. rewrite <- list_fmap_compose, list_elem_of_fmap.
      intros (ev & Hk & [i Hi]%list_elem_of_lookup). apply event_key_inj in Hk.
      destruct Hnum as [_ Hn]. apply Hn in Hi. lia.
    - apply not_elem_of_cons. split; [apply not_eq_sym, event_key_seq_ne|]. apply not_elem_of_nil. }
  cbn. split_and!; [|exact Hnew|exact Hold]. split.
  - left. rewrite mset_app. cbn.
    replace (ev_sequence final) with (hi + N.of_nat (length evs)); [by rewrite lookup_insert_eq|].
    destruct evs as [|e evs]; [done|].
    rewrite last_lookup in Hlast. destruct Hnum as [_ Hn]. apply Hn in Hlast.
    rewrite Hlast. simpl. lia.
  - unfold counter_at in *. rewrite mset_app. cbn.
    rewrite lookup_insert_ne by (unfold SEQUENCE_KEY, MIN_SEQUENCE_KEY; key_neq).
    rewrite mset_ne; [done|]. apply event_pairs_apart, event_key_min_ne.
  - destruct Hnum as [Hmax _]. lia.
  - intros s Hs1 Hs2. destruct (decide (s ≤ hi)) as [Hle|Hgt].
    + destruct (Hr s Hs1 Hle) as [ev [Hev Hseq]]. exists ev. split; [|done]. by rewrite Hold.
    + destruct (evs !! N.to_nat (s - hi - 1)) as [ev|] eqn:Hi.
      * exists ev. apply Hnew in Hi. by replace (hi + 1 + N.of_nat (N.to_nat (s - hi - 1))) with s in Hi by lia.
      * apply lookup_ge_None in Hi. lia.
Qed.

(** The effect of a committed pipeline: foreign commands, then the events. *)
Lemma log_commit m lo hi cs evs t :
  log_ok m lo hi → numbered hi evs → log_foreign cs = true →
  let m' := (exec_pipe t (cs ++ queue_events evs) m).2 in
  log_ok m' lo (hi + N.of_nat (length evs)) ∧
  (∀ i ev, evs !! i = Some ev → event_at m' (hi + 1 + N.of_nat i) ev) ∧
  (∀ s, lo ≤ s → s ≤ hi → m' !! event_key s = m !! event_key s).
Proof.
  intros Hok Hnum Hf. rewrite exec_pipe_app. set (m1 := (exec_pipe t cs m).2).
  assert (Ha : agree_on (λ k, is_log_key k = true) m m1) by by apply log_foreign_agree.
  destruct (log_extends_agree m m1 Ha lo hi Hok) as (hi1 & Hle & Hok1 & _).
  assert (hi1 = hi) as ->.
  { destruct Hok as [Hl _ Hb _], Hok1 as [Hl1 _ Hb1 _].
    pose proof (live_counter 0 _ _ _ _ Hl ltac:(lia)) as E1.
    pose proof (live_counter 0 _ _ _ _ Hl1 ltac:(lia)) as E2.
    rewrite (live_eq 0 m m1) in E2 by by apply Ha.
    destruct (live 0 m SEQUENCE_KEY); congruence. }
  destruct (log_append m1 lo hi evs t Hok1 Hnum) as (Hok' & Hnew & Hold).
  split_and!; [done..|]. intros s Hs1 Hs2. rewrite Hold by done. by apply Ha.
Qed.

Lemma log_commit_extends m lo hi cs evs t :
  log_ok m lo hi → numbered hi evs → log_foreign cs = true →
  extends_from m lo hi (exec_pipe t (cs ++ queue_events evs) m).2.
Proof.
  intros Hok Hnum Hf. destruct (log_commit m lo hi cs evs t Hok Hnum Hf) as (? & _ & ?).
  eexists. split_and!; [|done|done]. lia.
Qed.

Lemma extends_from_refl m lo hi : log_ok m lo hi → extends_from m lo hi m.
Proof. intros. exists hi. by split_and!. Qed.

Lemma extends_from_trans m lo hi m1 m2 :
  extends_from m lo hi m1 → log_extends m1 m2 → extends_from m lo hi m2.
Proof.
  intros (hi1 & Hle1 & Hok1 & Hold1) H12.
  destruct (H12 lo hi1 Hok1) as (hi2 & Hle2 & Hok2 & Hold2).
  exists hi2. split_and!; [lia|done|]. intros s Hs1 Hs2. rewrite Hold2 by lia. by apply Hold1.
Qed.

(** [p] may rely on the log ending exactly at [hi], as between numbering the
    events and committing them. *)
Definition from_hi {A : Type} (hi : N) (p : M error A) : Prop :=
  ∀ o w lo, log_ok (vw w) lo hi → extends_from (vw w) lo hi (vw (p o w).2).

Lemma moves_pending {A : Type} self inputs (p : list AuthEvent → M error A) :
  (∀ evs hi, numbered hi evs → Forall2 (event_for self) inputs evs → from_hi hi (p evs)) →
  moves log_extends (pending_events self inputs ≫= p).
Proof.
  intros Hp o w lo hi Hok. set (prog := mbind _ _).
  enough (wp prog o w (λ _ w', extends_from (vw w) lo hi (vw w'))) by done.
  subst prog. apply wp_bind, (wp_pending_events _ _ lo hi); [done|..].
  { intros e w' Hv _. rewrite Hv. by apply extends_from_refl. }
  intros evs w1 Hv Hn Hfor. unfold wp. rewrite <- Hv.
  apply (Hp evs hi Hn Hfor). by rewrite Hv.
Qed.

Lemma from_hi_bind {A B : Type} hi (m : M error A) (k : A → M error B) :
  moves eq m → (∀ a, from_hi hi (k a)) → from_hi hi (m ≫= k).
Proof.
  intros Hm Hk o w lo Hok. specialize (Hm o w). unfold mbind, M_bind.
  destruct (m o w) as [[a|e] w1]; simpl in *; rewrite Hm in *; [by apply Hk|].
  by apply extends_from_refl.
Qed.

Lemma from_hi_moves {A : Type} hi (p : M error A) : moves log_extends p → from_hi hi p.
Proof. intros Hp o w lo Hok. by apply Hp. Qed.

Lemma from_hi_commit {A : Type} hi cs evs (k : M error A) :
  numbered hi evs → log_foreign cs = true → moves log_extends k →
  from_hi hi (execute (cs ++ queue_events evs);; k).
Proof.
  intros Hn Hf Hk o w lo Hok.
  set (prog := mbind _ _).
  enough (wp prog o w (λ _ w', extends_from (vw w) lo hi (vw w'))) by done. subst prog.
  assert (Hc : extends_from (vw w) lo hi
            (exec_pipe (trip_time o w) (cs ++ queue_events evs) (vw w)).2)
    by by apply log_commit_extends.
  apply wp_bind. unfold execute. apply wp_bind, wp_query.
  - intros d _ [Hd|Hd]; unfold vw at 2; simpl; rewrite Hd; [|done]. by apply extends_from_refl.
  - intros d _ Hd. cbv zeta. rewrite <- Hd in Hc. destruct (existsb is_err _); [exact Hc|].
    apply wp_ret. eapply extends_from_trans; [exact Hc|exact (Hk o (after_trip w d))].
Qed.

Lemma from_hi_commit_last hi cs evs :
  numbered hi evs → log_foreign cs = true →
  from_hi hi (execute (cs ++ queue_events evs)).
Proof.
  intros Hn Hf o w lo Hok.
  pose proof (from_hi_commit hi cs evs (mret tt) Hn Hf (moves_ret _ _) o w lo Hok) as Hx.
  unfold mbind, M_bind in Hx. destruct (execute _ o w) as [[u|e] w']; exact Hx.
Qed.

Lemma numbered_singleton hi evs ev :
  numbered hi evs → length evs = 1%nat → last evs = Some ev → numbered hi [ev].
Proof. intros Hn Hlen Hl. destruct evs as [|e [|]]; simplify_eq/=. done. Qed.

Lemma numbered_with_data hi evs f :
  (∀ ev, ev_sequence (f ev) = ev_sequence ev) → numbered hi evs → numbered hi (f <$> evs).
Proof.
  intros Hf [Hm Hn]. split; [by rewrite length_fmap|].
  intros i ev. rewrite list_lookup_fmap. destruct (evs !! i) eqn:Hi; [|done].
  intros [= <-]. rewrite Hf. by apply Hn.
Qed.

Lemma numbered_zip {A : Type} hi evs (l : list A) f :
  (∀ ev a, ev_sequence (f ev a) = ev_sequence ev) → length evs = length l →
  numbered hi evs → numbered hi (zip_with f evs l).
Proof.
  intros Hf Hlen [Hm Hn]. split; [rewrite length_zip_with, <- Hlen, Nat.min_id; done|].
  intros i ev Hi. apply lookup_zip_with_Some in Hi as (e & a & -> & He & _).
  rewrite Hf. by apply Hn.
Qed.

Lemma from_hi_some_or {A B : Type} hi e (x : option A) (k : A → M error B) :
  (∀ a, x = Some a → from_hi hi (k a)) → from_hi hi (some_or e x ≫= k).
Proof.
  intros Hk o w lo Hok. unfold mbind, M_bind, some_or, lift. destruct x as [a|]; simpl.
  - by apply Hk.
  - by apply extends_from_refl.
Qed.

Lemma pop_numbered self hi input evs ev :
  numbered hi evs → Forall2 (event_for self) [input] evs → last evs = Some ev →
  numbered hi [ev].
Proof. intros Hn Hf Hl. eapply numbered_singleton; [done| |done]. by apply Forall2_length in Hf. Qed.

(** ** The operations of events.rs extend the log *)

Lemma append_event_locked_extends self ty subj :
  moves log_extends (append_event_locked self ty subj).
Proof.
  apply moves_pending. intros evs hi Hn Hfor. apply from_hi_some_or. intros ev Hl.
  apply (from_hi_commit hi []); [by eapply pop_numbered|done|apply moves_ret, _].
Qed.

Lemma append_event_with_data_extends self ty subj data :
  moves log_extends (append_event_with_data self ty subj data).
Proof.
  apply moves_pending. intros evs hi Hn Hfor. apply from_hi_some_or. intros ev Hl.
  apply (from_hi_commit hi []); [|done|apply moves_ret, _].
  apply (numbered_with_data hi [ev] (with_data data)); [done|by eapply pop_numbered].
Qed.

Lemma append_telemetry_events_extends self inputs :
  moves log_extends (append_telemetry_events self inputs).
Proof.
  unfold append_telemetry_events. destruct inputs as [|i inputs]; [apply moves_ret, _|].
  apply moves_pending. intros evs hi Hn Hfor. apply (from_hi_commit_last hi []); [|done].
  apply numbered_zip; [done| |done].
  apply Forall2_length in Hfor. by rewrite length_fmap in Hfor.
Qed.

(** ** Reading *)

Lemma event_at_live t m s ev : event_at m s ev → live t m (event_key s) = Some (to_json ev).
Proof. intros [Hk _]. by apply live_persistent. Qed.

Lemma check_records_ok t m first n :
  (∀ s, first ≤ s → s < first + N.of_nat n → ∃ ev, event_at m s ev) →
  ∃ evs, check_records first (live t m <$> event_keys first n) = Ok evs ∧ length evs = n ∧
         ∀ i ev, evs !! i = Some ev → event_at m (first + N.of_nat i) ev.
Proof.
  revert first. induction n as [|n IH]; intros first Hall.
  { exists []. split_and!; [done..|]. intros i ev Hi. by rewrite lookup_nil in Hi. }
  destruct (Hall first) as [ev Hev]; [lia..|].
  destruct (IH (first + 1)) as (evs & Hrest & Hlen & Hi).
  { intros s Hs1 Hs2. apply Hall; lia. }
  exists (ev :: evs). cbn [event_keys]. rewrite fmap_cons. cbn [check_records].
  rewrite (event_at_live t _ _ _ Hev). cbn [check_record]. rewrite from_to_json.
  destruct Hev as [Hk Hs]. rewrite Hs, N.eqb_refl, Hrest. split_and!; [done|simpl; lia|].
  intros [|i] ev' Hi'.
  - simplify_eq/=. by rewrite N.add_0_r.
  - replace (first + N.of_nat (S i)) with (first + 1 + N.of_nat i) by lia. by apply Hi.
Qed.

Lemma wp_mget ks o w (Q : result error (list (option str)) → world → Prop) :
  (∀ d, t_fate (o_trip o (w_trip w)) ≠ Delivered → db_view d = vw w →
     Q (Err EDb) (after_trip w d)) →
  (∀ d, db_view d = vw w → Q (Ok (live (trip_time o w) (vw w) <$> ks)) (after_trip w d)) →
  wp (mget ks) o w Q.
Proof.
  intros Hfail Hok. apply wp_bind, wp_query.
  - intros d Hf [Hd|Hd]; apply Hfail; auto.
  - intros d _ Hd. simpl. apply wp_lift. by apply Hok.
Qed.

(** What a reader at cursor [after] gets: the records right after the cursor,
    in order and without a gap, at most [limit] of them. *)
Definition window (m : gmap str entry) (hi after limit : N) (evs : list AuthEvent) : Prop :=
  length evs = N.to_nat (N.min hi (saturating_add after limit) - after) ∧
  ∀ i ev, evs !! i = Some ev → event_at m (after + 1 + N.of_nat i) ev.

Lemma wp_events after limit lo hi o w (Q : result error (list AuthEvent) → world → Prop) :
  log_ok (vw w) lo hi → after ≤ u64_max →
  (∀ w', ¬ reliable o → vw w' = vw w → Q (Err EDb) w') →
  (∀ w', limit ≠ 0 → after + 1 < lo → vw w' = vw w → Q (Err (ELog (CursorExpired lo))) w') →
  (∀ evs w', (limit = 0 ∨ lo ≤ after + 1) → vw w' = vw w → window (vw w) hi after limit evs →
     Q (Ok evs) w') →
  wp (events after limit) o w Q.
Proof.
  intros [Hl Hm Hb Hr] Hafter Hfault Hexp Hok. unfold events.
  destruct (N.eqb_spec limit 0) as [->|Hlim].
  { apply wp_ret, Hok; [by left|done|]. split; [|done]. unfold saturating_add. simpl. lia. }
  assert (Hrel : ∀ i, t_fate (o_trip o i) ≠ Delivered → ¬ reliable o).
  { intros i Hf Hrel. by rewrite Hrel in Hf. }
  apply wp_bind, (wp_counter _ lo 1); [done|lia|by eauto|]. intros d1 Hd1.
  destruct (N.ltb_spec (saturating_add after 1) lo) as [Hlt|Hge].
  { apply wp_fail, Hexp; [done| |done]. unfold saturating_add in Hlt. lia. }
  assert (Hlo : lo ≤ after + 1) by (unfold saturating_add in Hge; lia).
  apply wp_bind, (wp_counter _ hi 0); [by unfold vw; simpl; rewrite Hd1|lia| |].
  { intros d2 Hf Hd2. apply Hfault; [by eauto|]. unfold vw at 1. simpl. by rewrite Hd2. }
  intros d2 Hd2. unfold vw in Hd2. simpl in Hd2. rewrite Hd1 in Hd2.
  destruct (N.leb_spec (N.min hi (saturating_add after limit)) after) as [Hle|Hgt].
  { apply wp_ret, Hok; [by right|done|]. split; [|done]. simpl. lia. }
  assert (Hv2 : vw (after_trip (after_trip w d1) d2) = vw w) by done.
  apply wp_bind, wp_mget.
  { intros d3 Hf Hd3. apply Hfault; [by eauto|]. unfold vw at 1. simpl. by rewrite Hd3, Hv2. }
  intros d3 Hd3. rewrite Hv2. apply wp_lift.
  destruct (check_records_ok (trip_time o (after_trip (after_trip w d1) d2)) (vw w) (after + 1)
              (N.to_nat (N.min hi (saturating_add after limit) - after)))
    as (evs & -> & Hlen & Hi).
  { intros s Hs1 Hs2. apply Hr; lia. }
  apply Hok; [by right|by rewrite <- Hv2, <- Hd3|done].
Qed.

(** *** The outcome of one append *)

Lemma event_at_inj m s ev ev' : event_at m s ev → event_at m s ev' → ev = ev'.
Proof.
  intros [Hk _] [Hk' _]. rewrite Hk in Hk'. simplify_eq.
  apply (f_equal (from_json (A:=AuthEvent))) in Hk'. rewrite !from_to_json in Hk'. by simplify_eq.
Qed.

Lemma queue_events_reply t evs m : existsb is_err (exec_pipe t (queue_events evs) m).1 = false.
Proof. unfold queue_events. by destruct (last evs). Qed.

Lemma queue_events_frame t evs m k :
  is_log_key k = false → (exec_pipe t (queue_events evs) m).2 !! k = m !! k.
Proof.
  intros Hk. apply exec_pipe_frame. unfold queue_events. destruct (last evs); [|apply not_elem_of_nil].
  unfold pipe_writes. simpl. rewrite app_nil_r, fmap_app, <- list_fmap_compose.
  apply not_elem_of_app. split.
  - rewrite list_elem_of_fmap. by intros (ev & -> & _).
  - intros Hin%list_elem_of_singleton. by subst.
Qed.

Lemma wp_append_event_locked self ty subj lo hi o w (Q : result error AuthEvent → world → Prop) :
  log_ok (vw w) lo hi →
  (∀ e w', (reliable o → hi = u64_max) → extends_from (vw w) lo hi (vw w') →
     (∀ k, is_log_key k = false → vw w' !! k = vw w !! k) → Q (Err e) w') →
  (∀ ev w', event_for self (ty, subj) ev → log_ok (vw w') lo (hi + 1) →
     event_at (vw w') (hi + 1) ev → extends_from (vw w) lo hi (vw w') →
     (∀ k, is_log_key k = false → vw w' !! k = vw w !! k) → Q (Ok ev) w') →
  wp (append_event_locked self ty subj) o w Q.
Proof.
  intros Hok Herr Hsucc. apply wp_bind, (wp_pending_events _ _ lo hi); [done|..].
  { intros e w' Hv Hmax. apply Herr; [|rewrite Hv; by apply extends_from_refl|by rewrite Hv].
    intros Hr. specialize (Hmax Hr). destruct Hok as [_ _ Hb _]. simpl in Hmax. lia. }
  intros evs w1 Hv Hn Hfor. apply wp_bind, wp_some_or.
  2:{ intros ->%last_None. inversion Hfor. }
  intros ev Hl. pose proof (pop_numbered _ _ _ _ _ Hn Hfor Hl) as Hn1.
  assert (event_for self (ty, subj) ev).
  { inversion Hfor as [|? e ? evs' He Hnil]; subst. inversion Hnil; subst. by simplify_eq/=. }
  rewrite <- Hv in Hok. pose proof (log_append _ _ _ _ (trip_time o w1) Hok Hn1) as (Hok' & Hnew & _).
  pose proof (log_commit_extends _ _ _ [] [ev] (trip_time o w1) Hok Hn1 eq_refl) as Hext.
  simpl app in Hext. rewrite Hv in Hext, Hok', Hnew.
  apply wp_bind, wp_execute; [apply queue_events_reply|..].
  - rewrite Hv. intros d Hf Hd. apply Herr.
    + intros Hr. by rewrite Hr in Hf.
    + unfold vw at 2. simpl. destruct Hd as [->| ->]; [|done].
      apply extends_from_refl. by rewrite <- Hv.
    + intros k Hk. unfold vw at 1. simpl. destruct Hd as [->| ->]; [done|]. by apply queue_events_frame.
  - rewrite Hv. intros d Hd. apply wp_ret, Hsucc; [done|..]; unfold vw; simpl; rewrite Hd.
    + exact Hok'.
    + specialize (Hnew 0%nat ev eq_refl). by rewrite N.add_0_r in Hnew.
    + exact Hext.
    + intros k Hk. by apply queue_events_frame.
Qed.

(** Numbering events writes nothing. *)
Lemma pending_events_reads self inputs : moves eq (pending_events self inputs).
Proof.
  unfold pending_events, latest_event_sequence, pending_event. moves_go.
  apply moves_mapM; [apply _|]. intros [n [ty subj]]. moves_go.
Qed.

Lemma wp_pending_any self inputs o w (Q : result error (list AuthEvent) → world → Prop) :
  (∀ e w', vw w' = vw w → e = EDb ∨ e = EBail "auth event sequence exhausted" → Q (Err e) w') →
  (∀ evs w', vw w' = vw w → Q (Ok evs) w') → wp (pending_events self inputs) o w Q.
Proof.
  intros He Hok. apply wp_bind, wp_bind, wp_get_u64.
  { intros d _ Hd. apply He; auto. }
  intros d Hd.
  enough (Hok' : ∀ v, wp (mret (default 0 v)) o (after_trip w d) (λ r w1, match r with
    | Ok a => wp (first ← some_or (EBail "auth event sequence exhausted") (checked_add a 1);
                  mapM_ (pending_event self first) (enumerate_from 0 inputs)) o w1 Q
    | Err e => Q (Err e) w1
    end)).
  { destruct (live _ _ _) as [s|]; [destruct (parse_u64 s)|]; [apply Hok'|apply He; auto|apply Hok']. }
  intros v. apply wp_ret, wp_bind, wp_some_or; [|intros _; apply He; auto].
  intros first _. apply wp_pending_list.
  - intros w' Hw' _ _. apply He; [by rewrite Hw'|auto].
  - intros evs w' Hw' _ _ _. apply Hok. by rewrite Hw'.
Qed.

(** Outside the log, committing events adds nothing to a pipeline. *)
Lemma commit_agree t cs evs m k :
  is_log_key k = false → (exec_pipe t (cs ++ queue_events evs) m).2 !! k = (exec_pipe t cs m).2 !! k.
Proof. intros Hk. rewrite exec_pipe_app. by apply queue_events_frame. Qed.

(** A commit with commands on both sides of the events. *)
Lemma from_hi_commit_mid {A : Type} hi cs evs cs' (k : M error A) :
  numbered hi evs → log_foreign cs = true → log_foreign cs' = true → moves log_extends k →
  from_hi hi (execute (cs ++ queue_events evs ++ cs');; k).
Proof.
  intros Hn Hf Hf' Hk o w lo Hok. set (prog := mbind _ _).
  enough (wp prog o w (λ _ w', extends_from (vw w) lo hi (vw w'))) by done. subst prog.
  assert (Hc : ∀ t, extends_from (vw w) lo hi (exec_pipe t (cs ++ queue_events evs ++ cs') (vw w)).2).
  { intros t. rewrite app_assoc, exec_pipe_app.
    eapply extends_from_trans; [exact (log_commit_extends _ _ _ cs evs t Hok Hn Hf)|].
    by apply log_extends_foreign. }
  apply wp_bind. eapply wp_mono.
  - apply (wp_execute_inv (λ m', extends_from (vw w) lo hi m')); [by apply extends_from_refl|done].
  - intros [a|e] w' He; [|done]. eapply extends_from_trans; [done|]. apply Hk.
Qed.

(** *** Families of keys an operation leaves alone *)

Definition leaves {A : Type} (P : str → bool) (p : M error A) : Prop :=
  moves (agree_on (λ k, P k = true)) p.

(** A family apart from the log. *)
Definition off_log (P : str → bool) : Prop := ∀ k, P k = true → is_log_key k = false.

Lemma leaves_execute P cs : untouched P cs = true → leaves P (execute cs).
Proof. intros Hu. apply moves_execute; [apply _|]. intros. by apply untouched_agree. Qed.

Lemma leaves_query P cs : untouched P cs = true → leaves P (query cs).
Proof. intros Hu. apply moves_query; [apply _|]. intros. by apply untouched_agree. Qed.

Lemma leaves_commit P cs evs :
  off_log P → untouched P cs = true → leaves P (execute (cs ++ queue_events evs)).
Proof.
  intros HP Hu. apply moves_execute; [apply _|]. intros t m k Hk.
  rewrite commit_agree by auto. by apply (untouched_agree P t cs).
Qed.

Lemma leaves_commit_mid P cs evs cs' :
  off_log P → untouched P cs = true → untouched P cs' = true →
  leaves P (execute (cs ++ queue_events evs ++ cs')).
Proof.
  intros HP Hu Hu'. apply moves_execute; [apply _|]. intros t m k Hk.
  rewrite app_assoc, exec_pipe_app. rewrite (untouched_agree P t cs') by done.
  rewrite commit_agree by auto. by apply (untouched_agree P t cs).
Qed.

Lemma leaves_append P self ty subj : off_log P → leaves P (append_event_locked self ty subj).
Proof.
  intros HP. unfold leaves, append_event_locked, pop_event. moves_go.
  - eapply moves_mono; [|apply pending_events_reads]. by intros ?? ->.
  - by apply (leaves_commit P []).
Qed.

Lemma leaves_pending P self inputs : leaves P (pending_events self inputs).
Proof. eapply moves_mono; [|apply pending_events_reads]. by intros ?? ->. Qed.

(** ** Properties *)

(** whatever the datastore does, a reader of a well-formed log gets exactly
    the contiguous window after its cursor; the only errors are a failed round
    trip and, for a cursor behind the retention boundary, [CursorExpired] with
    the boundary.  In particular no missing, malformed or misnumbered record is
    ever reported for a well-formed log. *)
Theorem events_window after limit lo hi o w :
  log_ok (vw w) lo hi → after ≤ u64_max →
  match (events after limit o w).1 with
  | Ok evs => (limit = 0 ∨ lo ≤ after + 1) ∧ window (vw w) hi after limit evs
  | Err e => (e = EDb ∧ ¬ reliable o) ∨
             (limit ≠ 0 ∧ after + 1 < lo ∧ e = ELog (CursorExpired lo))
  end.
Proof.
  intros Hok Ha.
  apply (wp_events after limit lo hi o w (λ r _, match r with Ok evs => _ | Err e => _ end)); auto.
Qed.

(** appending to a well-formed log that is not exhausted succeeds, and
    reading right behind the previous end returns exactly the appended event. *)
Theorem append_then_read self ty subj lo hi o w :
  reliable o → log_ok (vw w) lo hi → hi < u64_max →
  ∃ ev w', append_event self ty subj o w = (Ok ev, w') ∧
    ev_type ev = ty ∧ ev_subject ev = subj ∧ ev_tenant_id ev = tenant_id self ∧
    ev_sequence ev = hi + 1 ∧ (events hi 1 o w').1 = Ok [ev].
Proof.
  intros Hr Hok Hlt.
  enough (Hwp : wp (append_event self ty subj) o w (λ r w', ∃ ev, r = Ok ev ∧
    event_for self (ty, subj) ev ∧ ev_sequence ev = hi + 1 ∧ (events hi 1 o w').1 = Ok [ev])).
  { unfold wp in Hwp. destruct (append_event _ _ _ o w) as [r w']. simpl in Hwp.
    destruct Hwp as (ev & -> & (? & ? & ?) & ? & ?). eauto 10. }
  apply (wp_append_event_locked _ _ _ lo hi); [done| |].
  { intros e w' Hmax. specialize (Hmax Hr). lia. }
  intros ev w' Hfor Hok' Hev _ _. exists ev. split_and!; [done..|by destruct Hev|].
  apply (wp_events hi 1 lo (hi + 1) o w' (λ r _, r = Ok [ev])); [done|lia|naive_solver|..].
  { intros ? ? Hx. destruct Hok as [_ _ Hb _]. lia. }
  intros evs w2 _ _ [Hlen Hi]. destruct evs as [|e [|]]; simpl in Hlen.
  - unfold saturating_add in Hlen. lia.
  - specialize (Hi 0%nat e eq_refl). rewrite N.add_0_r in Hi. by rewrite (event_at_inj _ _ _ _ Hev Hi).
  - unfold saturating_add in Hlen. lia.
Qed.
End Events.

#[export] Hint Resolve append_event_locked_extends append_event_with_data_extends
  append_telemetry_events_extends : moves.

(** Side conditions: commands that are foreign to the log. *)
Ltac foreign := solve [done | repeat case_match; done].

(** Show that a mutation extends the log: walk to the numbering of its events,
    then to the pipeline that commits them. *)
Ltac log_commit :=
  first [ apply from_hi_commit | apply from_hi_commit_last
        | rewrite app_assoc; apply from_hi_commit
        | rewrite app_assoc; apply from_hi_commit_last ].

Ltac log_step :=
  match goal with
  | |- moves log_extends (mbind _ (pending_events _ _)) =>
      apply moves_pending; intros ?evs ?hi ?Hnum ?Hfor
  | |- from_hi _ (mbind _ (execute _)) => log_commit; [assumption|foreign|]
  | |- from_hi _ (execute _) => log_commit; [assumption|foreign]
  | |- moves log_extends (execute _) => apply moves_execute; [apply _|intros; apply log_extends_foreign; foreign]
  | |- _ => moves_step
  end.
Ltac log_go := repeat log_step.

(** Show that an operation leaves a family alone. *)
Ltac leaves_step off :=
  match goal with
  | |- leaves _ ?p => unfold leaves
  | |- moves (agree_on _) (execute _) =>
      first [ apply leaves_execute; foreign
            | apply leaves_commit; [exact off|foreign]
            | rewrite app_assoc; apply leaves_commit; [exact off|foreign]
            | apply leaves_commit_mid; [exact off|foreign|foreign]
            | rewrite app_assoc; apply leaves_commit_mid; [exact off|foreign|foreign] ]
  | |- moves (agree_on _) (query _) => apply leaves_query; foreign
  | |- moves (agree_on _) (append_event_locked _ _ _) => apply leaves_append; exact off
  | |- moves (agree_on _) (pending_events _ _) => apply leaves_pending
  | |- _ => moves_step
  end.
Ltac leaves_go off := repeat leaves_step off.

(** ** Witnesses *)

Import DemoEnv.

Definition event_fields (ev : AuthEvent) : N * (Uuid * (str * (str * (option Uuid * (N * list (str * list N)))))) :=
  (ev_sequence ev, (ev_id ev, (ev_tenant_id ev, (ev_type ev, (ev_subject ev,
    (ev_occurred_at ev, ev_data ev)))))).

#[export] Program Instance codec_event : Codec AuthEvent :=
  codec_iso event_fields (λ '(a, (b, (c, (d, (e, (f, g)))))), Some (mkEvent a b c d e f g)) _.
Next Obligation. by intros []. Qed.

Lemma demo_log_empty : log_ok ∅ 1 0.
Proof. split; [by right|by right|by vm_compute|lia]. Qed.

Lemma events_window_witness :
  log_ok (vw (demo_world [])) 1 0 ∧
  match (events 0 10 demo_oracle (demo_world [])).1 with
  | Ok evs => (10 = 0 ∨ 1 ≤ 0 + 1) ∧ window (vw (demo_world [])) 0 0 10 evs
  | Err e => (e = EDb ∧ ¬ reliable demo_oracle) ∨
             (10 ≠ 0 ∧ 0 + 1 < 1 ∧ e = ELog (CursorExpired 1))
  end.
Proof.
  split; [exact demo_log_empty|].
  apply (events_window 0 10 1 0 demo_oracle (demo_world [])); [exact demo_log_empty|by vm_compute].
Defined.

Lemma append_then_read_witness :
  ∃ ev w', append_event (mkStore #"t") #"session.revoked" None demo_oracle (demo_world []) = (Ok ev, w') ∧
    ev_sequence ev = 1 ∧ (events 0 1 demo_oracle w').1 = Ok [ev].
Proof.
  destruct (append_then_read (mkStore #"t") #"session.revoked" None 1 0 demo_oracle (demo_world []))
    as (ev & w' & Hrun & _ & _ & _ & Hseq & Hread); [exact demo_reliable|exact demo_log_empty|by vm_compute|].
  eauto.
Defined.
