(* ===== verification/Identifiers.v ===== *)
(** * Contact identifiers and profiles (src/src/store/users/identifiers.rs, profile.rs)

    The canonical forms of email addresses and phone numbers, under which accounts
    are looked up, and the validation of profile text.  The lookup index is keyed
    by canonical text, so the properties that matter are that canonicalisation is
    idempotent, that it identifies the spellings it should, and that what it
    accepts is text the stored-user validation accepts again. *)

From S2P Require Import Prelude Sable.

Inductive IdentifierValidationError := InvalidEmail | InvalidPhone.

Inductive IdentifierKind := Email | Phone.

#[global] Instance IdentifierKind_eq_dec : EqDecision IdentifierKind.
Proof. solve_decision. Defined.

Definition kind_eqb (a b : IdentifierKind) : bool := bool_decide (a = b).

Definition kind_as_str (k : IdentifierKind) : str :=
  match k with
  | Email => #"email"
  | Phone => #"phone"
  end.

Record IdentifierValue := mkIdentifier { iv_kind : IdentifierKind; iv_value : str }.

#[global] Instance IdentifierValue_eq_dec : EqDecision IdentifierValue.
Proof. solve_decision. Defined.

Record AccountIdentifier := mkAccountIdentifier {
  ai_kind : IdentifierKind;
  ai_value : str;
  ai_verified : bool;
  ai_verified_at : option N;
  ai_primary : bool;
  ai_created_at : N
}.

(** ** Canonical email *)

Definition email_punctuation : str := #"!#$%&'*+-./=?^_`{|}~".

Definition email_local_byte (b : N) : bool :=
  is_ascii_alphanumeric b || contains_char b email_punctuation.

Definition bad_label (label : str) : bool :=
  match label with [] => true | _ => false end
  || (63 <? len label)
  || negb (forallb (λ b, is_ascii_alphanumeric b || (b =? chr "-")) (bytes label))
  || negb (match head (bytes label) with Some b => is_ascii_alphanumeric b | None => false end)
  || negb (match last (bytes label) with Some b => is_ascii_alphanumeric b | None => false end).

Definition bad_email_parts (local domain : str) : bool :=
  match local with [] => true | _ => false end
  || (64 <? len local)
  || match domain with [] => true | _ => false end
  || (253 <? len domain)
  || contains_char (chr "@") domain
  || starts_with #"." local
  || ends_with_char (chr ".") local
  || contains_str #".." local
  || negb (forallb email_local_byte (bytes local))
  || existsb bad_label (split (chr ".") domain).

Definition canonical_email_value (value : str) : result IdentifierValidationError str :=
  let email := to_ascii_lowercase <$> trim value in
  if match email with [] => true | _ => false end || (320 <? len email) || negb (is_ascii email)
  then Err InvalidEmail
  else match split_once (chr "@") email with
       | None => Err InvalidEmail
       | Some (local, domain) =>
           if bad_email_parts local domain then Err InvalidEmail else Ok email
       end.

(** ** Canonical phone number *)

Definition phone_separator (c : N) : bool :=
  is_ascii_whitespace c || contains_char c #"-().".

(** The loop that collects the digits; [None] is its early return. *)
Fixpoint phone_digits (s : str) : option str :=
  match s with
  | [] => Some []
  | c :: s' =>
      if is_ascii_digit c then
        match phone_digits s' with Some ds => Some (c :: ds) | None => None end
      else if phone_separator c then phone_digits s' else None
  end.

Definition canonical_phone_value (value : str) : result IdentifierValidationError str :=
  let value := trim value in
  if (64 <? len value) || negb (starts_with #"+" value) then Err InvalidPhone
  else match phone_digits (drop 1 value) with
       | None => Err InvalidPhone
       | Some digits =>
           if negb ((8 <=? len digits) && (len digits <=? 15)) || starts_with #"0" digits
           then Err InvalidPhone
           else Ok (#"+" ++ digits)
       end.

Definition canonical (kind : IdentifierKind) (value : str) :
    result IdentifierValidationError IdentifierValue :=
  v ← match kind with
      | Email => canonical_email_value value
      | Phone => canonical_phone_value value
      end;
  mret (mkIdentifier kind v).

Definition require_canonical_identifier (identifier : IdentifierValue) : result error unit :=
  match canonical (iv_kind identifier) (iv_value identifier) with
  | Err InvalidEmail => Err (EBail "valid email required")
  | Err InvalidPhone => Err (EBail "phone number must use international E.164 format")
  | Ok c => if bool_decide (c = identifier) then Ok tt
            else Err (EBail "account identifier is not canonical")
  end.

Definition identifier_key (i : IdentifierValue) : str :=
  #"auth:identifier:" ++ kind_as_str (iv_kind i) ++ #":" ++ iv_value i.

(** ** Profiles *)

Record AccountProfile := mkProfile {
  given_name : option str;
  family_name : option str;
  display_name : option str
}.

Record ProfileValidationError := mkProfileError { pe_field : str; pe_maximum : N }.

Definition forbidden_display_character (c : N) : bool :=
  is_control c
  || (c =? 0x200B) || in_range 0x202A 0x202E c || (c =? 0x2060)
  || in_range 0x2066 0x2069 c || (c =? 0xFEFF).

Definition chars_count (s : str) : N := N.of_nat (length s).

Definition canonical_profile_value (value : option str) (field : str) (maximum : N) :
    result ProfileValidationError (option str) :=
  match value with
  | None => Ok None
  | Some value =>
      let value := trim value in
      match value with
      | [] => Ok None
      | _ => if (maximum <? chars_count value) || existsb forbidden_display_character value
             then Err (mkProfileError field maximum)
             else Ok (Some value)
      end
  end.

Definition profile_canonical (given family display : option str) :
    result ProfileValidationError AccountProfile :=
  g ← canonical_profile_value given #"given name" 100;
  f ← canonical_profile_value family #"family name" 100;
  d ← canonical_profile_value display #"display name" 200;
  mret (mkProfile g f d).

Definition validate_profile_value (value : option str) (maximum : N) : result error unit :=
  if match value with
     | None => false
     | Some value => match value with [] => true | _ => false end
                     || negb (bool_decide (trim value = value))
                     || (maximum <? chars_count value)
                     || existsb forbidden_display_character value
     end
  then Err (EBail "stored user has invalid profile data")
  else Ok tt.

Definition validate_account_profile (profile : AccountProfile) : result error unit :=
  _ ← validate_profile_value (given_name profile) 100;
  _ ← validate_profile_value (family_name profile) 100;
  validate_profile_value (display_name profile) 200.

(** ** Lemmas on text *)

Lemma drop_while_idem p s : drop_while p (drop_while p s) = drop_while p s.
Proof. induction s as [|c s IH]; simpl; [done|]. destruct (p c) eqn:Hc; [done|]. simpl. by rewrite Hc. Qed.

Lemma drop_while_id p s : forallb (λ c, negb (p c)) s = true → drop_while p s = s.
Proof. destruct s as [|c s]; [done|]. simpl. intros [Hc _]%andb_true_iff. reflect. by rewrite Hc. Qed.

Lemma drop_while_suffix p s : ∃ r, s = r ++ drop_while p s.
Proof.
  induction s as [|c s [r IH]]; simpl; [by exists []|].
  destruct (p c); [exists (c :: r); simpl; by rewrite <- IH|by exists []].
Qed.

Lemma drop_while_prefix p s r : drop_while p (s ++ r) = s ++ r → drop_while p s = s.
Proof.
  destruct s as [|c s]; simpl; [done|]. destruct (p c); [|done]. intros Heq.
  destruct (drop_while_suffix p (s ++ r)) as [l Hl]. rewrite Heq in Hl.
  apply (f_equal length) in Hl. rewrite !length_app in Hl. simpl in Hl. rewrite length_app in Hl. lia.
Qed.

Lemma trim_trim s : trim (trim s) = trim s.
Proof.
  unfold trim, trim_end, trim_start. set (t := drop_while is_whitespace s).
  assert (Ht : drop_while is_whitespace t = t) by apply drop_while_idem.
  set (u := reverse (drop_while is_whitespace (reverse t))).
  assert (Hu : drop_while is_whitespace u = u).
  { destruct (drop_while_suffix is_whitespace (reverse t)) as [r Hr].
    apply (f_equal reverse) in Hr. rewrite reverse_involutive, reverse_app in Hr. fold u in Hr.
    apply (drop_while_prefix _ _ (reverse r)). by rewrite <- Hr. }
  rewrite Hu. unfold u. by rewrite reverse_involutive, drop_while_idem.
Qed.

Lemma trim_no_whitespace s : forallb (λ c, negb (is_whitespace c)) s = true → trim s = s.
Proof.
  intros Hs. unfold trim, trim_start, trim_end. rewrite (drop_while_id _ s) by done.
  rewrite drop_while_id; [apply reverse_involutive|].
  rewrite forallb_forall in *. intros c Hc. apply Hs. by apply list_elem_of_In, elem_of_reverse, list_elem_of_In.
Qed.

(** A property of ASCII characters, checked on all of them. *)
Lemma ascii_check (P : N → bool) :
  forallb P (N.of_nat <$> seq 0 128) = true → ∀ c, c < 128 → P c = true.
Proof.
  rewrite forallb_forall. intros HP c Hc. apply HP, list_elem_of_In, list_elem_of_fmap.
  exists (N.to_nat c). split; [lia|]. apply elem_of_seq. lia.
Qed.

Lemma utf8_encode_ascii c : c < 128 → utf8_encode c = [c].
Proof. intros Hc. unfold utf8_encode. by apply N.ltb_lt in Hc as ->. Qed.

Lemma bytes_ascii s : is_ascii s = true → bytes s = s.
Proof.
  unfold is_ascii. induction s as [|c s IH]; simpl; [done|]. intros [Hc Hs]%andb_true_iff.
  reflect. by rewrite IH, utf8_encode_ascii.
Qed.

Lemma len_ascii s : is_ascii s = true → len s = N.of_nat (length s).
Proof.
  unfold is_ascii. induction s as [|c s IH]; simpl; [done|]. intros [Hc Hs]%andb_true_iff.
  rewrite IH by done. unfold utf8_width. rewrite Hc. lia.
Qed.

Lemma b64url_ascii s : forallb is_b64url s = true → is_ascii s = true.
Proof.
  unfold is_ascii. rewrite !forallb_forall. intros Hs c Hc%Hs.
  unfold is_b64url, is_ascii_alphanumeric, is_ascii_uppercase, is_ascii_lowercase, is_ascii_digit, in_range in Hc.
  reflect. lia.
Qed.

Lemma to_ascii_lowercase_idem c : to_ascii_lowercase (to_ascii_lowercase c) = to_ascii_lowercase c.
Proof. unfold to_ascii_lowercase, is_ascii_uppercase, in_range. repeat case_match; reflect; lia. Qed.

Lemma lower_lower (s : str) : to_ascii_lowercase <$> (to_ascii_lowercase <$> s) = to_ascii_lowercase <$> s.
Proof. rewrite <- list_fmap_compose. apply list_fmap_ext. intros. apply to_ascii_lowercase_idem. Qed.

Lemma is_whitespace_lower c : is_whitespace (to_ascii_lowercase c) = is_whitespace c.
Proof.
  unfold to_ascii_lowercase. destruct (is_ascii_uppercase c) eqn:Hu; [|done].
  unfold is_ascii_uppercase, in_range in Hu. reflect.
  unfold is_whitespace, in_range. lia.
Qed.

Lemma drop_while_fmap p f (s : str) : (∀ c, p (f c) = p c) → drop_while p (f <$> s) = f <$> drop_while p s.
Proof.
  intros Hp. induction s as [|c s IH]; [done|]. rewrite fmap_cons. simpl. rewrite Hp.
  by destruct (p c).
Qed.

Lemma trim_lower (s : str) : trim (to_ascii_lowercase <$> s) = to_ascii_lowercase <$> trim s.
Proof.
  unfold trim, trim_end, trim_start.
  rewrite drop_while_fmap by apply is_whitespace_lower.
  rewrite <- fmap_reverse, drop_while_fmap by apply is_whitespace_lower.
  by rewrite fmap_reverse.
Qed.

Lemma split_once_app c s a b : split_once c s = Some (a, b) → s = a ++ c :: b.
Proof.
  revert a. induction s as [|d s IH]; intros a; simpl; [done|].
  destruct (N.eqb_spec d c) as [->|]; [by intros [= <- <-]|].
  destruct (split_once c s) as [[a' b']|]; [|done]. intros [= <- <-]. simpl. by rewrite (IH a').
Qed.

Lemma split_chars c P s :
  forallb (forallb P) (split c s) = true → forallb (λ x, P x || (x =? c)) s = true.
Proof.
  induction s as [|d s IH]; simpl; [done|].
  destruct (N.eqb_spec d c) as [->|Hne].
  - simpl. intros Hs. by rewrite orb_true_r, IH.
  - destruct (split c s) as [|part rest] eqn:Hsp; simpl.
    + intros Hd. rewrite !andb_true_r in Hd. rewrite Hd, IH by done. done.
    + intros [[Hd Hp]%andb_true_iff Hr]%andb_true_iff. rewrite Hd. simpl. apply IH.
      simpl. by rewrite Hp, Hr.
Qed.

(** ** Shape of canonical values *)

Definition email_char (c : N) : bool := email_local_byte c || (c =? chr "@").

Lemma email_char_ascii c : email_char c = true → c < 128.
Proof.
  unfold email_char, email_local_byte, is_ascii_alphanumeric, is_ascii_digit, is_ascii_uppercase,
    is_ascii_lowercase, in_range, contains_char, email_punctuation. simpl. lia.
Qed.

Lemma email_char_plain c :
  email_char c = true → is_whitespace c = false ∧ forbidden_display_character c = false.
Proof.
  intros Hc. pose proof (email_char_ascii c Hc) as Hlt. revert Hc.
  pose proof (ascii_check (λ c, implb (email_char c)
    (negb (is_whitespace c) && negb (forbidden_display_character c))) ltac:(by vm_compute) c Hlt) as Himp.
  simpl in Himp. intros Hc. rewrite Hc in Himp. simpl in Himp. by reflect.
Qed.

Lemma bad_label_chars label :
  is_ascii label = true → bad_label label = false → forallb email_local_byte label = true.
Proof.
  intros Ha Hb. unfold bad_label in Hb. rewrite bytes_ascii in Hb by done. reflect.
  rename select (forallb _ label = true) into Hf. rewrite forallb_forall in *.
  intros c Hc. unfold email_local_byte.
  destruct (orb_prop _ _ (Hf c Hc)) as [->|Hd]; [done|]. reflect. subst. by vm_compute.
Qed.

Lemma split_ascii c s : is_ascii s = true → forallb is_ascii (split c s) = true.
Proof.
  unfold is_ascii. induction s as [|d s IH]; simpl; [done|]. intros [Hd Hs]%andb_true_iff.
  specialize (IH Hs). destruct (d =? c); [done|].
  destruct (split c s) as [|part rest]; simpl in *; rewrite Hd; done.
Qed.

Lemma canonical_email_shape v e :
  canonical_email_value v = Ok e →
  e = to_ascii_lowercase <$> trim v ∧ e ≠ [] ∧ len e ≤ 320 ∧ forallb email_char e = true.
Proof.
  unfold canonical_email_value. remember (to_ascii_lowercase <$> trim v) as x eqn:Hx. intros Hc.
  case_match eqn:Hg; [done|]. destruct (split_once _ x) as [[local domain]|] eqn:Hsp; [|done].
  case_match eqn:Hb; [done|]. injection Hc as <-. reflect. apply split_once_app in Hsp.
  assert (Ha : is_ascii local = true ∧ is_ascii domain = true).
  { unfold is_ascii in *. rewrite Hsp, forallb_app in *. simpl in *. by reflect. }
  destruct Ha as [Hal Had].
  split_and!; [done|by destruct x|done|]. rewrite Hsp, forallb_app. simpl.
  unfold bad_email_parts in Hb. reflect. rewrite (bytes_ascii local) in * by done.
  apply andb_true_iff. split.
  - rename select (forallb email_local_byte local = true) into Hl. rewrite forallb_forall in *.
    intros c Hin. unfold email_char. by rewrite Hl.
  - rename select (existsb bad_label _ = false) into Hlab.
    assert (Hd : forallb (forallb email_local_byte) (split (chr ".") domain) = true).
    { pose proof (split_ascii (chr ".") domain Had) as Hs. rewrite forallb_forall in *.
      intros label Hin. apply bad_label_chars; [by apply Hs|].
      destruct (bad_label label) eqn:Hbl; [|done]. rewrite <- Hlab. symmetry.
      apply existsb_exists. eauto. }
    apply split_chars in Hd. rewrite forallb_forall in *. intros c Hin.
    unfold email_char. apply Hd in Hin as [->|Hdot]%orb_prop; [done|]. reflect. subst. by vm_compute.
Qed.

Lemma email_chars_plain s :
  forallb email_char s = true →
  forallb (λ c, negb (is_whitespace c)) s = true ∧ existsb forbidden_display_character s = false.
Proof.
  induction s as [|c s IH]; simpl; [done|]. intros [Hc Hs]%andb_true_iff.
  destruct (email_char_plain c Hc) as [-> ->], (IH Hs) as [-> ->]. done.
Qed.

Lemma canonical_email_idem v e :
  canonical_email_value v = Ok e → canonical_email_value e = Ok e.
Proof.
  intros Hc. destruct (canonical_email_shape v e Hc) as (He & _ & _ & Hchars).
  unfold canonical_email_value in *. rewrite <- He in Hc.
  destruct (email_chars_plain e Hchars) as [Hws _].
  rewrite (trim_no_whitespace e Hws).
  replace (to_ascii_lowercase <$> e) with e by (rewrite He; symmetry; apply lower_lower).
  exact Hc.
Qed.

Lemma phone_digits_shape s ds : phone_digits s = Some ds → forallb is_ascii_digit ds = true.
Proof.
  revert ds. induction s as [|c s IH]; intros ds; simpl; [naive_solver|].
  destruct (is_ascii_digit c) eqn:Hc.
  - destruct (phone_digits s); [|done]. intros [= <-]. simpl. by rewrite Hc, IH.
  - destruct (phone_separator c); naive_solver.
Qed.

Lemma phone_digits_id ds : forallb is_ascii_digit ds = true → phone_digits ds = Some ds.
Proof.
  induction ds as [|c ds IH]; simpl; [done|]. intros [-> Hds]%andb_true_iff. by rewrite IH.
Qed.

Lemma digit_char_plain c :
  is_ascii_digit c = true →
  c < 128 ∧ is_whitespace c = false ∧ forbidden_display_character c = false.
Proof.
  unfold is_ascii_digit, is_whitespace, forbidden_display_character, is_control, in_range. lia.
Qed.

Lemma digits_plain ds :
  forallb is_ascii_digit ds = true →
  is_ascii ds = true ∧ forallb (λ c, negb (is_whitespace c)) ds = true ∧
  existsb forbidden_display_character ds = false.
Proof.
  unfold is_ascii. induction ds as [|c s IH]; simpl; [done|]. intros [Hc Hs]%andb_true_iff.
  destruct (digit_char_plain c Hc) as (Hlt%N.ltb_lt & -> & ->), (IH Hs) as (-> & -> & ->).
  by rewrite Hlt.
Qed.

Lemma canonical_phone_shape v p :
  canonical_phone_value v = Ok p →
  ∃ ds, p = #"+" ++ ds ∧ forallb is_ascii_digit ds = true ∧
        8 ≤ N.of_nat (length ds) ≤ 15 ∧ starts_with #"0" ds = false.
Proof.
  unfold canonical_phone_value. intros Hc. case_match; [done|].
  destruct (phone_digits _) as [ds|] eqn:Hds; [|done]. case_match; [done|]. simplify_eq.
  exists ds. pose proof (phone_digits_shape _ _ Hds) as Hd. reflect.
  destruct (digits_plain ds Hd) as (Ha & _). rewrite (len_ascii ds Ha) in *. auto.
Qed.

Lemma canonical_phone_idem v p :
  canonical_phone_value v = Ok p → canonical_phone_value p = Ok p.
Proof.
  intros (ds & -> & Hd & Hlen & H0)%canonical_phone_shape.
  destruct (digits_plain ds Hd) as (Ha & Hws & _).
  assert (Ha' : is_ascii (#"+" ++ ds) = true) by done.
  unfold canonical_phone_value. rewrite trim_no_whitespace by done.
  rewrite (len_ascii _ Ha'). change (drop 1 (#"+" ++ ds)) with ds.
  rewrite (phone_digits_id ds Hd), (len_ascii ds Ha), H0.
  replace (64 <? _) with false by (symmetry; apply N.ltb_ge; simpl; lia).
  replace (8 <=? _) with true by lia. replace (_ <=? 15) with true by lia. done.
Qed.

Lemma canonical_kind k v i : canonical k v = Ok i → iv_kind i = k.
Proof. unfold canonical, mbind, result_bind, mret, result_ret. intros. by split_ifs. Qed.

Lemma canonical_value k v i :
  canonical k v = Ok i →
  match k with Email => canonical_email_value v | Phone => canonical_phone_value v end = Ok (iv_value i).
Proof. unfold canonical, mbind, result_bind, mret, result_ret. intros. by split_ifs. Qed.

(** What the stored-user validation demands of every identifier text. *)
Definition storable_text (s : str) : bool :=
  negb (match s with [] => true | _ => false end || (320 <? len s)
        || existsb forbidden_display_character s).

Lemma canonical_storable k v i : canonical k v = Ok i → storable_text (iv_value i) = true.
Proof.
  intros Hc%canonical_value. unfold storable_text. destruct k.
  - destruct (canonical_email_shape _ _ Hc) as (_ & Hne & Hlen & Hch).
    destruct (email_chars_plain _ Hch) as [_ ->]. destruct (iv_value i); [done|]. lia.
  - destruct (canonical_phone_shape _ _ Hc) as (ds & -> & Hd & Hl & _).
    destruct (digits_plain ds Hd) as (Ha & _ & Hf).
    assert (Ha' : is_ascii (#"+" ++ ds) = true) by done. rewrite (len_ascii _ Ha').
    simpl. rewrite Hf. lia.
Qed.

Lemma require_canonical_ok i : require_canonical_identifier i = Ok tt ↔ canonical (iv_kind i) (iv_value i) = Ok i.
Proof.
  unfold require_canonical_identifier. split.
  - destruct (canonical _ _) as [c|[]]; [|done..]. case_bool_decide; [|done]. by subst.
  - intros ->. by rewrite bool_decide_true.
Qed.

(** ** Properties *)

(** canonicalisation is idempotent, keeps the kind, and its results are what
    [require_canonical_identifier] accepts; a canonical phone number is [+] and 8
    to 15 digits without a leading zero, and every canonical value is non-empty,
    at most 320 bytes and free of control and formatting characters. *)
Theorem canonical_normal_form k v i :
  canonical k v = Ok i →
  canonical (iv_kind i) (iv_value i) = Ok i ∧ require_canonical_identifier i = Ok tt ∧
  storable_text (iv_value i) = true ∧
  match k with
  | Email => iv_value i = to_ascii_lowercase <$> trim v
  | Phone => ∃ ds, iv_value i = #"+" ++ ds ∧ forallb is_ascii_digit ds = true ∧
                   8 ≤ N.of_nat (length ds) ≤ 15 ∧ starts_with #"0" ds = false
  end.
Proof.
  intros Hc. assert (Hidem : canonical (iv_kind i) (iv_value i) = Ok i).
  { pose proof (canonical_kind _ _ _ Hc) as Hk. apply canonical_value in Hc.
    destruct i as [ki vi]. simpl in *. subst k. unfold canonical. destruct ki.
    - by rewrite (canonical_email_idem _ _ Hc).
    - by rewrite (canonical_phone_idem _ _ Hc). }
  split_and!; [done|by apply require_canonical_ok|by eapply canonical_storable|].
  apply canonical_value in Hc. destruct k.
  - by destruct (canonical_email_shape _ _ Hc).
  - by apply canonical_phone_shape in Hc.
Qed.

Lemma canonical_normal_form_witness :
  canonical Phone #" +49 (170) 123-4567" = Ok (mkIdentifier Phone #"+491701234567") ∧
  require_canonical_identifier (mkIdentifier Phone #"+491701234567") = Ok tt.
Proof.
  split; [by vm_compute|].
  apply (canonical_normal_form Phone #" +49 (170) 123-4567"). by vm_compute.
Defined.

(** Email canonicalisation ignores ASCII case. *)
Lemma canonical_email_case v :
  canonical_email_value (to_ascii_lowercase <$> v) = canonical_email_value v.
Proof. unfold canonical_email_value. by rewrite trim_lower, lower_lower. Qed.

Lemma profile_value_valid v f mx v' :
  canonical_profile_value v f mx = Ok v' → validate_profile_value v' mx = Ok tt.
Proof.
  unfold canonical_profile_value, validate_profile_value. intros Hc.
  destruct v as [v|]; [|by simplify_eq]. pose proof (trim_trim v) as Ht.
  destruct (trim v) as [|c s] eqn:Hv; [by simplify_eq|].
  case_match eqn:Hg; [done|]. simplify_eq.
  rewrite Ht, bool_decide_true by done. cbn [negb orb]. by rewrite Hg.
Qed.

(** What [AccountProfile::canonical] builds passes the validation of stored
    profiles. *)
Lemma profile_canonical_valid g f d p :
  profile_canonical g f d = Ok p → validate_account_profile p = Ok tt.
Proof.
  unfold profile_canonical, mbind, result_bind. intros Hp.
  destruct (canonical_profile_value g _ _) eqn:Hg; [|done].
  destruct (canonical_profile_value f _ _) eqn:Hf; [|done].
  destruct (canonical_profile_value d _ _) eqn:Hd; [|done]. injection Hp as <-.
  unfold validate_account_profile. cbn [given_name family_name display_name].
  by rewrite (profile_value_valid _ _ _ _ Hg), (profile_value_valid _ _ _ _ Hf),
    (profile_value_valid _ _ _ _ Hd).
Qed.
