(* ===== verification/Users.v ===== *)
(** * User records (src/src/store/users/records.rs, identifiers.rs, profile.rs)

    The durable user aggregate: hydration with validation, lookup through the
    identifier and credential indexes, and the mutations of identifiers and
    profile.  The invariant of the component, [accounts_ok], says that every
    stored user decodes and validates under its own key and that the lookup
    indexes lead back to it, which makes identifiers and credentials globally
    unique. *)

From S2P Require Import Prelude Sable Logic Demo Events Identifiers.

Definition MAX_IDENTIFIERS : nat := 20.

Definition email_key (value : str) : str := #"auth:email:" ++ value.
Definition credential_key (id : str) : str := #"auth:credential:" ++ id.
Definition user_key `{ExtUuid} (id : Uuid) : str := #"auth:user:" ++ uuid_show id.

Section Users.
Context `{Env}.

Record StoredPasskey := mkStoredPasskey {
  sp_id : str;
  sp_label : str;
  sp_counter : N;
  sp_created_at : N;
  sp_last_used_at : option N;
  sp_passkey : Passkey
}.

Record RecoveryCodeRecord := mkRecoveryCode { rc_digest : str; rc_created_at : N }.

Record User := mkUser {
  u_id : Uuid;
  u_email : str;
  u_email_verified : bool;
  u_profile : AccountProfile;
  u_identifiers : list AccountIdentifier;
  u_session_version : N;
  u_recovery_codes : list RecoveryCodeRecord;
  u_created_at : N;
  u_passkeys : list StoredPasskey
}.

(** Field updates. *)
Definition set_email (email : str) (verified : bool) (u : User) : User :=
  mkUser (u_id u) email verified (u_profile u) (u_identifiers u) (u_session_version u)
    (u_recovery_codes u) (u_created_at u) (u_passkeys u).
Definition set_profile (p : AccountProfile) (u : User) : User :=
  mkUser (u_id u) (u_email u) (u_email_verified u) p (u_identifiers u) (u_session_version u)
    (u_recovery_codes u) (u_created_at u) (u_passkeys u).
Definition set_identifiers (l : list AccountIdentifier) (u : User) : User :=
  mkUser (u_id u) (u_email u) (u_email_verified u) (u_profile u) l (u_session_version u)
    (u_recovery_codes u) (u_created_at u) (u_passkeys u).
Definition set_session_version (n : N) (u : User) : User :=
  mkUser (u_id u) (u_email u) (u_email_verified u) (u_profile u) (u_identifiers u) n
    (u_recovery_codes u) (u_created_at u) (u_passkeys u).
Definition set_recovery_codes (l : list RecoveryCodeRecord) (u : User) : User :=
  mkUser (u_id u) (u_email u) (u_email_verified u) (u_profile u) (u_identifiers u)
    (u_session_version u) l (u_created_at u) (u_passkeys u).
Definition set_passkeys (l : list StoredPasskey) (u : User) : User :=
  mkUser (u_id u) (u_email u) (u_email_verified u) (u_profile u) (u_identifiers u)
    (u_session_version u) (u_recovery_codes u) (u_created_at u) l.

(** [stored.kind == identifier.kind && stored.value == identifier.value] *)
Definition matches_identifier (i : IdentifierValue) (stored : AccountIdentifier) : bool :=
  kind_eqb (ai_kind stored) (iv_kind i) && bool_decide (ai_value stored = iv_value i).

Definition set_primary (b : bool) (i : AccountIdentifier) : AccountIdentifier :=
  mkAccountIdentifier (ai_kind i) (ai_value i) (ai_verified i) (ai_verified_at i) b (ai_created_at i).

(** ** Hydration and validation *)

(** [(!primary, created_at)] in lexicographic order. *)
Definition primary_before (a b : AccountIdentifier) : bool :=
  match ai_primary a, ai_primary b with
  | true, false => true
  | false, true => false
  | _, _ => ai_created_at a <? ai_created_at b
  end.

(** [Iterator::min_by_key]: the first of the least elements. *)
Definition min_by_primary (l : list AccountIdentifier) : option AccountIdentifier :=
  foldl (λ best i, match best with
                   | None => Some i
                   | Some b => if primary_before i b then Some i else Some b
                   end) None l.

Definition of_kind (k : IdentifierKind) (l : list AccountIdentifier) : list AccountIdentifier :=
  List.filter (λ i, kind_eqb (ai_kind i) k) l.

Definition primary_email (u : User) : option AccountIdentifier :=
  min_by_primary (of_kind Email (u_identifiers u)).

Definition primary_phone (u : User) : option AccountIdentifier :=
  min_by_primary (of_kind Phone (u_identifiers u)).

Definition primary_identifier (u : User) : option AccountIdentifier :=
  match List.find ai_primary (u_identifiers u) with
  | Some i => Some i
  | None => head (u_identifiers u)
  end.

Definition passkey_name (u : User) : str :=
  match primary_identifier u with
  | Some i => ai_value i
  | None => uuid_show (u_id u)
  end.

Definition passkey_display_name (u : User) : str :=
  match display_name (u_profile u) with
  | Some name => name
  | None =>
      let full_name := join #" " (omap id [given_name (u_profile u); family_name (u_profile u)]) in
      match full_name with
      | [] => passkey_name u
      | _ => full_name
      end
  end.

Definition sync_legacy_email (u : User) : User :=
  match min_by_primary (of_kind Email (u_identifiers u)) with
  | Some i => set_email (ai_value i) (ai_verified i) u
  | None => set_email [] false u
  end.

Definition identifier_tag (i : AccountIdentifier) : str :=
  kind_as_str (ai_kind i) ++ #":" ++ ai_value i.

(** The loop over the identifiers, with the tags seen and the primaries counted
    so far. *)
Fixpoint check_identifiers (seen : list str) (primary_count : N) (l : list AccountIdentifier) :
    result error N :=
  match l with
  | [] => Ok primary_count
  | i :: l' =>
      if negb (storable_text (ai_value i)) || bool_decide (identifier_tag i ∈ seen)
      then Err (EBail "stored user has an invalid or duplicate account identifier")
      else if is_some (ai_verified_at i) && negb (ai_verified i)
      then Err (EBail "stored user has inconsistent identifier verification state")
      else
        _ ← match ai_kind i with
            | Email => Ok tt
            | Phone =>
                match canonical Phone (ai_value i) with
                | Err _ => Err (EBail "stored user has an invalid phone identifier")
                | Ok c => if bool_decide (iv_value c = ai_value i) then Ok tt
                          else Err (EBail "stored user has a non-canonical phone identifier")
                end
            end;
        check_identifiers (identifier_tag i :: seen)
          (primary_count + if ai_primary i then 1 else 0) l'
  end.

Fixpoint check_recovery_codes (seen : list str) (l : list RecoveryCodeRecord) : result error unit :=
  match l with
  | [] => Ok tt
  | code :: l' =>
      if negb (len (rc_digest code) =? 64)
         || negb (forallb is_ascii_hexdigit (bytes (rc_digest code)))
         || bool_decide (rc_digest code ∈ seen)
      then Err (EBail "stored user has invalid or duplicate recovery-code state")
      else check_recovery_codes (rc_digest code :: seen) l'
  end.

(** The migration of records from before the identifier list. *)
Definition fill_identifiers (u : User) : User :=
  match u_identifiers u, u_email u with
  | [], _ :: _ =>
      set_identifiers [mkAccountIdentifier Email (u_email u) (u_email_verified u) None true
                         (u_created_at u)] u
  | _, _ => u
  end.

Definition normalize_and_validate (u : User) : result error User :=
  let u := fill_identifiers u in
  match u_identifiers u with
  | [] => Err (EBail "stored user has no account identifiers")
  | _ =>
      if (MAX_IDENTIFIERS <? length (u_identifiers u))%nat
      then Err (EBail "stored user exceeds the account identifier limit")
      else
        primary_count ← check_identifiers [] 0 (u_identifiers u);
        if negb (primary_count =? 1)
        then Err (EBail "stored user must have exactly one primary account identifier")
        else
          _ ← validate_account_profile (u_profile u);
          _ ← check_recovery_codes [] (u_recovery_codes u);
          Ok (sync_legacy_email u)
  end.

Context `{!Serde AuthEvent, !Serde User}.

(** ** Lookup *)

Definition user (id : Uuid) : M error (option User) :=
  v ← get_json (user_key id);
  match v with
  | None => mret None
  | Some u => u ← lift (normalize_and_validate u); mret (Some u)
  end.

Definition parse_uuid (s : str) : M error Uuid := some_or EUuid (uuid_parse s).

Definition user_by_identifier (identifier : IdentifierValue) : M error (option User) :=
  found ← get (identifier_key identifier);
  found ← (if negb (is_some found) && kind_eqb (iv_kind identifier) Email
           then get (email_key (iv_value identifier)) else mret found);
  match found with
  | None => mret None
  | Some id => id ← parse_uuid id; user id
  end.

Definition user_by_email (email : str) : M error (option User) :=
  user_by_identifier (mkIdentifier Email email).

Definition user_by_credential_id (credential_id : str) : M error (option User) :=
  found ← get (credential_key credential_id);
  match found with
  | None => mret None
  | Some id => id ← parse_uuid id; user id
  end.

(** ** Writing *)

Definition persist_user (u : User) : M error unit :=
  execute [SET (user_key (u_id u)) (to_json u)].

Definition persist_user_with_event (self : Store) (u : User) (event_type : str) : M error unit :=
  events ← pending_events self [(event_type, Some (u_id u))];
  execute ([SET (user_key (u_id u)) (to_json u)] ++ queue_events events).

Definition require_user (id : Uuid) : M error User :=
  u ← user id; some_or (EPolicy UserMissing) u.

(** *** Profile *)

Definition update_profile (self : Store) (user_id : Uuid) (profile : AccountProfile) : M error User :=
  _ ← lift (validate_account_profile profile);
  u ← require_user user_id;
  let u := set_profile profile u in
  persist_user_with_event self u #"profile.updated";;
  mret u.

(** *** Identifiers *)

Definition verified_now (verified : bool) : M error (option N) :=
  if verified then t ← now; mret (Some t) else mret None.

Definition add_identifier (self : Store) (user_id : Uuid) (identifier : IdentifierValue)
    (verified : bool) : M error User :=
  _ ← lift (require_canonical_identifier identifier);
  existing ← user_by_identifier identifier;
  ensure (negb (is_some existing)) (EPolicy IdentifierAlreadyExists);;
  u ← require_user user_id;
  ensure (negb (MAX_IDENTIFIERS <=? length (u_identifiers u))%nat) (EPolicy IdentifierLimit);;
  verified_at ← verified_now verified;
  created_at ← now;
  let u := sync_legacy_email (set_identifiers (u_identifiers u ++
             [mkAccountIdentifier (iv_kind identifier) (iv_value identifier) verified verified_at
                false created_at]) u) in
  events ← pending_events self
    ((#"identifier.added", Some user_id) ::
     if verified then []
     else [(kind_as_str (iv_kind identifier) ++ #".verification.requested", Some user_id)]);
  execute ([SET (user_key user_id) (to_json u); SET (identifier_key identifier) (uuid_show user_id)]
           ++ (if kind_eqb (iv_kind identifier) Email
               then [SET (email_key (iv_value identifier)) (uuid_show user_id)] else [])
           ++ queue_events events);;
  mret u.

(** [user.identifiers[0].primary = true], which panics on an empty list. *)
Definition promote_first (l : list AccountIdentifier) : M error (list AccountIdentifier) :=
  match l with
  | [] => fail EPanic
  | i :: l' => mret (set_primary true i :: l')
  end.

Definition remove_identifier (self : Store) (user_id : Uuid) (identifier : IdentifierValue) :
    M error User :=
  _ ← lift (require_canonical_identifier identifier);
  u ← require_user user_id;
  ensure (negb (length (u_identifiers u) <=? 1)%nat) (EPolicy FinalIdentifier);;
  removed ← some_or (EPolicy IdentifierNotLinked)
              (List.find (matches_identifier identifier) (u_identifiers u));
  let kept := List.filter (λ i, negb (matches_identifier identifier i)) (u_identifiers u) in
  kept ← (if ai_primary removed then promote_first kept else mret kept);
  let u := sync_legacy_email (set_identifiers kept u) in
  events ← pending_events self [(#"identifier.removed", Some user_id)];
  execute ([SET (user_key user_id) (to_json u); DEL [identifier_key identifier]]
           ++ (if kind_eqb (iv_kind identifier) Email
               then [DEL [email_key (iv_value identifier)]] else [])
           ++ queue_events events);;
  mret u.

Definition set_primary_identifier (self : Store) (user_id : Uuid) (identifier : IdentifierValue) :
    M error User :=
  _ ← lift (require_canonical_identifier identifier);
  u ← require_user user_id;
  ensure (existsb (matches_identifier identifier) (u_identifiers u)) (EPolicy IdentifierNotLinked);;
  let u := sync_legacy_email (set_identifiers
             ((λ i, set_primary (matches_identifier identifier i) i) <$> u_identifiers u) u) in
  persist_user_with_event self u #"identifier.primary_changed";;
  mret u.

(** [iter_mut().find(p)] followed by an update of the element found. *)
Fixpoint update_first {A : Type} (p : A → bool) (f : A → A) (l : list A) : list A :=
  match l with
  | [] => []
  | a :: l' => if p a then f a :: l' else a :: update_first p f l'
  end.

Definition set_verified (verified : bool) (at_ : option N) (i : AccountIdentifier) : AccountIdentifier :=
  mkAccountIdentifier (ai_kind i) (ai_value i) verified at_ (ai_primary i) (ai_created_at i).

Definition set_identifier_verification (self : Store) (user_id : Uuid) (identifier : IdentifierValue)
    (verified : bool) : M error User :=
  _ ← lift (require_canonical_identifier identifier);
  u ← require_user user_id;
  ensure (existsb (matches_identifier identifier) (u_identifiers u)) (EPolicy IdentifierNotLinked);;
  verified_at ← verified_now verified;
  let u := sync_legacy_email (set_identifiers
             (update_first (matches_identifier identifier) (set_verified verified verified_at)
                (u_identifiers u)) u) in
  persist_user_with_event self u
    (if verified then #"identifier.verified" else #"identifier.unverified");;
  mret u.

(** ** What validation guarantees *)

Definition ident_valid (i : AccountIdentifier) : bool :=
  storable_text (ai_value i) && negb (is_some (ai_verified_at i) && negb (ai_verified i)) &&
  match ai_kind i with
  | Email => true
  | Phone => match canonical Phone (ai_value i) with
             | Ok c => bool_decide (iv_value c = ai_value i)
             | Err _ => false
             end
  end.

Definition primaries (l : list AccountIdentifier) : N := N.of_nat (length (List.filter ai_primary l)).

(** The identifier a stored entry stands for. *)
Definition ident_of (i : AccountIdentifier) : IdentifierValue := mkIdentifier (ai_kind i) (ai_value i).

Record identifiers_ok (l : list AccountIdentifier) : Prop := {
  ids_nonempty : l ≠ [];
  ids_length : (length l ≤ MAX_IDENTIFIERS)%nat;
  ids_valid : forallb ident_valid l = true;
  ids_nodup : NoDup (ident_of <$> l);
  ids_primary : primaries l = 1
}.

Record user_ok (u : User) : Prop := {
  uok_identifiers : identifiers_ok (u_identifiers u);
  uok_profile : validate_account_profile (u_profile u) = Ok tt;
  uok_recovery : check_recovery_codes [] (u_recovery_codes u) = Ok tt;
  uok_email : sync_legacy_email u = u
}.

Lemma identifier_tag_inj i j : identifier_tag i = identifier_tag j ↔ ident_of i = ident_of j.
Proof.
  unfold identifier_tag, ident_of. split.
  - destruct (ai_kind i), (ai_kind j); simpl; intros Heq; simplify_eq; congruence.
  - intros [= -> ->]. done.
Qed.

Lemma tags_nodup l : NoDup (identifier_tag <$> l) ↔ NoDup (ident_of <$> l).
Proof.
  induction l as [|i l IH]; [by split; intros; apply NoDup_nil_2|].
  rewrite !fmap_cons, !NoDup_cons, IH.
  enough (identifier_tag i ∈ identifier_tag <$> l ↔ ident_of i ∈ ident_of <$> l) by tauto.
  rewrite !list_elem_of_fmap. by setoid_rewrite identifier_tag_inj.
Qed.

Lemma check_identifiers_ok seen c l n :
  check_identifiers seen c l = Ok n ↔
  forallb ident_valid l = true ∧ NoDup (identifier_tag <$> l) ∧
  (∀ i, i ∈ l → identifier_tag i ∉ seen) ∧ n = c + primaries l.
Proof.
  revert seen c. induction l as [|i l IH]; intros seen c.
  { simpl. unfold primaries. simpl. rewrite N.add_0_r. split.
    - intros [= ->]. split_and!; [done|apply NoDup_nil_2|set_solver|done].
    - by intros (_ & _ & _ & ->). }
  assert (Hgood : (ident_valid i = true ∧ identifier_tag i ∉ seen) →
    check_identifiers seen c (i :: l) =
    check_identifiers (identifier_tag i :: seen) (c + if ai_primary i then 1 else 0) l).
  { intros [Hv Hs]. unfold ident_valid in Hv. reflect. simpl.
    rewrite bool_decide_false by done. rewrite H0. simpl. rewrite H2.
    destruct (ai_kind i); [done|]. destruct (canonical Phone _); [|done]. by rewrite H1. }
  assert (Hbad : ∀ n, check_identifiers seen c (i :: l) = Ok n →
    ident_valid i = true ∧ identifier_tag i ∉ seen).
  { clear. intros n. simpl. unfold ident_valid. destruct (storable_text _); [|done]. simpl.
    case_bool_decide; [done|]. destruct (is_some (ai_verified_at i) && _); [done|]. simpl.
    destruct (ai_kind i); [done|]. destruct (canonical Phone _); [|done].
    case_bool_decide; done. }
  rewrite fmap_cons, NoDup_cons. cbn [forallb]. rewrite andb_true_iff.
  assert (Hp : primaries (i :: l) = (if ai_primary i then 1 else 0) + primaries l).
  { unfold primaries. simpl. destruct (ai_primary i); simpl; lia. }
  rewrite Hp, N.add_assoc. split.
  - intros Hc. destruct (Hbad n Hc) as [Hv Hs]. rewrite Hgood in Hc by done.
    apply IH in Hc as (Hvl & Hnd & Hsl & ->). split_and!; [done|done| |done| |done].
    + intros (j & Hij & Hj)%list_elem_of_fmap. specialize (Hsl j Hj). set_solver.
    + intros j [->|Hj]%elem_of_cons; [done|]. specialize (Hsl j Hj). set_solver.
  - intros ([Hv Hvl] & [Hni Hnd] & Hs & ->). rewrite Hgood by (split; [done|apply Hs; left]).
    apply IH. split_and!; [done..| |done]. intros j Hj. apply not_elem_of_cons. split.
    + intros Hij. apply Hni. rewrite <- Hij. by apply list_elem_of_fmap_2.
    + apply Hs. by right.
Qed.

Lemma sync_sync u : sync_legacy_email (sync_legacy_email u) = sync_legacy_email u.
Proof.
  unfold sync_legacy_email. destruct (min_by_primary (of_kind Email (u_identifiers u))) as [i|] eqn:Hm;
    simpl; by rewrite Hm.
Qed.

(** [sync_legacy_email] writes the two legacy fields only. *)
Lemma sync_fields u :
  let u' := sync_legacy_email u in
  u_id u' = u_id u ∧ u_profile u' = u_profile u ∧ u_identifiers u' = u_identifiers u ∧
  u_session_version u' = u_session_version u ∧ u_recovery_codes u' = u_recovery_codes u ∧
  u_created_at u' = u_created_at u ∧ u_passkeys u' = u_passkeys u.
Proof. unfold sync_legacy_email. by case_match. Qed.

Lemma fill_fields u :
  let u' := fill_identifiers u in
  u_id u' = u_id u ∧ u_session_version u' = u_session_version u ∧ u_passkeys u' = u_passkeys u.
Proof. unfold fill_identifiers. by repeat case_match. Qed.

Lemma normalize_ok u0 u :
  normalize_and_validate u0 = Ok u → user_ok u ∧ u = sync_legacy_email (fill_identifiers u0).
Proof.
  unfold normalize_and_validate. set (u1 := fill_identifiers u0). intros Hn.
  destruct (sync_fields u1) as (_ & Hp & Hi & _ & Hr & _).
  destruct (u_identifiers u1) as [|i l] eqn:Hl; [done|]. rewrite <- Hl in *. clearbody u1.
  case_match eqn:Hlen; [done|].
  destruct (check_identifiers _ _ _) as [n|] eqn:Hc; [|done]. simpl in Hn.
  destruct (N.eqb_spec n 1) as [->|]; [|done]. simpl in Hn.
  destruct (validate_account_profile _) as [[]|] eqn:Hv; [|done]. simpl in Hn.
  destruct (check_recovery_codes _ _) as [[]|] eqn:Hrec; [|done]. injection Hn as <-.
  split; [|done]. apply check_identifiers_ok in Hc as (Hval & Hnd & _ & Hprim).
  split; rewrite ?Hi, ?Hp, ?Hr; [|done..|apply sync_sync].
  split; [by rewrite Hl|apply Nat.ltb_ge in Hlen; lia|done|by apply tags_nodup|lia].
Qed.

Lemma user_ok_normalize u : user_ok u → normalize_and_validate u = Ok u.
Proof.
  intros [[Hne Hlen Hval Hnd Hprim] Hp Hr He]. unfold normalize_and_validate.
  assert (Hf : fill_identifiers u = u).
  { unfold fill_identifiers. by destruct (u_identifiers u). }
  rewrite Hf. destruct (u_identifiers u) as [|i l] eqn:Hl; [done|]. rewrite <- Hl in *.
  assert (Hc : check_identifiers [] 0 (u_identifiers u) = Ok 1).
  { apply check_identifiers_ok. split_and!; [done|by apply tags_nodup|set_solver|lia]. }
  apply Nat.ltb_ge in Hlen. rewrite Hlen, Hc. cbn. by rewrite Hp, Hr, He.
Qed.

Lemma user_ok_set_identifiers l u :
  user_ok u → identifiers_ok l → user_ok (sync_legacy_email (set_identifiers l u)).
Proof.
  intros [_ Hp Hr _] Hl. pose proof (sync_fields (set_identifiers l u)) as (_ & Hp' & Hi & _ & Hr' & _).
  split; [by rewrite Hi|by rewrite Hp'|by rewrite Hr'|apply sync_sync].
Qed.

(** Updates of fields validation does not read. *)
Lemma user_ok_update u u' :
  user_ok u → u_identifiers u' = u_identifiers u → u_email u' = u_email u →
  u_email_verified u' = u_email_verified u →
  validate_account_profile (u_profile u') = Ok tt →
  check_recovery_codes [] (u_recovery_codes u') = Ok tt → user_ok u'.
Proof.
  intros [Hi _ _ He] Hi' He1 He2 Hp Hr. split; [by rewrite Hi'|done|done|].
  unfold sync_legacy_email in *. rewrite Hi'.
  destruct u, u'; simpl in *. subst.
  destruct (min_by_primary _); unfold set_email in *; simpl in *; congruence.
Qed.

(** ** Lists of identifiers *)

Lemma matches_identifier_spec i stored : matches_identifier i stored = true ↔ ident_of stored = i.
Proof.
  unfold matches_identifier, kind_eqb, ident_of. rewrite andb_true_iff, !bool_decide_eq_true.
  destruct i; simpl. naive_solver.
Qed.

Lemma matches_identifier_false i stored : matches_identifier i stored = false ↔ ident_of stored ≠ i.
Proof. rewrite <- matches_identifier_spec. by destruct (matches_identifier i stored). Qed.

Lemma existsb_find {A : Type} (p : A → bool) l : existsb p l = true → ∃ r, List.find p l = Some r.
Proof. induction l as [|a l IH]; simpl; [done|]. destruct (p a); [eauto|]. done. Qed.

(** An identifier linked once sits at exactly one position. *)
Lemma find_split i l r :
  NoDup (ident_of <$> l) → List.find (matches_identifier i) l = Some r →
  ident_of r = i ∧
  ∃ l1 l2, l = l1 ++ r :: l2 ∧ Forall (λ x, matches_identifier i x = false) l1 ∧
           Forall (λ x, matches_identifier i x = false) l2.
Proof.
  induction l as [|a l IH]; [done|]. rewrite fmap_cons, NoDup_cons. intros [Hni Hnd]. simpl.
  destruct (matches_identifier i a) eqn:Ha.
  - intros [= <-]. apply matches_identifier_spec in Ha. split; [done|].
    exists [], l. split_and!; [done..|]. apply Forall_forall. intros x Hx.
    apply matches_identifier_false. intros Hxi. apply Hni. rewrite Ha, <- Hxi.
    by apply list_elem_of_fmap_2.
  - intros Hf. destruct (IH Hnd Hf) as (Hr & l1 & l2 & -> & Hl1 & Hl2). split; [done|].
    exists (a :: l1), l2. split_and!; [done|by constructor|done].
Qed.

Lemma filter_none i l :
  Forall (λ x, matches_identifier i x = false) l →
  List.filter (λ x, negb (matches_identifier i x)) l = l.
Proof. induction 1 as [|x l Hx Hl IH]; simpl; [done|]. by rewrite Hx, IH. Qed.

Lemma filter_split i l1 r l2 :
  Forall (λ x, matches_identifier i x = false) l1 →
  Forall (λ x, matches_identifier i x = false) l2 → ident_of r = i →
  List.filter (λ x, negb (matches_identifier i x)) (l1 ++ r :: l2) = l1 ++ l2.
Proof.
  intros H1 H2 Hr. apply matches_identifier_spec in Hr. rewrite List.filter_app. simpl.
  rewrite Hr. simpl. by rewrite !filter_none.
Qed.

Lemma update_first_split {A : Type} (p : A → bool) f l1 r l2 :
  Forall (λ x, p x = false) l1 → p r = true → update_first p f (l1 ++ r :: l2) = l1 ++ f r :: l2.
Proof. induction 1 as [|x l Hx Hl IH]; simpl; intros Hr; [by rewrite Hr|]. by rewrite Hx, IH. Qed.

Lemma primaries_app l1 l2 : primaries (l1 ++ l2) = primaries l1 + primaries l2.
Proof. unfold primaries. rewrite List.filter_app, length_app. lia. Qed.

Lemma primaries_cons i l : primaries (i :: l) = (if ai_primary i then 1 else 0) + primaries l.
Proof. unfold primaries. simpl. destruct (ai_primary i); simpl; lia. Qed.

Lemma primaries_map_none i l :
  Forall (λ x, matches_identifier i x = false) l →
  primaries ((λ x, set_primary (matches_identifier i x) x) <$> l) = 0.
Proof.
  induction 1 as [|x l Hx Hl IH]; [done|]. rewrite fmap_cons, primaries_cons, IH. simpl. by rewrite Hx.
Qed.

Lemma identifiers_ok_append l i verified verified_at created :
  identifiers_ok l → (length l < MAX_IDENTIFIERS)%nat → i ∉ ident_of <$> l →
  canonical (iv_kind i) (iv_value i) = Ok i → (is_some verified_at = true → verified = true) →
  identifiers_ok (l ++ [mkAccountIdentifier (iv_kind i) (iv_value i) verified verified_at false created]).
Proof.
  intros [Hne _ Hv Hnd Hp] Hlen Hni Hc Hver. split.
  - by destruct l.
  - rewrite length_app. simpl. lia.
  - rewrite forallb_app, Hv. simpl. rewrite andb_true_r. unfold ident_valid. simpl.
    rewrite (canonical_storable _ _ _ Hc). simpl.
    apply andb_true_iff. split.
    + destruct (is_some verified_at), verified; try done. by specialize (Hver eq_refl).
    + destruct (iv_kind i); [done|]. rewrite Hc. by apply bool_decide_eq_true.
  - rewrite fmap_app. apply NoDup_app. split_and!; [done| |apply NoDup_singleton].
    intros x Hx. simpl. destruct i. by intros ->%list_elem_of_singleton.
  - rewrite primaries_app, primaries_cons, Hp. done.
Qed.

Lemma set_primary_ident b x : ident_of (set_primary b x) = ident_of x.
Proof. done. Qed.

(** Dropping one identifier and, when it was the primary one, promoting the
    first that is left. *)
Lemma identifiers_ok_remove l1 r l2 :
  identifiers_ok (l1 ++ r :: l2) → l1 ++ l2 ≠ [] →
  identifiers_ok (if ai_primary r then match l1 ++ l2 with
                                       | [] => []
                                       | x :: l => set_primary true x :: l
                                       end else l1 ++ l2).
Proof.
  intros [_ Hlen Hv Hnd Hp] Hne.
  rewrite length_app in Hlen. simpl in Hlen. rewrite forallb_app in Hv. simpl in Hv.
  rewrite fmap_app, fmap_cons in Hnd.
  rewrite primaries_app, primaries_cons in Hp.
  assert (Hnd' : NoDup (ident_of <$> l1 ++ l2)).
  { rewrite fmap_app. apply NoDup_app in Hnd as (H1 & H2 & [_ H3]%NoDup_cons).
    apply NoDup_app. split_and!; [done| |done]. intros x Hx Hx2. apply (H2 x Hx). by right. }
  assert (Hv' : forallb ident_valid (l1 ++ l2) = true) by (rewrite forallb_app; reflect; auto with bool).
  assert (Hlen' : (length (l1 ++ l2) ≤ MAX_IDENTIFIERS)%nat) by (rewrite length_app; lia).
  assert (Hp' : primaries (l1 ++ l2) = if ai_primary r then 0 else 1).
  { rewrite primaries_app. destruct (ai_primary r); lia. }
  destruct (ai_primary r); [|by split].
  destruct (l1 ++ l2) as [|x l]; [done|]. rewrite primaries_cons in Hp'.
  split; [done|done|done|done|]. rewrite primaries_cons. simpl. destruct (ai_primary x); lia.
Qed.

Lemma identifiers_ok_set_primary i l r :
  identifiers_ok l → List.find (matches_identifier i) l = Some r →
  identifiers_ok ((λ x, set_primary (matches_identifier i x) x) <$> l).
Proof.
  intros [Hne Hlen Hv Hnd Hp] Hf.
  destruct (find_split i l r Hnd Hf) as (Hr & l1 & l2 & -> & H1 & H2). split.
  - by destruct l1.
  - by rewrite length_fmap.
  - rewrite forallb_forall in *. intros x (y & -> & Hy)%list_elem_of_In%list_elem_of_fmap.
    apply (Hv y). by apply list_elem_of_In.
  - by rewrite <- list_fmap_compose.
  - rewrite fmap_app, fmap_cons, primaries_app, primaries_cons, !primaries_map_none by done.
    simpl. apply matches_identifier_spec in Hr. by rewrite Hr.
Qed.

Lemma identifiers_ok_set_verified i l r verified verified_at :
  identifiers_ok l → List.find (matches_identifier i) l = Some r →
  (is_some verified_at = true → verified = true) →
  identifiers_ok (update_first (matches_identifier i) (set_verified verified verified_at) l).
Proof.
  intros [Hne Hlen Hv Hnd Hp] Hf Hver.
  destruct (find_split i l r Hnd Hf) as (Hr & l1 & l2 & -> & H1 & H2).
  rewrite update_first_split by (done || by apply matches_identifier_spec). split.
  - by destruct l1.
  - rewrite length_app in *. done.
  - rewrite forallb_app in *. simpl in *. reflect. apply andb_true_iff. split; [done|].
    apply andb_true_iff. split; [|done]. unfold ident_valid in *. simpl. reflect.
    rename select (storable_text _ = true) into Hs. rewrite Hs. simpl.
    apply andb_true_iff. split; [|done].
    destruct (is_some verified_at), verified; try done. by specialize (Hver eq_refl).
  - rewrite fmap_app, fmap_cons in *. exact Hnd.
  - rewrite primaries_app, primaries_cons in *. exact Hp.
Qed.

(** ** The account invariant *)

Definition stored_user (m : gmap str entry) (id : Uuid) (u : User) : Prop :=
  ∃ v u0, m !! user_key id = Some (Entry v None) ∧ from_json v = Some u0 ∧
          normalize_and_validate u0 = Ok u.

(** The lookup of [user_by_identifier], on persistent entries. *)
Definition resolves (m : gmap str entry) (i : IdentifierValue) (id : Uuid) : Prop :=
  m !! identifier_key i = Some (Entry (uuid_show id) None) ∨
  (m !! identifier_key i = None ∧ iv_kind i = Email ∧
   m !! email_key (iv_value i) = Some (Entry (uuid_show id) None)).

Definition owns_credential (m : gmap str entry) (c : str) (id : Uuid) : Prop :=
  m !! credential_key c = Some (Entry (uuid_show id) None).

Definition linked (u : User) : list IdentifierValue := ident_of <$> u_identifiers u.
Definition credentials (u : User) : list str := sp_id <$> u_passkeys u.

Record accounts_ok (m : gmap str entry) : Prop := {
  acc_user id e : m !! user_key id = Some e → ∃ u, stored_user m id u;
  acc_id id u : stored_user m id u → u_id u = id;
  acc_linked id u i : stored_user m id u → i ∈ linked u → resolves m i id;
  acc_credential id u c : stored_user m id u → c ∈ credentials u → owns_credential m c id;
  acc_passkeys id u : stored_user m id u → NoDup (credentials u) ∧ credentials u ≠ [];
  acc_identifier_index i e : m !! identifier_key i = Some e →
    ∃ id u, e = Entry (uuid_show id) None ∧ stored_user m id u ∧ i ∈ linked u;
  acc_email_index v e : m !! email_key v = Some e →
    ∃ id u, e = Entry (uuid_show id) None ∧ stored_user m id u ∧ mkIdentifier Email v ∈ linked u;
  acc_credential_index c e : m !! credential_key c = Some e →
    ∃ id u, e = Entry (uuid_show id) None ∧ stored_user m id u ∧ c ∈ credentials u
}.

Definition is_account_key (k : str) : bool :=
  starts_with #"auth:user:" k || starts_with #"auth:identifier:" k
  || starts_with #"auth:email:" k || starts_with #"auth:credential:" k.

Lemma stored_user_ok m id u : stored_user m id u → user_ok u.
Proof. intros (v & u0 & _ & _ & Hn). by apply normalize_ok in Hn as [? _]. Qed.

Lemma stored_user_inj m id u u' : stored_user m id u → stored_user m id u' → u = u'.
Proof. intros (v & u0 & Hk & Hj & Hn) (v' & u0' & Hk' & Hj' & Hn').
  rewrite Hk in Hk'. simplify_eq. congruence. Qed.

#[global] Instance user_key_inj : Inj (=) (=) user_key.
Proof. intros a b Hab. unfold user_key in Hab. apply uuid_show_inj. by simplify_eq. Qed.

#[global] Instance identifier_key_inj : Inj (=) (=) identifier_key.
Proof.
  intros [ka va] [kb vb] Hab. unfold identifier_key in Hab. destruct ka, kb; simpl in Hab; simplify_eq; done.
Qed.

#[global] Instance credential_key_inj : Inj (=) (=) credential_key.
Proof. intros a b Hab. unfold credential_key in Hab. by simplify_eq. Qed.

#[global] Instance email_key_inj : Inj (=) (=) email_key.
Proof. intros a b Hab. unfold email_key in Hab. by simplify_eq. Qed.

Lemma stored_user_eq m m' id u :
  m' !! user_key id = m !! user_key id → stored_user m' id u ↔ stored_user m id u.
Proof. intros Hk. unfold stored_user. by setoid_rewrite Hk. Qed.

Lemma account_key_log k : is_account_key k = true → is_log_key k = false.
Proof.
  unfold is_account_key. rewrite !orb_true_iff, !starts_with_spec.
  intros [[[[t ->]|[t ->]]|[t ->]]|[t ->]]; done.
Qed.

Lemma accounts_ok_agree m m' :
  agree_on (λ k, is_account_key k = true) m m' → accounts_ok m → accounts_ok m'.
Proof.
  intros Ha [Hu Hid Hl Hc Hp Hi1 Hi2 Hi3].
  assert (Hs : ∀ id u, stored_user m' id u ↔ stored_user m id u).
  { intros id u. apply stored_user_eq, Ha. done. }
  split; [..|by intros *; rewrite Ha by done; setoid_rewrite Hs; auto
           |by intros *; rewrite Ha by done; setoid_rewrite Hs; auto
           |by intros *; rewrite Ha by done; setoid_rewrite Hs; auto].
  - intros id e. rewrite Ha by done. intros He. setoid_rewrite Hs. eauto.
  - intros id u. rewrite Hs. apply Hid.
  - intros id u i. rewrite Hs. intros Hsu Hi. unfold resolves. rewrite !Ha by done. by eapply Hl.
  - intros id u c. rewrite Hs. intros Hsu Hi. unfold owns_credential. rewrite Ha by done. by eapply Hc.
  - intros id u. rewrite Hs. apply Hp.
Qed.

(** Replacing or creating one record, with the index entries it needs, while the
    other users keep theirs. *)
Lemma accounts_put m m' id u' :
  accounts_ok m →
  m' !! user_key id = Some (Entry (to_json u') None) → user_ok u' → u_id u' = id →
  (∀ id', id' ≠ id → m' !! user_key id' = m !! user_key id') →
  (∀ i, i ∈ linked u' → resolves m' i id) →
  (∀ c, c ∈ credentials u' → owns_credential m' c id) →
  NoDup (credentials u') → credentials u' ≠ [] →
  (∀ id' u i, id' ≠ id → stored_user m id' u → i ∈ linked u → resolves m i id' → resolves m' i id') →
  (∀ id' u c, id' ≠ id → stored_user m id' u → c ∈ credentials u →
     owns_credential m c id' → owns_credential m' c id') →
  (∀ i e, m' !! identifier_key i = Some e →
     e = Entry (uuid_show id) None ∧ i ∈ linked u' ∨
     m !! identifier_key i = Some e ∧ e ≠ Entry (uuid_show id) None) →
  (∀ v e, m' !! email_key v = Some e →
     e = Entry (uuid_show id) None ∧ mkIdentifier Email v ∈ linked u' ∨
     m !! email_key v = Some e ∧ e ≠ Entry (uuid_show id) None) →
  (∀ c e, m' !! credential_key c = Some e →
     e = Entry (uuid_show id) None ∧ c ∈ credentials u' ∨
     m !! credential_key c = Some e ∧ e ≠ Entry (uuid_show id) None) →
  accounts_ok m'.
Proof.
  intros [Hu Hid Hl Hc Hp Hi1 Hi2 Hi3] Hk Hok Hid' Hother Hl' Hc' Hnd Hne Hkl Hkc Hx1 Hx2 Hx3.
  assert (Hnew : stored_user m' id u').
  { exists (to_json u'), u'. split_and!; [done|apply from_to_json|by apply user_ok_normalize]. }
  assert (Hs : ∀ id' u, id' ≠ id → stored_user m' id' u → stored_user m id' u).
  { intros id1 u1 Hne1. rewrite (stored_user_eq m m'); [done|]. by apply Hother. }
  assert (Hself : ∀ u, stored_user m' id u → u = u') by (intros; by eapply stored_user_inj).
  assert (Hkeep : ∀ id' u e, e = Entry (uuid_show id') None → e ≠ Entry (uuid_show id) None →
    stored_user m id' u → stored_user m' id' u).
  { intros id1 u1 e -> Hne1. apply (stored_user_eq m m'), Hother. by intros ->. }
  split; [..|intros i e [[-> ?]|[He Hn]]%Hx1; [by eauto|destruct (Hi1 i e He) as (id1 & u1 & ? & ? & ?); eauto 10]
           |intros v e [[-> ?]|[He Hn]]%Hx2; [by eauto|destruct (Hi2 v e He) as (id1 & u1 & ? & ? & ?); eauto 10]
           |intros c e [[-> ?]|[He Hn]]%Hx3; [by eauto|destruct (Hi3 c e He) as (id1 & u1 & ? & ? & ?); eauto 10]].
  - intros id1 e He. destruct (decide (id1 = id)) as [->|Hne1]; [by eauto|].
    rewrite Hother in He by done. destruct (Hu _ _ He) as [u1 Hu1]. exists u1.
    by apply (stored_user_eq m m'); [apply Hother|].
  - intros id1 u1 H1. destruct (decide (id1 = id)) as [->|Hne1]; [|by eauto].
    by rewrite (Hself _ H1).
  - intros id1 u1 i H1 Hi. destruct (decide (id1 = id)) as [->|Hne1].
    + rewrite (Hself _ H1) in Hi. by apply Hl'.
    + eapply Hkl; eauto.
  - intros id1 u1 c H1 Hi. destruct (decide (id1 = id)) as [->|Hne1].
    + rewrite (Hself _ H1) in Hi. by apply Hc'.
    + eapply Hkc; eauto.
  - intros id1 u1 H1. destruct (decide (id1 = id)) as [->|Hne1]; [|by eauto].
    by rewrite (Hself _ H1).
Qed.

(** An index entry of [m] either belongs to [id], whose links are [u]'s, or to
    another user. *)
Lemma index_owner (P : User → Prop) m id u e :
  stored_user m id u →
  (∃ id1 u1, e = Entry (uuid_show id1) None ∧ stored_user m id1 u1 ∧ P u1) →
  e = Entry (uuid_show id) None ∧ P u ∨ e ≠ Entry (uuid_show id) None.
Proof.
  intros Hu (id1 & u1 & -> & Hu1 & HP). destruct (decide (id1 = id)) as [->|Hne].
  - left. by rewrite (stored_user_inj _ _ _ _ Hu Hu1).
  - right. intros [= Heq%uuid_show_inj]. done.
Qed.

(** Rewriting a stored record without touching its links. *)
Lemma accounts_rewrite m id u u' :
  accounts_ok m → stored_user m id u → user_ok u' → u_id u' = u_id u →
  (∀ i, i ∈ linked u' ↔ i ∈ linked u) → credentials u' = credentials u →
  accounts_ok (<[user_key id := Entry (to_json u') None]> m).
Proof.
  intros Hacc Hsu Hok Hid Hli Hcr. pose proof Hacc as [_ Hids Hl Hc Hp Hi1 Hi2 Hi3].
  assert (Hframe : ∀ k, user_key id ≠ k →
    <[user_key id := Entry (to_json u') None]> m !! k = m !! k) by (intros; by rewrite lookup_insert_ne).
  destruct (Hp id u Hsu). apply (accounts_put m _ id u'); eauto.
  - by rewrite lookup_insert_eq.
  - rewrite Hid. eauto.
  - intros id1 Hne. apply Hframe. by intros <-%user_key_inj.
  - intros i Hi. unfold resolves. rewrite !Hframe by key_neq. apply (Hl id u); [done|]. by apply Hli.
  - intros c. rewrite Hcr. unfold owns_credential. rewrite Hframe by key_neq. by apply (Hc id u).
  - by rewrite Hcr.
  - by rewrite Hcr.
  - intros id' u1 i _ _ _. unfold resolves. by rewrite !Hframe by key_neq.
  - intros id' u1 c _ _ _. unfold owns_credential. by rewrite Hframe by key_neq.
  - intros i e. rewrite Hframe by key_neq. intros He. setoid_rewrite Hli.
    destruct (index_owner (λ u, i ∈ linked u) m id u e Hsu (Hi1 i e He)); auto.
  - intros v e. rewrite Hframe by key_neq. intros He. setoid_rewrite Hli.
    destruct (index_owner (λ u, mkIdentifier Email v ∈ linked u) m id u e Hsu (Hi2 v e He)); auto.
  - intros c e. rewrite Hframe by key_neq. intros He. rewrite Hcr.
    destruct (index_owner (λ u, c ∈ credentials u) m id u e Hsu (Hi3 c e He)); auto.
Qed.

Lemma accounts_queue t cs evs m :
  accounts_ok (exec_pipe t cs m).2 → accounts_ok (exec_pipe t (cs ++ queue_events evs) m).2.
Proof.
  apply accounts_ok_agree. intros k Hk. apply commit_agree. by apply account_key_log.
Qed.

(** ** Reading accounts *)

Lemma user_reads R `{!PreOrder R} id : moves R (user id).
Proof. unfold user. moves_go. Qed.

Lemma user_by_identifier_reads R `{!PreOrder R} i : moves R (user_by_identifier i).
Proof. unfold user_by_identifier, parse_uuid. moves_go; apply user_reads, _. Qed.

Lemma require_user_reads R `{!PreOrder R} id : moves R (require_user id).
Proof. unfold require_user. moves_go. apply user_reads, _. Qed.

Lemma wp_user id o w (Q : result error (option User) → world → Prop) :
  accounts_ok (vw w) →
  (∀ w', vw w' = vw w → ¬ reliable o → Q (Err EDb) w') →
  (∀ w', vw w' = vw w → vw w !! user_key id = None → Q (Ok None) w') →
  (∀ u w', vw w' = vw w → stored_user (vw w) id u → Q (Ok (Some u)) w') →
  wp (user id) o w Q.
Proof.
  intros Hacc Hf Hnone Hsome. apply wp_bind, wp_get_json_view; [done|]. intros t w' Hv.
  destruct (vw w !! user_key id) as [e|] eqn:He.
  - destruct (acc_user _ Hacc id e He) as (u & v & u0 & Hk & Hj & Hn). rewrite Hk in He. simplify_eq.
    rewrite (live_persistent t _ _ _ Hk), Hj. apply wp_bind, wp_lift. rewrite Hn.
    apply wp_ret, Hsome; [done|]. by exists v, u0.
  - rewrite live_missing by done. by apply wp_ret, Hnone.
Qed.

Lemma wp_require_user id o w (Q : result error User → world → Prop) :
  accounts_ok (vw w) →
  (∀ e w', vw w' = vw w → e ≠ EPanic → ¬ reliable o ∨ vw w !! user_key id = None → Q (Err e) w') →
  (∀ u w', vw w' = vw w → stored_user (vw w) id u → Q (Ok u) w') →
  wp (require_user id) o w Q.
Proof.
  intros Hacc He Hok. apply wp_bind, wp_user; [done|..].
  - intros w' Hv Hf. by apply He; auto.
  - intros w' Hv Hn. apply wp_some_or; [done|]. intros _. by apply He; auto.
  - intros u w' Hv Hu. apply wp_some_or; [|done]. intros ? [= <-]. by apply Hok.
Qed.

(** The index reads of [user_by_identifier], before the record is loaded. *)
Lemma wp_user_by_identifier i o w (Q : result error (option User) → world → Prop) :
  accounts_ok (vw w) →
  (∀ w', vw w' = vw w → ¬ reliable o → Q (Err EDb) w') →
  (∀ w', vw w' = vw w → (∀ id u, stored_user (vw w) id u → i ∉ linked u) → Q (Ok None) w') →
  (∀ id u w', vw w' = vw w → stored_user (vw w) id u → i ∈ linked u → Q (Ok (Some u)) w') →
  wp (user_by_identifier i) o w Q.
Proof.
  intros Hacc He Hnone Hsome.
  assert (Hload : ∀ s w2, vw w2 = vw w →
    (∃ id u, s = uuid_show id ∧ stored_user (vw w) id u ∧ i ∈ linked u) →
    wp (id ← parse_uuid s; user id) o w2 Q).
  { intros s w2 Hv2 (id & u & -> & Hu & Hi). apply wp_bind. unfold parse_uuid.
    rewrite uuid_parse_show. apply wp_ret, wp_user; rewrite ?Hv2; [done|auto| |].
    - intros w' _ Hmiss. destruct Hu as (v & u0 & Hk & _). congruence.
    - intros u' w' Hv' Hu'. rewrite (stored_user_inj _ _ _ _ Hu' Hu). by eapply Hsome. }
  assert (Hunlinked : vw w !! identifier_key i = None →
    (iv_kind i = Email → vw w !! email_key (iv_value i) = None) →
    ∀ id u, stored_user (vw w) id u → i ∉ linked u).
  { intros Hn1 Hn2 id u Hu Hi. destruct (acc_linked _ Hacc id u i Hu Hi) as [?|(_ & Hem & ?)]; [congruence|].
    rewrite Hn2 in *; done. }
  apply wp_bind, wp_get_view; [auto|]. intros t w1 Hv1.
  destruct (vw w !! identifier_key i) as [e|] eqn:Hk.
  - destruct (acc_identifier_index _ Hacc i e Hk) as (id & u & -> & Hu & Hi).
    rewrite (live_persistent _ _ _ _ Hk). apply wp_bind, wp_ret. eauto 10.
  - rewrite live_missing by done. simpl. unfold kind_eqb. case_bool_decide as Hem.
    + apply wp_bind, wp_get_view; [intros w2 Hv2 Hf; apply He; [congruence|done]|].
      intros t2 w2 Hv2. rewrite Hv1 in Hv2 |- *.
      destruct (vw w !! email_key (iv_value i)) as [e|] eqn:Hk2.
      * destruct (acc_email_index _ Hacc _ e Hk2) as (id & u & -> & Hu & Hi).
        rewrite (live_persistent _ _ _ _ Hk2). apply Hload; [done|]. exists id, u.
        split_and!; [done..|]. destruct i. simpl in *. by subst.
      * rewrite live_missing by done. by apply wp_ret, Hnone; [|apply Hunlinked].
    + apply wp_bind, wp_ret, wp_ret, Hnone; [done|]. by apply Hunlinked.
Qed.

(** ** The mutations keep the account invariant *)

Lemma stored_written m id u :
  m !! user_key id = Some (Entry (to_json u) None) → user_ok u → stored_user m id u.
Proof.
  intros Hk Hok. exists (to_json u), u. split_and!; [done|apply from_to_json|by apply user_ok_normalize].
Qed.

(** Writing a stored user back with changes that keep its links. *)
Lemma wp_persist self id u u' ty o w :
  accounts_ok (vw w) → stored_user (vw w) id u → user_ok u' → u_id u' = u_id u →
  (∀ i, i ∈ linked u' ↔ i ∈ linked u) → credentials u' = credentials u →
  wp (persist_user_with_event self u' ty) o w (λ r w', accounts_ok (vw w') ∧
    (r = Ok tt → stored_user (vw w') id u')).
Proof.
  intros Hacc Hu Hok Hid Hl Hc. unfold persist_user_with_event.
  apply wp_bind, (wp_reads _ _ _ _ (pending_events_reads _ _)).
  intros [evs|e] w1 Hv1; [|by rewrite Hv1].
  assert (Hm' : ∀ t, let m' := (exec_pipe t ([SET (user_key (u_id u')) (to_json u')]
      ++ queue_events evs) (vw w)).2 in accounts_ok m' ∧ stored_user m' id u').
  { intros t. cbv zeta. rewrite Hid, (acc_id _ Hacc id u Hu). split.
    - apply accounts_queue. by apply accounts_rewrite with u.
    - apply stored_written; [|done]. rewrite commit_agree by done. simpl. by rewrite lookup_insert_eq. }
  apply wp_execute_view; rewrite Hv1.
  - intros w' t _ [->| ->]; [done|]. by split; [apply Hm'|].
  - intros w' t _ Hv'. rewrite Hv'. by destruct (Hm' t).
Qed.

Lemma wp_persist_with_event self id u u' ty o w :
  accounts_ok (vw w) → stored_user (vw w) id u → user_ok u' → u_id u' = u_id u →
  (∀ i, i ∈ linked u' ↔ i ∈ linked u) → credentials u' = credentials u →
  wp (persist_user_with_event self u' ty;; mret u') o w (λ r w', accounts_ok (vw w') ∧
    ∀ x, r = Ok x → x = u' ∧ stored_user (vw w') id u').
Proof.
  intros. apply wp_bind. eapply wp_mono; [by eapply wp_persist|].
  intros [[]|e] w' [Ha Hs]; [|done]. apply wp_ret. split; [done|]. intros x [= ->]. auto.
Qed.

Lemma keeps_persist_with_event self id u u' ty o w :
  accounts_ok (vw w) → stored_user (vw w) id u → user_ok u' → u_id u' = u_id u →
  (∀ i, i ∈ linked u' ↔ i ∈ linked u) → credentials u' = credentials u →
  wp (persist_user_with_event self u' ty;; mret u') o w (λ _ w', accounts_ok (vw w')).
Proof. intros. eapply wp_mono; [by eapply wp_persist_with_event|]. by intros r w' [? _]. Qed.

Lemma update_profile_accounts self id profile o : keeps o accounts_ok (update_profile self id profile).
Proof.
  intros w Hacc. apply wp_bind, wp_lift.
  destruct (validate_account_profile profile) as [[]|] eqn:Hp; [|done].
  apply wp_bind, wp_require_user; [done|by intros ?? ->|]. intros u w1 Hv1 Hu.
  apply (keeps_persist_with_event self id u); rewrite ?Hv1; try done.
  pose proof (stored_user_ok _ _ _ Hu) as Hok. apply (user_ok_update u); try done.
  apply (uok_recovery _ Hok).
Qed.

Lemma set_identifiers_links l u :
  linked (sync_legacy_email (set_identifiers l u)) = ident_of <$> l ∧
  credentials (sync_legacy_email (set_identifiers l u)) = credentials u ∧
  u_id (sync_legacy_email (set_identifiers l u)) = u_id u.
Proof.
  destruct (sync_fields (set_identifiers l u)) as (Hid & _ & Hi & _ & _ & _ & Hp).
  unfold linked, credentials. by rewrite Hid, Hi, Hp.
Qed.

Lemma set_primary_identifier_accounts self id i o :
  keeps o accounts_ok (set_primary_identifier self id i).
Proof.
  intros w Hacc. apply wp_bind, wp_lift. destruct (require_canonical_identifier i); [|done].
  apply wp_bind, wp_require_user; [done|by intros ?? ->|]. intros u w1 Hv1 Hu.
  apply wp_bind, wp_ensure; [|intros _; by rewrite Hv1]. intros [r Hr]%existsb_find.
  pose proof (stored_user_ok _ _ _ Hu) as Hok. cbv zeta.
  set (l := (λ x, set_primary (matches_identifier i x) x) <$> u_identifiers u).
  destruct (set_identifiers_links l u) as (Hl & Hc & Hi).
  apply (keeps_persist_with_event self id u); rewrite ?Hv1; try done.
  - apply user_ok_set_identifiers; [done|]. eapply identifiers_ok_set_primary; [apply Hok|done].
  - intros j. rewrite Hl. unfold l. by rewrite <- list_fmap_compose.
Qed.

Lemma verified_now_reads R `{!PreOrder R} b : moves R (verified_now b).
Proof. unfold verified_now. moves_go. Qed.

Lemma wp_verified_now b o w (Q : result error (option N) → world → Prop) :
  (∀ t w', vw w' = vw w → (is_some t = true → b = true) → Q (Ok t) w') →
  wp (verified_now b) o w Q.
Proof.
  intros HQ. unfold verified_now. destruct b.
  - apply wp_bind, wp_now, wp_ret, HQ; done.
  - apply wp_ret, HQ; done.
Qed.

Lemma set_identifier_verification_accounts self id i verified o :
  keeps o accounts_ok (set_identifier_verification self id i verified).
Proof.
  intros w Hacc. apply wp_bind, wp_lift. destruct (require_canonical_identifier i); [|done].
  apply wp_bind, wp_require_user; [done|by intros ?? ->|]. intros u w1 Hv1 Hu.
  apply wp_bind, wp_ensure; [|intros _; by rewrite Hv1]. intros [r Hr]%existsb_find.
  apply wp_bind, wp_verified_now. intros t w2 Hv2 Ht. rewrite Hv1 in Hv2. cbv zeta.
  pose proof (stored_user_ok _ _ _ Hu) as Hok.
  set (l := update_first _ _ (u_identifiers u)).
  destruct (set_identifiers_links l u) as (Hl & Hc & Hi).
  apply (keeps_persist_with_event self id u); rewrite ?Hv2; try done.
  - apply user_ok_set_identifiers; [done|]. eapply identifiers_ok_set_verified; [apply Hok|done|done].
  - intros j. rewrite Hl. unfold l, linked.
    destruct (find_split i _ r (ids_nodup _ (uok_identifiers _ Hok)) Hr) as (Hri & l1 & l2 & -> & H1 & _).
    rewrite update_first_split by (done || by apply matches_identifier_spec).
    by rewrite !fmap_app, !fmap_cons.
Qed.

Lemma linked_unique m id1 u1 id2 u2 i :
  accounts_ok m → stored_user m id1 u1 → stored_user m id2 u2 →
  i ∈ linked u1 → i ∈ linked u2 → id1 = id2.
Proof.
  intros Hacc H1 H2 Hi1 Hi2. pose proof (acc_linked _ Hacc _ _ _ H1 Hi1) as R1.
  pose proof (acc_linked _ Hacc _ _ _ H2 Hi2) as R2. unfold resolves in *.
  destruct R1 as [?|(? & ? & ?)], R2 as [?|(? & ? & ?)]; simplify_eq; by apply uuid_show_inj.
Qed.

(** Index entries of the identifiers other than [i] survive (un)linking [i]. *)
Lemma resolves_frame m m' i j id :
  (∀ j, j ≠ i → m' !! identifier_key j = m !! identifier_key j) →
  (∀ v, iv_kind i = Email ∧ v = iv_value i ∨ m' !! email_key v = m !! email_key v) →
  j ≠ i → resolves m j id → resolves m' j id.
Proof.
  intros Hi He Hne. unfold resolves. rewrite Hi by done.
  intros [?|(Hk & Hem & Hm)]; [by left|]. right. split_and!; [done..|].
  destruct (He (iv_value j)) as [[Hki Hv]|Hee]; [|by rewrite Hee].
  destruct Hne. destruct i, j; simpl in *; congruence.
Qed.

Lemma NoDup_linked u : user_ok u → NoDup (linked u).
Proof. intros Hok. apply (uok_identifiers _ Hok). Qed.

(** The contents after the commands that link [i] to user [id]. *)
Lemma link_identifier m id i s t :
  let m' := (exec_pipe t ([SET (user_key id) s; SET (identifier_key i) (uuid_show id)]
              ++ (if kind_eqb (iv_kind i) Email
                  then [SET (email_key (iv_value i)) (uuid_show id)] else [])) m).2 in
  m' !! user_key id = Some (Entry s None) ∧
  (∀ id', id' ≠ id → m' !! user_key id' = m !! user_key id') ∧
  (∀ c, m' !! credential_key c = m !! credential_key c) ∧
  resolves m' i id ∧ (∀ j id', j ≠ i → resolves m j id' → resolves m' j id') ∧
  (∀ j e, m' !! identifier_key j = Some e →
     e = Entry (uuid_show id) None ∧ j = i ∨ m !! identifier_key j = Some e) ∧
  (∀ v e, m' !! email_key v = Some e →
     e = Entry (uuid_show id) None ∧ mkIdentifier Email v = i ∨ m !! email_key v = Some e).
Proof.
  cbv zeta. set (m' := (exec_pipe _ _ _).2).
  assert (Hm' : m' = (if kind_eqb (iv_kind i) Email
      then <[email_key (iv_value i) := Entry (uuid_show id) None]> else Datatypes.id)
      (<[identifier_key i := Entry (uuid_show id) None]> (<[user_key id := Entry s None]> m))).
  { unfold m'. by destruct (kind_eqb _ _). }
  unfold kind_eqb in Hm'. split_and!.
  - rewrite Hm'. case_bool_decide; unfold Datatypes.id; look; done.
  - intros id' Hne. rewrite Hm'. case_bool_decide; unfold Datatypes.id; look; done.
  - intros c. rewrite Hm'. case_bool_decide; unfold Datatypes.id; look; done.
  - left. rewrite Hm'. case_bool_decide; unfold Datatypes.id; look; done.
  - intros j id'. apply resolves_frame.
    + intros x Hx. rewrite Hm'. case_bool_decide; unfold Datatypes.id; look; done.
    + intros v. rewrite Hm'. case_bool_decide; unfold Datatypes.id.
      * destruct (decide (v = iv_value i)); [by left|]. right. look. done.
      * right. look. done.
  - intros j e. rewrite Hm'. destruct (decide (j = i)) as [->|Hne].
    + case_bool_decide; unfold Datatypes.id; look; intros [= <-]; auto.
    + case_bool_decide; unfold Datatypes.id; look; auto.
  - intros v e. rewrite Hm'. case_bool_decide as Hem; unfold Datatypes.id; [|look; auto].
    destruct (decide (v = iv_value i)) as [->|Hne]; look; [|auto].
    intros [= <-]. left. split; [done|]. destruct i. simpl in *. by subst.
Qed.

Lemma unlink_identifier m id i s t :
  let m' := (exec_pipe t ([SET (user_key id) s; DEL [identifier_key i]]
              ++ (if kind_eqb (iv_kind i) Email then [DEL [email_key (iv_value i)]] else [])) m).2 in
  m' !! user_key id = Some (Entry s None) ∧
  (∀ id', id' ≠ id → m' !! user_key id' = m !! user_key id') ∧
  (∀ c, m' !! credential_key c = m !! credential_key c) ∧
  (∀ j id', j ≠ i → resolves m j id' → resolves m' j id') ∧
  (∀ j e, m' !! identifier_key j = Some e → j ≠ i ∧ m !! identifier_key j = Some e) ∧
  (∀ v e, m' !! email_key v = Some e → mkIdentifier Email v ≠ i ∧ m !! email_key v = Some e).
Proof.
  cbv zeta. set (m' := (exec_pipe _ _ _).2).
  assert (Hm' : m' = (if kind_eqb (iv_kind i) Email then delete (email_key (iv_value i)) else Datatypes.id)
      (delete (identifier_key i) (<[user_key id := Entry s None]> m))).
  { unfold m'. by destruct (kind_eqb _ _). }
  unfold kind_eqb in Hm'. split_and!.
  - rewrite Hm'. case_bool_decide; unfold Datatypes.id; look; done.
  - intros id' Hne. rewrite Hm'. case_bool_decide; unfold Datatypes.id; look; done.
  - intros c. rewrite Hm'. case_bool_decide; unfold Datatypes.id; look; done.
  - intros j id'. apply resolves_frame.
    + intros x Hx. rewrite Hm'. case_bool_decide; unfold Datatypes.id; look; done.
    + intros v. rewrite Hm'. case_bool_decide; unfold Datatypes.id.
      * destruct (decide (v = iv_value i)); [by left|]. right. look. done.
      * right. look. done.
  - intros j e. rewrite Hm'. destruct (decide (j = i)) as [->|Hne].
    + case_bool_decide; unfold Datatypes.id; look; done.
    + case_bool_decide; unfold Datatypes.id; look; auto.
  - intros v e. rewrite Hm'. case_bool_decide as Hem; unfold Datatypes.id.
    + destruct (decide (v = iv_value i)) as [->|Hne]; look; [done|].
      intros He. split; [|done]. by intros <-.
    + look. intros He. split; [|done]. by intros <-.
Qed.

Lemma add_identifier_accounts self id i verified o :
  keeps o accounts_ok (add_identifier self id i verified).
Proof.
  intros w Hacc. apply wp_bind, wp_lift.
  destruct (require_canonical_identifier i) as [[]|] eqn:Hcan; [|done].
  apply require_canonical_ok in Hcan.
  apply wp_bind, wp_user_by_identifier; [done|by intros ? ->| |].
  2:{ intros id1 u1 w1 Hv1 _ _. apply wp_bind, wp_ensure; [done|]. intros _. by rewrite Hv1. }
  intros w1 Hv1 Hfree. apply wp_bind, wp_ensure; [intros _|done].
  apply wp_bind, wp_require_user; rewrite ?Hv1; [done|by intros ?? ->|]. intros u w2 Hv2 Hu.
  apply wp_bind, wp_ensure; [intros Hlen|intros _; by rewrite Hv2]. reflect. apply Nat.leb_gt in Hlen.
  apply wp_bind, wp_verified_now. intros vt w3 Hv3 Hvt. apply wp_bind, wp_now. cbv zeta.
  set (l := u_identifiers u ++ _). pose proof (stored_user_ok _ _ _ Hu) as Hok.
  destruct (set_identifiers_links l u) as (Hl & Hc & Hi). set (u' := sync_legacy_email _) in *.
  apply wp_bind, (wp_reads _ _ _ _ (pending_events_reads _ _)).
  assert (Hv : vw (tick w3) = vw w) by (unfold vw in *; simpl; congruence).
  intros [evs|e] w4 Hv4; rewrite Hv in Hv4; [|by rewrite Hv4]. apply wp_bind. eapply wp_mono.
  - apply (wp_execute_inv accounts_ok); rewrite Hv4; [done|]. intros t.
    rewrite app_assoc. apply accounts_queue.
    destruct (link_identifier (vw w) id i (to_json u') t) as (F1 & F2 & F3 & F4 & F5 & F6 & F7).
    destruct (acc_passkeys _ Hacc id u Hu) as [Hnd Hne].
    assert (Hlu : linked u' = linked u ++ [i]) by (rewrite Hl; unfold l, linked; rewrite fmap_app; by destruct i).
    apply (accounts_put (vw w) _ id u'); rewrite ?Hc; try done.
    + apply user_ok_set_identifiers; [done|].
      apply identifiers_ok_append; [apply Hok|done|by apply (Hfree id)|done|done].
    + rewrite Hi. by apply (acc_id _ Hacc).
    + intros j. rewrite Hlu. intros [Hj| ->%list_elem_of_singleton]%elem_of_app; [|done].
      apply F5; [|by eapply acc_linked]. intros ->. by apply (Hfree id u).
    + intros c Hcc. unfold owns_credential. rewrite F3. by apply (acc_credential _ Hacc id u).
    + intros id' u1 j _ Hu1 Hj. apply F5. intros ->. by apply (Hfree id' u1).
    + intros id' u1 c _ _ _. unfold owns_credential. by rewrite F3.
    + intros j e [[-> ->]|He]%F6; [left; rewrite Hlu; set_solver|].
      destruct (index_owner (λ u, j ∈ linked u) _ id u e Hu (acc_identifier_index _ Hacc j e He))
        as [[-> ?]|?]; [left; rewrite Hlu; set_solver|auto].
    + intros v e [[-> ->]|He]%F7; [left; rewrite Hlu; set_solver|].
      destruct (index_owner (λ u, mkIdentifier Email v ∈ linked u) _ id u e Hu
        (acc_email_index _ Hacc v e He)) as [[-> ?]|?]; [left; rewrite Hlu; set_solver|auto].
    + intros c e. rewrite F3. intros He.
      destruct (index_owner (λ u, c ∈ credentials u) _ id u e Hu (acc_credential_index _ Hacc c e He)); auto.
  - by intros [[]|e] w' Hw'.
Qed.

Lemma wp_promote_first (b : bool) l o w (Q : result error (list AccountIdentifier) → world → Prop) :
  l ≠ [] →
  Q (Ok (if b then match l with [] => [] | x :: l' => set_primary true x :: l' end else l)) w →
  wp (if b then promote_first l else mret l) o w Q.
Proof. by destruct b, l. Qed.

Lemma require_canonical_err i e : require_canonical_identifier i = Err e → e ≠ EPanic.
Proof. unfold require_canonical_identifier. intros Hr. repeat case_match; congruence. Qed.

Lemma wp_remove_identifier self id i o w :
  accounts_ok (vw w) →
  wp (remove_identifier self id i) o w (λ r w', accounts_ok (vw w') ∧
    match r with
    | Ok u' => identifiers_ok (u_identifiers u') ∧ i ∉ linked u'
    | Err e => e ≠ EPanic
    end).
Proof.
  intros Hacc. apply wp_bind, wp_lift.
  destruct (require_canonical_identifier i) as [[]|e] eqn:Hcan; [|by apply require_canonical_err in Hcan].
  apply wp_bind, wp_require_user; [done|by intros ?? ->|]. intros u w1 Hv1 Hu.
  apply wp_bind, wp_ensure; [intros Hlen|intros _; by rewrite Hv1]. reflect. apply Nat.leb_gt in Hlen.
  apply wp_bind, wp_some_or; [intros r Hr|intros _; by rewrite Hv1].
  pose proof (stored_user_ok _ _ _ Hu) as Hok.
  destruct (find_split i _ r (NoDup_linked u Hok) Hr) as (Hri & l1 & l2 & Hul & H1 & H2).
  pose proof (uok_identifiers _ Hok) as Hids. rewrite Hul in *. rewrite filter_split by done.
  rewrite length_app in Hlen. simpl in Hlen.
  assert (Hne : l1 ++ l2 ≠ []) by (destruct l1, l2; simpl in *; (done || lia)).
  apply wp_bind, wp_promote_first; [done|].
  pose proof (identifiers_ok_remove _ _ _ Hids Hne) as Hlok. cbv zeta.
  match type of Hlok with identifiers_ok ?x => set (l := x) in * end.
  assert (Hll : ident_of <$> l = ident_of <$> (l1 ++ l2)).
  { unfold l. destruct (ai_primary r), (l1 ++ l2); done. }
  destruct (set_identifiers_links l u) as (Hl & Hc & Hi). set (u' := sync_legacy_email _) in *.
  assert (Hi12 : i ∉ ident_of <$> (l1 ++ l2)).
  { rewrite Forall_forall in H1, H2. rewrite list_elem_of_fmap. intros (x & -> & [Hx|Hx]%elem_of_app).
    - apply H1 in Hx. by apply matches_identifier_false in Hx.
    - apply H2 in Hx. by apply matches_identifier_false in Hx. }
  assert (Hkept : ∀ j, j ≠ i → j ∈ linked u → j ∈ ident_of <$> (l1 ++ l2)).
  { intros j Hji. unfold linked. rewrite Hul, !fmap_app, fmap_cons, !elem_of_app, elem_of_cons, Hri. tauto. }
  apply wp_bind, wp_pending_any.
  { intros e w2 Hv2 [->| ->]; by rewrite Hv2, Hv1. }
  intros evs w2 Hv2. rewrite Hv1 in Hv2. apply wp_bind. eapply wp_mono.
  - apply (wp_execute_inv_err accounts_ok); rewrite Hv2; [done|]. intros t.
    rewrite app_assoc. apply accounts_queue.
    destruct (unlink_identifier (vw w) id i (to_json u') t) as (F1 & F2 & F3 & F5 & F6 & F7).
    destruct (acc_passkeys _ Hacc id u Hu) as [Hnd Hne'].
    apply (accounts_put (vw w) _ id u'); rewrite ?Hc; try done.
    + by apply user_ok_set_identifiers.
    + rewrite Hi. by apply (acc_id _ Hacc).
    + intros j. rewrite Hl, Hll. intros Hj. apply F5; [by intros ->|].
      eapply acc_linked; [done..|]. unfold linked. rewrite Hul, fmap_app, fmap_cons.
      rewrite fmap_app in Hj. set_solver.
    + intros c Hcc. unfold owns_credential. rewrite F3. by apply (acc_credential _ Hacc id u).
    + intros id' u1 j Hne1 Hu1 Hj Hres. apply F5; [|done]. intros ->.
      assert (Hself : resolves (vw w) i id).
      { eapply acc_linked; [done..|]. unfold linked. rewrite Hul, <- Hri, fmap_app, fmap_cons. set_solver. }
      apply Hne1. unfold resolves in *. destruct Hres as [?|(? & ? & ?)], Hself as [?|(? & ? & ?)];
        simplify_eq; by apply uuid_show_inj.
    + intros id' u1 c _ _ _. unfold owns_credential. by rewrite F3.
    + intros j e [Hji He]%F6. rewrite Hl, Hll.
      destruct (index_owner (λ u, j ∈ linked u) _ id u e Hu (acc_identifier_index _ Hacc j e He))
        as [[-> Hj]|?]; [left; split; [done|by apply Hkept]|auto].
    + intros v e [Hji He]%F7. rewrite Hl, Hll.
      destruct (index_owner (λ u, mkIdentifier Email v ∈ linked u) _ id u e Hu
        (acc_email_index _ Hacc v e He)) as [[-> Hj]|?]; [left; split; [done|by apply Hkept]|auto].
    + intros c e. rewrite F3. intros He.
      destruct (index_owner (λ u, c ∈ credentials u) _ id u e Hu (acc_credential_index _ Hacc c e He)); auto.
  - intros [[]|e] w' [Hw' He]; [|by rewrite (He e)].
    apply wp_ret. split; [done|]. rewrite Hl, Hll. split; [|done].
    destruct (sync_fields (set_identifiers l u)) as (_ & _ & Hids' & _). unfold u'. by rewrite Hids'.
Qed.

Lemma remove_identifier_accounts self id i o : keeps o accounts_ok (remove_identifier self id i).
Proof. intros w Hacc. eapply wp_mono; [by apply wp_remove_identifier|]. by intros r w' [? _]. Qed.

(** ** The mutations extend the event log *)

Lemma persist_user_with_event_extends self u ty :
  moves log_extends (persist_user_with_event self u ty).
Proof. unfold persist_user_with_event. log_go. Qed.

Lemma update_profile_extends self id p : moves log_extends (update_profile self id p).
Proof.
  unfold update_profile. log_go; [apply require_user_reads, _|apply persist_user_with_event_extends].
Qed.

Lemma add_identifier_extends self id i b : moves log_extends (add_identifier self id i b).
Proof.
  unfold add_identifier. log_go;
    first [apply user_by_identifier_reads, _|apply require_user_reads, _|apply verified_now_reads, _].
Qed.

Lemma promote_first_reads R `{!PreOrder R} l : moves R (promote_first l).
Proof. unfold promote_first. moves_go. Qed.

Lemma remove_identifier_extends self id i : moves log_extends (remove_identifier self id i).
Proof.
  unfold remove_identifier. log_go; first [apply require_user_reads, _|apply promote_first_reads, _].
Qed.

Lemma set_primary_identifier_extends self id i : moves log_extends (set_primary_identifier self id i).
Proof.
  unfold set_primary_identifier.
  log_go; first [apply require_user_reads, _|apply persist_user_with_event_extends].
Qed.

Lemma set_identifier_verification_extends self id i b :
  moves log_extends (set_identifier_verification self id i b).
Proof.
  unfold set_identifier_verification.
  log_go; first [apply require_user_reads, _|apply verified_now_reads, _|apply persist_user_with_event_extends].
Qed.

(** ** Properties *)

(** Hydrating a stored record yields a validated user, hydrating the result
    again changes nothing, and identity, session version and passkeys are those
    of the record. *)
Theorem normalize_idempotent u0 u :
  normalize_and_validate u0 = Ok u →
  user_ok u ∧ normalize_and_validate u = Ok u ∧
  u_id u = u_id u0 ∧ u_session_version u = u_session_version u0 ∧ u_passkeys u = u_passkeys u0.
Proof.
  intros Hn. destruct (normalize_ok u0 u Hn) as [Hok Hu].
  destruct (sync_fields (fill_identifiers u0)) as (H1 & _ & _ & H2 & _ & _ & H3).
  destruct (fill_fields u0) as (H4 & H5 & H6).
  split_and!; [done|by apply user_ok_normalize|..]; rewrite Hu; congruence.
Qed.

(** Identifiers and credentials belong to one account: two stored users that
    share a contact identifier or a passkey credential are the same user. *)
Theorem accounts_unique m id1 u1 id2 u2 :
  accounts_ok m → stored_user m id1 u1 → stored_user m id2 u2 →
  (∃ i, i ∈ linked u1 ∧ i ∈ linked u2) ∨ (∃ c, c ∈ credentials u1 ∧ c ∈ credentials u2) →
  id1 = id2 ∧ u1 = u2.
Proof.
  intros Hacc H1 H2 Hshare. assert (Hid : id1 = id2).
  { destruct Hshare as [(i & Hi1 & Hi2)|(c & Hc1 & Hc2)].
    - by apply (linked_unique m id1 u1 id2 u2 i).
    - pose proof (acc_credential _ Hacc _ _ _ H1 Hc1) as R1.
      pose proof (acc_credential _ Hacc _ _ _ H2 Hc2) as R2. unfold owns_credential in *.
      simplify_eq. by apply uuid_show_inj. }
  subst id2. split; [done|]. by eapply stored_user_inj.
Qed.

(** the lookup index is exact: [user_by_identifier] returns the stored account
    linked to the identifier, or [None] exactly when no stored account is linked
    to it; the only error is a failed round trip. *)
Theorem user_by_identifier_exact i o w :
  accounts_ok (vw w) →
  match (user_by_identifier i o w).1 with
  | Ok (Some u) => stored_user (vw w) (u_id u) u ∧ i ∈ linked u
  | Ok None => ∀ id u, stored_user (vw w) id u → i ∉ linked u
  | Err e => e = EDb ∧ ¬ reliable o
  end.
Proof.
  intros Hacc. apply (wp_user_by_identifier i o w (λ r _, match r with
    | Ok (Some u) => _ | Ok None => _ | Err e => _ end)); [done..|].
  intros id u w' _ Hu Hi. by rewrite (acc_id _ Hacc id u Hu).
Qed.

(** removing an identifier never panics and never strips an account of its
    last or of its primary identifier: the returned user still has at least one
    identifier, exactly one of them primary, and not the removed one. *)
Theorem remove_identifier_safe self id i o w :
  accounts_ok (vw w) →
  match (remove_identifier self id i o w).1 with
  | Ok u => identifiers_ok (u_identifiers u) ∧ i ∉ linked u
  | Err e => e ≠ EPanic
  end.
Proof. intros Hacc. by destruct (wp_remove_identifier self id i o w Hacc). Qed.
End Users.
