(* ===== verification/Invitations.v ===== *)
(** * Account invitations (src/src/store/invitations.rs)

    Operator-issued, one-time enrolment invitations.  Only the digest of a code
    is stored; a code index leads from the digest to the invitation record and is
    deleted when the invitation is consumed or revoked. *)

From S2P Require Import Prelude Sable Logic Demo Records Events Identifiers Users.

Definition INVITATION_DOMAIN : list N := bytes #"rustyauth.account-invitation.v1" ++ [0].

Definition invitation_key `{ExtUuid} (id : Uuid) : str := #"auth:invitation:" ++ uuid_show id.
Definition invitation_code_key (digest : str) : str := #"auth:invitation-code:" ++ digest.

Definition invitation_digest `{ExtCrypto} (raw_code : str) : str :=
  hex_encode (sha256 (INVITATION_DOMAIN ++ bytes raw_code)).

Section Invitations.
Context `{Env}.

Record AccountInvitationRecord := mkInvitation {
  inv_id : Uuid;
  inv_identifier : IdentifierValue;
  inv_code_digest : str;
  inv_created_by : Uuid;
  inv_created_at : N;
  inv_expires_at : N;
  inv_consumed_at : option N;
  inv_revoked_at : option N
}.

Definition set_consumed (t : N) (r : AccountInvitationRecord) : AccountInvitationRecord :=
  mkInvitation (inv_id r) (inv_identifier r) (inv_code_digest r) (inv_created_by r)
    (inv_created_at r) (inv_expires_at r) (Some t) (inv_revoked_at r).
Definition set_revoked (t : option N) (r : AccountInvitationRecord) : AccountInvitationRecord :=
  mkInvitation (inv_id r) (inv_identifier r) (inv_code_digest r) (inv_created_by r)
    (inv_created_at r) (inv_expires_at r) (inv_consumed_at r) t.

Context `{!Serde AuthEvent, !Serde User, !Serde AccountInvitationRecord}.

Definition invalid_invitation : error := EBail "invitation is invalid or already used".

Definition validate_invitation_code (raw_code : str) : result error unit :=
  if negb (len raw_code =? 48) || negb (starts_with #"rinv_" raw_code)
     || negb (forallb is_b64url (bytes (drop 5 raw_code)))
  then Err invalid_invitation else Ok tt.

(** The clock is read only when the identifiers agree. *)
Definition validate_invitation_record (record : AccountInvitationRecord)
    (identifier : IdentifierValue) (digest : str) : M error unit :=
  if bool_decide (inv_identifier record = identifier) then
    t ← now;
    ensure (negb ((inv_expires_at record <=? t) || is_some (inv_consumed_at record)
                  || is_some (inv_revoked_at record)
                  || negb (ct_eq (inv_code_digest record) digest))) invalid_invitation
  else fail invalid_invitation.

Definition account_invitation (id : Uuid) : M error (option AccountInvitationRecord) :=
  get_json (invitation_key id).

Definition create_account_invitation (self : Store) (identifier : IdentifierValue)
    (created_by : Uuid) (lifetime_seconds : N) : M error (AccountInvitationRecord * str) :=
  _ ← lift (require_canonical_identifier identifier);
  ensure ((300 <=? lifetime_seconds) && (lifetime_seconds <=? 604800))
    (EBail "invitation lifetime must be between five minutes and seven days");;
  existing ← user_by_identifier identifier;
  ensure (negb (is_some existing)) (EBail "identifier already has an account");;
  raw ← random_bytes 32;
  let raw_code := #"rinv_" ++ b64url_encode raw in
  let digest := invitation_digest raw_code in
  created_at ← now;
  id ← new_v4;
  let record := mkInvitation id identifier digest created_by created_at
                  (saturating_add created_at lifetime_seconds) None None in
  execute [SET (invitation_key id) (to_json record);
           SET (invitation_code_key digest) (uuid_show id)];;
  append_event_locked self #"account.invitation.created" None;;
  mret (record, raw_code).

Definition invitation_before (a b : AccountInvitationRecord) : bool :=
  key_before (inv_created_at a, inv_id a) (inv_created_at b, inv_id b).

Definition account_invitations : M error (list AccountInvitationRecord) :=
  ids ← record_ids #"auth:invitation:";
  records ← load_records account_invitation ids;
  mret (sort_by invitation_before records).

Definition validate_account_invitation (identifier : IdentifierValue) (raw_code : str) :
    M error (Uuid * str) :=
  _ ← lift (require_canonical_identifier identifier);
  _ ← lift (validate_invitation_code raw_code);
  let digest := invitation_digest raw_code in
  id ← get (invitation_code_key digest);
  id ← some_or invalid_invitation id;
  id ← parse_uuid id;
  record ← account_invitation id;
  record ← some_or invalid_invitation record;
  validate_invitation_record record identifier digest;;
  mret (id, digest).

Definition consume_account_invitation_claim (self : Store) (identifier : IdentifierValue)
    (id : Uuid) (digest : str) : M error AccountInvitationRecord :=
  _ ← lift (require_canonical_identifier identifier);
  ensure ((len digest =? 64) && forallb is_ascii_hexdigit (bytes digest)) invalid_invitation;;
  indexed_id ← get (invitation_code_key digest);
  indexed_id ← some_or invalid_invitation indexed_id;
  indexed_id ← parse_uuid indexed_id;
  ensure (bool_decide (indexed_id = id)) invalid_invitation;;
  record ← account_invitation id;
  record ← some_or invalid_invitation record;
  validate_invitation_record record identifier digest;;
  t ← now;
  let record := set_consumed t record in
  execute [SET (invitation_key id) (to_json record); DEL [invitation_code_key digest]];;
  append_event_locked self #"account.invitation.consumed" None;;
  mret record.

Definition consume_account_invitation (self : Store) (identifier : IdentifierValue)
    (raw_code : str) : M error AccountInvitationRecord :=
  _ ← lift (require_canonical_identifier identifier);
  _ ← lift (validate_invitation_code raw_code);
  let digest := invitation_digest raw_code in
  id ← get (invitation_code_key digest);
  id ← some_or invalid_invitation id;
  id ← parse_uuid id;
  consume_account_invitation_claim self identifier id digest.

Definition revoke_account_invitation (self : Store) (id : Uuid) : M error AccountInvitationRecord :=
  record ← account_invitation id;
  record ← some_or (EBail "invitation is missing") record;
  ensure (negb (is_some (inv_consumed_at record))) (EBail "consumed invitations cannot be revoked");;
  revoked_at ← match inv_revoked_at record with
               | Some t => mret t
               | None => now
               end;
  let record := set_revoked (Some revoked_at) record in
  execute [SET (invitation_key id) (to_json record);
           DEL [invitation_code_key (inv_code_digest record)]];;
  append_event_locked self #"account.invitation.revoked" None;;
  mret record.

(** ** Frames *)

Lemma validate_record_reads R `{!PreOrder R} r i d : moves R (validate_invitation_record r i d).
Proof. unfold validate_invitation_record. moves_go. Qed.

Lemma account_invitation_reads R `{!PreOrder R} id : moves R (account_invitation id).
Proof. apply moves_get_json, _. Qed.

Lemma off_log_accounts : off_log is_account_key.
Proof. exact account_key_log. Qed.

Ltac inv_leaf := first [ apply user_by_identifier_reads, _ | apply validate_record_reads, _
  | apply account_invitation_reads, _ ].

Lemma create_account_invitation_extends self i by_ n :
  moves log_extends (create_account_invitation self i by_ n).
Proof. unfold create_account_invitation. log_go; inv_leaf. Qed.

Lemma create_account_invitation_accounts self i by_ n :
  leaves is_account_key (create_account_invitation self i by_ n).
Proof. unfold create_account_invitation. leaves_go off_log_accounts; inv_leaf. Qed.

Lemma consume_claim_extends self i id d :
  moves log_extends (consume_account_invitation_claim self i id d).
Proof. unfold consume_account_invitation_claim, parse_uuid. log_go; inv_leaf. Qed.

Lemma consume_claim_accounts self i id d :
  leaves is_account_key (consume_account_invitation_claim self i id d).
Proof. unfold consume_account_invitation_claim, parse_uuid. leaves_go off_log_accounts; inv_leaf. Qed.

Lemma consume_account_invitation_extends self i c :
  moves log_extends (consume_account_invitation self i c).
Proof. unfold consume_account_invitation, parse_uuid. log_go. apply consume_claim_extends. Qed.

Lemma consume_account_invitation_accounts self i c :
  leaves is_account_key (consume_account_invitation self i c).
Proof.
  unfold consume_account_invitation, parse_uuid. leaves_go off_log_accounts. apply consume_claim_accounts.
Qed.

Lemma revoke_account_invitation_extends self id : moves log_extends (revoke_account_invitation self id).
Proof. unfold revoke_account_invitation. log_go; inv_leaf. Qed.

Lemma revoke_account_invitation_accounts self id :
  leaves is_account_key (revoke_account_invitation self id).
Proof. unfold revoke_account_invitation. leaves_go off_log_accounts; inv_leaf. Qed.

(** ** Redemption *)

(** The record may be redeemed for identifier [i] with digest [d] at time [t]. *)
Definition redeemable (r : AccountInvitationRecord) (i : IdentifierValue) (d : str) (t : N) : Prop :=
  inv_identifier r = i ∧ t < inv_expires_at r ∧ inv_consumed_at r = None ∧
  inv_revoked_at r = None ∧ inv_code_digest r = d.

(** The stored, redeemable invitation that digest [d] leads to. *)
Definition indexed_invitation (m : gmap str entry) (i : IdentifierValue) (d : str) (id : Uuid) : Prop :=
  (∃ t s, live t m (invitation_code_key d) = Some s ∧ uuid_parse s = Some id) ∧
  (∃ t v r now, live t m (invitation_key id) = Some v ∧ from_json v = Some r ∧ redeemable r i d now).

Lemma wp_validate_record r i d o w (Q : result error unit → world → Prop) :
  (∀ w', vw w' = vw w → Q (Err invalid_invitation) w') →
  (∀ w' t, vw w' = vw w → redeemable r i d t → Q (Ok tt) w') →
  wp (validate_invitation_record r i d) o w Q.
Proof.
  intros He Hok. unfold validate_invitation_record. case_bool_decide as Hi; [|by apply wp_fail, He].
  apply wp_bind, wp_now, wp_ensure; [|intros _; by apply He]. intros Hg. reflect.
  apply (Hok _ (clock o w)); [done|]. unfold ct_eq in *. reflect. split_and!; try done.
  - by destruct (inv_consumed_at r).
  - by destruct (inv_revoked_at r).
Qed.

Lemma wp_claim self i id d o w :
  wp (consume_account_invitation_claim self i id d) o w (λ r w', is_ok r = true →
    vw w' !! invitation_code_key d = None ∧ indexed_invitation (vw w) i d id).
Proof.
  apply wp_bind, wp_lift. destruct (require_canonical_identifier i); [|done].
  apply wp_bind, wp_ensure; [intros _|done].
  apply wp_bind, wp_get_view; [done|]. intros t1 w1 Hv1.
  apply wp_bind, wp_some_or; [|done]. intros s Hs. apply wp_bind, wp_some_or; [|done]. intros id' Hid.
  apply wp_bind, wp_ensure; [|done]. intros Heq. reflect. subst id'.
  apply wp_bind, wp_get_json_view; [done|]. intros t2 w2 Hv2. rewrite Hv1 in Hv2 |- *.
  destruct (live t2 (vw w) (invitation_key id)) as [v|] eqn:Hl; [destruct (from_json v) as [r|] eqn:Hj|];
    [|done|by apply wp_bind, wp_some_or].
  apply wp_bind, wp_some_or; [|done]. intros ? [= <-].
  apply wp_bind, wp_validate_record; [done|]. intros w3 now Hv3 Hr. apply wp_bind, wp_now. cbv zeta.
  apply wp_bind, wp_execute_view; [done|]. intros w4 t4 _ Hv4.
  assert (Hgone : vw w4 !! invitation_code_key d = None).
  { rewrite Hv4. simpl. by rewrite lookup_delete_eq. }
  apply wp_bind. eapply wp_mono.
  - pose proof (leaves_append (starts_with #"auth:invitation-code:") self #"account.invitation.consumed" None)
      as Hlv. apply (keeps_moves o (λ m, m !! invitation_code_key d = None) _ _ (Hlv ltac:(
        intros k [t ->]%starts_with_spec; done))); [|exact Hgone].
    intros m m' Ha Hm. rewrite Ha; [done|]. by apply starts_with_spec; eexists.
  - intros [ev|e] w5 Hw5; [|done]. apply wp_ret. intros _. split; [done|]. split; eauto 10.
Qed.

Lemma invitation_accepts i code o w id d :
  (validate_account_invitation i code o w).1 = Ok (id, d) →
  d = invitation_digest code ∧ indexed_invitation (vw w) i d id.
Proof.
  set (Q := λ (r : result error (Uuid * str)) (_ : world), r = Ok (id, d) →
    d = invitation_digest code ∧ indexed_invitation (vw w) i d id).
  change (wp (validate_account_invitation i code) o w Q).
  apply wp_bind, wp_lift. destruct (require_canonical_identifier i); [|done].
  apply wp_bind, wp_lift. destruct (validate_invitation_code code); [|done].
  apply wp_bind, wp_get_view; [done|]. intros t1 w1 Hv1.
  apply wp_bind, wp_some_or; [|done]. intros s Hs. apply wp_bind, wp_some_or; [|done]. intros id' Hid.
  apply wp_bind, wp_get_json_view; [done|]. intros t2 w2 Hv2. rewrite Hv1 in Hv2 |- *.
  destruct (live t2 (vw w) (invitation_key id')) as [v|] eqn:Hl; [destruct (from_json v) as [r|] eqn:Hj|];
    [|done|by apply wp_bind, wp_some_or].
  apply wp_bind, wp_some_or; [|done]. intros ? [= <-].
  apply wp_bind, wp_validate_record; [done|]. intros w3 now Hv3 Hr. apply wp_ret.
  intros [= -> <-]. split; [done|]. split; eauto 10.
Qed.

(** a code is accepted only through its index entry and for a stored
    invitation of exactly this identifier that is unexpired, unconsumed and
    unrevoked and carries the code's digest. *)
Theorem invitation_accepts_only_redeemable i code o w id d :
  (validate_account_invitation i code o w).1 = Ok (id, d) →
  d = invitation_digest code ∧ indexed_invitation (vw w) i d id.
Proof. apply invitation_accepts. Qed.

(** A digest without an index entry is refused. *)
Lemma no_index_refused m d i id : m !! invitation_code_key d = None → ¬ indexed_invitation m i d id.
Proof. intros Hn [(t & s & Hl & _) _]. by rewrite live_missing in Hl. Qed.

End Invitations.
