(* ===== verification/Accounts.v ===== *)
(** * Account creation (Store::create_user_with_passkey in src/src/store/users/records.rs)

    Creating an account writes the user record, its identifier and credential
    indexes, the audit events and, for an invited account, the consumption of the
    invitation in one atomic pipeline. *)

From S2P Require Import Prelude Sable Logic Demo Records Events Identifiers Users Invitations.

Section Accounts.
Context `{Env}.
Context `{!Serde AuthEvent, !Serde User, !Serde AccountInvitationRecord}.

Definition credential_id (p : Passkey) : str := b64url_encode (passkey_cred_id p).

(** The invitation a registration claims, re-checked and marked consumed. *)
Definition claim_invitation (identifier : IdentifierValue) (claim : option (Uuid * str)) :
    M error (option (AccountInvitationRecord * str)) :=
  match claim with
  | None => mret None
  | Some (invitation_id, digest) =>
      invitation ← account_invitation invitation_id;
      invitation ← some_or invalid_invitation invitation;
      indexed_id ← get (invitation_code_key digest);
      indexed_id ← some_or invalid_invitation indexed_id;
      indexed_id ← parse_uuid indexed_id;
      ensure (bool_decide (indexed_id = invitation_id)) invalid_invitation;;
      validate_invitation_record invitation identifier digest;;
      t ← now;
      mret (Some (set_consumed t invitation, digest))
  end.

Definition new_user (user_id : Uuid) (identifier : IdentifierValue) (profile : AccountProfile)
    (passkey : Passkey) (identifier_verified : bool) (created_at passkey_created_at : N) : User :=
  let is_email := kind_eqb (iv_kind identifier) Email in
  mkUser user_id (if is_email then iv_value identifier else []) (is_email && identifier_verified)
    profile
    [mkAccountIdentifier (iv_kind identifier) (iv_value identifier) identifier_verified
       (if identifier_verified then Some created_at else None) true created_at]
    1 [] created_at
    [mkStoredPasskey (credential_id passkey) #"Primary passkey" (passkey_counter passkey)
       passkey_created_at None passkey].

Definition creation_events (user_id : Uuid) (identifier : IdentifierValue)
    (identifier_verified invited : bool) : list (str * option Uuid) :=
  [(#"identity.created", Some user_id)]
  ++ (if identifier_verified then []
      else [(kind_as_str (iv_kind identifier) ++ #".verification.requested", Some user_id)])
  ++ (if invited then [(#"account.invitation.consumed", Some user_id)] else []).

Definition create_user_with_passkey (self : Store) (user_id : Uuid) (identifier : IdentifierValue)
    (profile : AccountProfile) (passkey : Passkey) (identifier_verified : bool)
    (invitation_claim : option (Uuid * str)) : M error User :=
  _ ← lift (require_canonical_identifier identifier);
  _ ← lift (validate_account_profile profile);
  existing ← user_by_identifier identifier;
  ensure (negb (is_some existing)) (EPolicy IdentifierAlreadyExists);;
  let id := credential_id passkey in
  taken ← get (credential_key id);
  ensure (negb (is_some taken)) (EPolicy CredentialAlreadyExists);;
  invitation ← claim_invitation identifier invitation_claim;
  created_at ← now;
  passkey_created_at ← now;
  let u := new_user user_id identifier profile passkey identifier_verified created_at
             passkey_created_at in
  events ← pending_events self
    (creation_events user_id identifier identifier_verified (is_some invitation));
  execute (([SET (user_key user_id) (to_json u); SET (identifier_key identifier) (uuid_show user_id);
             SET (credential_key id) (uuid_show user_id)]
            ++ (if kind_eqb (iv_kind identifier) Email
                then [SET (email_key (iv_value identifier)) (uuid_show user_id)] else []))
           ++ queue_events events
           ++ match invitation with
              | Some (record, digest) =>
                  [SET (invitation_key (inv_id record)) (to_json record);
                   DEL [invitation_code_key digest]]
              | None => []
              end);;
  mret u.

(** ** Correctness *)

Lemma claim_invitation_reads R `{!PreOrder R} i c : moves R (claim_invitation i c).
Proof.
  unfold claim_invitation, parse_uuid. moves_go; first [apply account_invitation_reads, _|apply validate_record_reads, _].
Qed.

Lemma create_user_extends self id i p pk v c :
  moves log_extends (create_user_with_passkey self id i p pk v c).
Proof.
  unfold create_user_with_passkey. log_go;
    first [ apply user_by_identifier_reads, _ | apply claim_invitation_reads, _
          | apply from_hi_commit_mid; [done|foreign|foreign|apply moves_ret, _] ].
Qed.

Lemma new_user_ok id i p pk v t t' :
  canonical (iv_kind i) (iv_value i) = Ok i → validate_account_profile p = Ok tt →
  user_ok (new_user id i p pk v t t').
Proof.
  intros Hc Hp. split; [|done|done|].
  - split; simpl.
    + done.
    + unfold MAX_IDENTIFIERS. lia.
    + rewrite andb_true_r. unfold ident_valid. simpl. rewrite (canonical_storable _ _ _ Hc). simpl.
      apply andb_true_iff. split; [by destruct v|].
      destruct (iv_kind i); [done|]. rewrite Hc. by apply bool_decide_eq_true.
    + apply NoDup_singleton.
    + done.
  - unfold new_user, sync_legacy_email, of_kind. simpl. unfold kind_eqb.
    destruct (iv_kind i); done.
Qed.

(** The contents after the commands that store a new user. *)
Lemma create_user_contents m id i p pk v t1 t2 t :
  accounts_ok m → m !! user_key id = None → user_ok (new_user id i p pk v t1 t2) →
  (∀ id' u', stored_user m id' u' → i ∉ linked u') →
  (∀ id' u', stored_user m id' u' → credential_id pk ∉ credentials u') →
  accounts_ok (exec_pipe t
    ([SET (user_key id) (to_json (new_user id i p pk v t1 t2));
      SET (identifier_key i) (uuid_show id); SET (credential_key (credential_id pk)) (uuid_show id)]
     ++ (if kind_eqb (iv_kind i) Email
         then [SET (email_key (iv_value i)) (uuid_show id)] else [])) m).2.
Proof.
  intros Hacc Hfresh Hok Hfree Hcfree. set (u := new_user _ _ _ _ _ _ _) in *.
  set (m' := (exec_pipe _ _ _).2).
  assert (Hm' : m' = <[credential_key (credential_id pk) := Entry (uuid_show id) None]>
    (exec_pipe t ([SET (user_key id) (to_json u); SET (identifier_key i) (uuid_show id)]
       ++ (if kind_eqb (iv_kind i) Email
           then [SET (email_key (iv_value i)) (uuid_show id)] else [])) m).2).
  { unfold m'. destruct (kind_eqb _ _); simpl; [|done]. rewrite insert_insert_ne; [done|]. key_neq. }
  pose proof (link_identifier m id i (to_json u) t) as Hlink. cbv zeta in Hlink.
  revert Hm' Hlink. generalize (exec_pipe t ([SET (user_key id) (to_json u);
    SET (identifier_key i) (uuid_show id)] ++ (if kind_eqb (iv_kind i) Email
    then [SET (email_key (iv_value i)) (uuid_show id)] else [])) m).2.
  intros m1 Hm' (F1 & F2 & F3 & F4 & F5 & F6 & F7). clearbody m'. subst m'.
  assert (Hres : ∀ j id', resolves m1 j id' →
    resolves (<[credential_key (credential_id pk) := Entry (uuid_show id) None]> m1) j id').
  { intros j id'. unfold resolves. by rewrite !lookup_insert_ne by key_neq. }
  assert (Hnot : ∀ (P : User → Prop) e, (∃ id' u', e = Entry (uuid_show id') None ∧
    stored_user m id' u' ∧ P u') → e ≠ Entry (uuid_show id) None).
  { intros P e (id' & u' & -> & (v' & u0 & Hk & _) & _) [= Heq%uuid_show_inj]. subst. congruence. }
  apply (accounts_put m _ id u); try done.
  - by rewrite lookup_insert_ne by key_neq.
  - intros id' Hne. rewrite lookup_insert_ne by key_neq. by apply F2.
  - intros j Hj. change (linked u) with [mkIdentifier (iv_kind i) (iv_value i)] in Hj.
    apply list_elem_of_singleton in Hj as ->. apply Hres. by destruct i.
  - intros c Hc. change (credentials u) with [credential_id pk] in Hc.
    apply list_elem_of_singleton in Hc as ->.
    unfold owns_credential. by rewrite lookup_insert_eq.
  - apply NoDup_singleton.
  - intros id' u' j _ Hu' Hj Hr. apply Hres, F5; [|done]. intros ->. by eapply Hfree.
  - intros id' u' c _ Hu' Hc Hown. unfold owns_credential in *.
    rewrite lookup_insert_ne, F3; [done|]. intros Heq%credential_key_inj. subst. by eapply Hcfree.
  - intros j e. rewrite lookup_insert_ne by key_neq. intros [[-> ->]|He]%F6.
    + left. split; [done|]. change (linked u) with [mkIdentifier (iv_kind i) (iv_value i)].
      destruct i. by left.
    + right. split; [done|]. apply (Hnot (λ u, j ∈ linked u)). by apply acc_identifier_index.
  - intros x e. rewrite lookup_insert_ne by key_neq. intros [[-> <-]|He]%F7.
    + left. split; [done|]. by left.
    + right. split; [done|]. apply (Hnot (λ u, mkIdentifier Email x ∈ linked u)). by apply acc_email_index.
  - intros c e. destruct (decide (c = credential_id pk)) as [->|Hne].
    + rewrite lookup_insert_eq. intros [= <-]. left. split; [done|]. by left.
    + rewrite lookup_insert_ne, F3 by (by intros Heq%credential_key_inj). intros He. right.
      split; [done|]. apply (Hnot (λ u, c ∈ credentials u)). by apply acc_credential_index.
Qed.

(** The contents after a committed creation. *)
Lemma creation_committed m id i p pk v t1 t2 evs inv (claim : option (Uuid * str)) t :
  accounts_ok m → m !! user_key id = None → user_ok (new_user id i p pk v t1 t2) →
  (∀ id' u', stored_user m id' u' → i ∉ linked u') →
  (∀ id' u', stored_user m id' u' → credential_id pk ∉ credentials u') →
  snd <$> inv = snd <$> claim →
  let u := new_user id i p pk v t1 t2 in
  let m' := (exec_pipe t (([SET (user_key id) (to_json u); SET (identifier_key i) (uuid_show id);
             SET (credential_key (credential_id pk)) (uuid_show id)]
            ++ (if kind_eqb (iv_kind i) Email
                then [SET (email_key (iv_value i)) (uuid_show id)] else []))
           ++ queue_events evs
           ++ match inv with
              | Some (record, digest) =>
                  [SET (invitation_key (inv_id record)) (to_json record);
                   DEL [invitation_code_key digest]]
              | None => []
              end) m).2 in
  accounts_ok m' ∧ m' !! user_key id = Some (Entry (to_json u) None) ∧
  ∀ iid d, claim = Some (iid, d) → m' !! invitation_code_key d = None.
Proof.
  intros Hacc Hfresh Hok Hfree Hcfree Hinv. cbv zeta. set (u := new_user _ _ _ _ _ _ _) in *.
  rewrite app_assoc, exec_pipe_app. set (m1 := (exec_pipe t (_ ++ queue_events evs) m).2).
  assert (Hm1 : accounts_ok m1) by (by apply accounts_queue, create_user_contents).
  assert (Hu1 : m1 !! user_key id = Some (Entry (to_json u) None)).
  { unfold m1. rewrite commit_agree by done. destruct (kind_eqb _ _); simpl; look; done. }
  split_and!.
  - eapply accounts_ok_agree; [|done]. apply untouched_agree. foreign.
  - rewrite exec_pipe_frame; [done|].
    destruct inv as [[r d]|]; unfold pipe_writes; simpl; [|apply not_elem_of_nil].
    rewrite !not_elem_of_cons. split_and!; [key_neq..|apply not_elem_of_nil].
  - intros iid d ->. destruct inv as [[r d']|]; simplify_eq/=. by rewrite lookup_delete_eq.
Qed.

Lemma wp_claim_invitation i claim o w
    (Q : result error (option (AccountInvitationRecord * str)) → world → Prop) :
  (∀ e w', vw w' = vw w → Q (Err e) w') →
  (∀ x w', vw w' = vw w → snd <$> x = snd <$> claim →
     (∀ iid d, claim = Some (iid, d) → indexed_invitation (vw w) i d iid) → Q (Ok x) w') →
  wp (claim_invitation i claim) o w Q.
Proof.
  intros He Hok. destruct claim as [[iid d]|]; [|by apply wp_ret, Hok].
  apply wp_bind, wp_get_json_view; [auto|]. intros t1 w1 Hv1.
  destruct (live t1 (vw w) (invitation_key iid)) as [v|] eqn:Hl; [destruct (from_json v) as [r|] eqn:Hj|].
  2:{ by apply He. }
  2:{ apply wp_bind, wp_some_or; [done|]. intros _. by apply He. }
  apply wp_bind, wp_some_or; [|done]. intros ? [= <-].
  apply wp_bind, wp_get_view; [intros; apply He; congruence|]. intros t2 w2 Hv2. rewrite Hv1 in Hv2 |- *.
  apply wp_bind, wp_some_or; [|intros _; by apply He]. intros s Hs.
  apply wp_bind, wp_some_or; [|intros _; by apply He]. intros id Hid.
  apply wp_bind, wp_ensure; [|intros _; by apply He]. intros Heq. reflect. subst id.
  apply wp_bind, wp_validate_record; [intros; apply He; congruence|]. intros w3 now Hv3 Hr.
  apply wp_bind, wp_now, wp_ret, Hok; [by unfold vw in *; simpl; congruence|done|].
  intros ? ? [= <- <-]. split; eauto 10.
Qed.

(** Everything creation promises, whatever the datastore does. *)
Lemma wp_create_user self id i p pk v claim o w :
  accounts_ok (vw w) → vw w !! user_key id = None →
  wp (create_user_with_passkey self id i p pk v claim) o w (λ r w', accounts_ok (vw w') ∧
    ∀ u, r = Ok u →
      stored_user (vw w') id u ∧ linked u = [i] ∧ credentials u = [credential_id pk] ∧
      ∀ iid d, claim = Some (iid, d) →
        indexed_invitation (vw w) i d iid ∧ vw w' !! invitation_code_key d = None).
Proof.
  intros Hacc Hfresh. apply wp_bind, wp_lift.
  destruct (require_canonical_identifier i) as [[]|] eqn:Hcan; [|done].
  apply require_canonical_ok in Hcan. apply wp_bind, wp_lift.
  destruct (validate_account_profile p) as [[]|] eqn:Hp; [|done].
  apply wp_bind, wp_user_by_identifier; [done|by intros ? ->| |].
  2:{ intros id1 u1 w1 Hv1 _ _. apply wp_bind, wp_ensure; [done|]. intros _. by rewrite Hv1. }
  intros w1 Hv1 Hfree. apply wp_bind, wp_ensure; [intros _|done]. cbv zeta.
  apply wp_bind, wp_get_view; [intros ? -> ?; by rewrite Hv1|]. intros t2 w2 Hv2. rewrite Hv1 in Hv2 |- *.
  apply wp_bind, wp_ensure; [intros Htaken|intros _; by rewrite Hv2]. reflect.
  assert (Hcfree : ∀ id' u', stored_user (vw w) id' u' → credential_id pk ∉ credentials u').
  { intros id' u' Hu' Hin. pose proof (acc_credential _ Hacc _ _ _ Hu' Hin) as Hown.
    by rewrite (live_persistent t2 _ _ _ Hown) in Htaken. }
  apply wp_bind, wp_claim_invitation; [intros e w3 ->; by rewrite Hv2|].
  intros inv w3 Hv3 Hinv Hidx. rewrite Hv2 in Hv3, Hidx.
  apply wp_bind, wp_now, wp_bind, wp_now. set (u := new_user _ _ _ _ _ _ _).
  assert (Hnew : user_ok u) by (by apply new_user_ok).
  apply wp_bind, (wp_reads _ _ _ _ (pending_events_reads _ _)).
  intros [evs|e] w4 Hv4; assert (Hv : vw w4 = vw w) by (rewrite Hv4; exact Hv3); [|by rewrite Hv].
  pose proof (λ t, creation_committed (vw w) id i p pk v (clock o w3) (clock o (tick w3)) evs inv
    claim t Hacc Hfresh Hnew Hfree Hcfree Hinv) as Hc. cbv zeta in Hc.
  apply wp_bind, wp_execute_view; rewrite Hv.
  - intros w' t _ [->| ->]; [done|]. split; [apply Hc|done].
  - intros w' t _ Hw'. apply wp_ret. rewrite Hw'. destruct (Hc t) as (Ha & Hu & Hd). split; [done|].
    intros ? [= <-]. split_and!; [|unfold linked; by destruct i|done|by eauto].
    exists (to_json u), u. split_and!; [done|apply from_to_json|by apply user_ok_normalize].
Qed.

Lemma found_by_identifier i id u o w :
  reliable o → accounts_ok (vw w) → stored_user (vw w) id u → i ∈ linked u →
  (user_by_identifier i o w).1 = Ok (Some u).
Proof.
  intros Hr Hacc Hu Hi.
  apply (wp_user_by_identifier i o w (λ r _, r = Ok (Some u))); [done|..].
  - done.
  - intros w' _ Hno. by destruct (Hno id u Hu).
  - intros id' u' w' _ Hu' Hi'. rewrite (linked_unique _ _ _ _ _ i Hacc Hu' Hu Hi' Hi) in Hu'.
    by rewrite (stored_user_inj _ _ _ _ Hu Hu').
Qed.

(** a successful registration under a fresh user id keeps the account invariant, the new account is
    found under its identifier, and a claimed invitation was redeemable for that
    identifier before and has lost its code index after: account and invitation
    change in one commit. *)
Theorem create_user_sound self id i p pk v claim o w u w' :
  accounts_ok (vw w) → vw w !! user_key id = None →
  create_user_with_passkey self id i p pk v claim o w = (Ok u, w') →
  accounts_ok (vw w') ∧ (∀ o', reliable o' → (user_by_identifier i o' w').1 = Ok (Some u)) ∧
  ∀ iid d, claim = Some (iid, d) →
    indexed_invitation (vw w) i d iid ∧ vw w' !! invitation_code_key d = None.
Proof.
  intros Hacc Hfresh Hrun. pose proof (wp_create_user self id i p pk v claim o w Hacc Hfresh) as Hwp.
  unfold wp in Hwp. rewrite Hrun in Hwp. destruct Hwp as [Hacc' Hok].
  destruct (Hok u eq_refl) as (Hu & Hl & _ & Hinv). split_and!; [done| |done].
  intros o' Hr. apply (found_by_identifier i id u); [done..|]. rewrite Hl. by left.
Qed.
End Accounts.

(** ** Witnesses *)

Import DemoEnv.

#[export] Program Instance codec_kind : Codec IdentifierKind :=
  codec_iso (A:=bool) (λ k : IdentifierKind, match k with Email => true | Phone => false end)
    (λ b, Some (if b then Email else Phone)) _.
Next Obligation. by intros []. Qed.

#[export] Program Instance codec_identifier : Codec IdentifierValue :=
  codec_iso (λ i : IdentifierValue, (iv_kind i, iv_value i)) (λ '(k, v), Some (mkIdentifier k v)) _.
Next Obligation. by intros []. Qed.

#[export] Program Instance codec_account_identifier : Codec AccountIdentifier :=
  codec_iso (λ i : AccountIdentifier, (ai_kind i, (ai_value i, (ai_verified i, (ai_verified_at i,
    (ai_primary i, ai_created_at i))))))
    (λ '(a, (b, (c, (d, (e, f))))), Some (mkAccountIdentifier a b c d e f)) _.
Next Obligation. by intros []. Qed.

#[export] Program Instance codec_profile : Codec AccountProfile :=
  codec_iso (λ p : AccountProfile, (given_name p, (family_name p, display_name p)))
    (λ '(a, (b, c)), Some (mkProfile a b c)) _.
Next Obligation. by intros []. Qed.

#[export] Program Instance codec_recovery : Codec RecoveryCodeRecord :=
  codec_iso (λ r : RecoveryCodeRecord, (rc_digest r, rc_created_at r))
    (λ '(a, b), Some (mkRecoveryCode a b)) _.
Next Obligation. by intros []. Qed.

#[export] Program Instance codec_stored_passkey : Codec StoredPasskey :=
  codec_iso (A:=(str * (str * (N * (N * (option N * (list N * N)))))))
    (λ p : StoredPasskey, (sp_id p, (sp_label p, (sp_counter p, (sp_created_at p,
    (sp_last_used_at p, sp_passkey p))))))
    (λ '(a, (b, (c, (d, (e, f))))), Some (mkStoredPasskey a b c d e f)) _.
Next Obligation. by intros []. Qed.

#[export] Program Instance codec_user : Codec User :=
  codec_iso (λ u : User, (u_id u, (u_email u, (u_email_verified u, (u_profile u, (u_identifiers u,
    (u_session_version u, (u_recovery_codes u, (u_created_at u, u_passkeys u)))))))))
    (λ '(a, (b, (c, (d, (e, (f, (g, (h, i)))))))), Some (mkUser a b c d e f g h i)) _.
Next Obligation. by intros []. Qed.

#[export] Program Instance codec_invitation : Codec AccountInvitationRecord :=
  codec_iso (λ r : AccountInvitationRecord, (inv_id r, (inv_identifier r, (inv_code_digest r,
    (inv_created_by r, (inv_created_at r, (inv_expires_at r, (inv_consumed_at r, inv_revoked_at r))))))))
    (λ '(a, (b, (c, (d, (e, (f, (g, h))))))), Some (mkInvitation a b c d e f g h)) _.
Next Obligation. by intros []. Qed.

Lemma demo_accounts_empty : accounts_ok ∅.
Proof.
  assert (Hno : ∀ id u, ¬ stored_user ∅ id u) by by intros id u (v & u0 & Hk & _).
  split; [done|..|done|done|done]; intros *; intros Hs; by apply Hno in Hs.
Qed.

Definition demo_store : Store := mkStore #"demo".
Definition demo_email : IdentifierValue := mkIdentifier Email #"ada@example.org".
Definition demo_phone : IdentifierValue := mkIdentifier Phone #"+491701234567".
Definition demo_profile : AccountProfile := mkProfile None None None.
Definition demo_id : Uuid := demo_uuid_of 42.
Definition demo_passkey : @Passkey (@env_webauthn demo_env) := ([1; 2; 3], 5).

(** The world after one registration. *)
Abbreviation demo_created :=
  (create_user_with_passkey demo_store demo_id demo_email demo_profile demo_passkey true None
    demo_oracle (demo_world [])).
Definition demo_user : User :=
  new_user demo_id demo_email demo_profile demo_passkey true 1000 1001.

Lemma demo_created_ok : demo_created = (Ok demo_user, demo_created.2).
Proof. apply run_ok. eval_eq. Qed.

Lemma create_user_sound_witness :
  accounts_ok (vw demo_created.2) ∧
  (user_by_identifier demo_email demo_oracle demo_created.2).1 = Ok (Some demo_user).
Proof.
  destruct (create_user_sound demo_store demo_id demo_email demo_profile demo_passkey true None
    demo_oracle (demo_world []) demo_user demo_created.2) as (Hacc & Hfind & _);
    [exact demo_accounts_empty|done|exact demo_created_ok|].
  split; [exact Hacc|]. apply Hfind. exact demo_reliable.
Defined.

Lemma demo_accounts_ok : accounts_ok (vw demo_created.2).
Proof. exact (proj1 (wp_create_user demo_store demo_id demo_email demo_profile demo_passkey true None
  demo_oracle (demo_world []) demo_accounts_empty eq_refl)). Qed.

Lemma demo_stored : stored_user (vw demo_created.2) demo_id demo_user.
Proof. exists (to_json demo_user), demo_user. split_and!; eval_eq. Qed.

Lemma normalize_idempotent_witness :
  normalize_and_validate demo_user = Ok demo_user ∧ user_ok demo_user.
Proof. split; [eval_eq|]. apply (normalize_idempotent demo_user demo_user). eval_eq. Defined.

Lemma accounts_unique_witness :
  accounts_ok (vw demo_created.2) ∧ demo_id = demo_id ∧ demo_user = demo_user.
Proof.
  split; [exact demo_accounts_ok|].
  apply (accounts_unique (vw demo_created.2) demo_id demo_user demo_id demo_user);
    [exact demo_accounts_ok|exact demo_stored|exact demo_stored|].
  left. exists demo_email. split; by left.
Defined.

Lemma user_by_identifier_exact_witness :
  accounts_ok (vw demo_created.2) ∧
  match (user_by_identifier demo_email demo_oracle demo_created.2).1 with
  | Ok (Some u) => stored_user (vw demo_created.2) (u_id u) u ∧ demo_email ∈ linked u
  | Ok None => ∀ id u, stored_user (vw demo_created.2) id u → demo_email ∉ linked u
  | Err e => e = EDb ∧ ¬ reliable demo_oracle
  end.
Proof.
  split; [exact demo_accounts_ok|].
  exact (user_by_identifier_exact demo_email demo_oracle demo_created.2 demo_accounts_ok).
Defined.

Lemma remove_identifier_safe_witness :
  accounts_ok (vw demo_created.2) ∧
  match (remove_identifier demo_store demo_id demo_email demo_oracle demo_created.2).1 with
  | Ok u => identifiers_ok (u_identifiers u) ∧ demo_email ∉ linked u
  | Err e => e ≠ EPanic
  end.
Proof.
  split; [exact demo_accounts_ok|].
  apply (remove_identifier_safe demo_store demo_id demo_email demo_oracle demo_created.2).
  exact demo_accounts_ok.
Defined.

(** An invitation is issued and validated. *)
Abbreviation demo_invited :=
  (create_account_invitation demo_store demo_email demo_id 600 demo_oracle (demo_world [])).
Definition demo_code : str := match demo_invited.1 with Ok (_, code) => code | Err _ => [] end.

Definition demo_validated : Uuid * str :=
  match (validate_account_invitation demo_email demo_code demo_oracle demo_invited.2).1 with
  | Ok c => c
  | Err _ => (demo_id, [])
  end.

Lemma invitation_accepts_witness :
  demo_validated.2 = invitation_digest demo_code ∧
  indexed_invitation (vw demo_invited.2) demo_email demo_validated.2 demo_validated.1.
Proof.
  apply (invitation_accepts_only_redeemable demo_email demo_code demo_oracle demo_invited.2).
  eval_eq.
Defined.

Abbreviation demo_consumed :=
  (consume_account_invitation demo_store demo_email demo_code demo_oracle demo_invited.2).

