(* ===== verification/Sessions.v ===== *)
(** * Browser sessions (src/src/store/sessions.rs, the touch writer of store.rs)

    Session records with an absolute and an idle expiry, revocation through the
    account's session version and through its passkeys, and the write-behind
    activity timestamps.  [session] is the authentication decision every
    authenticated request rests on. *)

From S2P Require Import Prelude Sable Logic Demo Records Events Identifiers Users Invitations Accounts.

Definition MAX_SESSION_TOUCH_INTERVAL_SECONDS : N := 5 * 60.
Definition SESSION_TOUCHES_PER_IDLE_WINDOW : N := 6.
Definition MAX_PENDING_SESSION_TOUCHES : N := 8192.

Definition session_token_digest `{ExtCrypto} (token : str) : str := hex_encode (sha256 (bytes token)).
Definition session_key `{ExtCrypto} (token : str) : str := #"auth:session:" ++ session_token_digest token.
Definition session_activity_key `{ExtCrypto} (token : str) : str :=
  #"auth:session-activity:" ++ session_token_digest token.

Record Session := mkSession {
  s_id : Uuid;
  s_user_id : Uuid;
  s_auth_method : str;
  s_current_credential_id : option str;
  s_session_version : N;
  s_created_at : N;
  s_step_up_at : option N;
  s_last_seen_at : N;
  s_absolute_expires_at : N
}.

Definition set_last_seen (t : N) (s : Session) : Session :=
  mkSession (s_id s) (s_user_id s) (s_auth_method s) (s_current_credential_id s)
    (s_session_version s) (s_created_at s) (s_step_up_at s) t (s_absolute_expires_at s).

Inductive SessionOrigin :=
  | PasskeyOrigin (credential_id : str)
  | DeviceOrigin (credential_id : str)
  | AgentOrigin.

Definition origin_auth_method (o : SessionOrigin) : str :=
  match o with
  | PasskeyOrigin _ => #"passkey"
  | DeviceOrigin _ => #"device"
  | AgentOrigin => #"agent"
  end.

Definition origin_token_prefix (o : SessionOrigin) : str :=
  match o with
  | DeviceOrigin _ => #"rdt_"
  | PasskeyOrigin _ | AgentOrigin => []
  end.

Definition origin_credential_id (o : SessionOrigin) : option str :=
  match o with
  | PasskeyOrigin c | DeviceOrigin c => Some c
  | AgentOrigin => None
  end.

Inductive SessionVerdict := Valid | AbsoluteExpiry | IdleExpiry | VersionRevoked | CredentialRevoked.

Definition session_expired (session : Session) (idle_seconds now : N) : bool :=
  (s_absolute_expires_at session <=? now)
  || (saturating_add (s_last_seen_at session) idle_seconds <=? now).

(** [u64::clamp(lo, hi)] *)
Definition clamp (lo hi n : N) : N := if n <? lo then lo else if hi <? n then hi else n.

Definition session_touch_interval (idle_seconds : N) : N :=
  clamp 1 MAX_SESSION_TOUCH_INTERVAL_SECONDS (idle_seconds / SESSION_TOUCHES_PER_IDLE_WINDOW).

Definition session_touch_due (session : Session) (idle_seconds now : N) : bool :=
  session_touch_interval idle_seconds <=? saturating_sub now (s_last_seen_at session).

Definition apply_session_activity (session : Session) (activity : option N) (now : N) : Session :=
  match activity with
  | Some a => if a <=? now then set_last_seen (N.max (s_last_seen_at session) a) session else session
  | None => session
  end.

Definition session_verdict (session : Session) (account_session_version : N)
    (credential_ids : list str) (idle_seconds now : N) : SessionVerdict :=
  if s_absolute_expires_at session <=? now then AbsoluteExpiry
  else if saturating_add (s_last_seen_at session) idle_seconds <=? now then IdleExpiry
  else if negb (s_session_version session =? account_session_version) then VersionRevoked
  else match s_current_credential_id session with
       | Some c => if bool_decide (c ∈ credential_ids) then Valid else CredentialRevoked
       | None => Valid
       end.

(** A message to the touch writer. *)
Record SessionTouch := mkTouch { touch_key : str; touch_observed_at : N; touch_ttl_seconds : N }.

Section Sessions.
Context `{Env}.
Context `{!Serde AuthEvent, !Serde User, !Serde Session}.

Definition prepare_session (u : User) (origin : SessionOrigin) (absolute_seconds : N) :
    M error (str * Session) :=
  raw ← random_bytes 32;
  let token := origin_token_prefix origin ++ b64url_encode raw in
  current ← now;
  id ← new_v4;
  let auth_method := origin_auth_method origin in
  mret (token, mkSession id (u_id u) auth_method (origin_credential_id origin) (u_session_version u)
    current
    (if bool_decide (auth_method = #"passkey") || bool_decide (auth_method = #"device")
     then Some current else None)
    current (saturating_add current absolute_seconds)).

Definition create_session (self : Store) (u : User) (origin : SessionOrigin) (absolute_seconds : N) :
    M error (str * Session) :=
  '(token, session) ← prepare_session u origin absolute_seconds;
  set_json_ex (session_key token) session absolute_seconds;;
  append_event_within_snapshot self #"session.created" (Some (u_id u));;
  mret (token, session).

Definition delete_session_records (key activity_key : str) : M error unit :=
  execute [DEL [key]; DEL [activity_key]].

Definition delete_session (token : str) : M error unit :=
  delete_session_records (session_key token) (session_activity_key token).

(** [a - b] on [u64], which must not underflow. *)
Definition exact_sub (a b : N) : M error N := some_or EPanic (checked_sub a b).

(** Decoding of the [MGET] reply as [(Option<String>, Option<u64>)]. *)
Definition decode_session_reply (vs : list (option str)) : result error (option str * option N) :=
  match vs with
  | [session_json; activity] =>
      match activity with
      | None => Ok (session_json, None)
      | Some a => match parse_u64 a with
                  | Some n => Ok (session_json, Some n)
                  | None => Err EDb
                  end
      end
  | _ => Err EDb
  end.

(** The result, and the message [try_send]s to the touch writer. *)
Definition session (token : str) (idle_seconds : N) :
    M error (option (Session * User) * list SessionTouch) :=
  if (len token <? 32) || (256 <? len token) then mret (None, [])
  else
    let key := session_key token in
    let activity_key := session_activity_key token in
    vs ← mget [key; activity_key];
    '(session_json, activity) ← lift (decode_session_reply vs);
    match session_json with
    | None => mret (None, [])
    | Some json =>
        s ← some_or EDecode (from_json json);
        current ← now;
        let s := apply_session_activity s activity current in
        if session_expired s idle_seconds current then
          delete_session_records key activity_key;; mret (None, [])
        else
          account ← user (s_user_id s);
          match account with
          | None => delete_session_records key activity_key;; mret (None, [])
          | Some u =>
              match session_verdict s (u_session_version u) (sp_id <$> u_passkeys u) idle_seconds current with
              | Valid =>
                  let touch_due := session_touch_due s idle_seconds current in
                  let s := set_last_seen current s in
                  touches ← (if touch_due : bool then
                               ttl ← exact_sub (s_absolute_expires_at s) current;
                               mret [mkTouch activity_key current ttl]
                             else mret []);
                  mret (Some (s, u), touches)
              | _ => delete_session_records key activity_key;; mret (None, [])
              end
          end
    end.

Definition stepped_up (current : N) (credential_id : str) (s : Session) : Session :=
  mkSession (s_id s) (s_user_id s) #"passkey" (Some credential_id) (s_session_version s)
    (s_created_at s) (Some current) current (s_absolute_expires_at s).

Definition mark_session_step_up (self : Store) (token : str) (expected_session_id : Uuid)
    (credential_id : str) : M error Session :=
  let key := session_key token in
  found ← get_json key;
  s ← some_or (EBail "session is missing or changed")
        (match found with
         | Some s => if bool_decide (s_id s = expected_session_id) then Some s else None
         | None => None
         end);
  current ← now;
  if s_absolute_expires_at s <=? current then
    store_delete key;; fail (EBail "session has expired")
  else
    let s := stepped_up current credential_id s in
    ttl ← exact_sub (s_absolute_expires_at s) current;
    execute [SETEX key (to_json s) ttl; DEL [session_activity_key token]];;
    append_event_within_snapshot self #"session.step_up.completed" (Some (s_user_id s));;
    mret s.

Definition revoke_all_sessions (self : Store) (user_id : Uuid) : M error User :=
  found ← user user_id;
  u ← some_or (EBail "account is missing") found;
  let u := set_session_version (saturating_add (u_session_version u) 1) u in
  persist_user_with_event self u #"session.revoked_all";;
  mret u.

(** ** The authentication decision *)

(** What a granted request has established: the record [r] read from contents
    [m] at server time [ts], its activity timestamp, the clock reading [now], and
    the session [s] and account [u] handed to the request. *)
Record granted (m : gmap str entry) (token : str) (idle ts now : N) (r : Session)
    (activity : option N) (s : Session) (u : User) : Prop := {
  gr_length : 32 ≤ len token ≤ 256;
  gr_record : ∃ v, live ts m (session_key token) = Some v ∧ from_json v = Some r;
  gr_activity : activity = live ts m (session_activity_key token) ≫= parse_u64;
  gr_session : s = set_last_seen now (apply_session_activity r activity now);
  gr_absolute : now < s_absolute_expires_at r;
  gr_idle : now < saturating_add (s_last_seen_at (apply_session_activity r activity now)) idle;
  gr_user : stored_user m (s_user_id r) u;
  gr_version : s_session_version r = u_session_version u;
  gr_credential : ∀ c, s_current_credential_id r = Some c → c ∈ credentials u
}.

Lemma activity_fields r a now :
  let s := apply_session_activity r a now in
  s_id s = s_id r ∧ s_user_id s = s_user_id r ∧ s_auth_method s = s_auth_method r ∧
  s_current_credential_id s = s_current_credential_id r ∧
  s_session_version s = s_session_version r ∧ s_step_up_at s = s_step_up_at r ∧
  s_absolute_expires_at s = s_absolute_expires_at r.
Proof. unfold apply_session_activity. destruct a as [a|]; [|done]. by destruct (a <=? now). Qed.

Lemma wp_delete_session_records key akey o w (Q : result error unit → world → Prop) :
  (∀ w', vw w' = vw w ∨ vw w' = delete akey (delete key (vw w)) → ¬ reliable o → Q (Err EDb) w') →
  (∀ w', vw w' = delete akey (delete key (vw w)) → Q (Ok tt) w') →
  wp (delete_session_records key akey) o w Q.
Proof.
  intros Hf Hok. apply wp_execute_view; simpl.
  - intros w' t [Hr|?] Hv; [|done]. by apply Hf.
  - intros w' t _ Hv. by apply Hok.
Qed.

(** The token has no live record, or its record is gone now. *)
Definition not_live (m m' : gmap str entry) (token : str) : Prop :=
  len token < 32 ∨ 256 < len token ∨ (∃ ts, live ts m (session_key token) = None) ∨
  m' !! session_key token = None.

Lemma wp_session token idle o w
    (Q : result error (option (Session * User) * list SessionTouch) → world → Prop) :
  accounts_ok (vw w) →
  (∀ e w', e ≠ EPanic → Q (Err e) w') →
  (∀ w', not_live (vw w) (vw w') token → Q (Ok (None, [])) w') →
  (∀ r act s u now ts touches w', vw w' = vw w →
     granted (vw w) token idle ts now r act s u →
     (∀ t, t ∈ touches → touch_key t = session_activity_key token ∧ touch_observed_at t = now ∧
        1 ≤ touch_ttl_seconds t ∧ now + touch_ttl_seconds t = s_absolute_expires_at s) →
     Q (Ok (Some (s, u), touches)) w') →
  wp (session token idle) o w Q.
Proof.
  intros Hacc He Hnone Hsome. unfold session.
  destruct ((len token <? 32) || (256 <? len token)) eqn:Hlen.
  { apply wp_ret, Hnone. unfold not_live. lia. }
  cbv zeta. apply wp_bind, wp_mget; [intros; by apply He|]. intros d Hd.
  set (ts := trip_time o w). set (w1 := after_trip w d) in *.
  assert (Hv1 : vw w1 = vw w) by exact Hd. rewrite !fmap_cons. cbn [fmap list_fmap].
  apply wp_bind, wp_lift. unfold decode_session_reply.
  destruct (match live ts (vw w) (session_activity_key token) with
            | Some a => _ | None => _ end) as [[sj act]|e] eqn:Hdec.
  2:{ apply He. by repeat case_match; simplify_eq. }
  assert (Hsj : sj = live ts (vw w) (session_key token) ∧
                act = live ts (vw w) (session_activity_key token) ≫= parse_u64).
  { destruct (live ts (vw w) (session_activity_key token)) as [a|]; simpl; [|by simplify_eq].
    destruct (parse_u64 a); by simplify_eq. }
  destruct Hsj as [-> ->]. clear Hdec. set (act := live ts (vw w) _ ≫= parse_u64) in *.
  destruct (live ts (vw w) (session_key token)) as [v|] eqn:Hl.
  2:{ apply wp_ret, Hnone. unfold not_live. eauto. }
  apply wp_bind, wp_some_or; [|intros _; by apply He]. intros r Hr. apply wp_bind, wp_now.
  set (now := clock o w1). destruct (activity_fields r act now) as (_ & Fu & _ & Fc & Fv & _ & Fa).
  set (s := apply_session_activity r act now) in *.
  assert (Hdel : ∀ w2, vw w2 = vw w → wp (delete_session_records (session_key token)
    (session_activity_key token);; mret (None, [])) o w2 Q).
  { intros w2 Hv2. apply wp_bind, wp_delete_session_records; [intros; by apply He|].
    intros w3 Hv3. apply wp_ret, Hnone. do 3 right. rewrite Hv3.
    rewrite lookup_delete_ne by key_neq. by rewrite lookup_delete_eq. }
  destruct (session_expired s idle now) eqn:Hexp; [by apply Hdel|].
  assert (Hvt : vw (tick w1) = vw w) by exact Hd.
  apply wp_bind, wp_user; rewrite ?Hvt; [done|intros; by apply He|intros w2 Hv2 _; by apply Hdel|].
  intros u w2 Hv2 Hu.
  destruct (session_verdict _ _ _ _ _) eqn:Hver; [|by apply Hdel..].
  unfold session_expired in Hexp. reflect.
  assert (Hgr : granted (vw w) token idle ts now r act (set_last_seen now s) u).
  { unfold session_verdict in Hver. repeat case_match; try done; reflect.
    all: split; [lia|by eauto|done|done|by rewrite <- Fa|done|by rewrite <- Fu|congruence|];
      intros c; rewrite <- Fc; intros; by simplify_eq. }
  assert (Habs : now < s_absolute_expires_at r) by (by destruct Hgr).
  destruct (session_touch_due s idle now).
  - apply wp_bind, wp_bind, wp_some_or.
    2:{ unfold checked_sub. simpl. intros Hc. case_match; [done|]. reflect. lia. }
    intros ttl Httl. apply wp_ret, wp_ret. eapply Hsome; [done|exact Hgr|].
    intros t ->%list_elem_of_singleton. simpl in *. unfold checked_sub in Httl.
    case_match; [|done]. simplify_eq. reflect. split_and!; try done; lia.
  - apply wp_bind, wp_ret, wp_ret. eapply Hsome; [done|exact Hgr|]. by intros t ?%not_elem_of_nil.
Qed.

(** ** Frames *)

Lemma session_leaves P token idle :
  (∀ d, P (#"auth:session:" ++ d) = false) → (∀ d, P (#"auth:session-activity:" ++ d) = false) →
  leaves P (session token idle).
Proof.
  intros H1 H2. unfold leaves, session, delete_session_records, exact_sub, mget.
  assert (Hdel : leaves P (execute [DEL [session_key token]; DEL [session_activity_key token]])).
  { apply leaves_execute. unfold untouched. simpl. unfold session_key, session_activity_key.
    by rewrite H1, H2. }
  moves_go; first [exact Hdel|apply leaves_query; done|apply user_reads, _].
Qed.

Lemma prepare_session_reads R `{!PreOrder R} u og n : moves R (prepare_session u og n).
Proof. unfold prepare_session. moves_go. Qed.

Lemma create_session_extends self u og n : moves log_extends (create_session self u og n).
Proof.
  unfold create_session, set_json_ex, append_event_within_snapshot. log_go. apply prepare_session_reads, _.
Qed.

Lemma create_session_accounts self u og n : leaves is_account_key (create_session self u og n).
Proof.
  unfold create_session, set_json_ex, append_event_within_snapshot.
  leaves_go account_key_log. apply prepare_session_reads, _.
Qed.

Lemma session_extends token idle : moves log_extends (session token idle).
Proof. eapply moves_mono; [apply log_extends_agree|]. by apply session_leaves. Qed.

Lemma session_accounts token idle : leaves is_account_key (session token idle).
Proof. by apply session_leaves. Qed.

Lemma delete_session_extends token : moves log_extends (delete_session token).
Proof. unfold delete_session, delete_session_records. log_go. Qed.

Lemma delete_session_accounts token : leaves is_account_key (delete_session token).
Proof. unfold delete_session, delete_session_records. leaves_go account_key_log. Qed.

Lemma mark_session_step_up_extends self token id c :
  moves log_extends (mark_session_step_up self token id c).
Proof.
  unfold mark_session_step_up, append_event_within_snapshot, exact_sub, store_delete. log_go.
Qed.

Lemma mark_session_step_up_accounts self token id c :
  leaves is_account_key (mark_session_step_up self token id c).
Proof.
  unfold mark_session_step_up, append_event_within_snapshot, exact_sub, store_delete.
  leaves_go account_key_log.
Qed.

Lemma revoke_all_sessions_extends self id : moves log_extends (revoke_all_sessions self id).
Proof.
  unfold revoke_all_sessions.
  log_go; first [apply user_reads, _|apply persist_user_with_event_extends].
Qed.

(** ** Revocation *)

Lemma wp_revoke_all_sessions self id o w :
  accounts_ok (vw w) →
  wp (revoke_all_sessions self id) o w (λ r w', accounts_ok (vw w') ∧
    ∀ u', r = Ok u' → stored_user (vw w') id u' ∧
      ∃ u, stored_user (vw w) id u ∧ u_session_version u' = saturating_add (u_session_version u) 1).
Proof.
  intros Hacc. apply wp_bind, wp_user; [done|by intros ? ->|intros w1 Hv1 _|intros u w1 Hv1 Hu].
  { apply wp_bind, wp_some_or; [done|]. intros _. by rewrite Hv1. }
  apply wp_bind, wp_some_or; [|done]. intros ? [= <-].
  pose proof (stored_user_ok _ _ _ Hu) as Hok. eapply wp_mono.
  - apply (wp_persist_with_event self id u); rewrite ?Hv1; try done.
    by apply (user_ok_update u); try done; apply Hok.
  - intros r w' [Hacc' Hst]. split; [done|]. intros u' Hr. destruct (Hst u' Hr) as [-> Hu'].
    split; [done|]. exists u. done.
Qed.

Lemma revoke_all_sessions_accounts self id o : keeps o accounts_ok (revoke_all_sessions self id).
Proof. intros w Hacc. eapply wp_mono; [by apply wp_revoke_all_sessions|]. by intros r w' [? _]. Qed.

(** A record that no grant can come from is refused on every request. *)
Lemma session_refused token idle o w e r :
  accounts_ok (vw w) → vw w !! session_key token = Some e → from_json (e_val e) = Some r →
  (∀ u, stored_user (vw w) (s_user_id r) u → s_session_version r = u_session_version u →
     (∀ c, s_current_credential_id r = Some c → c ∈ credentials u) → False) →
  ∀ x touches, (session token idle o w).1 ≠ Ok (Some x, touches).
Proof.
  intros Hacc Hk Hr Hno x touches.
  apply (wp_session token idle o w (λ res _, res ≠ Ok (Some x, touches))); [done|done|done|].
  intros r' act s u now ts tl w' _ Hg. exfalso.
  destruct (gr_record _ _ _ _ _ _ _ _ _ Hg) as (v & Hl & Hv).
  apply live_Some in Hl as [dl Hl]. rewrite Hk in Hl. simplify_eq. simpl in Hr.
  rewrite Hr in Hv. simplify_eq.
  by apply (Hno u (gr_user _ _ _ _ _ _ _ _ _ Hg) (gr_version _ _ _ _ _ _ _ _ _ Hg)
              (gr_credential _ _ _ _ _ _ _ _ _ Hg)).
Qed.

(** ** Properties *)



(** Signing out is final: once a session's record is deleted, no request with
    that token is granted, whatever the write-behind activity writer still
    stores. *)
Theorem delete_session_ends token o w w' idle o2 :
  accounts_ok (vw w) → delete_session token o w = (Ok tt, w') →
  vw w' !! session_key token = None ∧
  ∀ x touches, (session token idle o2 w').1 ≠ Ok (Some x, touches).
Proof.
  intros Hacc Hrun.
  assert (Hdel : vw w' !! session_key token = None).
  { assert (Hwp : wp (delete_session token) o w (λ r w', r = Ok tt → vw w' !! session_key token = None)).
    { apply wp_delete_session_records; [done|]. intros w1 -> _. look. done. }
    unfold wp in Hwp. rewrite Hrun in Hwp. by apply Hwp. }
  split; [done|]. intros x touches.
  assert (Hacc' : accounts_ok (vw w')).
  { pose proof (delete_session_accounts token o w) as Ha. rewrite Hrun in Ha.
    by eapply accounts_ok_agree. }
  apply (wp_session token idle o2 w' (λ res _, res ≠ Ok (Some x, touches))); [done|done|done|].
  intros r act s u now ts tl w2 _ Hg. destruct (gr_record _ _ _ _ _ _ _ _ _ Hg) as (v & Hl & _).
  by rewrite live_missing in Hl.
Qed.

(** A live, unexpired record of the account's current version, without an
    activity entry, is accepted. *)
Lemma session_accepts token idle o w s id u deadline :
  reliable o → accounts_ok (vw w) →
  vw w !! session_key token = Some (Entry (to_json s) (Some deadline)) →
  vw w !! session_activity_key token = None →
  32 ≤ len token ≤ 256 → trip_time o w < deadline →
  stored_user (vw w) id u → s_user_id s = id → s_session_version s = u_session_version u →
  (∀ c, s_current_credential_id s = Some c → c ∈ credentials u) →
  o_now o (w_now w) < s_absolute_expires_at s →
  o_now o (w_now w) < saturating_add (s_last_seen_at s) idle →
  ∃ touches, (session token idle o w).1 = Ok (Some (set_last_seen (o_now o (w_now w)) s, u), touches).
Proof.
  intros Hr Hacc Hrec Hact Hlen Hts Hu Hid Hver Hcred Habs Hidle.
  enough (Hwp : wp (session token idle) o w (λ r _, ∃ touches,
    r = Ok (Some (set_last_seen (o_now o (w_now w)) s, u), touches))) by done.
  unfold session. replace (_ || _) with false by lia. cbv zeta.
  apply wp_bind, wp_mget; [no_fault|]. intros d Hd. rewrite !fmap_cons. cbn [fmap list_fmap].
  rewrite (live_missing _ _ (session_activity_key token)) by done.
  assert (Hl : live (trip_time o w) (vw w) (session_key token) = Some (to_json s)).
  { unfold live, expired. rewrite Hrec. simpl. by replace (deadline <=? _) with false by lia. }
  rewrite Hl. apply wp_bind, wp_lift. cbn. apply wp_bind, wp_some_or; [|by rewrite from_to_json].
  rewrite from_to_json. intros ? [= <-]. apply wp_bind, wp_now.
  change (clock o (after_trip w d)) with (o_now o (w_now w)). set (t := o_now o (w_now w)) in *.
  unfold session_expired. replace (_ <=? t) with false by lia.
  replace (saturating_add _ _ <=? t) with false by lia. cbn [orb].
  assert (Hvt : vw (tick (after_trip w d)) = vw w) by exact Hd.
  rewrite Hid. apply wp_bind, wp_user; rewrite ?Hvt; [done|done|..].
  { intros w' _ Hmiss. destruct Hu as (v & u0 & Hk & _). congruence. }
  intros u2 w2 _ Hu2. rewrite (stored_user_inj _ _ _ _ Hu2 Hu).
  assert (Hv : session_verdict s (u_session_version u) (sp_id <$> u_passkeys u) idle t = Valid).
  { unfold session_verdict. replace (_ <=? t) with false by lia.
    replace (saturating_add _ _ <=? t) with false by lia. rewrite Hver, N.eqb_refl. simpl.
    destruct (s_current_credential_id s) as [c|]; [|done]. by rewrite bool_decide_true by by apply Hcred. }
  rewrite Hv. destruct (session_touch_due s idle t).
  - apply wp_bind, wp_bind, wp_some_or; [|unfold checked_sub; simpl; replace (t <=? _) with true by lia; done].
    intros ttl _. apply wp_ret, wp_ret. eauto.
  - apply wp_bind, wp_ret, wp_ret. eauto.
Qed.

(** ** A created session is accepted *)

(** The token [create_session] draws next. *)
Definition next_token (origin : SessionOrigin) (o : oracle) (w : world) : str :=
  origin_token_prefix origin ++
  b64url_encode ((λ i, o_rand o (w_rand w) i mod 256) <$> seq 0 32).

Lemma next_token_length origin o w : 32 ≤ len (next_token origin o w) ≤ 256.
Proof.
  unfold next_token. set (r := _ <$> _). pose proof (b64url_alphabet r) as Ha%b64url_ascii.
  assert (Hl : length (b64url_encode r) = 43%nat).
  { rewrite b64url_length. unfold r. rewrite length_fmap, length_seq. done. }
  rewrite len_ascii, length_app, Hl.
  - destruct origin; simpl; lia.
  - unfold is_ascii in *. rewrite forallb_app, Ha. by destruct origin.
Qed.

Lemma wp_create_session self u origin n lo hi o w (Q : result error (str * Session) → world → Prop) :
  reliable o → log_ok (vw w) lo hi → hi < u64_max → 1 ≤ n →
  (∀ s w', s_user_id s = u_id u → s_session_version s = u_session_version u →
     s_current_credential_id s = origin_credential_id origin →
     s_last_seen_at s = s_created_at s → s_absolute_expires_at s = saturating_add (s_created_at s) n →
     vw w' !! session_key (next_token origin o w) = Some (Entry (to_json s) (Some (trip_time o w + n))) →
     (∀ k, is_log_key k = false → k ≠ session_key (next_token origin o w) → vw w' !! k = vw w !! k) →
     Q (Ok (next_token origin o w, s)) w') →
  wp (create_session self u origin n) o w Q.
Proof.
  intros Hr Hok Hhi Hn HQ. unfold create_session, prepare_session.
  apply wp_bind, wp_bind. unfold wp at 1. simpl. apply wp_bind, wp_now, wp_bind. unfold wp at 1. simpl.
  apply wp_ret. fold (next_token origin o w). set (token := next_token origin o w). set (s := mkSession _ _ _ _ _ _ _ _ _).
  set (w1 := World _ _ _ _ _). assert (Hv1 : vw w1 = vw w) by done.
  assert (Hn0 : (n =? 0) = false) by lia.
  apply wp_bind, wp_execute; simpl; rewrite ?Hn0; [done|no_fault|]. intros d Hd.
  rewrite Hv1 in Hd. simpl in Hd.
  assert (Hlog : log_ok (vw (after_trip w1 d)) lo hi).
  { change (log_ok (db_view d) lo hi). rewrite Hd.
    assert (Hag : agree_on (λ k, is_log_key k = true) (vw w)
      (<[session_key token := Entry (to_json s) (Some (trip_time o w1 + n))]> (vw w))).
    { intros k Hk. rewrite lookup_insert_ne; [done|]. by intros <-. }
    by apply (log_ok_agree _ _ _ _ Hag). }
  apply wp_bind, (wp_append_event_locked _ _ _ lo hi); [exact Hlog|..].
  { intros e w' Hmax. specialize (Hmax Hr). lia. }
  intros ev w' _ _ _ _ Hframe. apply wp_ret, HQ; try done.
  - rewrite Hframe by done. change (db_view d !! session_key token = Some (Entry (to_json s) (Some (trip_time o w + n)))).
    rewrite Hd. by rewrite lookup_insert_eq.
  - intros k Hk Hne. rewrite Hframe by done. change (db_view d !! k = vw w !! k).
    rewrite Hd. by rewrite lookup_insert_ne.
Qed.

(** a session created for a stored account is accepted on the next request, as
    long as neither its absolute nor its idle lifetime has passed and the
    datastore has not expired the record: the request gets exactly this session,
    with the activity time advanced, and the account. *)
Theorem create_then_session self id u origin n lo hi o w :
  reliable o → accounts_ok (vw w) → log_ok (vw w) lo hi → hi < u64_max →
  stored_user (vw w) id u → 1 ≤ n →
  (∀ c, origin_credential_id origin = Some c → c ∈ credentials u) →
  vw w !! session_activity_key (next_token origin o w) = None →
  ∃ token s w', create_session self u origin n o w = (Ok (token, s), w') ∧
    ∀ o2 idle, reliable o2 → o_now o2 (w_now w') < s_absolute_expires_at s →
      o_now o2 (w_now w') < saturating_add (s_created_at s) idle →
      trip_time o2 w' < trip_time o w + n →
      ∃ touches, (session token idle o2 w').1 = Ok (Some (set_last_seen (o_now o2 (w_now w')) s, u), touches).
Proof.
  intros Hr Hacc Hok Hhi Hu Hn Hcred Hact.
  enough (Hwp : wp (create_session self u origin n) o w (λ r w', ∃ token s, r = Ok (token, s) ∧
    ∀ o2 idle, reliable o2 → o_now o2 (w_now w') < s_absolute_expires_at s →
      o_now o2 (w_now w') < saturating_add (s_created_at s) idle →
      trip_time o2 w' < trip_time o w + n →
      ∃ touches, (session token idle o2 w').1 = Ok (Some (set_last_seen (o_now o2 (w_now w')) s, u), touches))).
  { unfold wp in Hwp. destruct (create_session self u origin n o w) as [r w'] eqn:Hrun. simpl in Hwp.
    destruct Hwp as (token & s & -> & Hs). eauto. }
  apply (wp_create_session self u origin n lo hi); [done..|].
  intros s w' Hsu Hsv Hsc Hsl Hsa Hrec Hframe. set (token := next_token origin o w) in *.
  exists token, s. split; [done|]. intros o2 idle Hr2 Habs Hidle Hts.
  assert (Hu' : stored_user (vw w') id u).
  { apply (stored_user_eq (vw w)); [|done]. apply Hframe; [done|]. unfold user_key, session_key. key_neq. }
  assert (Hact' : vw w' !! session_activity_key token = None).
  { rewrite Hframe; [done..|]. unfold session_activity_key, session_key. key_neq. }
  assert (Hacc' : accounts_ok (vw w')).
  { eapply accounts_ok_agree; [|done]. intros k Hk. apply Hframe; [by apply account_key_log|].
    intros ->. done. }
  apply (session_accepts token idle o2 w' s id u _ Hr2 Hacc' Hrec Hact'); try done.
  - apply next_token_length.
  - rewrite Hsu. by apply (acc_id _ Hacc).
  - intros c. rewrite Hsc. apply Hcred.
  - by rewrite Hsl.
Qed.
End Sessions.

(** ** Witnesses *)

Import DemoEnv.

#[export] Program Instance codec_session : Codec Session :=
  codec_iso (λ s : Session, (s_id s, (s_user_id s, (s_auth_method s, (s_current_credential_id s,
    (s_session_version s, (s_created_at s, (s_step_up_at s, (s_last_seen_at s, s_absolute_expires_at s)))))))))
    (λ '(a, (b, (c, (d, (e, (f, (g, (h, i)))))))), Some (mkSession a b c d e f g h i)) _.
Next Obligation. by intros []. Qed.

Definition demo_credential : str := credential_id demo_passkey.

(** The log after one registration. *)
Definition demo_event (n : N) : AuthEvent :=
  match live 0 (vw demo_created.2) (event_key n) ≫= from_json with
  | Some ev => ev
  | None => mkEvent 0 demo_id [] [] None 0 []
  end.

Lemma demo_log_ok : log_ok (vw demo_created.2) 1 1.
Proof.
  split; [left; eval_eq|right; split; [eval_eq|done]|by vm_compute|].
  intros s H1 H2. assert (s = 1) as -> by lia.
  exists (demo_event 1). split; eval_eq.
Qed.

Abbreviation demo_signed_in :=
  (create_session demo_store demo_user (PasskeyOrigin demo_credential) 3600 demo_oracle demo_created.2).
Definition demo_token : str := match demo_signed_in.1 with Ok (token, _) => token | Err _ => [] end.

Lemma demo_signed_in_accounts : accounts_ok (vw demo_signed_in.2).
Proof.
  eapply accounts_ok_agree; [|exact demo_accounts_ok].
  exact (create_session_accounts demo_store demo_user (PasskeyOrigin demo_credential) 3600
    demo_oracle demo_created.2).
Qed.


(** All sessions of the account are revoked. *)
Abbreviation demo_revoked := (revoke_all_sessions demo_store demo_id demo_oracle demo_signed_in.2).
Definition demo_session : Session :=
  match demo_signed_in.1 with
  | Ok (_, s) => s
  | Err _ => mkSession demo_id demo_id [] None 0 0 None 0 0
  end.

Lemma demo_signed_in_user u : stored_user (vw demo_signed_in.2) demo_id u → u = demo_user.
Proof.
  intros Hu. apply (stored_user_inj (vw demo_signed_in.2) demo_id); [exact Hu|].
  exists (to_json demo_user), demo_user. split_and!; eval_eq.
Qed.


Abbreviation demo_signed_out := (delete_session demo_token demo_oracle demo_signed_in.2).

Lemma delete_session_ends_witness :
  vw demo_signed_out.2 !! session_key demo_token = None ∧
  ∀ x touches, (session demo_token 600 demo_oracle demo_signed_out.2).1 ≠ Ok (Some x, touches).
Proof.
  refine ((delete_session_ends demo_token demo_oracle demo_signed_in.2 demo_signed_out.2 600 demo_oracle
    demo_signed_in_accounts _)).
  apply run_ok. eval_eq.
Defined.

Lemma create_then_session_witness :
  ∃ token s w', create_session demo_store demo_user (PasskeyOrigin demo_credential) 3600 demo_oracle
      demo_created.2 = (Ok (token, s), w') ∧
    ∀ o2 idle, reliable o2 → o_now o2 (w_now w') < s_absolute_expires_at s →
      o_now o2 (w_now w') < saturating_add (s_created_at s) idle →
      trip_time o2 w' < trip_time demo_oracle demo_created.2 + 3600 →
      ∃ touches, (session token idle o2 w').1 = Ok (Some (set_last_seen (o_now o2 (w_now w')) s, demo_user), touches).
Proof.
  apply (create_then_session demo_store demo_id demo_user (PasskeyOrigin demo_credential) 3600 1 1
    demo_oracle demo_created.2);
    [exact demo_reliable|exact demo_accounts_ok|exact demo_log_ok|done|exact demo_stored|done| |eval_eq].
  intros c [= <-]. by left.
Defined.
