(* ===== verification/Touches.v ===== *)
(** * The session touch writer (spawn_session_touch_writer in src/src/store.rs)

    Granted requests send activity observations through a bounded channel to one
    background writer, which batches them, keeps the latest per session and
    writes them as expiring activity keys.  The step relation [step] interleaves
    requests, the writer (whose plain pipeline may be applied only in part), and
    everything else the store does.  The invariant is that every activity value
    that is queued or stored is the time of a granted request, so delayed, lost or
    repeated writes can end a session early but never keep one alive. *)

From S2P Require Import Prelude Sable Logic Demo Records Events Identifiers Users Invitations Accounts Sessions.

(** A [BTreeMap<String, (u64, u64)>] as its sorted association list. *)
Definition touch_map := list (str * (N * N)).

Fixpoint insert_latest_session_touch (touches : touch_map) (touch : SessionTouch) : touch_map :=
  match touches with
  | [] => [(touch_key touch, (touch_observed_at touch, touch_ttl_seconds touch))]
  | (k, (observed_at, ttl)) :: rest =>
      if bool_decide (touch_key touch = k) then
        (if observed_at <? touch_observed_at touch
         then (k, (touch_observed_at touch, touch_ttl_seconds touch))
         else (k, (observed_at, ttl))) :: rest
      else if lex_ltb (touch_key touch) k then
        (touch_key touch, (touch_observed_at touch, touch_ttl_seconds touch)) :: touches
      else (k, (observed_at, ttl)) :: insert_latest_session_touch rest touch
  end.

(** The [try_recv] loop on the messages waiting in the channel: the batch and the
    messages left. *)
Fixpoint drain (touches : touch_map) (queue : list SessionTouch) : touch_map * list SessionTouch :=
  match queue with
  | [] => (touches, [])
  | touch :: queue' =>
      if N.of_nat (length touches) <? MAX_PENDING_SESSION_TOUCHES
      then drain (insert_latest_session_touch touches touch) queue'
      else (touches, queue)
  end.

Definition session_touch_pipeline (touches : touch_map) : list cmd :=
  (λ '(k, (observed_at, ttl)), SETEX k (show_u64 observed_at) ttl) <$> touches.

(** [try_send]: dropped when the channel is full. *)
Definition enqueue_session_touch (queue : list SessionTouch) (touch : SessionTouch) : list SessionTouch :=
  if N.of_nat (length queue) <? MAX_PENDING_SESSION_TOUCHES then queue ++ [touch] else queue.

(** The latest observation of a key in a batch. *)
Definition batch_lookup (k : str) (touches : touch_map) : option (N * N) :=
  snd <$> List.find (λ p, bool_decide (p.1 = k)) touches.

Lemma insert_latest_keys touches touch k v :
  (k, v) ∈ insert_latest_session_touch touches touch →
  (k, v) ∈ touches ∨ (k = touch_key touch ∧ v = (touch_observed_at touch, touch_ttl_seconds touch)).
Proof.
  induction touches as [|[k' [ob ttl]] touches IH]; simpl; [set_solver|].
  case_bool_decide as Hk; [|destruct (lex_ltb _ _); [set_solver|]].
  - destruct (ob <? _); rewrite !elem_of_cons; intros [?|?]; simplify_eq; auto.
  - rewrite !elem_of_cons. intros [?|Hin]; [auto|]. destruct (IH Hin); auto.
Qed.

Lemma drain_genuine (P : str → N → N → Prop) touches queue :
  (∀ k ob ttl, (k, (ob, ttl)) ∈ touches → P k ob ttl) →
  (∀ t, t ∈ queue → P (touch_key t) (touch_observed_at t) (touch_ttl_seconds t)) →
  (∀ k ob ttl, (k, (ob, ttl)) ∈ (drain touches queue).1 → P k ob ttl) ∧
  (∀ t, t ∈ (drain touches queue).2 → t ∈ queue).
Proof.
  revert touches. induction queue as [|t queue IH]; intros touches Ht Hq; simpl; [done|].
  destruct (N.of_nat (length touches) <? _); [|done].
  destruct (IH (insert_latest_session_touch touches t)) as [H1 H2].
  - intros k ob ttl [Hin|[-> [= -> ->]]]%insert_latest_keys; [auto|]. apply Hq. by left.
  - intros t' Ht'. apply Hq. by right.
  - split; [done|]. intros t' Ht'. right. auto.
Qed.

(** *** The batch keeps the latest observation per key *)

Definition touch_lt (a b : str * (N * N)) : Prop := lex_lt a.1 b.1.

Lemma insert_latest_sorted touches touch :
  StronglySorted touch_lt touches → StronglySorted touch_lt (insert_latest_session_touch touches touch).
Proof.
  induction 1 as [|[k [ob ttl]] touches Hs IH Hall]; simpl; [repeat constructor|].
  case_bool_decide as Hk.
  - destruct (ob <? _); constructor; done.
  - destruct (lex_ltb (touch_key touch) k) eqn:Hlt.
    + constructor; [by constructor|]. constructor; [done|].
      eapply Forall_impl; [done|]. unfold touch_lt. simpl. intros x Hx. by apply (transitivity (R := lex_lt) Hlt).
    + constructor; [done|]. apply Forall_forall. intros [k' v] [Hin|[-> _]]%insert_latest_keys.
      * rewrite Forall_forall in Hall. auto.
      * unfold touch_lt. simpl. by apply lex_ltb_false in Hlt as [|].
Qed.

(** Entries of a sorted batch only grow in observation time. *)
Lemma insert_latest_grows touches touch :
  (∀ k ob ttl, (k, (ob, ttl)) ∈ touches → ∃ ob' ttl',
     (k, (ob', ttl')) ∈ insert_latest_session_touch touches touch ∧ ob ≤ ob') ∧
  (∃ ob' ttl', (touch_key touch, (ob', ttl')) ∈ insert_latest_session_touch touches touch ∧
     touch_observed_at touch ≤ ob').
Proof.
  induction touches as [|[k' [ob' ttl']] touches [IH1 IH2]]; simpl.
  { split; [set_solver|]. eexists _, _. split; [by left|lia]. }
  case_bool_decide as Hk.
  - subst k'. destruct (N.ltb_spec ob' (touch_observed_at touch)).
    + split; [|eexists _, _; split; [by left|lia]].
      intros k ob ttl [[= -> -> ->]|Hin]%elem_of_cons; eexists _, _; split; [by left|lia|by right|lia].
    + split; [|eexists _, _; split; [by left|lia]].
      intros k ob ttl [[= -> -> ->]|Hin]%elem_of_cons; eexists _, _; split; [by left|lia|by right|lia].
  - destruct (lex_ltb (touch_key touch) k').
    + split; [|eexists _, _; split; [by left|lia]]. intros k ob ttl Hin. eexists _, _. split; [by right|lia].
    + destruct IH2 as (ob2 & ttl2 & Hin2 & Hle2). split; [|eexists _, _; split; [by right|done]].
      intros k ob ttl [[= -> -> ->]|Hin]%elem_of_cons; [eexists _, _; split; [by left|lia]|].
      destruct (IH1 k ob ttl Hin) as (ob3 & ttl3 & Hin3 & Hle3). eexists _, _. split; [by right|done].
Qed.

Lemma sorted_unique touches k v v' :
  StronglySorted touch_lt touches → (k, v) ∈ touches → (k, v') ∈ touches → v = v'.
Proof.
  induction 1 as [|[k0 v0] touches Hs IH Hall]; [set_solver|]. rewrite Forall_forall in Hall.
  rewrite !elem_of_cons. intros [?|H1] [?|H2]; simplify_eq; auto.
  - by apply Hall, lex_lt_neq in H2.
  - by apply Hall, lex_lt_neq in H1.
Qed.

Lemma drain_spec touches queue :
  StronglySorted touch_lt touches →
  let '(batch, rest) := drain touches queue in
  StronglySorted touch_lt batch ∧
  (∀ k ob ttl, (k, (ob, ttl)) ∈ touches → ∃ ob' ttl', (k, (ob', ttl')) ∈ batch ∧ ob ≤ ob') ∧
  ∃ taken, queue = taken ++ rest ∧
    (∀ t, t ∈ taken → ∃ ob ttl, (touch_key t, (ob, ttl)) ∈ batch ∧ touch_observed_at t ≤ ob) ∧
    (∀ k ob ttl, (k, (ob, ttl)) ∈ batch → (k, (ob, ttl)) ∈ touches ∨ mkTouch k ob ttl ∈ taken).
Proof.
  revert touches. induction queue as [|t queue IH]; intros touches Hs; simpl.
  { split_and!; [done| |by exists []; split_and!; [|set_solver|auto]]. intros k ob ttl Hin. eexists _, _. split; [done|lia]. }
  destruct (_ <? _).
  2:{ split_and!; [done| |by exists []; split_and!; [|set_solver|auto]]. intros k ob ttl Hin. eexists _, _. split; [done|lia]. }
  specialize (IH _ (insert_latest_sorted touches t Hs)). destruct (drain _ queue) as [batch rest].
  destruct IH as (Hsb & Hgrow & taken & -> & Htaken & Hgen).
  destruct (insert_latest_grows touches t) as [G1 G2].
  split_and!; [done| |exists (t :: taken); split_and!; [done| |]].
  - intros k ob ttl Hin. destruct (G1 k ob ttl Hin) as (ob1 & ttl1 & Hin1 & Hle1).
    destruct (Hgrow _ _ _ Hin1) as (ob2 & ttl2 & Hin2 & Hle2). eexists _, _. split; [done|lia].
  - intros t' [->|Hin]%elem_of_cons; [|auto]. destruct G2 as (ob1 & ttl1 & Hin1 & Hle1).
    destruct (Hgrow _ _ _ Hin1) as (ob2 & ttl2 & Hin2 & Hle2). eexists _, _. split; [done|lia].
  - intros k ob ttl [Hin|Hin]%Hgen; [|right; by right].
    apply insert_latest_keys in Hin as [?|[-> [= -> ->]]]; [auto|]. right. destruct t. by left.
Qed.

(** One activation of the writer on a channel whose first message is [first]. *)
Definition batch (first : SessionTouch) (queue : list SessionTouch) : touch_map * list SessionTouch :=
  drain (insert_latest_session_touch [] first) queue.

Lemma batch_spec first queue :
  let '(touches, rest) := batch first queue in
  ∃ taken, queue = taken ++ rest ∧
    (∀ k ob ttl, (k, (ob, ttl)) ∈ touches →
       mkTouch k ob ttl ∈ first :: taken ∧
       ∀ t, t ∈ first :: taken → touch_key t = k → touch_observed_at t ≤ ob) ∧
    (∀ t, t ∈ first :: taken → ∃ ob ttl, (touch_key t, (ob, ttl)) ∈ touches).
Proof.
  unfold batch. pose proof (insert_latest_sorted [] first (SSorted_nil _)) as Hs.
  pose proof (drain_spec _ queue Hs) as Hspec.
  destruct (drain _ queue) as [touches rest] eqn:Hd. destruct Hspec as (Hsb & Hgrow & taken & -> & Htaken & Hgen).
  assert (Hall : ∀ t, t ∈ first :: taken →
    ∃ ob ttl, (touch_key t, (ob, ttl)) ∈ touches ∧ touch_observed_at t ≤ ob).
  { intros t [->|Hin]%elem_of_cons; [|auto]. apply (Hgrow _ (touch_observed_at first) (touch_ttl_seconds first)).
    by left. }
  exists taken. split_and!; [done| |intros t Ht; destruct (Hall t Ht) as (? & ? & ? & _); eauto].
  intros k ob ttl Hin. split.
  - destruct (Hgen k ob ttl Hin) as [[= -> -> ->]%list_elem_of_singleton|?]; [|by right].
    destruct first. by left.
  - intros t Ht <-. destruct (Hall t Ht) as (ob' & ttl' & Hin' & Hle).
    by pose proof (sorted_unique _ _ _ _ Hsb Hin Hin'); simplify_eq.
Qed.

(** a batch of the touch writer takes a prefix of the channel and holds, for
    every session in it, one of its own observations and the latest one. *)
Theorem batch_keeps_latest first queue :
  let '(touches, rest) := batch first queue in
  ∃ taken, queue = taken ++ rest ∧
    (∀ k ob ttl, (k, (ob, ttl)) ∈ touches →
       mkTouch k ob ttl ∈ first :: taken ∧
       ∀ t, t ∈ first :: taken → touch_key t = k → touch_observed_at t ≤ ob) ∧
    (∀ t, t ∈ first :: taken → ∃ ob ttl, (touch_key t, (ob, ttl)) ∈ touches).
Proof. apply batch_spec. Qed.

(** ** Requests, the writer and the rest of the store, interleaved *)

Definition is_activity_key (k : str) : bool := starts_with #"auth:session-activity:" k.

Section Interleaving.
Context `{Env}.
Context `{!Serde AuthEvent, !Serde User, !Serde Session}.

(** The datastore contents, the channel, and the requests granted so far (the
    activity key and time of each). *)
Record touch_state := mkTouchState {
  ts_contents : gmap str entry;
  ts_queue : list SessionTouch;
  ts_granted : list (str * N)
}.

Inductive step : touch_state → touch_state → Prop :=
  | step_request m q g token idle o w s u touches w' :
      vw w = m → accounts_ok m → session token idle o w = (Ok (Some (s, u), touches), w') →
      step (mkTouchState m q g)
        (mkTouchState (vw w') (foldl enqueue_session_touch q touches)
           ((session_activity_key token, s_last_seen_at s) :: g))
  | step_write m first q g t n :
      step (mkTouchState m (first :: q) g)
        (mkTouchState (exec_pipe t (take n (session_touch_pipeline (batch first q).1)) m).2
           (batch first q).2 g)
  | step_other m m' q g :
      (∀ k, is_activity_key k = true → m' !! k = m !! k ∨ m' !! k = None) →
      step (mkTouchState m q g) (mkTouchState m' q g).

(** Every stored or queued activity value is the time of a granted request. *)
Record genuine (st : touch_state) : Prop := {
  gen_stored k e : is_activity_key k = true → ts_contents st !! k = Some e →
    ∃ t, e_val e = show_u64 t ∧ (k, t) ∈ ts_granted st;
  gen_queued t : t ∈ ts_queue st → (touch_key t, touch_observed_at t) ∈ ts_granted st
}.

Lemma enqueue_elem q touches t : t ∈ foldl enqueue_session_touch q touches → t ∈ q ∨ t ∈ touches.
Proof.
  revert q. induction touches as [|x touches IH]; intros q; simpl; [auto|].
  intros Ht. apply IH in Ht. unfold enqueue_session_touch in Ht. destruct (_ <? _); set_solver.
Qed.

Lemma pipeline_contents t touches m k e :
  (exec_pipe t (session_touch_pipeline touches) m).2 !! k = Some e →
  m !! k = Some e ∨ ∃ ob ttl, (k, (ob, ttl)) ∈ touches ∧ e_val e = show_u64 ob.
Proof.
  revert m. induction touches as [|[k' [ob ttl]] touches IH]; intros m; [auto|].
  unfold session_touch_pipeline. rewrite fmap_cons, exec_pipe_cons.
  intros [Hk|(ob' & ttl' & Hin & He)]%IH; [|right; exists ob', ttl'; split; [by right|done]].
  simpl in Hk. destruct (ttl =? 0); simpl in Hk; [auto|].
  rewrite lookup_insert_Some in Hk. destruct Hk as [[-> <-]|[_ Hk]]; [|auto].
  right. exists ob, ttl. split; [by left|done].
Qed.

Lemma step_genuine st st' : step st st' → genuine st → genuine st'.
Proof.
  intros Hst [Hs Hq]. destruct Hst as [m q g token idle o w s u touches w' Hv Hacc Hrun|m first q g t n|m m' q g Ho];
    simpl in *.
  - subst m. pose proof (wp_session token idle o w (λ r w', ∀ s u touches,
      r = Ok (Some (s, u), touches) → vw w' = vw w ∧
      ∀ t, t ∈ touches → touch_key t = session_activity_key token ∧ touch_observed_at t = s_last_seen_at s))
      as Hwp. unfold wp in Hwp. rewrite Hrun in Hwp.
    destruct (Hwp Hacc ltac:(done) ltac:(done)) with (s := s) (u := u) (touches := touches) as [Hv' Ht];
      [|done|].
    { intros r act s1 u1 now ts tl w1 Hv1 Hg Htl s2 u2 tl2 [= <- <- <-]. split; [done|].
      intros t Ht. destruct (Htl t Ht) as (? & -> & _). split; [done|].
      by rewrite (gr_session _ _ _ _ _ _ _ _ _ Hg). }
    simpl in Hv'. split; simpl.
    + intros k e Hk He. rewrite Hv' in He. destruct (Hs k e Hk He) as (t & ? & ?).
      exists t. split; [done|]. by right.
    + intros t [Hin|Hin]%enqueue_elem; [right; auto|]. destruct (Ht t Hin) as [-> ->]. by left.
  - pose proof (batch_spec first q) as Hb. destruct (batch first q) as [touches rest]. simpl.
    destruct Hb as (taken & -> & Hb & _). split; simpl.
    + intros k e Hk He. unfold session_touch_pipeline in He. rewrite <- fmap_take in He.
      destruct (pipeline_contents _ _ _ _ _ He) as [He'|(ob & ttl & Hin & Hev)]; [by apply Hs|].
      exists ob. split; [done|]. apply (subseteq_take n) in Hin. apply Hb in Hin as [Hin _].
      apply (Hq (mkTouch k ob ttl)). set_solver.
    + intros t' Ht'. apply Hq. set_solver.
  - split; simpl; [|done]. intros k e Hk He. destruct (Ho k Hk) as [Heq|Heq]; [|congruence].
    rewrite Heq in He. by apply Hs.
Qed.

Lemma reachable_genuine st st' : rtc step st st' → genuine st → genuine st'.
Proof. induction 1; eauto using step_genuine. Qed.

(** in every state reached by interleaving requests, the (unreliable, delayed)
    touch writer and the rest of the store, a request is granted only less than
    [idle] seconds after the session record's own timestamp or after an earlier
    granted request of the same session. *)
Theorem idle_bound_genuine st0 st token idle o w s u touches w' :
  genuine st0 → rtc step st0 st → vw w = ts_contents st → accounts_ok (vw w) →
  session token idle o w = (Ok (Some (s, u), touches), w') →
  ∃ ts r act last, granted (vw w) token idle ts (s_last_seen_at s) r act s u ∧
    s_last_seen_at s < saturating_add last idle ∧
    (last = s_last_seen_at r ∨ (session_activity_key token, last) ∈ ts_granted st).
Proof.
  intros H0 Hreach Hv Hacc Hrun. pose proof (reachable_genuine _ _ Hreach H0) as [Hs _].
  pose proof (wp_session token idle o w (λ r _, ∀ s u touches, r = Ok (Some (s, u), touches) →
    ∃ ts r act, granted (vw w) token idle ts (s_last_seen_at s) r act s u)) as Hwp.
  unfold wp in Hwp. rewrite Hrun in Hwp.
  destruct (Hwp Hacc ltac:(done) ltac:(done)) with (s := s) (u := u) (touches := touches)
    as (ts & r & act & Hg); [|done|].
  { intros r act s1 u1 now ts tl w1 _ Hg _ s2 u2 tl2 [= <- <- <-].
    pose proof (gr_session _ _ _ _ _ _ _ _ _ Hg) as ->. eauto. }
  set (now := s_last_seen_at s) in *. pose proof (gr_idle _ _ _ _ _ _ _ _ _ Hg) as Hidle.
  pose proof (gr_activity _ _ _ _ _ _ _ _ _ Hg) as Hact.
  exists ts, r, act, (s_last_seen_at (apply_session_activity r act now)). split_and!; [done..|].
  destruct act as [a|]; simpl; [|by left]. destruct (a <=? now); simpl; [|by left].
  destruct (live ts (vw w) (session_activity_key token)) as [v|] eqn:Hl; [|done]. simpl in Hact.
  apply live_Some in Hl as [dl Hl]. rewrite Hv in Hl.
  destruct (Hs (session_activity_key token) _ eq_refl Hl) as (t & Hval & Hin). simpl in Hval. subst v.
  assert (a = t) as ->.
  { rewrite parse_show in Hact. by case_match; simplify_eq. }
  destruct (N.max_spec (s_last_seen_at r) t) as [[_ ->]|[_ ->]]; auto.
Qed.
End Interleaving.

(** ** Witnesses *)

Import DemoEnv.

(** The state after one request of a fresh session. *)
Abbreviation demo_request := (session demo_token 600 demo_oracle demo_signed_in.2).

Lemma demo_genuine : genuine (mkTouchState (vw demo_signed_in.2) [] []).
Proof.
  split; cbn [ts_contents ts_queue ts_granted]; [|by intros t ?%not_elem_of_nil].
  intros k e Hk He. exfalso.
  pose proof (demo_view_forall demo_signed_in.2 (λ p, negb (is_activity_key p.1)) k e) as Hno.
  cbn [fst] in Hno. rewrite Hk in Hno. discriminate Hno; [eval_eq|exact He].
Qed.

Lemma idle_bound_genuine_witness :
  match demo_request.1 with
  | Ok (Some (s, u), touches) =>
      ∃ ts r act last, granted (vw demo_signed_in.2) demo_token 600 ts (s_last_seen_at s) r act s u ∧
        s_last_seen_at s < saturating_add last 600 ∧
        (last = s_last_seen_at r ∨ (session_activity_key demo_token, last) ∈ ([] : list (str * N)))
  | _ => False
  end.
Proof.
  assert (Hsome : match demo_request.1 with Ok (Some _, _) => true | _ => false end = true) by eval_eq.
  destruct demo_request as [[[[[s u]|] touches]|] w'] eqn:Hrun; [|discriminate..].
  exact (idle_bound_genuine (mkTouchState (vw demo_signed_in.2) [] []) (mkTouchState (vw demo_signed_in.2) [] [])
    demo_token 600 demo_oracle demo_signed_in.2 s u touches w' demo_genuine (rtc_refl _ _) eq_refl
    demo_signed_in_accounts Hrun).
Defined.
