(* ===== verification/Credentials.v ===== *)
(** * Passkey credentials (src/src/store/credentials.rs)

    Applying a verified WebAuthn assertion to the stored credential (with the
    signature-counter clone check), adding, renaming and revoking passkeys. *)

From S2P Require Import Prelude Sable Logic Demo Records Events Identifiers Users Invitations Accounts Sessions.

Section Credentials.
Context `{Env}.
Context `{!Serde AuthEvent, !Serde User, !Serde Session}.

Definition counter_regressed (stored next : N) : bool :=
  (0 <? next) && (0 <? stored) && (next <=? stored).

Definition has_id (id : str) (p : StoredPasskey) : bool := bool_decide (sp_id p = id).

Definition set_used (counter : N) (at_ : N) (passkey : Passkey) (p : StoredPasskey) : StoredPasskey :=
  mkStoredPasskey (sp_id p) (sp_label p) counter (sp_created_at p) (Some at_) passkey.
Definition set_label (label : str) (p : StoredPasskey) : StoredPasskey :=
  mkStoredPasskey (sp_id p) label (sp_counter p) (sp_created_at p) (sp_last_used_at p) (sp_passkey p).

Definition apply_authentication_result (u : User) (r : AuthenticationResult) : M error User :=
  let id := b64url_encode (result_cred_id r) in
  stored ← some_or (EPolicy CredentialNotLinked) (List.find (has_id id) (u_passkeys u));
  let next := result_counter r in
  ensure (negb (counter_regressed (sp_counter stored) next))
    (EBail "passkey counter did not advance; possible cloned credential");;
  '(passkey, _) ← some_or (EBail "passkey result does not match stored credential")
                    (update_credential (sp_passkey stored) r);
  t ← now;
  mret (set_passkeys (update_first (has_id id)
          (λ p, set_used (N.max next (sp_counter p)) t passkey p) (u_passkeys u)) u).

Definition apply_authentication_and_create_session (self : Store) (user_id : Uuid)
    (r : AuthenticationResult) (absolute_seconds : N) : M error (User * str * Session) :=
  found ← user user_id;
  u ← some_or ECommitRejected found;
  u ← map_err (λ _, ECommitRejected) (apply_authentication_result u r);
  let credential_id := b64url_encode (result_cred_id r) in
  '(token, session) ← prepare_session u (PasskeyOrigin credential_id) absolute_seconds;
  events ← pending_events self [(#"session.created", Some (u_id u))];
  execute ([SET (user_key user_id) (to_json u);
            SETEX (session_key token) (to_json session) absolute_seconds] ++ queue_events events);;
  mret (u, token, session).

Definition apply_authentication (user_id : Uuid) (r : AuthenticationResult) : M error User :=
  u ← require_user user_id;
  u ← apply_authentication_result u r;
  persist_user u;;
  mret u.

Definition new_passkey (label : str) (passkey : Passkey) (created_at : N) : StoredPasskey :=
  mkStoredPasskey (credential_id passkey) label (passkey_counter passkey) created_at None passkey.

Definition add_passkey (self : Store) (user_id : Uuid) (label : str) (passkey : Passkey) :
    M error User :=
  u ← require_user user_id;
  let id := credential_id passkey in
  taken ← get (credential_key id);
  ensure (negb (is_some taken)) (EPolicy CredentialAlreadyExists);;
  t ← now;
  let u := set_passkeys (u_passkeys u ++ [new_passkey label passkey t]) u in
  events ← pending_events self [(#"credential.created", Some user_id)];
  execute ([SET (user_key user_id) (to_json u); SET (credential_key id) (uuid_show user_id)]
           ++ queue_events events);;
  mret u.

Definition rename_passkey (self : Store) (user_id : Uuid) (credential_id label : str) : M error User :=
  u ← require_user user_id;
  ensure (existsb (has_id credential_id) (u_passkeys u)) (EPolicy CredentialNotLinked);;
  let u := set_passkeys (update_first (has_id credential_id) (set_label label) (u_passkeys u)) u in
  persist_user_with_event self u #"credential.renamed";;
  mret u.

Definition revoke_passkey (self : Store) (user_id : Uuid) (credential_id : str) : M error User :=
  u ← require_user user_id;
  ensure (negb (length (u_passkeys u) <=? 1)%nat) (EPolicy FinalCredential);;
  ensure (existsb (has_id credential_id) (u_passkeys u)) (EPolicy CredentialNotLinked);;
  let u := set_passkeys (List.filter (λ p, negb (has_id credential_id p)) (u_passkeys u)) u in
  events ← pending_events self [(#"credential.revoked", Some user_id)];
  execute ([SET (user_key user_id) (to_json u); DEL [credential_key credential_id]]
           ++ queue_events events);;
  mret u.

(** ** Frames *)

Lemma apply_result_reads R `{!PreOrder R} u r : moves R (apply_authentication_result u r).
Proof. unfold apply_authentication_result. moves_go. Qed.

Lemma apply_and_create_extends self id r n :
  moves log_extends (apply_authentication_and_create_session self id r n).
Proof.
  unfold apply_authentication_and_create_session. log_go;
    first [apply user_reads, _|apply moves_map_err, apply_result_reads, _|apply prepare_session_reads, _].
Qed.

Lemma apply_authentication_extends id r : moves log_extends (apply_authentication id r).
Proof.
  unfold apply_authentication, persist_user.
  log_go; first [apply require_user_reads, _|apply apply_result_reads, _].
Qed.

Lemma add_passkey_extends self id l p : moves log_extends (add_passkey self id l p).
Proof. unfold add_passkey. log_go. apply require_user_reads, _. Qed.

Lemma rename_passkey_extends self id c l : moves log_extends (rename_passkey self id c l).
Proof.
  unfold rename_passkey. log_go; first [apply require_user_reads, _|apply persist_user_with_event_extends].
Qed.

Lemma revoke_passkey_extends self id c : moves log_extends (revoke_passkey self id c).
Proof. unfold revoke_passkey. log_go. apply require_user_reads, _. Qed.

(** ** The account invariant *)

Lemma user_ok_set_passkeys l u : user_ok u → user_ok (set_passkeys l u).
Proof. intros Hok. apply (user_ok_update u); try done; apply Hok. Qed.

Lemma update_first_ids f id l :
  (∀ p, sp_id (f p) = sp_id p) → sp_id <$> update_first (has_id id) f l = sp_id <$> l.
Proof.
  intros Hf. induction l as [|p l IH]; [done|]. simpl. destruct (has_id id p);
    rewrite !fmap_cons; [by rewrite Hf|by rewrite IH].
Qed.

(** Linking one more credential, in the same commit as other changes of the
    record that keep its links. *)
Lemma accounts_link_credential m id u u' c :
  accounts_ok m → stored_user m id u → user_ok u' → u_id u' = u_id u →
  linked u' = linked u → credentials u' = credentials u ++ [c] →
  m !! credential_key c = None →
  accounts_ok (<[credential_key c := Entry (uuid_show id) None]>
                 (<[user_key id := Entry (to_json u') None]> m)).
Proof.
  intros Hacc Hu Hok Hid Hl Hc Hfree. destruct (acc_passkeys _ Hacc id u Hu) as [Hnd Hne].
  assert (Hcfree : ∀ id' u', stored_user m id' u' → c ∉ credentials u').
  { intros id' u1 Hu1 Hin. pose proof (acc_credential _ Hacc _ _ _ Hu1 Hin) as Hown.
    unfold owns_credential in Hown. congruence. }
  apply (accounts_put m _ id u'); try done.
  - look. done.
  - rewrite Hid. by apply (acc_id _ Hacc).
  - intros id' Hne'. look. done.
  - intros i. rewrite Hl. unfold resolves. intros Hi. look. by apply (acc_linked _ Hacc id u).
  - intros x. rewrite Hc. unfold owns_credential. intros [Hx| ->%list_elem_of_singleton]%elem_of_app.
    + rewrite lookup_insert_ne by (intros Heq%credential_key_inj; subst; by eapply Hcfree). look.
      by apply (acc_credential _ Hacc id u).
    + by look.
  - rewrite Hc. apply NoDup_app. split_and!; [done| |apply NoDup_singleton].
    intros x Hx ->%list_elem_of_singleton. by eapply Hcfree.
  - rewrite Hc. by destruct (credentials u).
  - intros id' u1 i _ _ _. unfold resolves. look. done.
  - intros id' u1 x _ Hu1 Hx. unfold owns_credential.
    rewrite lookup_insert_ne by (intros Heq%credential_key_inj; subst; by eapply Hcfree). look. done.
  - intros i e. look. intros He. rewrite Hl.
    destruct (index_owner (λ u, i ∈ linked u) m id u e Hu (acc_identifier_index _ Hacc i e He)); auto.
  - intros v e. look. intros He. rewrite Hl.
    destruct (index_owner (λ u, mkIdentifier Email v ∈ linked u) m id u e Hu
      (acc_email_index _ Hacc v e He)); auto.
  - intros x e. rewrite Hc, elem_of_app. destruct (decide (x = c)) as [->|Hne'].
    + look. intros [= <-]. left. split; [done|]. right. by left.
    + rewrite lookup_insert_ne by (by intros Heq%credential_key_inj). look. intros He.
      destruct (index_owner (λ u, x ∈ credentials u) m id u e Hu (acc_credential_index _ Hacc x e He))
        as [[-> ?]|?]; auto.
Qed.

Lemma accounts_unlink_credential m id u u' c :
  accounts_ok m → stored_user m id u → user_ok u' → u_id u' = u_id u →
  linked u' = linked u → (∀ x, x ∈ credentials u' ↔ x ∈ credentials u ∧ x ≠ c) →
  NoDup (credentials u') → credentials u' ≠ [] → c ∈ credentials u →
  accounts_ok (delete (credential_key c) (<[user_key id := Entry (to_json u') None]> m)).
Proof.
  intros Hacc Hu Hok Hid Hl Hc Hnd Hne Hin. apply (accounts_put m _ id u'); try done.
  - look. done.
  - rewrite Hid. by apply (acc_id _ Hacc).
  - intros id' Hne'. look. done.
  - intros i. rewrite Hl. unfold resolves. intros Hi. look. by apply (acc_linked _ Hacc id u).
  - intros x [Hx Hxc]%Hc. unfold owns_credential.
    rewrite lookup_delete_ne by (by intros Heq%credential_key_inj). look. by apply (acc_credential _ Hacc id u).
  - intros id' u1 i _ _ _. unfold resolves. look. done.
  - intros id' u1 x Hne' Hu1 Hx Hown. unfold owns_credential in *.
    rewrite lookup_delete_ne; [look; done|]. intros Heq%credential_key_inj. subst x.
    pose proof (acc_credential _ Hacc id u c Hu Hin) as Hself. unfold owns_credential in Hself.
    by simplify_eq.
  - intros i e. look. intros He. rewrite Hl.
    destruct (index_owner (λ u, i ∈ linked u) m id u e Hu (acc_identifier_index _ Hacc i e He)); auto.
  - intros v e. look. intros He. rewrite Hl.
    destruct (index_owner (λ u, mkIdentifier Email v ∈ linked u) m id u e Hu
      (acc_email_index _ Hacc v e He)); auto.
  - intros x e. destruct (decide (x = c)) as [->|Hne']; [by look|].
    rewrite lookup_delete_ne by (by intros Heq%credential_key_inj). look. intros He.
    destruct (index_owner (λ u, x ∈ credentials u) m id u e Hu (acc_credential_index _ Hacc x e He))
      as [[-> ?]|?]; [left; split; [done|]; by apply Hc|auto].
Qed.

(** ** Assertions *)

Lemma find_ext_update f id l p :
  (∀ q, sp_id (f q) = sp_id q) → List.find (has_id id) l = Some p →
  List.find (has_id id) (update_first (has_id id) f l) = Some (f p).
Proof.
  intros Hf. induction l as [|q l IH]; simpl; [done|]. destruct (has_id id q) eqn:Hq.
  - intros [= ->]. simpl. unfold has_id in *. rewrite Hf. by rewrite Hq.
  - intros Hfind. simpl. rewrite Hq. auto.
Qed.

(** What accepting an assertion establishes. *)
Record accepted (u : User) (r : AuthenticationResult) (u' : User) : Prop := {
  ap_links : linked u' = linked u ∧ credentials u' = credentials u ∧ u_id u' = u_id u ∧
             u_session_version u' = u_session_version u;
  ap_ok : user_ok u → user_ok u';
  ap_counter : ∃ p p',
    List.find (has_id (b64url_encode (result_cred_id r))) (u_passkeys u) = Some p ∧
    List.find (has_id (b64url_encode (result_cred_id r))) (u_passkeys u') = Some p' ∧
    sp_counter p' = N.max (result_counter r) (sp_counter p) ∧
    (0 < result_counter r → 0 < sp_counter p → sp_counter p < result_counter r)
}.

Lemma wp_apply_result u r o w (Q : result error User → world → Prop) :
  (∀ e w', vw w' = vw w → Q (Err e) w') →
  (∀ u' w', vw w' = vw w → accepted u r u' → Q (Ok u') w') →
  wp (apply_authentication_result u r) o w Q.
Proof.
  intros He Hok. apply wp_bind, wp_some_or; [|intros _; by apply He]. intros p Hp.
  apply wp_bind, wp_ensure; [|intros _; by apply He]. intros Hreg. unfold counter_regressed in Hreg.
  apply wp_bind, wp_some_or; [|intros _; by apply He]. intros [pk changed] Hup.
  apply wp_bind, wp_now, wp_ret, Hok; [done|]. split.
  - unfold credentials. simpl. rewrite update_first_ids by done. done.
  - apply user_ok_set_passkeys.
  - eexists p, _. split_and!; [done|by apply find_ext_update|done|lia].
Qed.

(** Replaying an assertion with a counter against the updated record. *)
Lemma replay_rejected u r u' o w :
  accepted u r u' → 0 < result_counter r → is_ok (apply_authentication_result u' r o w).1 = false.
Proof.
  intros Hacc Hpos. destruct (ap_counter _ _ _ Hacc) as (p & p' & _ & Hp' & Hc & _).
  unfold apply_authentication_result, some_or, lift, mbind, M_bind. rewrite Hp'. simpl.
  unfold ensure, counter_regressed. rewrite Hc.
  by replace (_ && _) with true by lia.
Qed.

Lemma wp_sign_in self id r n o w :
  accounts_ok (vw w) →
  wp (apply_authentication_and_create_session self id r n) o w (λ res w', accounts_ok (vw w') ∧
    match res with
    | Ok (u', token, s) =>
        (∃ u, stored_user (vw w) id u ∧ accepted u r u') ∧ stored_user (vw w') id u' ∧
        (∃ t, vw w' !! session_key token = Some (Entry (to_json s) (Some (t + n)))) ∧
        s_user_id s = id ∧ s_session_version s = u_session_version u' ∧
        s_current_credential_id s = Some (b64url_encode (result_cred_id r))
    | Err _ => True
    end).
Proof.
  intros Hacc. apply wp_bind, wp_user; [done|by intros ? ->|intros w1 Hv1 _|intros u w1 Hv1 Hu].
  { apply wp_bind, wp_some_or; [done|]. intros _. by rewrite Hv1. }
  apply wp_bind, wp_some_or; [|done]. intros ? [= <-].
  apply wp_bind, wp_map_err, wp_apply_result; [intros e w2 ->; by rewrite Hv1|].
  intros u' w2 Hv2 Hap. rewrite Hv1 in Hv2. cbv zeta. unfold prepare_session.
  apply wp_bind, wp_bind. unfold wp at 1. simpl. apply wp_bind, wp_now, wp_bind. unfold wp at 1. simpl.
  apply wp_ret. set (token := b64url_encode _). set (s := mkSession _ _ _ _ _ _ _ _ _).
  destruct (ap_links _ _ _ Hap) as (Hl & Hc & Hid & Hver).
  pose proof (stored_user_ok _ _ _ Hu) as Hok. pose proof (ap_ok _ _ _ Hap Hok) as Hok'.
  apply wp_bind, (wp_reads _ _ _ _ (pending_events_reads _ _)).
  intros [evs|e] w3 Hv3; assert (Hv : vw w3 = vw w) by (rewrite Hv3; exact Hv2); [|by rewrite Hv].
  assert (Hcommit : ∀ t, let m' := (exec_pipe t ([SET (user_key id) (to_json u');
      SETEX (session_key token) (to_json s) n] ++ queue_events evs) (vw w)).2 in
    accounts_ok m' ∧ m' !! user_key id = Some (Entry (to_json u') None) ∧
    (n ≠ 0 → m' !! session_key token = Some (Entry (to_json s) (Some (t + n))))).
  { intros t. cbv zeta. split_and!.
    - apply accounts_queue. simpl.
      assert (Hrw : accounts_ok (<[user_key id := Entry (to_json u') None]> (vw w))).
      { apply accounts_rewrite with u; try done. intros i. by rewrite Hl. }
      destruct (n =? 0); simpl; [done|]. eapply accounts_ok_agree; [|exact Hrw].
      intros k Hk. rewrite lookup_insert_ne; [done|]. by intros <-.
    - rewrite commit_agree by done. simpl. destruct (n =? 0); simpl; look; done.
    - intros Hn. rewrite commit_agree by done. simpl. replace (n =? 0) with false by lia. simpl. by look. }
  apply wp_bind, wp_execute_view; rewrite Hv.
  - intros w' t _ [->| ->]; [done|]. split; [apply Hcommit|done].
  - intros w' t Hne Hv'. apply wp_ret. rewrite Hv'. destruct (Hcommit t) as (H1 & H2 & H3).
    assert (n ≠ 0) by (intros ->; simpl in Hne; by destruct (exec_pipe t (queue_events evs) _)).
    split_and!; try done; eauto.
    + by apply stored_written.
    + simpl. rewrite Hid. by apply (acc_id _ Hacc).
Qed.

Lemma sign_in_accounts self id r n o :
  keeps o accounts_ok (apply_authentication_and_create_session self id r n).
Proof. intros w Hacc. eapply wp_mono; [by apply wp_sign_in|]. by intros res w' [? _]. Qed.

Lemma apply_authentication_accounts id r o : keeps o accounts_ok (apply_authentication id r).
Proof.
  intros w Hacc. apply wp_bind, wp_require_user; [done|by intros ?? ->|]. intros u w1 Hv1 Hu.
  apply wp_bind, wp_apply_result; [intros e w2 ->; by rewrite Hv1|]. intros u' w2 Hv2 Hap.
  rewrite Hv1 in Hv2. destruct (ap_links _ _ _ Hap) as (Hl & Hc & Hid & _).
  pose proof (ap_ok _ _ _ Hap (stored_user_ok _ _ _ Hu)) as Hok'.
  apply wp_bind, (wp_mono _ _ _ (λ _ w', accounts_ok (vw w'))); [|by intros [[]|e] w' Hw'].
  apply wp_execute_inv; rewrite Hv2; [done|]. intros t. simpl.
  rewrite Hid, (acc_id _ Hacc id u Hu). apply accounts_rewrite with u; try done. intros i. by rewrite Hl.
Qed.

(** ** Adding, renaming and revoking *)

Lemma credential_free m c t :
  accounts_ok m → is_some (live t m (credential_key c)) = false → m !! credential_key c = None.
Proof.
  intros Hacc Hl. destruct (m !! credential_key c) as [e|] eqn:He; [|done].
  destruct (acc_credential_index _ Hacc _ _ He) as (id1 & u1 & -> & _).
  by rewrite (live_persistent _ _ _ _ He) in Hl.
Qed.

(** The commit that links credential [c], shared with account recovery. *)
Lemma wp_link_commit self id u u' c inputs o w :
  accounts_ok (vw w) → stored_user (vw w) id u → user_ok u' → u_id u' = u_id u →
  linked u' = linked u → credentials u' = credentials u ++ [c] → vw w !! credential_key c = None →
  wp (events ← pending_events self inputs;
      execute ([SET (user_key id) (to_json u'); SET (credential_key c) (uuid_show id)]
               ++ queue_events events);;
      mret u') o w (λ res w', accounts_ok (vw w') ∧
    ∀ x, res = Ok x → x = u' ∧ stored_user (vw w') id u').
Proof.
  intros Hacc Hu Hok' Hid Hl Hcr Hnone.
  apply wp_bind, (wp_reads _ _ _ _ (pending_events_reads _ _)).
  intros [evs|e] w3 Hv; [|by rewrite Hv].
  assert (Hcommit : ∀ t, let m' := (exec_pipe t ([SET (user_key id) (to_json u');
      SET (credential_key c) (uuid_show id)] ++ queue_events evs) (vw w)).2 in
    accounts_ok m' ∧ stored_user m' id u').
  { intros t'. cbv zeta. split.
    - apply accounts_queue. by apply accounts_link_credential with u.
    - apply stored_written; [|done]. rewrite commit_agree by done. simpl. by look. }
  apply wp_bind, wp_execute_view; rewrite Hv.
  - intros w' t' _ [->| ->]; [done|]. split; [apply Hcommit|done].
  - intros w' t' _ Hv'. apply wp_ret. rewrite Hv'. destruct (Hcommit t'). split; [done|]. by intros x [= ->].
Qed.

Lemma wp_add_passkey self id label pk o w :
  accounts_ok (vw w) →
  wp (add_passkey self id label pk) o w (λ res w', accounts_ok (vw w') ∧
    ∀ u', res = Ok u' → stored_user (vw w') id u' ∧ credential_id pk ∈ credentials u').
Proof.
  intros Hacc. apply wp_bind, wp_require_user; [done|by intros ?? ->|]. intros u w1 Hv1 Hu. cbv zeta.
  apply wp_bind, wp_get_view; [intros w2 -> _; by rewrite Hv1|]. intros t w2 Hv2. rewrite Hv1 in Hv2 |- *.
  apply wp_bind, wp_ensure; [intros Hfree|intros _; by rewrite Hv2]. reflect.
  apply wp_bind, wp_now. set (u' := set_passkeys _ u).
  assert (Hcr : credentials u' = credentials u ++ [credential_id pk]).
  { unfold credentials, u'. simpl. by rewrite fmap_app. }
  assert (Hv : vw (tick w2) = vw w) by exact Hv2. eapply wp_mono.
  - apply (wp_link_commit self id u); rewrite ?Hv; try done.
    + apply user_ok_set_passkeys. by eapply stored_user_ok.
    + by eapply credential_free.
  - intros res w' [Ha Hst]. split; [done|]. intros x Hx. destruct (Hst x Hx) as [-> Hu'].
    split; [done|]. rewrite Hcr. apply elem_of_app. right. by left.
Qed.

Lemma add_passkey_accounts self id label pk o : keeps o accounts_ok (add_passkey self id label pk).
Proof. intros w Hacc. eapply wp_mono; [by apply wp_add_passkey|]. by intros res w' [? _]. Qed.

Lemma rename_passkey_accounts self id c label o : keeps o accounts_ok (rename_passkey self id c label).
Proof.
  intros w Hacc. apply wp_bind, wp_require_user; [done|by intros ?? ->|]. intros u w1 Hv1 Hu.
  apply wp_bind, wp_ensure; [intros _|intros _; by rewrite Hv1]. cbv zeta.
  apply (keeps_persist_with_event self id u); rewrite ?Hv1; try done.
  - apply user_ok_set_passkeys. by eapply stored_user_ok.
  - unfold credentials. simpl. by rewrite update_first_ids.
Qed.

Lemma filter_ids c l :
  sp_id <$> List.filter (λ p, negb (has_id c p)) l = List.filter (λ x, negb (bool_decide (x = c))) (sp_id <$> l).
Proof.
  induction l as [|p l IH]; [done|]. rewrite fmap_cons. simpl. unfold has_id at 1.
  destruct (bool_decide (sp_id p = c)); simpl; [done|]. by f_equal.
Qed.

Lemma filter_ne_elem (c : str) l x : x ∈ List.filter (λ x, negb (bool_decide (x = c))) l ↔ x ∈ l ∧ x ≠ c.
Proof. rewrite !list_elem_of_In, filter_In, negb_true_iff, bool_decide_eq_false. done. Qed.

Lemma revoked_credentials (c : str) l :
  NoDup l → (1 < length l)%nat →
  let l' := List.filter (λ x, negb (bool_decide (x = c))) l in NoDup l' ∧ l' ≠ [].
Proof.
  intros Hnd Hlen. cbv zeta. split.
  - apply NoDup_ListNoDup, List.NoDup_filter. by apply NoDup_ListNoDup.
  - destruct l as [|a [|b l]]; simpl in *; [lia|lia|]. apply NoDup_cons in Hnd as [Hni _].
    case_bool_decide as Ha; case_bool_decide as Hb; simpl; try done. subst. set_solver.
Qed.

Lemma wp_revoke_passkey self id c o w :
  accounts_ok (vw w) →
  wp (revoke_passkey self id c) o w (λ res w', accounts_ok (vw w') ∧
    ∀ u', res = Ok u' → stored_user (vw w') id u' ∧ (c ∉ credentials u') ∧ credentials u' ≠ []).
Proof.
  intros Hacc. apply wp_bind, wp_require_user; [done|by intros ?? ->|]. intros u w1 Hv1 Hu.
  apply wp_bind, wp_ensure; [intros Hlen|intros _; by rewrite Hv1]. reflect. apply Nat.leb_gt in Hlen.
  apply wp_bind, wp_ensure; [intros Hex|intros _; by rewrite Hv1]. cbv zeta.
  set (u' := set_passkeys _ u). destruct (acc_passkeys _ Hacc id u Hu) as [Hnd Hne].
  assert (Hcr : credentials u' = List.filter (λ x, negb (bool_decide (x = c))) (credentials u))
    by apply filter_ids.
  destruct (revoked_credentials c (credentials u) Hnd) as [Hnd' Hne'].
  { unfold credentials. by rewrite length_fmap. }
  assert (Hin : c ∈ credentials u).
  { apply existsb_exists in Hex as (p & Hp & Hid). unfold has_id in Hid. reflect. subst c.
    apply list_elem_of_fmap_2. by apply list_elem_of_In. }
  assert (Hok' : user_ok u') by (apply user_ok_set_passkeys; by eapply stored_user_ok).
  apply wp_bind, (wp_reads _ _ _ _ (pending_events_reads _ _)).
  intros [evs|e] w3 Hv3; rewrite Hv1 in Hv3; [|by rewrite Hv3].
  assert (Hcommit : ∀ t, let m' := (exec_pipe t ([SET (user_key id) (to_json u');
      DEL [credential_key c]] ++ queue_events evs) (vw w)).2 in accounts_ok m' ∧ stored_user m' id u').
  { intros t'. cbv zeta. split.
    - apply accounts_queue. apply accounts_unlink_credential with u; rewrite ?Hcr; try done.
      intros x. by rewrite filter_ne_elem.
    - apply stored_written; [|done]. rewrite commit_agree by done. simpl. by look. }
  apply wp_bind, wp_execute_view; rewrite Hv3.
  - intros w' t' _ [->| ->]; [done|]. split; [apply Hcommit|done].
  - intros w' t' _ Hv'. apply wp_ret. rewrite Hv'. destruct (Hcommit t'). split; [done|].
    intros ? [= <-]. split_and!; [done| |by rewrite Hcr]. rewrite Hcr, filter_ne_elem. by intros [_ ?].
Qed.

Lemma revoke_passkey_accounts self id c o : keeps o accounts_ok (revoke_passkey self id c).
Proof. intros w Hacc. eapply wp_mono; [by apply wp_revoke_passkey|]. by intros res w' [? _]. Qed.

(** ** Properties *)



(** Revoking a passkey leaves the account at least one passkey and ends every
    session that passkey created: a record bound to the revoked credential is
    refused on every later request. *)
Theorem revoke_passkey_revokes self id c o w u' w' token idle o2 e r :
  accounts_ok (vw w) → revoke_passkey self id c o w = (Ok u', w') →
  vw w' !! session_key token = Some e → from_json (e_val e) = Some r →
  s_user_id r = id → s_current_credential_id r = Some c →
  credentials u' ≠ [] ∧ ∀ x touches, (session token idle o2 w').1 ≠ Ok (Some x, touches).
Proof.
  intros Hacc Hrun Hk Hr Hid Hcr. pose proof (wp_revoke_passkey self id c o w Hacc) as Hwp.
  unfold wp in Hwp. rewrite Hrun in Hwp. destruct Hwp as [Ha Hst].
  destruct (Hst u' eq_refl) as (Hu' & Hc & Hne). split; [done|].
  apply (session_refused token idle o2 w' e r); [done..|]. rewrite Hid. intros u2 Hu2 _ Hin.
  rewrite (stored_user_inj _ _ _ _ Hu2 Hu') in Hin. auto.
Qed.
End Credentials.

(** ** Witnesses *)

Import DemoEnv.

(** The demo authenticator signs in with an advanced counter. *)
Definition demo_assertion : @AuthenticationResult (@env_webauthn demo_env) := ([1; 2; 3], 6, true).
Abbreviation demo_sign_in :=
  (apply_authentication_and_create_session demo_store demo_id demo_assertion 3600 demo_oracle demo_created.2).



(** A second passkey is added to the signed-in account, the first one revoked. *)
Definition demo_passkey2 : @Passkey (@env_webauthn demo_env) := ([4; 5; 6], 1).
Abbreviation demo_two := (add_passkey demo_store demo_id #"Laptop" demo_passkey2 demo_oracle demo_signed_in.2).
Abbreviation demo_one := (revoke_passkey demo_store demo_id demo_credential demo_oracle demo_two.2).

Lemma demo_two_accounts : accounts_ok (vw demo_two.2).
Proof.
  exact (add_passkey_accounts demo_store demo_id #"Laptop" demo_passkey2 demo_oracle demo_signed_in.2
    demo_signed_in_accounts).
Qed.

Lemma revoke_passkey_revokes_witness :
  is_ok demo_one.1 = true ∧
  ∀ x touches, (session demo_token 600 demo_oracle demo_one.2).1 ≠ Ok (Some x, touches).
Proof.
  assert (Hok : is_ok demo_one.1 = true) by eval_eq. split; [exact Hok|].
  destruct (is_ok_run demo_one Hok) as [u Hr].
  refine (proj2 (revoke_passkey_revokes demo_store demo_id demo_credential demo_oracle demo_two.2 u demo_one.2
    demo_token 600 demo_oracle (Entry (to_json demo_session) (Some 4605)) demo_session
    demo_two_accounts Hr _ _ _ _)); eval_eq.
Defined.
