(* ===== verification/Recovery.v ===== *)
(** * Account recovery (src/src/store/recovery.rs)

    Ten offline codes, stored only as digests inside the account; consuming a
    code removes its digest; completing recovery adds a passkey, advances the
    session version and clears the remaining codes. *)

From S2P Require Import Prelude Sable Logic Demo Records Events Identifiers Users Invitations Accounts Sessions Credentials.

Definition RECOVERY_CODE_COUNT : nat := 10.
Definition RECOVERY_CODE_PREFIX : str := #"rrc_".
Definition RECOVERY_DIGEST_DOMAIN : list N := bytes #"rustyauth.account-recovery.v1" ++ [0].

Definition recovery_digest `{ExtCrypto} (raw_code : str) : str :=
  hex_encode (sha256 (RECOVERY_DIGEST_DOMAIN ++ bytes raw_code)).

Definition validate_recovery_code (raw_code : str) : result error unit :=
  if negb (len raw_code =? 31) || negb (starts_with RECOVERY_CODE_PREFIX raw_code)
     || negb (forallb is_b64url (bytes (drop (length RECOVERY_CODE_PREFIX) raw_code)))
  then Err (EBail "recovery code is invalid or already used") else Ok tt.

Section Recovery.
Context `{Env}.
Context `{!Serde AuthEvent, !Serde User, !Serde Session}.

Definition recovery_code : M error str :=
  raw ← random_bytes 20;
  mret (RECOVERY_CODE_PREFIX ++ b64url_encode raw).

Definition recovery_codes : M error (list str) :=
  mapM_ (λ _, recovery_code) (seq 0 RECOVERY_CODE_COUNT).

Definition rotate_recovery_codes (self : Store) (user_id : Uuid) : M error (User * list str) :=
  u ← require_user user_id;
  created_at ← now;
  raw_codes ← recovery_codes;
  let u := set_recovery_codes ((λ code, mkRecoveryCode (recovery_digest code) created_at) <$> raw_codes) u in
  persist_user_with_event self u #"account.recovery_codes.rotated";;
  mret (u, raw_codes).

(** [Vec::remove] at the position of the first match. *)
Fixpoint remove_first {A : Type} (p : A → bool) (l : list A) : option (list A) :=
  match l with
  | [] => None
  | a :: l' => if p a then Some l' else cons a <$> remove_first p l'
  end.

Definition consume_recovery_code (self : Store) (identifier : IdentifierValue) (raw_code : str) :
    M error User :=
  _ ← lift (validate_recovery_code raw_code);
  found ← user_by_identifier identifier;
  u ← some_or (EPolicy UserMissing) found;
  let candidate := recovery_digest raw_code in
  codes ← some_or (EBail "recovery code is invalid or already used")
            (remove_first (λ record, ct_eq (rc_digest record) candidate) (u_recovery_codes u));
  let u := set_recovery_codes codes u in
  persist_user_with_event self u #"account.recovery.started";;
  mret u.

Definition add_recovery_passkey (self : Store) (user_id : Uuid) (label : str) (passkey : Passkey) :
    M error User :=
  u ← require_user user_id;
  let id := credential_id passkey in
  taken ← get (credential_key id);
  ensure (negb (is_some taken)) (EPolicy CredentialAlreadyExists);;
  t ← now;
  let u := set_passkeys (u_passkeys u ++ [new_passkey label passkey t]) u in
  let u := set_session_version (saturating_add (u_session_version u) 1) u in
  let u := set_recovery_codes [] u in
  events ← pending_events self
    [(#"account.recovery.completed", Some user_id); (#"credential.created", Some user_id);
     (#"session.revoked_all", Some user_id)];
  execute ([SET (user_key user_id) (to_json u); SET (credential_key id) (uuid_show user_id)]
           ++ queue_events events);;
  mret u.

(** ** Frames *)

Lemma recovery_codes_reads R `{!PreOrder R} : moves R recovery_codes.
Proof. apply moves_mapM; [apply _|]. intros _. unfold recovery_code. moves_go. Qed.
#[local] Hint Resolve recovery_codes_reads : moves.
#[local] Opaque recovery_codes.

Lemma rotate_recovery_codes_extends self id : moves log_extends (rotate_recovery_codes self id).
Proof.
  unfold rotate_recovery_codes. log_go;
    first [apply require_user_reads, _|apply persist_user_with_event_extends].
Qed.

Lemma consume_recovery_code_extends self i c : moves log_extends (consume_recovery_code self i c).
Proof.
  unfold consume_recovery_code.
  log_go; first [apply user_by_identifier_reads, _|apply persist_user_with_event_extends].
Qed.

Lemma add_recovery_passkey_extends self id l p : moves log_extends (add_recovery_passkey self id l p).
Proof. unfold add_recovery_passkey. log_go. apply require_user_reads, _. Qed.

(** ** Recovery-code lists *)

Definition digest_ok (s : str) : bool :=
  (len s =? 64) && forallb is_ascii_hexdigit (bytes s).

Lemma check_recovery_codes_ok seen l :
  check_recovery_codes seen l = Ok tt ↔
  forallb (λ c, digest_ok (rc_digest c)) l = true ∧ NoDup (rc_digest <$> l) ∧
  (∀ c, c ∈ l → rc_digest c ∉ seen).
Proof.
  revert seen. induction l as [|c l IH]; intros seen.
  { simpl. split; [|done]. intros _. split_and!; [done|apply NoDup_nil_2|]. by intros c ?%not_elem_of_nil. }
  cbn [check_recovery_codes forallb]. rewrite fmap_cons, NoDup_cons, andb_true_iff.
  unfold digest_ok at 1. rewrite andb_true_iff.
  destruct (len (rc_digest c) =? 64), (forallb is_ascii_hexdigit (bytes (rc_digest c))); simpl;
    [|by split; [|intros [[[? ?] ?] ?]]..].
  case_bool_decide as Hin.
  - split; [done|]. intros (_ & _ & Hs). exfalso. by apply (Hs c); [left|].
  - rewrite IH. split.
    + intros (Hv & Hnd & Hs). split_and!; [done..| |done|].
      * intros (c' & Heq & Hc')%list_elem_of_fmap. apply (Hs c' Hc'). rewrite Heq. by left.
      * intros c' [->|Hc']%elem_of_cons; [done|]. intros Hx. apply (Hs c' Hc'). by right.
    + intros ([_ Hv] & [Hni Hnd] & Hs). split_and!; [done..|]. intros c' Hc' [Heq|Hx]%elem_of_cons.
      * apply Hni. rewrite <- Heq. by apply list_elem_of_fmap_2.
      * apply (Hs c'); [by right|done].
Qed.

Lemma remove_first_spec {A : Type} (p : A → bool) l l' :
  remove_first p l = Some l' →
  ∃ l1 a l2, l = l1 ++ a :: l2 ∧ l' = l1 ++ l2 ∧ p a = true.
Proof.
  revert l'. induction l as [|a l IH]; intros l'; simpl; [done|]. destruct (p a) eqn:Hp.
  - intros [= <-]. by exists [], a, l.
  - destruct (remove_first p l) as [l0|]; [|done]. intros [= <-].
    destruct (IH l0 eq_refl) as (l1 & b & l2 & -> & -> & Hb). by exists (a :: l1), b, l2.
Qed.

(** Removing a code keeps the list valid and the code is gone. *)
Lemma remove_code_ok l l' d :
  check_recovery_codes [] l = Ok tt → remove_first (λ r, ct_eq (rc_digest r) d) l = Some l' →
  check_recovery_codes [] l' = Ok tt ∧ d ∉ rc_digest <$> l'.
Proof.
  intros (Hv & Hnd & _)%check_recovery_codes_ok (l1 & a & l2 & -> & -> & Ha)%remove_first_spec.
  unfold ct_eq in Ha. reflect. subst d.
  rewrite fmap_app, fmap_cons in Hnd. apply NoDup_app in Hnd as (H1 & H2 & [H3 H4]%NoDup_cons).
  rewrite forallb_app in Hv. simpl in Hv. reflect.
  rewrite check_recovery_codes_ok, forallb_app, !fmap_app, NoDup_app, not_elem_of_app.
  split_and!; try done.
  - apply andb_true_iff. auto.
  - intros x Hx Hx2. apply (H2 x Hx). by right.
  - intros c _. apply not_elem_of_nil.
  - intros Hx. apply (H2 _ Hx). by left.
Qed.

Lemma remove_first_none l d :
  d ∉ rc_digest <$> l → remove_first (λ r, ct_eq (rc_digest r) d) l = None.
Proof.
  induction l as [|a l IH]; [done|]. rewrite fmap_cons, not_elem_of_cons. intros [Hne Hni]. simpl.
  unfold ct_eq at 1. rewrite bool_decide_false by done. by rewrite IH.
Qed.

(** ** The account invariant *)

Lemma user_ok_set_codes l u :
  user_ok u → check_recovery_codes [] l = Ok tt → user_ok (set_recovery_codes l u).
Proof. intros Hok Hl. apply (user_ok_update u); try done. apply Hok. Qed.

(** The digests of the codes that rotation draws for account [id].  Ten draws of
    160 random bits with equal SHA-256 digests would make the record invalid, so
    rotation is stated under the assumption that this does not happen. *)
Definition drawn_digests (id : Uuid) (o : oracle) (w : world) : list str :=
  match ((_ ← require_user id; _ ← now; recovery_codes) o w).1 with
  | Ok codes => recovery_digest <$> codes
  | Err _ => []
  end.

Lemma recovery_digest_ok code : digest_ok (recovery_digest code) = true.
Proof.
  unfold digest_ok, recovery_digest. set (b := sha256 _). pose proof (hex_encode_digits b) as Hd.
  assert (Ha : is_ascii (hex_encode b) = true).
  { unfold is_ascii. rewrite forallb_forall in *. intros c Hc. specialize (Hd c Hc).
    unfold is_ascii_hexdigit, is_ascii_digit, in_range in Hd. lia. }
  rewrite bytes_ascii, len_ascii, hex_encode_length, Hd by done. unfold b. by rewrite sha256_length.
Qed.

Lemma wp_rotate_recovery_codes self id o w :
  accounts_ok (vw w) → NoDup (drawn_digests id o w) →
  wp (rotate_recovery_codes self id) o w (λ res w', accounts_ok (vw w') ∧
    ∀ u' codes, res = Ok (u', codes) → stored_user (vw w') id u' ∧
      rc_digest <$> u_recovery_codes u' = recovery_digest <$> codes).
Proof.
  intros Hacc Hdist.
  assert (Hu : wp (require_user id) o w (λ r w1, vw w1 = vw w ∧ ∀ u, r = Ok u → stored_user (vw w) id u)).
  { apply wp_require_user; [done|done|]. intros u w1 Hv Hu. split; [done|]. by intros ? [= <-]. }
  apply wp_bind. unfold wp in Hu. unfold wp at 1. unfold drawn_digests, mbind, M_bind in Hdist.
  destruct (require_user id o w) as [[u|e] w1]; simpl in *; destruct Hu as [Hv1 Hu]; [|by rewrite Hv1].
  specialize (Hu u eq_refl). apply wp_bind, wp_now, wp_bind. unfold wp at 1.
  pose proof (recovery_codes_reads eq o (tick w1)) as Hv2. fold (tick w1) in Hdist.
  destruct (recovery_codes o (tick w1)) as [[codes|e] w2]; simpl in *; [|by rewrite <- Hv2; rewrite <- Hv1 in Hacc].
  assert (Hv : vw w2 = vw w) by (rewrite <- Hv2; exact Hv1).
  set (l := (λ code, mkRecoveryCode (recovery_digest code) _) <$> codes).
  assert (Hld : rc_digest <$> l = recovery_digest <$> codes) by (unfold l; by rewrite <- list_fmap_compose).
  assert (Hl : check_recovery_codes [] l = Ok tt).
  { apply check_recovery_codes_ok. rewrite Hld. split_and!; [|done|by intros c _ ?%not_elem_of_nil].
    apply forallb_forall. intros x (c & -> & _)%list_elem_of_In%list_elem_of_fmap. apply recovery_digest_ok. }
  apply wp_bind. eapply wp_mono.
  - apply (wp_persist self id u); rewrite ?Hv; try done.
    apply user_ok_set_codes; [by eapply stored_user_ok|done].
  - intros [[]|e] w' [Ha Hs]; [|done]. apply wp_ret. split; [done|]. intros u' cs [= <- <-]. auto.
Qed.

Lemma rotate_recovery_codes_accounts self id o :
  (∀ w, NoDup (drawn_digests id o w)) → keeps o accounts_ok (rotate_recovery_codes self id).
Proof. intros Hd w Hacc. eapply wp_mono; [by apply wp_rotate_recovery_codes; auto|]. by intros res w' [? _]. Qed.

Lemma wp_consume_recovery_code self i code o w :
  accounts_ok (vw w) →
  wp (consume_recovery_code self i code) o w (λ res w', accounts_ok (vw w') ∧
    ∀ u', res = Ok u' → ∃ id, stored_user (vw w') id u' ∧ i ∈ linked u' ∧
      recovery_digest code ∉ rc_digest <$> u_recovery_codes u').
Proof.
  intros Hacc. apply wp_bind, wp_lift. destruct (validate_recovery_code code); [|done].
  apply wp_bind, wp_user_by_identifier; [done|by intros ? ->|intros w1 Hv1 _|intros id u w1 Hv1 Hu Hi].
  { apply wp_bind, wp_some_or; [done|]. intros _. by rewrite Hv1. }
  apply wp_bind, wp_some_or; [|done]. intros ? [= <-]. cbv zeta.
  apply wp_bind, wp_some_or; [|intros _; by rewrite Hv1]. intros codes Hcodes.
  pose proof (stored_user_ok _ _ _ Hu) as Hok.
  destruct (remove_code_ok _ _ _ (uok_recovery _ Hok) Hcodes) as [Hl Hgone].
  eapply wp_mono.
  - apply (wp_persist_with_event self id u); rewrite ?Hv1; try done. by apply user_ok_set_codes.
  - intros r w' [Ha Hst]. split; [done|]. intros u' Hr. destruct (Hst u' Hr) as [-> Hu'].
    exists id. by split_and!.
Qed.

Lemma consume_recovery_code_accounts self i code o :
  keeps o accounts_ok (consume_recovery_code self i code).
Proof. intros w Hacc. eapply wp_mono; [by apply wp_consume_recovery_code|]. by intros res w' [? _]. Qed.

Lemma wp_add_recovery_passkey self id label pk o w :
  accounts_ok (vw w) →
  wp (add_recovery_passkey self id label pk) o w (λ res w', accounts_ok (vw w') ∧
    ∀ u', res = Ok u' → stored_user (vw w') id u' ∧ u_recovery_codes u' = [] ∧
      credential_id pk ∈ credentials u' ∧
      ∃ u, stored_user (vw w) id u ∧ u_session_version u' = saturating_add (u_session_version u) 1).
Proof.
  intros Hacc. apply wp_bind, wp_require_user; [done|by intros ?? ->|]. intros u w1 Hv1 Hu. cbv zeta.
  apply wp_bind, wp_get_view; [intros w2 -> _; by rewrite Hv1|]. intros t w2 Hv2. rewrite Hv1 in Hv2 |- *.
  apply wp_bind, wp_ensure; [intros Hfree|intros _; by rewrite Hv2]. reflect.
  apply wp_bind, wp_now. set (u' := set_recovery_codes [] _).
  pose proof (stored_user_ok _ _ _ Hu) as Hok.
  assert (Hcr : credentials u' = credentials u ++ [credential_id pk]).
  { unfold credentials, u'. simpl. by rewrite fmap_app. }
  assert (Hv : vw (tick w2) = vw w) by exact Hv2. eapply wp_mono.
  - apply (wp_link_commit self id u); rewrite ?Hv; try done.
    + by apply (user_ok_update u); try done; apply Hok.
    + by eapply credential_free.
  - intros res w' [Ha Hst]. split; [done|]. intros x Hx. destruct (Hst x Hx) as [-> Hu'].
    split_and!; [done|done|rewrite Hcr; apply elem_of_app; right; by left|]. by exists u.
Qed.

Lemma add_recovery_passkey_accounts self id label pk o :
  keeps o accounts_ok (add_recovery_passkey self id label pk).
Proof. intros w Hacc. eapply wp_mono; [by apply wp_add_recovery_passkey|]. by intros res w' [? _]. Qed.

(** ** Properties *)


(** completing recovery revokes what came before: the account holds the new
    passkey and no recovery codes, and every session record of an older session
    version is refused on every later request. *)
Theorem recovery_revokes self id label pk o w u' w' token idle o2 e r :
  accounts_ok (vw w) → add_recovery_passkey self id label pk o w = (Ok u', w') →
  (∀ u, stored_user (vw w) id u → u_session_version u < u64_max ∧ s_session_version r ≤ u_session_version u) →
  vw w' !! session_key token = Some e → from_json (e_val e) = Some r → s_user_id r = id →
  credential_id pk ∈ credentials u' ∧ u_recovery_codes u' = [] ∧
  ∀ x touches, (session token idle o2 w').1 ≠ Ok (Some x, touches).
Proof.
  intros Hacc Hrun Hold Hk Hr Hid.
  pose proof (wp_add_recovery_passkey self id label pk o w Hacc) as Hwp. unfold wp in Hwp.
  rewrite Hrun in Hwp. destruct Hwp as [Ha Hst].
  destruct (Hst u' eq_refl) as (Hu' & Hcodes & Hc & u & Hu & Hver). destruct (Hold u Hu) as [Hlt Hle].
  split_and!; [done..|]. apply (session_refused token idle o2 w' e r); [done..|].
  rewrite Hid. intros u2 Hu2 Heq _.
  rewrite (stored_user_inj _ _ _ _ Hu2 Hu'), Hver, saturating_add_exact in Heq by lia. lia.
Qed.
End Recovery.

(** ** Witnesses *)

Import DemoEnv.

(** Recovery codes are issued to the signed-in account and one is used. *)
Abbreviation demo_rotated := (rotate_recovery_codes demo_store demo_id demo_oracle demo_signed_in.2).
Definition demo_recovery_code : str :=
  match demo_rotated.1 with Ok (_, code :: _) => code | _ => [] end.
Abbreviation demo_recovered :=
  (consume_recovery_code demo_store demo_email demo_recovery_code demo_oracle demo_rotated.2).

Lemma demo_rotated_accounts : accounts_ok (vw demo_rotated.2).
Proof.
  refine (proj1 (wp_rotate_recovery_codes demo_store demo_id demo_oracle demo_signed_in.2
    demo_signed_in_accounts _)).
  refine (bool_decide_eq_true_1 (NoDup (drawn_digests demo_id demo_oracle demo_signed_in.2)) _). eval_eq.
Qed.


(** Recovery is completed with a new passkey. *)
Definition demo_new_passkey : @Passkey (@env_webauthn demo_env) := ([7; 8; 9], 0).
Abbreviation demo_restored :=
  (add_recovery_passkey demo_store demo_id #"Phone" demo_new_passkey demo_oracle demo_signed_in.2).

Lemma recovery_revokes_witness :
  is_ok demo_restored.1 = true ∧
  ∀ x touches, (session demo_token 600 demo_oracle demo_restored.2).1 ≠ Ok (Some x, touches).
Proof.
  assert (Hok : is_ok demo_restored.1 = true) by eval_eq. split; [exact Hok|].
  destruct (is_ok_run demo_restored Hok) as [u Hr].
  refine (proj2 (proj2 (recovery_revokes demo_store demo_id #"Phone" demo_new_passkey demo_oracle
    demo_signed_in.2 u demo_restored.2 demo_token 600 demo_oracle (Entry (to_json demo_session) (Some 4605))
    demo_session demo_signed_in_accounts Hr _ _ _ _))); [|eval_eq..].
  intros v Hv. rewrite (demo_signed_in_user v Hv). split; [apply N.ltb_lt|apply N.leb_le]; eval_eq.
Defined.
