(* ===== verification/Ceremonies.v ===== *)
(** * One-time ceremonies and handoffs (src/src/store/ceremonies.rs)

    WebAuthn registration and authentication ceremonies and the local agent
    handoff codes: stored with a time to live, taken by one atomic
    get-and-delete, and refused once their own deadline has passed. *)

From S2P Require Import Prelude Sable Logic Demo Records Events Identifiers Users Invitations Accounts.

Inductive RegistrationPurpose := Initial | AddCredential | RecoverAccount.
Inductive AuthenticationPurpose := SignIn | StepUp.

#[global] Instance RegistrationPurpose_eq_dec : EqDecision RegistrationPurpose.
Proof. solve_decision. Defined.
#[global] Instance AuthenticationPurpose_eq_dec : EqDecision AuthenticationPurpose.
Proof. solve_decision. Defined.

Definition registration_key `{ExtUuid} (id : Uuid) : str := #"auth:registration:" ++ uuid_show id.
Definition authentication_key `{ExtUuid} (id : Uuid) : str := #"auth:authentication:" ++ uuid_show id.
Definition handoff_key `{ExtCrypto} (code : str) : str :=
  #"auth:agent-handoff:" ++ hex_encode (sha256 (bytes code)).

Section Ceremonies.
Context `{Env}.

Record RegistrationCeremony := mkRegistration {
  reg_id : Uuid;
  reg_user_id : Uuid;
  reg_email : str;
  reg_identifier : option IdentifierValue;
  reg_profile : AccountProfile;
  reg_purpose : RegistrationPurpose;
  reg_initiating_session_id : option Uuid;
  reg_invitation_id : option Uuid;
  reg_invitation_digest : option str;
  reg_label : option str;
  reg_expires_at : N;
  reg_state : PasskeyRegistration
}.

Definition account_identifier (c : RegistrationCeremony) : option IdentifierValue :=
  match reg_identifier c with
  | Some i => Some i
  | None => match reg_email c with
            | [] => None
            | email => Some (mkIdentifier Email email)
            end
  end.

Record AuthenticationCeremony := mkAuthentication {
  auth_id : Uuid;
  auth_user_id : Uuid;
  auth_purpose : AuthenticationPurpose;
  auth_initiating_session_id : option Uuid;
  auth_expires_at : N;
  auth_state : PasskeyAuthentication
}.

Record LocalAgentHandoff := mkHandoff {
  ho_user_id : Uuid;
  ho_redirect_url : str;
  ho_expires_at : N
}.

Context `{!Serde AuthEvent, !Serde User}.
Context `{!Serde RegistrationCeremony, !Serde AuthenticationCeremony, !Serde LocalAgentHandoff}.

Definition save_registration (ceremony : RegistrationCeremony) : M error unit :=
  t ← now;
  set_json_ex (registration_key (reg_id ceremony)) ceremony
    (N.max (saturating_sub (reg_expires_at ceremony) t) 1).

Definition take_registration (id : Uuid) : M error RegistrationCeremony :=
  found ← take_json (registration_key id);
  ceremony ← some_or (EBail "registration ceremony is missing or already used") found;
  t ← now;
  ensure (t <? reg_expires_at ceremony) (EBail "registration ceremony has expired");;
  mret ceremony.

Definition save_authentication (ceremony : AuthenticationCeremony) : M error unit :=
  t ← now;
  set_json_ex (authentication_key (auth_id ceremony)) ceremony
    (N.max (saturating_sub (auth_expires_at ceremony) t) 1).

Definition take_authentication (id : Uuid) : M error AuthenticationCeremony :=
  found ← take_json (authentication_key id);
  ceremony ← some_or (EBail "authentication ceremony is missing or already used") found;
  t ← now;
  ensure (t <? auth_expires_at ceremony) (EBail "authentication ceremony has expired");;
  mret ceremony.

Definition create_local_agent_handoff (self : Store) (email redirect_url : str) (lifetime_seconds : N) :
    M error str :=
  found ← user_by_email email;
  u ← some_or (EBail "account does not exist") found;
  raw ← random_bytes 32;
  let code := b64url_encode raw in
  t ← now;
  let handoff := mkHandoff (u_id u) redirect_url (saturating_add t lifetime_seconds) in
  set_json_ex (handoff_key code) handoff lifetime_seconds;;
  append_event_within_snapshot self #"agent.handoff.created" (Some (u_id u));;
  mret code.

Definition take_local_agent_handoff (code : str) : M error LocalAgentHandoff :=
  ensure (negb ((len code <? 32) || (256 <? len code))) (EBail "agent handoff code is invalid");;
  found ← take_json (handoff_key code);
  handoff ← some_or (EBail "agent handoff is missing or already used") found;
  t ← now;
  ensure (t <? ho_expires_at handoff) (EBail "agent handoff has expired");;
  mret handoff.

(** ** Frames *)

Lemma save_registration_extends c : moves log_extends (save_registration c).
Proof. unfold save_registration, set_json_ex. log_go. Qed.
Lemma save_registration_accounts c : leaves is_account_key (save_registration c).
Proof. unfold save_registration, set_json_ex. leaves_go off_log_accounts. Qed.
Lemma save_authentication_extends c : moves log_extends (save_authentication c).
Proof. unfold save_authentication, set_json_ex. log_go. Qed.
Lemma save_authentication_accounts c : leaves is_account_key (save_authentication c).
Proof. unfold save_authentication, set_json_ex. leaves_go off_log_accounts. Qed.

Lemma take_json_extends {A : Type} `{!Serde A} k :
  is_log_key k = false → moves log_extends (take_json k : M error (option A)).
Proof.
  intros Hk. apply moves_take_json; [apply _|]. intros m. apply log_extends_agree. intros k' Hk'.
  rewrite lookup_delete_ne; [done|]. by intros ->; rewrite Hk in Hk'.
Qed.

Lemma take_json_leaves {A : Type} `{!Serde A} P k :
  P k = false → leaves P (take_json k : M error (option A)).
Proof.
  intros Hk. apply moves_take_json; [apply _|]. intros m k' Hk'.
  rewrite lookup_delete_ne; [done|]. by intros ->; rewrite Hk in Hk'.
Qed.

Lemma take_registration_extends id : moves log_extends (take_registration id).
Proof. unfold take_registration. log_go. by apply take_json_extends. Qed.
Lemma take_registration_accounts id : leaves is_account_key (take_registration id).
Proof. unfold take_registration. leaves_go off_log_accounts. by apply take_json_leaves. Qed.
Lemma take_authentication_extends id : moves log_extends (take_authentication id).
Proof. unfold take_authentication. log_go. by apply take_json_extends. Qed.
Lemma take_authentication_accounts id : leaves is_account_key (take_authentication id).
Proof. unfold take_authentication. leaves_go off_log_accounts. by apply take_json_leaves. Qed.
Lemma take_local_agent_handoff_extends c : moves log_extends (take_local_agent_handoff c).
Proof. unfold take_local_agent_handoff. log_go. by apply take_json_extends. Qed.
Lemma take_local_agent_handoff_accounts c : leaves is_account_key (take_local_agent_handoff c).
Proof. unfold take_local_agent_handoff. leaves_go off_log_accounts. by apply take_json_leaves. Qed.

Lemma create_local_agent_handoff_extends self e r n : moves log_extends (create_local_agent_handoff self e r n).
Proof.
  unfold create_local_agent_handoff, set_json_ex. log_go.
  apply user_by_identifier_reads, _.
Qed.

Lemma create_local_agent_handoff_accounts self e r n :
  leaves is_account_key (create_local_agent_handoff self e r n).
Proof.
  unfold create_local_agent_handoff, set_json_ex, append_event_within_snapshot.
  leaves_go off_log_accounts. apply user_by_identifier_reads, _.
Qed.

(** ** Taking a one-time record *)

Section OneTime.
Context {A : Type} `{!Serde A} (k : str) (expires : A → N) (e1 e2 : error).

Let take : M error A :=
  found ← take_json k;
  c ← some_or e1 found;
  t ← now;
  ensure (t <? expires c) e2;;
  mret c.

(** A successful take returns the stored, unexpired record and leaves none. *)
Lemma wp_one_time o w :
  wp take o w (λ r w', ∀ c, r = Ok c → vw w' !! k = None ∧ clock o w < expires c ∧
    ∃ t v, live t (vw w) k = Some v ∧ from_json v = Some c).
Proof.
  apply wp_bind, wp_take_json; [done|]. intros d Hd.
  destruct (live (trip_time o w) (vw w) k) as [v|] eqn:Hl; [destruct (from_json v) as [c|] eqn:Hj|];
    [|done|by apply wp_bind, wp_some_or].
  apply wp_bind, wp_some_or; [|done]. intros ? [= <-]. apply wp_bind, wp_now.
  apply wp_bind, wp_ensure; [|done]. intros Ht. apply wp_ret. intros c' [= <-]. reflect.
  split_and!; [|done|by eauto]. change (vw (tick (after_trip w d))) with (db_view d).
  by rewrite Hd, lookup_delete_eq.
Qed.

Lemma one_time_gone o w : vw w !! k = None → is_ok (take o w).1 = false.
Proof.
  intros Hk. destruct ((take o w).1) as [c|e] eqn:Hr; [|done].
  destruct (wp_one_time o w c Hr) as (_ & _ & t & v & Hl & _). by rewrite live_missing in Hl.
Qed.

Lemma one_time_once o w c w' o' :
  take o w = (Ok c, w') →
  (∃ t v, live t (vw w) k = Some v ∧ from_json v = Some c) ∧ clock o w < expires c ∧
  is_ok (take o' w').1 = false.
Proof.
  intros Hrun. pose proof (wp_one_time o w) as Hwp. unfold wp in Hwp. rewrite Hrun in Hwp.
  destruct (Hwp c eq_refl) as (Hk & Ht & Hs). split_and!; [done..|by apply one_time_gone].
Qed.

(** A stored record that is still live and unexpired is returned. *)
Lemma one_time_returns o w c dl :
  reliable o → vw w !! k = Some (Entry (to_json c) (Some dl)) →
  trip_time o w < dl → clock o w < expires c → (take o w).1 = Ok c.
Proof.
  intros Hr Hk Hdl Hc. change (wp take o w (λ r _, r = Ok c)).
  apply wp_bind, wp_take_json; [by no_fault|]. intros d Hd.
  assert (live (trip_time o w) (vw w) k = Some (to_json c)) as ->.
  { unfold live, expired. rewrite Hk. simpl. destruct (N.leb_spec dl (trip_time o w)); [lia|done]. }
  rewrite from_to_json. apply wp_bind, wp_some_or; [|done]. intros ? [= <-]. apply wp_bind, wp_now.
  apply wp_bind, wp_ensure; [by intros _; apply wp_ret|]. intros Hf. reflect.
  change (clock o (after_trip w d)) with (clock o w) in Hf. lia.
Qed.
End OneTime.

(** ** Properties *)

(** ceremonies and handoff codes are single use: what a successful take
    returns was stored under the presented id or code and has not passed its own
    deadline, and no later take of it succeeds, whatever the datastore does. *)
Theorem ceremonies_single_use o w o' :
  (∀ id c w', take_registration id o w = (Ok c, w') →
     (∃ t v, live t (vw w) (registration_key id) = Some v ∧ from_json v = Some c) ∧
     clock o w < reg_expires_at c ∧ is_ok (take_registration id o' w').1 = false) ∧
  (∀ id c w', take_authentication id o w = (Ok c, w') →
     (∃ t v, live t (vw w) (authentication_key id) = Some v ∧ from_json v = Some c) ∧
     clock o w < auth_expires_at c ∧ is_ok (take_authentication id o' w').1 = false) ∧
  (∀ code c w', take_local_agent_handoff code o w = (Ok c, w') →
     (∃ t v, live t (vw w) (handoff_key code) = Some v ∧ from_json v = Some c) ∧
     clock o w < ho_expires_at c ∧ is_ok (take_local_agent_handoff code o' w').1 = false).
Proof.
  split_and!.
  - intros id c w'. apply one_time_once.
  - intros id c w'. apply one_time_once.
  - intros code c w'. unfold take_local_agent_handoff, ensure at 1 3, mbind at 1 8, M_bind at 1 8.
    destruct (negb _); [|done]. apply one_time_once.
Qed.

(** A saved registration ceremony can be taken: if the clock has not reached
    its deadline and the datastore has not expired the record, the next take of
    its id returns exactly the saved ceremony. *)
Theorem registration_roundtrip c o w :
  reliable o → clock o (tick w) < reg_expires_at c →
  t_at (o_trip o (S (w_trip w))) <
    t_at (o_trip o (w_trip w)) + N.max (reg_expires_at c - clock o w) 1 →
  ∃ w', save_registration c o w = (Ok tt, w') ∧ (take_registration (reg_id c) o w').1 = Ok c.
Proof.
  intros Hr Hclock Htrip.
  assert (wp (save_registration c) o w (λ r w', r = Ok tt ∧
            (take_registration (reg_id c) o w').1 = Ok c)) as Hwp.
  { assert ((N.max (saturating_sub (reg_expires_at c) (clock o w)) 1 =? 0) = false) as Httl
      by (apply N.eqb_neq; lia).
    apply wp_bind, wp_now, wp_execute; [simpl; by rewrite Httl|by no_fault|].
    intros d Hd. split; [done|].
    apply (one_time_returns _ reg_expires_at _ _ _ _ _
      (trip_time o (tick w) + N.max (reg_expires_at c - clock o w) 1)); [done| |done|done].
    change (vw (after_trip (tick w) d)) with (db_view d). rewrite Hd. simpl.
    rewrite Httl. simpl. by rewrite lookup_insert_eq. }
  unfold wp in Hwp. destruct (save_registration c o w) as [r w'], Hwp as [Hr' Ht]. simpl in *. subst. eauto.
Qed.
End Ceremonies.

(** ** Witnesses *)

Import DemoEnv.

#[export] Program Instance codec_registration_purpose : Codec RegistrationPurpose :=
  codec_iso (A:=N) (λ p : RegistrationPurpose, match p with Initial => 0 | AddCredential => 1 | RecoverAccount => 2 end)
    (λ n, Some (if n =? 0 then Initial else if n =? 1 then AddCredential else RecoverAccount)) _.
Next Obligation. by intros []. Qed.

#[export] Program Instance codec_authentication_purpose : Codec AuthenticationPurpose :=
  codec_iso (A:=bool) (λ p : AuthenticationPurpose, match p with SignIn => true | StepUp => false end)
    (λ b, Some (if b then SignIn else StepUp)) _.
Next Obligation. by intros []. Qed.

#[export] Program Instance codec_registration : Codec RegistrationCeremony :=
  codec_iso (A:=(Uuid * (Uuid * (str * (option IdentifierValue * (AccountProfile * (RegistrationPurpose *
      (option Uuid * (option Uuid * (option str * (option str * (N * list N))))))))))))
    (λ c : RegistrationCeremony, (reg_id c, (reg_user_id c, (reg_email c, (reg_identifier c,
    (reg_profile c, (reg_purpose c, (reg_initiating_session_id c, (reg_invitation_id c,
    (reg_invitation_digest c, (reg_label c, (reg_expires_at c, reg_state c))))))))))))
    (λ '(a, (b, (c, (d, (e, (f, (g, (h, (i, (j, (k, l))))))))))),
       Some (mkRegistration a b c d e f g h i j k l)) _.
Next Obligation. by intros []. Qed.

#[export] Program Instance codec_authentication : Codec AuthenticationCeremony :=
  codec_iso (A:=(Uuid * (Uuid * (AuthenticationPurpose * (option Uuid * (N * list N))))))
    (λ c : AuthenticationCeremony, (auth_id c, (auth_user_id c, (auth_purpose c,
    (auth_initiating_session_id c, (auth_expires_at c, auth_state c))))))
    (λ '(a, (b, (c, (d, (e, f))))), Some (mkAuthentication a b c d e f)) _.
Next Obligation. by intros []. Qed.

#[export] Program Instance codec_handoff : Codec LocalAgentHandoff :=
  codec_iso (λ h : LocalAgentHandoff, (ho_user_id h, (ho_redirect_url h, ho_expires_at h)))
    (λ '(a, (b, c)), Some (mkHandoff a b c)) _.
Next Obligation. by intros []. Qed.

Definition demo_registration : RegistrationCeremony :=
  mkRegistration (demo_uuid_of 7) demo_id [] (Some demo_email) demo_profile Initial None None None None 1300 [].

Lemma registration_roundtrip_witness :
  ∃ w', save_registration demo_registration demo_oracle (demo_world []) = (Ok tt, w') ∧
    (take_registration (reg_id demo_registration) demo_oracle w').1 = Ok demo_registration.
Proof.
  apply (registration_roundtrip demo_registration demo_oracle (demo_world [])).
  - exact demo_reliable.
  - by apply N.ltb_lt; vm_compute.
  - by apply N.ltb_lt; vm_compute.
Defined.

(** A saved ceremony is taken, and taken again in vain. *)
Abbreviation demo_saved := (save_registration demo_registration demo_oracle (demo_world [])).
Abbreviation demo_taken := (take_registration (reg_id demo_registration) demo_oracle demo_saved.2).

Lemma ceremonies_single_use_witness :
  is_ok demo_taken.1 = true ∧
  is_ok (take_registration (reg_id demo_registration) demo_oracle demo_taken.2).1 = false.
Proof.
  assert (Hok : is_ok demo_taken.1 = true) by eval_eq. split; [exact Hok|].
  destruct (is_ok_run demo_taken Hok) as [c Hr].
  exact (proj2 (proj2 (proj1 (ceremonies_single_use demo_oracle demo_saved.2 demo_oracle) _ _ _ Hr))).
Defined.
