(* ===== verification/Verification.v ===== *)
(** * Identifier verification (src/src/store/verification.rs)

    One-time challenges that prove control of an email address or phone number.
    A challenge is taken atomically by the first well-formed attempt, right or
    wrong, so a code can be guessed once. *)

From S2P Require Import Prelude Sable Logic Demo Records Events Identifiers Users Invitations Accounts Ceremonies.

Definition VERIFICATION_SECONDS : N := 900.
Definition VERIFICATION_DOMAIN : list N := bytes #"rustyauth.identifier-verification.v1" ++ [0].

Record IdentifierVerificationChallenge := mkChallenge {
  ch_id : Uuid;
  ch_user_id : Uuid;
  ch_identifier : IdentifierValue;
  ch_code_digest : str;
  ch_created_at : N;
  ch_expires_at : N
}.

Definition verification_key `{ExtUuid} (id : Uuid) : str :=
  #"auth:identifier-verification:" ++ uuid_show id.

Definition invalid_challenge : error := EBail "verification challenge is invalid or expired".

Definition validate_verification_code (raw_code : str) : result error unit :=
  if negb (len raw_code =? 26) || negb (starts_with #"rvc_" raw_code)
     || negb (forallb is_b64url (bytes (drop 4 raw_code)))
  then Err invalid_challenge else Ok tt.

Definition verification_digest `{ExtCrypto} (raw_code : str) : str :=
  hex_encode (sha256 (VERIFICATION_DOMAIN ++ bytes raw_code)).

Section Verification.
Context `{Env}.
Context `{!Serde AuthEvent, !Serde User, !Serde IdentifierVerificationChallenge}.

Definition create_identifier_verification (self : Store) (user_id : Uuid) (identifier : IdentifierValue) :
    M error (IdentifierVerificationChallenge * str) :=
  u ← require_user user_id;
  account_identifier ← some_or (EPolicy IdentifierNotLinked)
    (List.find (matches_identifier identifier) (u_identifiers u));
  ensure (negb (ai_verified account_identifier)) (EBail "identifier is already verified");;
  raw ← random_bytes 16;
  let raw_code := #"rvc_" ++ b64url_encode raw in
  created_at ← now;
  id ← new_v4;
  let challenge := mkChallenge id user_id identifier (verification_digest raw_code) created_at
                     (saturating_add created_at VERIFICATION_SECONDS) in
  set_json_ex (verification_key id) challenge VERIFICATION_SECONDS;;
  append_event_locked self #"identifier.verification.requested" (Some user_id);;
  mret (challenge, raw_code).

Definition consume_identifier_verification (challenge_id user_id : Uuid) (raw_code : str) :
    M error IdentifierValue :=
  _ ← lift (validate_verification_code raw_code);
  found ← take_json (verification_key challenge_id);
  challenge ← some_or (EBail "verification challenge is missing or already used") found;
  (if bool_decide (ch_user_id challenge = user_id)
   then t ← now; ensure (t <? ch_expires_at challenge) invalid_challenge
   else fail invalid_challenge);;
  ensure (ct_eq (ch_code_digest challenge) (verification_digest raw_code)) invalid_challenge;;
  mret (ch_identifier challenge).

Definition delete_identifier_verification (challenge_id : Uuid) : M error unit :=
  store_delete (verification_key challenge_id).

(** ** Frames *)

Lemma create_identifier_verification_extends self id i :
  moves log_extends (create_identifier_verification self id i).
Proof. unfold create_identifier_verification, set_json_ex. log_go. apply require_user_reads, _. Qed.

Lemma create_identifier_verification_accounts self id i :
  leaves is_account_key (create_identifier_verification self id i).
Proof.
  unfold create_identifier_verification, set_json_ex. leaves_go off_log_accounts.
  apply require_user_reads, _.
Qed.

Lemma consume_identifier_verification_extends c id code :
  moves log_extends (consume_identifier_verification c id code).
Proof. unfold consume_identifier_verification. log_go. by apply take_json_extends. Qed.

Lemma consume_identifier_verification_accounts c id code :
  leaves is_account_key (consume_identifier_verification c id code).
Proof.
  unfold consume_identifier_verification. leaves_go off_log_accounts. by apply take_json_leaves.
Qed.

Lemma delete_identifier_verification_extends c : moves log_extends (delete_identifier_verification c).
Proof. unfold delete_identifier_verification, store_delete. log_go. Qed.

Lemma delete_identifier_verification_accounts c : leaves is_account_key (delete_identifier_verification c).
Proof. unfold delete_identifier_verification, store_delete. leaves_go off_log_accounts. Qed.

(** ** Attempts *)

(** The challenge stored under [id] is addressed to [user_id] and answered by
    [code]. *)
Definition answers (m : gmap str entry) (id user_id : Uuid) (code : str)
    (c : IdentifierVerificationChallenge) : Prop :=
  (∃ t v, live t m (verification_key id) = Some v ∧ from_json v = Some c) ∧
  ch_user_id c = user_id ∧ ch_code_digest c = verification_digest code.

(** Unless the trip itself fails, a well-formed attempt destroys the challenge;
    it succeeds only with the right code, for the right account, in time. *)
Lemma wp_consume_verification id user_id code o w :
  validate_verification_code code = Ok tt →
  wp (consume_identifier_verification id user_id code) o w (λ r w',
    (r ≠ Err EDb → vw w' !! verification_key id = None) ∧
    ∀ i, r = Ok i → ∃ c, answers (vw w) id user_id code c ∧ i = ch_identifier c ∧
                         clock o w < ch_expires_at c).
Proof.
  intros Hv. unfold consume_identifier_verification. rewrite Hv. apply wp_bind, wp_lift.
  apply wp_bind, wp_take_json; [done|]. intros d Hd.
  assert (db_view d !! verification_key id = None) as Hgone by (by rewrite Hd, lookup_delete_eq).
  destruct (live (trip_time o w) (vw w) _) as [v|] eqn:Hl; [destruct (from_json v) as [c|] eqn:Hj|];
    [|done|by apply wp_bind, wp_some_or].
  apply wp_bind, wp_some_or; [|done]. intros ? [= <-]. apply wp_bind.
  case_bool_decide as Hu; [|by apply wp_fail].
  apply wp_bind, wp_now, wp_ensure; [|done]. intros Ht. apply wp_bind, wp_ensure; [|done].
  unfold ct_eq. intros Hc. apply wp_ret. reflect. split; [done|]. intros i [= <-].
  exists c. split_and!; [|done|done]. split_and!; eauto.
Qed.

Lemma verification_gone id user_id code o w :
  vw w !! verification_key id = None → is_ok (consume_identifier_verification id user_id code o w).1 = false.
Proof.
  intros Hk. destruct (validate_verification_code code) as [[]|] eqn:Hv.
  - destruct (_ o w).1 as [i|e] eqn:Hr; [|done].
    destruct (wp_consume_verification id user_id code o w Hv) as [_ Hok].
    destruct (Hok i Hr) as (c & ((t & v & Hl & _) & _) & _). by rewrite live_missing in Hl.
  - unfold consume_identifier_verification. by rewrite Hv.
Qed.

Lemma verification_code_valid raw :
  length raw = 16%nat → validate_verification_code (#"rvc_" ++ b64url_encode raw) = Ok tt.
Proof.
  intros Hlen. pose proof (b64url_alphabet raw) as Ha. pose proof (b64url_ascii _ Ha) as Hascii.
  pose proof (b64url_length raw) as Hl. rewrite Hlen in Hl.
  unfold validate_verification_code.
  rewrite len_ascii by exact Hascii. rewrite length_app, Hl.
  change (drop 4 (#"rvc_" ++ b64url_encode raw)) with (b64url_encode raw).
  rewrite bytes_ascii, Ha by exact Hascii. done.
Qed.

(** What a successful creation has stored. *)
Lemma wp_create_verification self user_id i o w :
  wp (create_identifier_verification self user_id i) o w (λ r w', ∀ c code, r = Ok (c, code) →
    validate_verification_code code = Ok tt ∧ ch_code_digest c = verification_digest code ∧
    ch_user_id c = user_id ∧ ch_identifier c = i ∧
    ∃ dl, vw w' !! verification_key (ch_id c) = Some (Entry (to_json c) (Some dl))).
Proof.
  apply wp_bind, (wp_reads _ _ _ _ (require_user_reads eq user_id)). intros [u|e] w1 _; [|done].
  apply wp_bind, wp_some_or; [|done]. intros ai _. apply wp_bind, wp_ensure; [|done]. intros _.
  apply wp_bind, wp_random_bytes. intros raw w' Hraw _ _ _. cbv zeta.
  apply wp_bind, wp_now, wp_bind, wp_new_v4. intros id w'' _ _ _. set (c := mkChallenge _ _ _ _ _ _).
  apply wp_bind, wp_execute_view; [done|]. intros w2 t2 _ Hv2. apply wp_bind.
  eapply wp_mono.
  - apply (keeps_moves o (λ m, m !! verification_key (ch_id c) = Some (Entry (to_json c) (Some (t2 + 900)))) _ _
      (leaves_append (λ k, negb (is_log_key k)) self #"identifier.verification.requested" (Some user_id)
        ltac:(by intros k ?%negb_true_iff))).
    + intros m m' Ha Hm. by rewrite Ha.
    + rewrite Hv2. simpl. by rewrite lookup_insert_eq.
  - intros [ev|e] w3 Hw3; [|done]. apply wp_ret. intros ? ? [= <- <-].
    split_and!; [by apply verification_code_valid|done..|by eauto].
Qed.

(** ** Properties *)

(** A verification code can be tried once: success means that the stored,
    unexpired challenge is addressed to this account and answered by this code,
    and after any well-formed attempt, right or wrong, that the datastore
    answered, no further attempt at the challenge succeeds. *)
Theorem verification_one_attempt id user_id code o w r w' user_id' code' o' :
  validate_verification_code code = Ok tt →
  consume_identifier_verification id user_id code o w = (r, w') → r ≠ Err EDb →
  (∀ i, r = Ok i → ∃ c, answers (vw w) id user_id code c ∧ i = ch_identifier c ∧
                        clock o w < ch_expires_at c) ∧
  is_ok (consume_identifier_verification id user_id' code' o' w').1 = false.
Proof.
  intros Hv Hrun Hne. pose proof (wp_consume_verification id user_id code o w Hv) as [Hgone Hok].
  rewrite Hrun in Hgone, Hok. split; [done|]. by apply verification_gone, Hgone.
Qed.

(** the code handed out with a challenge answers it: while neither the
    challenge's deadline nor the record's time to live has passed, the account it
    was created for redeems it for exactly the requested identifier. *)
Theorem verification_roundtrip self user_id i o w c code w' :
  create_identifier_verification self user_id i o w = (Ok (c, code), w') → reliable o →
  clock o w' < ch_expires_at c →
  (∀ e dl, vw w' !! verification_key (ch_id c) = Some e → e_deadline e = Some dl → trip_time o w' < dl) →
  (consume_identifier_verification (ch_id c) user_id code o w').1 = Ok i.
Proof.
  intros Hrun Hr Hclock Htrip. pose proof (wp_create_verification self user_id i o w) as Hwp.
  unfold wp in Hwp. rewrite Hrun in Hwp. simpl in Hwp.
  destruct (Hwp c code eq_refl) as (Hv & Hdig & Hu & Hi & dl & Hk). specialize (Htrip _ dl Hk eq_refl).
  set (prog := consume_identifier_verification _ _ _).
  change (wp prog o w' (λ r _, r = Ok i)). unfold prog, consume_identifier_verification.
  rewrite Hv. apply wp_bind, wp_lift, wp_bind, wp_take_json; [by no_fault|]. intros d Hd.
  assert (live (trip_time o w') (vw w') (verification_key (ch_id c)) = Some (to_json c)) as ->.
  { unfold live, expired. rewrite Hk. simpl. destruct (N.leb_spec dl (trip_time o w')); [lia|done]. }
  rewrite from_to_json. apply wp_bind, wp_some_or; [|done]. intros ? [= <-].
  rewrite bool_decide_true by done. apply wp_bind, wp_bind, wp_now, wp_ensure.
  - intros _. unfold ct_eq. rewrite Hdig, bool_decide_true by done. apply wp_bind, wp_ret, wp_ret. by rewrite Hi.
  - intros Hf. reflect. change (clock o (after_trip w' d)) with (clock o w') in Hf. lia.
Qed.
End Verification.

(** ** Witnesses *)

Import DemoEnv.

#[export] Program Instance codec_challenge : Codec IdentifierVerificationChallenge :=
  codec_iso (λ c : IdentifierVerificationChallenge, (ch_id c, (ch_user_id c, (ch_identifier c,
    (ch_code_digest c, (ch_created_at c, ch_expires_at c))))))
    (λ '(a, (b, (c, (d, (e, f))))), Some (mkChallenge a b c d e f)) _.
Next Obligation. by intros []. Qed.

(** An unverified address is added to the demo account and verified. *)
Abbreviation demo_added := (add_identifier demo_store demo_id demo_phone false demo_oracle demo_created.2).
Abbreviation demo_requested :=
  (create_identifier_verification demo_store demo_id demo_phone demo_oracle demo_added.2).
Definition demo_challenge : IdentifierVerificationChallenge := Eval vm_compute in
  match demo_requested.1 with
  | Ok (c, _) => c
  | Err _ => mkChallenge demo_id demo_id demo_phone [] 0 0
  end.
Definition demo_verification_code : str := Eval vm_compute in match demo_requested.1 with Ok (_, code) => code | Err _ => [] end.
Abbreviation demo_verified :=
  (consume_identifier_verification (ch_id demo_challenge) demo_id demo_verification_code
     demo_oracle demo_requested.2).

Lemma verification_one_attempt_witness :
  is_ok demo_verified.1 = true ∧
  is_ok (consume_identifier_verification (ch_id demo_challenge) demo_id demo_verification_code
    demo_oracle demo_verified.2).1 = false.
Proof.
  assert (Hok : is_ok demo_verified.1 = true) by eval_eq. split; [exact Hok|].
  destruct (is_ok_run demo_verified Hok) as [i Hr].
  refine (proj2 (verification_one_attempt (ch_id demo_challenge) demo_id demo_verification_code
    demo_oracle demo_requested.2 (Ok i) demo_verified.2 demo_id demo_verification_code demo_oracle _ Hr _)).
  - eval_eq.
  - discriminate.
Defined.

Lemma verification_roundtrip_witness : demo_verified.1 = Ok demo_phone.
Proof.
  apply (verification_roundtrip demo_store demo_id demo_phone demo_oracle demo_added.2
    demo_challenge demo_verification_code demo_requested.2).
  - apply run_ok. eval_eq.
  - exact demo_reliable.
  - apply N.ltb_lt. eval_eq.
  - intros e dl He Hdl.
    assert (Hk : vw demo_requested.2 !! verification_key (ch_id demo_challenge) ≫= e_deadline = Some 1910)
      by eval_eq.
    rewrite He in Hk. pose proof (eq_trans (eq_sym Hdl) Hk) as Heq. injection Heq as ->.
    apply N.ltb_lt. eval_eq.
Defined.
