(* ===== verification/Organization.v ===== *)
(** * The organization record and operator roles (src/src/store/organization.rs)

    Grants are tombstoned rather than deleted, because a missing grant is
    re-created as Owner for an allowlisted account. *)

From S2P Require Import Prelude Sable Logic Demo Records Events Identifiers Users Invitations Accounts.

Definition ORGANIZATION_KEY : str := #"auth:organization".
Definition OPERATOR_PREFIX : str := #"auth:operator:".
Definition OPERATOR_SEEN_PREFIX : str := #"auth:operator-seen:".

Inductive OperatorRoleRecord := Owner | Administrator | Support | Auditor.
#[global] Instance OperatorRoleRecord_eq_dec : EqDecision OperatorRoleRecord.
Proof. solve_decision. Defined.

Record OrganizationRecord := mkOrganization {
  org_id : Uuid;
  org_slug : str;
  org_name : str;
  org_created_at : N
}.

Record OperatorRecord := mkOperator {
  op_user_id : Uuid;
  op_role : OperatorRoleRecord;
  op_created_at : N;
  op_revoked_at : option N
}.

Inductive GrantDecision := Honour | Deny | Bootstrap.

Definition grant_decision (stored : option OperatorRecord) (bootstrap_allowed : bool) : GrantDecision :=
  match stored with
  | Some record => if is_some (op_revoked_at record) then Deny else Honour
  | None => if bootstrap_allowed then Bootstrap else Deny
  end.

Definition operator_key `{ExtUuid} (id : Uuid) : str := OPERATOR_PREFIX ++ uuid_show id.
Definition operator_seen_key `{ExtUuid} (id : Uuid) : str := OPERATOR_SEEN_PREFIX ++ uuid_show id.

Section Organization.
Context `{Env}.

Record OperatorListing := mkListing {
  ol_operator : OperatorRecord;
  ol_user : User;
  ol_last_authenticated_at : option N
}.

Context `{!Serde AuthEvent, !Serde User, !Serde OrganizationRecord, !Serde OperatorRecord}.

Definition ensure_organization (self : Store) (default_name : str) : M error OrganizationRecord :=
  found ← get_json ORGANIZATION_KEY;
  match found with
  | Some organization => mret organization
  | None =>
      id ← new_v4;
      t ← now;
      let organization := mkOrganization id (tenant_id self) default_name t in
      inserted ← set_nx ORGANIZATION_KEY (to_json organization);
      if inserted : bool then
        append_event_within_snapshot self #"organization.created" None;;
        mret organization
      else
        again ← get_json ORGANIZATION_KEY;
        some_or (EBail "organization disappeared during initialization") again
  end.

Definition organization : M error (option OrganizationRecord) := get_json ORGANIZATION_KEY.

Definition update_organization (self : Store) (name : str) : M error OrganizationRecord :=
  found ← get_json ORGANIZATION_KEY;
  org ← some_or (EPolicy OrganizationMissing) found;
  let org := mkOrganization (org_id org) (org_slug org) name (org_created_at org) in
  events ← pending_events self [(#"organization.updated", None)];
  execute ([SET ORGANIZATION_KEY (to_json org)] ++ queue_events events);;
  mret org.

Definition operator (user_id : Uuid) : M error (option OperatorRecord) := get_json (operator_key user_id).

(** A failed write is logged and dropped. *)
Definition record_operator_seen (user_id : Uuid) : M error unit :=
  t ← now;
  _ ← attempt (E := error) (execute [SET (operator_seen_key user_id) (show_u64 t)]);
  mret tt.

Definition operator_seen_at (user_id : Uuid) : M error (option N) :=
  r ← attempt (E := error) (get (operator_seen_key user_id));
  mret (match r with
        | Ok (Some value) => parse_u64 value
        | _ => None
        end).

(** The rest of [ensure_operator] once the decision is to bootstrap. *)
Definition bootstrap_operator (self : Store) (u : User) : M error (option OperatorRecord) :=
  t ← now;
  let operator := mkOperator (u_id u) Owner t None in
  inserted ← set_nx (operator_key (u_id u)) (to_json operator);
  if inserted : bool then
    append_event_locked self #"operator.created" (Some (u_id u));;
    mret (Some operator)
  else
    get_json (operator_key (u_id u)).

Definition ensure_operator (self : Store) (u : User) (bootstrap_allowed : bool) :
    M error (option OperatorRecord) :=
  stored ← get_json (operator_key (u_id u));
  match grant_decision stored bootstrap_allowed with
  | Honour => record_operator_seen (u_id u);; mret stored
  | Deny => mret None
  | Bootstrap => bootstrap_operator self u
  end.

Definition promote_operator (self : Store) (user_id : Uuid) (role : OperatorRoleRecord) :
    M error (OperatorRecord * User) :=
  u ← require_user user_id;
  existing ← get_json (operator_key (u_id u));
  created_at ← match existing with
               | Some record => mret (op_created_at record)
               | None => now
               end;
  let operator := mkOperator (u_id u) role created_at None in
  execute [SET (operator_key (u_id u)) (to_json operator)];;
  append_event_locked self #"operator.promoted" (Some (u_id u));;
  mret (operator, u).

Definition demote_operator (self : Store) (user_id : Uuid) : M error bool :=
  found ← get_json (operator_key user_id);
  match found with
  | None => mret false
  | Some operator =>
      if is_some (op_revoked_at operator) then mret false else
      t ← now;
      let operator := mkOperator (op_user_id operator) (op_role operator) (op_created_at operator) (Some t) in
      execute [SET (operator_key user_id) (to_json operator)];;
      append_event_locked self #"operator.demoted" (Some user_id);;
      mret true
  end.

Definition operator_listing (user_id : Uuid) : M error OperatorListing :=
  found ← operator user_id;
  record ← some_or (EBail "operator disappeared during listing") found;
  found ← user user_id;
  u ← some_or (EBail "operator points to an unknown user") found;
  seen ← operator_seen_at user_id;
  mret (mkListing record u seen).

Definition operators : M error (list OperatorListing) :=
  ids ← record_ids OPERATOR_PREFIX;
  mapM_ operator_listing ids.

(** ** Frames *)

Lemma set_nx_moves (R : relation (gmap str entry)) `{!PreOrder R} k v :
  (∀ m, R m (<[k := Entry v None]> m)) → moves R (set_nx k v).
Proof.
  intros HR. unfold set_nx. apply (moves_bind R); [|intros; by apply moves_lift].
  apply (moves_query R). intros t m. simpl. destruct (live t m k); simpl; [reflexivity|apply HR].
Qed.

Lemma set_nx_extends k v : is_log_key k = false → moves log_extends (set_nx k v).
Proof.
  intros Hk. apply set_nx_moves; [apply _|]. intros m. apply log_extends_agree. intros k' Hk'.
  rewrite lookup_insert_ne; [done|]. by intros ->; rewrite Hk in Hk'.
Qed.

Lemma set_nx_leaves P k v : P k = false → leaves P (set_nx k v).
Proof.
  intros Hk. apply set_nx_moves; [apply _|]. intros m k' Hk'.
  rewrite lookup_insert_ne; [done|]. by intros ->; rewrite Hk in Hk'.
Qed.

Ltac org_leaf := first [ by apply set_nx_extends | by apply set_nx_leaves
  | apply moves_get_json, _ | apply require_user_reads, _ | apply moves_attempt ].

Lemma ensure_organization_extends self n : moves log_extends (ensure_organization self n).
Proof. unfold ensure_organization. log_go; org_leaf. Qed.
Lemma ensure_organization_accounts self n : leaves is_account_key (ensure_organization self n).
Proof. unfold ensure_organization, append_event_within_snapshot. leaves_go off_log_accounts; org_leaf. Qed.
Lemma update_organization_extends self n : moves log_extends (update_organization self n).
Proof. unfold update_organization. log_go; org_leaf. Qed.
Lemma update_organization_accounts self n : leaves is_account_key (update_organization self n).
Proof. unfold update_organization. leaves_go off_log_accounts; org_leaf. Qed.

Lemma ensure_operator_extends self u b : moves log_extends (ensure_operator self u b).
Proof. unfold ensure_operator, bootstrap_operator, record_operator_seen. log_go; org_leaf; log_go. Qed.
Lemma ensure_operator_leaves P self u b :
  off_log P → (∀ id, P (operator_key id) = false) → (∀ id, P (operator_seen_key id) = false) →
  leaves P (ensure_operator self u b).
Proof.
  intros Hoff Hk Hs. unfold ensure_operator, bootstrap_operator, record_operator_seen.
  leaves_go Hoff; org_leaf; leaves_go Hoff. apply leaves_execute. unfold untouched. simpl. by rewrite Hs.
Qed.
Lemma ensure_operator_accounts self u b : leaves is_account_key (ensure_operator self u b).
Proof. apply ensure_operator_leaves; [exact off_log_accounts|done..]. Qed.
Lemma promote_operator_extends self id r : moves log_extends (promote_operator self id r).
Proof. unfold promote_operator. log_go; org_leaf. Qed.
Lemma promote_operator_accounts self id r : leaves is_account_key (promote_operator self id r).
Proof. unfold promote_operator. leaves_go off_log_accounts; org_leaf. Qed.
Lemma demote_operator_extends self id : moves log_extends (demote_operator self id).
Proof. unfold demote_operator. log_go; org_leaf. Qed.
Lemma demote_operator_accounts self id : leaves is_account_key (demote_operator self id).
Proof. unfold demote_operator. leaves_go off_log_accounts; org_leaf. Qed.

(** ** Grants *)

(** The grant of [id] is stored as a tombstone. *)
Definition withdrawn (m : gmap str entry) (id : Uuid) : Prop :=
  ∃ r, m !! operator_key id = Some (Entry (to_json r) None) ∧ is_some (op_revoked_at r) = true.

(** A live, stored grant. *)
Definition granted_to (m : gmap str entry) (id : Uuid) (r : OperatorRecord) : Prop :=
  (∃ t v, live t m (operator_key id) = Some v ∧ from_json v = Some r) ∧ op_revoked_at r = None.

(** Operator requests of one account, one after the other. *)
Fixpoint operator_requests (self : Store) (u : User) (l : list (oracle * bool)) (w : world) :
    list (result error (option OperatorRecord)) :=
  match l with
  | [] => []
  | (o, allowed) :: l' => let '(r, w') := ensure_operator self u allowed o w in
                          r :: operator_requests self u l' w'
  end.

Lemma keeps_key {A : Type} (p : M error A) (P : str → bool) k x o :
  leaves P p → P k = true → keeps o (λ m, m !! k = x) p.
Proof. intros Hp Hk. eapply keeps_moves; [exact Hp|]. intros m m' Ha Hm. by rewrite Ha. Qed.

Lemma wp_append_key self ty subj k x o w :
  is_log_key k = false → vw w !! k = x →
  wp (append_event_locked self ty subj) o w (λ _ w', vw w' !! k = x).
Proof.
  intros Hk Hx. apply (keeps_key _ (λ k, negb (is_log_key k))); [|by rewrite Hk|done].
  apply leaves_append. by intros ? ?%negb_true_iff.
Qed.

Lemma wp_demote self id o w :
  wp (demote_operator self id) o w (λ r w', r = Ok true → withdrawn (vw w') id).
Proof.
  apply wp_bind, wp_get_json_view; [done|]. intros t1 w1 Hv1.
  destruct (live t1 (vw w) (operator_key id)) as [v|]; [destruct (from_json v) as [r|]|done]; [|done].
  destruct (is_some (op_revoked_at r)); [done|]. apply wp_bind, wp_now. cbv zeta.
  apply wp_bind, wp_execute_view; [done|]. intros w2 t2 _ Hv2. apply wp_bind. eapply wp_mono.
  - apply (wp_append_key _ _ _ (operator_key id)); [done|reflexivity].
  - intros [ev|e] w3 Hk; [|done]. apply wp_ret. intros _. eexists. rewrite Hk, Hv2. simpl.
    by rewrite lookup_insert_eq.
Qed.

Lemma wp_ensure_withdrawn self u allowed o w :
  withdrawn (vw w) (u_id u) →
  wp (ensure_operator self u allowed) o w (λ r w', vw w' = vw w ∧ (r = Ok None ∨ r = Err EDb)).
Proof.
  intros (r & Hk & Hr). apply wp_bind, wp_get_json_view; [by auto|]. intros t w' Hv.
  rewrite (live_persistent _ _ _ _ Hk), from_to_json. simpl. rewrite Hr. apply wp_ret. auto.
Qed.

Lemma requests_withdrawn self u l w :
  withdrawn (vw w) (u_id u) → Forall (λ r, r = Ok None ∨ r = Err EDb) (operator_requests self u l w).
Proof.
  revert w. induction l as [|[o allowed] l IH]; intros w Hw; simpl; [done|].
  pose proof (wp_ensure_withdrawn self u allowed o w Hw) as Hwp. unfold wp in Hwp.
  destruct (ensure_operator self u allowed o w) as [r w']. destruct Hwp as [Hv Hr]. simpl in *.
  constructor; [done|]. apply IH. by rewrite Hv.
Qed.

Lemma live_no_deadline t t' m k :
  (∀ e, m !! k = Some e → e_deadline e = None) → live t m k = live t' m k.
Proof. unfold live, expired. intros Hd. destruct (m !! k) as [e|]; [|done]. by rewrite (Hd e eq_refl). Qed.

Lemma wp_ensure_operator self u allowed o w :
  (∀ e, vw w !! operator_key (u_id u) = Some e → e_deadline e = None) →
  wp (ensure_operator self u allowed) o w (λ r w', ∀ x, r = Ok (Some x) →
    granted_to (vw w) (u_id u) x ∨
    allowed = true ∧ vw w !! operator_key (u_id u) = None ∧ granted_to (vw w') (u_id u) x ∧
    op_role x = Owner ∧ op_user_id x = u_id u).
Proof.
  intros Hd. apply wp_bind, wp_get_json_view; [done|]. intros t1 w1 Hv1.
  destruct (live t1 (vw w) (operator_key (u_id u))) as [v|] eqn:Hl.
  { destruct (from_json v) as [r|] eqn:Hj; [|done]. simpl.
    destruct (is_some (op_revoked_at r)) eqn:Hr; [by apply wp_ret|].
    assert (granted_to (vw w) (u_id u) r) as Hg by (split; [by eauto|by destruct (op_revoked_at r)]).
    apply wp_bind, wp_bind, wp_now, wp_bind, wp_attempt, wp_execute_view;
      intros; apply wp_ret, wp_ret; intros x [= <-]; by left. }
  simpl. destruct allowed; [|by apply wp_ret].
  apply wp_bind, wp_now. cbv zeta. apply wp_bind, wp_set_nx_view; [done| |].
  - intros t2 w2 _ Hv2. apply wp_bind. eapply wp_mono.
    + apply (wp_append_key _ _ _ (operator_key (u_id u))); [done|reflexivity].
    + intros [ev|e] w3 Hk; [|done]. apply wp_ret. intros x [= <-]. right. rewrite Hv2 in Hk.
      rewrite lookup_insert_eq in Hk. split_and!; [done| | |done..].
      * unfold live in Hl. destruct (vw w !! _) as [e|] eqn:He; [|done]. unfold expired in Hl.
        by rewrite (Hd e eq_refl) in Hl.
      * split; [|done]. exists 0. eexists. by rewrite (live_persistent _ _ _ _ Hk), from_to_json.
  - intros t2 w2 [v Hs] _. change (vw (tick w1)) with (vw w1) in Hs. rewrite Hv1 in Hs.
    by rewrite (live_no_deadline t2 t1 _ _ Hd), Hl in Hs.
Qed.

(** ** Properties *)

(** an operator role comes from a stored, unrevoked grant, or is the Owner
    bootstrap of an allowlisted account that had no grant record at all. *)
Theorem ensure_operator_sound self u allowed o w x w' :
  (∀ e, vw w !! operator_key (u_id u) = Some e → e_deadline e = None) →
  ensure_operator self u allowed o w = (Ok (Some x), w') →
  granted_to (vw w) (u_id u) x ∨
  allowed = true ∧ vw w !! operator_key (u_id u) = None ∧ granted_to (vw w') (u_id u) x ∧
  op_role x = Owner ∧ op_user_id x = u_id u.
Proof.
  intros Hd Hrun. pose proof (wp_ensure_operator self u allowed o w Hd) as Hwp. unfold wp in Hwp.
  rewrite Hrun in Hwp. by apply Hwp.
Qed.

(** withdrawing a grant is final: after a demotion, every later request of the
    account, allowlisted for bootstrap or not, is denied (or fails with the
    datastore), until an explicit promotion. *)
Theorem demote_is_final self self' id u o w w' l :
  demote_operator self id o w = (Ok true, w') → u_id u = id →
  Forall (λ r, r = Ok None ∨ r = Err EDb) (operator_requests self' u l w').
Proof.
  intros Hrun <-. pose proof (wp_demote self (u_id u) o w) as Hwp. unfold wp in Hwp.
  rewrite Hrun in Hwp. by apply requests_withdrawn, Hwp.
Qed.

(** A request that read the grant before it existed and resumes after another
    process promoted and demoted the account is given the withdrawn grant: the
    fallback read of the bootstrap path does not look at the tombstone. *)
Theorem bootstrap_race_returns_withdrawn self self' id u o w w' o' :
  demote_operator self id o w = (Ok true, w') → u_id u = id → reliable o' →
  ∃ r, (bootstrap_operator self' u o' w').1 = Ok (Some r) ∧ is_some (op_revoked_at r) = true.
Proof.
  intros Hrun <- Hr. pose proof (wp_demote self (u_id u) o w) as Hwp. unfold wp in Hwp.
  rewrite Hrun in Hwp. destruct (Hwp eq_refl) as (r & Hk & Hrev). exists r. split; [|done].
  set (prog := bootstrap_operator self' u). change (wp prog o' w' (λ x _, x = Ok (Some r))).
  apply wp_bind, wp_now. cbv zeta. apply wp_bind, wp_set_nx_view.
  - by intros t ? _ ?.
  - intros t ? Hl _. change (vw (tick w')) with (vw w') in Hl. by rewrite (live_persistent _ _ _ _ Hk) in Hl.
  - intros t w2 _ Hv2. change (vw (tick w')) with (vw w') in Hv2. apply wp_get_json_view; [by intros|].
    intros t2 w3 _. by rewrite Hv2, (live_persistent _ _ _ _ Hk), from_to_json.
Qed.
End Organization.

(** ** Witnesses *)

Import DemoEnv.

#[export] Program Instance codec_role : Codec OperatorRoleRecord :=
  codec_iso (A:=N) (λ r : OperatorRoleRecord, match r with Owner => 0 | Administrator => 1 | Support => 2 | Auditor => 3 end)
    (λ n, Some (if n =? 0 then Owner else if n =? 1 then Administrator else if n =? 2 then Support else Auditor)) _.
Next Obligation. by intros []. Qed.

#[export] Program Instance codec_operator : Codec OperatorRecord :=
  codec_iso (λ r : OperatorRecord, (op_user_id r, (op_role r, (op_created_at r, op_revoked_at r))))
    (λ '(a, (b, (c, d))), Some (mkOperator a b c d)) _.
Next Obligation. by intros []. Qed.

(** The demo account bootstraps, and its grant is withdrawn. *)
Abbreviation demo_bootstrapped := (ensure_operator demo_store demo_user true demo_oracle demo_created.2).
Abbreviation demo_demoted := (demote_operator demo_store demo_id demo_oracle demo_bootstrapped.2).

Lemma ensure_operator_sound_witness :
  ∃ x, demo_bootstrapped = (Ok (Some x), demo_bootstrapped.2) ∧
    (granted_to (vw demo_created.2) demo_id x ∨ op_role x = Owner).
Proof.
  assert (Hok : match demo_bootstrapped.1 with Ok (Some _) => true | _ => false end = true) by eval_eq.
  destruct (demo_bootstrapped.1) as [[x|]|e] eqn:Hr; [|discriminate Hok..].
  exists x. apply run_ok in Hr. split; [exact Hr|].
  destruct (ensure_operator_sound demo_store demo_user true demo_oracle demo_created.2 x demo_bootstrapped.2)
    as [Hg|(_ & _ & _ & Ho & _)]; [|exact Hr|left; exact Hg|right; exact Ho].
  intros e He. assert (Hk : vw demo_created.2 !! operator_key demo_id = None) by eval_eq.
  exfalso. change (u_id demo_user) with demo_id in He. rewrite Hk in He. discriminate He.
Defined.

Lemma demo_demoted_ok : demo_demoted = (Ok true, demo_demoted.2).
Proof. apply run_ok. eval_eq. Qed.

Lemma demote_is_final_witness :
  Forall (λ r, r = Ok None ∨ r = Err EDb)
    (operator_requests demo_store demo_user [(demo_oracle, true); (demo_oracle, false)] demo_demoted.2).
Proof.
  apply (demote_is_final demo_store demo_store demo_id demo_user demo_oracle demo_bootstrapped.2 demo_demoted.2).
  - exact demo_demoted_ok.
  - reflexivity.
Defined.

Lemma bootstrap_race_witness :
  ∃ r, (bootstrap_operator demo_store demo_user demo_oracle demo_demoted.2).1 = Ok (Some r) ∧
    is_some (op_revoked_at r) = true.
Proof.
  apply (bootstrap_race_returns_withdrawn demo_store demo_store demo_id demo_user demo_oracle
    demo_bootstrapped.2 demo_demoted.2 demo_oracle); [exact demo_demoted_ok|reflexivity|exact demo_reliable].
Defined.
