(* ===== verification/RateLimit.v ===== *)
(** * Request throttling (src/src/rate_limit.rs)

    Fixed-window counters over a bounded map, reinforced by an expiring counter in
    the datastore that every replica shares, and the choice of the client address
    that is charged.  [Instant]s are nanoseconds of the monotonic clock;
    [duration_since] saturates at zero. *)

From S2P Require Import Prelude Sable Logic Demo.

(** ** Classes and budgets *)

Inductive RateLimitClass :=
  | Ceremony | IdentifierProbe | CredentialExchange | PairingExchange | RecoveryAttempt | VerificationAttempt.

#[global] Instance RateLimitClass_eq_dec : EqDecision RateLimitClass.
Proof. solve_decision. Defined.

Definition class_index (c : RateLimitClass) : N :=
  match c with
  | Ceremony => 0 | IdentifierProbe => 1 | CredentialExchange => 2
  | PairingExchange => 3 | RecoveryAttempt => 4 | VerificationAttempt => 5
  end.

Definition class_of_index (n : N) : option RateLimitClass :=
  nth_error [Ceremony; IdentifierProbe; CredentialExchange; PairingExchange; RecoveryAttempt; VerificationAttempt]
    (N.to_nat n).

#[global] Program Instance RateLimitClass_countable : Countable RateLimitClass :=
  inj_countable class_index class_of_index _.
Next Obligation. by intros []. Qed.

Definition budget (c : RateLimitClass) : N :=
  match c with
  | Ceremony => 30
  | IdentifierProbe => 10
  | CredentialExchange => 60
  | PairingExchange => 60
  | RecoveryAttempt => 10
  | VerificationAttempt => 10
  end.

Definition NANOS : N := 1000000000.
Definition window_secs (c : RateLimitClass) : N := 60.
Definition window (c : RateLimitClass) : N := window_secs c * NANOS.

Definition class_key (c : RateLimitClass) : str :=
  match c with
  | Ceremony => #"ceremony"
  | IdentifierProbe => #"identifier"
  | CredentialExchange => #"credential"
  | PairingExchange => #"pairing"
  | RecoveryAttempt => #"recovery"
  | VerificationAttempt => #"verification"
  end.

(** The [Debug] name, hashed into the subject key. *)
Definition class_debug (c : RateLimitClass) : str :=
  match c with
  | Ceremony => #"Ceremony"
  | IdentifierProbe => #"IdentifierProbe"
  | CredentialExchange => #"CredentialExchange"
  | PairingExchange => #"PairingExchange"
  | RecoveryAttempt => #"Recovery"
  | VerificationAttempt => #"Verification"
  end.

Record RateLimitDecision := mkDecision { allowed : bool; retry_after_seconds : N }.

(** [Window] *)
Record RateWindow := mkWindow { win_count : N; win_started_at : N }.

Abbreviation limit_key := (RateLimitClass * list N)%type.

Record RateLimiter := mkLimiter {
  windows : gmap limit_key RateWindow;
  capacity : N;
  poisoned : bool;
  namespace : option str
}.

Definition set_windows (ws : gmap limit_key RateWindow) (l : RateLimiter) : RateLimiter :=
  mkLimiter ws (capacity l) (poisoned l) (namespace l).

Definition new_limiter (capacity : N) : RateLimiter := mkLimiter ∅ capacity false None.

Definition distributed_limiter `{ExtCrypto} (namespace : str) (capacity : N) : RateLimiter :=
  mkLimiter ∅ capacity false (Some (hex_encode (take 12 (sha256 (bytes namespace))))).

Definition subject_key `{ExtCrypto} (class : RateLimitClass) (subject : str) : list N :=
  take 16 (sha256 (bytes (class_debug class) ++ [0] ++ bytes subject)).

Definition refused (class : RateLimitClass) : RateLimitDecision := mkDecision false (window_secs class).

(** [saturating_add] of [u32] *)
Definition saturating_add32 (a b : N) : N := N.min (a + b) u32_max.

Definition retain_live (class : RateLimitClass) (now : N) (ws : gmap limit_key RateWindow) :
    gmap limit_key RateWindow :=
  filter (λ p, now - win_started_at p.2 < window class) ws.

Definition charge (class : RateLimitClass) (now : N) (entry : RateWindow) : RateLimitDecision * RateWindow :=
  let entry := if window class <=? now - win_started_at entry then mkWindow 0 now else entry in
  let entry := mkWindow (saturating_add32 (win_count entry) 1) (win_started_at entry) in
  (mkDecision (win_count entry <=? budget class)
     ((window class - (now - win_started_at entry)) / NANOS + 1), entry).

(** Make room for a new key: the second component tells whether there is none. *)
Definition make_room (class : RateLimitClass) (key : limit_key) (now : N) (self : RateLimiter) :
    gmap limit_key RateWindow * bool :=
  if (capacity self <=? N.of_nat (size (windows self))) && bool_decide (windows self !! key = None)
  then let ws := retain_live class now (windows self) in (ws, capacity self <=? N.of_nat (size ws))
  else (windows self, false).

Definition check_at `{ExtCrypto} (self : RateLimiter) (class : RateLimitClass) (subject : str) (now : N) :
    RateLimitDecision * RateLimiter :=
  let key := (class, subject_key class subject) in
  if poisoned self then (refused class, self) else
  let '(ws, full) := make_room class key now self in
  if full : bool then (refused class, set_windows ws self) else
  let entry := default (mkWindow 0 now) (ws !! key) in
  let '(decision, entry) := charge class now entry in
  (decision, set_windows (<[key := entry]> ws) self).

(** ** The shared counter *)

Section RateLimit.
Context `{Env}.

Definition rate_limit_key (namespace : str) (class : RateLimitClass) (subject : str) (epoch : N) : str :=
  #"auth:rate-limit:" ++ namespace ++ #":" ++ class_key class ++ #":"
  ++ hex_encode (subject_key class subject) ++ #":" ++ show_u64 epoch.

(** [DistributedRateLimiter::check]; the clock reading is [None] before 1970. *)
Definition distributed_check (namespace : str) (class : RateLimitClass) (subject : str) (clock : option N) :
    M error RateLimitDecision :=
  match clock with
  | None => mret (refused class)
  | Some now =>
      let window := window_secs class in
      let epoch := now / window in
      let retry := N.max (saturating_sub window (now mod window)) 1 in
      let key := rate_limit_key namespace class subject epoch in
      rs ← query [INCR key; EXPIRE key (saturating_mul window 2)];
      count ← lift (match rs with [RInt n; _] => Ok n | _ => Err EDb end);
      mret (mkDecision (count <=? budget class) retry)
  end.

(** [RateLimiter::check]: the local window first, then the shared counter; a
    datastore failure refuses. *)
Definition check (self : RateLimiter) (class : RateLimitClass) (subject : str) (instant : N) (clock : option N) :
    M error (RateLimitDecision * RateLimiter) :=
  let '(local, self) := check_at self class subject instant in
  if negb (allowed local) then mret (local, self) else
  match namespace self with
  | None => mret (local, self)
  | Some ns =>
      r ← attempt (E := error) (distributed_check ns class subject clock);
      mret (match r with Ok decision => decision | Err _ => refused class end, self)
  end.
End RateLimit.

(** ** Addresses *)

Inductive IpAddr := V4 (a b c d : N) | V6 (groups : list N).
#[global] Instance IpAddr_eq_dec : EqDecision IpAddr.
Proof. solve_decision. Defined.

Definition digit_value (radix c : N) : option N :=
  let v := if is_ascii_digit c then Some (c - 48)
           else if is_ascii_lowercase c then Some (c - 87)
           else if is_ascii_uppercase c then Some (c - 55) else None in
  match v with
  | Some d => if d <? radix then Some d else None
  | None => None
  end.

(** [Parser::read_number]: at most [fuel] digits, no value above [limit]; the
    number of digits read, the value and the rest. *)
Fixpoint read_digits (radix limit : N) (fuel : nat) (count acc : N) (s : str) : option (N * N * str) :=
  match s with
  | c :: s' => match digit_value radix c with
               | Some d => match fuel with
                           | O => None
                           | S fuel => if limit <? acc * radix + d then None
                                       else read_digits radix limit fuel (count + 1) (acc * radix + d) s'
                           end
               | None => Some (count, acc, s)
               end
  | [] => Some (count, acc, s)
  end.

Definition read_number (radix limit : N) (max_digits : nat) (allow_zero_prefix : bool) (s : str) :
    option (N * str) :=
  match read_digits radix limit max_digits 0 0 s with
  | Some (count, value, rest) =>
      if count =? 0 then None
      else if negb allow_zero_prefix && (match s with c :: _ => c =? 48 | [] => false end) && (1 <? count)
      then None else Some (value, rest)
  | None => None
  end.

Definition read_given_char (c : N) (s : str) : option str :=
  match s with d :: s' => if d =? c then Some s' else None | [] => None end.

Definition read_ipv4_addr (s : str) : option (N * N * N * N * str) :=
  '(a, s) ← read_number 10 255 3 false s;
  s ← read_given_char 46 s;
  '(b, s) ← read_number 10 255 3 false s;
  s ← read_given_char 46 s;
  '(c, s) ← read_number 10 255 3 false s;
  s ← read_given_char 46 s;
  '(d, s) ← read_number 10 255 3 false s;
  Some (a, b, c, d, s).

(** [read_groups] with [n] places left, the first one at index [i]: the groups
    read, whether they end in an embedded IPv4 address, and the rest. *)
Fixpoint read_groups (n : nat) (i : nat) (s : str) : list N * bool * str :=
  match n with
  | O => ([], false, s)
  | S n' =>
      let after_separator := if (i =? 0)%nat then Some s else read_given_char 58 s in
      let v4 := if (n' =? 0)%nat then None
                else s1 ← after_separator; read_ipv4_addr s1 in
      match v4 with
      | Some (a, b, c, d, s2) => ([a * 256 + b; c * 256 + d], true, s2)
      | None =>
          match (s1 ← after_separator; read_number 16 65535 4 true s1) with
          | Some (group, s2) => let '(groups, v4, s3) := read_groups n' (S i) s2 in (group :: groups, v4, s3)
          | None => ([], false, s)
          end
      end
  end.

Definition read_ipv6_addr (s : str) : option (list N * str) :=
  let '(head, head_v4, s) := read_groups 8 0 s in
  if (length head =? 8)%nat then Some (head, s)
  else if head_v4 : bool then None
  else s ← read_given_char 58 s;
       s ← read_given_char 58 s;
       let '(tail, _, s) := read_groups (8 - (length head + 1)) 0 s in
       Some (head ++ replicate (8 - length head - length tail) 0 ++ tail, s).

(** [str::parse::<IpAddr>] *)
Definition parse_ip (s : str) : option IpAddr :=
  match read_ipv4_addr s with
  | Some (a, b, c, d, rest) => match rest with [] => Some (V4 a b c d) | _ => None end
  | None => match read_ipv6_addr s with
            | Some (groups, []) => Some (V6 groups)
            | _ => None
            end
  end.

Definition client_address (peer : IpAddr) (forwarded_for : option str) (trusted_hops : nat) : IpAddr :=
  match trusted_hops with
  | O => peer
  | S hops =>
      match forwarded_for with
      | None => peer
      | Some header =>
          let entries := List.filter (λ v, negb (bool_decide (v = []))) (trim <$> split 44 header) in
          match nth_error (reverse entries) hops with
          | Some value => default peer (parse_ip value)
          | None => peer
          end
      end
  end.

(** ** The local windows *)

Section Local.
Context `{ExtCrypto}.

Abbreviation request := (RateLimitClass * str * N)%type.
Definition request_key (r : request) : limit_key := (r.1.1, subject_key r.1.1 r.1.2).

(** Number of requests charged to [k] that a sequence of checks lets through. *)
Fixpoint allowed_count (k : limit_key) (l : list request) (self : RateLimiter) : N :=
  match l with
  | [] => 0
  | r :: l' => let '(d, self') := check_at self r.1.1 r.1.2 r.2 in
               (if bool_decide (request_key r = k) && allowed d then 1 else 0) + allowed_count k l' self'
  end.

Lemma allowed_count_cons k c s now l self :
  allowed_count k ((c, s, now) :: l) self =
  (if bool_decide ((c, subject_key c s) = k) && allowed (check_at self c s now).1 then 1 else 0)
  + allowed_count k l (check_at self c s now).2.
Proof. cbn [allowed_count fst snd]. by destruct (check_at self c s now). Qed.

Definition run_checks (l : list request) (self : RateLimiter) : RateLimiter :=
  foldl (λ self r, (check_at self r.1.1 r.1.2 r.2).2) self l.

Definition spent (self : RateLimiter) (k : limit_key) : N :=
  match windows self !! k with Some e => win_count e | None => 0 end.

(** The window of [k], if any, started at [a] or later. *)
Definition started_from (a : N) (self : RateLimiter) (k : limit_key) : Prop :=
  ∀ e, windows self !! k = Some e → a ≤ win_started_at e.

Lemma retain_lookup c now ws k :
  retain_live c now ws !! k = ws !! k ∨
  (retain_live c now ws !! k = None ∧ ∃ e, ws !! k = Some e ∧ window c ≤ now - win_started_at e).
Proof.
  unfold retain_live. destruct (ws !! k) as [e|] eqn:He.
  - destruct (decide (now - win_started_at e < window c)) as [Hl|Hl].
    + left. by apply map_lookup_filter_Some.
    + right. split; [|exists e; split; [done|lia]]. apply map_lookup_filter_None. right. intros e' ?. simplify_eq/=. done.
  - left. apply map_lookup_filter_None. by left.
Qed.

Lemma make_room_lookup c key now self k :
  let '(ws, full) := make_room c key now self in
  (ws !! k = windows self !! k ∨
   (ws !! k = None ∧ ∃ e, windows self !! k = Some e ∧ window c ≤ now - win_started_at e)) ∧
  (k = key → ws !! k = windows self !! k) ∧ (full = true → ws !! key = None).
Proof.
  unfold make_room. destruct (_ <=? _); simpl; [|split_and!; [by left|done|done]].
  case_bool_decide as Hn; simpl; [|split_and!; [by left|done|done]].
  assert (Hr : retain_live c now (windows self) !! key = None).
  { destruct (retain_lookup c now (windows self) key) as [->|[-> _]]; done. }
  split_and!; [apply retain_lookup| |done]. intros ->. by rewrite Hr, Hn.
Qed.

(** A check leaves the window of another key alone, unless it has run out. *)
Lemma check_at_other self c s now k :
  (c, subject_key c s) ≠ k →
  let self' := (check_at self c s now).2 in
  windows self' !! k = windows self !! k ∨
  (windows self' !! k = None ∧ ∃ e, windows self !! k = Some e ∧ window c ≤ now - win_started_at e).
Proof.
  intros Hne. cbv zeta. unfold check_at. destruct (poisoned self); [by left|].
  pose proof (make_room_lookup c (c, subject_key c s) now self k) as Hm.
  destruct (make_room _ _ _ _) as [ws full]. destruct Hm as [Hm _].
  destruct full; simpl; [done|]. by rewrite lookup_insert_ne.
Qed.

(** What a check does to its own key. *)
Lemma check_at_same self c s now :
  let k := (c, subject_key c s) in
  let d := (check_at self c s now).1 in let self' := (check_at self c s now).2 in
  (allowed d = false ∧ windows self' !! k = windows self !! k) ∨
  ∃ e, windows self' !! k = Some e ∧ (allowed d = true → win_count e ≤ budget c) ∧
    ((∃ e0, windows self !! k = Some e0 ∧ now - win_started_at e0 < window c ∧
        win_started_at e = win_started_at e0 ∧ win_count e = saturating_add32 (win_count e0) 1) ∨
     (win_started_at e = now ∧ win_count e = 1 ∧
        ∀ e0, windows self !! k = Some e0 → window c ≤ now - win_started_at e0)).
Proof.
  cbv zeta. unfold check_at. destruct (poisoned self); [by left|].
  pose proof (make_room_lookup c (c, subject_key c s) now self (c, subject_key c s)) as Hm.
  destruct (make_room _ _ _ _) as [ws full]. destruct Hm as (_ & Hm & _). specialize (Hm eq_refl).
  destruct full; [by left|]. right. rewrite Hm. unfold charge. cbv zeta. simpl.
  eexists. rewrite lookup_insert_eq. split; [reflexivity|]. simpl.
  split; [by intros ?%N.leb_le|]. destruct (windows self !! _) as [e0|] eqn:He; simpl.
  - destruct (N.leb_spec (window c) (now - win_started_at e0)); simpl.
    + right. split_and!; [done|done|]. intros ? [= <-]. done.
    + left. eauto.
  - right. destruct (N.leb_spec (window c) (now - now)); simpl; (split_and!; [lia|done|done]).
Qed.

Lemma window_eq c c' : window c = window c'.
Proof. done. Qed.

Lemma budget_small c : budget c ≤ 60.
Proof. by destruct c. Qed.

Lemma charged_spent c b n :
  b ≤ 60 → n ≤ b - saturating_add32 c 1 →
  n ≤ b - c ∧ (saturating_add32 c 1 ≤ b → 1 + n ≤ b - c).
Proof. unfold saturating_add32, u32_max. lia. Qed.

Lemma charged_again c b n :
  b ≤ 60 → n ≤ b - saturating_add32 c 1 + b →
  n ≤ b - c + b ∧ (saturating_add32 c 1 ≤ b → 1 + n ≤ b - c + b).
Proof. unfold saturating_add32, u32_max. lia. Qed.

#[local] Opaque window budget check_at.

(** While the window of [k] cannot end, its remaining budget bounds what passes. *)
Lemma allowed_in_window k a l self :
  started_from a self k → Forall (λ r : request, a ≤ r.2 < a + window k.1) l →
  allowed_count k l self ≤ budget k.1 - spent self k.
Proof.
  revert self. induction l as [|[[c s] now] l IH]; intros self Hs Hl; [apply N.le_0_l|].
  apply Forall_cons in Hl as [Hnow Hl]. cbn [fst snd] in Hnow. rewrite allowed_count_cons.
  pose proof (window_eq c k.1) as Hw.
  destruct (decide ((c, subject_key c s) = k)) as [Hk|Hk].
  - rewrite bool_decide_true by done. cbn [andb].
    pose proof (check_at_same self c s now) as Hc. cbv zeta in Hc. rewrite Hk in Hc.
    destruct (check_at self c s now) as [d self']. cbn [fst snd] in *.
    replace (budget c) with (budget k.1) in Hc by (by rewrite <- Hk).
    specialize (IH self'). unfold spent in *.
    destruct Hc as [[-> Hsame]|(e & He & Hb & [(e0 & He0 & _ & Hst & Hct)|(Hst & Hct & Hend)])].
    + rewrite Hsame in IH. apply IH; [|done]. intros e. rewrite Hsame. apply Hs.
    + rewrite He in IH. rewrite He0. rewrite Hct in *.
      assert (IH' := IH ltac:(intros e' He'; rewrite He in He'; injection He' as <-; rewrite Hst; by apply Hs) Hl).
      destruct (charged_spent _ _ _ (budget_small k.1) IH'). destruct (allowed d); auto.
    + rewrite He in IH. rewrite Hct in *.
      assert (IH' := IH ltac:(intros e' He'; rewrite He in He'; injection He' as <-; rewrite Hst; by apply Hnow) Hl).
      destruct (windows self !! k) as [e0|] eqn:He0.
      * specialize (Hend e0 eq_refl). specialize (Hs e0 He0). rewrite Hw in Hend. clear -Hend Hs Hnow. lia.
      * clear -Hb IH'. destruct (allowed d); [specialize (Hb eq_refl)|]; lia.
  - rewrite bool_decide_false by done. cbn [andb]. rewrite N.add_0_l.
    pose proof (check_at_other self c s now k Hk) as Ho. cbv zeta in Ho.
    destruct (check_at self c s now) as [d self']. cbn [fst snd] in *.
    specialize (IH self'). unfold spent in *. destruct Ho as [Ho|[_ (e & He & Hend)]].
    + rewrite Ho in IH. apply IH; [|done]. intros e. rewrite Ho. apply Hs.
    + specialize (Hs e He). rewrite Hw in Hend. clear -Hs Hend Hnow. lia.
Qed.

(** At most two windows meet an interval of one window's length. *)
Lemma allowed_two_windows k a l self :
  Forall (λ r : request, a ≤ r.2 < a + window k.1) l →
  allowed_count k l self ≤ (budget k.1 - spent self k) + budget k.1.
Proof.
  revert self. induction l as [|[[c s] now] l IH]; intros self Hl; [apply N.le_0_l|].
  apply Forall_cons in Hl as [Hnow Hl]. cbn [fst snd] in Hnow. rewrite allowed_count_cons.
  destruct (decide ((c, subject_key c s) = k)) as [Hk|Hk].
  - rewrite bool_decide_true by done. cbn [andb].
    pose proof (check_at_same self c s now) as Hc. cbv zeta in Hc. rewrite Hk in Hc.
    destruct (check_at self c s now) as [d self']. cbn [fst snd] in *.
    replace (budget c) with (budget k.1) in Hc by (by rewrite <- Hk).
    specialize (IH self' Hl). pose proof (allowed_in_window k a l self') as Hfresh. unfold spent in *.
    destruct Hc as [[-> Hsame]|(e & He & Hb & [(e0 & He0 & _ & Hst & Hct)|(Hst & Hct & _)])].
    + by rewrite Hsame in IH.
    + rewrite He in IH. rewrite He0. rewrite Hct in *.
      destruct (charged_again _ _ _ (budget_small k.1) IH). destruct (allowed d); auto.
    + rewrite He in Hfresh. rewrite Hct in *.
      assert (IH' := Hfresh ltac:(intros e' He'; rewrite He in He'; injection He' as <-; rewrite Hst; by apply Hnow) Hl).
      clear -Hb IH'. destruct (allowed d); [specialize (Hb eq_refl)|]; lia.
  - rewrite bool_decide_false by done. cbn [andb]. rewrite N.add_0_l.
    pose proof (check_at_other self c s now k Hk) as Ho. cbv zeta in Ho.
    destruct (check_at self c s now) as [d self']. cbn [fst snd] in *.
    specialize (IH self' Hl). pose proof (allowed_in_window k a l self') as Hfresh. unfold spent in *.
    destruct Ho as [Ho|[Ho (e & He & Hend)]].
    + by rewrite Ho in IH.
    + rewrite Ho in Hfresh. assert (IH' := Hfresh ltac:(intros e' He'; congruence) Hl). clear -IH'. lia.
Qed.

#[local] Transparent window budget check_at.

Lemma make_room_size c key now self :
  N.of_nat (size (windows self)) ≤ capacity self →
  let '(ws, full) := make_room c key now self in
  N.of_nat (size ws) ≤ capacity self ∧
  (full = false → ws !! key = None → N.of_nat (size ws) < capacity self).
Proof.
  intros Hs. unfold make_room.
  destruct (N.leb_spec (capacity self) (N.of_nat (size (windows self)))) as [Hf|Hf]; simpl; [|split; [done|by intros]].
  case_bool_decide as Hn; simpl; [|split; [done|by intros]].
  assert (Hle : (size (retain_live c now (windows self)) ≤ size (windows self))%nat).
  { apply map_subseteq_size, map_filter_subseteq. }
  split; [lia|]. intros Hf2 _. lia.
Qed.

Lemma check_at_size self c s now :
  N.of_nat (size (windows self)) ≤ capacity self →
  let self' := (check_at self c s now).2 in
  capacity self' = capacity self ∧ N.of_nat (size (windows self')) ≤ capacity self'.
Proof.
  intros Hs. cbv zeta. unfold check_at. destruct (poisoned self); [done|].
  pose proof (make_room_size c (c, subject_key c s) now self Hs) as Hm.
  destruct (make_room _ _ _ _) as [ws full]. destruct Hm as [Hm Hlt]. destruct full; simpl; [done|].
  split; [done|]. destruct (ws !! (c, subject_key c s)) eqn:He.
  - rewrite map_size_insert_Some by (by rewrite He). done.
  - rewrite map_size_insert_None by done. specialize (Hlt eq_refl eq_refl). lia.
Qed.

Lemma run_checks_size l self :
  N.of_nat (size (windows self)) ≤ capacity self →
  N.of_nat (size (windows (run_checks l self))) ≤ capacity self.
Proof.
  unfold run_checks. revert self. induction l as [|r l IH]; intros self Hs; simpl; [done|].
  destruct (check_at_size self r.1.1 r.1.2 r.2 Hs) as [Hc Hs']. cbv zeta in *. rewrite <- Hc. by apply IH.
Qed.

(** C40: the limiter is bounded in both dimensions: whatever requests arrive, its
    map never outgrows its capacity, and within any interval of one window's
    length it lets at most twice the class's budget through for one key. *)
Theorem rate_limit_bounded k a l self :
  N.of_nat (size (windows self)) ≤ capacity self →
  Forall (λ r : request, a ≤ r.2 < a + window k.1) l →
  N.of_nat (size (windows (run_checks l self))) ≤ capacity self ∧
  allowed_count k l self ≤ 2 * budget k.1.
Proof.
  intros Hs Hl. split; [by apply run_checks_size|].
  pose proof (allowed_two_windows k a l self Hl). lia.
Qed.
End Local.

(** ** The shared counter *)

Section Shared.
Context `{Env}.

Record shared_request := mkShared {
  sh_oracle : oracle;
  sh_namespace : str;
  sh_class : RateLimitClass;
  sh_subject : str;
  sh_clock : option N
}.

Definition shared_key (r : shared_request) : option str :=
  match sh_clock r with
  | Some t => Some (rate_limit_key (sh_namespace r) (sh_class r) (sh_subject r) (t / window_secs (sh_class r)))
  | None => None
  end.

Definition passes (res : result error RateLimitDecision) : bool :=
  match res with Ok d => allowed d | Err _ => false end.

(** Requests of class [c] charged to the counter [k] that a sequence of checks,
    by any processes over any connections, lets through. *)
Fixpoint shared_allowed (c : RateLimitClass) (k : str) (l : list shared_request) (w : world) : N :=
  match l with
  | [] => 0
  | r :: l' =>
      let '(res, w') := distributed_check (sh_namespace r) (sh_class r) (sh_subject r) (sh_clock r)
                          (sh_oracle r) w in
      (if bool_decide (sh_class r = c) && bool_decide (shared_key r = Some k) && passes res then 1 else 0)
      + shared_allowed c k l' w'
  end.

(** The counter stands at [n] and does not expire before [T + 120]. *)
Definition counter_state (m : gmap str entry) (k : str) (n T : N) : Prop :=
  (m !! k = None ∧ n = 0) ∨ ∃ d, m !! k = Some (Entry (show_u64 n) (Some d)) ∧ T + 120 ≤ d.

Lemma live_deadline t m k v d : m !! k = Some (Entry v (Some d)) → t < d → live t m k = Some v.
Proof. unfold live, expired. intros ->. simpl. intros Hd. destruct (N.leb_spec d t); [lia|done]. Qed.

(** One pipeline of the shared counter. *)
Lemma exec_counter t m k n T :
  counter_state m k n T → T ≤ t < T + 120 →
  let '(rs, m') := exec_pipe t [INCR k; EXPIRE k 120] m in
  (existsb is_err rs = false ∧ rs = [RInt (n + 1); RInt 1] ∧ counter_state m' k (n + 1) T) ∨
  (existsb is_err rs = true ∧ counter_state m' k n T).
Proof.
  intros Hc Ht. destruct Hc as [[Hm ->]|(d & Hm & Hd)]; simpl.
  - rewrite (live_missing _ _ _ Hm). simpl.
    rewrite (live_persistent _ _ _ _ (lookup_insert_eq m k _)). simpl. left.
    split_and!; [done|done|]. right. exists (t + 120). rewrite lookup_insert_eq. split; [done|lia].
  - rewrite (live_deadline t _ _ _ d Hm) by lia.
    destruct (parse_u64 (show_u64 n)) as [n'|] eqn:Hp; [destruct (n' <? i64_max)|].
    + assert (n' = n) as -> by (rewrite parse_show in Hp; by case_match; simplify_eq).
      rewrite Hm. simpl. erewrite (live_deadline t _ k _ d); [|by rewrite lookup_insert_eq|lia]. simpl.
      left. split_and!; [done|done|]. right. exists (t + 120). rewrite lookup_insert_eq. split; [done|lia].
    + simpl. rewrite (live_deadline t _ _ _ d Hm) by lia. simpl. right. split; [done|].
      right. exists (t + 120). rewrite lookup_insert_eq. split; [done|lia].
    + simpl. rewrite (live_deadline t _ _ _ d Hm) by lia. simpl. right. split; [done|].
      right. exists (t + 120). rewrite lookup_insert_eq. split; [done|lia].
Qed.

Lemma wp_shared_hit ns c s clock o w k n T :
  counter_state (vw w) k n T → (∀ i, T ≤ t_at (o_trip o i) < T + 120) →
  rate_limit_key ns c s (clock / window_secs c) = k →
  wp (distributed_check ns c s (Some clock)) o w (λ res w',
    (counter_state (vw w') k n T ∧ passes res = false) ∨
    (counter_state (vw w') k (n + 1) T ∧ (passes res = true → n + 1 ≤ budget c))).
Proof.
  intros Hc Ht Hk. unfold distributed_check. cbv zeta. rewrite Hk.
  change (saturating_mul (window_secs c) 2) with 120.
  pose proof (exec_counter (trip_time o w) (vw w) k n T Hc (Ht _)) as He.
  apply wp_bind, wp_query.
  - intros d _ Hd. destruct (exec_pipe _ _ _) as [rs m']. change (vw (after_trip w d)) with (db_view d).
    simpl in Hd. destruct Hd as [->| ->]; [by left|]. destruct He as [(_ & _ & He)|(_ & He)]; [right|left]; done.
  - intros d _ Hd. cbv zeta. destruct (exec_pipe _ _ _) as [rs m']. simpl in *.
    change (vw (after_trip w d)) with (db_view d) in *.
    destruct He as [(-> & -> & He)|(-> & He)].
    + apply wp_bind, wp_lift, wp_ret. simpl. right. change (vw (after_trip w d)) with (db_view d). rewrite Hd.
      split; [done|]. by intros ?%N.leb_le.
    + left. change (vw (after_trip w d)) with (db_view d). by rewrite Hd.
Qed.

Lemma distributed_other ns c s clock k :
  (match clock with Some t => Some (rate_limit_key ns c s (t / window_secs c)) | None => None end) ≠ Some k →
  moves (agree_on (λ k', k' = k)) (distributed_check ns c s clock).
Proof.
  intros Hk. unfold distributed_check. destruct clock as [t|]; [|apply moves_ret, _].
  cbv zeta. moves_go. apply moves_query; [apply _|]. intros ts m k' ->. apply exec_pipe_frame.
  unfold pipe_writes. simpl. intros [->|[->|[]%not_elem_of_nil]%elem_of_cons]%elem_of_cons; by apply Hk.
Qed.

Lemma shared_allowed_bound c k n T l w :
  counter_state (vw w) k n T →
  Forall (λ r, ∀ i, T ≤ t_at (o_trip (sh_oracle r) i) < T + 120) l →
  shared_allowed c k l w ≤ budget c - n.
Proof.
  revert n w. induction l as [|r l IH]; intros n w Hc Hl; [apply N.le_0_l|].
  apply Forall_cons in Hl as [Ht Hl]. cbn [shared_allowed].
  destruct (decide (shared_key r = Some k)) as [Hk|Hk].
  - rewrite (bool_decide_true (shared_key r = Some k)) by done. unfold shared_key in Hk.
    destruct (sh_clock r) as [t|]; [|done]. injection Hk as Hk.
    pose proof (wp_shared_hit _ _ _ _ _ w k n T Hc Ht Hk) as Hwp. unfold wp in Hwp.
    destruct (distributed_check _ _ _ _ _ w) as [res w']. cbn [fst snd] in Hwp.
    destruct Hwp as [[Hc' ->]|[Hc' Hb]].
    + rewrite andb_false_r. specialize (IH n w' Hc' Hl). lia.
    + specialize (IH (n + 1) w' Hc' Hl). case_bool_decide as Hcl; simpl; [|lia].
      rewrite Hcl in Hb. destruct (passes res); [specialize (Hb eq_refl)|]; lia.
  - rewrite (bool_decide_false (shared_key r = Some k)) by done. rewrite andb_false_r. cbn [andb].
    pose proof (distributed_other (sh_namespace r) (sh_class r) (sh_subject r) (sh_clock r) k Hk
      (sh_oracle r) w) as Ha. destruct (distributed_check _ _ _ _ _ w) as [res w']. cbn [fst snd] in Ha.
    rewrite N.add_0_l. apply IH; [|done]. unfold counter_state. by rewrite (Ha k eq_refl).
Qed.

(** one epoch's budget is shared: however many processes, connections, lost
    requests and lost replies are involved, the requests of a class that the
    counter of one subject and epoch lets through never exceed the class's
    budget. *)
Theorem shared_budget c k T l w :
  vw w !! k = None → Forall (λ r, ∀ i, T ≤ t_at (o_trip (sh_oracle r) i) < T + 120) l →
  shared_allowed c k l w ≤ budget c.
Proof.
  intros Hk Hl. rewrite <- (N.sub_0_r (budget c)). apply (shared_allowed_bound c k 0 T); [by left|done].
Qed.

Lemma check_at_namespace self c s now : namespace (check_at self c s now).2 = namespace self.
Proof.
  unfold check_at. destruct (poisoned self); [done|]. destruct (make_room _ _ _ _) as [ws []]; [done|].
  by destruct (charge _ _ _).
Qed.

(** the limiter always answers and fails closed: a check never errors, and a
    request passes only if the local window lets it through and, when a shared
    counter is configured, the round trip to the counter was delivered and its
    verdict was to allow. *)
Theorem limiter_fails_closed self c s instant clock o w :
  ∃ d self', (check self c s instant clock o w).1 = Ok (d, self') ∧
    (allowed d = true → allowed (check_at self c s instant).1 = true ∧
       ∀ ns, namespace self = Some ns → t_fate (o_trip o (w_trip w)) = Delivered ∧
         passes (distributed_check ns c s clock o w).1 = true).
Proof.
  unfold check. pose proof (check_at_namespace self c s instant) as Hns.
  destruct (check_at self c s instant) as [local self'] eqn:Hl. cbn [fst snd] in *.
  destruct (allowed local) eqn:Ha; cbn [negb]; [|by exists local, self'; rewrite Ha].
  rewrite Hns. destruct (namespace self) as [ns|]; [|by exists local, self'].
  unfold mbind, M_bind, attempt, mret, M_ret.
  destruct (distributed_check ns c s clock o w) as [res w'] eqn:Hd. cbn [fst].
  exists (match res with Ok d => d | Err _ => refused c end), self'. split; [done|].
  intros Hok. split; [done|]. intros ns' [= <-]. rewrite Hd. cbn [fst].
  destruct res as [d|e]; [|done]. split; [|done].
  unfold distributed_check in Hd. destruct clock as [t|]; [|by injection Hd as <- _].
  unfold query, mbind, M_bind in Hd. by destruct (t_fate (o_trip o (w_trip w))).
Qed.
End Shared.

(** ** The charged address *)

Lemma split_app c a b : split c (a ++ c :: b) = split c a ++ split c b.
Proof.
  induction a as [|d a IH]; simpl; [by rewrite N.eqb_refl|].
  destruct (d =? c); simpl; [by rewrite IH|]. rewrite IH.
  destruct (split c a) as [|p ps] eqn:Hs; [|done]. by destruct a as [|x a]; simpl in Hs; repeat case_match.
Qed.

Lemma split_plain c s : c ∉ s → split c s = [s].
Proof.
  induction s as [|d s IH]; simpl; [done|]. intros [Hd Hs]%not_elem_of_cons.
  destruct (N.eqb_spec d c); [congruence|]. by rewrite IH.
Qed.

Lemma split_join c es : es ≠ [] → Forall (λ e, c ∉ e) es → split c (join [c] es) = es.
Proof.
  induction es as [|e es IH]; [done|]. intros _ [He Hes]%Forall_cons.
  destruct es as [|e' es]; [by apply split_plain|].
  change (join [c] (e :: e' :: es)) with (e ++ c :: join [c] (e' :: es)).
  rewrite split_app, split_plain by done. by rewrite IH.
Qed.

(** behind [hops] trusted proxies the client cannot choose the address it is
    charged under: the result is determined by the entries the proxies appended,
    whatever the client sent before them, and with no trusted proxy it is the
    peer. *)
Theorem client_address_unspoofable peer forged es :
  Forall (λ e, 44 ∉ e ∧ trim e ≠ []) es →
  client_address peer (Some (join [44] (forged :: es))) (length es) =
  match es with
  | [] => peer
  | e :: _ => default peer (parse_ip (trim e))
  end.
Proof.
  intros Hes. destruct es as [|e es]; [done|]. unfold client_address. cbn [length].
  change (join [44] (forged :: e :: es)) with (forged ++ 44 :: join [44] (e :: es)).
  rewrite split_app, split_join; [|done|by eapply Forall_impl; [exact Hes|]; intros x []].
  rewrite fmap_app, List.filter_app, reverse_app.
  assert (Hf : List.filter (λ v : str, negb (bool_decide (v = []))) (trim <$> (e :: es)) = trim <$> (e :: es)).
  { clear -Hes. induction Hes as [|x l [_ Hx] _ IH]; [done|]. rewrite fmap_cons. simpl.
    rewrite bool_decide_false by done. simpl. by f_equal. }
  rewrite Hf, fmap_cons, reverse_cons, <- app_assoc.
  assert (Hlen : length (reverse (trim <$> es)) = length es) by (by rewrite length_reverse, length_fmap).
  rewrite nth_error_app2 by lia. by rewrite Hlen, Nat.sub_diag.
Qed.

(** ** Witnesses *)

Import DemoEnv.

(** Twelve recovery attempts within a second. *)
Definition demo_requests : list (RateLimitClass * str * N) :=
  (λ i, (RecoveryAttempt, #"ada", 5000 + N.of_nat i)) <$> seq 0 12.

Lemma rate_limit_bounded_witness :
  allowed_count (RecoveryAttempt, subject_key RecoveryAttempt #"ada") demo_requests (new_limiter 8) = 10 ∧
  allowed_count (RecoveryAttempt, subject_key RecoveryAttempt #"ada") demo_requests (new_limiter 8) ≤ 20.
Proof.
  split; [eval_eq|].
  refine (proj2 (rate_limit_bounded (RecoveryAttempt, subject_key RecoveryAttempt #"ada") 5000 demo_requests
    (new_limiter 8) _ _)).
  - done.
  - apply (bool_decide_eq_true_1 (Forall _ demo_requests)). eval_eq.
Defined.

(** The same against the shared counter, at one server time. *)
Definition demo_fixed_oracle : oracle :=
  Oracle (λ _, 1000) (λ n i, N.of_nat (n + i)) demo_uuid_of (λ _, Trip 1000 Delivered).
Definition demo_shared : list shared_request :=
  replicate 12 (mkShared demo_fixed_oracle #"ns" RecoveryAttempt #"ada" (Some 1000)).
Definition demo_shared_key : str := rate_limit_key #"ns" RecoveryAttempt #"ada" (1000 / 60).

Lemma shared_budget_witness :
  shared_allowed RecoveryAttempt demo_shared_key demo_shared (demo_world []) = 10 ∧
  shared_allowed RecoveryAttempt demo_shared_key demo_shared (demo_world []) ≤ 10.
Proof.
  split; [eval_eq|]. apply (shared_budget RecoveryAttempt demo_shared_key 1000 demo_shared (demo_world [])).
  - reflexivity.
  - apply Forall_replicate. intros i. simpl. lia.
Defined.

Lemma client_address_unspoofable_witness :
  client_address (V4 10 0 0 1) (Some #"1.1.1.1, 2.2.2.2,203.0.113.9") 1 = V4 203 0 113 9.
Proof.
  apply (client_address_unspoofable (V4 10 0 0 1) #"1.1.1.1, 2.2.2.2" [lit "203.0.113.9"]).
  apply (bool_decide_eq_true_1 (Forall _ _)). eval_eq.
Defined.
