(* ===== verification/WriterLease.v ===== *)
(** * The writer lease (src/src/store/writer_lease.rs, its loop in src/src/main.rs)

    One datastore record with a time to live decides which process may write.  The
    record is created by [SET NX EX], refreshed by [GETEX], and removed by a
    compare-and-delete.  (The scripted fallback of [release] is for datastores
    without [DELIFEQ]; SableDB has the command.) *)

From S2P Require Import Prelude Sable Logic Demo Records Events Identifiers Users Invitations.

Definition WRITER_LEASE_KEY : str := #"auth:writer-lease".
Definition WRITER_LEASE_SECONDS : N := 60.
Definition RENEW_INTERVAL_SECONDS : N := 10.

Record WriterLease := mkLease { lease_token : str }.

Section WriterLeases.
Context `{Env}.

Definition lease_held : error :=
  EBail "another RustyAuth writer owns this SableDB namespace; keep exactly one writer replica".

Definition acquire_writer_lease : M error WriterLease :=
  id ← new_v4;
  let token := uuid_show id in
  rs ← query [SET_NX_EX WRITER_LEASE_KEY token WRITER_LEASE_SECONDS];
  acquired ← lift (match rs with [ROk] => Ok true | [RNil] => Ok false | _ => Err EDb end);
  ensure acquired lease_held;;
  mret (mkLease token).

Definition renew (lease : WriterLease) : M error bool :=
  rs ← query [GETEX WRITER_LEASE_KEY WRITER_LEASE_SECONDS];
  owner ← lift (decode_bulk rs);
  mret (bool_decide (owner = Some (lease_token lease))).

Definition release (lease : WriterLease) : M error bool :=
  rs ← query [DELIFEQ WRITER_LEASE_KEY (lease_token lease)];
  removed ← lift (match rs with [RInt n] => Ok n | _ => Err EDb end);
  mret (removed =? 1).

(** One tick of [run_writer_lease]: [None] keeps serving; otherwise the server
    stops, and the flag is [owns_lease]. *)
Definition writer_lease_tick (lease : WriterLease) : M error (option bool) :=
  r ← attempt (E := error) (renew lease);
  mret (match r with
        | Ok true => None
        | Ok false => Some false
        | Err _ => Some true
        end).

(** The end of [run_writer_lease]. *)
Definition writer_lease_exit (lease : WriterLease) (owns_lease : bool) : M error unit :=
  if owns_lease then _ ← attempt (E := error) (release lease); mret tt else mret tt.

(** ** Processes sharing the lease *)

(** The contents, the server time of the last command, and for every process in
    the loop of [run_writer_lease] (known by its token) the server time of the
    command that last told it that it owns the lease. *)
Record lease_state := mkLeaseState {
  ls_contents : gmap str entry;
  ls_time : N;
  ls_serving : list (str * N)
}.

Definition confirm (token : str) (t : N) (l : list (str * N)) : list (str * N) :=
  (token, t) :: List.filter (λ p, negb (bool_decide (p.1 = token))) l.
Definition fence (token : str) (l : list (str * N)) : list (str * N) :=
  List.filter (λ p, negb (bool_decide (p.1 = token))) l.

Inductive lease_step : lease_state → lease_state → Prop :=
  | ls_acquire m t l o w lease w' :
      vw w = m → t ≤ trip_time o w → acquire_writer_lease o w = (Ok lease, w') →
      lease_step (mkLeaseState m t l)
        (mkLeaseState (vw w') (trip_time o w) (confirm (lease_token lease) (trip_time o w) l))
  | ls_acquire_failed m t l o w e w' :
      vw w = m → t ≤ trip_time o w → acquire_writer_lease o w = (Err e, w') →
      lease_step (mkLeaseState m t l) (mkLeaseState (vw w') (trip_time o w) l)
  | ls_renewed m t l o w token w' :
      vw w = m → t ≤ trip_time o w → writer_lease_tick (mkLease token) o w = (Ok None, w') →
      lease_step (mkLeaseState m t l)
        (mkLeaseState (vw w') (trip_time o w) (confirm token (trip_time o w) l))
  | ls_fenced m t l o w token owns w' :
      vw w = m → t ≤ trip_time o w → writer_lease_tick (mkLease token) o w = (Ok (Some owns), w') →
      lease_step (mkLeaseState m t l) (mkLeaseState (vw w') (trip_time o w) (fence token l))
  | ls_exit m t l o w token owns w' r :
      vw w = m → t ≤ trip_time o w → writer_lease_exit (mkLease token) owns o w = (r, w') →
      lease_step (mkLeaseState m t l) (mkLeaseState (vw w') (trip_time o w) (fence token l))
  | ls_other m m' t t' l :
      t ≤ t' → m' !! WRITER_LEASE_KEY = m !! WRITER_LEASE_KEY →
      lease_step (mkLeaseState m t l) (mkLeaseState m' t' l).

(** The stored lease is [token]'s for at least [WRITER_LEASE_SECONDS] from [r]. *)
Definition held (token : str) (r : N) (m : gmap str entry) : Prop :=
  ∃ d, m !! WRITER_LEASE_KEY = Some (Entry token (Some d)) ∧ r + WRITER_LEASE_SECONDS ≤ d.

(** The record backs every confirmation that has not run out. *)
Definition backed (st : lease_state) : Prop :=
  ∀ token r, (token, r) ∈ ls_serving st → r ≤ ls_time st ∧
    (ls_time st < r + WRITER_LEASE_SECONDS → held token r (ls_contents st)).

Lemma fence_spec token l p r : (p, r) ∈ fence token l ↔ (p, r) ∈ l ∧ p ≠ token.
Proof.
  unfold fence. rewrite !list_elem_of_In, filter_In. cbn [fst]. rewrite negb_true_iff, bool_decide_eq_false. done.
Qed.

Lemma confirm_spec token t l p r :
  (p, r) ∈ confirm token t l ↔ (p = token ∧ r = t) ∨ ((p, r) ∈ l ∧ p ≠ token).
Proof.
  unfold confirm. rewrite elem_of_cons. change (List.filter _ l) with (fence token l). rewrite fence_spec.
  naive_solver.
Qed.

Lemma held_live token r m t : held token r m → t < r + WRITER_LEASE_SECONDS → live t m WRITER_LEASE_KEY = Some token.
Proof.
  intros (d & Hm & Hd) Ht. unfold live, expired. rewrite Hm. cbn [e_deadline e_val].
  destruct (N.leb_spec d t); [lia|done].
Qed.

(** [m'] keeps every holding of [m] that runs beyond [t], except perhaps
    [token]'s. *)
Definition keeps_held (except : option str) (t : N) (m m' : gmap str entry) : Prop :=
  ∀ p r, Some p ≠ except → r ≤ t → t < r + WRITER_LEASE_SECONDS → held p r m → held p r m'.

Lemma keeps_held_refl except t m : keeps_held except t m m.
Proof. by intros p r. Qed.

Lemma acquire_keeps_held token t m :
  keeps_held None t m (exec_pipe t [SET_NX_EX WRITER_LEASE_KEY token WRITER_LEASE_SECONDS] m).2.
Proof. intros p r _ _ Ht Hh. simpl. by rewrite (held_live _ _ _ _ Hh Ht). Qed.

Lemma renew_keeps_held t m : keeps_held None t m (exec_pipe t [GETEX WRITER_LEASE_KEY WRITER_LEASE_SECONDS] m).2.
Proof.
  intros p r _ Hr Ht Hh. simpl. rewrite (held_live _ _ _ _ Hh Ht). simpl.
  exists (t + WRITER_LEASE_SECONDS). rewrite lookup_insert_eq. split; [done|lia].
Qed.

Lemma release_keeps_held token t m :
  keeps_held (Some token) t m (exec_pipe t [DELIFEQ WRITER_LEASE_KEY token] m).2.
Proof.
  intros p r Hne Hr Ht Hh. simpl. rewrite (held_live _ _ _ _ Hh Ht). rewrite bool_decide_eq_false_2; [done|congruence].
Qed.

(** A command that may be lost on the way in or on the way back. *)
Lemma lease_query except cs o w (Q : result error (list reply) → world → Prop) :
  (∀ m, keeps_held except (trip_time o w) m (exec_pipe (trip_time o w) cs m).2) →
  (∀ w', keeps_held except (trip_time o w) (vw w) (vw w') → Q (Err EDb) w') →
  (∀ w', vw w' = (exec_pipe (trip_time o w) cs (vw w)).2 →
     keeps_held except (trip_time o w) (vw w) (vw w') →
     Q (Ok (exec_pipe (trip_time o w) cs (vw w)).1) w') →
  wp (query cs) o w Q.
Proof.
  intros Hk He Hok. apply wp_query.
  - intros d _ [Hd|Hd]; apply He; change (vw (after_trip w d)) with (db_view d); rewrite Hd;
      [apply keeps_held_refl|apply Hk].
  - intros d _ Hd. cbv zeta. assert (vw (after_trip w d) = (exec_pipe (trip_time o w) cs (vw w)).2) as Hv by done.
    destruct (existsb _ _); [apply He|apply Hok]; try done; rewrite Hv; apply Hk.
Qed.

Lemma wp_acquire o w :
  wp acquire_writer_lease o w (λ r w',
    keeps_held None (trip_time o w) (vw w) (vw w') ∧
    (∀ lease, r = Ok lease → live (trip_time o w) (vw w) WRITER_LEASE_KEY = None ∧
       held (lease_token lease) (trip_time o w) (vw w'))).
Proof.
  unfold acquire_writer_lease. apply wp_bind, wp_new_v4. intros id w1 Hdb _ Htr.
  assert (Hv : vw w1 = vw w) by (unfold vw; by rewrite Hdb).
  assert (Ht : trip_time o w1 = trip_time o w) by (unfold trip_time; by rewrite Htr).
  rewrite <- Hv, <- Ht. apply wp_bind, (lease_query None); [intros; apply acquire_keeps_held|done|].
  intros w2 Hv2 Hk. simpl in Hv2 |- *.
  destruct (live _ _ _) eqn:Hl; cbn [fst snd] in *; apply wp_bind, wp_lift, wp_bind, wp_ensure; try done.
  intros _. apply wp_ret. split; [done|]. intros ? [= <-]. split; [done|].
  cbn [lease_token]. rewrite Hv2. eexists. rewrite lookup_insert_eq. split; [done|lia].
Qed.

Lemma wp_tick lease o w :
  wp (writer_lease_tick lease) o w (λ r w',
    keeps_held None (trip_time o w) (vw w) (vw w') ∧
    (r = Ok None → held (lease_token lease) (trip_time o w) (vw w'))).
Proof.
  unfold writer_lease_tick, renew. apply wp_bind, wp_attempt, wp_bind, (lease_query None).
  - intros. apply renew_keeps_held.
  - intros w' Hk. by apply wp_ret.
  - intros w' Hv Hk. simpl in Hv |- *.
    destruct (live _ _ _) as [v|] eqn:Hl; cbn [fst snd] in *; apply wp_bind, wp_lift, wp_ret, wp_ret; [|done].
    split; [done|]. case_bool_decide as He; [|done]. intros _. injection He as <-.
    rewrite Hv. eexists. rewrite lookup_insert_eq. split; [done|lia].
Qed.

Lemma wp_exit lease owns o w :
  wp (writer_lease_exit lease owns) o w (λ _ w',
    keeps_held (Some (lease_token lease)) (trip_time o w) (vw w) (vw w')).
Proof.
  unfold writer_lease_exit. destruct owns; [|apply wp_ret, keeps_held_refl].
  apply wp_bind, wp_attempt. unfold release. apply wp_bind, (lease_query (Some (lease_token lease))).
  - intros. apply release_keeps_held.
  - intros w' Hk. by apply wp_ret.
  - intros w' _ Hk. apply wp_bind, wp_lift.
    destruct (exec_pipe _ _ _).1 as [|[] []]; by repeat apply wp_ret.
Qed.

(** A command at [t'] keeps the confirmations it does not touch backed. *)
Lemma backed_frame except m t l t' m' p r :
  backed (mkLeaseState m t l) → t ≤ t' → keeps_held except t' m m' → Some p ≠ except → (p, r) ∈ l →
  r ≤ t' ∧ (t' < r + WRITER_LEASE_SECONDS → held p r m').
Proof.
  intros Hb Ht Hk Hne Hin. destruct (Hb p r Hin) as [Hr Hh]. cbn [ls_time ls_contents] in *.
  split; [lia|]. intros Hlt. apply Hk; [done|lia|done|]. apply Hh. lia.
Qed.

Lemma backed_step st st' : lease_step st st' → backed st → backed st'.
Proof.
  intros Hs Hb. destruct Hs as [m t l o w lease w' <- Ht Hr|m t l o w e w' <- Ht Hr|m t l o w token w' <- Ht Hr
    |m t l o w token owns w' <- Ht Hr|m t l o w token owns w' r <- Ht Hr|m m' t t' l Ht Hm];
    intros p r'; cbn [ls_serving ls_time ls_contents].
  - pose proof (wp_acquire o w) as Hw. unfold wp in Hw. rewrite Hr in Hw. cbn [fst snd] in Hw.
    destruct Hw as [Hk Hh]. rewrite confirm_spec.
    intros [[-> ->]|[Hin _]]; [split; [lia|intros _; by apply Hh]|by eapply backed_frame].
  - pose proof (wp_acquire o w) as Hw. unfold wp in Hw. rewrite Hr in Hw. cbn [fst snd] in Hw.
    destruct Hw as [Hk _]. intros Hin. by eapply backed_frame.
  - pose proof (wp_tick (mkLease token) o w) as Hw. unfold wp in Hw. rewrite Hr in Hw. cbn [fst snd] in Hw.
    destruct Hw as [Hk Hh]. rewrite confirm_spec.
    intros [[-> ->]|[Hin _]]; [split; [lia|intros _; by apply Hh]|by eapply backed_frame].
  - pose proof (wp_tick (mkLease token) o w) as Hw. unfold wp in Hw. rewrite Hr in Hw. cbn [fst snd] in Hw.
    destruct Hw as [Hk _]. rewrite fence_spec. intros [Hin _]. by eapply backed_frame.
  - pose proof (wp_exit (mkLease token) owns o w) as Hw. unfold wp in Hw. rewrite Hr in Hw. cbn [fst snd] in Hw.
    rewrite fence_spec. intros [Hin Hne]. eapply backed_frame; [done|done|exact Hw|simpl; congruence|done].
  - intros Hin. destruct (Hb p r' Hin) as [Hr Hh]. cbn [ls_time ls_contents] in *. split; [lia|].
    intros Hlt. destruct Hh as (d & Hd & Hle); [lia|]. exists d. by rewrite Hm.
Qed.

(** C24: two processes never both hold an unexpired confirmation of the writer
    lease: whatever sequence of acquisitions, renewals, releases and expiries ran
    before, on a network that may lose commands or replies, within
    [WRITER_LEASE_SECONDS] of the command that last confirmed a process its
    ownership no other process is confirmed, and no process can acquire the lease. *)
Theorem writer_lease_exclusive m0 t0 st p r :
  rtc lease_step (mkLeaseState m0 t0 []) st →
  (p, r) ∈ ls_serving st → ls_time st < r + WRITER_LEASE_SECONDS →
  (∀ q s, (q, s) ∈ ls_serving st → ls_time st < s + WRITER_LEASE_SECONDS → q = p) ∧
  (∀ o w, vw w = ls_contents st → ls_time st ≤ trip_time o w → trip_time o w < r + WRITER_LEASE_SECONDS →
     ∃ e, (acquire_writer_lease o w).1 = Err e).
Proof.
  intros Hrt Hp Hlt. assert (Hb : backed st).
  { clear Hp Hlt. remember (mkLeaseState m0 t0 []) as st0 eqn:E.
    assert (Hb0 : backed st0) by (subst; intros ? ? H0; by apply elem_of_nil in H0). clear E.
    induction Hrt as [|? ? ? Hs _ IH]; [done|]. by apply IH, (backed_step _ _ Hs). }
  destruct (Hb p r Hp) as [_ Hh]. specialize (Hh Hlt). split.
  - intros q s Hq Hqs. destruct (Hb q s Hq) as [_ Hh']. specialize (Hh' Hqs).
    pose proof (held_live _ _ _ _ Hh Hlt). pose proof (held_live _ _ _ _ Hh' Hqs). congruence.
  - intros o w Hv _ Ht. pose proof (wp_acquire o w) as Hw. unfold wp in Hw.
    destruct (acquire_writer_lease o w) as [[lease|e] w']; [|by eexists]. cbn [fst snd] in Hw.
    destruct Hw as [_ Hw]. destruct (Hw lease eq_refl) as [Hnone _].
    rewrite Hv, (held_live _ _ _ _ Hh Ht) in Hnone. done.
Qed.

(** On a reliable network, leaving the loop while owning the lease frees it at
    once: the next process acquires it however long the old one takes to finish
    its requests. *)
Theorem exit_frees_lease lease o w r o' w' :
  reliable o → reliable o' → held (lease_token lease) r (vw w) → trip_time o w < r + WRITER_LEASE_SECONDS →
  vw w' = vw (writer_lease_exit lease true o w).2 →
  ∃ lease', (acquire_writer_lease o' w').1 = Ok lease'.
Proof.
  intros Ho Ho' Hh Ht Hv.
  assert (Hnone : vw w' !! WRITER_LEASE_KEY = None).
  { rewrite Hv. enough (wp (writer_lease_exit lease true) o w (λ _ w1, vw w1 !! WRITER_LEASE_KEY = None)) as Hw by exact Hw.
    unfold writer_lease_exit. apply wp_bind, wp_attempt. unfold release. apply wp_bind, wp_query.
    - intros d Hf. exfalso. by apply (not_delivered _ _ Hf).
    - intros d _ Hd. simpl in Hd |- *. rewrite (held_live _ _ _ _ Hh Ht), bool_decide_eq_true_2 in * by done.
      cbn [fst snd] in *. apply wp_bind, wp_lift, wp_ret, wp_ret.
      change (db_view d !! WRITER_LEASE_KEY = None). rewrite Hd. apply lookup_delete_eq. }
  enough (wp acquire_writer_lease o' w' (λ r _, ∃ l, r = Ok l)) as Hw by exact Hw.
  unfold acquire_writer_lease. apply wp_bind, wp_new_v4. intros id w1 Hdb _ _.
  apply wp_bind, wp_query; [intros d Hf; exfalso; by apply (not_delivered _ _ Hf)|].
  intros d _ _. assert (live (trip_time o' w1) (vw w1) WRITER_LEASE_KEY = None) as Hl.
  { apply live_missing. unfold vw in *. by rewrite Hdb. }
  simpl. rewrite Hl. cbn [fst snd existsb is_err orb]. apply wp_bind, wp_lift, wp_bind, wp_ensure; [|done].
  intros _. apply wp_ret. by eexists.
Qed.
End WriterLeases.

(** ** Witnesses *)

Import DemoEnv.

Abbreviation demo_acquire := (acquire_writer_lease demo_oracle (demo_world [])).
Definition demo_lease_token : str :=
  Eval vm_compute in match demo_acquire.1 with Ok l => lease_token l | Err _ => [] end.

Lemma writer_lease_exclusive_witness :
  ∃ st, (demo_lease_token, trip_time demo_oracle (demo_world [])) ∈ ls_serving st ∧
    (∀ q s, (q, s) ∈ ls_serving st → ls_time st < s + WRITER_LEASE_SECONDS → q = demo_lease_token).
Proof.
  pose (t := trip_time demo_oracle (demo_world [])).
  pose (st := mkLeaseState (vw demo_acquire.2) t (confirm demo_lease_token t [])).
  assert (Hs : lease_step (mkLeaseState (vw (demo_world [])) 0 []) st).
  { apply (ls_acquire _ _ _ demo_oracle (demo_world []) (mkLease demo_lease_token) demo_acquire.2);
      [done|apply N.le_0_l|]. assert (demo_acquire.1 = Ok (mkLease demo_lease_token)) as Ha by eval_eq.
    rewrite <- Ha. by destruct demo_acquire. }
  exists st. split; [apply confirm_spec; by left|].
  refine (proj1 (writer_lease_exclusive (vw (demo_world [])) 0 st demo_lease_token t _ _ _)).
  - by apply rtc_once.
  - apply confirm_spec. by left.
  - unfold WRITER_LEASE_SECONDS. cbn [ls_time st]. lia.
Defined.
