(* ===== verification/SigningKeys.v ===== *)
(** * Signing keys (src/src/jwt/{key_material,keyset,rotation,runtime}.rs, [KeyRing] of src/src/config.rs)

    The ES256 key set: generation, encryption at rest under a ring of master keys,
    the stored document, staged rotation under a datastore lock, and the published
    JWKS. *)

From S2P Require Import Prelude Sable Logic Demo Records Events Identifiers Users Invitations WriterLease.

(** ** The cryptographic crates *)


Class ExtSigning `{Env} := {
  (** [URL_SAFE_NO_PAD.decode] *)
  b64url_decode : str → option (list N);
  b64url_decode_encode b : Forall is_byte b → b64url_decode (b64url_encode b) = Some b;
  (** [json!({ name: text, .. })], [value.get(name).and_then(Value::as_str)] and
      [json!({ "keys": values })] *)
  json_strings : list (str * str) → Value;
  json_get_str : Value → str → option str;
  json_get_strings l k : NoDup l.*1 → json_get_str (json_strings l) k = (list_to_map l : gmap str str) !! k;
  json_keys : list Value → Value;
  (** [p256] *)
  SigningKey : Type;
  signing_key_of : list N → SigningKey;
  sec1_x : SigningKey → option (list N);
  sec1_y : SigningKey → option (list N);
  to_pkcs8_der : SigningKey → option (list N);
  from_pkcs8_der : list N → option SigningKey;
  from_sec1_bytes : list N → bool;
  from_to_pkcs8 k d : to_pkcs8_der k = Some d → from_pkcs8_der d = Some k ∧ Forall is_byte d;
  sec1_coordinate k x : sec1_x k = Some x ∨ sec1_y k = Some x → length x = 32%nat ∧ Forall is_byte x;
  sec1_on_curve k x y : sec1_x k = Some x → sec1_y k = Some y → from_sec1_bytes (4 :: x ++ y) = true;
  (** AES-256-GCM with associated data: key, nonce, message, associated data *)
  aes_encrypt : list N → list N → list N → str → option (list N);
  aes_decrypt : list N → list N → list N → str → option (list N);
  aes_decrypt_encrypt k n m a c :
    aes_encrypt k n m a = Some c → aes_decrypt k n c a = Some m ∧ Forall is_byte c;
  aes_decrypt_bytes k n c a m : aes_decrypt k n c a = Some m → Forall is_byte m
}.

(** ** The master keys *)

Record KeyEntry := mkKeyEntry { ke_id : str; ke_key : list N }.
Record KeyRing := mkKeyRing { kr_active : KeyEntry; kr_previous : list KeyEntry }.

Definition derived_key_id `{ExtCrypto} (purpose : str) (key : list N) : str :=
  purpose ++ #"-" ++ hex_encode (take 12 (sha256 key)).

Fixpoint keyring_entries `{ExtCrypto} (purpose : str) (seen : list str) (previous : list (list N)) :
    result error (list KeyEntry) :=
  match previous with
  | [] => Ok []
  | key :: previous =>
      let id := derived_key_id purpose key in
      if bool_decide (id ∈ seen) then Err (EBail "keyring contains the same key more than once")
      else match keyring_entries purpose (id :: seen) previous with
           | Ok entries => Ok (mkKeyEntry id key :: entries)
           | Err e => Err e
           end
  end.

Definition keyring_new `{ExtCrypto} (purpose : str) (active : list N) (previous : list (list N)) :
    result error KeyRing :=
  let active := mkKeyEntry (derived_key_id purpose active) active in
  match keyring_entries purpose [ke_id active] previous with
  | Ok entries => Ok (mkKeyRing active entries)
  | Err e => Err e
  end.

Definition keyring_get (self : KeyRing) (id : str) : option (list N) :=
  if bool_decide (ke_id (kr_active self) = id) then Some (ke_key (kr_active self))
  else ke_key <$> List.find (λ entry, bool_decide (ke_id entry = id)) (kr_previous self).

Definition key_ids (self : KeyRing) : list str := ke_id (kr_active self) :: (ke_id <$> kr_previous self).

Record SigningRotationConfig := mkRotation {
  rotation_seconds : N;
  prepublish_seconds : N;
  overlap_seconds : N;
  maintenance_seconds : N
}.

(** ** The stored document *)

Record EncryptedPrivateKey := mkEncrypted {
  wrapping_key_id : str;
  ek_nonce : str;
  ek_ciphertext : str
}.
#[global] Instance EncryptedPrivateKey_eq_dec : EqDecision EncryptedPrivateKey.
Proof. solve_decision. Defined.

Definition KEYSET_KEY : str := #"auth:jwt:keyset:v1".
Definition LEGACY_SIGNING_KEY : str := #"auth:jwt:active".
Definition KEYSET_VERSION : N := 1.
Definition MAINTENANCE_LOCK_KEY : str := #"auth:jwt:maintenance-lock".

Section Documents.
Context `{Env}.

Record StoredSigningKey := mkSigningKey {
  k_kid : str;
  k_public_jwk : Value;
  k_created_at : N;
  k_encrypted_private_key : EncryptedPrivateKey
}.
Record StagedSigningKey := mkStaged { st_key : StoredSigningKey; st_activate_at : N }.
Record RetiredPublicKey := mkRetired { rt_kid : str; rt_public_jwk : Value; rt_publish_until : N }.
Record StoredKeySet := mkKeySet {
  ks_version : N;
  ks_active : StoredSigningKey;
  ks_staged : option StagedSigningKey;
  ks_retired : list RetiredPublicKey
}.
Record LegacyStoredKey := mkLegacy {
  lg_kid : str;
  lg_public_jwk : Value;
  lg_nonce : str;
  lg_encrypted_private_key : str
}.
Record RuntimeKeySet := mkRuntime { rk_active_kid : str; rk_encoding : list N; rk_jwks : Value }.
Record SigningKeyStatus := mkStatus {
  active_kid : str;
  staged_kid : option str;
  staged_activates_at : option N;
  retired_kids : list str;
  next_rotation_at : N
}.

#[global] Instance StoredSigningKey_eq_dec : EqDecision StoredSigningKey.
Proof. solve_decision. Defined.
#[global] Instance StagedSigningKey_eq_dec : EqDecision StagedSigningKey.
Proof. solve_decision. Defined.
#[global] Instance RetiredPublicKey_eq_dec : EqDecision RetiredPublicKey.
Proof. solve_decision. Defined.
#[global] Instance StoredKeySet_eq_dec : EqDecision StoredKeySet.
Proof. solve_decision. Defined.
End Documents.

Section SigningKeys.
Context `{Env, !ExtSigning}.
Context `{!Serde StoredKeySet, !Serde LegacyStoredKey}.

(** ** Key material *)

Definition signing_key_aad (kid wrapping_key_id : str) : str :=
  #"rustyauth-signing-key-v1" ++ 0 :: kid ++ 0 :: wrapping_key_id.

Definition seal_private_key (master_keys : KeyRing) (kid : str) (private_der : list N) :
    M error EncryptedPrivateKey :=
  let '(mkKeyEntry wrapping_key_id key) := kr_active master_keys in
  nonce ← random_bytes 12;
  ciphertext ← some_or (EBail "encrypt signing key")
    (aes_encrypt key nonce private_der (signing_key_aad kid wrapping_key_id));
  mret (mkEncrypted wrapping_key_id (b64url_encode nonce) (b64url_encode ciphertext)).

Definition open_private_key (master_keys : KeyRing) (record : StoredSigningKey) : result error (list N) :=
  let encrypted := k_encrypted_private_key record in
  match keyring_get master_keys (wrapping_key_id encrypted) with
  | None => Err (EBail "master key required by signing key is unavailable")
  | Some key =>
      match b64url_decode (ek_nonce encrypted) with
      | None => Err (EBail "decode signing-key nonce")
      | Some nonce =>
          if negb (length nonce =? 12)%nat then Err (EBail "signing-key nonce must contain exactly 12 bytes")
          else match b64url_decode (ek_ciphertext encrypted) with
               | None => Err (EBail "decode encrypted signing key")
               | Some ciphertext =>
                   ok_or (EBail "decrypt signing key")
                     (aes_decrypt key nonce ciphertext
                        (signing_key_aad (k_kid record) (wrapping_key_id encrypted)))
               end
      end
  end.

Definition ec_jwk (x y kid : str) : Value :=
  json_strings [(#"kty", #"EC"); (#"crv", #"P-256"); (#"x", x); (#"y", y);
                (#"alg", #"ES256"); (#"use", #"sig"); (#"kid", kid)].

Definition generate (master_keys : KeyRing) (created_at : N) : M error StoredSigningKey :=
  seed ← random_bytes 32;
  let signing := signing_key_of seed in
  id ← new_v4;
  let kid := uuid_show id in
  x ← some_or (EBail "P-256 point has no x coordinate") (sec1_x signing);
  y ← some_or (EBail "P-256 point has no y coordinate") (sec1_y signing);
  let public_jwk := ec_jwk (b64url_encode x) (b64url_encode y) kid in
  private_der ← some_or (EBail "to_pkcs8_der") (to_pkcs8_der signing);
  encrypted ← seal_private_key master_keys kid private_der;
  mret (mkSigningKey kid public_jwk created_at encrypted).

Definition validate_public_jwk (kid : str) (jwk : Value) : result error unit :=
  let value name := json_get_str jwk name in
  match value #"x", value #"y" with
  | Some x, Some y =>
      if negb (bool_decide (value #"kid" = Some kid)) || negb (bool_decide (value #"kty" = Some #"EC"))
         || negb (bool_decide (value #"crv" = Some #"P-256")) || negb (bool_decide (value #"alg" = Some #"ES256"))
         || negb (bool_decide (value #"use" = Some #"sig"))
      then Err (EBail "public JWK is invalid")
      else match b64url_decode x with
           | None => Err (EBail "public JWK x coordinate is invalid")
           | Some x =>
               match b64url_decode y with
               | None => Err (EBail "public JWK y coordinate is invalid")
               | Some y =>
                   if negb (length x =? 32)%nat || negb (length y =? 32)%nat
                   then Err (EBail "public JWK coordinates must contain 32 bytes")
                   else if from_sec1_bytes (4 :: x ++ y) then Ok tt
                   else Err (EBail "public JWK coordinates are not on P-256")
               end
           end
  | _, _ => Err (EBail "public JWK is invalid")
  end.

Definition matches_private (jwk : Value) (signing : SigningKey) : result error unit :=
  match sec1_x signing, sec1_y signing with
  | Some x, Some y =>
      if bool_decide (json_get_str jwk #"x" = Some (b64url_encode x))
         && bool_decide (json_get_str jwk #"y" = Some (b64url_encode y))
      then Ok tt else Err (EBail "public JWK does not match private signing key")
  | _, _ => Err (EBail "stored P-256 signing key has no coordinate")
  end.

Definition validate_signing_key (record : StoredSigningKey) (master_keys : KeyRing) : result error unit :=
  match validate_public_jwk (k_kid record) (k_public_jwk record) with
  | Err e => Err e
  | Ok _ =>
      match open_private_key master_keys record with
      | Err e => Err e
      | Ok private_der =>
          match from_pkcs8_der private_der with
          | None => Err (EBail "stored signing key is not valid P-256 PKCS#8 material")
          | Some signing => matches_private (k_public_jwk record) signing
          end
      end
  end.
(** ** The key set *)

(** The loop over the retired keys, with the set of kids seen so far. *)
Fixpoint validate_retired (kids : list str) (retired : list RetiredPublicKey) : result error unit :=
  match retired with
  | [] => Ok tt
  | r :: retired =>
      match validate_public_jwk (rt_kid r) (rt_public_jwk r) with
      | Err e => Err e
      | Ok _ =>
          if bool_decide (rt_kid r ∈ kids) then Err (EBail "signing keyset contains duplicate kid")
          else validate_retired (rt_kid r :: kids) retired
      end
  end.

Definition validate_keyset (keyset : StoredKeySet) (master_keys : KeyRing) : result error unit :=
  if negb (ks_version keyset =? KEYSET_VERSION) then Err (EBail "unsupported signing keyset version") else
  match validate_signing_key (ks_active keyset) master_keys with
  | Err e => Err e
  | Ok _ =>
      let kids := [k_kid (ks_active keyset)] in
      match ks_staged keyset with
      | None => validate_retired kids (ks_retired keyset)
      | Some staged =>
          match validate_signing_key (st_key staged) master_keys with
          | Err e => Err e
          | Ok _ =>
              if bool_decide (k_kid (st_key staged) ∈ kids)
              then Err (EBail "signing keyset contains duplicate kid")
              else validate_retired (k_kid (st_key staged) :: kids) (ks_retired keyset)
          end
      end
  end.

Definition validate_snapshot_keyset (value : str) (master_keys : KeyRing) : result error unit :=
  match from_json value with
  | None => Err EDecode
  | Some keyset => validate_keyset keyset master_keys
  end.

(** The first key of the ring that decrypts. *)
Fixpoint legacy_decrypt (master_keys : KeyRing) (nonce ciphertext : list N) (ids : list str) :
    option (list N) :=
  match ids with
  | [] => None
  | id :: ids =>
      match keyring_get master_keys id ≫= λ key, aes_decrypt key nonce ciphertext [] with
      | Some value => Some value
      | None => legacy_decrypt master_keys nonce ciphertext ids
      end
  end.

Definition migrate_legacy (legacy : LegacyStoredKey) (master_keys : KeyRing) (current : N) :
    M error StoredSigningKey :=
  nonce ← some_or (EBail "decode legacy signing-key nonce") (b64url_decode (lg_nonce legacy));
  ciphertext ← some_or (EBail "decode legacy encrypted signing key")
    (b64url_decode (lg_encrypted_private_key legacy));
  ensure (length nonce =? 12)%nat (EBail "legacy signing-key nonce must contain exactly 12 bytes");;
  private_der ← some_or
    (EBail "legacy signing key cannot be decrypted by AUTH_MASTER_KEY_HEX or its previous keys")
    (legacy_decrypt master_keys nonce ciphertext (key_ids master_keys));
  encrypted ← seal_private_key master_keys (lg_kid legacy) private_der;
  mret (mkSigningKey (lg_kid legacy) (lg_public_jwk legacy) current encrypted).

Definition read_keyset : M error StoredKeySet :=
  v ← get KEYSET_KEY;
  value ← some_or (EBail "stored signing keyset is missing") v;
  some_or EDecode (from_json value).

Definition load_or_create_keyset (master_keys : KeyRing) (current : N) : M error StoredKeySet :=
  stored ← get KEYSET_KEY;
  match stored with
  | Some value => some_or EDecode (from_json value)
  | None =>
      legacy ← get LEGACY_SIGNING_KEY;
      active ← match legacy with
               | Some value =>
                   legacy ← some_or EDecode (from_json value);
                   migrate_legacy legacy master_keys current
               | None => generate master_keys current
               end;
      let generated := mkKeySet KEYSET_VERSION active None [] in
      inserted ← set_nx KEYSET_KEY (to_json generated);
      if inserted : bool then mret generated else read_keyset
  end.

(** ** The published document *)

Definition publishable (current : N) (key : RetiredPublicKey) : bool := current <? rt_publish_until key.

Definition published (keyset : StoredKeySet) (current : N) : list Value :=
  k_public_jwk (ks_active keyset)
  :: match ks_staged keyset with Some staged => [k_public_jwk (st_key staged)] | None => [] end
  ++ (rt_public_jwk <$> List.filter (publishable current) (ks_retired keyset)).

Definition runtime_keyset (keyset : StoredKeySet) (master_keys : KeyRing) (current : N) :
    result error RuntimeKeySet :=
  match validate_keyset keyset master_keys with
  | Err e => Err e
  | Ok _ =>
      match open_private_key master_keys (ks_active keyset) with
      | Err e => Err e
      | Ok private_der =>
          Ok (mkRuntime (k_kid (ks_active keyset)) private_der (json_keys (published keyset current)))
      end
  end.

(** ** Rotation *)

Definition set_encrypted (e : EncryptedPrivateKey) (k : StoredSigningKey) : StoredSigningKey :=
  mkSigningKey (k_kid k) (k_public_jwk k) (k_created_at k) e.

Definition rewrap_if_needed (record : StoredSigningKey) (master_keys : KeyRing) : M error StoredSigningKey :=
  if bool_decide (wrapping_key_id (k_encrypted_private_key record) = ke_id (kr_active master_keys))
  then mret record
  else
    private_der ← lift (open_private_key master_keys record);
    encrypted ← seal_private_key master_keys (k_kid record) private_der;
    mret (set_encrypted encrypted record).

Definition activate_staged (keyset : StoredKeySet) (rotation : SigningRotationConfig) (current : N) :
    result error StoredKeySet :=
  match ks_staged keyset with
  | None => Err (EBail "staged key is missing")
  | Some staged =>
      let previous := ks_active keyset in
      Ok (mkKeySet (ks_version keyset) (st_key staged) None
            (List.filter (λ key, negb (bool_decide (rt_kid key = k_kid previous))) (ks_retired keyset)
             ++ [mkRetired (k_kid previous) (k_public_jwk previous)
                   (saturating_add current (overlap_seconds rotation))]))
  end.

Definition set_staged (staged : option StagedSigningKey) (ks : StoredKeySet) : StoredKeySet :=
  mkKeySet (ks_version ks) (ks_active ks) staged (ks_retired ks).

(** The first three statements of [maintain_keyset]. *)
Definition tidy_keyset (keyset : StoredKeySet) (master_keys : KeyRing) (current : N) :
    M error StoredKeySet :=
  let retired := List.filter (publishable current) (ks_retired keyset) in
  active ← rewrap_if_needed (ks_active keyset) master_keys;
  staged ← match ks_staged keyset with
           | None => mret None
           | Some staged =>
               key ← rewrap_if_needed (st_key staged) master_keys;
               mret (Some (mkStaged key (st_activate_at staged)))
           end;
  mret (mkKeySet (ks_version keyset) active staged retired).

Definition due (current : N) (keyset : StoredKeySet) : bool :=
  match ks_staged keyset with Some staged => st_activate_at staged <=? current | None => false end.

Definition maintain_keyset (keyset : StoredKeySet) (master_keys : KeyRing)
    (rotation : SigningRotationConfig) (current : N) (force_stage activate_immediately : bool) :
    M error StoredKeySet :=
  keyset ← tidy_keyset keyset master_keys current;
  if activate_immediately then
    key ← generate master_keys current;
    lift (activate_staged (set_staged (Some (mkStaged key current)) keyset) rotation current)
  else
    keyset ← (if due current keyset then lift (activate_staged keyset rotation current) else mret keyset);
    if negb (is_some (ks_staged keyset))
       && (force_stage
           || (saturating_add (k_created_at (ks_active keyset)) (rotation_seconds rotation) <=? current))
    then
      key ← generate master_keys current;
      mret (set_staged (Some (mkStaged key (saturating_add current (prepublish_seconds rotation)))) keyset)
    else mret keyset.

Definition status_for (keyset : StoredKeySet) (rotation : SigningRotationConfig) : SigningKeyStatus :=
  mkStatus (k_kid (ks_active keyset)) ((λ s, k_kid (st_key s)) <$> ks_staged keyset)
    (st_activate_at <$> ks_staged keyset) (rt_kid <$> ks_retired keyset)
    (saturating_add (k_created_at (ks_active keyset)) (rotation_seconds rotation)).

Definition acquire_maintenance_lock : M error (option str) :=
  id ← new_v4;
  let token := uuid_show id in
  rs ← query [SET_NX_EX MAINTENANCE_LOCK_KEY token 60];
  acquired ← lift (match rs with [ROk] => Ok true | [RNil] => Ok false | _ => Err EDb end);
  mret (if acquired : bool then Some token else None).

(** Failures are logged and swallowed. *)
Definition release_maintenance_lock (token : str) : M error unit :=
  _ ← attempt (E := error) (query [DELIFEQ MAINTENANCE_LOCK_KEY token]);
  mret tt.

(** The issuer's configuration; its runtime key set is passed around. *)
Record JwtIssuer := mkIssuer { ji_master_keys : KeyRing; ji_rotation : SigningRotationConfig }.

Definition maintain_while_locked (self : JwtIssuer) (current : N) (force_stage activate_immediately : bool) :
    M error RuntimeKeySet :=
  before ← read_keyset;
  keyset ← maintain_keyset before (ji_master_keys self) (ji_rotation self) current force_stage activate_immediately;
  lift (validate_keyset keyset (ji_master_keys self));;
  (if bool_decide (keyset = before) then mret tt else execute [SET KEYSET_KEY (to_json keyset)]);;
  lift (runtime_keyset keyset (ji_master_keys self) current).

(** The outcome and the runtime key set afterwards. *)
Definition maintain_at (self : JwtIssuer) (runtime : RuntimeKeySet) (current : N)
    (force_stage activate_immediately : bool) : M error (result error unit * RuntimeKeySet) :=
  lock ← acquire_maintenance_lock;
  match lock with
  | None =>
      keyset ← read_keyset;
      runtime ← lift (runtime_keyset keyset (ji_master_keys self) current);
      mret (if force_stage
            then Err (EBail "another process is rotating signing keys; retry in a few seconds")
            else Ok tt, runtime)
  | Some token =>
      r ← attempt (E := error) (maintain_while_locked self current force_stage activate_immediately);
      release_maintenance_lock token;;
      mret (match r with Ok runtime => (Ok tt, runtime) | Err e => (Err e, runtime) end)
  end.

Definition stored_status (self : JwtIssuer) : M error SigningKeyStatus :=
  keyset ← read_keyset;
  mret (status_for keyset (ji_rotation self)).

Definition force_rotate (self : JwtIssuer) (runtime : RuntimeKeySet) (activate_immediately : bool) :
    M error (SigningKeyStatus * RuntimeKeySet) :=
  t ← now;
  r ← maintain_at self runtime t true activate_immediately;
  let '(outcome, runtime) := r in
  lift outcome;;
  status ← stored_status self;
  mret (status, runtime).

Definition load_or_create (self : JwtIssuer) : M error RuntimeKeySet :=
  t ← now;
  keyset ← load_or_create_keyset (ji_master_keys self) t;
  lift (validate_keyset keyset (ji_master_keys self));;
  t ← now;
  runtime ← lift (runtime_keyset keyset (ji_master_keys self) t);
  t ← now;
  r ← maintain_at self runtime t false false;
  let '(outcome, runtime) := r in
  lift outcome;;
  mret runtime.

(** ** Frames *)

Lemma seal_private_key_reads ring kid der : moves eq (seal_private_key ring kid der).
Proof. unfold seal_private_key. destruct (kr_active ring). moves_go. Qed.
Hint Resolve seal_private_key_reads : moves.
Lemma generate_reads ring t : moves eq (generate ring t).
Proof. unfold generate. moves_go. Qed.
Lemma rewrap_reads k ring : moves eq (rewrap_if_needed k ring).
Proof. unfold rewrap_if_needed. moves_go. Qed.
Hint Resolve generate_reads rewrap_reads : moves.
Lemma maintain_keyset_reads ks ring rot c f a : moves eq (maintain_keyset ks ring rot c f a).
Proof. unfold maintain_keyset, tidy_keyset. moves_go. Qed.

(** ** What maintenance does to a key set *)

(** The parts of a key that rewrapping leaves alone. *)
Definition same_key (k k' : StoredSigningKey) : Prop :=
  k_kid k' = k_kid k ∧ k_public_jwk k' = k_public_jwk k ∧ k_created_at k' = k_created_at k.

Definition same_staged (s s' : option StagedSigningKey) : Prop :=
  match s, s' with
  | None, None => True
  | Some s, Some s' => same_key (st_key s) (st_key s') ∧ st_activate_at s' = st_activate_at s
  | _, _ => False
  end.

Record tidied (c : N) (ks ks' : StoredKeySet) : Prop := {
  tidied_version : ks_version ks' = ks_version ks;
  tidied_active : same_key (ks_active ks) (ks_active ks');
  tidied_staged : same_staged (ks_staged ks) (ks_staged ks');
  tidied_retired : ks_retired ks' = List.filter (publishable c) (ks_retired ks)
}.

Lemma rewrap_same k ring : returns (same_key k) (rewrap_if_needed k ring).
Proof.
  unfold rewrap_if_needed. case_bool_decide; [by apply returns_ret|].
  do 2 (apply returns_then; intros). by apply returns_ret.
Qed.

Lemma tidy_spec ks ring c : returns (tidied c ks) (tidy_keyset ks ring c).
Proof.
  unfold tidy_keyset. apply (returns_bind _ _ _ _ (rewrap_same _ _)). intros k Hk.
  apply (returns_bind (same_staged (ks_staged ks))).
  - destruct (ks_staged ks) as [s|]; [|by apply returns_ret].
    apply (returns_bind _ _ _ _ (rewrap_same _ _)). intros k' Hk'. by apply returns_ret.
  - intros s Hs. by apply returns_ret.
Qed.

(** The key set after one maintenance at [c], by what it did to the tidied one. *)
Inductive rotated (rot : SigningRotationConfig) (c : N) (immediate : bool) (ks : StoredKeySet) :
    StoredKeySet → Prop :=
  | rotated_kept : immediate = false → rotated rot c immediate ks ks
  | rotated_staged key :
      immediate = false → ks_staged ks = None → k_created_at key = c →
      rotated rot c immediate ks (set_staged (Some (mkStaged key (saturating_add c (prepublish_seconds rot)))) ks)
  | rotated_activated staged ks' :
      immediate = false → ks_staged ks = Some staged → st_activate_at staged ≤ c →
      activate_staged ks rot c = Ok ks' → rotated rot c immediate ks ks'
  | rotated_activated_staged staged ks' key :
      immediate = false → ks_staged ks = Some staged → st_activate_at staged ≤ c →
      activate_staged ks rot c = Ok ks' → k_created_at key = c →
      rotated rot c immediate ks (set_staged (Some (mkStaged key (saturating_add c (prepublish_seconds rot)))) ks')
  | rotated_now key ks' :
      immediate = true → k_created_at key = c →
      activate_staged (set_staged (Some (mkStaged key c)) ks) rot c = Ok ks' → rotated rot c immediate ks ks'.

Lemma generate_created ring c : returns (λ k, k_created_at k = c) (generate ring c).
Proof. unfold generate. repeat (apply returns_then; intros). by apply returns_ret. Qed.

Lemma activate_none ks rot c ks' : activate_staged ks rot c = Ok ks' → ks_staged ks' = None.
Proof. unfold activate_staged. destruct (ks_staged ks); [|done]. by intros [= <-]. Qed.

Lemma maintain_spec ks ring rot c f a :
  returns (λ ks', ∃ ks1, tidied c ks ks1 ∧ rotated rot c a ks1 ks') (maintain_keyset ks ring rot c f a).
Proof.
  unfold maintain_keyset. apply (returns_bind _ _ _ _ (tidy_spec _ _ _)). intros ks1 Ht. destruct a.
  { apply (returns_bind _ _ _ _ (generate_created _ _)). intros key Hk. apply returns_lift. intros ks' Hks'.
    exists ks1. split; [done|]. by eapply rotated_now. }
  unfold due. destruct (ks_staged ks1) as [s|] eqn:Hs; [destruct (N.leb_spec (st_activate_at s) c)|].
  - apply (returns_bind (λ ks2, activate_staged ks1 rot c = Ok ks2)); [by apply returns_lift|].
    intros ks2 H2. case_match; [|apply returns_ret; exists ks1; split; [done|by eapply rotated_activated]].
    apply (returns_bind _ _ _ _ (generate_created _ _)). intros key Hk. apply returns_ret.
    exists ks1. split; [done|]. by eapply rotated_activated_staged.
  - apply (returns_bind (λ ks2, ks2 = ks1)); [by apply returns_ret|]. intros ? ->. rewrite Hs. simpl.
    apply returns_ret. exists ks1. split; [done|by apply rotated_kept].
  - apply (returns_bind (λ ks2, ks2 = ks1)); [by apply returns_ret|]. intros ? ->. rewrite Hs. simpl.
    case_match; [|apply returns_ret; exists ks1; split; [done|by apply rotated_kept]].
    apply (returns_bind _ _ _ _ (generate_created _ _)). intros key Hk. apply returns_ret.
    exists ks1. split; [done|]. by apply rotated_staged.
Qed.

(** ** Kids are unique in a valid key set *)

Lemma validate_retired_fresh kids l : validate_retired kids l = Ok tt → Forall (λ r, rt_kid r ∉ kids) l.
Proof.
  revert kids. induction l as [|r l IH]; intros kids; [by constructor|]. simpl.
  destruct (validate_public_jwk _ _); [|done]. case_bool_decide as Hr; [done|]. intros Hl.
  constructor; [done|]. eapply Forall_impl; [by apply IH|]. set_solver.
Qed.

Lemma validate_active_fresh ks ring r :
  validate_keyset ks ring = Ok tt → r ∈ ks_retired ks → rt_kid r ≠ k_kid (ks_active ks).
Proof.
  unfold validate_keyset. case_match; [done|]. case_match; [|done].
  intros Hv Hr. assert (∃ kids, k_kid (ks_active ks) ∈ kids ∧ validate_retired kids (ks_retired ks) = Ok tt)
    as (kids & Hin & Hv').
  { destruct (ks_staged ks) as [st|]; [|eexists; split; [|done]; set_solver].
    case_match; [|done]. case_bool_decide; [done|]. eexists. split; [|done]. set_solver. }
  pose proof (validate_retired_fresh _ _ Hv') as Hf. rewrite Forall_forall in Hf. specialize (Hf r Hr). intros He. apply Hf. by rewrite He.
Qed.

(** ** A signing key outlives the tokens it signed *)

(** [jwk] is active, or retired and published until [T] at least. *)
Definition kept_until (T : N) (jwk : Value) (ks : StoredKeySet) : Prop :=
  k_public_jwk (ks_active ks) = jwk ∨
  ∃ r, r ∈ ks_retired ks ∧ rt_public_jwk r = jwk ∧ T ≤ rt_publish_until r.

Lemma kept_published T jwk ks c : kept_until T jwk ks → c < T → jwk ∈ published ks c.
Proof.
  intros [<-|(r & Hr & <- & Ht)] Hc; unfold published; [left|right]. apply elem_of_app. right.
  apply list_elem_of_fmap. exists r. split; [done|]. rewrite list_elem_of_In in *. apply filter_In.
  split; [done|]. unfold publishable. apply N.ltb_lt. lia.
Qed.

Lemma kept_tidied T jwk c ks ks' : tidied c ks ks' → c < T → kept_until T jwk ks → kept_until T jwk ks'.
Proof.
  intros [_ (_ & Hj & _) _ Hr] Hc [<-|(r & Hin & <- & Ht)]; [by left|right].
  exists r. split; [|done]. rewrite Hr. rewrite list_elem_of_In in *. apply filter_In. split; [done|].
  unfold publishable. apply N.ltb_lt. lia.
Qed.

Lemma kept_activated T jwk c rot ks ks' :
  activate_staged ks rot c = Ok ks' → (∀ r, r ∈ ks_retired ks → rt_kid r ≠ k_kid (ks_active ks)) →
  T ≤ saturating_add c (overlap_seconds rot) → kept_until T jwk ks → kept_until T jwk ks'.
Proof.
  unfold activate_staged. destruct (ks_staged ks) as [st|]; [|done]. intros [= <-] Hf HT Hk. right.
  destruct Hk as [<-|(r & Hin & <- & Ht)].
  - eexists. split; [apply elem_of_app; right; by apply list_elem_of_singleton|]. done.
  - exists r. split; [|done]. apply elem_of_app. left. specialize (Hf r Hin).
    rewrite list_elem_of_In in *. apply filter_In. split; [done|]. by rewrite bool_decide_eq_false_2.
Qed.

Lemma kept_rotated T jwk c rot a ks ks' :
  rotated rot c a ks ks' → (∀ r, r ∈ ks_retired ks → rt_kid r ≠ k_kid (ks_active ks)) →
  T ≤ saturating_add c (overlap_seconds rot) → kept_until T jwk ks → kept_until T jwk ks'.
Proof.
  intros Hr Hf HT Hk. destruct Hr as [| | ? ks' _ _ _ Ha|? ks' key _ _ _ Ha|key ks' _ _ Ha];
    [done|done|by eapply kept_activated|by eapply (kept_activated T jwk) in Ha|].
  by eapply kept_activated.
Qed.

(** [ks'] is a checked result of maintaining [ks] at [c]. *)
Definition maintained (self : JwtIssuer) (c : N) (a : bool) (ks ks' : StoredKeySet) : Prop :=
  validate_keyset ks' (ji_master_keys self) = Ok tt ∧
  ∃ ks1, tidied c ks ks1 ∧ rotated (ji_rotation self) c a ks1 ks'.

Lemma tidied_fresh c ks ks1 ring r :
  validate_keyset ks ring = Ok tt → tidied c ks ks1 → r ∈ ks_retired ks1 → rt_kid r ≠ k_kid (ks_active ks1).
Proof.
  intros Hv [_ (Hkid & _) _ Hr] Hin. rewrite Hkid. eapply validate_active_fresh; [done|].
  rewrite Hr, list_elem_of_In in Hin. apply filter_In in Hin as [Hin _]. by apply list_elem_of_In.
Qed.

Lemma kept_maintained self T jwk c a ks ks' :
  validate_keyset ks (ji_master_keys self) = Ok tt → maintained self c a ks ks' →
  c < T → T ≤ saturating_add c (overlap_seconds (ji_rotation self)) →
  kept_until T jwk ks → kept_until T jwk ks'.
Proof.
  intros Hv (_ & ks1 & Ht & Hr) Hc HT Hk. eapply kept_rotated; [done| |done|by eapply kept_tidied].
  intros r. by eapply tidied_fresh.
Qed.

(** ** Maintenance against the datastore *)

Definition stored (m : gmap str entry) (ks : StoredKeySet) : Prop :=
  m !! KEYSET_KEY = Some (Entry (to_json ks) None).

Lemma stored_inj m ks ks' : stored m ks → stored m ks' → ks = ks'.
Proof.
  unfold stored. intros H1 H2. assert (to_json ks = to_json ks') as Hj by congruence.
  apply (f_equal (from_json (A := StoredKeySet))) in Hj. rewrite !from_to_json in Hj. by simplify_eq.
Qed.

Lemma wp_read_keyset ks o w (Q : result error StoredKeySet → world → Prop) :
  stored (vw w) ks → (∀ e w', vw w' = vw w → Q (Err e) w') → (∀ w', vw w' = vw w → Q (Ok ks) w') →
  wp read_keyset o w Q.
Proof.
  intros Hs He Hok. unfold read_keyset. apply wp_bind, wp_get_view; [intros; by apply He|].
  intros t w' Hv. rewrite (live_persistent _ _ _ _ Hs). apply wp_bind, wp_some_or; [|done].
  intros ? [= <-]. apply wp_some_or; rewrite from_to_json; [|done]. intros ? [= <-]. by apply Hok.
Qed.

Lemma runtime_spec ks ring c rt :
  runtime_keyset ks ring c = Ok rt →
  rk_jwks rt = json_keys (published ks c) ∧ rk_active_kid rt = k_kid (ks_active ks) ∧
  validate_keyset ks ring = Ok tt.
Proof.
  unfold runtime_keyset. destruct (validate_keyset ks ring) as [[]|]; [|done].
  destruct (open_private_key _ _); [|done]. by intros [= <-].
Qed.

(** What one maintenance leaves in the datastore and in the runtime. *)
Definition maintenance_post (self : JwtIssuer) (c : N) (a : bool) (ks : StoredKeySet) (rt : RuntimeKeySet)
    (m' : gmap str entry) (rt' : RuntimeKeySet) : Prop :=
  ∃ ks', stored m' ks' ∧ (ks' = ks ∨ maintained self c a ks ks') ∧
    (rt' = rt ∨ runtime_keyset ks' (ji_master_keys self) c = Ok rt').

Lemma wp_maintain_while_locked self c f a ks rt o w :
  stored (vw w) ks →
  wp (maintain_while_locked self c f a) o w (λ r w',
    maintenance_post self c a ks rt (vw w') (match r with Ok rt' => rt' | Err _ => rt end)).
Proof.
  intros Hs. unfold maintain_while_locked.
  assert (Hsame : ∀ m' rt', m' = vw w → rt' = rt ∨ runtime_keyset ks (ji_master_keys self) c = Ok rt' →
    maintenance_post self c a ks rt m' rt').
  { intros m' rt' -> Hrt. exists ks. split_and!; [done|by left|done]. }
  apply wp_bind, (wp_read_keyset ks); [done|intros e w' Hv; apply Hsame; auto|]. intros w1 Hv1.
  apply wp_bind. unfold wp. pose proof (maintain_keyset_reads ks (ji_master_keys self) (ji_rotation self) c f a o w1) as Hrd.
  pose proof (maintain_spec ks (ji_master_keys self) (ji_rotation self) c f a o w1) as Hsp.
  destruct (maintain_keyset _ _ _ _ _ _ o w1) as [[ks'|e] w2]; cbn [fst snd] in *; [|apply Hsame; [congruence|by left]].
  specialize (Hsp _ _ eq_refl). change (wp (lift (validate_keyset ks' (ji_master_keys self));;
    (if bool_decide (ks' = ks) then mret tt else execute [SET KEYSET_KEY (to_json ks')]);;
    lift (runtime_keyset ks' (ji_master_keys self) c)) o w2 (λ r w', maintenance_post self c a ks rt (vw w')
      (match r with Ok rt' => rt' | Err _ => rt end))).
  apply wp_bind, wp_lift. destruct (validate_keyset ks' _) as [[]|e] eqn:Hval; [|apply Hsame; [congruence|by left]].
  assert (Hnew : ∀ m' rt', stored m' ks' → rt' = rt ∨ runtime_keyset ks' (ji_master_keys self) c = Ok rt' →
    maintenance_post self c a ks rt m' rt').
  { intros m' rt' Hs' Hrt. exists ks'. split_and!; [done|by right|done]. }
  apply wp_bind. case_bool_decide as Heq.
  - subst ks'. apply wp_ret, wp_lift. apply Hsame; [congruence|]. destruct (runtime_keyset _ _ _); auto.
  - apply wp_execute_view.
    + intros w' t _ [Hv|Hv]; [apply Hsame; [congruence|by left]|apply Hnew; [|by left]].
      rewrite Hv. simpl. apply lookup_insert_eq.
    + intros w' t _ Hv. apply wp_lift. apply Hnew; [rewrite Hv; simpl; apply lookup_insert_eq|].
      destruct (runtime_keyset ks' _ _); auto.
Qed.

(** The lock is another record. *)
Lemma lock_query_leaves cs :
  (∀ t m, (exec_pipe t cs m).2 !! KEYSET_KEY = m !! KEYSET_KEY) → ∀ o w (Q : result error (list reply) → world → Prop),
  (∀ r w', vw w' !! KEYSET_KEY = vw w !! KEYSET_KEY → Q r w') → wp (query cs) o w Q.
Proof.
  intros Hc o w Q HQ. apply wp_query.
  - intros d _ [Hv|Hv]; apply HQ; change (vw (after_trip w d)) with (db_view d); by rewrite Hv.
  - intros d _ Hv. apply HQ. change (vw (after_trip w d)) with (db_view d). by rewrite Hv.
Qed.

Lemma stored_eq m m' ks : m' !! KEYSET_KEY = m !! KEYSET_KEY → stored m ks → stored m' ks.
Proof. unfold stored. congruence. Qed.

Lemma wp_acquire_maintenance_lock ks o w (Q : result error (option str) → world → Prop) :
  stored (vw w) ks → (∀ r w', stored (vw w') ks → Q r w') → wp acquire_maintenance_lock o w Q.
Proof.
  intros Hs HQ. unfold acquire_maintenance_lock. apply wp_bind, wp_new_v4. intros id w1 Hdb _ _.
  assert (Hv : vw w1 = vw w) by (unfold vw; by rewrite Hdb). apply wp_bind, lock_query_leaves.
  { intros t m. simpl. destruct (live _ _ _); simpl; [done|]. by apply lookup_insert_ne. }
  intros [rs|e] w2 H2; [|apply HQ; eapply stored_eq; [done|by rewrite Hv]].
  apply wp_bind, wp_lift. case_match; [apply wp_ret|]; apply HQ; (eapply stored_eq; [done|by rewrite Hv]).
Qed.

Lemma wp_maintain_at self rt c f a ks o w :
  stored (vw w) ks →
  wp (maintain_at self rt c f a) o w (λ r w',
    maintenance_post self c a ks rt (vw w') (match r with Ok (_, rt') => rt' | Err _ => rt end)).
Proof.
  intros Hs. unfold maintain_at. apply wp_bind, (wp_acquire_maintenance_lock ks); [done|].
  assert (Hsame : ∀ m' rt', stored m' ks → rt' = rt ∨ runtime_keyset ks (ji_master_keys self) c = Ok rt' →
    maintenance_post self c a ks rt m' rt').
  { intros m' rt' Hm Hrt. exists ks. split_and!; [done|by left|done]. }
  intros [[token|]|e] w1 Hs1; [| |by apply Hsame; [|left]].
  - apply wp_bind, wp_attempt. eapply wp_mono; [by apply (wp_maintain_while_locked self c f a ks rt)|].
    intros r w2 Hpost. apply wp_bind. unfold release_maintenance_lock. apply wp_bind, wp_attempt, lock_query_leaves.
    { intros t m. simpl. case_bool_decide; simpl; [|done]. by apply lookup_delete_ne. }
    intros _ w3 H3. apply wp_ret, wp_ret. destruct Hpost as (ks' & Hs' & Hks & Hrt). exists ks'.
    split_and!; [by eapply stored_eq|done|by destruct r].
  - apply wp_bind, (wp_read_keyset ks); [done|intros e w2 Hv; apply Hsame; [by rewrite Hv|by left]|].
    intros w2 Hv. apply wp_bind, wp_lift. destruct (runtime_keyset ks _ c) as [rt'|e] eqn:Hrt.
    + apply wp_ret. apply Hsame; [by rewrite Hv|by right].
    + apply Hsame; [by rewrite Hv|by left].
Qed.

(** A process and the datastore over time: maintenance passes (failing ones
    included) of this process, and steps of anything else that does not write the
    key set. *)
Record issuer_state := mkIS { is_time : N; is_runtime : RuntimeKeySet; is_world : world }.

Inductive rotating (self : JwtIssuer) (immediate : bool) : issuer_state → issuer_state → Prop :=
  | rotating_maintain t rt w c f a o r w' :
      t ≤ c → (a = true → immediate = true) → maintain_at self rt c f a o w = (r, w') →
      rotating self immediate (mkIS t rt w) (mkIS c (match r with Ok (_, rt') => rt' | Err _ => rt end) w')
  | rotating_other t rt w t' w' :
      t ≤ t' → vw w' !! KEYSET_KEY = vw w !! KEYSET_KEY →
      rotating self immediate (mkIS t rt w) (mkIS t' rt w').

(** One step, as far as the key set goes. *)
Lemma rotating_step self imm t rt w st' ks :
  rotating self imm (mkIS t rt w) st' → stored (vw w) ks →
  t ≤ is_time st' ∧ ∃ a, (a = true → imm = true) ∧
    maintenance_post self (is_time st') a ks rt (vw (is_world st')) (is_runtime st').
Proof.
  intros Hst Hs. inversion Hst as [? ? ? c f a o r w' Hc Ha Hr|? ? ? t' w' Ht Hk]; subst; cbn [is_time is_world is_runtime].
  - split; [done|]. exists a. split; [done|].
    pose proof (wp_maintain_at self rt c f a ks o w Hs) as Hw. unfold wp in Hw. by rewrite Hr in Hw.
  - split; [done|]. exists false. split; [done|]. exists ks. split_and!; [by eapply stored_eq|by left|by left].
Qed.

Definition serves (jwk : Value) (rt : RuntimeKeySet) : Prop := ∃ l, rk_jwks rt = json_keys l ∧ jwk ∈ l.

Lemma rotating_time self imm st st' : rtc (rotating self imm) st st' → is_time st ≤ is_time st'.
Proof.
  induction 1 as [|st st1 st2 Hs _ IH]; [done|]. etrans; [|done]. by destruct Hs.
Qed.

(** The runtime was built from a valid key set that publishes [jwk]. *)
Definition served_by (ring : KeyRing) (jwk : Value) (rt : RuntimeKeySet) : Prop :=
  ∃ ks c, runtime_keyset ks ring c = Ok rt ∧ jwk ∈ published ks c.

Lemma token_key_kept self imm ks rt t access w st :
  stored (vw w) ks → (∃ c, runtime_keyset ks (ji_master_keys self) c = Ok rt) →
  access ≤ overlap_seconds (ji_rotation self) → t + access ≤ u64_max →
  rtc (rotating self imm) (mkIS t rt w) st → is_time st < t + access →
  (∃ ks', stored (vw (is_world st)) ks' ∧ k_public_jwk (ks_active ks) ∈ published ks' (is_time st)) ∧
  served_by (ji_master_keys self) (k_public_jwk (ks_active ks)) (is_runtime st).
Proof.
  intros Hs (c0 & Hrt) Hov Hmax Hrun Hlt. set (jwk := k_public_jwk (ks_active ks)).
  assert (Hsv : served_by (ji_master_keys self) jwk rt) by (exists ks, c0; split; [done|left]).
  apply runtime_spec in Hrt as (Hj & _ & Hv).
  assert (Hk : kept_until (t + access) jwk ks) by (by left).
  clearbody jwk. clear Hj.
  remember (mkIS t rt w) as st0 eqn:E0.
  assert (Hinv : ∃ ks', stored (vw (is_world st0)) ks' ∧ validate_keyset ks' (ji_master_keys self) = Ok tt ∧
    kept_until (t + access) jwk ks' ∧ served_by (ji_master_keys self) jwk (is_runtime st0) ∧ t ≤ is_time st0) by (subst; by exists ks).
  clear E0 Hs Hv Hk Hsv ks. induction Hrun as [st|st st1 st2 Hst Hrun IH].
  { destruct Hinv as (ks' & Hs & _ & Hk & Hsv & _). split; [|done]. exists ks'. split; [done|by eapply kept_published]. }
  apply IH; [done|]. destruct Hinv as (ks & Hs & Hv & Hk & Hsv & Ht). destruct st as [t1 rt1 w1].
  pose proof (rotating_time _ _ _ _ Hrun) as Hle. cbn [is_time is_world is_runtime] in *.
  destruct (rotating_step _ _ _ _ _ _ _ Hst Hs) as (Ht1 & a & _ & ks' & Hs' & Hks & Hrt').
  assert (Hv' : validate_keyset ks' (ji_master_keys self) = Ok tt) by (destruct Hks as [->|[? _]]; done).
  assert (Hk' : kept_until (t + access) jwk ks').
  { destruct Hks as [->|Hm]; [done|]. eapply kept_maintained; [exact Hv|exact Hm|lia| |done].
    unfold saturating_add. lia. }
  exists ks'. split_and!; [done|done|done| |lia].
  destruct Hrt' as [->|Hrt']; [done|]. exists ks'. eexists. split; [exact Hrt'|]. eapply kept_published; [done|lia].
Qed.

(** C13: tokens stay verifiable.  Take a process whose runtime was built from the
    stored, valid key set, and a token it signs at time [t] with its active key,
    to expire at [t + access].  Whatever maintenance runs follow (rotations,
    forced and immediate ones, failing ones, lost replies), until the token
    expires the key set in the datastore and the JWKS the process serves both
    contain the public key the token verifies under, provided the overlap is at
    least the token's lifetime, as the configuration demands. *)
Theorem token_outlives_rotation self imm ks rt t access w st :
  stored (vw w) ks → (∃ c, runtime_keyset ks (ji_master_keys self) c = Ok rt) →
  access ≤ overlap_seconds (ji_rotation self) → t + access ≤ u64_max →
  rtc (rotating self imm) (mkIS t rt w) st → is_time st < t + access →
  (∃ ks', stored (vw (is_world st)) ks' ∧ k_public_jwk (ks_active ks) ∈ published ks' (is_time st)) ∧
  serves (k_public_jwk (ks_active ks)) (is_runtime st).
Proof.
  intros Hs Hrt Hov Hmax Hrun Hlt. destruct (token_key_kept _ _ _ _ _ _ _ _ Hs Hrt Hov Hmax Hrun Hlt) as [Hd (ks' & c & Hr & Hin)].
  split; [done|]. apply runtime_spec in Hr as (Hj & _ & _). by eexists.
Qed.

(** ** A signing key is published before it signs *)

Section Prepublication.
Context (self : JwtIssuer) (st0 : issuer_state) (ks0 : StoredKeySet).

Definition offers (jwk : Value) (st : issuer_state) : Prop :=
  ∃ ks, stored (vw (is_world st)) ks ∧ jwk ∈ published ks (is_time st).

(** From some state on, in which it was staged, to [st], every state publishes
    [jwk]; [T] is that state's time plus the prepublication period. *)
Definition announced (jwk : Value) (st : issuer_state) (T : N) : Prop :=
  ∃ mid, rtc (rotating self false) st0 mid ∧ offers jwk mid ∧
    rtc (λ x y, rotating self false x y ∧ offers jwk y) mid st ∧
    T = saturating_add (is_time mid) (prepublish_seconds (ji_rotation self)).

Definition active_origin (jwk : Value) (st : issuer_state) : Prop :=
  jwk = k_public_jwk (ks_active ks0) ∨
  (∃ s, ks_staged ks0 = Some s ∧ k_public_jwk (st_key s) = jwk ∧ st_activate_at s ≤ is_time st) ∨
  (∃ T, announced jwk st T ∧ T ≤ is_time st).

Definition staged_origin (jwk : Value) (T : N) (st : issuer_state) : Prop :=
  (∃ s, ks_staged ks0 = Some s ∧ k_public_jwk (st_key s) = jwk ∧ st_activate_at s = T) ∨ announced jwk st T.

Definition traced (ks : StoredKeySet) (st : issuer_state) : Prop :=
  active_origin (k_public_jwk (ks_active ks)) st ∧
  ∀ s, ks_staged ks = Some s → staged_origin (k_public_jwk (st_key s)) (st_activate_at s) st.

Lemma announced_step jwk st st' T :
  rotating self false st st' → offers jwk st' → announced jwk st T → announced jwk st' T.
Proof.
  intros Hst Ho (mid & Hinit & Hm & Hr & HT). exists mid. split_and!; [done|done| |done]. by eapply rtc_r.
Qed.

Lemma active_origin_step jwk st st' :
  rotating self false st st' → is_time st ≤ is_time st' → offers jwk st' →
  active_origin jwk st → active_origin jwk st'.
Proof.
  intros Hst Ht Ho [Hinit|[(s & Hs & Hj & Ha)|(T & Hann & HT)]]; [by left|right; left|right; right].
  - exists s. split_and!; [done|done|lia].
  - exists T. split; [by eapply announced_step|lia].
Qed.

Lemma staged_origin_step jwk T st st' :
  rotating self false st st' → offers jwk st' → staged_origin jwk T st → staged_origin jwk T st'.
Proof. intros Hst Ho [Hinit|Ha]; [by left|right]. by eapply announced_step. Qed.

Lemma staged_becomes_active jwk T st : staged_origin jwk T st → T ≤ is_time st → active_origin jwk st.
Proof.
  intros [(s & Hs & Hj & <-)|Ha] HT; [right; left|right; right]; [by exists s|by exists T].
Qed.

Lemma offers_active st ks : stored (vw (is_world st)) ks → offers (k_public_jwk (ks_active ks)) st.
Proof. intros Hs. exists ks. split; [done|left]. Qed.

Lemma offers_staged st ks s :
  stored (vw (is_world st)) ks → ks_staged ks = Some s → offers (k_public_jwk (st_key s)) st.
Proof. intros Hs Hst. exists ks. split; [done|]. unfold published. rewrite Hst. right. left. Qed.

(** Kept keys keep their origin. *)
Lemma traced_same st st' ks ks' :
  rotating self false st st' → is_time st ≤ is_time st' → stored (vw (is_world st')) ks' →
  k_public_jwk (ks_active ks') = k_public_jwk (ks_active ks) → same_staged (ks_staged ks) (ks_staged ks') →
  traced ks st → traced ks' st'.
Proof.
  intros Hst Ht Hs' Hact Hsame [Ha Hb]. split.
  - eapply active_origin_step; [done|done|by apply offers_active|by rewrite Hact].
  - intros s' Hs1. pose proof (offers_staged _ _ _ Hs' Hs1) as Ho. rewrite Hs1 in Hsame.
    destruct (ks_staged ks) as [s|]; [|done]. destruct Hsame as [(_ & Hj & _) Hact'].
    rewrite Hj, Hact' in *. eapply staged_origin_step; [done|done|by apply Hb].
Qed.

(** A key staged now was announced now. *)
Lemma traced_new st' key ks :
  rtc (rotating self false) st0 st' →
  stored (vw (is_world st')) (set_staged (Some (mkStaged key
    (saturating_add (is_time st') (prepublish_seconds (ji_rotation self))))) ks) →
  active_origin (k_public_jwk (ks_active ks)) st' →
  traced (set_staged (Some (mkStaged key (saturating_add (is_time st') (prepublish_seconds (ji_rotation self))))) ks) st'.
Proof.
  intros Hrun Hs Ha. split; [done|]. intros s [= <-]. right. exists st'.
  split_and!; [done|by eapply offers_staged|done|done].
Qed.

Lemma activated_active ks rot c ks' s :
  activate_staged ks rot c = Ok ks' → ks_staged ks = Some s →
  ks_active ks' = st_key s ∧ ks_staged ks' = None.
Proof. unfold activate_staged. intros Ha Hs. rewrite Hs in Ha. by injection Ha as <-. Qed.

Lemma traced_step st st' ks ks' :
  rtc (rotating self false) st0 st' → rotating self false st st' → is_time st ≤ is_time st' →
  stored (vw (is_world st')) ks' → maintained self (is_time st') false ks ks' → traced ks st → traced ks' st'.
Proof.
  intros Hrun Hst Ht Hs' (_ & ks1 & [_ (_ & Hj & _) Hsame _] & Hr) Htr.
  assert (Hact : ∀ s1, ks_staged ks1 = Some s1 → st_activate_at s1 ≤ is_time st' → offers (k_public_jwk (st_key s1)) st' →
    active_origin (k_public_jwk (st_key s1)) st').
  { intros s1 Hs1 Hle Ho. rewrite Hs1 in Hsame. destruct (ks_staged ks) as [s|] eqn:Hss; [|done].
    destruct Hsame as [(_ & Hj1 & _) Hat]. destruct Htr as [_ Hb]. specialize (Hb s Hss). rewrite Hj1 in *.
    eapply staged_becomes_active; [by eapply staged_origin_step|lia]. }
  inversion Hr as [_|key _ Hnone _|s ? _ Hs1 Hle Ha|s ks2 key _ Hs1 Hle Ha|]; subst; try done.
  - by eapply traced_same.
  - apply traced_new; [done|done|]. rewrite Hj. destruct Htr as [Ha _].
    eapply active_origin_step; [done|done| |done]. rewrite <- Hj. exact (offers_active _ _ Hs').
  - destruct (activated_active _ _ _ _ _ Ha Hs1) as [Hact' Hnone]. split; [|by rewrite Hnone].
    rewrite Hact'. apply (Hact s); [done|done|]. rewrite <- Hact'. by apply offers_active.
  - destruct (activated_active _ _ _ _ _ Ha Hs1) as [Hact' Hnone]. apply traced_new; [done|done|].
    rewrite Hact'. apply (Hact s); [done|done|]. rewrite <- Hact'. exact (offers_active _ _ Hs').
Qed.

Lemma traced_run st :
  stored (vw (is_world st0)) ks0 → rtc (rotating self false) st0 st →
  ∃ ks, stored (vw (is_world st)) ks ∧ traced ks st.
Proof.
  intros Hinit Hrun0.
  refine (rtc_ind_r (λ st, ∃ ks, stored (vw (is_world st)) ks ∧ traced ks st) st0 _ _ st Hrun0); clear st Hrun0.
  { exists ks0. split; [done|]. split; [by left|]. intros s Hs. left. by exists s. }
  intros [t rt w] st' Hrun Hst (ks & Hs & Htr).
  destruct (rotating_step _ _ _ _ _ _ _ Hst Hs) as (Ht & a & Ha & ks' & Hs' & Hks & _).
  destruct a; [by specialize (Ha eq_refl)|]. exists ks'. split; [done|].
  destruct Hks as [->|Hm].
  - eapply traced_same; [done|done|done|done| |done]. unfold same_staged, same_key. by destruct (ks_staged ks).
  - eapply traced_step; [by eapply rtc_r|done|done|done|done|done].
Qed.

(** no scheduled rotation signs with a key its verifiers have not had time to
    fetch.  In any run of maintenance passes without the recovery flag, the active
    key of the stored set is the initial one, or one staged initially whose
    activation time has come, or one that has been in the published key set at
    every moment since a state [prepublish_seconds] or more ago. *)
Theorem activation_prepublished st ks :
  stored (vw (is_world st0)) ks0 → rtc (rotating self false) st0 st → stored (vw (is_world st)) ks →
  active_origin (k_public_jwk (ks_active ks)) st.
Proof.
  intros Hinit Hrun Hs. destruct (traced_run st Hinit Hrun) as (ks' & Hs' & Ha & _).
  by rewrite (stored_inj _ _ _ Hs Hs').
Qed.
End Prepublication.

(** ** Maintenance succeeds on valid key sets *)

Definition kids (ks : StoredKeySet) : list str :=
  k_kid (ks_active ks)
  :: match ks_staged ks with Some s => [k_kid (st_key s)] | None => [] end ++ (rt_kid <$> ks_retired ks).

(** What [validate_keyset] checks. *)
Record valid_keyset (ring : KeyRing) (ks : StoredKeySet) : Prop := {
  valid_version : ks_version ks = KEYSET_VERSION;
  valid_active : validate_signing_key (ks_active ks) ring = Ok tt;
  valid_staged s : ks_staged ks = Some s → validate_signing_key (st_key s) ring = Ok tt;
  valid_retired : Forall (λ r, validate_public_jwk (rt_kid r) (rt_public_jwk r) = Ok tt) (ks_retired ks);
  valid_kids : NoDup (kids ks)
}.

Lemma validate_retired_iff seen l :
  validate_retired seen l = Ok tt ↔
  Forall (λ r, validate_public_jwk (rt_kid r) (rt_public_jwk r) = Ok tt) l ∧
  NoDup (rt_kid <$> l) ∧ ∀ k, k ∈ rt_kid <$> l → k ∉ seen.
Proof.
  revert seen. induction l as [|r l IH]; intros seen.
  { simpl. split; [|done]. intros _. split_and!; [done|constructor|set_solver]. }
  cbn [validate_retired]. rewrite Forall_cons, fmap_cons, NoDup_cons.
  destruct (validate_public_jwk _ _) as [[]|e] eqn:Hv; [|naive_solver].
  case_bool_decide as Hin; [split; [done|set_solver]|]. rewrite IH. set_solver.
Qed.

Lemma validate_keyset_iff ring ks : validate_keyset ks ring = Ok tt ↔ valid_keyset ring ks.
Proof.
  unfold validate_keyset. split.
  - destruct (N.eqb_spec (ks_version ks) KEYSET_VERSION) as [Hver|]; [|done]. cbn [negb].
    destruct (validate_signing_key (ks_active ks) ring) as [[]|] eqn:Ha; [|done].
    destruct (ks_staged ks) as [s|] eqn:Hs.
    + destruct (validate_signing_key (st_key s) ring) as [[]|] eqn:Hst; [|done].
      case_bool_decide as Hk; [done|]. intros (Hr & Hn & Hf)%validate_retired_iff.
      split; [done|done|naive_solver|done|]. unfold kids. rewrite Hs. simpl. rewrite !NoDup_cons. set_solver.
    + intros (Hr & Hn & Hf)%validate_retired_iff. split; [done|done|naive_solver|done|].
      unfold kids. rewrite Hs. simpl. rewrite NoDup_cons. set_solver.
  - intros [-> -> Hst Hr Hn]. rewrite N.eqb_refl. cbn [negb]. unfold kids in Hn.
    destruct (ks_staged ks) as [s|]; simpl in Hn; rewrite ?NoDup_cons in Hn.
    + rewrite (Hst s eq_refl). destruct Hn as (Ha & Hb & Hn).
      rewrite bool_decide_eq_false_2 by set_solver. apply validate_retired_iff. set_solver.
    + destruct Hn as (Ha & Hn). apply validate_retired_iff. set_solver.
Qed.

Lemma filter_kids P l : (rt_kid <$> List.filter P l) `sublist_of` (rt_kid <$> l).
Proof.
  induction l as [|r l IH]; [done|]. simpl. case_match; rewrite ?fmap_cons; [by apply sublist_skip|by apply sublist_cons].
Qed.

(** What the parts of the key sets contribute to the kids. *)
Lemma tidied_kids c ks ks1 : tidied c ks ks1 → kids ks1 `sublist_of` kids ks.
Proof.
  intros [_ (Ha & _) Hs Hr]. unfold kids. rewrite Ha, Hr. apply sublist_skip, sublist_app.
  - destruct (ks_staged ks), (ks_staged ks1); try done. destruct Hs as [(-> & _) _]. done.
  - apply filter_kids.
Qed.

Lemma activated_kids ks rot c ks' :
  activate_staged ks rot c = Ok ks' → NoDup (kids ks) → NoDup (kids ks') ∧ ∀ k, k ∈ kids ks' → k ∈ kids ks.
Proof.
  unfold activate_staged. destruct (ks_staged ks) as [s|] eqn:Hs; [|done]. intros [= <-].
  unfold kids. cbn [ks_active ks_staged ks_retired]. rewrite Hs. cbn [app]. rewrite fmap_app. cbn [fmap list_fmap rt_kid].
  set (l := List.filter _ _). intros Hn.
  assert (Hl : ∀ k, k ∈ rt_kid <$> l → k ∈ rt_kid <$> ks_retired ks ∧ k ≠ k_kid (ks_active ks)).
  { intros k (r & -> & Hr)%list_elem_of_fmap. unfold l in Hr. rewrite list_elem_of_In in Hr.
    apply filter_In in Hr as [Hr Hk]. split; [apply list_elem_of_fmap; exists r; by rewrite list_elem_of_In|].
    by case_bool_decide. }
  assert (Hnl : NoDup (rt_kid <$> l)).
  { rewrite !NoDup_cons in Hn. destruct Hn as (_ & _ & Hn). eapply sublist_NoDup; [exact Hn|].
    apply filter_kids. }
  rewrite !NoDup_cons in Hn. destruct Hn as (Ha & Hb & Hn). split.
  - rewrite NoDup_cons, NoDup_app. split_and!; [|done| |apply NoDup_singleton]; set_solver.
  - set_solver.
Qed.

(** Sealing and opening *)
Lemma random_bytes_run {E} n o w :
  ∃ raw w', (random_bytes n : M E (list N)) o w = (Ok raw, w') ∧ length raw = n ∧ Forall is_byte raw ∧
    w_uuid w' = w_uuid w.
Proof.
  eexists _, _. split; [reflexivity|]. rewrite length_fmap, length_seq. split_and!; [done| |done].
  apply Forall_fmap, Forall_forall. intros i _. apply N.mod_lt. done.
Qed.

Section Progress.
(** Sealing, the coordinates and the encoding of fresh keys do not fail. *)
Context (aes_total : ∀ k n m a, Forall is_byte m → is_Some (aes_encrypt k n m a)).
Context (x_total : ∀ seed, is_Some (sec1_x (signing_key_of seed))).
Context (y_total : ∀ seed, is_Some (sec1_y (signing_key_of seed))).
Context (der_total : ∀ seed, is_Some (to_pkcs8_der (signing_key_of seed))).

Lemma keyring_get_active ring : keyring_get ring (ke_id (kr_active ring)) = Some (ke_key (kr_active ring)).
Proof. unfold keyring_get. by rewrite bool_decide_eq_true_2. Qed.

Lemma seal_run ring kid der o w :
  Forall is_byte der →
  ∃ e w', seal_private_key ring kid der o w = (Ok e, w') ∧ w_uuid w' = w_uuid w ∧
    ∀ k, k_kid k = kid → open_private_key ring (set_encrypted e k) = Ok der.
Proof.
  intros Hder. pose proof (keyring_get_active ring) as Hg. unfold seal_private_key.
  destruct (kr_active ring) as [wid key]. cbn [ke_id ke_key] in Hg.
  destruct (random_bytes_run (E := error) 12 o w) as (nonce & w1 & Hr & Hlen & Hb & Hu).
  destruct (aes_total key nonce der (signing_key_aad kid wid) Hder) as [c Hc].
  eexists _, w1. split; [|split; [exact Hu|]].
  { unfold mbind, M_bind. rewrite Hr. unfold some_or, lift. rewrite Hc. reflexivity. }
  intros k <-. destruct (aes_decrypt_encrypt _ _ _ _ _ Hc) as [Hd Hcb].
  unfold open_private_key. cbn [k_encrypted_private_key set_encrypted wrapping_key_id ek_nonce ek_ciphertext k_kid].
  rewrite Hg, (b64url_decode_encode nonce) by done. rewrite Hlen. cbn [Nat.eqb negb].
  rewrite (b64url_decode_encode c) by done. by rewrite Hd.
Qed.

Lemma open_bytes ring k der : open_private_key ring k = Ok der → Forall is_byte der.
Proof.
  unfold open_private_key. repeat case_match; try done. unfold ok_or. destruct (aes_decrypt _ _ _ _) eqn:Hd; [|done].
  intros [= <-]. by eapply aes_decrypt_bytes.
Qed.

Lemma rewrap_run k ring o w :
  validate_signing_key k ring = Ok tt →
  ∃ k' w', rewrap_if_needed k ring o w = (Ok k', w') ∧ w_uuid w' = w_uuid w ∧ same_key k k' ∧
    validate_signing_key k' ring = Ok tt.
Proof.
  intros Hv. unfold rewrap_if_needed. case_bool_decide; [by exists k, w|].
  unfold validate_signing_key in *. destruct (validate_public_jwk _ _) eqn:Hj; [|done].
  destruct (open_private_key ring k) as [der|] eqn:Ho; [|done].
  destruct (seal_run ring (k_kid k) der o w (open_bytes _ _ _ Ho)) as (e & w1 & Hs & Hu & Hopen).
  exists (set_encrypted e k), w1. split_and!; [|done|done|].
  - unfold mbind, M_bind, lift. by rewrite Hs.
  - cbn [set_encrypted k_kid k_public_jwk]. rewrite Hj. change (mkSigningKey _ _ _ e) with (set_encrypted e k).
    by rewrite Hopen.
Qed.

Lemma ec_jwk_get x y kid :
  json_get_str (ec_jwk x y kid) #"kty" = Some #"EC" ∧ json_get_str (ec_jwk x y kid) #"crv" = Some #"P-256" ∧
  json_get_str (ec_jwk x y kid) #"x" = Some x ∧ json_get_str (ec_jwk x y kid) #"y" = Some y ∧
  json_get_str (ec_jwk x y kid) #"alg" = Some #"ES256" ∧ json_get_str (ec_jwk x y kid) #"use" = Some #"sig" ∧
  json_get_str (ec_jwk x y kid) #"kid" = Some kid.
Proof.
  unfold ec_jwk. rewrite !json_get_strings by (apply (bool_decide_eq_true_1 (NoDup _)); vm_compute; reflexivity).
  simpl. split_and!; repeat first [rewrite lookup_insert_eq; done | rewrite lookup_insert_ne by done].
Qed.

Lemma generate_run ring c o w :
  ∃ k w', generate ring c o w = (Ok k, w') ∧ k_kid k = uuid_show (o_uuid o (w_uuid w)) ∧
    validate_signing_key k ring = Ok tt.
Proof.
  unfold generate. destruct (random_bytes_run (E := error) 32 o w) as (seed & w1 & Hr & _ & _ & Hu).
  destruct (x_total seed) as [x Hx], (y_total seed) as [y Hy], (der_total seed) as [der Hder].
  destruct (sec1_coordinate _ _ (or_introl Hx)) as [Hxl Hxb], (sec1_coordinate _ _ (or_intror Hy)) as [Hyl Hyb].
  set (kid := uuid_show (o_uuid o (w_uuid w))).
  set (w2 := World (w_db w1) (w_now w1) (w_rand w1) (S (w_uuid w1)) (w_trip w1)).
  destruct (from_to_pkcs8 _ _ Hder) as [Hfrom Hdb].
  destruct (seal_run ring kid der o w2 Hdb) as (e & w3 & Hs & _ & Hopen).
  set (jwk := ec_jwk (b64url_encode x) (b64url_encode y) kid).
  exists (mkSigningKey kid jwk c e), w3. split_and!; [|done|].
  { unfold mbind, M_bind. rewrite Hr. unfold new_v4. rewrite Hu. fold kid. rewrite <- Hu at 1. fold w2.
    unfold some_or, lift. rewrite Hx, Hy, Hder. cbn [ok_or]. by rewrite Hs. }
  unfold validate_signing_key. cbn [k_kid k_public_jwk].
  pose proof (Hopen (mkSigningKey kid jwk c e) eq_refl) as Hop.
  change (set_encrypted e (mkSigningKey kid jwk c e)) with (mkSigningKey kid jwk c e) in Hop.
  rewrite Hop, Hfrom.
  destruct (ec_jwk_get (b64url_encode x) (b64url_encode y) kid) as (H1 & H2 & H3 & H4 & H5 & H6 & H7).
  unfold validate_public_jwk, matches_private. fold jwk in H1, H2, H3, H4, H5, H6, H7.
  rewrite H1, H2, H3, H4, H5, H6, H7, Hx, Hy, !bool_decide_eq_true_2 by done. cbn [negb orb andb].
  rewrite !b64url_decode_encode by done. rewrite Hxl, Hyl. cbn [Nat.eqb negb orb].
  by rewrite (sec1_on_curve _ _ _ Hx Hy).
Qed.

Lemma tidy_run ks ring c o w :
  valid_keyset ring ks →
  ∃ ks1 w1, tidy_keyset ks ring c o w = (Ok ks1, w1) ∧ w_uuid w1 = w_uuid w ∧ tidied c ks ks1 ∧ valid_keyset ring ks1.
Proof.
  intros Hv. destruct (rewrap_run (ks_active ks) ring o w (valid_active _ _ Hv)) as (k & w1 & Hk & Hu1 & Hsk & Hvk).
  assert (∃ s w2, (match ks_staged ks with
      | None => mret None
      | Some staged => key ← rewrap_if_needed (st_key staged) ring; mret (Some (mkStaged key (st_activate_at staged)))
      end : M error (option StagedSigningKey)) o w1 = (Ok s, w2) ∧ w_uuid w2 = w_uuid w1 ∧
      same_staged (ks_staged ks) s ∧ (∀ s', s = Some s' → validate_signing_key (st_key s') ring = Ok tt))
    as (s & w2 & Hs & Hu2 & Hss & Hvs).
  { destruct (ks_staged ks) as [st|] eqn:Hst; [|by exists None, w1].
    destruct (rewrap_run (st_key st) ring o w1 (valid_staged _ _ Hv st Hst)) as (k' & w2 & Hk' & Hu2 & Hsk' & Hvk').
    eexists (Some _), w2. unfold mbind, M_bind. rewrite Hk'.
    split; [done|]. split; [done|]. split; [done|]. by intros ? [= <-]. }
  exists (mkKeySet (ks_version ks) k s (List.filter (publishable c) (ks_retired ks))), w2.
  assert (Ht : tidied c ks (mkKeySet (ks_version ks) k s (List.filter (publishable c) (ks_retired ks)))) by (by split).
  split_and!; [|congruence|done|].
  - unfold tidy_keyset. unfold mbind at 1, M_bind at 1. rewrite Hk. unfold mbind at 1, M_bind at 1. by rewrite Hs.
  - split; cbn [ks_version ks_active ks_staged ks_retired]; [apply Hv|done|done| |].
    + pose proof (valid_retired _ _ Hv) as Hr. rewrite Forall_forall in *. intros r Hin. apply Hr.
      rewrite list_elem_of_In in *. by apply filter_In in Hin as [? _].
    + eapply sublist_NoDup; [exact (valid_kids _ _ Hv)|by eapply tidied_kids].
Qed.

Lemma activated_valid ring ks rot c ks' : valid_keyset ring ks → activate_staged ks rot c = Ok ks' → valid_keyset ring ks'.
Proof.
  intros Hv Ha. pose proof (activated_kids _ _ _ _ Ha (valid_kids _ _ Hv)) as [Hn _]. revert Ha Hn.
  unfold activate_staged. destruct (ks_staged ks) as [s|] eqn:Hs; [|done]. intros [= <-] Hn.
  split; cbn [ks_version ks_active ks_staged ks_retired]; [apply Hv|by apply Hv|done| |done].
  apply Forall_app. split.
  - pose proof (valid_retired _ _ Hv) as Hr. rewrite Forall_forall in *. intros r Hin. apply Hr.
    rewrite list_elem_of_In in *. by apply filter_In in Hin as [? _].
  - apply Forall_singleton. cbn [rt_kid rt_public_jwk]. pose proof (valid_active _ _ Hv) as Hact.
    unfold validate_signing_key in Hact. by destruct (validate_public_jwk _ _) as [[]|].
Qed.

(** Staging a valid key with a new kid, in place of a staged one if any. *)
Lemma staged_valid ring ks s :
  valid_keyset ring ks → validate_signing_key (st_key s) ring = Ok tt → k_kid (st_key s) ∉ kids ks →
  valid_keyset ring (set_staged (Some s) ks).
Proof.
  intros Hv Hs Hk. split; [apply Hv|apply Hv|by intros ? [= <-]|apply Hv|].
  pose proof (valid_kids _ _ Hv) as Hn. unfold kids in *. cbn [set_staged ks_active ks_staged ks_retired app].
  apply NoDup_cons in Hn as [Ha Hn]. apply NoDup_app in Hn as (_ & Hdis & Hn).
  rewrite !NoDup_cons. rewrite elem_of_cons, elem_of_app in Hk. rewrite elem_of_app in Ha.
  split_and!; [rewrite elem_of_cons; naive_solver|naive_solver|done].
Qed.

Lemma due_run ks ks1 ring rot c o w1 :
  tidied c ks ks1 → valid_keyset ring ks1 → uuid_show (o_uuid o (w_uuid w1)) ∉ kids ks1 →
  ∃ ks2, (if due c ks1 then lift (activate_staged ks1 rot c) else mret ks1) o w1 = (Ok ks2 : result error _, w1) ∧
    valid_keyset ring ks2 ∧ (uuid_show (o_uuid o (w_uuid w1)) ∉ kids ks2) ∧
    ∀ s, ks_staged ks = Some s → st_activate_at s ≤ c → k_public_jwk (ks_active ks2) = k_public_jwk (st_key s).
Proof.
  intros Ht Hv1 Hf1. pose proof (tidied_staged _ _ _ Ht) as Hss. unfold due.
  destruct (ks_staged ks1) as [s1|] eqn:Hs1.
  - destruct (N.leb_spec (st_activate_at s1) c) as [Hle|Hgt].
    + destruct (activate_staged ks1 rot c) as [ks2|] eqn:Ha; [|unfold activate_staged in Ha; by rewrite Hs1 in Ha].
      exists ks2. split_and!; [by unfold lift|by eapply activated_valid| |].
      * intros Hin. apply Hf1. by eapply (activated_kids _ _ _ _ Ha (valid_kids _ _ Hv1)).
      * intros s Hs _. rewrite Hs in Hss. destruct Hss as [(_ & Hj & _) _].
        by rewrite (proj1 (activated_active _ _ _ _ _ Ha Hs1)).
    + exists ks1. split_and!; [done|done|done|]. intros s Hs Hle. rewrite Hs in Hss. destruct Hss as [_ Hat]. lia.
  - exists ks1. split_and!; [done|done|done|]. intros s Hs. by rewrite Hs in Hss.
Qed.

(** C39: maintenance never wedges.  On a valid stored key set (one that opens under
    the configured master keys) every maintenance pass produces a key set, and
    that set passes the validation that guards the write: keys sealed under a
    previous master key are rewrapped, the key material it generates is sealed,
    opens again and matches its public half, and no kid repeats.  A staged key
    whose time has come is the active one afterwards, and the recovery flag
    activates freshly generated material. *)
Theorem maintenance_stays_valid ks ring rot c f a o w :
  validate_keyset ks ring = Ok tt → uuid_show (o_uuid o (w_uuid w)) ∉ kids ks →
  ∃ ks' w', maintain_keyset ks ring rot c f a o w = (Ok ks', w') ∧ validate_keyset ks' ring = Ok tt ∧
    (∀ s, ks_staged ks = Some s → a = false → st_activate_at s ≤ c →
       k_public_jwk (ks_active ks') = k_public_jwk (st_key s)) ∧
    (a = true → k_kid (ks_active ks') = uuid_show (o_uuid o (w_uuid w))).
Proof.
  intros Hv%validate_keyset_iff Hfresh. destruct (tidy_run ks ring c o w Hv) as (ks1 & w1 & Hrun & Hu & Ht & Hv1).
  assert (Hf1 : uuid_show (o_uuid o (w_uuid w1)) ∉ kids ks1).
  { rewrite Hu. intros Hin. apply Hfresh. eapply elem_of_sublist; [exact Hin|by eapply tidied_kids]. }
  destruct (generate_run ring c o w1) as (key & w2 & Hg & Hkid & Hvk). rewrite <- Hu.
  unfold maintain_keyset. unfold mbind at 1, M_bind at 1. rewrite Hrun. destruct a.
  { set (ks2 := set_staged (Some (mkStaged key c)) ks1).
    assert (Hv2 : valid_keyset ring ks2) by (apply staged_valid; [done|done|cbn [st_key]; congruence]).
    destruct (activate_staged ks2 rot c) as [ks'|] eqn:Ha; [|done]. exists ks', w2.
    unfold mbind, M_bind. rewrite Hg. unfold lift. fold ks2. rewrite Ha.
    destruct (activated_active _ _ _ _ (mkStaged key c) Ha eq_refl) as [Hact _].
    split_and!; [done|apply validate_keyset_iff; by eapply activated_valid|done|by rewrite Hact]. }
  destruct (due_run ks ks1 ring rot c o w1 Ht Hv1 Hf1) as (ks2 & H2 & Hv2 & Hf2 & Hact2).
  unfold mbind at 1, M_bind at 1. rewrite H2. destruct (negb (is_some (ks_staged ks2)) && _).
  2: { exists ks2, w1. split_and!; [done|by apply validate_keyset_iff| |done]. intros s Hs _. by apply Hact2. }
  eexists _, w2. unfold mbind, M_bind. rewrite Hg. split_and!; [reflexivity| |intros s Hs _; by apply Hact2|done].
  apply validate_keyset_iff, staged_valid; [done|done|cbn [st_key]; congruence].
Qed.
End Progress.
End SigningKeys.

(** ** Witnesses *)

Module DemoSigning.
Import DemoEnv.

(** *** Decoding base64 *)

Definition b64_value (c : N) : option N :=
  if in_range 65 90 c then Some (c - 65)
  else if in_range 97 122 c then Some (c - 71)
  else if in_range 48 57 c then Some (c + 4)
  else if c =? 45 then Some 62
  else if c =? 95 then Some 63
  else None.

Lemma b64_value_char n : n < 64 → b64_value (b64_char n) = Some n.
Proof. unfold b64_value, b64_char, in_range. intros Hn. repeat case_match; reflect; f_equal; lia. Qed.

Fixpoint demo_b64_decode (s : str) : option (list N) :=
  match s with
  | [] => Some []
  | [a; b] =>
      a ← b64_value a; b ← b64_value b; Some [a * 4 + b / 16]
  | [a; b; c] =>
      a ← b64_value a; b ← b64_value b; c ← b64_value c; Some [a * 4 + b / 16; b mod 16 * 16 + c / 4]
  | a :: b :: c :: d :: s' =>
      a ← b64_value a; b ← b64_value b; c ← b64_value c; d ← b64_value d;
      r ← demo_b64_decode s';
      Some ([a * 4 + b / 16; b mod 16 * 16 + c / 4; c mod 4 * 64 + d] ++ r)
  | _ => None
  end.

Lemma sextets x y z :
  x < 256 → y < 256 → z < 256 →
  x / 4 mod 64 * 4 + (x * 16 + y / 16) mod 64 / 16 = x ∧
  (x * 16 + y / 16) mod 64 mod 16 * 16 + (y * 4 + z / 64) mod 64 / 4 = y ∧
  (y * 4 + z / 64) mod 64 mod 4 * 64 + z mod 64 = z.
Proof.
  intros Hx Hy Hz.
  pose proof (N.div_mod' x 4). pose proof (N.div_mod' y 16). pose proof (N.div_mod' z 64).
  pose proof (N.mod_lt x 4). pose proof (N.mod_lt y 16). pose proof (N.mod_lt z 64).
  rewrite (N.mod_small (x / 4) 64) by lia.
  assert ((x * 16 + y / 16) mod 64 = x mod 4 * 16 + y / 16) as ->.
  { symmetry. apply (N.mod_unique _ _ (x / 4)); lia. }
  assert ((y * 4 + z / 64) mod 64 = y mod 16 * 4 + z / 64) as ->.
  { symmetry. apply (N.mod_unique _ _ (y / 16)); lia. }
  assert ((x mod 4 * 16 + y / 16) / 16 = x mod 4) as -> by (symmetry; apply (N.div_unique _ _ _ (y / 16)); lia).
  assert ((x mod 4 * 16 + y / 16) mod 16 = y / 16) as -> by (symmetry; apply (N.mod_unique _ _ (x mod 4)); lia).
  assert ((y mod 16 * 4 + z / 64) / 4 = y mod 16) as -> by (symmetry; apply (N.div_unique _ _ _ (z / 64)); lia).
  assert ((y mod 16 * 4 + z / 64) mod 4 = z / 64) as -> by (symmetry; apply (N.mod_unique _ _ (y mod 16)); lia).
  lia.
Qed.

Lemma demo_b64_decode_encode b : Forall is_byte b → demo_b64_decode (demo_b64 b) = Some b.
Proof.
  induction b as [|x|x y|x y z b IH] using list_ind3; intros Hb; [done|..];
    repeat (apply Forall_cons in Hb as [? Hb]); unfold is_byte in *.
  - destruct (sextets x 0 0) as (He1 & _); [done..|]. simpl. change (0 / 16) with 0 in He1. rewrite N.add_0_r in He1.
    rewrite !b64_value_char by (apply N.mod_lt; done). simpl. by rewrite He1.
  - destruct (sextets x y 0) as (He1 & He2 & _); [done..|]. simpl. change (0 / 64) with 0 in He2. rewrite N.add_0_r in He2.
    rewrite !b64_value_char by (apply N.mod_lt; done). simpl. by rewrite He1, He2.
  - destruct (sextets x y z) as (He1 & He2 & He3); [done..|]. cbn [demo_b64 app demo_b64_decode].
    rewrite !b64_value_char by (apply N.mod_lt; done). rewrite IH by done. simpl. by rewrite He1, He2, He3.
Qed.

(** *** Toy key material

    A key is its 32 bytes, which are also both coordinates; sealing checks that
    the message is made of bytes and leaves it in the clear. *)

Definition all_bytes (l : list N) : bool := forallb (λ b, b <? 256) l.
Definition to_bytes32 (l : list N) : list N := (λ b, b mod 256) <$> take 32 (l ++ replicate 32 0).
Definition checked (l : list N) : option (list N) := if all_bytes l then Some l else None.

Lemma all_bytes_spec l : all_bytes l = true ↔ Forall is_byte l.
Proof.
  unfold all_bytes. rewrite forallb_forall, Forall_forall. setoid_rewrite <- list_elem_of_In. unfold is_byte.
  by setoid_rewrite N.ltb_lt.
Qed.
Lemma checked_Some l r : checked l = Some r → r = l ∧ Forall is_byte l.
Proof. unfold checked. destruct (all_bytes l) eqn:Hl; [|done]. intros [= <-]. by apply all_bytes_spec in Hl. Qed.
Lemma checked_bytes l : Forall is_byte l → checked l = Some l.
Proof. unfold checked. intros Hl%all_bytes_spec. by rewrite Hl. Qed.
Lemma to_bytes32_spec l : length (to_bytes32 l) = 32%nat ∧ Forall is_byte (to_bytes32 l).
Proof.
  unfold to_bytes32. rewrite length_fmap, length_take, length_app, length_replicate. split; [lia|].
  apply Forall_fmap, Forall_forall. intros b _. apply N.mod_lt. done.
Qed.

Definition demo_get_str (v : list (str * str)) (k : str) : option str := (list_to_map v : gmap str str) !! k.

#[export] Program Instance demo_signing : ExtSigning :=
  {| b64url_decode := demo_b64_decode;
     json_strings l := l; json_get_str := demo_get_str; json_keys l := [(#"keys", enc l)];
     SigningKey := list N; signing_key_of := to_bytes32;
     sec1_x k := Some (to_bytes32 k); sec1_y k := Some (to_bytes32 k);
     to_pkcs8_der := checked; from_pkcs8_der d := Some d; from_sec1_bytes _ := true;
     aes_encrypt _ _ m _ := checked m; aes_decrypt _ _ c _ := checked c |}.
Next Obligation. apply demo_b64_decode_encode. Qed.
Next Obligation. done. Qed.
Next Obligation. intros k d [-> Hd]%checked_Some. done. Qed.
Next Obligation. intros k x [[= <-]|[= <-]]; apply to_bytes32_spec. Qed.
Next Obligation. done. Qed.
Next Obligation. intros k n m a c [-> Hm]%checked_Some. split; [by apply checked_bytes|done]. Qed.
Next Obligation. intros k n m a c [-> Hm]%checked_Some. done. Qed.

(** *** Codecs *)

#[export] Program Instance codec_encrypted : Codec EncryptedPrivateKey :=
  codec_iso (A := str * (str * str)) (λ e, (wrapping_key_id e, (ek_nonce e, ek_ciphertext e)))
    (λ '(a, (b, c)), Some (mkEncrypted a b c)) _.
Next Obligation. by intros []. Qed.

#[export] Program Instance codec_signing_key : Codec StoredSigningKey :=
  codec_iso (A := str * (list (str * list N) * (N * EncryptedPrivateKey)))
    (λ k, (k_kid k, (k_public_jwk k, (k_created_at k, k_encrypted_private_key k))))
    (λ '(a, (b, (c, d))), Some (mkSigningKey a b c d)) _.
Next Obligation. by intros []. Qed.

#[export] Program Instance codec_staged : Codec StagedSigningKey :=
  codec_iso (A := StoredSigningKey * N) (λ s, (st_key s, st_activate_at s)) (λ '(a, b), Some (mkStaged a b)) _.
Next Obligation. by intros []. Qed.

#[export] Program Instance codec_retired : Codec RetiredPublicKey :=
  codec_iso (A := str * (list (str * list N) * N)) (λ r, (rt_kid r, (rt_public_jwk r, rt_publish_until r)))
    (λ '(a, (b, c)), Some (mkRetired a b c)) _.
Next Obligation. by intros []. Qed.

#[export] Program Instance codec_keyset : Codec StoredKeySet :=
  codec_iso (A := N * (StoredSigningKey * (option StagedSigningKey * list RetiredPublicKey)))
    (λ k, (ks_version k, (ks_active k, (ks_staged k, ks_retired k))))
    (λ '(a, (b, (c, d))), Some (mkKeySet a b c d)) _.
Next Obligation. by intros []. Qed.

#[export] Program Instance codec_legacy : Codec LegacyStoredKey :=
  codec_iso (A := str * (list (str * list N) * (str * str)))
    (λ k, (lg_kid k, (lg_public_jwk k, (lg_nonce k, lg_encrypted_private_key k))))
    (λ '(a, (b, (c, d))), Some (mkLegacy a b c d)) _.
Next Obligation. by intros []. Qed.

(** *** A key set in use: created at 1000, rotated by hand at 1005 *)

Definition demo_ring : KeyRing := mkKeyRing (mkKeyEntry #"master-1" (replicate 32 7)) [].
Definition demo_issuer : JwtIssuer := mkIssuer demo_ring (mkRotation 100 10 20 5).

Abbreviation demo_created := (load_or_create_keyset demo_ring 1000 demo_oracle (demo_world [])).
Definition demo_keyset : StoredKeySet :=
  Eval vm_compute in match demo_created.1 with
                     | Ok ks => ks
                     | Err _ => mkKeySet 0 (mkSigningKey [] [] 0 (mkEncrypted [] [] [])) None []
                     end.
Definition demo_key_world : world := Eval vm_compute in demo_created.2.
Definition demo_runtime : RuntimeKeySet :=
  Eval vm_compute in match runtime_keyset demo_keyset demo_ring 1000 with
                     | Ok rt => rt
                     | Err _ => mkRuntime [] [] []
                     end.

Abbreviation demo_pass := (maintain_at demo_issuer demo_runtime 1005 true true demo_oracle demo_key_world).
Definition demo_after : issuer_state :=
  Eval vm_compute in
    mkIS 1005 (match demo_pass.1 with Ok (_, rt) => rt | Err _ => demo_runtime end) demo_pass.2.

Lemma demo_keyset_stored : stored (vw demo_key_world) demo_keyset.
Proof. unfold stored. eval_eq. Qed.

Lemma demo_rotating : rotating demo_issuer true (mkIS 1002 demo_runtime demo_key_world) demo_after.
Proof.
  assert (demo_after = mkIS 1005 (match demo_pass.1 with Ok (_, rt) => rt | Err _ => demo_runtime end) demo_pass.2)
    as -> by eval_eq.
  apply (rotating_maintain _ _ _ _ _ _ true true demo_oracle demo_pass.1 demo_pass.2); [done|done|].
  by destruct demo_pass.
Qed.

Lemma token_outlives_rotation_witness :
  k_kid (ks_active demo_keyset) ≠ rk_active_kid (is_runtime demo_after) ∧
  serves (k_public_jwk (ks_active demo_keyset)) (is_runtime demo_after).
Proof.
  split; [apply (bool_decide_eq_true_1 (_ ≠ _)); eval_eq|].
  refine (proj2 (token_outlives_rotation demo_issuer true demo_keyset demo_runtime 1002 20 demo_key_world demo_after
    demo_keyset_stored _ _ _ _ _)).
  - exists 1000. eval_eq.
  - done.
  - done.
  - apply rtc_once, demo_rotating.
  - done.
Defined.

(** Staged at 1100, activated at 1110. *)
Abbreviation demo_stage := (maintain_at demo_issuer demo_runtime 1100 false false demo_oracle demo_key_world).
Definition demo_staged_world : world := Eval vm_compute in demo_stage.2.
Definition demo_staged_runtime : RuntimeKeySet :=
  Eval vm_compute in match demo_stage.1 with Ok (_, rt) => rt | Err _ => demo_runtime end.
Abbreviation demo_activate := (maintain_at demo_issuer demo_staged_runtime 1110 false false demo_oracle demo_staged_world).
Definition demo_active_world : world := Eval vm_compute in demo_activate.2.
Definition demo_active_runtime : RuntimeKeySet :=
  Eval vm_compute in match demo_activate.1 with Ok (_, rt) => rt | Err _ => demo_runtime end.
Definition demo_rotated_keyset : StoredKeySet :=
  Eval vm_compute in match (read_keyset demo_oracle demo_active_world).1 with Ok ks => ks | Err _ => demo_keyset end.

Lemma demo_run :
  rtc (rotating demo_issuer false) (mkIS 1002 demo_runtime demo_key_world) (mkIS 1110 demo_active_runtime demo_active_world).
Proof.
  apply (rtc_l _ _ (mkIS 1100 demo_staged_runtime demo_staged_world)); [|apply rtc_once].
  - assert (demo_staged_runtime = match demo_stage.1 with Ok (_, rt) => rt | Err _ => demo_runtime end) as -> by eval_eq.
    assert (demo_staged_world = demo_stage.2) as -> by eval_eq.
    apply (rotating_maintain _ _ _ _ _ _ false false demo_oracle demo_stage.1 demo_stage.2); [done|done|].
    by destruct demo_stage.
  - assert (demo_active_runtime = match demo_activate.1 with Ok (_, rt) => rt | Err _ => demo_staged_runtime end) as ->
      by eval_eq.
    assert (demo_active_world = demo_activate.2) as -> by eval_eq.
    apply (rotating_maintain _ _ _ _ _ _ false false demo_oracle demo_activate.1 demo_activate.2); [done|done|].
    by destruct demo_activate.
Qed.

Lemma activation_prepublished_witness :
  k_public_jwk (ks_active demo_rotated_keyset) ≠ k_public_jwk (ks_active demo_keyset) ∧
  active_origin demo_issuer (mkIS 1002 demo_runtime demo_key_world) demo_keyset
    (k_public_jwk (ks_active demo_rotated_keyset)) (mkIS 1110 demo_active_runtime demo_active_world).
Proof.
  split; [apply (bool_decide_eq_true_1 (_ ≠ _)); eval_eq|].
  apply (activation_prepublished demo_issuer (mkIS 1002 demo_runtime demo_key_world) demo_keyset).
  - exact demo_keyset_stored.
  - exact demo_run.
  - unfold stored. cbn [is_world]. eval_eq.
Defined.

Lemma maintenance_stays_valid_witness :
  ∃ ks' w', maintain_keyset demo_keyset demo_ring (ji_rotation demo_issuer) 1100 false false demo_oracle demo_key_world
              = (Ok ks', w') ∧ validate_keyset ks' demo_ring = Ok tt.
Proof.
  destruct (maintenance_stays_valid) with (ks := demo_keyset) (ring := demo_ring) (rot := ji_rotation demo_issuer)
    (c := 1100) (f := false) (a := false) (o := demo_oracle) (w := demo_key_world) as (ks' & w' & Hr & Hv & _).
  - intros k n m a Hm. exists m. by apply checked_bytes.
  - intros seed. eexists. reflexivity.
  - intros seed. eexists. reflexivity.
  - intros seed. eexists. apply checked_bytes, to_bytes32_spec.
  - eval_eq.
  - apply (bool_decide_eq_true_1 (_ ∉ _)). eval_eq.
  - by exists ks', w'.
Defined.
End DemoSigning.
