(* ===== verification/Guards.v ===== *)
(** * Request guards (src/src/auth/{guard,error}.rs, the cookie and bearer readers of src/src/auth/session.rs)

    What a handler of the authentication API checks before it acts: the request's
    origin, the enrolment token, the rate limit of the caller's address and of the
    attempted value, the session cookie, and a recent passkey confirmation. *)

From S2P Require Import Prelude Sable Logic Demo Records Events Identifiers Users Invitations Accounts Sessions RateLimit.

(** ** Header lines

    The values of one header name in order; [None] is a value that is not visible
    ASCII text ([HeaderValue::to_str] fails). *)

Record HeaderMap := mkHeaders {
  h_origin : list (option str);
  h_cookie : list (option str);
  h_authorization : list (option str);
  h_bootstrap_token : list (option str);
  h_forwarded_for : list (option str)
}.

(** [headers.get(name).and_then(|value| value.to_str().ok())] *)
Definition header_str (values : list (option str)) : option str :=
  match values with
  | [] => None
  | value :: _ => value
  end.

Definition PRODUCTION_SESSION_COOKIE : str := #"__Host-Http-rustyauth_session".
Definition DEVELOPMENT_SESSION_COOKIE : str := #"passkey_auth_session".

Definition session_cookie_name (secure : bool) : str :=
  if secure then PRODUCTION_SESSION_COOKIE else DEVELOPMENT_SESSION_COOKIE.

Fixpoint find_map {A B : Type} (f : A → option B) (l : list A) : option B :=
  match l with
  | [] => None
  | a :: l => match f a with Some b => Some b | None => find_map f l end
  end.

Definition session_cookie (headers : HeaderMap) (secure : bool) : option str :=
  let name := session_cookie_name secure in
  value ← header_str (h_cookie headers);
  find_map (strip_prefix (name ++ #"=")) (trim <$> split 59 value).

Definition eq_ignore_ascii_case (a b : str) : bool :=
  bool_decide ((to_ascii_lowercase <$> a) = (to_ascii_lowercase <$> b)).

Definition device_session_bearer (headers : HeaderMap) : option str :=
  match h_authorization headers with
  | [Some value] =>
      '(scheme, token) ← split_once 32 value;
      if eq_ignore_ascii_case scheme #"bearer" && starts_with #"rdt_" token
         && (36 <=? len token) && (len token <=? 256) && negb (existsb is_whitespace token)
      then Some token else None
  | _ => None
  end.

Definition set_cookie_with_lifetime (secure : bool) (token : str) (lifetime_seconds : N) : str :=
  session_cookie_name secure ++ #"=" ++ token ++ #"; Path=/; HttpOnly; SameSite=Strict; Max-Age="
  ++ show_u64 lifetime_seconds ++ (if secure then #"; Secure" else []).

(** ** Errors *)

Inductive StatusCode :=
  | BAD_REQUEST | UNAUTHORIZED | CONFLICT | TOO_MANY_REQUESTS | SERVICE_UNAVAILABLE | INTERNAL_SERVER_ERROR.

Record ApiError := mkApiError {
  status : StatusCode;
  message : String.string;
  api_retry_after_seconds : option N
}.

#[local] Open Scope string_scope.
Definition unauthorized (message : String.string) : ApiError := mkApiError UNAUTHORIZED message None.
Definition bad_request (message : String.string) : ApiError := mkApiError BAD_REQUEST message None.
Definition conflict (message : String.string) : ApiError := mkApiError CONFLICT message None.
Definition unavailable (message : String.string) : ApiError := mkApiError SERVICE_UNAVAILABLE message None.
Definition too_many_requests (retry_after_seconds : N) : ApiError :=
  mkApiError TOO_MANY_REQUESTS "too many requests; retry later" (Some retry_after_seconds).
Definition api_internal (e : error) : ApiError :=
  mkApiError INTERNAL_SERVER_ERROR "authentication service failed closed" None.
#[local] Close Scope string_scope.
#[global] Arguments unauthorized message%_string_scope.
#[global] Arguments bad_request message%_string_scope.
#[global] Arguments conflict message%_string_scope.
#[global] Arguments unavailable message%_string_scope.

(** ** Policy the guards read *)

Record AppState := mkAppState {
  trusted_proxy_hops : nat;
  rp_origin : str;
  bootstrap_token : str;
  session_idle_seconds : N;
  session_absolute_seconds : N;
  secure_cookie : bool
}.

Definition CEREMONY_SECONDS : N := 300.

(** ** Displaying addresses ([Display] of [IpAddr]) *)

Definition hex_char (n : N) : N := if n <? 10 then 48 + n else 87 + n.

Fixpoint show_hex_fuel (fuel : nat) (n : N) : str :=
  match fuel with
  | O => []
  | S fuel => if n <? 16 then [hex_char n] else show_hex_fuel fuel (n / 16) ++ [hex_char (n mod 16)]
  end.
Definition show_hex (n : N) : str := show_hex_fuel 4 n.

Definition show_v4 (a b c d : N) : str := join #"." (show_u64 <$> [a; b; c; d]).

(** The first longest run of zero groups, as start and length: [i] is the index
    of the next group, [cur] the run being read, [best] the longest before it. *)
Fixpoint longest_zeroes (groups : list N) (i : nat) (cur best : nat * nat) : nat * nat :=
  match groups with
  | [] => best
  | g :: groups =>
      if g =? 0 then
        let cur := if (cur.2 =? 0)%nat then (i, 1%nat) else (cur.1, S cur.2) in
        longest_zeroes groups (S i) cur (if (best.2 <? cur.2)%nat then cur else best)
      else longest_zeroes groups (S i) (O, O) best
  end.

Definition show_v6 (groups : list N) : str :=
  match groups with
  | [0; 0; 0; 0; 0; 65535; ab; cd] => #"::ffff:" ++ show_v4 (ab / 256) (ab mod 256) (cd / 256) (cd mod 256)
  | _ =>
      let '(start, run) := longest_zeroes groups 0 (O, O) (O, O) in
      if (1 <? run)%nat
      then join #":" (show_hex <$> take start groups) ++ #"::" ++ join #":" (show_hex <$> drop (start + run) groups)
      else join #":" (show_hex <$> groups)
  end.

Definition show_ip (a : IpAddr) : str :=
  match a with
  | V4 a b c d => show_v4 a b c d
  | V6 groups => show_v6 groups
  end.

Section Guards.
Context `{Env}.
Context `{!Serde AuthEvent, !Serde User, !Serde Session}.

Definition joined_forwarded_for (headers : HeaderMap) : option str :=
  let joined := join #"," (omap id (h_forwarded_for headers)) in
  if bool_decide (joined = []) then None else Some joined.

(** One check against the limiter, at its readings of the two clocks. *)
Definition charge_request (limiter : RateLimiter) (class : RateLimitClass) (subject : str)
    (at_ : N * option N) : M ApiError (RateLimitDecision * RateLimiter) :=
  map_err api_internal (check limiter class subject at_.1 at_.2).

(** The limiter after the request, and the refusal if there is one. *)
Definition require_rate_limit (state : AppState) (limiter : RateLimiter) (peer : IpAddr) (headers : HeaderMap)
    (class : RateLimitClass) (subject : option str) (first_at second_at : N * option N) :
    M ApiError (RateLimiter * option ApiError) :=
  let address := client_address peer (joined_forwarded_for headers) (trusted_proxy_hops state) in
  '(first, limiter) ← charge_request limiter class (#"addr:" ++ show_ip address) first_at;
  '(decisions, limiter) ← match subject with
    | None => mret ([first], limiter)
    | Some subject =>
        '(second, limiter) ← charge_request limiter class (#"subj:" ++ subject) second_at;
        mret ([first; second], limiter)
    end;
  mret (limiter, (λ refused, too_many_requests (retry_after_seconds refused))
                   <$> List.find (λ decision, negb (allowed decision)) decisions).

Definition require_origin (state : AppState) (headers : HeaderMap) : result ApiError unit :=
  if bool_decide (header_str (h_origin headers) = Some (trim_end_matches 47 (rp_origin state))) then Ok tt
  else Err (unauthorized "request origin is not allowed").

(** Constant-time comparison of digests is equality of digests. *)
Definition bootstrap_token_matches (expected : str) (supplied : option str) : bool :=
  bool_decide (sha256 (bytes expected) = sha256 (bytes (default [] supplied))).

Definition require_bootstrap (state : AppState) (headers : HeaderMap) : result ApiError unit :=
  if bootstrap_token_matches (bootstrap_token state) (header_str (h_bootstrap_token headers)) then Ok tt
  else Err (unauthorized "enrolment is not authorized").

Definition require_passkey_session (session : Session) : result ApiError unit :=
  if bool_decide (s_auth_method session = #"passkey") then Ok tt
  else Err (unauthorized "confirm with a passkey before changing account identity").

Definition require_recent_passkey (session : Session) : M ApiError unit :=
  lift (require_passkey_session session);;
  current ← now;
  step_up_at ← some_or (unauthorized "confirm with a recent passkey before changing account security")
    (s_step_up_at session);
  ensure (negb ((current <? step_up_at) || (CEREMONY_SECONDS <? saturating_sub current step_up_at)))
    (unauthorized "confirm with a recent passkey before changing account security").

(** The messages to the touch writer are those of [session]. *)
Definition authenticated (state : AppState) (headers : HeaderMap) : M ApiError (str * Session * User) :=
  lift (require_origin state headers);;
  raw ← some_or (unauthorized "authentication required") (session_cookie headers (secure_cookie state));
  '(found, _) ← map_err api_internal (session raw (session_idle_seconds state));
  '(s, u) ← some_or (unauthorized "authentication required") found;
  mret (raw, s, u).
End Guards.
