(* ===== verification/OperatorAuth.v ===== *)
(** * Operator authorization (src/src/operator_auth.rs, [device_token] of src/src/auth/session.rs)

    Access to the control plane: a browser request authenticates with the passkey
    session cookie and the console's origin, a native one with a device bearer
    token and no origin; the account must hold an operator grant whose role covers
    the capability, and administration needs a recent passkey confirmation. *)

From S2P Require Import Prelude Sable Logic Demo Records Events Identifiers Users Invitations Accounts Sessions Organization RateLimit Guards.

Definition STEP_UP_SECONDS : N := 300.
Definition DEVICE_SESSION_SECONDS : N := 15 * 60.

Inductive OperatorCapability := CapRead | CapSupport | CapAdminister.
#[global] Instance OperatorCapability_eq_dec : EqDecision OperatorCapability.
Proof. solve_decision. Defined.

Inductive ErrorCode :=
  | Unauthenticated | PermissionDenied | InvalidArgument | NotFound | AlreadyExists | FailedPrecondition | ResourceExhausted | DeadlineExceeded
  | Unavailable | DataLoss | Internal.
Record ConnectError := mkConnectError { code : ErrorCode; connect_message : String.string }.
#[global] Arguments mkConnectError code connect_message%_string_scope.

Definition unauthenticated (message : String.string) : ConnectError := mkConnectError Unauthenticated message.
Definition permission_denied (message : String.string) : ConnectError := mkConnectError PermissionDenied message.
#[global] Arguments unauthenticated message%_string_scope.
#[global] Arguments permission_denied message%_string_scope.
(** The reason is logged, not returned. *)
Definition operator_denied : ConnectError := permission_denied "operator access denied".
Definition internal (e : error) : ConnectError := mkConnectError Internal "operator authorization failed".

Definition operator_role_rank (role : OperatorRoleRecord) : N :=
  match role with
  | Owner => 0
  | Administrator => 1
  | Support => 2
  | Auditor => 3
  end.

Definition allows (role : OperatorRoleRecord) (capability : OperatorCapability) : bool :=
  match capability with
  | CapRead => true
  | CapSupport => match role with Owner | Administrator | Support => true | Auditor => false end
  | CapAdminister => match role with Owner | Administrator => true | Support | Auditor => false end
  end.

Section OperatorAuth.
Context `{Env}.

Record OperatorActor := mkActor {
  actor_user : User;
  actor_operator : OperatorRecord;
  actor_session : Session
}.

Record OperatorAuthorizer := mkAuthorizer {
  oa_store : Store;
  oa_origin : str;
  oa_session_idle_seconds : N;
  oa_secure_cookie : bool;
  oa_bootstrap_emails : list str
}.

Definition new_authorizer (store : Store) (origin : str) (session_idle_seconds : N) (secure_cookie : bool)
    (bootstrap_emails : list str) : OperatorAuthorizer :=
  mkAuthorizer store (trim_end_matches 47 origin) session_idle_seconds secure_cookie bootstrap_emails.

Definition bootstrap_allowed (u : User) (bootstrap_emails : list str) : bool :=
  existsb (λ identifier, bool_decide (ai_kind identifier = Email) && ai_verified identifier
             && bool_decide (ai_value identifier ∈ bootstrap_emails)) (u_identifiers u).

Definition require_step_up_for (capability : OperatorCapability) (session : Session) : M ConnectError unit :=
  if negb (bool_decide (capability = CapAdminister)) then mret tt else
  current ← now;
  ensure (match s_step_up_at session with
          | Some step_up_at => (step_up_at <=? current) && (saturating_sub current step_up_at <=? STEP_UP_SECONDS)
          | None => false
          end)
    (unauthenticated "recent passkey step-up required").

Context `{!Serde AuthEvent, !Serde User, !Serde Session, !Serde OperatorRecord}.

(** The credential the request presents and the method it must belong to. *)
Definition presented (self : OperatorAuthorizer) (headers : HeaderMap) : result ConnectError (str * str) :=
  let origin := header_str (h_origin headers) in
  match device_session_bearer headers with
  | Some raw =>
      if is_some origin then Err (permission_denied "device sessions are not accepted by browsers")
      else Ok (raw, #"device")
  | None =>
      if negb (bool_decide (origin = Some (oa_origin self)))
      then Err (permission_denied "request origin is not allowed")
      else match session_cookie headers (oa_secure_cookie self) with
           | Some raw => Ok (raw, #"passkey")
           | None => Err (unauthenticated "passkey operator session required")
           end
  end.

Definition authenticate (self : OperatorAuthorizer) (headers : HeaderMap) : M ConnectError OperatorActor :=
  '(raw, expected_method) ← lift (presented self headers);
  '(found, _) ← map_err internal (session raw (oa_session_idle_seconds self));
  '(s, u) ← some_or (unauthenticated "passkey operator session required") found;
  ensure (bool_decide (s_auth_method s = expected_method)) (unauthenticated "passkey operator session required");;
  operator ← map_err internal (ensure_operator (oa_store self) u (bootstrap_allowed u (oa_bootstrap_emails self)));
  operator ← some_or operator_denied operator;
  mret (mkActor u operator s).

Definition authorize (self : OperatorAuthorizer) (headers : HeaderMap) (capability : OperatorCapability) :
    M ConnectError OperatorActor :=
  actor ← authenticate self headers;
  ensure (allows (op_role (actor_operator actor)) capability) operator_denied;;
  require_step_up_for capability (actor_session actor);;
  mret actor.

Definition require_target_dominance (self : OperatorAuthorizer) (actor : OperatorActor) (target_user_id : Uuid) :
    M ConnectError unit :=
  if bool_decide (u_id (actor_user actor) = target_user_id) then mret tt else
  target ← map_err internal (operator target_user_id);
  ensure (match target with
          | Some target =>
              negb (operator_role_rank (op_role target) <? operator_role_rank (op_role (actor_operator actor)))
          | None => true
          end)
    (permission_denied "operator role does not dominate the target account").

(** [device_token]: the token and the session it opens (the telemetry message and
    the response headers are not modelled). *)
Definition device_token (state : AppState) (store : Store) (headers : HeaderMap) : M ApiError (str * Session) :=
  '(_, s, u) ← authenticated state headers;
  require_recent_passkey s;;
  credential_id ← some_or (unauthorized "a credential-bound passkey session is required")
    (s_current_credential_id s);
  let lifetime := N.min DEVICE_SESSION_SECONDS (session_idle_seconds state) in
  map_err api_internal (create_session store u (DeviceOrigin credential_id) lifetime).

(** ** What the steps establish *)

(** The credential comes over the channel its method is meant for. *)
Definition channel (self : OperatorAuthorizer) (headers : HeaderMap) (raw method : str) : Prop :=
  (method = #"passkey" ∧ header_str (h_origin headers) = Some (oa_origin self) ∧
     session_cookie headers (oa_secure_cookie self) = Some raw ∧ device_session_bearer headers = None) ∨
  (method = #"device" ∧ header_str (h_origin headers) = None ∧ device_session_bearer headers = Some raw ∧
     starts_with #"rdt_" raw = true).

Lemma device_bearer_prefix headers raw :
  device_session_bearer headers = Some raw → starts_with #"rdt_" raw = true.
Proof.
  unfold device_session_bearer. destruct (h_authorization headers) as [|[value|] []]; try done.
  intros ([scheme token] & _ & Ht)%bind_Some. case_match eqn:Hc; [|done]. simplify_eq. reflect. done.
Qed.

Lemma presented_channel self headers raw method :
  presented self headers = Ok (raw, method) → channel self headers raw method.
Proof.
  unfold presented, channel. destruct (device_session_bearer headers) as [r|] eqn:Hd.
  - destruct (header_str (h_origin headers)); [done|]. intros [= <- <-]. right.
    split_and!; [done..|by eapply device_bearer_prefix].
  - case_bool_decide as Ho; [|done]. destruct (session_cookie _ _); [|done]. intros [= <- <-]. by left.
Qed.

(** Whence the grant: a stored one, or the bootstrap of a proven address. *)
Definition entitled (self : OperatorAuthorizer) (m m' : gmap str entry) (u : User) (x : OperatorRecord) : Prop :=
  granted_to m (u_id u) x ∨
  (m !! operator_key (u_id u) = None ∧ op_role x = Owner ∧ granted_to m' (u_id u) x ∧
   ∃ i, i ∈ u_identifiers u ∧ ai_kind i = Email ∧ ai_verified i = true ∧ ai_value i ∈ oa_bootstrap_emails self).

Lemma bootstrap_allowed_spec u emails :
  bootstrap_allowed u emails = true ↔
  ∃ i, i ∈ u_identifiers u ∧ ai_kind i = Email ∧ ai_verified i = true ∧ ai_value i ∈ emails.
Proof.
  unfold bootstrap_allowed. rewrite existsb_exists. setoid_rewrite <- list_elem_of_In.
  setoid_rewrite andb_true_iff. setoid_rewrite andb_true_iff. setoid_rewrite bool_decide_eq_true. naive_solver.
Qed.

(** Grants have no time to live. *)
Definition grants_persist (m : gmap str entry) : Prop :=
  ∀ id e, m !! operator_key id = Some e → e_deadline e = None.

Definition authenticated_as (self : OperatorAuthorizer) (headers : HeaderMap) (m m' : gmap str entry)
    (a : OperatorActor) : Prop :=
  (∃ raw ts now r act, channel self headers raw (s_auth_method (actor_session a)) ∧
     granted m raw (oa_session_idle_seconds self) ts now r act (actor_session a) (actor_user a)) ∧
  entitled self m m' (actor_user a) (actor_operator a).

Lemma wp_authenticate self headers o w :
  accounts_ok (vw w) → grants_persist (vw w) →
  wp (authenticate self headers) o w (λ r w', ∀ a, r = Ok a → authenticated_as self headers (vw w) (vw w') a).
Proof.
  intros Hacc Hg. unfold authenticate. apply wp_bind, wp_lift.
  destruct (presented self headers) as [[raw method]|] eqn:Hp; [|done]. apply presented_channel in Hp.
  apply wp_bind, wp_map_err, wp_session; [done|done|intros w1 _; apply wp_bind, wp_some_or; [done|by intros _ ?]|].
  intros r act s u t ts touches w1 Hv Hgr _. apply wp_bind, wp_some_or; [|done]. intros ? [= <-].
  apply wp_bind, wp_ensure; [|by intros _ ?]. intros Hm. reflect.
  apply wp_bind, wp_map_err. eapply wp_mono; [apply wp_ensure_operator; rewrite Hv; apply Hg|].
  intros [[x|]|e] w2 Hx; [|apply wp_bind, wp_some_or; [done|by intros _ ?]|done].
  apply wp_bind, wp_some_or; [|done]. intros ? [= <-]. apply wp_ret. intros a [= <-].
  cbn [actor_user actor_operator actor_session]. split.
  - exists raw, ts, t, r, act. split; [by subst method|done].
  - rewrite Hv in Hx. destruct (Hx x eq_refl) as [Hgt|(Hb & Hnone & Hgt & Hrole & _)]; [by left|right].
    apply bootstrap_allowed_spec in Hb. done.
Qed.

(** Administration takes a passkey confirmed within the last five minutes. *)
Definition confirmed (o : oracle) (capability : OperatorCapability) (s : Session) : Prop :=
  capability = CapAdminister → ∃ n step_up_at, s_step_up_at s = Some step_up_at ∧
    step_up_at ≤ o_now o n ≤ step_up_at + STEP_UP_SECONDS.

Lemma wp_require_step_up capability s o w (Q : result ConnectError unit → world → Prop) :
  (∀ e w', undisturbed w w' → Q (Err e) w') → (∀ w', undisturbed w w' → confirmed o capability s → Q (Ok tt) w') →
  wp (require_step_up_for capability s) o w Q.
Proof.
  intros He Hok. unfold require_step_up_for. case_bool_decide as Hc; cbn [negb]; [|apply wp_ret, Hok; [done|by intros ?]].
  apply wp_bind, wp_now. apply wp_ensure; [|intros _; by apply He]. destruct (s_step_up_at s) as [t|] eqn:Hs; [|done].
  intros Hb. reflect. apply Hok; [done|]. intros _. exists (w_now w), t. split; [done|]. unfold saturating_sub, clock in *. lia.
Qed.


(** Passing the dominance check means no role above the actor's is affected. *)
Lemma dominance_sound self a target o w w' :
  require_target_dominance self a target o w = (Ok tt, w') → u_id (actor_user a) ≠ target →
  ∀ x t v, grants_persist (vw w) → live t (vw w) (operator_key target) = Some v → from_json v = Some x →
  operator_role_rank (op_role (actor_operator a)) ≤ operator_role_rank (op_role x).
Proof.
  intros Hrun Hne x t v Hg Hl Hx. enough (wp (require_target_dominance self a target) o w (λ r _, r = Ok tt →
    operator_role_rank (op_role (actor_operator a)) ≤ operator_role_rank (op_role x))) as Hw.
  { unfold wp in Hw. rewrite Hrun in Hw. by apply Hw. }
  unfold require_target_dominance. rewrite bool_decide_eq_false_2 by done.
  apply wp_bind, wp_map_err, wp_get_json_view; [done|]. intros t' w1 Hv.
  rewrite (live_no_deadline t' t _ _ (Hg target)), Hl, Hx. apply wp_ensure; [|done].
  intros Hb. reflect. intros _. lia.
Qed.

(** ** The step-up window of device sessions *)

Lemma wp_prepare_device u c lifetime o w (Q : result error (str * Session) → world → Prop) :
  (∀ token s w', s_step_up_at s = Some (clock o w) → s_auth_method s = #"device" → vw w' = vw w → w_now w' = S (w_now w) →
     Q (Ok (token, s)) w') → wp (prepare_session u (DeviceOrigin c) lifetime) o w Q.
Proof.
  intros HQ. apply wp_bind, wp_random_bytes. intros raw w1 _ Hdb Hnow _. apply wp_bind, wp_now, wp_bind, wp_new_v4.
  intros id w2 Hdb2 Hnow2 _. apply wp_ret. apply HQ; cbn [s_step_up_at s_auth_method]; [|done| |].
  - unfold clock. by rewrite Hnow.
  - unfold vw. rewrite Hdb2. cbn [tick w_db]. by rewrite Hdb.
  - rewrite Hnow2. cbn [tick w_now]. by rewrite Hnow.
Qed.

(** A device session's administrative window starts when the session is minted,
    not when the passkey was confirmed: with a confirmation at [t0] and the token
    minted at any [t1] the recency check accepts, administration is allowed until
    [t1 + STEP_UP_SECONDS], which is up to twice [STEP_UP_SECONDS] after [t0]. *)
Theorem device_window_restarts u c lifetime t0 t1 t2 s browser o w :
  s_step_up_at browser = Some t0 → s_auth_method browser = #"passkey" →
  t0 ≤ t1 ≤ t0 + CEREMONY_SECONDS → t1 ≤ t2 ≤ t1 + STEP_UP_SECONDS →
  (∀ n, o_now o n = t1) →
  (require_recent_passkey browser o w).1 = Ok tt ∧
  ((prepare_session u (DeviceOrigin c) lifetime o w).1 = Ok s →
   ∀ o' w', (∀ n, o_now o' n = t2) → (require_step_up_for CapAdminister s.2 o' w').1 = Ok tt).
Proof.
  intros Hb Hm Ht1 Ht2 Ho. split.
  - enough (wp (require_recent_passkey browser) o w (λ r _, r = Ok tt)) as Hw by exact Hw.
    apply wp_bind, wp_lift. unfold require_passkey_session. rewrite bool_decide_eq_true_2 by done.
    apply wp_bind, wp_now, wp_bind, wp_some_or; rewrite Hb; [|done]. intros ? [= <-].
    apply wp_ensure; [done|]. unfold clock, saturating_sub, CEREMONY_SECONDS in *. rewrite Ho. lia.
  - intros Hs o' w' Ho'. assert (Hst : s_step_up_at s.2 = Some t1).
    { enough (wp (prepare_session u (DeviceOrigin c) lifetime) o w (λ r _, ∀ x, r = Ok x → s_step_up_at x.2 = Some t1))
        as Hw by (by apply Hw in Hs).
      apply wp_prepare_device. intros token s' w1 Hst _ _ _ x [= <-]. unfold clock in Hst. by rewrite Ho in Hst. }
    enough (wp (require_step_up_for CapAdminister s.2) o' w' (λ r _, r = Ok tt)) as Hw by exact Hw.
    apply wp_bind, wp_now. rewrite Hst. apply wp_ensure; [done|].
    unfold clock, saturating_sub, STEP_UP_SECONDS in *. rewrite Ho'. lia.
Qed.
End OperatorAuth.

(** ** Witnesses *)

Import DemoEnv.

(** The demo account is promoted to Administrator and administers from the
    console. *)
Abbreviation demo_promoted := (promote_operator demo_store demo_id Administrator demo_oracle demo_signed_in.2).
Definition demo_authorizer : OperatorAuthorizer := new_authorizer demo_store #"https://console.example/" 600 true [].
Definition demo_console_headers : HeaderMap :=
  mkHeaders [Some (lit "https://console.example")]
    [Some (#"theme=dark; __Host-Http-rustyauth_session=" ++ demo_token)] [] [] [].
Abbreviation demo_authorized :=
  (authorize demo_authorizer demo_console_headers CapAdminister demo_oracle demo_promoted.2).

Lemma demo_promoted_accounts : accounts_ok (vw demo_promoted.2).
Proof.
  eapply accounts_ok_agree; [|exact demo_signed_in_accounts].
  exact (promote_operator_accounts demo_store demo_id Administrator demo_oracle demo_signed_in.2).
Qed.

(** Grants without time to live, checked on a concrete state. *)
Definition demo_grant_entry (p : str * entry) : bool :=
  negb (starts_with OPERATOR_PREFIX p.1) || bool_decide (e_deadline p.2 = None).

Lemma demo_grants w : forallb demo_grant_entry (w_db w : alist) = true → grants_persist (vw w).
Proof.
  intros Hw id e He. pose proof (demo_view_forall w demo_grant_entry (operator_key id) e Hw He) as Hall.
  apply orb_true_iff in Hall as [Hs|Hd]; [|by apply bool_decide_eq_true in Hd].
  exfalso. apply negb_true_iff in Hs. cbn [fst] in Hs.
  enough (starts_with OPERATOR_PREFIX (operator_key id) = true) by congruence.
  apply starts_with_spec. by eexists.
Qed.

Lemma demo_promoted_grants : grants_persist (vw demo_promoted.2).
Proof. apply demo_grants. eval_eq. Qed.

