(* ===== verification/Search.v ===== *)
(** * Account search (src/src/store/users/search.rs)

    Operator search by index or by a bounded walk over the account namespace, with
    resumable cursors.  The datastore yields keys in no particular order, so the
    walk keeps the smallest identifiers above the cursor. *)

From stdpp Require Import sorting.
From S2P Require Import Prelude Sable Logic Demo Records Events Identifiers Users Invitations Accounts.

Definition MAX_SEARCH_CANDIDATES : nat := 2000.
Definition USER_PREFIX : str := #"auth:user:".

Record UserSearch := mkSearch {
  q_user_id : option Uuid;
  q_identifier : option IdentifierValue;
  q_passkey_credential_id : option str;
  q_passkey_label : option str;
  q_given_name : option str;
  q_family_name : option str;
  q_display_name : option str
}.

Definition search_is_empty (q : UserSearch) : bool :=
  negb (is_some (q_user_id q)) && negb (is_some (q_identifier q)) && negb (is_some (q_passkey_credential_id q))
  && negb (is_some (q_passkey_label q)) && negb (is_some (q_given_name q)) && negb (is_some (q_family_name q))
  && negb (is_some (q_display_name q)).

Definition is_none_or {A : Type} (f : A → bool) (x : option A) : bool :=
  match x with Some a => f a | None => true end.

(** [id > cursor], where there is a cursor. *)
Definition above (after : option Uuid) (id : Uuid) : bool := is_none_or (λ cursor, uuid_ltb cursor id) after.

(** ** The bounded accumulation *)

(** One identifier arrives: keep it if it is above the cursor, and drop the
    largest one when there are more than [limit]. *)
Definition keep_candidate (after : option Uuid) (limit : nat) (kept : list Uuid) (id : Uuid) : list Uuid :=
  if negb (above after id) then kept else
  let kept := set_insert id kept in
  if (limit <? length kept)%nat then removelast kept else kept.

Definition accumulate_candidates (ids : list Uuid) (after : option Uuid) (limit : nat) : list Uuid :=
  foldl (keep_candidate after limit) [] ids.

Lemma omap_length_le {A B : Type} (f : A → option B) l : (length (omap f l) ≤ length l)%nat.
Proof. induction l as [|x l IH]; [done|]. simpl. destruct (f x); [by apply le_n_S|by apply le_S]. Qed.

Lemma filter_filter_sub {A : Type} (P Q : A → bool) l :
  (∀ x, P x = true → Q x = true) → List.filter P (List.filter Q l) = List.filter P l.
Proof.
  intros HPQ. induction l as [|x l IH]; [done|]. simpl. specialize (HPQ x).
  destruct (Q x); simpl; destruct (P x); by rewrite ?IH; try discriminate (HPQ eq_refl).
Qed.

(** *** Sorted lists of identifiers *)

Lemma uuid_lt_irrefl x : ¬ uuid_lt x x.
Proof. unfold uuid_lt. lia. Qed.

Lemma sorted_nodup l : StronglySorted uuid_lt l → NoDup l.
Proof.
  induction 1 as [|x l Hs IH Hall]; constructor; [|done]. intros Hin. rewrite Forall_forall in Hall.
  by apply (uuid_lt_irrefl x), Hall.
Qed.

#[local] Instance uuid_lt_antisymm : AntiSymm (=) uuid_lt.
Proof. intros x y. unfold uuid_lt. lia. Qed.

Lemma sorted_ext l1 l2 :
  StronglySorted uuid_lt l1 → StronglySorted uuid_lt l2 → (∀ x, x ∈ l1 ↔ x ∈ l2) → l1 = l2.
Proof.
  intros H1 H2 Hel. apply (StronglySorted_unique uuid_lt); [done..|].
  apply NoDup_Permutation; [by apply sorted_nodup..|done].
Qed.

Lemma sorted_app_inv l1 l2 :
  StronglySorted uuid_lt (l1 ++ l2) →
  StronglySorted uuid_lt l1 ∧ StronglySorted uuid_lt l2 ∧ ∀ x y, x ∈ l1 → y ∈ l2 → uuid_lt x y.
Proof.
  induction l1 as [|a l1 IH]; simpl; intros Hs; [split_and!; [constructor|done|set_solver]|].
  apply StronglySorted_inv in Hs as [Hs Hall]. destruct (IH Hs) as (H1 & H2 & H3).
  rewrite Forall_app in Hall. destruct Hall as [Ha1 Ha2]. split_and!; [by constructor|done|].
  intros x y [->|Hx]%elem_of_cons Hy; [rewrite Forall_forall in Ha2; by apply Ha2|by apply H3].
Qed.

(** What is above an element of a sorted list follows it. *)
Lemma sorted_above l1 c l2 :
  StronglySorted uuid_lt (l1 ++ c :: l2) → List.filter (above (Some c)) (l1 ++ c :: l2) = l2.
Proof.
  intros Hs. destruct (sorted_app_inv _ _ Hs) as (_ & H2 & H12).
  apply StronglySorted_inv in H2 as [_ Hall]. rewrite List.filter_app.
  assert (List.filter (above (Some c)) l1 = []) as ->.
  { apply elem_of_nil_inv. intros x Hx. rewrite list_elem_of_In in Hx.
    apply filter_In in Hx as [Hx Hlt]. rewrite <- list_elem_of_In in Hx.
    specialize (H12 x c Hx ltac:(left)). apply uuid_ltb_spec in Hlt. unfold uuid_lt in *. lia. }
  cbn [app List.filter]. assert (above (Some c) c = false) as -> by (simpl; unfold uuid_ltb; apply N.ltb_irrefl).
  clear Hs H12. induction Hall as [|y l2 Hy Hall IH]; [done|]. cbn [List.filter].
  assert (above (Some c) y = true) as -> by (by apply uuid_ltb_spec). by rewrite IH.
Qed.

Lemma filter_sorted P l : StronglySorted uuid_lt l → StronglySorted uuid_lt (List.filter P l).
Proof.
  induction 1 as [|x l Hs IH Hall]; simpl; [constructor|]. case_match; [|done]. constructor; [done|].
  rewrite Forall_forall in *. intros y Hy. apply Hall. rewrite list_elem_of_In in *. by apply filter_In in Hy as [? _].
Qed.

(** *** The accumulation is "sort, then take the first [limit]" *)

(** All the identifiers above the cursor, ascending. *)
Definition sorted_above_cursor (after : option Uuid) (l ids : list Uuid) : list Uuid :=
  foldl (λ l id, if above after id then set_insert id l else l) l ids.

Lemma take_set_insert limit x l : take limit (set_insert x (take limit l)) = take limit (set_insert x l).
Proof.
  revert l. induction limit as [|limit IH]; intros l; [done|]. destruct l as [|y l]; [done|].
  cbn [take set_insert]. destruct (uuid_ltb x y).
  - cbn [take]. f_equal. destruct limit; [done|]. cbn [take]. f_equal. rewrite take_take. f_equal. lia.
  - destruct (uuid_ltb y x); cbn [take]; [by rewrite IH|]. f_equal. rewrite take_take. f_equal. lia.
Qed.

Lemma set_insert_length x l : (length (set_insert x l) ≤ S (length l))%nat.
Proof.
  induction l as [|y l IH]; [done|]. simpl. case_match; [done|]. case_match; simpl; lia.
Qed.

Lemma removelast_take {A : Type} (l : list A) : removelast l = take (length l - 1) l.
Proof.
  induction l as [|x [|y l] IH]; [done..|]. change (removelast (x :: y :: l)) with (x :: removelast (y :: l)).
  rewrite IH. simpl. by rewrite Nat.sub_0_r.
Qed.

Lemma keep_candidate_take after limit l id :
  keep_candidate after limit (take limit l) id =
  take limit (if above after id then set_insert id l else l).
Proof.
  unfold keep_candidate. destruct (above after id); [|done]. cbn [negb].
  rewrite <- take_set_insert. pose proof (set_insert_length id (take limit l)) as Hlen.
  pose proof (length_take_le l limit). rewrite length_take in Hlen.
  destruct (Nat.ltb_spec limit (length (set_insert id (take limit l)))) as [Hlt|Hge].
  - rewrite removelast_take. f_equal. lia.
  - by rewrite (take_ge (set_insert id (take limit l)) limit) by lia.
Qed.

Lemma accumulate_take after limit l ids :
  foldl (keep_candidate after limit) (take limit l) ids = take limit (sorted_above_cursor after l ids).
Proof.
  revert l. induction ids as [|id ids IH]; intros l; [done|]. cbn [foldl sorted_above_cursor].
  by rewrite keep_candidate_take, IH.
Qed.

Lemma sorted_above_cursor_spec after l ids :
  StronglySorted uuid_lt l →
  StronglySorted uuid_lt (sorted_above_cursor after l ids) ∧
  ∀ x, x ∈ sorted_above_cursor after l ids ↔ x ∈ l ∨ (x ∈ ids ∧ above after x = true).
Proof.
  revert l. induction ids as [|id ids IH]; intros l Hl; [set_solver|]. unfold sorted_above_cursor. cbn [foldl].
  destruct (above after id) eqn:Ha.
  - destruct (IH (set_insert id l) (set_insert_sorted _ _ Hl)) as [Hs Hel]. split; [done|].
    intros x. fold (sorted_above_cursor after (set_insert id l) ids). rewrite Hel, set_insert_elem, elem_of_cons.
    clear -Ha. split; [intros [[->|?]|[? ?]]|intros [?|[[->|?] ?]]]; tauto.
  - destruct (IH l Hl) as [Hs Hel]. split; [done|]. intros x. fold (sorted_above_cursor after l ids).
    rewrite Hel, elem_of_cons. clear -Ha. split; [tauto|]. intros [?|[[->|?] ?]]; [tauto|congruence|tauto].
Qed.

(** The accumulated candidates, in terms of any sorted enumeration of the
    identifiers above the cursor. *)
Lemma accumulate_reference ids after limit all :
  StronglySorted uuid_lt all → (∀ x, x ∈ all ↔ x ∈ ids ∧ above after x = true) →
  accumulate_candidates ids after limit = take limit all.
Proof.
  intros Hs Hel. unfold accumulate_candidates. rewrite <- (take_nil limit), accumulate_take. f_equal.
  destruct (sorted_above_cursor_spec after [] ids) as [Hs' Hel']; [constructor|].
  apply sorted_ext; [done..|]. intros x. rewrite Hel', Hel. set_solver.
Qed.

Section Search.
Context `{Env}.
Context `{!Serde AuthEvent, !Serde User}.

Record UserSearchPage := mkPage { page_users : list User; next_after : option Uuid }.

Definition search_matches (q : UserSearch) (u : User) : bool :=
  is_none_or (λ v, bool_decide (u_id u = v)) (q_user_id q)
  && is_none_or (λ v, existsb (λ s, kind_eqb (ai_kind s) (iv_kind v) && bool_decide (ai_value s = iv_value v))
                        (u_identifiers u)) (q_identifier q)
  && is_none_or (λ v, existsb (λ s, bool_decide (sp_id s = v)) (u_passkeys u)) (q_passkey_credential_id q)
  && is_none_or (λ v, existsb (λ s, bool_decide (sp_label s = v)) (u_passkeys u)) (q_passkey_label q)
  && is_none_or (λ v, bool_decide (given_name (u_profile u) = Some v)) (q_given_name q)
  && is_none_or (λ v, bool_decide (family_name (u_profile u) = Some v)) (q_family_name q)
  && is_none_or (λ v, bool_decide (display_name (u_profile u) = Some v)) (q_display_name q).

Definition parse_user_key (key : str) : result error Uuid :=
  s ← ok_or (EBail "user scan returned an invalid key") (strip_prefix USER_PREFIX key);
  ok_or EUuid (uuid_parse s).

Fixpoint parse_user_keys (keys : list str) : result error (list Uuid) :=
  match keys with
  | [] => Ok []
  | key :: keys => id ← parse_user_key key; ids ← parse_user_keys keys; Ok (id :: ids)
  end.

(** One batch of the scan, with the candidates and the number of keys so far. *)
Definition candidate_batch (after : option Uuid) (limit : nat) (st : list Uuid * N) (batch : list str) :
    M error (list Uuid * N) :=
  let '(ids, scanned) := st in
  let scanned := scanned + N.of_nat (length batch) in
  parsed ← lift (parse_user_keys batch);
  let ids := accumulate_candidates (ids ++ parsed) after limit in
  ensure (negb (MAX_SNAPSHOT_KEYS <? scanned))
    (EBail "RustyAuth user namespace exceeds the one-million-key safety limit");;
  mret (ids, scanned).

Definition candidate_ids (after : option Uuid) (limit : nat) : M error (list Uuid) :=
  batches ← scan USER_PREFIX;
  st ← foldM (candidate_batch after limit) batches ([], 0);
  mret st.1.

(** The account, unless it is missing or does not load. *)
Definition load_or_skip (id : Uuid) : M error (option User) :=
  r ← attempt (E := error) (user id);
  mret (match r with Ok (Some u) => Some u | _ => None end).

Fixpoint load_all (ids : list Uuid) : M error (list User) :=
  match ids with
  | [] => mret []
  | id :: ids =>
      u ← load_or_skip id;
      us ← load_all ids;
      mret (match u with Some u => u :: us | None => us end)
  end.

Definition list_users (after : option Uuid) (page_size : nat) : M error UserSearchPage :=
  if (page_size =? 0)%nat || (100 <? page_size)%nat
  then fail (EBail "user list page size must be between 1 and 100") else
  ids ← candidate_ids after (S page_size);
  users ← load_all ids;
  mret (mkPage (take page_size users)
          (if (page_size <? length users)%nat then u_id <$> users !! (page_size - 1)%nat else None)).

Definition search_page_cursor (matched : list User) (page_size : nat) (budget_spent : bool)
    (last_examined : option Uuid) : option Uuid :=
  if (page_size <? length matched)%nat then u_id <$> matched !! (page_size - 1)%nat
  else if budget_spent then last_examined
  else None.

(** The loop over the candidates: the matches, the number of accounts examined
    and the last of them. *)
Fixpoint search_loop (q : UserSearch) (page_size : nat) (ids : list Uuid) (users : list User) (examined : nat)
    (last_examined : option Uuid) : M error (list User * nat * option Uuid) :=
  match ids with
  | [] => mret (users, examined, last_examined)
  | id :: ids =>
      if (examined =? MAX_SEARCH_CANDIDATES)%nat then mret (users, examined, last_examined) else
      found ← load_or_skip id;
      match found with
      | Some u =>
          if search_matches q u then
            let users := users ++ [u] in
            if (page_size <? length users)%nat then mret (users, S examined, Some id)
            else search_loop q page_size ids users (S examined) (Some id)
          else search_loop q page_size ids users (S examined) (Some id)
      | None => search_loop q page_size ids users (S examined) (Some id)
      end
  end.

Definition search_users (q : UserSearch) (after : option Uuid) (page_size : nat) : M error UserSearchPage :=
  if search_is_empty q then fail (EBail "at least one user search criterion is required") else
  if (page_size =? 0)%nat || (100 <? page_size)%nat
  then fail (EBail "user search page size must be between 1 and 100") else
  let direct_lookup := is_some (q_user_id q) || is_some (q_identifier q) || is_some (q_passkey_credential_id q) in
  direct ← match q_user_id q, q_identifier q, q_passkey_credential_id q with
           | Some id, _, _ => user id
           | None, Some i, _ => user_by_identifier i
           | None, None, Some c => user_by_credential_id c
           | None, None, None => mret None
           end;
  if direct_lookup then
    mret (mkPage (match direct with
                  | Some u => if above after (u_id u) && search_matches q u then [u] else []
                  | None => []
                  end) None)
  else
    ids ← candidate_ids after MAX_SEARCH_CANDIDATES;
    '(users, examined, last_examined) ← search_loop q page_size ids [] O None;
    mret (mkPage (take page_size users)
            (search_page_cursor users page_size (examined =? MAX_SEARCH_CANDIDATES)%nat last_examined)).

(** ** The contents a walk sees *)

(** The account stored under an identifier, if it is there and loads. *)
Definition readable (m : gmap str entry) (id : Uuid) : option User :=
  match live 0 m (user_key id) ≫= from_json with
  | Some u => match normalize_and_validate u with Ok u => Some u | Err _ => None end
  | None => None
  end.

(** The account namespace: records without time to live, under keys that are
    canonical identifiers, each for the account it names, and few enough for the
    safety limit.  Records that do not decode or validate are allowed. *)
Record namespace_ok (m : gmap str entry) : Prop := {
  ns_persistent id e : m !! user_key id = Some e → e_deadline e = None;
  ns_named s : is_Some (m !! (USER_PREFIX ++ s)) → ∃ id, s = uuid_show id;
  ns_id id u : readable m id = Some u → u_id u = id;
  ns_small t d : db_view d = m → N.of_nat (length (concat (db_scan t USER_PREFIX d))) ≤ MAX_SNAPSHOT_KEYS
}.

(** The identifiers of the namespace, ascending. *)
Definition enumerates (m : gmap str entry) (all : list Uuid) : Prop :=
  StronglySorted uuid_lt all ∧ ∀ id, id ∈ all ↔ is_Some (m !! user_key id).

Section Walk.
Context (m : gmap str entry) (Hns : namespace_ok m) (all : list Uuid) (Hall : enumerates m all).

Lemma user_live t id : live t m (user_key id) = live 0 m (user_key id).
Proof.
  unfold live, expired. destruct (m !! user_key id) as [e|] eqn:He; [|done]. by rewrite (ns_persistent m Hns id e He).
Qed.

Lemma wp_load_or_skip id o w (Q : result error (option User) → world → Prop) :
  reliable o → vw w = m → (∀ w', vw w' = m → Q (Ok (readable m id)) w') → wp (load_or_skip id) o w Q.
Proof.
  intros Ho Hv HQ. apply wp_bind, wp_attempt. unfold user. apply wp_bind, wp_get_json_view; [done|].
  intros t w' Hv'. rewrite Hv in *. rewrite user_live. unfold readable in HQ.
  destruct (live 0 m (user_key id)) as [v|]; [|by apply wp_ret, wp_ret, HQ]. cbn [mbind option_bind] in HQ.
  destruct (from_json v) as [u|]; [|by apply wp_ret, HQ]. apply wp_bind, wp_lift.
  destruct (normalize_and_validate u); [by apply wp_ret, wp_ret, HQ|by apply wp_ret, HQ].
Qed.

Lemma parse_user_keys_ok keys :
  (∀ k, k ∈ keys → ∃ id, k = user_key id) →
  ∃ ids, parse_user_keys keys = Ok ids ∧ ∀ id, id ∈ ids ↔ user_key id ∈ keys.
Proof.
  induction keys as [|k keys IH]; intros Hk; [exists []; split; [done|set_solver]|].
  destruct (Hk k ltac:(left)) as [id ->]. destruct IH as (ids & Hp & Hel); [set_solver|].
  exists (id :: ids). cbn [parse_user_keys]. unfold parse_user_key, user_key at 1.
  rewrite strip_prefix_app. simpl. rewrite uuid_parse_show. simpl. rewrite Hp. split; [done|].
  intros x. rewrite !elem_of_cons, Hel. split; [intros [->|?]; auto|].
  intros [Heq|?]; [left; by apply (inj user_key)|by right].
Qed.

Lemma accumulate_again after limit ids parsed :
  accumulate_candidates (accumulate_candidates ids after limit ++ parsed) after limit =
  accumulate_candidates (ids ++ parsed) after limit.
Proof.
  unfold accumulate_candidates at 1 3. rewrite !foldl_app. f_equal.
  fold (accumulate_candidates ids after limit). fold (accumulate_candidates (accumulate_candidates ids after limit) after limit).
  destruct (sorted_above_cursor_spec after [] ids) as [Hs Hel]; [constructor|].
  rewrite (accumulate_reference ids after limit (sorted_above_cursor after [] ids)) by set_solver.
  set (l := sorted_above_cursor after [] ids) in *.
  rewrite (accumulate_reference (take limit l) after limit (take limit l)).
  - rewrite take_take. f_equal. lia.
  - rewrite <- (take_drop limit l) in Hs. by apply sorted_app_inv in Hs as [? _].
  - intros x. split; [|by intros []]. intros Hx. split; [done|].
    apply (elem_of_sublist _ l) in Hx; [|apply sublist_take]. by apply Hel in Hx as [Hx%elem_of_nil|[_ ?]].
Qed.

Lemma wp_candidate_batches after limit batches ids scanned o w (Q : result error (list Uuid * N) → world → Prop) :
  (∀ k, k ∈ concat batches → ∃ id, k = user_key id) →
  scanned + N.of_nat (length (concat batches)) ≤ MAX_SNAPSHOT_KEYS →
  (∀ ids' n, (∀ id, id ∈ ids' ↔ id ∈ ids ∨ user_key id ∈ concat batches) →
     Q (Ok (accumulate_candidates ids' after limit, n)) w) →
  wp (foldM (candidate_batch after limit) batches (accumulate_candidates ids after limit, scanned)) o w Q.
Proof.
  revert ids scanned. induction batches as [|b batches IH]; intros ids scanned Hk Hn HQ.
  { apply wp_ret, HQ. set_solver. }
  cbn [foldM concat] in *. rewrite length_app in Hn. setoid_rewrite elem_of_app in HQ.
  destruct (parse_user_keys_ok b) as (parsed & Hp & Hel); [set_solver|].
  apply wp_bind. unfold candidate_batch at 1. apply wp_bind, wp_lift. rewrite Hp.
  apply wp_bind, wp_ensure; [intros _|lia]. apply wp_ret. rewrite accumulate_again.
  apply IH; [set_solver|lia|]. intros ids' n Hel'. apply HQ. intros id. rewrite Hel', elem_of_app, Hel. tauto.
Qed.

Definition candidates (after : option Uuid) : list Uuid := List.filter (above after) all.

Lemma wp_candidate_ids after limit o w (Q : result error (list Uuid) → world → Prop) :
  reliable o → vw w = m → (∀ w', vw w' = m → Q (Ok (take limit (candidates after))) w') →
  wp (candidate_ids after limit) o w Q.
Proof.
  intros Ho Hv HQ. apply wp_bind. unfold wp at 1, scan. rewrite Ho. cbn [fst snd].
  set (batches := db_scan _ USER_PREFIX (w_db w)).
  assert (Hkeys : ∀ k, k ∈ concat batches ↔ ∃ id, k = user_key id ∧ id ∈ all).
  { intros k. unfold batches. rewrite db_scan_spec. change (db_view (w_db w)) with (vw w). rewrite Hv. split.
    - intros [(s & ->)%starts_with_spec [v Hl]]. destruct (live_Some _ _ _ _ Hl) as [dl Hm].
      destruct (ns_named m Hns s) as [id ->]; [by eexists|]. exists id. split; [done|]. apply Hall. by eexists.
    - intros (id & -> & Hin). split; [apply starts_with_spec; by eexists|]. apply Hall in Hin as [e He].
      unfold live, expired. rewrite He, (ns_persistent m Hns id e He). by eexists. }
  apply wp_bind. change [] with (accumulate_candidates [] after limit) at 1.
  apply wp_candidate_batches; [intros k Hk; apply Hkeys in Hk as (id & -> & _); by exists id|..].
  { rewrite N.add_0_l. by apply (ns_small m Hns). }
  intros ids' n Hel. apply wp_ret. cbn [fst].
  rewrite (accumulate_reference ids' after limit (candidates after)); [by apply HQ| |].
  - apply filter_sorted, Hall.
  - intros x. unfold candidates. rewrite list_elem_of_In, filter_In, <- list_elem_of_In, Hel, Hkeys.
    split; [intros [Hx Ha]; split; [right; by exists x|done]|].
    intros [[[]%elem_of_nil|(id & Heq & Hin)] Ha]. apply (inj user_key) in Heq. by subst id.
Qed.

(** ** One page *)

Definition matching (q : UserSearch) (ids : list Uuid) : list User :=
  List.filter (search_matches q) (omap (readable m) ids).

Lemma matching_app q l1 l2 : matching q (l1 ++ l2) = matching q l1 ++ matching q l2.
Proof. unfold matching. by rewrite omap_app, List.filter_app. Qed.

Lemma matching_cons q id ids :
  matching q (id :: ids) = match readable m id with
                           | Some u => if search_matches q u then u :: matching q ids else matching q ids
                           | None => matching q ids
                           end.
Proof. unfold matching. simpl. by destruct (readable m id). Qed.

(** The position of a match among the candidates. *)
Lemma matching_split q ids k u :
  matching q ids !! k = Some u →
  ∃ l1 id l2, ids = l1 ++ id :: l2 ∧ readable m id = Some u ∧ take (S k) (matching q ids) = matching q (l1 ++ [id]).
Proof.
  revert k. induction ids as [|id ids IH]; intros k; [done|]. rewrite matching_cons.
  destruct (readable m id) as [v|] eqn:Hr.
  - destruct (search_matches q v) eqn:Hq.
    + destruct k as [|k].
      * intros [= <-]. exists [], id, ids. split_and!; [done|done|].
        cbn [app]. by rewrite (matching_cons q id []), Hr, Hq.
      * intros (l1 & id' & l2 & -> & Hr' & Ht)%IH. exists (id :: l1), id', l2. split_and!; [done|done|].
        cbn [app]. by rewrite (matching_cons q id (l1 ++ [id'])), Hr, Hq, <- Ht.
    + intros (l1 & id' & l2 & -> & Hr' & Ht)%IH. exists (id :: l1), id', l2. split_and!; [done|done|].
      cbn [app]. by rewrite (matching_cons q id (l1 ++ [id'])), Hr, Hq.
  - intros (l1 & id' & l2 & -> & Hr' & Ht)%IH. exists (id :: l1), id', l2. split_and!; [done|done|].
    cbn [app]. by rewrite (matching_cons q id (l1 ++ [id'])), Hr.
Qed.

Lemma wp_search_loop q n ids users examined last o w
    (Q : result error (list User * nat * option Uuid) → world → Prop) :
  reliable o → vw w = m → (length users ≤ n)%nat → (examined + length ids ≤ MAX_SEARCH_CANDIDATES)%nat →
  (∀ l1 l2 w', ids = l1 ++ l2 → vw w' = m →
     (l2 = [] ∧ (length (users ++ matching q l1) ≤ n)%nat) ∨ length (users ++ matching q l1) = S n →
     Q (Ok (users ++ matching q l1, (examined + length l1)%nat, match list.last l1 with Some id => Some id | None => last end)) w') →
  wp (search_loop q n ids users examined last) o w Q.
Proof.
  intros Ho Hv Hu He HQ. revert users examined last w Hv Hu He HQ.
  induction ids as [|id ids IH]; intros users examined last w Hv Hu He HQ.
  { apply wp_ret. specialize (HQ [] [] w eq_refl Hv). cbn in HQ. rewrite app_nil_r, Nat.add_0_r in HQ. auto. }
  cbn [search_loop length] in *. destruct (Nat.eqb_spec examined MAX_SEARCH_CANDIDATES); [lia|].
  apply wp_bind, wp_load_or_skip; [done|done|]. intros w' Hv'.
  assert (Hgo : ∀ us, (length us ≤ n)%nat →
    (∀ l1, users ++ matching q (id :: l1) = us ++ matching q l1) →
    wp (search_loop q n ids us (S examined) (Some id)) o w' Q).
  { intros us Hus Heq. apply IH; [done|done|lia|]. intros l1 l2 w2 -> Hv2 Hcase.
    specialize (HQ (id :: l1) l2 w2 eq_refl Hv2). rewrite Heq in HQ. specialize (HQ Hcase).
    cbn [length] in HQ. rewrite Nat.add_succ_r in HQ. rewrite last_cons in HQ. by destruct (list.last l1). }
  assert (Hc : ∀ l1, matching q (id :: l1) = _) by (intros; apply matching_cons).
  destruct (readable m id) as [u|] eqn:Hr; [destruct (search_matches q u) eqn:Hq|].
  - destruct (Nat.ltb_spec n (length (users ++ [u]))) as [Hlt|Hge].
    + apply wp_ret. specialize (HQ [id] ids w' eq_refl Hv'). rewrite Hc in HQ. cbn [length] in HQ.
      rewrite Nat.add_1_r in HQ. apply HQ. right. rewrite length_app in *. cbn [length matching omap List.filter] in *. simpl. lia.
    + apply Hgo; [done|]. intros l1. rewrite Hc. by rewrite <- app_assoc.
  - apply Hgo; [done|]. intros l1. by rewrite Hc.
  - apply Hgo; [done|]. intros l1. by rewrite Hc.
Qed.

Definition namespace_search (q : UserSearch) : Prop :=
  search_is_empty q = false ∧ q_user_id q = None ∧ q_identifier q = None ∧ q_passkey_credential_id q = None.

(** A page covers a prefix of the candidates, and its cursor is the last of them
    unless nothing is left. *)
Definition covers (q : UserSearch) (after : option Uuid) (p : UserSearchPage) : Prop :=
  ∃ l1 l2, candidates after = l1 ++ l2 ∧ page_users p = matching q l1 ∧
    ((next_after p = None ∧ l2 = []) ∨ ∃ l0 c, l1 = l0 ++ [c] ∧ next_after p = Some c).

Lemma full_page_covers q after n us l1 l2 rest :
  (1 ≤ n)%nat → candidates after = l1 ++ l2 ++ rest → us = matching q l1 → length us = S n →
  covers q after (mkPage (take n us) (u_id <$> us !! (n - 1)%nat)).
Proof.
  intros Hn HF -> Hlen. destruct (lookup_lt_is_Some_2 (matching q l1) (n - 1)) as [u Hu]; [lia|].
  destruct (matching_split q l1 (n - 1) u Hu) as (d0 & c & d2 & -> & Hr & Ht).
  exists (d0 ++ [c]), (d2 ++ l2 ++ rest). split_and!.
  - rewrite HF. by rewrite <- !app_assoc.
  - cbn [page_users]. rewrite <- Ht. f_equal. lia.
  - right. exists d0, c. split; [done|]. cbn [next_after]. rewrite Hu. simpl. f_equal. by apply (ns_id m Hns).
Qed.

Lemma wp_search_page q after n o w (Q : result error UserSearchPage → world → Prop) :
  reliable o → vw w = m → namespace_search q → (1 ≤ n ≤ 100)%nat →
  (∀ p w', vw w' = m → covers q after p → Q (Ok p) w') → wp (search_users q after n) o w Q.
Proof.
  intros Ho Hv (He & Hq1 & Hq2 & Hq3) Hn HQ. unfold search_users. rewrite He, Hq1, Hq2, Hq3. cbn [is_some orb].
  destruct (Nat.eqb_spec n 0); [lia|]. destruct (Nat.ltb_spec 100 n); [lia|]. cbn [orb].
  apply wp_bind, wp_ret, wp_bind, wp_candidate_ids; [done|done|]. intros w1 Hv1.
  set (F := candidates after) in *.
  apply wp_bind, wp_search_loop; [done|done|simpl; lia|rewrite length_take; lia|].
  intros l1 l2 w2 Hl Hv2 Hcase. apply wp_ret, HQ; [done|]. cbn [app Nat.add] in *.
  assert (HF : F = l1 ++ l2 ++ drop MAX_SEARCH_CANDIDATES F)
    by (rewrite app_assoc, <- Hl; by rewrite take_drop).
  unfold search_page_cursor. destruct Hcase as [[-> Hle]|Hfull].
  - destruct (Nat.ltb_spec n (length (matching q l1))); [lia|]. rewrite (take_ge _ n) by done.
    rewrite app_nil_r in Hl. exists l1, (drop MAX_SEARCH_CANDIDATES F). split_and!; [exact HF|done|].
    cbn [next_after]. destruct (Nat.eqb_spec (length l1) MAX_SEARCH_CANDIDATES) as [Hb|Hb].
    + right. destruct (proj2 (last_is_Some l1)) as [c Hc]; [by intros ->|]. rewrite Hc.
      apply last_Some in Hc as [l0 ->]. by exists l0, c.
    + left. split; [done|]. apply drop_ge. apply (f_equal length) in Hl. rewrite length_take in Hl. lia.
  - destruct (Nat.ltb_spec n (length (matching q l1))); [|lia]. by eapply full_page_covers; [lia|exact HF|..].
Qed.

(** ** Walking the pages *)

(** A client that follows the cursors until there is none. *)
Fixpoint search_all (fuel : nat) (q : UserSearch) (after : option Uuid) (page_size : nat) : M error (list User) :=
  match fuel with
  | O => fail (EBail "out of pages")
  | S fuel =>
      p ← search_users q after page_size;
      match next_after p with
      | None => mret (page_users p)
      | Some cursor => rest ← search_all fuel q (Some cursor) page_size; mret (page_users p ++ rest)
      end
  end.

Lemma candidates_next after l0 c l2 :
  candidates after = (l0 ++ [c]) ++ l2 → candidates (Some c) = l2.
Proof.
  intros HF. rewrite <- app_assoc in HF. cbn [app] in HF.
  assert (Hc : above after c = true).
  { assert (c ∈ candidates after) as Hin by (rewrite HF; set_solver). unfold candidates in Hin.
    rewrite list_elem_of_In, filter_In in Hin. by destruct Hin. }
  assert (Heq : candidates (Some c) = List.filter (above (Some c)) (candidates after)).
  { unfold candidates. symmetry. apply filter_filter_sub. intros x Hx. destruct after as [a|]; [|done].
    cbn [above is_none_or] in *. unfold uuid_ltb in *. lia. }
  rewrite Heq, HF. apply sorted_above. rewrite <- HF. apply filter_sorted, Hall.
Qed.

Lemma wp_search_all q n fuel after o w :
  reliable o → vw w = m → namespace_search q → (1 ≤ n ≤ 100)%nat → (length (candidates after) < fuel)%nat →
  wp (search_all fuel q after n) o w (λ r _, r = Ok (matching q (candidates after))).
Proof.
  intros Ho Hv Hq Hn. revert after w Hv. induction fuel as [|fuel IH]; intros after w Hv Hf; [lia|].
  cbn [search_all]. apply wp_bind, wp_search_page; [done..|].
  intros p w' Hv' (l1 & l2 & HF & Hp & [[-> ->]|(l0 & c & -> & ->)]).
  - apply wp_ret. by rewrite Hp, HF, app_nil_r.
  - pose proof (candidates_next _ _ _ _ HF) as Hnext.
    apply wp_bind. eapply wp_mono; [apply (IH (Some c)); [done|]|].
    + rewrite Hnext. rewrite HF, !length_app in Hf. cbn [length] in Hf. lia.
    + intros r w2 ->. apply wp_ret. by rewrite Hnext, Hp, HF, (matching_app q (l0 ++ [c]) l2).
Qed.
End Walk.

(** C27: paging through a search returns every matching account exactly once.
    Following the cursors from the start, whatever order the datastore yields its
    keys in, whatever the page size, and with any number of unreadable records in
    between, the walk ends and its pages concatenate to the reference result: the
    accounts of the namespace that load and match, in ascending order of their
    identifiers. *)
Theorem search_pages_complete m all q n o w :
  namespace_ok m → enumerates m all → namespace_search q → (1 ≤ n ≤ 100)%nat → reliable o → vw w = m →
  ∀ fuel, (length all < fuel)%nat →
  (search_all fuel q None n o w).1 = Ok (List.filter (search_matches q) (omap (readable m) all)).
Proof.
  intros Hns Hall Hq Hn Ho Hv fuel Hf.
  assert (Hc : candidates all None = all).
  { unfold candidates. clear. induction all as [|x l IH]; [done|]. simpl. by rewrite IH. }
  pose proof (wp_search_all m Hns all Hall q n fuel None o w Ho Hv Hq Hn) as Hw. rewrite Hc in Hw. by apply Hw.
Qed.

(** [list_users] has no such guarantee: it reads one account more than the page
    holds and takes a shorter result for the end of the namespace, so a record it
    skips among them ends the listing, however many accounts follow. *)
Theorem list_users_stops_at_unreadable m all after n o w :
  namespace_ok m → enumerates m all → (1 ≤ n ≤ 100)%nat → reliable o → vw w = m →
  (∃ id, id ∈ take (S n) (candidates all after) ∧ readable m id = None) →
  ∃ users, (list_users after n o w).1 = Ok (mkPage users None).
Proof.
  intros Hns Hall Hn Ho Hv (id & Hin & Hr).
  enough (wp (list_users after n) o w (λ r _, ∃ users, r = Ok (mkPage users None))) as Hw by exact Hw.
  unfold list_users. destruct (Nat.eqb_spec n 0); [lia|]. destruct (Nat.ltb_spec 100 n); [lia|]. cbn [orb].
  apply wp_bind, (wp_candidate_ids m Hns all Hall); [done|done|]. intros w1 Hv1.
  set (ids := take (S n) (candidates all after)) in *.
  assert (Hload : ∀ l w2 (Q : result error (list User) → world → Prop), vw w2 = m →
    (∀ w', Q (Ok (omap (readable m) l)) w') → wp (load_all l) o w2 Q).
  { induction l as [|x l IH]; intros w2 Q Hv2 HQ; [by apply wp_ret|]. cbn [load_all].
    apply wp_bind, (wp_load_or_skip m Hns); [done|done|]. intros w3 Hv3. apply wp_bind, IH; [done|]. intros w4.
    apply wp_ret. simpl in HQ. by destruct (readable m x). }
  apply wp_bind, Hload; [done|]. intros w'. apply wp_ret.
  assert (Hlen : (length (omap (readable m) ids) ≤ n)%nat).
  { apply list_elem_of_split in Hin as (l1 & l2 & Heq).
    assert (length ids ≤ S n)%nat by (unfold ids; rewrite length_take; lia). rewrite Heq in *. rewrite omap_app.
    assert (omap (readable m) (id :: l2) = omap (readable m) l2) as -> by (simpl; by rewrite Hr).
    rewrite !length_app in *. cbn [length] in *.
    pose proof (omap_length_le (readable m) l1). pose proof (omap_length_le (readable m) l2). lia. }
  destruct (Nat.ltb_spec n (length (omap (readable m) ids))); [lia|]. by eexists.
Qed.
End Search.

(** ** Witnesses *)

Import DemoEnv.

(** Two accounts, and between them a record that does not decode. *)
Definition demo_first_id : Uuid := demo_uuid_of 11.
Definition demo_broken_id : Uuid := demo_uuid_of 12.
Definition demo_last_id : Uuid := demo_uuid_of 13.
Definition demo_account (id : Uuid) : User :=
  mkUser id (u_email demo_user) (u_email_verified demo_user) (u_profile demo_user) (u_identifiers demo_user)
    (u_session_version demo_user) (u_recovery_codes demo_user) (u_created_at demo_user) (u_passkeys demo_user).
Definition demo_namespace : alist :=
  Eval vm_compute in
    [(user_key demo_last_id, Entry (to_json (demo_account demo_last_id)) None);
     (user_key demo_broken_id, Entry #"not json" None);
     (user_key demo_first_id, Entry (to_json (demo_account demo_first_id)) None)].
Definition demo_ids : list Uuid := [demo_first_id; demo_broken_id; demo_last_id].
Definition demo_search : UserSearch :=
  mkSearch None None None (sp_label <$> head (u_passkeys demo_user)) None None None.

Lemma demo_namespace_key k e :
  al_view demo_namespace !! k = Some e →
  e_deadline e = None ∧ (k = user_key demo_last_id ∨ k = user_key demo_broken_id ∨ k = user_key demo_first_id).
Proof.
  intros He. apply elem_of_list_to_map_2 in He. unfold demo_namespace in He.
  rewrite !elem_of_cons, elem_of_nil in He.
  destruct He as [[= -> ->]|[[= -> ->]|[[= -> ->]|[]]]]; (split; [reflexivity|]).
  - left. eval_eq.
  - right. left. eval_eq.
  - right. right. eval_eq.
Qed.

Lemma demo_namespace_id id e :
  al_view demo_namespace !! user_key id = Some e → id = demo_last_id ∨ id = demo_broken_id ∨ id = demo_first_id.
Proof. intros [_ Hk]%demo_namespace_key. destruct Hk as [Hk|[Hk|Hk]]; apply (inj user_key) in Hk; auto. Qed.

Lemma demo_namespace_ok : namespace_ok (al_view demo_namespace).
Proof.
  split.
  - intros id e He. by apply demo_namespace_key in He as [? _].
  - intros s [e He]. apply demo_namespace_key in He as [_ [Hk|[Hk|Hk]]];
      apply app_inv_head in Hk; eauto.
  - intros id u Hr. assert (Hex : ∃ e, al_view demo_namespace !! user_key id = Some e).
    { unfold readable, live in Hr. destruct (al_view demo_namespace !! user_key id); [by eexists|done]. }
    destruct Hex as [e He]. revert Hr. destruct (demo_namespace_id _ _ He) as [->|[->| ->]].
    + assert (readable (al_view demo_namespace) demo_last_id = Some (demo_account demo_last_id)) as -> by eval_eq.
      by intros [= <-].
    + assert (readable (al_view demo_namespace) demo_broken_id = None) as -> by eval_eq. done.
    + assert (readable (al_view demo_namespace) demo_first_id = Some (demo_account demo_first_id)) as -> by eval_eq.
      by intros [= <-].
  - intros t d Hd. etrans; [apply N2Z.inj_le; rewrite !nat_N_Z; apply Nat2Z.inj_le, (demo_scan_length t USER_PREFIX d)|].
    change (al_view d) with (db_view d). rewrite Hd. apply N.leb_le. eval_eq.
Qed.

Lemma demo_enumerates : enumerates (al_view demo_namespace) demo_ids.
Proof.
  split.
  - repeat constructor; apply N.ltb_lt; eval_eq.
  - intros id. unfold demo_ids. rewrite !elem_of_cons, elem_of_nil. split.
    + intros [->|[->|[->|[]]]]; apply (bool_decide_eq_true_1 (is_Some _)); eval_eq.
    + intros [e He]. destruct (demo_namespace_id _ _ He) as [->|[->| ->]]; auto.
Qed.

Lemma search_pages_complete_witness :
  (search_all 4 demo_search None 1 demo_oracle (demo_world demo_namespace)).1 =
  Ok [demo_account demo_first_id; demo_account demo_last_id].
Proof.
  rewrite (search_pages_complete (al_view demo_namespace) demo_ids demo_search 1 demo_oracle (demo_world demo_namespace)
    demo_namespace_ok demo_enumerates); [f_equal; eval_eq| |split; apply Nat.leb_le; eval_eq|exact demo_reliable|reflexivity|].
  - unfold namespace_search. split_and!; eval_eq.
  - apply Nat.ltb_lt. eval_eq.
Defined.
