(* ===== verification/Webhooks.v ===== *)
(** * Webhook destinations, deliveries and event retention
      (src/src/store/webhooks.rs, [prune_events_older_than] of src/src/store/events.rs)

    Each destination follows the event log with a cursor of its own; a delivery
    record tracks one event on its way to one destination, and a counter holds the
    number of open deliveries.  Retention drops a prefix of the log that every
    destination and the analytics projector have passed. *)

From S2P Require Import Prelude Sable Logic Demo Records Events Identifiers Users Invitations Accounts Sessions Touches.

Definition WEBHOOK_PREFIX : str := #"auth:webhook:".
Definition DELIVERY_PREFIX : str := #"auth:webhook-delivery:".
Definition DELIVERY_EVENT_PREFIX : str := #"auth:webhook-delivery-event:".
Definition CURSOR_PREFIX : str := #"auth:webhook-cursor:".
Definition DELIVERY_BACKLOG_KEY : str := #"auth:webhook-delivery-backlog".
Definition PROJECTOR_CURSOR_KEY : str := #"analytics:projector-cursor".

Inductive WebhookStatusRecord := WActive | WPaused | WFailing.
Inductive WebhookManagementSourceRecord := Dashboard | Configuration.
Inductive WebhookDeliveryStatusRecord := DPending | DSucceeded | DRetrying | DFailed.
#[global] Instance WebhookDeliveryStatusRecord_eq_dec : EqDecision WebhookDeliveryStatusRecord.
Proof. solve_decision. Defined.

Record EncryptedWebhookSecret := mkWebhookSecret {
  ws_wrapping_key_id : str;
  ws_nonce : str;
  ws_ciphertext : str
}.

Record WebhookRecord := mkWebhook {
  wh_id : str;
  wh_name : str;
  wh_url : str;
  wh_status : WebhookStatusRecord;
  wh_event_types : list str;
  wh_secret : EncryptedWebhookSecret;
  wh_secret_hint : str;
  wh_management_source : WebhookManagementSourceRecord;
  wh_created_at : N;
  wh_updated_at : N;
  wh_last_delivery_at : option N
}.

Record WebhookDeliveryRecord := mkDelivery {
  wd_id : Uuid;
  wd_webhook_id : str;
  wd_event_sequence : N;
  wd_event_id : Uuid;
  wd_event_type : str;
  wd_status : WebhookDeliveryStatusRecord;
  wd_attempt_count : N;
  wd_response_status : option N;
  wd_latency_milliseconds : N;
  wd_created_at : N;
  wd_next_attempt_at : option N;
  wd_completed_at : option N;
  wd_error_class : str
}.

Definition webhook_key (id : str) : str := WEBHOOK_PREFIX ++ id.
Definition delivery_key `{ExtUuid} (id : Uuid) : str := DELIVERY_PREFIX ++ uuid_show id.
Definition cursor_key (id : str) : str := CURSOR_PREFIX ++ id.

(** [{:020}] *)
Definition show_020 (n : N) : str := let s := show_u64 n in replicate (20 - length s) 48 ++ s.
Definition delivery_event_key (webhook_id : str) (event_sequence : N) : str :=
  DELIVERY_EVENT_PREFIX ++ webhook_id ++ #":" ++ show_020 event_sequence.

Definition is_open_delivery (status : WebhookDeliveryStatusRecord) : bool :=
  match status with DPending | DRetrying => true | _ => false end.
Definition is_terminal_delivery (status : WebhookDeliveryStatusRecord) : bool :=
  match status with DSucceeded | DFailed => true | _ => false end.

Definition delivery_transition_event (previous : option WebhookDeliveryRecord) (record : WebhookDeliveryRecord) :
    option str :=
  let changed := match previous with
                 | None => true
                 | Some previous => negb (bool_decide (wd_status previous = wd_status record))
                 end in
  if negb changed then None else
  match wd_status record with
  | DPending => if is_some previous then None else Some #"analytics.webhook.delivery.queued"
  | DSucceeded => Some #"analytics.webhook.delivery.succeeded"
  | DFailed => Some #"analytics.webhook.delivery.failed"
  | DRetrying => None
  end.

Section Webhooks.
Context `{Env}.
Context `{!Serde AuthEvent, !Serde WebhookRecord, !Serde WebhookDeliveryRecord}.

Fixpoint load_webhooks (keys : list str) : M error (list WebhookRecord) :=
  match keys with
  | [] => mret []
  | key :: keys =>
      r ← get_json key;
      rs ← load_webhooks keys;
      mret (match r with Some r => r :: rs | None => rs end)
  end.

Definition webhooks : M error (list WebhookRecord) :=
  batches ← scan WEBHOOK_PREFIX;
  let keys := foldl (λ l k, key_insert k l) [] (concat batches) in
  records ← load_webhooks keys;
  mret (sort_by (λ a b, lex_ltb (wh_id a) (wh_id b)) records).

Definition webhook (id : str) : M error (option WebhookRecord) := get_json (webhook_key id).

Definition put_webhook (self : Store) (record : WebhookRecord) (event_type : str) : M error unit :=
  execute [SET (webhook_key (wh_id record)) (to_json record)];;
  append_event_locked self event_type None;;
  mret tt.

Definition update_webhook_runtime (record : WebhookRecord) : M error unit :=
  execute [SET (webhook_key (wh_id record)) (to_json record)].

Definition remove_webhook (self : Store) (id : str) : M error unit :=
  execute [DEL [webhook_key id]; DEL [cursor_key id]];;
  append_event_locked self #"webhook.deleted" None;;
  mret tt.

Definition webhook_cursor (id : str) : M error N :=
  v ← get_u64 (cursor_key id); mret (default 0 v).

Definition set_webhook_cursor (id : str) (sequence : N) : M error unit :=
  execute [SET (cursor_key id) (show_u64 sequence)].

Definition webhook_delivery (id : Uuid) : M error (option WebhookDeliveryRecord) := get_json (delivery_key id).

Definition webhook_delivery_for_event (webhook_id : str) (event_sequence : N) :
    M error (option WebhookDeliveryRecord) :=
  found ← get (delivery_event_key webhook_id event_sequence);
  match found with
  | None => mret None
  | Some id => id ← some_or EUuid (uuid_parse id); webhook_delivery id
  end.

Definition webhook_deliveries : M error (list WebhookDeliveryRecord) :=
  ids ← record_ids DELIVERY_PREFIX;
  records ← load_records webhook_delivery ids;
  mret (sort_by (λ a b, key_before (wd_created_at a, wd_id a) (wd_created_at b, wd_id b)) records).

Definition webhook_delivery_backlog : M error N :=
  v ← get_u64 DELIVERY_BACKLOG_KEY; mret (default 0 v).

(** The backlog after a delivery moved from [was_open] to [is_open]. *)
Definition next_backlog (was_open is_open : bool) (backlog : N) : result error N :=
  match was_open, is_open with
  | false, true => ok_or (EBail "webhook delivery backlog exhausted") (checked_add backlog 1)
  | true, false => ok_or (EBail "webhook delivery backlog is inconsistent") (checked_sub backlog 1)
  | _, _ => Ok backlog
  end.

Definition delivery_event (self : Store) (transition : option str) (latency backlog : N) :
    M error (list AuthEvent) :=
  match transition with
  | None => mret []
  | Some event_type =>
      events ← pending_events self [(event_type, None)];
      event ← pop_event events;
      mret [with_data (json_numbers [(#"latencyMilliseconds", latency); (#"backlog", backlog)]) event]
  end.

Definition put_webhook_delivery (self : Store) (record : WebhookDeliveryRecord) : M error unit :=
  previous ← webhook_delivery (wd_id record);
  ensure (negb (match previous with
                | Some previous => is_terminal_delivery (wd_status previous) && negb (is_terminal_delivery (wd_status record))
                | None => false
                end))
    (EBail "a terminal webhook delivery cannot return to a pending state");;
  let was_open := match previous with Some previous => is_open_delivery (wd_status previous) | None => false end in
  let is_open := is_open_delivery (wd_status record) in
  backlog ← webhook_delivery_backlog;
  backlog ← lift (next_backlog was_open is_open backlog);
  event ← delivery_event self (delivery_transition_event previous record) (wd_latency_milliseconds record) backlog;
  execute ([SET (delivery_key (wd_id record)) (to_json record);
            SET (delivery_event_key (wd_webhook_id record) (wd_event_sequence record)) (uuid_show (wd_id record));
            SET DELIVERY_BACKLOG_KEY (show_u64 backlog)] ++ queue_events event).

Definition delivery_expired (cutoff : N) (record : WebhookDeliveryRecord) : bool :=
  is_terminal_delivery (wd_status record)
  && match wd_completed_at record with Some completed => completed <? cutoff | None => false end.

(** The first [limit] expired deliveries. *)
Fixpoint expired_deliveries (cutoff : N) (limit : nat) (ids : list Uuid) (expired : list WebhookDeliveryRecord) :
    M error (list WebhookDeliveryRecord) :=
  match ids with
  | [] => mret expired
  | id :: ids =>
      found ← webhook_delivery id;
      match found with
      | None => expired_deliveries cutoff limit ids expired
      | Some record =>
          if delivery_expired cutoff record then
            let expired := expired ++ [record] in
            if (length expired =? limit)%nat then mret expired else expired_deliveries cutoff limit ids expired
          else expired_deliveries cutoff limit ids expired
      end
  end.

Definition prune_webhook_deliveries_older_than (cutoff : N) (limit : nat) : M error nat :=
  if (limit =? 0)%nat then mret O else
  ids ← record_ids DELIVERY_PREFIX;
  expired ← expired_deliveries cutoff limit ids [];
  match expired with
  | [] => mret O
  | _ =>
      execute (expired ≫= λ record,
        [DEL [delivery_key (wd_id record)];
         DEL [delivery_event_key (wd_webhook_id record) (wd_event_sequence record)]]);;
      mret (length expired)
  end.

(** ** Retention of the event log *)

(** The last sequence of the expired prefix. *)
Fixpoint expired_prefix (cutoff sequence : N) (values : list (option str)) (last_deleted : option N) :
    result error (option N) :=
  match values with
  | [] => Ok last_deleted
  | value :: values =>
      match check_record sequence value with
      | Err e => Err e
      | Ok event =>
          if cutoff <=? ev_occurred_at event then Ok last_deleted
          else expired_prefix cutoff (sequence + 1) values (Some sequence)
      end
  end.

Definition slowest_webhook (safe_sequence : N) (record : WebhookRecord) : M error N :=
  cursor ← webhook_cursor (wh_id record);
  mret (N.min safe_sequence cursor).

(** The prefix of the log up to [safe_sequence], at most [maximum] events of it. *)
Definition prune_through (cutoff maximum safe_sequence : N) : M error N :=
  minimum ← minimum_event_sequence;
  if safe_sequence <? minimum then mret 0 else
  let stop := N.min safe_sequence (saturating_add minimum (maximum - 1)) in
  values ← mget (event_keys minimum (N.to_nat (stop - minimum + 1)));
  last_deleted ← lift (expired_prefix cutoff minimum values None);
  match last_deleted with
  | None => mret 0
  | Some last_deleted =>
      execute [DEL (event_keys minimum (N.to_nat (last_deleted - minimum + 1)));
               SET MIN_SEQUENCE_KEY (show_u64 (saturating_add last_deleted 1))];;
      mret (last_deleted - minimum + 1)
  end.

(** The number of events removed. *)
Definition prune_events_older_than (cutoff maximum : N) : M error N :=
  if maximum =? 0 then mret 0 else
  latest ← latest_event_sequence;
  destinations ← webhooks;
  projector_cursor ← get_u64 PROJECTOR_CURSOR_KEY;
  let safe_sequence := match projector_cursor with Some cursor => N.min latest cursor | None => latest end in
  safe_sequence ← foldM slowest_webhook destinations safe_sequence;
  prune_through cutoff maximum safe_sequence.

(** ** Listing the destinations *)

Lemma key_set_elem k l ks : k ∈ foldl (λ l k, key_insert k l) l ks ↔ k ∈ l ∨ k ∈ ks.
Proof.
  revert l. induction ks as [|x ks IH]; intros l; simpl; [set_solver|]. rewrite IH, key_insert_elem. set_solver.
Qed.

Definition stored_webhook (m : gmap str entry) (r : WebhookRecord) : Prop :=
  m !! webhook_key (wh_id r) = Some (Entry (to_json r) None).

Lemma wp_load_webhooks keys o w (Q : result error (list WebhookRecord) → world → Prop) :
  (∀ e w', vw w' = vw w → Q (Err e) w') →
  (∀ rs w', vw w' = vw w →
     (∀ k r, k ∈ keys → vw w !! k = Some (Entry (to_json r) None) → r ∈ rs) → Q (Ok rs) w') →
  wp (load_webhooks keys) o w Q.
Proof.
  revert w Q. induction keys as [|k keys IH]; intros w Q He Hok.
  { apply wp_ret, Hok; [done|set_solver]. }
  cbn [load_webhooks]. apply wp_bind, wp_get_json_view; [intros; by apply He|]. intros t w1 Hv1.
  assert (Hrest : ∀ x : option WebhookRecord,
    (∀ r, vw w !! k = Some (Entry (to_json r) None) → x = Some r) →
    wp (rs ← load_webhooks keys; mret (match x with Some r => r :: rs | None => rs end)) o w1 Q).
  { intros x Hx. apply wp_bind, IH.
    - intros e w' Hv. apply He. congruence.
    - intros rs w' Hv Hrs. apply wp_ret, Hok; [congruence|]. rewrite Hv1 in Hrs.
      intros k' r [->|Hk']%elem_of_cons Hr; [|specialize (Hrs _ _ Hk' Hr); destruct x; set_solver].
      rewrite (Hx r Hr). set_solver. }
  destruct (live t (vw w) k) as [v|] eqn:Hl; [destruct (from_json v) as [r|] eqn:Hj; [|by apply He]|].
  - apply (Hrest (Some r)). intros r' Hr'. rewrite (live_persistent _ _ _ _ Hr') in Hl. injection Hl as <-.
    by rewrite from_to_json in Hj.
  - apply (Hrest None). intros r' Hr'. by rewrite (live_persistent _ _ _ _ Hr') in Hl.
Qed.

Lemma wp_webhooks o w (Q : result error (list WebhookRecord) → world → Prop) :
  (∀ e w', vw w' = vw w → Q (Err e) w') →
  (∀ rs w', vw w' = vw w → (∀ r, stored_webhook (vw w) r → r ∈ rs) → Q (Ok rs) w') →
  wp webhooks o w Q.
Proof.
  intros He Hok. apply wp_bind. unfold wp at 1, scan. destruct (t_fate _); simpl; [|by apply He..].
  apply wp_bind, wp_load_webhooks; [intros; by apply He|]. intros rs w' Hv Hrs. apply wp_ret, Hok; [done|].
  intros r Hr. apply sort_by_elem, (Hrs (webhook_key (wh_id r))); [|done]. apply key_set_elem. right.
  apply db_scan_spec. split; [apply starts_with_spec; by eexists|].
  change (db_view (w_db w)) with (vw w). rewrite (live_persistent _ _ _ _ Hr). by eexists.
Qed.

(** ** The safe prefix *)

Lemma wp_slowest rs safe o w (Q : result error N → world → Prop) :
  (∀ e w', vw w' = vw w → Q (Err e) w') →
  (∀ safe' w', vw w' = vw w → safe' ≤ safe →
     (∀ r c, r ∈ rs → counter_at (vw w) (cursor_key (wh_id r)) c 0 → c ≤ u64_max → safe' ≤ c) → Q (Ok safe') w') →
  wp (foldM slowest_webhook rs safe) o w Q.
Proof.
  revert safe w Q. induction rs as [|r rs IH]; intros safe w Q He Hok; cbn [foldM].
  { apply wp_ret, Hok; [done|done|set_solver]. }
  apply wp_bind. unfold slowest_webhook at 1, webhook_cursor. apply wp_bind, wp_bind, wp_get_u64.
  { intros d _ Hd. by apply He. }
  intros d Hd. change (db_view d) with (vw (after_trip w d)) in Hd.
  assert (Hgo : ∀ x, (∀ c, counter_at (vw w) (cursor_key (wh_id r)) c 0 → c ≤ u64_max → default 0 x = c) →
    wp (mret (default 0 x)) o (after_trip w d) (λ r0 w1, match r0 with
      | Ok a => wp (mret (N.min safe a)) o w1 (λ r1 w2, match r1 with
          | Ok b' => wp (foldM slowest_webhook rs b') o w2 Q | Err e => Q (Err e) w2 end)
      | Err e => Q (Err e) w1 end)).
  { intros x Hx. apply wp_ret, wp_ret, IH.
    - intros e w' Hv. apply He. congruence.
    - intros safe' w' Hv Hle Hall. apply Hok; [congruence|lia|]. rewrite Hd in Hall.
      intros r' c [->|Hr']%elem_of_cons Hc Hm; [|by eapply Hall]. rewrite <- (Hx c Hc Hm). lia. }
  destruct (live _ (vw w) (cursor_key (wh_id r))) as [v|] eqn:Hl; [destruct (parse_u64 v) as [n|] eqn:Hp|].
  - apply (Hgo (Some n)). intros c Hc Hm. pose proof (live_counter (trip_time o w) _ _ _ _ Hc Hm) as Hlc.
    rewrite Hl in Hlc. simpl. congruence.
  - by apply He.
  - apply (Hgo None). intros c Hc Hm. pose proof (live_counter (trip_time o w) _ _ _ _ Hc Hm) as Hlc.
    rewrite Hl in Hlc. done.
Qed.

(** The scan stops at the first event that is not old enough, and nowhere else. *)
Lemma expired_prefix_ok t m cutoff first n acc :
  (∀ s, first ≤ s → s < first + N.of_nat n → ∃ ev, event_at m s ev) →
  ∃ r, expired_prefix cutoff first (live t m <$> event_keys first n) acc = Ok r ∧
    (r = acc ∨ ∃ l, r = Some l ∧ first ≤ l < first + N.of_nat n ∧
       ∀ s ev, first ≤ s ≤ l → event_at m s ev → ev_occurred_at ev < cutoff).
Proof.
  revert first acc. induction n as [|n IH]; intros first acc Hall; [by exists acc; split; [|left]|].
  destruct (Hall first) as [ev Hev]; [lia..|]. cbn [event_keys]. rewrite fmap_cons. cbn [expired_prefix].
  rewrite (event_at_live t _ _ _ Hev). cbn [check_record]. rewrite from_to_json.
  destruct Hev as [Hk Hs]. rewrite Hs, N.eqb_refl.
  destruct (N.leb_spec cutoff (ev_occurred_at ev)) as [Hle|Hlt]; [by exists acc; split; [|left]|].
  destruct (IH (first + 1) (Some first)) as (r & Hr & Hcase); [intros s ? ?; apply Hall; lia|].
  exists r. split; [done|]. right.
  assert (Hfirst : ∀ s ev', s = first → event_at m s ev' → ev_occurred_at ev' < cutoff).
  { intros s ev' -> Hev'. by rewrite <- (event_at_inj m first ev ev' (conj Hk Hs) Hev'). }
  destruct Hcase as [->|(l & -> & Hl & Hold)].
  - exists first. split_and!; [done|lia|lia|]. intros s ev' Hse. apply Hfirst. lia.
  - exists l. split_and!; [done|lia|lia|]. intros s ev' Hse Hev'.
    destruct (decide (s = first)) as [Heq|Hne]; [by eapply Hfirst|]. apply (Hold s); [lia|done].
Qed.

Lemma event_keys_elem k first n :
  k ∈ event_keys first n ↔ ∃ s, k = event_key s ∧ first ≤ s < first + N.of_nat n.
Proof.
  revert first. induction n as [|n IH]; intros first; cbn [event_keys].
  { rewrite elem_of_nil. split; [done|]. intros (s & _ & Hs). lia. }
  rewrite elem_of_cons, IH. split.
  - intros [->|(s & -> & Hs)]; [exists first; split; [done|lia]|exists s; split; [done|lia]].
  - intros (s & -> & Hs). destruct (decide (s = first)) as [->|Hne]; [by left|right]. exists s. split; [done|lia].
Qed.

(** ** What retention removes *)

(** From [m] to [m'] the retention boundary moved from [lo] to [lo']. *)
Record retained (cutoff lo hi lo' : N) (m m' : gmap str entry) : Prop := {
  rt_bound : lo ≤ lo';
  rt_log : log_ok m' lo' hi;
  rt_kept s : lo' ≤ s → s ≤ hi → m' !! event_key s = m !! event_key s;
  rt_old s ev : lo ≤ s → s < lo' → event_at m s ev → ev_occurred_at ev < cutoff;
  rt_webhooks r c : stored_webhook m r → counter_at m (cursor_key (wh_id r)) c 0 → c ≤ u64_max → lo' = lo ∨ lo' ≤ c + 1;
  rt_projector c : m !! PROJECTOR_CURSOR_KEY = Some (Entry (show_u64 c) None) → c ≤ u64_max → lo' = lo ∨ lo' ≤ c + 1;
  rt_foreign k : is_log_key k = false → m' !! k = m !! k
}.

Lemma retained_refl cutoff lo hi m : log_ok m lo hi → retained cutoff lo hi lo m m.
Proof. intros Hok. split; try done; auto; intros; lia. Qed.

Lemma retained_pruned cutoff lo hi l t m :
  log_ok m lo hi → hi < u64_max → lo ≤ l ≤ hi →
  (∀ s ev, lo ≤ s ≤ l → event_at m s ev → ev_occurred_at ev < cutoff) →
  (∀ r c, stored_webhook m r → counter_at m (cursor_key (wh_id r)) c 0 → c ≤ u64_max → l ≤ c) →
  (∀ c, m !! PROJECTOR_CURSOR_KEY = Some (Entry (show_u64 c) None) → c ≤ u64_max → l ≤ c) →
  retained cutoff lo hi (l + 1) m
    (exec_pipe t [DEL (event_keys lo (N.to_nat (l - lo + 1))); SET MIN_SEQUENCE_KEY (show_u64 (saturating_add l 1))] m).2.
Proof.
  intros [Hl Hm Hb Hr] Hhi Hlb Hold Hwh Hpr. cbn [exec_pipe exec_cmd fst snd].
  set (ks := event_keys lo _). rewrite (saturating_add_exact l 1) by lia.
  assert (Hks : ∀ k, k ∉ ks → k ≠ MIN_SEQUENCE_KEY →
    <[MIN_SEQUENCE_KEY := Entry (show_u64 (l + 1)) None]> (del_all ks m) !! k = m !! k).
  { intros k Hk Hne. rewrite lookup_insert_ne by done. by apply del_all_ne. }
  assert (Hrec : ∀ s, l + 1 ≤ s →
    <[MIN_SEQUENCE_KEY := Entry (show_u64 (l + 1)) None]> (del_all ks m) !! event_key s = m !! event_key s).
  { intros s Hs. apply Hks; [|apply not_eq_sym, event_key_min_ne].
    unfold ks. rewrite event_keys_elem. intros (s' & Heq & Hs'). apply (inj event_key) in Heq. subst. lia. }
  split; [lia| |intros s Hs _; by apply Hrec| | | |].
  - split; [| |lia|].
    + unfold counter_at. rewrite Hks; [done| |done].
      unfold ks. rewrite event_keys_elem. intros (s' & Heq & _). by apply event_key_seq_ne in Heq.
    + left. apply lookup_insert_eq.
    + intros s Hs1 Hs2. destruct (Hr s) as [ev [Hev Hse]]; [lia|done|]. exists ev. split; [|done]. by rewrite Hrec.
  - intros s ev Hs1 Hs2. apply Hold. lia.
  - intros r c Hw Hc Hcm. right. specialize (Hwh r c Hw Hc Hcm). lia.
  - intros c Hc Hcm. right. specialize (Hpr c Hc Hcm). lia.
  - intros k Hk. apply Hks; [|by intros ->]. unfold ks. rewrite event_keys_elem. by intros (s' & -> & _).
Qed.

(** The outcome of a retention run. *)
Definition pruned (cutoff maximum lo hi : N) (m : gmap str entry) (r : result error N) (w' : world) : Prop :=
  ∃ lo', retained cutoff lo hi lo' m (vw w') ∧ ∀ n, r = Ok n → lo' = lo + n ∧ n ≤ maximum.

Lemma pruned_none cutoff maximum lo hi m r w' :
  log_ok m lo hi → vw w' = m → (∀ n, r = Ok n → n = 0) → pruned cutoff maximum lo hi m r w'.
Proof.
  intros Hok <- Hn. exists lo. split; [by apply retained_refl|]. intros n Hr. rewrite (Hn n Hr). lia.
Qed.

Lemma wp_prune_through cutoff maximum lo hi safe o w :
  log_ok (vw w) lo hi → hi < u64_max → 0 < maximum → safe ≤ hi →
  (∀ r c, stored_webhook (vw w) r → counter_at (vw w) (cursor_key (wh_id r)) c 0 → c ≤ u64_max → safe ≤ c) →
  (∀ c, vw w !! PROJECTOR_CURSOR_KEY = Some (Entry (show_u64 c) None) → c ≤ u64_max → safe ≤ c) →
  wp (prune_through cutoff maximum safe) o w (pruned cutoff maximum lo hi (vw w)).
Proof.
  intros Hok Hhi Hmax Hsafe Hwh Hpr. pose proof Hok as [Hl Hm Hb Hr].
  assert (Hnone : ∀ r w', vw w' = vw w → (∀ n, r = Ok n → n = 0) → pruned cutoff maximum lo hi (vw w) r w')
    by (intros; by apply pruned_none).
  unfold prune_through. apply wp_bind, (wp_counter _ lo 1); [done|lia|intros d _ Hd; by apply Hnone|].
  intros d1 Hd1. destruct (N.ltb_spec safe lo) as [|Hlo]; [apply wp_ret, Hnone; [done|congruence]|].
  cbv zeta. set (stop := N.min safe _). change (db_view d1) with (vw (after_trip w d1)) in Hd1.
  assert (Hstop : lo ≤ stop ≤ safe ∧ stop - lo + 1 ≤ maximum).
  { unfold stop, saturating_add. lia. }
  apply wp_bind, wp_mget; [intros d _ Hd; apply Hnone; [change (db_view d = vw w); congruence|done]|].
  intros d2 Hd2. change (db_view d2) with (vw (after_trip (after_trip w d1) d2)) in Hd2.
  set (w2 := after_trip (after_trip w d1) d2) in *. rewrite Hd1 in *.
  edestruct (expired_prefix_ok (trip_time o (after_trip w d1)) (vw w) cutoff lo (N.to_nat (stop - lo + 1)) None)
    as (r & Hrun & Hcase); [intros s ? ?; apply Hr; lia|].
  apply wp_bind, wp_lift. rewrite Hrun.
  destruct Hcase as [->|(l & -> & Hll & Hold)]; [apply wp_ret, Hnone; [done|congruence]|].
  assert (Hret : ∀ t, retained cutoff lo hi (l + 1) (vw w)
    (exec_pipe t [DEL (event_keys lo (N.to_nat (l - lo + 1))); SET MIN_SEQUENCE_KEY (show_u64 (saturating_add l 1))] (vw w2)).2).
  { intros t. rewrite Hd2. apply retained_pruned; [done|done|lia|done| |].
    - intros r c Hs Hc Hcm. specialize (Hwh r c Hs Hc Hcm). lia.
    - intros c Hc Hcm. specialize (Hpr c Hc Hcm). lia. }
  apply wp_bind, wp_execute_view.
  - intros w' t _ [Hv|Hv]; [by apply Hnone; [congruence|]|]. exists (l + 1). rewrite Hv. split; [apply Hret|done].
  - intros w' t _ Hv. apply wp_ret. exists (l + 1). rewrite Hv. split; [apply Hret|]. intros n [= <-]. lia.
Qed.

Lemma wp_retention cutoff maximum lo hi o w :
  log_ok (vw w) lo hi → hi < u64_max →
  pruned cutoff maximum lo hi (vw w) (prune_events_older_than cutoff maximum o w).1
    (prune_events_older_than cutoff maximum o w).2.
Proof.
  intros Hok Hhi. change (wp (prune_events_older_than cutoff maximum) o w (pruned cutoff maximum lo hi (vw w))).
  assert (Hnone : ∀ r w', vw w' = vw w → (∀ n, r = Ok n → n = 0) → pruned cutoff maximum lo hi (vw w) r w')
    by (intros; by apply pruned_none).
  pose proof Hok as [Hl Hm Hb Hr]. unfold prune_events_older_than.
  destruct (N.eqb_spec maximum 0) as [|Hmax]; [apply wp_ret, Hnone; [done|congruence]|].
  apply wp_bind, (wp_counter _ hi 0); [done|lia|intros d _ Hd; by apply Hnone|]. intros d1 Hd1.
  change (db_view d1) with (vw (after_trip w d1)) in Hd1. set (w1 := after_trip w d1) in *.
  apply wp_bind, wp_webhooks; [intros e w' Hv; apply Hnone; [congruence|done]|]. intros rs w2 Hv2 Hrs.
  apply wp_bind, wp_get_u64; [intros d _ Hd; by apply Hnone; [change (db_view d = vw w); congruence|]|].
  intros d3 Hd3. change (db_view d3) with (vw (after_trip w2 d3)) in Hd3. set (w3 := after_trip w2 d3) in *.
  assert (Hv3 : vw w3 = vw w) by congruence. rewrite Hv2, Hd1 in *.
  assert (Hgo : ∀ x, (∀ c, vw w !! PROJECTOR_CURSOR_KEY = Some (Entry (show_u64 c) None) → c ≤ u64_max → x = Some c) →
    wp (safe ← foldM slowest_webhook rs (match x with Some c => N.min hi c | None => hi end);
        prune_through cutoff maximum safe) o w3 (pruned cutoff maximum lo hi (vw w))).
  { intros x Hx. apply wp_bind, wp_slowest; [intros e w' Hv; apply Hnone; [congruence|done]|].
    intros safe w4 Hv4 Hle Hall. rewrite Hv3 in Hv4, Hall. rewrite <- Hv4. apply wp_prune_through; rewrite ?Hv4;
      [done|done|lia|destruct x; lia| |].
    - intros r c Hs Hc Hcm. eapply Hall; [by apply Hrs|done|done].
    - intros c Hc Hcm. rewrite (Hx c Hc Hcm) in Hle. lia. }
  destruct (live _ (vw w) PROJECTOR_CURSOR_KEY) as [v|] eqn:Hlv; [destruct (parse_u64 v) as [n|] eqn:Hp|].
  - apply (Hgo (Some n)). intros c Hc Hcm. rewrite (live_persistent _ _ _ _ Hc) in Hlv. simplify_eq.
    by rewrite parse_show_u64 in Hp.
  - by apply Hnone.
  - apply (Hgo None). intros c Hc Hcm. by rewrite (live_persistent _ _ _ _ Hc) in Hlv.
Qed.

(** C19: retention never opens a gap.  Whatever the network does, after a pruning
    run (successful, refused or with its reply lost) the log is well formed from
    its new boundary to its end, the events above the boundary are untouched, only
    events older than the cutoff are gone, no stored destination and no analytics
    projector lost an event above its cursor, and nothing outside the log changed;
    a run that reports [n] moved the boundary by exactly [n], at most [maximum]. *)
Theorem retention_safe cutoff maximum lo hi o w :
  log_ok (vw w) lo hi → hi < u64_max →
  ∃ lo', retained cutoff lo hi lo' (vw w) (vw (prune_events_older_than cutoff maximum o w).2) ∧
    ∀ n, (prune_events_older_than cutoff maximum o w).1 = Ok n → lo' = lo + n ∧ n ≤ maximum.
Proof. apply wp_retention. Qed.

(** ** The delivery backlog *)

Definition open_entry (k : str) (e : entry) : bool :=
  starts_with DELIVERY_PREFIX k
  && match from_json (e_val e) with Some r => is_open_delivery (wd_status r) | None => false end.

(** The number of stored deliveries that still await an attempt. *)
Definition open_count (m : gmap str entry) : N := N.of_nat (size (filter (λ kv, open_entry kv.1 kv.2 = true) m)).

Definition stored_delivery (m : gmap str entry) (r : WebhookDeliveryRecord) : Prop :=
  m !! delivery_key (wd_id r) = Some (Entry (to_json r) None).

Record backlog_ok (m : gmap str entry) : Prop := {
  bl_records k e : m !! k = Some e → starts_with DELIVERY_PREFIX k = true →
    ∃ r, k = delivery_key (wd_id r) ∧ e = Entry (to_json r) None;
  bl_counter : counter_at m DELIVERY_BACKLOG_KEY (open_count m) 0;
  bl_bound : open_count m ≤ u64_max
}.

Definition is_delivery_key (k : str) : bool :=
  starts_with DELIVERY_PREFIX k || bool_decide (k = DELIVERY_BACKLOG_KEY).

Lemma delivery_key_prefix id : starts_with DELIVERY_PREFIX (delivery_key id) = true.
Proof. apply starts_with_spec. by eexists. Qed.

Lemma delivery_key_not_log k : is_delivery_key k = true → is_log_key k = false.
Proof.
  unfold is_delivery_key, is_log_key. intros [Hk|Hk]%orb_true_iff.
  - apply starts_with_spec in Hk as [s ->]. done.
  - apply bool_decide_eq_true in Hk as ->. done.
Qed.

Definition b2n (b : bool) : N := if b then 1 else 0.

Lemma open_count_agree m m' :
  (∀ k, starts_with DELIVERY_PREFIX k = true → m' !! k = m !! k) → open_count m' = open_count m.
Proof.
  intros Hk. unfold open_count. do 2 f_equal. apply map_eq. intros k. rewrite !map_lookup_filter.
  destruct (starts_with DELIVERY_PREFIX k) eqn:Hp; [by rewrite Hk|].
  assert (Hno : ∀ e, open_entry k e = true → False) by (intros e; unfold open_entry; by rewrite Hp).
  destruct (m !! k), (m' !! k); simpl; try done; rewrite ?option_guard_False; try done; eauto.
Qed.

Lemma open_count_delete m k :
  open_count m = open_count (delete k m) + b2n (match m !! k with Some e => open_entry k e | None => false end).
Proof.
  unfold open_count. rewrite map_filter_delete. destruct (m !! k) as [e|] eqn:Hk.
  - destruct (open_entry k e) eqn:Ho.
    + rewrite (map_size_delete_Some k); [|exists e; by apply map_lookup_filter_Some].
      assert (size (filter (λ kv, open_entry kv.1 kv.2 = true) m) ≠ 0%nat).
      { intros Hz%map_size_empty_iff. by apply map_filter_empty_not_lookup with (i := k) (x := e) in Hz. }
      simpl. lia.
    + rewrite delete_id; [simpl; lia|]. apply map_lookup_filter_None. right. intros e' He'. simplify_eq/=. by rewrite Ho.
  - rewrite delete_id; [simpl; lia|]. apply map_lookup_filter_None. by left.
Qed.

Lemma open_count_insert m k e :
  open_count (<[k := e]> m) + b2n (match m !! k with Some e => open_entry k e | None => false end)
  = open_count m + b2n (open_entry k e).
Proof.
  rewrite (open_count_delete m k), (open_count_delete (<[k := e]> m) k), lookup_insert_eq, delete_insert_eq. lia.
Qed.

(** The invariant reads the delivery records and the counter only. *)
Lemma backlog_agree m m' : (∀ k, is_delivery_key k = true → m' !! k = m !! k) → backlog_ok m → backlog_ok m'.
Proof.
  intros Hk [Hr Hc Hb].
  assert (Hp : ∀ k, starts_with DELIVERY_PREFIX k = true → m' !! k = m !! k).
  { intros k Hs. apply Hk. unfold is_delivery_key. by rewrite Hs. }
  split; rewrite ?(open_count_agree m m' Hp); [|by unfold counter_at in *; rewrite Hk|done].
  intros k e He Hs. rewrite Hp in He by done. by apply Hr.
Qed.

Lemma backlog_live t m id :
  backlog_ok m → live t m (delivery_key id) = None ∧ m !! delivery_key id = None ∨
    ∃ r, wd_id r = id ∧ stored_delivery m r ∧ live t m (delivery_key id) = Some (to_json r).
Proof.
  intros [Hr _ _]. destruct (m !! delivery_key id) as [e|] eqn:He; [right|left; by rewrite live_missing].
  destruct (Hr _ _ He (delivery_key_prefix id)) as (r & Hk & ->). exists r.
  assert (wd_id r = id) as <- by (apply app_inv_head, (inj uuid_show) in Hk; done).
  split_and!; [done|done|by apply live_persistent].
Qed.

Lemma open_entry_record r : open_entry (delivery_key (wd_id r)) (Entry (to_json r) None) = is_open_delivery (wd_status r).
Proof. unfold open_entry. rewrite delivery_key_prefix. simpl. by rewrite from_to_json. Qed.

Lemma stored_delivery_inj m r r' : stored_delivery m r → stored_delivery m r' → wd_id r = wd_id r' → r = r'.
Proof.
  unfold stored_delivery. intros Hr Hr' Hid. rewrite <- Hid, Hr in Hr'. simplify_eq.
  apply (f_equal (from_json (A:=WebhookDeliveryRecord))) in Hr'. rewrite !from_to_json in Hr'. by simplify_eq.
Qed.

(** A delivery that is finished stays finished. *)
Definition finished_stays (m m' : gmap str entry) : Prop :=
  ∀ r, stored_delivery m r → is_terminal_delivery (wd_status r) = true →
    ∃ r', wd_id r' = wd_id r ∧ stored_delivery m' r' ∧ is_terminal_delivery (wd_status r') = true.

Lemma next_backlog_exact a b c n :
  next_backlog a b c = Ok n → n + b2n a = c + b2n b ∧ (c ≤ u64_max → n ≤ u64_max).
Proof.
  unfold next_backlog, checked_add, checked_sub. destruct a, b; simpl.
  - intros [= ->]. lia.
  - destruct (N.leb_spec 1 c); simpl; [intros [= <-]; lia|done].
  - destruct (N.leb_spec (c + 1) u64_max); simpl; [intros [= <-]; lia|done].
  - intros [= ->]. lia.
Qed.

(** The commit of a delivery keeps the counter exact. *)
Lemma backlog_commit t m previous record evs n :
  backlog_ok m →
  match previous with
  | Some p => wd_id p = wd_id record ∧ stored_delivery m p ∧
              (is_terminal_delivery (wd_status p) = true → is_terminal_delivery (wd_status record) = true)
  | None => m !! delivery_key (wd_id record) = None
  end →
  next_backlog (match previous with Some p => is_open_delivery (wd_status p) | None => false end)
    (is_open_delivery (wd_status record)) (open_count m) = Ok n →
  let m' := (exec_pipe t ([SET (delivery_key (wd_id record)) (to_json record);
            SET (delivery_event_key (wd_webhook_id record) (wd_event_sequence record)) (uuid_show (wd_id record));
            SET DELIVERY_BACKLOG_KEY (show_u64 n)] ++ queue_events evs) m).2 in
  backlog_ok m' ∧ finished_stays m m'.
Proof.
  intros Hb Hp [Hn Hmax]%next_backlog_exact. cbv zeta. set (m' := (exec_pipe _ _ _).2).
  set (m1 := <[delivery_key (wd_id record) := Entry (to_json record) None]> m).
  assert (Hd : ∀ k, starts_with DELIVERY_PREFIX k = true → m' !! k = m1 !! k).
  { intros k Hk. assert (is_log_key k = false) by (apply delivery_key_not_log; unfold is_delivery_key; by rewrite Hk).
    apply starts_with_spec in Hk as [s ->]. unfold m'. rewrite commit_agree by done. cbn [exec_pipe exec_cmd snd]. look. done. }
  assert (Hc : open_count m' = n).
  { rewrite (open_count_agree m1 m') by done. pose proof (open_count_insert m (delivery_key (wd_id record)) (Entry (to_json record) None)) as Hi.
    fold m1 in Hi. rewrite open_entry_record in Hi. destruct previous as [q|].
    - destruct Hp as (Hid & Hst & _). rewrite <- Hid, Hst, open_entry_record in Hi. lia.
    - rewrite Hp in Hi. simpl in *. lia. }
  destruct Hb as [Hr Hcnt Hbd]. split; [split|].
  - intros k e He Hk. rewrite Hd in He by done. unfold m1 in He. destruct (decide (k = delivery_key (wd_id record))) as [->|Hne].
    + rewrite lookup_insert_eq in He. simplify_eq. by exists record.
    + rewrite lookup_insert_ne in He by done. by apply Hr.
  - left. rewrite Hc. unfold m'. rewrite commit_agree by done. cbn [exec_pipe exec_cmd snd]. by look.
  - rewrite Hc. auto.
  - intros r Hst Hterm. unfold stored_delivery. destruct (decide (wd_id r = wd_id record)) as [Hid|Hne].
    + exists record. split_and!; [done|rewrite Hd by apply delivery_key_prefix; apply lookup_insert_eq|].
      destruct previous as [q|]; [|unfold stored_delivery in Hst; rewrite Hid, Hp in Hst; done].
      destruct Hp as (Hq & Hqs & Ht). apply Ht. by rewrite (stored_delivery_inj m q r Hqs Hst) by congruence.
    + exists r. split_and!; [done| |done]. rewrite Hd by apply delivery_key_prefix. unfold m1.
      rewrite lookup_insert_ne; [done|]. intros Heq%app_inv_head%(inj uuid_show). congruence.
Qed.

(** What a read of one delivery sees. *)
Definition seen_delivery (m : gmap str entry) (id : Uuid) (found : option WebhookDeliveryRecord) : Prop :=
  match found with
  | Some r => wd_id r = id ∧ stored_delivery m r
  | None => m !! delivery_key id = None
  end.

Lemma wp_webhook_delivery id o w (Q : result error (option WebhookDeliveryRecord) → world → Prop) :
  backlog_ok (vw w) → (∀ w', vw w' = vw w → Q (Err EDb) w') →
  (∀ found w', vw w' = vw w → seen_delivery (vw w) id found → Q (Ok found) w') →
  wp (webhook_delivery id) o w Q.
Proof.
  intros Hok He Hq. apply wp_get_json_view; [intros w' Hv _; by apply He|]. intros t w' Hv.
  destruct (backlog_live t (vw w) id Hok) as [[-> Hn]|(r & Hid & Hst & ->)]; [by apply (Hq None)|].
  rewrite from_to_json. by apply Hq.
Qed.

Lemma wp_delivery_event self ty l b o w (Q : result error (list AuthEvent) → world → Prop) :
  (∀ e w', vw w' = vw w → e ≠ EBail "webhook delivery backlog is inconsistent" → Q (Err e) w') →
  (∀ evs w', vw w' = vw w → Q (Ok evs) w') → wp (delivery_event self ty l b) o w Q.
Proof.
  intros He Hq. destruct ty as [ty|]; [|by apply wp_ret, Hq]. apply wp_bind, wp_pending_any.
  { intros e w' Hv [->| ->]; by apply He. }
  intros evs w' Hv. apply wp_bind, wp_some_or; [intros ev _; by apply wp_ret, Hq|intros _; by apply He].
Qed.

Definition delivery_outcome_at (m m' : gmap str entry) : Prop := backlog_ok m' ∧ finished_stays m m'.

Definition delivery_outcome (m : gmap str entry) (r : result error unit) (w' : world) : Prop :=
  delivery_outcome_at m (vw w') ∧ r ≠ Err (EBail "webhook delivery backlog is inconsistent").

Lemma next_backlog_consistent m id found b :
  seen_delivery m id found →
  next_backlog (match found with Some p => is_open_delivery (wd_status p) | None => false end) b (open_count m)
  ≠ Err (EBail "webhook delivery backlog is inconsistent").
Proof.
  destruct found as [q|]; [|intros _; unfold next_backlog, checked_add; destruct b; [destruct (_ <=? _)|]; done].
  intros [_ Hst]. pose proof (open_count_delete m (delivery_key (wd_id q))) as Hd.
  rewrite Hst, open_entry_record in Hd. unfold next_backlog, checked_add, checked_sub.
  destruct (is_open_delivery (wd_status q)), b; simpl in *; [done| |destruct (_ <=? _)|]; try done.
  destruct (N.leb_spec 1 (open_count m)); [done|lia].
Qed.

Lemma wp_put_webhook_delivery self record o w :
  backlog_ok (vw w) → wp (put_webhook_delivery self record) o w (delivery_outcome (vw w)).
Proof.
  intros Hok.
  assert (Hsame : ∀ r w', vw w' = vw w → r ≠ Err (EBail "webhook delivery backlog is inconsistent") →
    delivery_outcome (vw w) r w').
  { intros r w' Hv Hr. unfold delivery_outcome. rewrite Hv. split; [|done]. split; [done|]. intros q ? ?. by exists q. }
  apply wp_bind, wp_webhook_delivery; [done|intros; by apply Hsame|]. intros previous w1 Hv1 Hseen.
  apply wp_bind, wp_ensure; [|intros _; by apply Hsame]. intros Hterm. rewrite <- Hv1 in Hok. cbv zeta.
  pose proof Hok as [_ Hc Hb]. apply wp_bind, (wp_counter _ _ _ _ _ _ Hc Hb).
  { intros d _ Hd. apply Hsame; [change (db_view d = vw w); congruence|done]. }
  intros d Hd. change (db_view d) with (vw (after_trip w1 d)) in Hd. rewrite Hv1 in *.
  pose proof (next_backlog_consistent (vw w) _ previous (is_open_delivery (wd_status record)) Hseen) as Hcons.
  apply wp_bind, wp_lift. destruct (next_backlog _ _ _) as [n|e] eqn:Hn; [|apply Hsame; congruence].
  apply wp_bind, wp_delivery_event; [intros; apply Hsame; congruence|]. intros evs w2 Hv2. rewrite Hd in Hv2.
  assert (Hcommit : ∀ t, delivery_outcome_at (vw w) (exec_pipe t ([SET (delivery_key (wd_id record)) (to_json record);
      SET (delivery_event_key (wd_webhook_id record) (wd_event_sequence record)) (uuid_show (wd_id record));
      SET DELIVERY_BACKLOG_KEY (show_u64 n)] ++ queue_events evs) (vw w2)).2).
  { intros t. rewrite Hv2. apply (backlog_commit t _ previous); [done| |done]. destruct previous as [q|]; [|done].
    destruct Hseen. split_and!; [done..|]. intros Ht. rewrite Ht in Hterm. by destruct (is_terminal_delivery _). }
  apply wp_execute_view.
  - intros w' t _ [Hv|Hv]; [apply Hsame; congruence|]. destruct (Hcommit t). by rewrite <- Hv in *.
  - intros w' t _ Hv. destruct (Hcommit t). by rewrite <- Hv in *.
Qed.

(** Retention of deliveries picks finished ones. *)
Definition prunable (m : gmap str entry) (r : WebhookDeliveryRecord) : Prop :=
  stored_delivery m r ∧ is_terminal_delivery (wd_status r) = true.

Lemma wp_expired_deliveries cutoff limit ids acc o w (Q : result error (list WebhookDeliveryRecord) → world → Prop) :
  backlog_ok (vw w) → Forall (prunable (vw w)) acc →
  (∀ e w', vw w' = vw w → Q (Err e) w') →
  (∀ rs w', vw w' = vw w → Forall (prunable (vw w)) rs → Q (Ok rs) w') →
  wp (expired_deliveries cutoff limit ids acc) o w Q.
Proof.
  revert acc w Q. induction ids as [|id ids IH]; intros acc w Q Hok Hacc He Hq; cbn [expired_deliveries].
  { by apply wp_ret, Hq. }
  apply wp_bind, wp_webhook_delivery; [done|intros; by apply He|]. intros found w1 Hv Hseen.
  assert (Hrec : ∀ acc', Forall (prunable (vw w)) acc' → wp (expired_deliveries cutoff limit ids acc') o w1 Q).
  { intros acc' Hacc'. rewrite <- Hv in Hok, Hacc'. apply IH; [done|done| |]; rewrite Hv; auto. }
  destruct found as [r|]; [|by apply Hrec]. destruct (delivery_expired cutoff r) eqn:Hx; [|by apply Hrec].
  apply andb_true_iff in Hx as [Ht _]. destruct Hseen as [_ Hst].
  assert (Forall (prunable (vw w)) (acc ++ [r])) by (apply Forall_app; split; [done|by apply Forall_singleton]).
  destruct (_ =? _)%nat; [by apply wp_ret, Hq|by apply Hrec].
Qed.

Lemma backlog_prune t m rs :
  backlog_ok m → Forall (prunable m) rs →
  backlog_ok (exec_pipe t (rs ≫= λ record,
    [DEL [delivery_key (wd_id record)];
     DEL [delivery_event_key (wd_webhook_id record) (wd_event_sequence record)]]) m).2.
Proof.
  intros Hok Hall.
  enough (Hgen : ∀ rs m', Forall (prunable m) rs → backlog_ok m' →
    (∀ r, prunable m r → stored_delivery m' r ∨ m' !! delivery_key (wd_id r) = None) →
    backlog_ok (exec_pipe t (rs ≫= λ record, [DEL [delivery_key (wd_id record)];
      DEL [delivery_event_key (wd_webhook_id record) (wd_event_sequence record)]]) m').2).
  { apply Hgen; [done|done|]. intros r [? _]. by left. }
  clear rs Hall. induction rs as [|r rs IH]; intros m' Hall Hok' Hst; [done|].
  apply Forall_cons in Hall as [Hr Hall]. rewrite bind_cons, exec_pipe_app. apply IH; [done|..]; cbn [exec_pipe exec_cmd del_all foldl snd].
  - eapply (backlog_agree (delete (delivery_key (wd_id r)) m')).
    { intros k Hk. rewrite lookup_delete_ne; [done|]. intros <-. unfold is_delivery_key in Hk. done. }
    destruct Hok' as [H1 H2 H3]. pose proof (open_count_delete m' (delivery_key (wd_id r))) as Hcnt.
    assert (Hsame : open_count (delete (delivery_key (wd_id r)) m') = open_count m').
    { destruct (Hst r Hr) as [Hs|Hs]; rewrite Hs in Hcnt; [|simpl in Hcnt; lia]. rewrite open_entry_record in Hcnt.
      destruct Hr as [_ Ht]. destruct (wd_status r); simpl in *; try done; lia. }
    split; rewrite ?Hsame; [|by unfold counter_at; look|done].
    intros k e [_ Hk]%lookup_delete_Some Hp. by apply H1.
  - intros r' Hr'. destruct (Hst r' Hr') as [Hs|Hs]; unfold stored_delivery.
    + destruct (decide (delivery_key (wd_id r) = delivery_key (wd_id r'))) as [->|Hne].
      * right. look. done.
      * left. look. exact Hs.
    + right. rewrite !lookup_delete_None. auto.
Qed.

Lemma wp_prune_webhook_deliveries cutoff limit o w :
  backlog_ok (vw w) → wp (prune_webhook_deliveries_older_than cutoff limit) o w (λ _ w', backlog_ok (vw w')).
Proof.
  intros Hok. unfold prune_webhook_deliveries_older_than. destruct (_ =? _)%nat; [by apply wp_ret|].
  apply wp_bind, wp_reads; [apply record_ids_reads, _|]. intros [ids|e] w1 Hv1; [|by rewrite Hv1].
  rewrite <- Hv1 in Hok. apply wp_bind, wp_expired_deliveries; [done|done|by intros e w' ->|].
  intros rs w2 Hv2 Hall. rewrite <- Hv2 in Hok, Hall. destruct rs as [|r rs]; [by apply wp_ret|].
  apply wp_bind. eapply wp_mono.
  - apply (wp_execute_inv backlog_ok); [done|]. intros t. by apply backlog_prune.
  - intros [[]|e] w' Hw'; [by apply wp_ret|done].
Qed.

(** One operation on the deliveries, or any operation that leaves their records alone. *)
Inductive delivery_step (self : Store) : world → world → Prop :=
  | step_put record o w : delivery_step self w (put_webhook_delivery self record o w).2
  | step_prune cutoff limit o w : delivery_step self w (prune_webhook_deliveries_older_than cutoff limit o w).2
  | step_other w w' : (∀ k, is_delivery_key k = true → vw w' !! k = vw w !! k) → delivery_step self w w'.

(** the backlog counter is the number of open deliveries.  After any sequence
    of delivery updates, delivery pruning and unrelated operations, with requests
    and replies lost at will, the stored counter equals the number of stored
    deliveries that are pending or retrying; the next update can therefore never
    fail for an inconsistent backlog, it keeps the count exact, and it never
    reopens a finished delivery. *)
Theorem backlog_exact self w w' record o :
  backlog_ok (vw w) → rtc (delivery_step self) w w' →
  backlog_ok (vw w') ∧
  let '(r, w'') := put_webhook_delivery self record o w' in
  backlog_ok (vw w'') ∧ finished_stays (vw w') (vw w'') ∧
  r ≠ Err (EBail "webhook delivery backlog is inconsistent").
Proof.
  intros Hok Hrun. assert (Hok' : backlog_ok (vw w')).
  { induction Hrun as [|w1 w2 w3 Hstep _ IH]; [done|]. apply IH. destruct Hstep.
    - by apply (wp_put_webhook_delivery self record0 o0).
    - by apply (wp_prune_webhook_deliveries cutoff limit o0).
    - by eapply backlog_agree. }
  split; [done|]. pose proof (wp_put_webhook_delivery self record o w' Hok') as Hput. unfold wp in Hput.
  destruct (put_webhook_delivery self record o w') as [r w'']. destruct Hput as [[? ?] ?]. done.
Qed.

(** ** The log *)

Lemma put_webhook_extends self r ty : moves log_extends (put_webhook self r ty).
Proof. unfold put_webhook. log_go. Qed.

Lemma update_webhook_runtime_extends r : moves log_extends (update_webhook_runtime r).
Proof. unfold update_webhook_runtime. log_go. Qed.

Lemma remove_webhook_extends self id : moves log_extends (remove_webhook self id).
Proof. unfold remove_webhook. log_go. Qed.

Lemma set_webhook_cursor_extends id n : moves log_extends (set_webhook_cursor id n).
Proof. unfold set_webhook_cursor. log_go. Qed.

Lemma moves_assoc {E A B C : Type} R (m : M E A) (f : A → M E B) (g : B → M E C) :
  moves R (m ≫= λ a, f a ≫= g) → moves R ((m ≫= f) ≫= g).
Proof.
  intros Hm o w. specialize (Hm o w). unfold mbind, M_bind in *.
  destruct (m o w) as [[a|e] w1]; simpl in *; [|done]. by destruct (f a o w1) as [[b|e] w2].
Qed.

Lemma from_hi_assoc {A B C : Type} hi (m : M error A) (f : A → M error B) (g : B → M error C) :
  from_hi hi (m ≫= λ a, f a ≫= g) → from_hi hi ((m ≫= f) ≫= g).
Proof.
  intros Hm o w lo Hok. specialize (Hm o w lo Hok). unfold mbind, M_bind in *.
  destruct (m o w) as [[a|e] w1]; simpl in *; [|done]. by destruct (f a o w1) as [[b|e] w2].
Qed.

Lemma put_webhook_delivery_extends self r : moves log_extends (put_webhook_delivery self r).
Proof.
  unfold put_webhook_delivery, webhook_delivery, webhook_delivery_backlog.
  do 2 (apply moves_bind; [apply _|moves_go|intros ?]). cbv zeta. do 2 (apply moves_bind; [apply _|moves_go|intros ?]).
  unfold delivery_event. destruct (delivery_transition_event _ _) as [ty|].
  - apply moves_assoc, moves_pending. intros evs hi Hn Hfor. apply from_hi_assoc, from_hi_some_or. intros ev Hl.
    refine (from_hi_commit_last hi [_; _; _] [with_data _ ev] _ _); [|done].
    apply (numbered_with_data hi [ev] (with_data _)); [done|by eapply pop_numbered].
  - refine (moves_execute _ [_; _; _] _). intros t m. by apply log_extends_foreign.
Qed.

Lemma expired_deliveries_reads cutoff limit ids acc : moves eq (expired_deliveries cutoff limit ids acc).
Proof.
  revert acc. induction ids as [|id ids IH]; intros acc; cbn [expired_deliveries]; unfold webhook_delivery; moves_go.
Qed.

Lemma delivery_deletes_off (P : str → bool) rs :
  (∀ id, P (delivery_key id) = false) → (∀ id n, P (delivery_event_key id n) = false) →
  untouched P (rs ≫= λ record, [DEL [delivery_key (wd_id record)];
    DEL [delivery_event_key (wd_webhook_id record) (wd_event_sequence record)]]) = true.
Proof.
  intros H1 H2. unfold untouched, pipe_writes. induction rs as [|r rs IH]; [done|]. simpl. by rewrite H1, H2.
Qed.

Lemma prune_webhook_deliveries_extends cutoff limit : moves log_extends (prune_webhook_deliveries_older_than cutoff limit).
Proof.
  unfold prune_webhook_deliveries_older_than. moves_go.
  - eapply moves_mono; [|apply expired_deliveries_reads]. by intros ?? ->.
  - apply moves_execute; [apply _|]. intros t m. by apply log_extends_foreign, delivery_deletes_off.
Qed.

(** ** The accounts *)

Lemma put_webhook_accounts self r ty : leaves is_account_key (put_webhook self r ty).
Proof. unfold put_webhook. leaves_go off_log_accounts. Qed.
Lemma update_webhook_runtime_accounts r : leaves is_account_key (update_webhook_runtime r).
Proof. unfold update_webhook_runtime. leaves_go off_log_accounts. Qed.
Lemma remove_webhook_accounts self id : leaves is_account_key (remove_webhook self id).
Proof. unfold remove_webhook. leaves_go off_log_accounts. Qed.
Lemma set_webhook_cursor_accounts id n : leaves is_account_key (set_webhook_cursor id n).
Proof. unfold set_webhook_cursor. leaves_go off_log_accounts. Qed.
Lemma put_webhook_delivery_accounts self r : leaves is_account_key (put_webhook_delivery self r).
Proof.
  unfold put_webhook_delivery, webhook_delivery, webhook_delivery_backlog, delivery_event, pop_event.
  leaves_go off_log_accounts.
Qed.

Lemma prune_webhook_deliveries_accounts cutoff limit :
  leaves is_account_key (prune_webhook_deliveries_older_than cutoff limit).
Proof.
  unfold prune_webhook_deliveries_older_than. leaves_go off_log_accounts.
  - eapply moves_mono; [|apply expired_deliveries_reads]. by intros ?? ->.
  - apply leaves_execute. by apply delivery_deletes_off.
Qed.

Lemma prune_events_accounts cutoff maximum : leaves is_account_key (prune_events_older_than cutoff maximum).
Proof.
  assert (Hload : ∀ ks, moves eq (load_webhooks ks)).
  { induction ks as [|k ks IH]; cbn [load_webhooks]; moves_go. }
  unfold prune_events_older_than, prune_through, webhooks, latest_event_sequence, minimum_event_sequence, mget.
  leaves_go off_log_accounts.
  - eapply moves_mono; [|apply Hload]. by intros ?? ->.
  - apply moves_foldM; [apply _|]. intros. unfold slowest_webhook, webhook_cursor. leaves_go off_log_accounts.
  - apply leaves_execute. unfold untouched, pipe_writes. apply forallb_forall. intros k Hin.
    apply list_elem_of_In in Hin. simpl in Hin. rewrite elem_of_app, event_keys_elem in Hin.
    destruct Hin as [(s & -> & _)|[->|[]%elem_of_nil]%elem_of_cons]; done.
Qed.
End Webhooks.

(** ** Witnesses *)

Import DemoEnv.

#[export] Program Instance codec_webhook_secret : Codec EncryptedWebhookSecret :=
  codec_iso (A := str * (str * str)) (λ e, (ws_wrapping_key_id e, (ws_nonce e, ws_ciphertext e)))
    (λ '(a, (b, c)), Some (mkWebhookSecret a b c)) _.
Next Obligation. by intros []. Qed.

#[export] Program Instance codec_webhook_status : Codec WebhookStatusRecord :=
  codec_iso (A:=N) (λ r, match r with WActive => 0 | WPaused => 1 | WFailing => 2 end)
    (λ n, Some (if n =? 0 then WActive else if n =? 1 then WPaused else WFailing)) _.
Next Obligation. by intros []. Qed.

#[export] Program Instance codec_webhook_source : Codec WebhookManagementSourceRecord :=
  codec_iso (A:=bool) (λ r, match r with Dashboard => false | Configuration => true end)
    (λ b, Some (if b then Configuration else Dashboard)) _.
Next Obligation. by intros []. Qed.

#[export] Program Instance codec_webhook : Codec WebhookRecord :=
  codec_iso (λ r : WebhookRecord, (wh_id r, (wh_name r, (wh_url r, (wh_status r, (wh_event_types r, (wh_secret r,
      (wh_secret_hint r, (wh_management_source r, (wh_created_at r, (wh_updated_at r, wh_last_delivery_at r)))))))))))
    (λ '(a, (b, (c, (d, (e, (f, (g, (h, (i, (j, k)))))))))), Some (mkWebhook a b c d e f g h i j k)) _.
Next Obligation. by intros []. Qed.

#[export] Program Instance codec_delivery_status : Codec WebhookDeliveryStatusRecord :=
  codec_iso (A:=N) (λ r, match r with DPending => 0 | DSucceeded => 1 | DRetrying => 2 | DFailed => 3 end)
    (λ n, Some (if n =? 0 then DPending else if n =? 1 then DSucceeded else if n =? 2 then DRetrying else DFailed)) _.
Next Obligation. by intros []. Qed.

#[export] Program Instance codec_delivery : Codec WebhookDeliveryRecord :=
  codec_iso (λ r : WebhookDeliveryRecord, (wd_id r, (wd_webhook_id r, (wd_event_sequence r, (wd_event_id r, (wd_event_type r, (wd_status r,
      (wd_attempt_count r, (wd_response_status r, (wd_latency_milliseconds r, (wd_created_at r,
        (wd_next_attempt_at r, (wd_completed_at r, wd_error_class r)))))))))))))
    (λ '(a, (b, (c, (d, (e, (f, (g, (h, (i, (j, (k, (l, m)))))))))))), Some (mkDelivery a b c d e f g h i j k l m)) _.
Next Obligation. by intros []. Qed.

(** Three events, and one destination that has read the first of them. *)
Definition demo_log_event (n at_ : N) : AuthEvent :=
  mkEvent n demo_id #"t" #"session.revoked" None at_ [].
Definition demo_hook : WebhookRecord :=
  mkWebhook #"hook" #"Hook" #"https://example.com" WActive [] (mkWebhookSecret [] [] []) [] Dashboard 1 1 None.
Definition demo_retention : alist :=
  Eval vm_compute in
    [(event_key 1, Entry (to_json (demo_log_event 1 100)) None);
     (event_key 2, Entry (to_json (demo_log_event 2 200)) None);
     (event_key 3, Entry (to_json (demo_log_event 3 900)) None);
     (SEQUENCE_KEY, Entry (show_u64 3) None);
     (webhook_key #"hook", Entry (to_json demo_hook) None);
     (cursor_key #"hook", Entry (show_u64 1) None)].

Lemma demo_retention_log : log_ok (vw (demo_world demo_retention)) 1 3.
Proof.
  split; [left; eval_eq|right; split; [eval_eq|done]|by vm_compute|].
  intros s H1 H2. assert (s = 1 ∨ s = 2 ∨ s = 3) as [->|[->| ->]] by lia.
  - exists (demo_log_event 1 100). split; eval_eq.
  - exists (demo_log_event 2 200). split; eval_eq.
  - exists (demo_log_event 3 900). split; eval_eq.
Qed.

Abbreviation demo_pruned := (prune_events_older_than 500 10 demo_oracle (demo_world demo_retention)).

Lemma retention_safe_witness :
  log_ok (vw (demo_world demo_retention)) 1 3 ∧ demo_pruned.1 = Ok 1 ∧
  retained 500 1 3 2 (vw (demo_world demo_retention)) (vw demo_pruned.2).
Proof.
  split; [exact demo_retention_log|]. assert (Hrun : demo_pruned.1 = Ok 1) by eval_eq. split; [exact Hrun|].
  destruct (retention_safe 500 10 1 3 demo_oracle (demo_world demo_retention)) as (lo' & Hr & Hn);
    [exact demo_retention_log|by vm_compute|].
  destruct (Hn 1 Hrun) as [-> _]. exact Hr.
Defined.

Definition demo_delivery (status : WebhookDeliveryStatusRecord) : WebhookDeliveryRecord :=
  mkDelivery demo_id #"hook" 1 demo_id #"session.revoked" status 1 None 0 1 None None [].

Lemma backlog_ok_empty : backlog_ok (vw (demo_world [])).
Proof. split; [intros k e He; exact (False_ind _ (lookup_empty_Some k e He))|right; split; eval_eq|by vm_compute]. Qed.

Abbreviation demo_queued := (put_webhook_delivery (mkStore #"t") (demo_delivery DPending) demo_oracle (demo_world [])).
Abbreviation demo_failed := (put_webhook_delivery (mkStore #"t") (demo_delivery DFailed) demo_oracle demo_queued.2).

Lemma backlog_exact_witness :
  demo_queued.1 = Ok tt ∧ open_count (vw demo_queued.2) = 1 ∧ backlog_ok (vw demo_queued.2) ∧
  demo_failed.1 = Ok tt ∧ open_count (vw demo_failed.2) = 0 ∧ backlog_ok (vw demo_failed.2).
Proof.
  destruct (backlog_exact (mkStore #"t") (demo_world []) demo_queued.2 (demo_delivery DFailed) demo_oracle) as [Hq Hf];
    [exact backlog_ok_empty|apply rtc_once, step_put|].
  rewrite (surjective_pairing demo_failed) in Hf. destruct Hf as [Hf _].
  split_and!; [eval_eq|eval_eq|exact Hq|eval_eq|eval_eq|exact Hf].
Defined.
