(* ===== verification/ServiceAccounts.v ===== *)
(** * Service accounts (src/src/store/service_accounts.rs)

    Machine principals, their secrets and the exchange of a secret for a scoped
    grant.  A secret is stored only as a locator: a key named by its digest that
    points at one credential of one account. *)

From S2P Require Import Prelude Sable Logic Demo Records Events Identifiers Users Invitations Accounts Sessions Touches Webhooks.

Definition SERVICE_ACCOUNT_PREFIX : str := #"auth:service-account:".
Definition SERVICE_CREDENTIAL_PREFIX : str := #"auth:service-credential:".

Inductive ServiceAccountStatusRecord := SAActive | SADisabled.
#[global] Instance ServiceAccountStatusRecord_eq_dec : EqDecision ServiceAccountStatusRecord.
Proof. solve_decision. Defined.

Record ServiceAccountCredentialRecord := mkServiceCredential {
  sc_id : Uuid;
  sc_name : str;
  sc_secret_hint : str;
  sc_created_at : N;
  sc_expires_at : option N;
  sc_last_used_at : option N;
  sc_revoked_at : option N
}.

Record ServiceAccountRecord := mkServiceAccount {
  sa_id : Uuid;
  sa_name : str;
  sa_description : str;
  sa_status : ServiceAccountStatusRecord;
  sa_scopes : list str;
  sa_credentials : list ServiceAccountCredentialRecord;
  sa_created_at : N;
  sa_created_by : Uuid;
  sa_last_used_at : option N
}.

Record ServiceAccountGrant := mkGrant { g_service_account_id : Uuid; g_scopes : list str }.
Record ServiceCredentialLocator := mkLocator { l_service_account_id : Uuid; l_credential_id : Uuid }.

Definition service_account_key `{ExtUuid} (id : Uuid) : str := SERVICE_ACCOUNT_PREFIX ++ uuid_show id.
Definition service_credential_key `{ExtCrypto} (secret : str) : str :=
  SERVICE_CREDENTIAL_PREFIX ++ hex_encode (sha256 (bytes secret)).

Definition is_credential (id : Uuid) (c : ServiceAccountCredentialRecord) : bool := bool_decide (sc_id c = id).
Definition set_revoked (at_ : N) (c : ServiceAccountCredentialRecord) : ServiceAccountCredentialRecord :=
  mkServiceCredential (sc_id c) (sc_name c) (sc_secret_hint c) (sc_created_at c) (sc_expires_at c)
    (sc_last_used_at c) (Some at_).
Definition set_credential_used (at_ : N) (c : ServiceAccountCredentialRecord) : ServiceAccountCredentialRecord :=
  mkServiceCredential (sc_id c) (sc_name c) (sc_secret_hint c) (sc_created_at c) (sc_expires_at c)
    (Some at_) (sc_revoked_at c).
Definition set_credentials (l : list ServiceAccountCredentialRecord) (a : ServiceAccountRecord) : ServiceAccountRecord :=
  mkServiceAccount (sa_id a) (sa_name a) (sa_description a) (sa_status a) (sa_scopes a) l (sa_created_at a)
    (sa_created_by a) (sa_last_used_at a).

(** The last six characters of the secret. *)
Definition secret_hint (raw : str) : str := rev (take 6 (rev raw)).

(** Neither revoked nor expired at [current]. *)
Definition credential_usable (current : N) (c : ServiceAccountCredentialRecord) : bool :=
  negb (is_some (sc_revoked_at c)) && match sc_expires_at c with Some expiry => current <? expiry | None => true end.

Definition mem_str (x : str) (l : list str) : bool := existsb (λ y, bool_decide (y = x)) l.

Section ServiceAccounts.
Context `{Env}.
Context `{!Serde AuthEvent, !Serde ServiceAccountRecord, !Serde ServiceCredentialLocator}.

Definition service_account (id : Uuid) : M error (option ServiceAccountRecord) := get_json (service_account_key id).

Definition listed_account (id : Uuid) : M error ServiceAccountRecord :=
  found ← service_account id;
  some_or (EBail "service account disappeared during listing") found.

Definition service_accounts : M error (list ServiceAccountRecord) :=
  ids ← record_ids SERVICE_ACCOUNT_PREFIX;
  mapM_ listed_account ids.

Definition create_service_account (self : Store) (name description : str) (scopes : list str) (created_by : Uuid) :
    M error ServiceAccountRecord :=
  id ← new_v4;
  created_at ← now;
  let account := mkServiceAccount id name description SAActive scopes [] created_at created_by None in
  events ← pending_events self [(#"service_account.created", Some (sa_id account))];
  execute ([SET (service_account_key (sa_id account)) (to_json account)] ++ queue_events events);;
  mret account.

Definition update_service_account (self : Store) (id : Uuid) (name description : str)
    (status : ServiceAccountStatusRecord) (scopes : list str) : M error ServiceAccountRecord :=
  found ← service_account id;
  account ← some_or (EPolicy ServiceAccountMissing) found;
  let account := mkServiceAccount (sa_id account) name description status scopes (sa_credentials account)
                   (sa_created_at account) (sa_created_by account) (sa_last_used_at account) in
  events ← pending_events self [(#"service_account.updated", Some (sa_id account))];
  execute ([SET (service_account_key id) (to_json account)] ++ queue_events events);;
  mret account.

Definition create_service_credential (self : Store) (service_account_id : Uuid) (name : str) (expires_at : option N) :
    M error (ServiceAccountCredentialRecord * str) :=
  found ← service_account service_account_id;
  account ← some_or (EPolicy ServiceAccountMissing) found;
  random ← random_bytes 32;
  let raw := #"rsa_" ++ b64url_encode random in
  id ← new_v4;
  created_at ← now;
  let credential := mkServiceCredential id name (secret_hint raw) created_at expires_at None None in
  let locator_key := service_credential_key raw in
  taken ← get locator_key;
  ensure (negb (is_some taken)) (EBail "service account credential collision");;
  let locator := mkLocator service_account_id (sc_id credential) in
  let account := set_credentials (sa_credentials account ++ [credential]) account in
  events ← pending_events self [(#"service_account.credential.created", Some service_account_id)];
  execute ([SET (service_account_key service_account_id) (to_json account); SET locator_key (to_json locator)]
           ++ queue_events events);;
  mret (credential, raw).

(** The keys of one batch whose locator names the credential; a locator that
    cannot be read is skipped. *)
Fixpoint matching_locators (credential_id : Uuid) (batch : list str) : M error (list str) :=
  match batch with
  | [] => mret []
  | key :: batch =>
      r ← attempt (get_json key);
      rest ← matching_locators credential_id batch;
      mret (match r : result error (option ServiceCredentialLocator) with
            | Ok (Some locator) => if bool_decide (l_credential_id locator = credential_id) then key :: rest else rest
            | _ => rest
            end)
  end.

Fixpoint locator_batches (credential_id : Uuid) (batches : list (list str)) (scanned : N) : M error (list str) :=
  match batches with
  | [] => mret []
  | batch :: batches =>
      let scanned := scanned + N.of_nat (length batch) in
      keys ← matching_locators credential_id batch;
      ensure (negb (MAX_SNAPSHOT_KEYS <? scanned))
        (EBail "RustyAuth service credential namespace exceeds the safety limit");;
      rest ← locator_batches credential_id batches scanned;
      mret (keys ++ rest)
  end.

Definition service_credential_locator_keys (credential_id : Uuid) : M error (list str) :=
  batches ← scan SERVICE_CREDENTIAL_PREFIX;
  locator_batches credential_id batches 0.

Definition revoke_service_credential (self : Store) (service_account_id credential_id : Uuid) :
    M error ServiceAccountCredentialRecord :=
  locator_keys ← service_credential_locator_keys credential_id;
  found ← service_account service_account_id;
  account ← some_or (EPolicy ServiceAccountMissing) found;
  credential ← some_or (EPolicy ServiceCredentialMissing)
                 (List.find (is_credential credential_id) (sa_credentials account));
  credential ← (if is_some (sc_revoked_at credential) then mret credential
                else t ← now; mret (set_revoked t credential));
  let account := set_credentials
    (update_first (is_credential credential_id) (λ _, credential) (sa_credentials account)) account in
  events ← pending_events self [(#"service_account.credential.revoked", Some service_account_id)];
  execute ([SET (service_account_key service_account_id) (to_json account)]
           ++ ((λ key, DEL [key]) <$> locator_keys) ++ queue_events events);;
  mret credential.

Definition invalid_service_credential : error := EPolicy InvalidServiceCredential.

Definition exchange_service_credential (self : Store) (raw : str) (requested_scopes : list str) :
    M error ServiceAccountGrant :=
  ensure (negb ((len raw <? 40) || (128 <? len raw) || negb (starts_with #"rsa_" raw))) invalid_service_credential;;
  found ← get_json (service_credential_key raw);
  locator ← some_or invalid_service_credential (found : option ServiceCredentialLocator);
  found ← service_account (l_service_account_id locator);
  account ← some_or invalid_service_credential found;
  ensure (bool_decide (sa_status account = SAActive)) invalid_service_credential;;
  current ← now;
  credential ← some_or invalid_service_credential
                 (List.find (is_credential (l_credential_id locator)) (sa_credentials account));
  ensure (credential_usable current credential) invalid_service_credential;;
  ensure (forallb (λ scope, mem_str scope (sa_scopes account)) requested_scopes) (EPolicy ServiceScopeDenied);;
  let account := mkServiceAccount (sa_id account) (sa_name account) (sa_description account) (sa_status account)
    (sa_scopes account)
    (update_first (is_credential (l_credential_id locator)) (set_credential_used current) (sa_credentials account))
    (sa_created_at account) (sa_created_by account) (Some current) in
  let scopes := match requested_scopes with [] => sa_scopes account | _ => requested_scopes end in
  events ← pending_events self [(#"service_account.credential.authenticated", Some (sa_id account))];
  execute ([SET (service_account_key (sa_id account)) (to_json account)] ++ queue_events events);;
  mret (mkGrant (sa_id account) scopes).

(** ** Stored accounts and revoked credentials *)

Definition stored_service (m : gmap str entry) (id : Uuid) (a : ServiceAccountRecord) : Prop :=
  m !! service_account_key id = Some (Entry (to_json a) None) ∧ sa_id a = id.

(** Every record of the family is stored under its own identifier. *)
Definition services_ok (m : gmap str entry) : Prop :=
  ∀ id e, m !! service_account_key id = Some e → ∃ a, e = Entry (to_json a) None ∧ sa_id a = id.

Definition revoked_in (id : Uuid) (l : list ServiceAccountCredentialRecord) : Prop :=
  ∃ c, List.find (is_credential id) l = Some c ∧ is_some (sc_revoked_at c) = true.

(** The credential is revoked in the stored account. *)
Definition revoked_at (m : gmap str entry) (account credential : Uuid) : Prop :=
  ∃ a, stored_service m account a ∧ revoked_in credential (sa_credentials a).

(** A state change that keeps the family well formed and revocations in force. *)
Definition services_step (m m' : gmap str entry) : Prop :=
  services_ok m → services_ok m' ∧ ∀ a c, revoked_at m a c → revoked_at m' a c.

#[global] Instance services_step_preorder : PreOrder services_step.
Proof.
  split; [by intros m Hm|]. intros m1 m2 m3 H1 H2 Hm. destruct (H1 Hm) as [Hm2 Hr]. destruct (H2 Hm2). auto.
Qed.

Definition is_service_key (k : str) : bool := starts_with SERVICE_ACCOUNT_PREFIX k.

Lemma service_key_prefix id : is_service_key (service_account_key id) = true.
Proof. apply starts_with_spec. by eexists. Qed.

Lemma off_log_services : off_log is_service_key.
Proof. intros k Hk. apply starts_with_spec in Hk as [s ->]. done. Qed.

#[global] Instance service_account_key_inj : Inj (=) (=) service_account_key.
Proof. intros a b Hab. by apply app_inv_head, (inj uuid_show) in Hab. Qed.

Lemma services_step_agree m m' : agree_on (λ k, is_service_key k = true) m m' → services_step m m'.
Proof.
  intros Ha Hm. split.
  - intros id e He. rewrite Ha in He by apply service_key_prefix. by apply Hm.
  - intros a c (r & [Hs Hid] & Hr). exists r. split; [|done]. split; [|done]. by rewrite Ha by apply service_key_prefix.
Qed.

Lemma stored_service_inj m id a a' : stored_service m id a → stored_service m id a' → a = a'.
Proof.
  intros [Ha _] [Ha' _]. rewrite Ha in Ha'. simplify_eq.
  apply (f_equal (from_json (A:=ServiceAccountRecord))) in Ha'. rewrite !from_to_json in Ha'. by simplify_eq.
Qed.

(** Writing an account over the one that is stored. *)
Lemma services_step_put m id a a' :
  stored_service m id a → sa_id a' = id →
  (∀ c, revoked_in c (sa_credentials a) → revoked_in c (sa_credentials a')) →
  services_step m (<[service_account_key id := Entry (to_json a') None]> m).
Proof.
  intros Hs Hid Hkept Hm. split.
  - intros id' e. destruct (decide (id' = id)) as [->|Hne].
    + rewrite lookup_insert_eq. intros [= <-]. by exists a'.
    + rewrite lookup_insert_ne by (by intros ?%(inj _)). apply Hm.
  - intros id' c (b & Hb & Hr). destruct (decide (id' = id)) as [->|Hne].
    + exists a'. rewrite (stored_service_inj _ _ _ _ Hb Hs) in Hr. split; [split; [apply lookup_insert_eq|done]|auto].
    + exists b. split; [|done]. destruct Hb as [Hb ?]. split; [|done]. by rewrite lookup_insert_ne by (by intros ?%(inj _)).
Qed.

(** A fresh account. *)
Lemma services_step_new m id a :
  m !! service_account_key id = None → sa_id a = id →
  services_step m (<[service_account_key id := Entry (to_json a) None]> m).
Proof.
  intros Hn Hid Hm. split.
  - intros id' e. destruct (decide (id' = id)) as [->|Hne].
    + rewrite lookup_insert_eq. intros [= <-]. by exists a.
    + rewrite lookup_insert_ne by (by intros ?%(inj _)). apply Hm.
  - intros id' c (b & [Hb ?] & Hr). exists b. split; [|done]. split; [|done].
    rewrite lookup_insert_ne; [done|]. intros ?%(inj _). subst. congruence.
Qed.

(** The pipelines that write one account, other families and events. *)
Lemma service_commit m k v cs evs t :
  untouched is_service_key cs = true → is_service_key k = true →
  agree_on (λ k, is_service_key k = true) (<[k := Entry v None]> m)
    (exec_pipe t ([SET k v] ++ cs ++ queue_events evs) m).2.
Proof.
  intros Hu Hk k' Hk'. rewrite app_assoc, commit_agree by (by apply off_log_services).
  rewrite exec_pipe_app. cbn [exec_pipe exec_cmd snd]. by apply untouched_agree with (P := is_service_key).
Qed.

Lemma wp_service_commit m k v cs evs o w (Q : result error unit → world → Prop) :
  vw w = m → untouched is_service_key cs = true → is_service_key k = true →
  services_step m (<[k := Entry v None]> m) →
  (∀ w', services_step m (vw w') → Q (Err EDb) w') →
  (∀ w' t, services_step m (vw w') → vw w' !! k = Some (Entry v None) →
     vw w' = (exec_pipe t ([SET k v] ++ cs ++ queue_events evs) m).2 → Q (Ok tt) w') →
  wp (execute ([SET k v] ++ cs ++ queue_events evs)) o w Q.
Proof.
  intros <- Hu Hk Hs He Hok.
  assert (Hstep : ∀ t, services_step (vw w) (exec_pipe t ([SET k v] ++ cs ++ queue_events evs) (vw w)).2).
  { intros t. etrans; [exact Hs|]. by apply services_step_agree, service_commit. }
  apply wp_execute_view.
  - intros w' t _ [Hv|Hv]; apply He; rewrite Hv; [done|apply Hstep].
  - intros w' t _ Hv. apply (Hok w' t); rewrite Hv; [apply Hstep| |done]. rewrite service_commit by done. apply lookup_insert_eq.
Qed.

Lemma wp_service_account id o w (Q : result error (option ServiceAccountRecord) → world → Prop) :
  services_ok (vw w) → (∀ w', vw w' = vw w → Q (Err EDb) w') →
  (∀ w', vw w' = vw w → vw w !! service_account_key id = None → Q (Ok None) w') →
  (∀ a w', vw w' = vw w → w_now w' = w_now w → stored_service (vw w) id a → Q (Ok (Some a)) w') →
  wp (service_account id) o w Q.
Proof.
  intros Hok He Hn Hs. apply wp_get_json; [intros d _ Hv; by apply He|]. intros d Hv.
  destruct (vw w !! service_account_key id) as [e|] eqn:Hk; [|rewrite live_missing by done; auto].
  destruct (Hok _ _ Hk) as (a & -> & Hid). rewrite (live_persistent _ _ _ _ Hk), from_to_json. by apply Hs.
Qed.

(** *** Updating one credential *)

Lemma update_first_found {A : Type} (p : A → bool) f l x :
  List.find p l = Some x → update_first p (λ _, f x) l = update_first p f l.
Proof.
  induction l as [|y l IH]; simpl; [done|]. destruct (p y); [by intros [= ->]|]. intros Hf. by rewrite IH.
Qed.

Lemma find_update id f l c :
  (∀ c, sc_id (f c) = sc_id c) → List.find (is_credential id) l = Some c →
  List.find (is_credential id) (update_first (is_credential id) f l) = Some (f c).
Proof.
  intros Hf. induction l as [|y l IH]; simpl; [done|]. destruct (is_credential id y) eqn:Hy; simpl.
  - intros [= ->]. assert (is_credential id (f c) = true) as -> by (unfold is_credential in *; by rewrite Hf). done.
  - intros Hc. rewrite Hy. by apply IH.
Qed.

Lemma find_update_ne id id' f l :
  (∀ c, sc_id (f c) = sc_id c) → id' ≠ id →
  List.find (is_credential id') (update_first (is_credential id) f l) = List.find (is_credential id') l.
Proof.
  intros Hf Hne. induction l as [|y l IH]; simpl; [done|]. destruct (is_credential id y) eqn:Hy; simpl; [|by rewrite IH].
  unfold is_credential in *. rewrite Hf. apply bool_decide_eq_true in Hy. rewrite Hy.
  by rewrite bool_decide_eq_false_2 by congruence.
Qed.

Lemma revoked_in_update id f l c :
  (∀ c, sc_id (f c) = sc_id c) → (∀ c, is_some (sc_revoked_at c) = true → is_some (sc_revoked_at (f c)) = true) →
  revoked_in c l → revoked_in c (update_first (is_credential id) f l).
Proof.
  intros Hf Hr (x & Hx & Hxr). destruct (decide (c = id)) as [->|Hne].
  - exists (f x). split; [by apply find_update|auto].
  - exists x. by rewrite find_update_ne.
Qed.

Lemma find_app_l {A : Type} (p : A → bool) l l' x : List.find p l = Some x → List.find p (l ++ l') = Some x.
Proof. induction l as [|y l IH]; simpl; [done|]. by destruct (p y). Qed.

Lemma revoked_in_app l l' c : revoked_in c l → revoked_in c (l ++ l').
Proof. intros (x & Hx & Hr). exists x. split; [by apply find_app_l|done]. Qed.

(** *** Every operation keeps revocations in force *)

Lemma wp_update_service_account self id name desc status scopes o w :
  services_ok (vw w) →
  wp (update_service_account self id name desc status scopes) o w (λ _ w', services_step (vw w) (vw w')).
Proof.
  intros Hok. apply wp_bind, wp_service_account; [done|by intros w' ->|intros w' Hv _|].
  { apply wp_bind, wp_some_or; [done|]. intros _. by rewrite Hv. }
  intros a w1 Hv1 _ Hs. apply wp_bind, wp_some_or; [|done]. intros ? [= <-]. cbv zeta.
  apply wp_bind, wp_pending_any; [intros e w2 Hv2 _; by rewrite Hv2, Hv1|]. intros evs w2 Hv2.
  apply wp_bind. apply (wp_service_commit (vw w) _ _ [] evs); [congruence|done|apply service_key_prefix| |done|].
  - destruct (Hs). by apply (services_step_put _ _ a).
  - intros w' t Hstep _ _. by apply wp_ret.
Qed.

Lemma wp_create_service_account self name desc scopes by_ o w :
  vw w !! service_account_key (o_uuid o (w_uuid w)) = None →
  wp (create_service_account self name desc scopes by_) o w (λ _ w', services_step (vw w) (vw w')).
Proof.
  intros Hfresh. apply wp_bind. unfold wp at 1. cbn [new_v4]. apply wp_bind, wp_now. cbv zeta.
  apply wp_bind, wp_pending_any; [intros e w2 Hv2 _; by rewrite Hv2|]. intros evs w2 Hv2.
  apply wp_bind. apply (wp_service_commit (vw w) _ _ [] evs); [done|done|apply service_key_prefix| |done|].
  - by apply services_step_new.
  - intros w' t Hstep _ _. by apply wp_ret.
Qed.

(** What a successful creation of a credential leaves behind. *)
Definition issued (m m' : gmap str entry) (account : Uuid) (c : ServiceAccountCredentialRecord) (raw : str) : Prop :=
  ∃ a, stored_service m account a ∧
    stored_service m' account (set_credentials (sa_credentials a ++ [c]) a) ∧
    m' !! service_credential_key raw = Some (Entry (to_json (mkLocator account (sc_id c))) None) ∧
    ∃ random, length random = 32%nat ∧ raw = #"rsa_" ++ b64url_encode random.

Lemma locator_not_service k : starts_with SERVICE_CREDENTIAL_PREFIX k = true → is_service_key k = false.
Proof. intros Hk. apply starts_with_spec in Hk as [s ->]. done. Qed.

Definition credential_outcome (m : gmap str entry) (account : Uuid) (expires : option N)
    (r : result error (ServiceAccountCredentialRecord * str)) (w' : world) : Prop :=
  services_step m (vw w') ∧
  ∀ c raw, r = Ok (c, raw) → issued m (vw w') account c raw ∧ sc_expires_at c = expires ∧ sc_revoked_at c = None.

Lemma wp_create_service_credential self account name expires o w :
  services_ok (vw w) →
  wp (create_service_credential self account name expires) o w (credential_outcome (vw w) account expires).
Proof.
  intros Hok.
  assert (Hsame : ∀ e w', vw w' = vw w → credential_outcome (vw w) account expires (Err e) w')
    by (intros e w' Hv; unfold credential_outcome; by rewrite Hv).
  apply wp_bind, wp_service_account; [done|intros; by apply Hsame|intros w' Hv _|].
  { apply wp_bind, wp_some_or; [done|]. intros _. by apply Hsame. }
  intros a w1 Hv1 _ Hs. apply wp_bind, wp_some_or; [|done]. intros ? [= <-].
  apply wp_bind, wp_random_bytes. intros random w2 Hlen Hdb2 _ _. cbv zeta. set (raw := _ ++ b64url_encode random).
  apply wp_bind, wp_new_v4. intros id w3 Hdb3 _ _. apply wp_bind, wp_now.
  assert (Hv3 : vw (tick w3) = vw w) by (unfold vw in *; simpl; congruence).
  apply wp_bind, wp_get_view; [intros w' Hv _; apply Hsame; congruence|]. intros t w4 Hv4.
  apply wp_bind, wp_ensure; [|intros _; apply Hsame; congruence]. intros _.
  apply wp_bind, wp_pending_any; [intros e w5 Hv5 _; apply Hsame; congruence|]. intros evs w5 Hv5. cbn [sc_id].
  set (c := mkServiceCredential _ _ _ _ _ _ _). set (a' := set_credentials _ a).
  apply wp_bind. apply (wp_service_commit (vw w) _ _ [SET (service_credential_key raw) (to_json (mkLocator account id))] evs);
    [congruence|done|apply service_key_prefix| |by split|].
  - apply (services_step_put _ _ a); [done|by destruct Hs|]. intros x. apply revoked_in_app.
  - intros w' t' Hstep Hk Hv. apply wp_ret. split; [done|]. intros ? ? [= <- <-]. split_and!; [|done|done].
    exists a. split_and!; [done|split; [done|by destruct Hs]| |by exists random].
    rewrite Hv, app_assoc, commit_agree by done. cbn [exec_pipe exec_cmd snd app]. by rewrite lookup_insert_eq.
Qed.

Lemma matching_locators_reads id batch : moves eq (matching_locators id batch).
Proof. induction batch as [|k batch IH]; cbn [matching_locators]; moves_go. Qed.

Lemma locator_keys_reads id : moves eq (service_credential_locator_keys id).
Proof.
  unfold service_credential_locator_keys. apply moves_bind; [apply _|moves_go|]. intros batches. generalize 0.
  induction batches as [|b batches IH]; intros n; cbn [locator_batches]; moves_go. apply matching_locators_reads.
Qed.

(** Only locators are removed. *)
Definition locators (ks : list str) : Prop := ∀ k, k ∈ ks → starts_with SERVICE_CREDENTIAL_PREFIX k = true.

Lemma scan_returns p : returns (λ bs, ∀ k, k ∈ concat bs → starts_with p k = true) (scan p).
Proof.
  intros o w bs w'. unfold scan. destruct (t_fate _); [|done..]. intros [= <- _] k Hk. by apply db_scan_spec in Hk as [? _].
Qed.

Lemma matching_locators_returns id batch : returns (λ ks, ∀ k, k ∈ ks → k ∈ batch) (matching_locators id batch).
Proof.
  induction batch as [|k batch IH]; cbn [matching_locators]; [by apply returns_ret|].
  apply returns_then. intros r. apply (returns_bind _ _ _ _ IH). intros rest Hrest. apply returns_ret.
  intros x Hx. apply elem_of_cons. destruct r as [[l|]|e]; [destruct (bool_decide _)| |]; auto.
  apply elem_of_cons in Hx as [->|Hx]; auto.
Qed.

Lemma locator_keys_returns id : returns locators (service_credential_locator_keys id).
Proof.
  apply (returns_bind _ _ _ _ (scan_returns _)). intros batches. generalize 0.
  induction batches as [|b batches IH]; intros n Hb; cbn [locator_batches]; [by apply returns_ret|].
  apply (returns_bind _ _ _ _ (matching_locators_returns id b)). intros keys Hkeys. apply returns_then. intros _.
  apply (returns_bind _ _ _ _ (IH _ (λ k Hk, Hb k (proj2 (elem_of_app _ _ _) (or_intror Hk))))). intros rest Hrest.
  apply returns_ret. intros k [Hk|Hk]%elem_of_app; [apply Hb, elem_of_app; auto|auto].
Qed.

Lemma wp_locator_keys id o w (Q : result error (list str) → world → Prop) :
  (∀ e w', vw w' = vw w → Q (Err e) w') → (∀ ks w', vw w' = vw w → locators ks → Q (Ok ks) w') →
  wp (service_credential_locator_keys id) o w Q.
Proof.
  intros He Hok. pose proof (locator_keys_reads id o w) as Hv. pose proof (locator_keys_returns id o w) as Hr.
  unfold wp. destruct (service_credential_locator_keys id o w) as [[ks|e] w'] eqn:Hrun; simpl in Hv; [|by apply He].
  apply Hok; [done|by eapply Hr].
Qed.

Lemma locators_off (P : str → bool) ks :
  (∀ k, starts_with SERVICE_CREDENTIAL_PREFIX k = true → P k = false) → locators ks →
  untouched P ((λ key, DEL [key]) <$> ks) = true.
Proof.
  intros HP Hk. unfold untouched, pipe_writes. apply forallb_forall. intros k Hin. apply list_elem_of_In in Hin.
  apply negb_true_iff, HP, Hk. induction ks as [|x ks IH]; simpl in *; [by apply elem_of_nil in Hin|].
  apply elem_of_cons in Hin as [->|Hin]; [by apply elem_of_cons; left|]. apply elem_of_cons. right.
  apply IH; [|done]. intros y Hy. apply Hk. by apply elem_of_cons; right.
Qed.

Lemma wp_revoke_service_credential self account credential o w :
  services_ok (vw w) →
  wp (revoke_service_credential self account credential) o w (λ r w', services_step (vw w) (vw w') ∧
    ∀ c, r = Ok c → sc_id c = credential ∧ is_some (sc_revoked_at c) = true ∧ revoked_at (vw w') account credential).
Proof.
  intros Hok. set (Q := λ (r : result error ServiceAccountCredentialRecord) w', _).
  assert (Hsame : ∀ e w', vw w' = vw w → Q (Err e) w') by (intros e w' Hv; unfold Q; by rewrite Hv).
  apply wp_bind, wp_locator_keys; [done|]. intros ks w0 Hv0 Hks. rewrite <- Hv0 in Hok.
  apply wp_bind, wp_service_account; [done|intros; apply Hsame; congruence|intros w' Hv _|].
  { apply wp_bind, wp_some_or; [done|]. intros _. apply Hsame. congruence. }
  intros a w1 Hv1 _ Hs. rewrite Hv0 in *. apply wp_bind, wp_some_or; [|done]. intros ? [= <-].
  apply wp_bind, wp_some_or; [|intros _; by apply Hsame]. intros c Hc.
  assert (Hid : sc_id c = credential).
  { apply List.find_some in Hc as [_ Hc]. unfold is_credential in Hc. by apply bool_decide_eq_true in Hc. }
  assert (Hgo : ∀ f w2, vw w2 = vw w → (∀ c, sc_id (f c) = sc_id c) → is_some (sc_revoked_at (f c)) = true →
    (∀ c, is_some (sc_revoked_at c) = true → is_some (sc_revoked_at (f c)) = true) →
    wp (events ← pending_events self [(#"service_account.credential.revoked", Some account)];
        execute ([SET (service_account_key account) (to_json (set_credentials
             (update_first (is_credential credential) (λ _, f c) (sa_credentials a)) a))]
           ++ ((λ key, DEL [key]) <$> ks) ++ queue_events events);; mret (f c)) o w2 Q).
  { intros f w2 Hv2 Hfid Hfr Hfk. apply wp_bind, wp_pending_any; [intros e w3 Hv3 _; apply Hsame; congruence|].
    intros evs w3 Hv3. apply wp_bind. rewrite (update_first_found _ f) by done.
    apply (wp_service_commit (vw w)); [congruence|by apply locators_off; [apply locator_not_service|]|apply service_key_prefix| |by split|].
    - destruct (Hs) as [_ Hsid]. apply (services_step_put _ _ a); [done|done|]. intros x. by apply revoked_in_update.
    - intros w' t' Hstep Hk _. apply wp_ret. split; [done|]. intros ? [= <-]. split_and!; [by rewrite Hfid|done|].
      eexists. split; [split; [done|by destruct Hs]|]. exists (f c). split; [by apply find_update|done]. }
  destruct (is_some (sc_revoked_at c)) eqn:Hrev; apply wp_bind.
  - apply wp_ret, (Hgo id); auto; congruence.
  - apply wp_bind, wp_now, wp_ret. by apply (Hgo (set_revoked (clock o w1))).
Qed.

(** What a grant is based on. *)
Record backed_grant (m : gmap str entry) (raw : str) (requested : list str) (current : N) (g : ServiceAccountGrant)
    (a : ServiceAccountRecord) (c : ServiceAccountCredentialRecord) : Prop := {
  bg_locator : ∃ t v, live t m (service_credential_key raw) = Some v ∧
    from_json v = Some (mkLocator (g_service_account_id g) (sc_id c));
  bg_account : stored_service m (g_service_account_id g) a;
  bg_active : sa_status a = SAActive;
  bg_credential : List.find (is_credential (sc_id c)) (sa_credentials a) = Some c;
  bg_usable : sc_revoked_at c = None ∧ ∀ expiry, sc_expires_at c = Some expiry → current < expiry;
  bg_scopes s : s ∈ g_scopes g → s ∈ sa_scopes a;
  bg_requested : requested ≠ [] → g_scopes g = requested;
  bg_all : requested = [] → g_scopes g = sa_scopes a
}.

Definition exchange_outcome (m : gmap str entry) (raw : str) (requested : list str) (current : N)
    (r : result error ServiceAccountGrant) (w' : world) : Prop :=
  services_step m (vw w') ∧ ∀ g, r = Ok g → ∃ a c, backed_grant m raw requested current g a c.

Lemma mem_str_elem x l : mem_str x l = true ↔ x ∈ l.
Proof.
  unfold mem_str. rewrite existsb_exists. setoid_rewrite bool_decide_eq_true. setoid_rewrite <- list_elem_of_In.
  split; [by intros (y & Hy & ->)|by exists x].
Qed.

Lemma backed_grant_intro m raw requested current a c t v :
  live t m (service_credential_key raw) = Some v → from_json v = Some (mkLocator (sa_id a) (sc_id c)) →
  stored_service m (sa_id a) a → sa_status a = SAActive →
  List.find (is_credential (sc_id c)) (sa_credentials a) = Some c → credential_usable current c = true →
  forallb (λ scope, mem_str scope (sa_scopes a)) requested = true →
  backed_grant m raw requested current
    (mkGrant (sa_id a) (match requested with [] => sa_scopes a | _ => requested end)) a c.
Proof.
  intros Hl Hj Hs Hact Hc Hu Hsc. apply andb_true_iff in Hu as [Hrev Hexp]. split; try done.
  - by exists t, v.
  - split; [by destruct (sc_revoked_at c)|]. intros e He. rewrite He in Hexp. lia.
  - intros s Hin. destruct requested as [|r0 rs]; [done|]. rewrite forallb_forall in Hsc.
    by apply mem_str_elem, Hsc, list_elem_of_In.
  - by destruct requested.
  - by intros ->.
Qed.

Lemma wp_exchange self raw requested o w :
  services_ok (vw w) →
  wp (exchange_service_credential self raw requested) o w (exchange_outcome (vw w) raw requested (clock o w)).
Proof.
  intros Hok.
  assert (Hsame : ∀ e w', vw w' = vw w → exchange_outcome (vw w) raw requested (clock o w) (Err e) w')
    by (intros e w' Hv; unfold exchange_outcome; by rewrite Hv).
  apply wp_bind, wp_ensure; [intros _|intros _; by apply Hsame].
  apply wp_bind, wp_get_json; [intros d _ Hd; by apply Hsame|]. intros d Hd.
  set (w1 := after_trip w d). change (db_view d) with (vw w1) in Hd. change (clock o w) with (clock o w1) in *.
  destruct (live (trip_time o w) (vw w) _) as [v|] eqn:Hl; [destruct (from_json v) as [loc|] eqn:Hj|]; [|by apply Hsame|].
  2:{ apply wp_bind, wp_some_or; [done|]. intros _. by apply Hsame. }
  apply wp_bind, wp_some_or; [|done]. intros ? [= <-]. rewrite <- Hd in Hok.
  apply wp_bind, wp_service_account; [done|intros; apply Hsame; congruence|intros w' Hv _|].
  { apply wp_bind, wp_some_or; [done|]. intros _. apply Hsame. congruence. }
  intros a w2 Hv2 Hnow Hs. rewrite Hd in Hv2, Hs. apply wp_bind, wp_some_or; [|done]. intros ? [= <-].
  apply wp_bind, wp_ensure; [|intros _; apply Hsame; congruence]. intros Hact%bool_decide_eq_true.
  apply wp_bind, wp_now. replace (clock o w2) with (clock o w1) by (unfold clock; congruence).
  apply wp_bind, wp_some_or; [|intros _; by apply Hsame]. intros c Hc.
  apply wp_bind, wp_ensure; [|intros _; by apply Hsame]. intros Hu.
  apply wp_bind, wp_ensure; [|intros _; by apply Hsame]. intros Hsc. cbv zeta.
  apply wp_bind, wp_pending_any; [intros e w3 Hv3 _; apply Hsame; by rewrite Hv3|]. intros evs w3 Hv3.
  apply wp_bind. cbn [sa_id sa_scopes]. destruct (Hs) as [_ Hsid].
  apply (wp_service_commit (vw w) _ _ [] evs); [by rewrite Hv3|done|apply service_key_prefix| |by split|].
  - rewrite Hsid. apply (services_step_put _ _ a); [done|done|]. intros x. by apply revoked_in_update.
  - intros w' t' Hstep _ _. apply wp_ret. split; [done|]. intros g [= <-]. exists a, c.
    assert (Hid : sc_id c = l_credential_id loc).
    { apply List.find_some in Hc as [_ Hf]. unfold is_credential in Hf. by apply bool_decide_eq_true in Hf. }
    eapply backed_grant_intro; [done| |by rewrite Hsid|done|by rewrite Hid|done|done].
    rewrite Hj, Hsid, Hid. by destruct loc.
Qed.

(** One operation on service accounts (a new account has an identifier that is not
    in use), or any operation that leaves the family alone. *)
Inductive service_step (self : Store) : world → world → Prop :=
  | step_create name desc scopes by_ o w :
      vw w !! service_account_key (o_uuid o (w_uuid w)) = None →
      service_step self w (create_service_account self name desc scopes by_ o w).2
  | step_update id name desc status scopes o w :
      service_step self w (update_service_account self id name desc status scopes o w).2
  | step_credential id name expires o w :
      service_step self w (create_service_credential self id name expires o w).2
  | step_revoke id credential o w :
      service_step self w (revoke_service_credential self id credential o w).2
  | step_exchange raw requested o w :
      service_step self w (exchange_service_credential self raw requested o w).2
  | step_elsewhere w w' : agree_on (λ k, is_service_key k = true) (vw w) (vw w') → service_step self w w'.

Lemma service_step_ok self w w' : service_step self w w' → services_step (vw w) (vw w').
Proof.
  intros Hstep Hok. destruct Hstep as [name desc scopes by_ o w Hf|id name desc st scopes o w|id name ex o w|id c o w|raw rq o w|w w' Ha].
  - by apply (wp_create_service_account self name desc scopes by_ o w).
  - by apply (wp_update_service_account self id name desc st scopes o w).
  - by apply (wp_create_service_credential self id name ex o w).
  - by apply (wp_revoke_service_credential self id c o w).
  - by apply (wp_exchange self raw rq o w).
  - by apply services_step_agree.
Qed.

Lemma service_steps_ok self w w' : rtc (service_step self) w w' → services_step (vw w) (vw w').
Proof. induction 1 as [|w1 w2 w3 H1 _ IH]; [done|]. etrans; [by eapply service_step_ok|done]. Qed.

(** C20: a service secret is exchanged only while its credential is in force.  After
    a credential was revoked, and after any further operations on service accounts
    with requests and replies lost at will, every exchange that succeeds is backed
    by the locator of the presented secret, an active account, a credential of it
    that is unrevoked and unexpired at the moment of the exchange and is not the
    revoked one, and scopes the account has. *)
Theorem revoked_credential_refused self account credential o w rc w1 w2 raw requested o' g w3 :
  services_ok (vw w) → revoke_service_credential self account credential o w = (Ok rc, w1) →
  rtc (service_step self) w1 w2 → exchange_service_credential self raw requested o' w2 = (Ok g, w3) →
  ∃ a c, backed_grant (vw w2) raw requested (clock o' w2) g a c ∧
    ¬ (g_service_account_id g = account ∧ sc_id c = credential).
Proof.
  intros Hok Hrev Hrun Hex. pose proof (wp_revoke_service_credential self account credential o w Hok) as Hr.
  unfold wp in Hr. rewrite Hrev in Hr. destruct Hr as [Hstep Hr]. destruct (Hr rc eq_refl) as (_ & _ & Hdead).
  destruct (Hstep Hok) as [Hok1 _]. destruct (service_steps_ok _ _ _ Hrun Hok1) as [Hok2 Hkeep].
  pose proof (wp_exchange self raw requested o' w2 Hok2) as Hx. unfold wp in Hx. rewrite Hex in Hx.
  destruct (proj2 Hx g eq_refl) as (a & c & Hg). exists a, c. split; [done|]. intros [<- <-].
  destruct (Hkeep _ _ Hdead) as (a' & Hs & c' & Hf & Hc). destruct Hg as [_ Hs' _ Hc' [Hu _] _ _ _].
  rewrite (stored_service_inj _ _ _ _ Hs Hs'), Hc' in Hf. simplify_eq. by rewrite Hu in Hc.
Qed.

(** ** The log and the accounts *)

Lemma create_service_account_extends self n d s b : moves log_extends (create_service_account self n d s b).
Proof. unfold create_service_account. log_go. Qed.
Lemma update_service_account_extends self i n d st s : moves log_extends (update_service_account self i n d st s).
Proof. unfold update_service_account, service_account. log_go. Qed.
Lemma create_service_credential_extends self i n e : moves log_extends (create_service_credential self i n e).
Proof. unfold create_service_credential, service_account. log_go. Qed.
Lemma exchange_service_credential_extends self raw rq : moves log_extends (exchange_service_credential self raw rq).
Proof. unfold exchange_service_credential, service_account. log_go. Qed.

Lemma revoke_service_credential_extends self i c : moves log_extends (revoke_service_credential self i c).
Proof.
  unfold revoke_service_credential, service_account. apply (moves_bind_returns _ _ _ _ (locator_keys_returns c)).
  { eapply moves_mono; [|apply locator_keys_reads]. by intros ?? ->. }
  intros ks Hks. do 3 (apply moves_bind; [apply _|moves_go|intros ?]). apply moves_bind; [apply _|moves_go|intros ?].
  cbv zeta. apply moves_pending. intros evs hi Hnum Hfor. rewrite app_assoc.
  apply from_hi_commit; [done| |apply moves_ret, _]. unfold log_foreign.
  set (c0 := SET _ _). change (untouched is_log_key ((λ key, DEL [key]) <$> ks) = true).
  apply locators_off; [|done]. intros k Hk. by apply starts_with_spec in Hk as [s ->].
Qed.

Lemma create_service_account_accounts self n d s b : leaves is_account_key (create_service_account self n d s b).
Proof. unfold create_service_account. leaves_go off_log_accounts. Qed.
Lemma update_service_account_accounts self i n d st s : leaves is_account_key (update_service_account self i n d st s).
Proof. unfold update_service_account, service_account. leaves_go off_log_accounts. Qed.
Lemma create_service_credential_accounts self i n e : leaves is_account_key (create_service_credential self i n e).
Proof. unfold create_service_credential, service_account. leaves_go off_log_accounts. Qed.
Lemma exchange_service_credential_accounts self raw rq : leaves is_account_key (exchange_service_credential self raw rq).
Proof. unfold exchange_service_credential, service_account. leaves_go off_log_accounts. Qed.
Lemma revoke_service_credential_accounts self i c : leaves is_account_key (revoke_service_credential self i c).
Proof.
  unfold revoke_service_credential, service_account. apply (moves_bind_returns _ _ _ _ (locator_keys_returns c)).
  { eapply moves_mono; [|apply locator_keys_reads]. by intros ?? ->. }
  intros ks Hks. leaves_go off_log_accounts. rewrite app_assoc. apply leaves_commit; [exact off_log_accounts|].
  set (c0 := SET _ _). change (untouched is_account_key ((λ key, DEL [key]) <$> ks) = true).
  apply locators_off; [|done]. intros k Hk. by apply starts_with_spec in Hk as [s ->].
Qed.
End ServiceAccounts.

(** ** Witnesses *)

Import DemoEnv.

#[export] Program Instance codec_service_status : Codec ServiceAccountStatusRecord :=
  codec_iso (A:=bool) (λ r, match r with SAActive => false | SADisabled => true end)
    (λ b, Some (if b then SADisabled else SAActive)) _.
Next Obligation. by intros []. Qed.

#[export] Program Instance codec_service_credential : Codec ServiceAccountCredentialRecord :=
  codec_iso (λ r : ServiceAccountCredentialRecord, (sc_id r, (sc_name r, (sc_secret_hint r, (sc_created_at r,
      (sc_expires_at r, (sc_last_used_at r, sc_revoked_at r)))))))
    (λ '(a, (b, (c, (d, (e, (f, g)))))), Some (mkServiceCredential a b c d e f g)) _.
Next Obligation. by intros []. Qed.

#[export] Program Instance codec_service_account : Codec ServiceAccountRecord :=
  codec_iso (λ r : ServiceAccountRecord, (sa_id r, (sa_name r, (sa_description r, (sa_status r, (sa_scopes r,
      (sa_credentials r, (sa_created_at r, (sa_created_by r, sa_last_used_at r)))))))))
    (λ '(a, (b, (c, (d, (e, (f, (g, (h, i)))))))), Some (mkServiceAccount a b c d e f g h i)) _.
Next Obligation. by intros []. Qed.

#[export] Program Instance codec_locator : Codec ServiceCredentialLocator :=
  codec_iso (λ r : ServiceCredentialLocator, (l_service_account_id r, l_credential_id r))
    (λ '(a, b), Some (mkLocator a b)) _.
Next Obligation. by intros []. Qed.

(** An account with two credentials; the first one is revoked, the second one is
    exchanged. *)
Definition demo_machine_store : Store := mkStore #"t".
Abbreviation demo_machine :=
  (create_service_account demo_machine_store #"ci" [] [lit "events.read"] demo_id demo_oracle (demo_world [])).
Definition demo_machine_id : Uuid :=
  Eval vm_compute in match demo_machine.1 with Ok a => sa_id a | Err _ => demo_id end.
Abbreviation demo_first := (create_service_credential demo_machine_store demo_machine_id #"one" None demo_oracle demo_machine.2).
Abbreviation demo_second := (create_service_credential demo_machine_store demo_machine_id #"two" None demo_oracle demo_first.2).
Definition demo_first_credential : Uuid :=
  Eval vm_compute in match demo_first.1 with Ok (c, _) => sc_id c | Err _ => demo_id end.
Definition demo_second_secret : str := Eval vm_compute in match demo_second.1 with Ok (_, raw) => raw | Err _ => [] end.
Abbreviation demo_revoked :=
  (revoke_service_credential demo_machine_store demo_machine_id demo_first_credential demo_oracle demo_second.2).
Abbreviation demo_exchanged :=
  (exchange_service_credential demo_machine_store demo_second_secret [] demo_oracle demo_revoked.2).

Lemma services_ok_empty : services_ok (vw (demo_world [])).
Proof. intros id e He. exact (False_ind _ (lookup_empty_Some (service_account_key id) e He)). Qed.

Lemma demo_second_ok : services_ok (vw demo_second.2).
Proof.
  assert (Hrun : rtc (service_step demo_machine_store) (demo_world []) demo_second.2).
  { eapply rtc_l; [apply step_create; eval_eq|]. eapply rtc_l; [apply step_credential|]. eapply rtc_l; [apply step_credential|].
    apply rtc_refl. }
  by apply (service_steps_ok _ _ _ Hrun), services_ok_empty.
Qed.

Lemma revoked_credential_refused_witness :
  is_ok demo_revoked.1 = true ∧
  ∃ g a c, demo_exchanged.1 = Ok g ∧ g_scopes g = [lit "events.read"] ∧
    backed_grant (vw demo_revoked.2) demo_second_secret [] (clock demo_oracle demo_revoked.2) g a c ∧
    ¬ (g_service_account_id g = demo_machine_id ∧ sc_id c = demo_first_credential).
Proof.
  assert (Hr : is_ok demo_revoked.1 = true) by eval_eq. assert (Hx : is_ok demo_exchanged.1 = true) by eval_eq.
  split; [exact Hr|]. destruct (is_ok_run _ Hr) as [rc Hrc]. destruct (is_ok_run _ Hx) as [g Hg].
  exists g. assert (Hg1 : demo_exchanged.1 = Ok g) by (rewrite Hg; reflexivity).
  assert (Hs : g_scopes g = [lit "events.read"]).
  { assert (Hgs : match demo_exchanged.1 with Ok g => g_scopes g | Err _ => [] end = [lit "events.read"]) by eval_eq.
    rewrite Hg1 in Hgs. exact Hgs. }
  destruct (revoked_credential_refused demo_machine_store demo_machine_id demo_first_credential demo_oracle demo_second.2
    rc demo_revoked.2 demo_revoked.2 demo_second_secret [] demo_oracle g demo_exchanged.2) as (a & c & Hb & Hn);
    [exact demo_second_ok|exact Hrc|apply rtc_refl|exact Hg|].
  exists a, c. split_and!; [exact Hg1|exact Hs|exact Hb|exact Hn].
Defined.
