(* ===== verification/RemoteMutations.v ===== *)
(** * Fleet-initiated mutations (src/src/store/remote_mutations.rs)

    A request identifier is claimed before its side effect runs and its outcome is
    recorded afterwards, so that a request delivered twice runs once.  The receipt
    is one key with a lifetime.  [spec_step] is the abstract machine of one request
    and [receipt_refines] shows that the datastore implements it. *)

From S2P Require Import Prelude Sable Logic Demo Records Events Identifiers Users Invitations Accounts Sessions Touches Webhooks.

Definition REMOTE_MUTATION_PREFIX : str := #"auth:remote-mutation:".
Definition REMOTE_MUTATION_RETENTION_SECONDS : N := 24 * 60 * 60.

Inductive RemoteMutationState := RMPending | RMCompleted.

Record RemoteMutationReceipt := mkReceipt {
  rm_digest : str;
  rm_state : RemoteMutationState;
  rm_claimed_at : N;
  rm_completed_at : option N;
  rm_succeeded : option bool;
  rm_summary : str
}.

Inductive RemoteMutationClaim :=
  | Claimed
  | Completed (completed_at : N) (succeeded : bool) (summary : str).

Definition remote_mutation_key `{ExtUuid} (request_id : Uuid) : str := REMOTE_MUTATION_PREFIX ++ uuid_show request_id.

Section RemoteMutations.
Context `{Env}.
Context `{!Serde RemoteMutationReceipt}.

(** [SET key value NX|XX EX seconds] with an [Option<String>] reply. *)
Definition set_conditional (c : cmd) : M error bool :=
  rs ← query [c];
  lift (match rs with [ROk] => Ok true | [RNil] => Ok false | _ => Err EDb end).

(** [connection.get(&key)] as a [String]: a missing key is an error. *)
Definition get_string (k : str) : M error str :=
  v ← get k;
  some_or EDb v.

Definition read_receipt (k : str) : M error RemoteMutationReceipt :=
  existing ← get_string k;
  some_or EDecode (from_json existing).

Definition conflict : error := EPolicy RemoteMutationIdempotencyConflict.
Definition still_pending : error := EPolicy RemoteMutationPending.

Definition claim_remote_mutation (request_id : Uuid) (digest : str) : M error RemoteMutationClaim :=
  let key := remote_mutation_key request_id in
  claimed_at ← now;
  let receipt := mkReceipt digest RMPending claimed_at None None [] in
  inserted ← set_conditional (SET_NX_EX key (to_json receipt) REMOTE_MUTATION_RETENTION_SECONDS);
  if inserted : bool then mret Claimed else
  existing ← read_receipt key;
  ensure (bool_decide (rm_digest existing = digest)) conflict;;
  match rm_state existing, rm_completed_at existing with
  | RMCompleted, Some completed_at =>
      mret (Completed completed_at (default false (rm_succeeded existing)) (rm_summary existing))
  | _, _ => fail still_pending
  end.

Definition complete_remote_mutation (request_id : Uuid) (digest : str) (succeeded : bool) (summary : str) : M error N :=
  let key := remote_mutation_key request_id in
  receipt ← read_receipt key;
  ensure (bool_decide (rm_digest receipt = digest)) conflict;;
  match rm_state receipt with
  | RMCompleted => some_or still_pending (rm_completed_at receipt)
  | RMPending =>
      completed_at ← now;
      let receipt := mkReceipt (rm_digest receipt) RMCompleted (rm_claimed_at receipt) (Some completed_at)
                       (Some succeeded) summary in
      response ← set_conditional (SET_XX_EX key (to_json receipt) REMOTE_MUTATION_RETENTION_SECONDS);
      ensure response still_pending;;
      mret completed_at
  end.

(** ** The abstract machine of one request

    A held request has a digest, an outcome once it completed, and the time until
    which it is remembered. *)

Record held_request := mkHeld { h_digest : str; h_outcome : option (N * bool * str); h_until : N }.

Definition forgotten (t : N) (s : option held_request) : Prop :=
  match s with Some h => h_until h ≤ t | None => True end.

(** [during] holds of the times at which the round trips of the call run. *)
Inductive claim_spec (during : N → Prop) (digest : str) :
    option held_request → result error RemoteMutationClaim → option held_request → Prop :=
  | claim_granted t s : during t → forgotten t s →
      claim_spec during digest s (Ok Claimed) (Some (mkHeld digest None (t + REMOTE_MUTATION_RETENTION_SECONDS)))
  | claim_reply_lost t s : during t → forgotten t s →
      claim_spec during digest s (Err EDb) (Some (mkHeld digest None (t + REMOTE_MUTATION_RETENTION_SECONDS)))
  | claim_failed s : claim_spec during digest s (Err EDb) s
  | claim_repeated h at_ ok summary : h_digest h = digest → h_outcome h = Some (at_, ok, summary) →
      claim_spec during digest (Some h) (Ok (Completed at_ ok summary)) (Some h)
  | claim_busy h : h_digest h = digest → h_outcome h = None →
      claim_spec during digest (Some h) (Err still_pending) (Some h)
  | claim_conflict h : h_digest h ≠ digest → claim_spec during digest (Some h) (Err conflict) (Some h).

Inductive complete_spec (during : N → Prop) (digest : str) (ok : bool) (summary : str) :
    option held_request → result error N → option held_request → Prop :=
  | complete_recorded t at_ h : during t → t < h_until h → h_digest h = digest → h_outcome h = None →
      complete_spec during digest ok summary (Some h) (Ok at_)
        (Some (mkHeld digest (Some (at_, ok, summary)) (t + REMOTE_MUTATION_RETENTION_SECONDS)))
  | complete_reply_lost t at_ h : during t → t < h_until h → h_digest h = digest → h_outcome h = None →
      complete_spec during digest ok summary (Some h) (Err EDb)
        (Some (mkHeld digest (Some (at_, ok, summary)) (t + REMOTE_MUTATION_RETENTION_SECONDS)))
  | complete_failed s : complete_spec during digest ok summary s (Err EDb) s
  | complete_repeated h at_ ok' summary' : h_digest h = digest → h_outcome h = Some (at_, ok', summary') →
      complete_spec during digest ok summary (Some h) (Ok at_) (Some h)
  | complete_expired t h : during t → h_until h ≤ t → h_digest h = digest → h_outcome h = None →
      complete_spec during digest ok summary (Some h) (Err still_pending) (Some h)
  | complete_conflict h : h_digest h ≠ digest →
      complete_spec during digest ok summary (Some h) (Err conflict) (Some h).

(** ** The datastore implements it *)

Definition receipt_outcome (r : RemoteMutationReceipt) : option (N * bool * str) :=
  match rm_state r, rm_completed_at r with
  | RMCompleted, Some at_ => Some (at_, default false (rm_succeeded r), rm_summary r)
  | _, _ => None
  end.

Definition held_of (r : RemoteMutationReceipt) (until : N) : held_request :=
  mkHeld (rm_digest r) (receipt_outcome r) until.

Definition request_state (m : gmap str entry) (id : Uuid) : option held_request :=
  match m !! remote_mutation_key id with
  | Some (Entry v (Some until)) => (λ r, held_of r until) <$> from_json v
  | _ => None
  end.

Definition receipt_wf (r : RemoteMutationReceipt) : Prop := rm_state r = RMCompleted → is_Some (rm_completed_at r).

Definition receipts_ok (m : gmap str entry) : Prop :=
  ∀ id e, m !! remote_mutation_key id = Some e → ∃ r until, e = Entry (to_json r) (Some until) ∧ receipt_wf r.

Definition round_trips (o : oracle) (t : N) : Prop := ∃ i, t = t_at (o_trip o i).

#[global] Instance remote_mutation_key_inj : Inj (=) (=) remote_mutation_key.
Proof. intros a b Hab. by apply app_inv_head, (inj uuid_show) in Hab. Qed.

(** The receipt of [id] as a read at time [t] sees it. *)
Lemma receipt_cases t m id :
  receipts_ok m →
  (live t m (remote_mutation_key id) = None ∧ forgotten t (request_state m id)) ∨
  ∃ r until, receipt_wf r ∧ live t m (remote_mutation_key id) = Some (to_json r) ∧ t < until ∧
    request_state m id = Some (held_of r until).
Proof.
  intros Hok. unfold live, request_state. destruct (m !! remote_mutation_key id) as [e|] eqn:Hk; [|by left].
  destruct (Hok _ _ Hk) as (r & until & -> & Hwf). rewrite from_to_json. unfold expired. simpl.
  destruct (N.leb_spec until t) as [Hle|Hlt]; [left; by split|right; by exists r, until].
Qed.

Lemma receipts_ok_insert m id r until :
  receipts_ok m → receipt_wf r →
  receipts_ok (<[remote_mutation_key id := Entry (to_json r) (Some until)]> m).
Proof.
  intros Hok Hwf id' e. destruct (decide (id' = id)) as [->|Hne].
  - rewrite lookup_insert_eq. intros [= <-]. eauto.
  - rewrite lookup_insert_ne by (by intros ?%(inj _)). apply Hok.
Qed.

Lemma request_state_insert m id r until :
  request_state (<[remote_mutation_key id := Entry (to_json r) (Some until)]> m) id = Some (held_of r until).
Proof. unfold request_state. rewrite lookup_insert_eq. by rewrite from_to_json. Qed.

(** What a call on [id] did to the receipts, [spec] being the abstract step. *)
Definition implements {A : Type} (spec : option held_request → result error A → option held_request → Prop)
    (id : Uuid) (m : gmap str entry) (r : result error A) (w' : world) : Prop :=
  receipts_ok (vw w') ∧ spec (request_state m id) r (request_state (vw w') id) ∧
  ∀ k, k ≠ remote_mutation_key id → vw w' !! k = m !! k.

Lemma implements_same {A : Type} spec id m (r : result error A) w' :
  receipts_ok m → vw w' = m → spec (request_state m id) r (request_state m id) → implements spec id m r w'.
Proof. intros Hok <- Hs. by split_and!. Qed.

Lemma implements_write {A : Type} spec id m (r : result error A) w' rc until :
  receipts_ok m → receipt_wf rc → vw w' = <[remote_mutation_key id := Entry (to_json rc) (Some until)]> m →
  spec (request_state m id) r (Some (held_of rc until)) → implements spec id m r w'.
Proof.
  intros Hok Hwf Hv Hs. unfold implements. rewrite Hv, request_state_insert.
  split_and!; [by apply receipts_ok_insert|done|]. intros k Hk. by rewrite lookup_insert_ne.
Qed.

Lemma wp_read_receipt id o w (Q : result error RemoteMutationReceipt → world → Prop) :
  receipts_ok (vw w) → (∀ w', vw w' = vw w → Q (Err EDb) w') →
  (∀ r until w', vw w' = vw w → receipt_wf r → request_state (vw w) id = Some (held_of r until) → Q (Ok r) w') →
  wp (read_receipt (remote_mutation_key id)) o w Q.
Proof.
  intros Hok He Hq. apply wp_bind, wp_bind, wp_get_view; [intros w' Hv _; by apply He|]. intros t w' Hv.
  destruct (receipt_cases t (vw w) id Hok) as [[-> _]|(r & until & Hwf & -> & _ & Hs)].
  - apply wp_some_or; [done|]. intros _. by apply He.
  - apply wp_some_or; [|done]. intros ? [= <-]. rewrite from_to_json. apply wp_some_or; [|done].
    intros ? [= <-]. by apply (Hq r until).
Qed.

Lemma wp_claim_remote id digest o w :
  receipts_ok (vw w) →
  wp (claim_remote_mutation id digest) o w (implements (claim_spec (round_trips o) digest) id (vw w)).
Proof.
  intros Hok. unfold claim_remote_mutation. cbv zeta. apply wp_bind, wp_now. set (rc := mkReceipt _ _ _ _ _ _).
  assert (Hd : round_trips o (trip_time o (tick w))) by (by eexists).
  set (w1 := tick w) in *. change (vw w) with (vw w1) in *.
  assert (Hfail : ∀ w', vw w' = vw w1 → implements (claim_spec (round_trips o) digest) id (vw w1) (Err EDb) w').
  { intros w' Hv. apply implements_same; [done|done|apply claim_failed]. }
  destruct (receipt_cases (trip_time o w1) (vw w1) id Hok) as [[Hl Hf]|(r & until & Hwf & Hl & Ht & Hs)].
  - assert (Hw : ∀ res w', vw w' = <[remote_mutation_key id := Entry (to_json rc)
        (Some (trip_time o w1 + REMOTE_MUTATION_RETENTION_SECONDS))]> (vw w1) →
      res = Ok Claimed ∨ res = Err EDb → implements (claim_spec (round_trips o) digest) id (vw w1) res w').
    { intros res w' Hv Hres. eapply implements_write; [done| |done|]; [done|].
      destruct Hres as [->| ->]; [by apply claim_granted|by apply claim_reply_lost]. }
    apply wp_bind, wp_bind, wp_query; cbn [exec_pipe exec_cmd]; rewrite Hl; cbn [fst snd].
    + intros d _ [Hv|Hv]; [by apply Hfail|apply Hw; auto].
    + intros d _ Hv. apply wp_lift, wp_ret, Hw; auto.
  - apply wp_bind, wp_bind, wp_query; cbn [exec_pipe exec_cmd]; rewrite Hl; cbn [fst snd].
    { intros d _ [Hv|Hv]; by apply Hfail. }
    intros d _ Hv. change (db_view d) with (vw (after_trip w1 d)) in Hv. apply wp_lift.
    rewrite <- Hv in Hok. apply wp_bind, wp_read_receipt; [done|intros w' Hv'; apply Hfail; congruence|].
    intros r' until' w2 Hv2 Hwf' Hs'. rewrite Hv in *. apply wp_bind, wp_ensure.
    2:{ intros Hne%bool_decide_eq_false. apply implements_same; [done|congruence|]. rewrite Hs'. by apply claim_conflict. }
    intros Heq%bool_decide_eq_true.
    destruct (rm_state r') eqn:Hst; [|destruct (rm_completed_at r') as [at_|] eqn:Hat].
    + apply wp_fail, implements_same; [done|congruence|]. rewrite Hs'. apply claim_busy; [done|].
      unfold held_of, receipt_outcome. simpl. by rewrite Hst.
    + apply wp_ret, implements_same; [done|congruence|]. rewrite Hs'. apply claim_repeated; [done|].
      unfold held_of, receipt_outcome. simpl. by rewrite Hst, Hat.
    + destruct (Hwf' Hst) as [? ?]. congruence.
Qed.

Lemma wp_complete_remote id digest ok summary o w :
  receipts_ok (vw w) →
  wp (complete_remote_mutation id digest ok summary) o w
    (implements (complete_spec (round_trips o) digest ok summary) id (vw w)).
Proof.
  intros Hok. unfold complete_remote_mutation. cbv zeta.
  assert (Hfail : ∀ w', vw w' = vw w → implements (complete_spec (round_trips o) digest ok summary) id (vw w) (Err EDb) w').
  { intros w' Hv. apply implements_same; [done|done|apply complete_failed]. }
  apply wp_bind, wp_read_receipt; [done|done|]. intros r until w1 Hv1 Hwf Hs.
  apply wp_bind, wp_ensure.
  2:{ intros Hne%bool_decide_eq_false. apply implements_same; [done|done|]. rewrite Hs. by apply complete_conflict. }
  intros Heq%bool_decide_eq_true. destruct (rm_state r) eqn:Hst.
  2:{ destruct (Hwf Hst) as [at_ Hat]. rewrite Hat. apply wp_some_or; [|done]. intros ? [= <-].
      apply implements_same; [done|done|]. rewrite Hs. eapply complete_repeated; [done|].
      unfold held_of, receipt_outcome. simpl. by rewrite Hst, Hat. }
  assert (Hout : h_outcome (held_of r until) = None) by (unfold held_of, receipt_outcome; simpl; by rewrite Hst).
  apply wp_bind, wp_now. set (rc := mkReceipt _ _ _ _ _ _). set (w2 := tick w1) in *.
  assert (Hv2 : vw w2 = vw w) by done. assert (Hd : round_trips o (trip_time o w2)) by (by eexists).
  destruct (receipt_cases (trip_time o w2) (vw w) id Hok) as [[Hl Hf]|(r' & until' & Hwf' & Hl & Ht & Hs')].
  - apply wp_bind, wp_bind, wp_query; cbn [exec_pipe exec_cmd]; rewrite Hv2, Hl; cbn [fst snd].
    { intros d _ [Hv|Hv]; by apply Hfail. }
    intros d _ Hv. apply wp_lift, wp_bind, wp_ensure; [done|]. intros _.
    apply implements_same; [done|done|]. rewrite Hs in Hf |- *. by eapply complete_expired.
  - rewrite Hs in Hs'. assert (until' = until) as -> by (unfold held_of in Hs'; congruence).
    assert (Hw : ∀ res w', vw w' = <[remote_mutation_key id := Entry (to_json rc)
        (Some (trip_time o w2 + REMOTE_MUTATION_RETENTION_SECONDS))]> (vw w) →
      res = Ok (clock o w1) ∨ res = Err EDb →
      implements (complete_spec (round_trips o) digest ok summary) id (vw w) res w').
    { intros res w' Hv Hres. eapply implements_write; [done| |done|]; [by exists (clock o w1)|]. rewrite Hs.
      unfold held_of at 2. cbn [rm_digest rc]. rewrite Heq.
      destruct Hres as [->| ->]; [by apply complete_recorded|by eapply complete_reply_lost]. }
    apply wp_bind, wp_bind, wp_query; cbn [exec_pipe exec_cmd]; rewrite Hv2, Hl; cbn [fst snd].
    + intros d _ [Hv|Hv]; [by apply Hfail|apply Hw; auto].
    + intros d _ Hv. apply wp_lift, wp_bind, wp_ensure; [|done]. intros _. apply wp_ret, Hw; auto.
Qed.

(** ** Histories of calls *)

(** A call with what it returned. *)
Inductive mutation_call :=
  | CallClaim (id : Uuid) (digest : str) (r : result error RemoteMutationClaim)
  | CallComplete (id : Uuid) (digest : str) (ok : bool) (summary : str) (r : result error N).

Definition history := list (oracle * mutation_call).

Inductive runs : world → history → world → Prop :=
  | runs_nil w : runs w [] w
  | runs_claim id digest o w r w' l w'' :
      claim_remote_mutation id digest o w = (r, w') → runs w' l w'' →
      runs w ((o, CallClaim id digest r) :: l) w''
  | runs_complete id digest ok summary o w r w' l w'' :
      complete_remote_mutation id digest ok summary o w = (r, w') → runs w' l w'' →
      runs w ((o, CallComplete id digest ok summary r) :: l) w''.

Definition requests := Uuid → option held_request.

Definition spec_call (o : oracle) (c : mutation_call) (s s' : requests) : Prop :=
  match c with
  | CallClaim id digest r =>
      claim_spec (round_trips o) digest (s id) r (s' id) ∧ ∀ id', id' ≠ id → s' id' = s id'
  | CallComplete id digest ok summary r =>
      complete_spec (round_trips o) digest ok summary (s id) r (s' id) ∧ ∀ id', id' ≠ id → s' id' = s id'
  end.

Inductive spec_runs : requests → history → requests → Prop :=
  | spec_nil s : spec_runs s [] s
  | spec_cons o c s s' l s'' : spec_call o c s s' → spec_runs s' l s'' → spec_runs s ((o, c) :: l) s''.

Lemma implements_others {A : Type} spec id m (r : result error A) w' id' :
  implements spec id m r w' → id' ≠ id → request_state (vw w') id' = request_state m id'.
Proof. intros (_ & _ & Hk) Hne. unfold request_state. rewrite Hk; [done|]. by intros ?%(inj _). Qed.

Lemma runs_refine w l w' :
  receipts_ok (vw w) → runs w l w' →
  spec_runs (request_state (vw w)) l (request_state (vw w')) ∧ receipts_ok (vw w').
Proof.
  intros Hok Hrun. induction Hrun as [w|id digest o w r w1 l w2 Hr _ IH|id digest ok sm o w r w1 l w2 Hr _ IH].
  - split; [apply spec_nil|done].
  - pose proof (wp_claim_remote id digest o w Hok) as Hi. unfold wp in Hi. rewrite Hr in Hi. destruct (Hi) as (Hok1 & Hs & _).
    destruct (IH Hok1) as [Hruns Hok2]. split; [|done]. eapply spec_cons; [|exact Hruns]. split; [exact Hs|].
    intros id'. by eapply implements_others.
  - pose proof (wp_complete_remote id digest ok sm o w Hok) as Hi. unfold wp in Hi. rewrite Hr in Hi. destruct (Hi) as (Hok1 & Hs & _).
    destruct (IH Hok1) as [Hruns Hok2]. split; [|done]. eapply spec_cons; [|exact Hruns]. split; [exact Hs|].
    intros id'. by eapply implements_others.
Qed.

(** C25: the receipts in the datastore implement the abstract machine of requests.
    Every history of claims and completions, on any mix of request identifiers and
    digests, with requests and replies lost and receipts expiring at any time, is a
    history of the abstract machine with the same results, and it keeps the
    receipts well formed. *)
Theorem receipt_refines w l w' :
  receipts_ok (vw w) → runs w l w' →
  spec_runs (request_state (vw w)) l (request_state (vw w')) ∧ receipts_ok (vw w').
Proof. intros Hok Hrun. by apply runs_refine. Qed.

(** Every call of the history runs within the retention period that starts at [T]. *)
Definition within (T : N) (l : history) : Prop :=
  Forall (λ oc, ∀ t, round_trips oc.1 t → T ≤ t < T + REMOTE_MUTATION_RETENTION_SECONDS) l.

(** [id] is held for [digest]; its outcome, if any, was reported by a completion in [l]. *)
Definition held_for (T : N) (id : Uuid) (digest : str) (l : history) (s : requests) : Prop :=
  ∃ h, s id = Some h ∧ h_digest h = digest ∧ T + REMOTE_MUTATION_RETENTION_SECONDS ≤ h_until h ∧
    ∀ at_ ok summary, h_outcome h = Some (at_, ok, summary) →
      ∃ o r, (o, CallComplete id digest ok summary r) ∈ l.

Lemma spec_call_held T id digest past o c s s' :
  (∀ t, round_trips o t → T ≤ t < T + REMOTE_MUTATION_RETENTION_SECONDS) →
  spec_call o c s s' → held_for T id digest past s → held_for T id digest (past ++ [(o, c)]) s'.
Proof.
  intros Hw Hc (h & Hs & Hd & Hu & Hout).
  assert (Hold : s' id = Some h → held_for T id digest (past ++ [(o, c)]) s').
  { intros Hs'. exists h. split_and!; [done..|]. intros at_ ok sm Ho. destruct (Hout _ _ _ Ho) as (o' & r & Hin).
    exists o', r. apply elem_of_app. by left. }
  destruct c as [id' dg r|id' dg ok sm r]; destruct Hc as [Hc Hne]; (destruct (decide (id' = id)) as [->|Hid];
    [rewrite Hs in Hc|apply Hold; by rewrite Hne]).
  - inversion Hc as [t ? Ht Hf Ha Hb Hc'|t ? Ht Hf Ha Hb Hc'|? Ha Hb Hc'|? ? ? ? ? ? Ha Hb Hc'|? ? ? Ha Hb Hc'|? ? Ha Hb Hc'];
      subst; try (apply Hold; congruence).
    all: apply Hw in Ht; simpl in Hf; lia.
  - inversion Hc as [t at_ ? Ht Htu Hdg Ho Ha Hb Hc'|t at_ ? Ht Htu Hdg Ho Ha Hb Hc'| | | |]; subst; try (apply Hold; congruence).
    all: eexists; split_and!; [by symmetry|done|simpl; apply Hw in Ht; lia|].
    all: simpl; intros ? ? ? [= <- <- <-]; eexists _, _; apply elem_of_app; right; by apply list_elem_of_singleton.
Qed.

Lemma spec_runs_held T id digest past l s s' :
  within T l → spec_runs s l s' → held_for T id digest past s → held_for T id digest (past ++ l) s'.
Proof.
  intros Hw Hrun. revert past Hw. induction Hrun as [s|o c s s1 l s2 Hc _ IH]; intros past Hw Hh; [by rewrite app_nil_r|].
  apply Forall_cons in Hw as [Hw1 Hw]. replace (past ++ (o, c) :: l) with ((past ++ [(o, c)]) ++ l) by (by rewrite <- app_assoc). apply IH; [done|]. by eapply spec_call_held.
Qed.

Lemma spec_runs_app s l1 l2 s'' : spec_runs s (l1 ++ l2) s'' → ∃ s', spec_runs s l1 s' ∧ spec_runs s' l2 s''.
Proof.
  revert s. induction l1 as [|[o c] l1 IH]; intros s Hrun; [exists s; split; [apply spec_nil|done]|].
  inversion Hrun as [|? ? ? s1 ? ? Hc Hrest]; subst. destruct (IH _ Hrest) as (s' & H1 & H2).
  exists s'. split; [by eapply spec_cons|done].
Qed.

(** C26: a request runs at most once.  Once a claim was granted, no claim of the same
    request is granted for the retention period, whatever claims and completions
    happen in between; a later claim that is told an outcome presented the same
    digest, and that outcome was reported by a completion for that digest. *)
Theorem mutation_claimed_once T id digest o w mid digest' o' r w' :
  receipts_ok (vw w) →
  runs w ((o, CallClaim id digest (Ok Claimed)) :: mid ++ [(o', CallClaim id digest' r)]) w' →
  within T ((o, CallClaim id digest (Ok Claimed)) :: mid ++ [(o', CallClaim id digest' r)]) →
  r ≠ Ok Claimed ∧
  ∀ at_ ok summary, r = Ok (Completed at_ ok summary) →
    digest' = digest ∧ ∃ o r, (o, CallComplete id digest ok summary r) ∈ mid.
Proof.
  intros Hok Hrun Hw. destruct (runs_refine w _ w' Hok Hrun) as [Hspec _].
  apply Forall_cons in Hw as [Hw1 [Hwm Hw2]%Forall_app]. rewrite Forall_singleton in Hw2.
  inversion Hspec as [|? ? ? s1 ? ? Hcall Hrest]; subst. destruct Hcall as [Hc _]. apply spec_runs_app in Hrest as (s2 & Hmid & Hlast).
  assert (Hh : held_for T id digest [] s1).
  { inversion Hc as [t ? Ht Hf Ha Hb Hc'| | | | |]; subst. eexists. split_and!; [by symmetry|done|simpl; apply Hw1 in Ht; lia|done]. }
  destruct (spec_runs_held _ _ _ _ _ _ _ Hwm Hmid Hh) as (h & Hs & Hd & Hu & Hout).
  inversion Hlast as [|? ? ? s3 ? ? Hcall _]; subst. destruct Hcall as [Hl _]. rewrite Hs in Hl.
  inversion Hl as [t ? Ht Hf Ha Hb Hc'| | |? at_ ok sm Hdg Ho Ha Hb Hc'| |]; subst; split; try done.
  - apply Hw2 in Ht. simpl in Hf. lia.
  - intros ? ? ? [= <- <- <-]. split; [done|]. by apply Hout in Ho.
Qed.
End RemoteMutations.

(** ** Witnesses *)

Import DemoEnv.

#[export] Program Instance codec_receipt : Codec RemoteMutationReceipt :=
  codec_iso (λ r : RemoteMutationReceipt, (rm_digest r, (match rm_state r with RMPending => false | RMCompleted => true end,
      (rm_claimed_at r, (rm_completed_at r, (rm_succeeded r, rm_summary r))))))
    (λ '(a, (b, (c, (d, (e, f))))), Some (mkReceipt a (if b : bool then RMCompleted else RMPending) c d e f)) _.
Next Obligation. by intros [? [] ? ? ? ?]. Qed.

(** All round trips at one server time. *)
Definition demo_still : oracle :=
  Oracle (λ n, 1000 + N.of_nat n) (λ n i, N.of_nat (n + i)) demo_uuid_of (λ _, Trip 1000 Delivered).

Abbreviation demo_claim := (claim_remote_mutation demo_id #"digest" demo_still (demo_world [])).
Abbreviation demo_complete := (complete_remote_mutation demo_id #"digest" true #"done" demo_still demo_claim.2).
Abbreviation demo_again := (claim_remote_mutation demo_id #"digest" demo_still demo_complete.2).

Lemma receipts_ok_empty : receipts_ok (vw (demo_world [])).
Proof. intros id e He. exact (False_ind _ (lookup_empty_Some (remote_mutation_key id) e He)). Qed.

Definition demo_history : history :=
  [(demo_still, CallClaim demo_id #"digest" (Ok Claimed));
   (demo_still, CallComplete demo_id #"digest" true #"done" demo_complete.1);
   (demo_still, CallClaim demo_id #"digest" demo_again.1)].

Lemma demo_history_runs : runs (demo_world []) demo_history demo_again.2.
Proof.
  apply (runs_claim _ _ _ _ _ demo_claim.2); [apply run_ok; eval_eq|].
  apply (runs_complete _ _ _ _ _ _ _ demo_complete.2); [apply surjective_pairing|].
  apply (runs_claim _ _ _ _ _ demo_again.2); [apply surjective_pairing|apply runs_nil].
Qed.

Lemma receipt_refines_witness :
  demo_again.1 = Ok (Completed 1001 true #"done") ∧
  spec_runs (request_state ∅) demo_history (request_state (vw demo_again.2)).
Proof.
  split; [eval_eq|].
  destruct (receipt_refines (demo_world []) demo_history demo_again.2) as [Hs _];
    [exact receipts_ok_empty|exact demo_history_runs|]. exact Hs.
Defined.

Lemma mutation_claimed_once_witness :
  demo_again.1 ≠ Ok Claimed ∧ ∃ o r, (o, CallComplete demo_id #"digest" true #"done" r) ∈
    [(demo_still, CallComplete demo_id #"digest" true #"done" demo_complete.1)].
Proof.
  destruct (mutation_claimed_once 1000 demo_id #"digest" demo_still (demo_world [])
    [(demo_still, CallComplete demo_id #"digest" true #"done" demo_complete.1)] #"digest" demo_still demo_again.1 demo_again.2)
    as [Hn Hc]; [exact receipts_ok_empty|exact demo_history_runs| |].
  - repeat (apply Forall_cons; split; [intros t [i ->]; simpl; unfold REMOTE_MUTATION_RETENTION_SECONDS; lia|]). apply Forall_nil; exact I.
  - split; [exact Hn|]. destruct (Hc 1001 true #"done") as [_ Hin]; [eval_eq|]. exact Hin.
Defined.
