(* ===== verification/Tokens.v ===== *)
(** * Access tokens (src/src/jwt/issuance.rs, src/src/jwt/validation.rs)

    The claims of user and service-account tokens, signing with the active key, and
    the check of a presented service-account token against the published keys. *)

From S2P Require Import Prelude Sable Logic Demo Records Events Identifiers Users Invitations Accounts Sessions Touches.
From S2P Require Import SigningKeys Webhooks ServiceAccounts.

(** ** [jsonwebtoken] *)

Class ExtJwt `{Env, !ExtSigning} := {
  (** [encode] of a payload with an ES256 header that names a key, and a PKCS#8 key *)
  jwt_encode : str → str → list N → option str;
  (** [decode_header]: whether the algorithm is ES256, and the key id *)
  jwt_decode_header : str → option (bool * option str);
  (** [serde_json::from_value::<JwkSet>], [Jwk::common.key_id], [DecodingKey::from_jwk] *)
  jwk_set : Value → option (list Value);
  jwk_key_id : Value → option str;
  DecodingKey : Type;
  decoding_key_from_jwk : Value → option DecodingKey;
  (** the payload of a token whose ES256 signature verifies under the key *)
  jwt_verified : str → DecodingKey → option str;
  jwk_set_keys l :
    Forall (λ j, ∃ kid, validate_public_jwk kid j = Ok tt) l → jwk_set (json_keys l) = Some l;
  jwk_valid kid j :
    validate_public_jwk kid j = Ok tt → jwk_key_id j = Some kid ∧ is_Some (decoding_key_from_jwk j);
  jwt_encode_verifies kid payload der token signing j key :
    jwt_encode kid payload der = Some token → from_pkcs8_der der = Some signing →
    matches_private j signing = Ok tt → decoding_key_from_jwk j = Some key →
    jwt_decode_header token = Some (true, Some kid) ∧ jwt_verified token key = Some payload
}.

Definition CLOCK_SKEW_SECONDS : N := 60.

Record Claims := mkClaims {
  c_iss : str; c_aud : str; c_sub : str; c_exp : N; c_iat : N; c_jti : str; c_sid : str; c_token_type : str;
  c_tenant_id : str; c_amr : list str; c_auth_time : N; c_session_version : N
}.

Record ServiceAccountClaims := mkServiceClaims {
  sv_iss : str; sv_aud : str; sv_sub : str; sv_exp : N; sv_iat : N; sv_jti : str; sv_token_type : str;
  sv_tenant_id : str; sv_client_id : str; sv_scope : list str
}.

Record IssuedToken := mkIssuedToken {
  it_email : option str; it_email_verified : bool; it_phone_number : option str; it_phone_number_verified : bool;
  it_profile : AccountProfile; it_token : str; it_expires_in : N
}.

Record IssuedServiceAccountToken := mkIssuedServiceToken { ist_token : str; ist_expires_in : N }.

(** The settings of the issuer; [None] as runtime stands for a poisoned lock. *)
Record TokenSettings := mkSettings { t_issuer : str; t_audience : str; t_tenant_id : str; t_access_token_seconds : N }.

(** [a + b] on [u64] in a release build. *)
Definition wrapping_add (a b : N) : N := (a + b) mod 2 ^ 64.

Section Tokens.
Context `{Env, !ExtSigning, !ExtJwt}.
Context `{!Serde Claims, !Serde ServiceAccountClaims, !Serde StoredKeySet, !Serde LegacyStoredKey}.

Definition access_claims (issuer audience tenant_id : str) (access_token_seconds : N) (u : User) (s : Session)
    (issued_at : N) (jti : Uuid) : Claims :=
  mkClaims issuer audience (uuid_show (u_id u)) (wrapping_add issued_at access_token_seconds) issued_at
    (uuid_show jti) (uuid_show (s_id s)) #"spacetime-access" tenant_id
    [if bool_decide (s_auth_method s = #"passkey") then #"hwk"
     else if bool_decide (s_auth_method s = #"agent") then #"agent" else #"email"]
    (s_created_at s) (s_session_version s).

Definition service_account_claims (issuer audience tenant_id : str) (access_token_seconds : N)
    (service_account_id : Uuid) (scopes : list str) (issued_at : N) (jti : Uuid) : ServiceAccountClaims :=
  mkServiceClaims issuer audience (#"service-account:" ++ uuid_show service_account_id)
    (wrapping_add issued_at access_token_seconds) issued_at (uuid_show jti) #"service-account" tenant_id
    (uuid_show service_account_id) scopes.

Definition sign_claims {C : Type} `{!Serde C} (runtime : RuntimeKeySet) (claims : C) : option str :=
  jwt_encode (rk_active_kid runtime) (to_json claims) (rk_encoding runtime).

Definition poisoned_lock : error := EBail "JWT runtime lock is poisoned".

Definition issue (self : TokenSettings) (runtime : option RuntimeKeySet) (u : User) (s : Session) : M error IssuedToken :=
  issued_at ← now;
  jti ← new_v4;
  let claims := access_claims (t_issuer self) (t_audience self) (t_tenant_id self) (t_access_token_seconds self)
                  u s issued_at jti in
  runtime ← some_or poisoned_lock runtime;
  token ← some_or (EBail "sign access token") (sign_claims runtime claims);
  let email := primary_email u in
  let phone := primary_phone u in
  mret (mkIssuedToken (ai_value <$> email) (default false (ai_verified <$> email))
          (ai_value <$> phone) (default false (ai_verified <$> phone))
          (u_profile u) token (t_access_token_seconds self)).

Definition issue_service_account (self : TokenSettings) (runtime : option RuntimeKeySet) (service_account_id : Uuid)
    (scopes : list str) : M error IssuedServiceAccountToken :=
  issued_at ← now;
  jti ← new_v4;
  let claims := service_account_claims (t_issuer self) (t_audience self) (t_tenant_id self)
                  (t_access_token_seconds self) service_account_id scopes issued_at jti in
  runtime ← some_or poisoned_lock runtime;
  token ← some_or (EBail "sign service-account access token") (sign_claims runtime claims);
  mret (mkIssuedServiceToken token (t_access_token_seconds self)).

(** [JwkSet::find] *)
Definition jwk_find (kid : str) (keys : list Value) : option Value :=
  List.find (λ j, bool_decide (jwk_key_id j = Some kid)) keys.

(** [decode] with the validation the source configures, at the library's reading of
    the clock: the signature, the expiry with the leeway, the issuer, the audience. *)
Definition decode_service_claims (issuer audience : str) (clock : N) (token : str) (key : DecodingKey) :
    option ServiceAccountClaims :=
  payload ← jwt_verified token key;
  claims ← from_json payload;
  if negb (clock - CLOCK_SKEW_SECONDS <=? sv_exp claims) || negb (bool_decide (sv_iss claims = issuer))
     || negb (bool_decide (sv_aud claims = audience))
  then None else Some claims.

Definition service_account_authorized (token required_scope : str) (jwks : Value) (issuer audience tenant_id : str)
    (current clock : N) : bool :=
  match jwt_decode_header token with
  | Some (true, Some kid) =>
      match (keys ← jwk_set jwks; jwk ← jwk_find kid keys; key ← decoding_key_from_jwk jwk;
             decode_service_claims issuer audience clock token key) with
      | None => false
      | Some claims =>
          match uuid_parse (sv_client_id claims) with
          | None => false
          | Some client_id =>
              bool_decide (sv_iss claims = issuer)
              && bool_decide (sv_aud claims = audience)
              && bool_decide (sv_token_type claims = #"service-account")
              && bool_decide (sv_tenant_id claims = tenant_id)
              && bool_decide (sv_sub claims = #"service-account:" ++ uuid_show client_id)
              && is_some (uuid_parse (sv_jti claims))
              && (sv_iat claims <=? saturating_add current CLOCK_SKEW_SECONDS)
              && (sv_iat claims <? sv_exp claims)
              && existsb (λ scope, bool_decide (scope = required_scope)) (sv_scope claims)
          end
      end
  | _ => false
  end.

Definition authorizes_service_account (self : TokenSettings) (runtime : option RuntimeKeySet) (token required_scope : str) :
    M error bool :=
  match runtime with
  | None => mret false
  | Some runtime =>
      current ← now;
      clock ← now;
      mret (service_account_authorized token required_scope (rk_jwks runtime) (t_issuer self) (t_audience self)
              (t_tenant_id self) current clock)
  end.

(** ** Finding the key of a token *)

Lemma jwk_find_unique (l : list (str * Value)) kid j :
  NoDup l.*1 → Forall (λ p, jwk_key_id p.2 = Some p.1) l → (kid, j) ∈ l → jwk_find kid l.*2 = Some j.
Proof.
  induction l as [|[k v] l IH]; [by intros _ _ ?%elem_of_nil|]. rewrite !fmap_cons. cbn [fst snd].
  intros [Hk Hn]%NoDup_cons [Hv Hl]%Forall_cons [Heq|Hin]%elem_of_cons; cbn [fst snd] in *; unfold jwk_find; simpl; rewrite Hv.
  - simplify_eq. by rewrite bool_decide_eq_true_2.
  - rewrite bool_decide_eq_false_2; [by apply IH|]. intros [= ->]. apply Hk, list_elem_of_fmap. by exists (kid, j).
Qed.

Definition published_pairs (ks : StoredKeySet) (c : N) : list (str * Value) :=
  (k_kid (ks_active ks), k_public_jwk (ks_active ks))
  :: match ks_staged ks with Some s => [(k_kid (st_key s), k_public_jwk (st_key s))] | None => [] end
  ++ ((λ r, (rt_kid r, rt_public_jwk r)) <$> List.filter (publishable c) (ks_retired ks)).

Lemma published_pairs_jwks ks c : (published_pairs ks c).*2 = published ks c.
Proof.
  unfold published_pairs, published. rewrite fmap_cons, fmap_app, <- list_fmap_compose. by destruct (ks_staged ks).
Qed.

Lemma published_pairs_kids ring ks c : valid_keyset ring ks → NoDup (published_pairs ks c).*1.
Proof.
  intros Hv. eapply sublist_NoDup; [apply (valid_kids _ _ Hv)|]. unfold published_pairs, kids.
  rewrite fmap_cons, fmap_app, <- list_fmap_compose. apply sublist_skip, sublist_app; [by destruct (ks_staged ks)|].
  apply filter_kids.
Qed.

Lemma signing_key_public k ring : validate_signing_key k ring = Ok tt → validate_public_jwk (k_kid k) (k_public_jwk k) = Ok tt.
Proof. unfold validate_signing_key. by destruct (validate_public_jwk _ _) as [[]|]. Qed.

Lemma published_pairs_valid ring ks c :
  valid_keyset ring ks → Forall (λ p, validate_public_jwk p.1 p.2 = Ok tt) (published_pairs ks c).
Proof.
  intros [_ Ha Hs Hr _]. constructor; [by eapply signing_key_public|]. apply Forall_app. split.
  - destruct (ks_staged ks) as [s|]; [|done]. apply Forall_singleton. by eapply signing_key_public, Hs.
  - apply Forall_fmap, Forall_forall. intros r Hr'. rewrite Forall_forall in Hr. apply Hr.
    apply list_elem_of_In, List.filter_In in Hr' as [? _]. by apply list_elem_of_In.
Qed.

Lemma served_find ring jwk kid rt :
  served_by ring jwk rt → validate_public_jwk kid jwk = Ok tt →
  ∃ keys, jwk_set (rk_jwks rt) = Some keys ∧ jwk_find kid keys = Some jwk.
Proof.
  intros (ks & c & Hrt & Hin) Hv. apply runtime_spec in Hrt as (Hj & _ & Hks%validate_keyset_iff).
  pose proof (published_pairs_valid _ _ c Hks) as Hall. rewrite <- (published_pairs_jwks ks c) in Hj, Hin.
  exists (published_pairs ks c).*2. split.
  - rewrite Hj. apply jwk_set_keys, Forall_fmap. eapply Forall_impl; [exact Hall|]. intros [k v] Hkv. by exists k.
  - apply list_elem_of_fmap in Hin as ([k v] & Heq & Hp). cbn [snd] in Heq. subst v.
    assert (k = kid) as ->.
    { rewrite Forall_forall in Hall. pose proof (Hall _ Hp) as Hk. cbn [fst snd] in Hk.
      apply jwk_valid in Hk as [Hk _]. apply jwk_valid in Hv as [Hv _]. congruence. }
    apply jwk_find_unique; [by eapply published_pairs_kids| |done].
    eapply Forall_impl; [exact Hall|]. intros [k' v'] Hkv. by apply jwk_valid in Hkv as [? _].
Qed.

(** ** Tokens of this issuer *)

Lemma runtime_encoding ks ring c rt :
  runtime_keyset ks ring c = Ok rt →
  validate_public_jwk (rk_active_kid rt) (k_public_jwk (ks_active ks)) = Ok tt ∧
  ∃ signing, from_pkcs8_der (rk_encoding rt) = Some signing ∧ matches_private (k_public_jwk (ks_active ks)) signing = Ok tt.
Proof.
  intros Hrt. pose proof (runtime_spec _ _ _ _ Hrt) as (_ & Hkid & [_ Ha _ _ _]%validate_keyset_iff).
  rewrite Hkid. split; [by eapply signing_key_public|]. unfold runtime_keyset in Hrt. unfold validate_signing_key in Ha.
  destruct (validate_keyset ks ring) as [[]|]; [|done]. destruct (open_private_key ring (ks_active ks)) as [der|]; [|done].
  injection Hrt as <-. cbn [rk_encoding]. destruct (validate_public_jwk _ _) as [[]|]; [|done].
  destruct (from_pkcs8_der der) as [signing|]; [|done]. by exists signing.
Qed.

Lemma scope_member (scope : str) l : existsb (λ s, bool_decide (s = scope)) l = bool_decide (scope ∈ l).
Proof.
  apply eq_bool_prop_intro. rewrite !Is_true_true, existsb_exists, bool_decide_eq_true. setoid_rewrite bool_decide_eq_true.
  setoid_rewrite <- list_elem_of_In. split; [by intros (x & ? & ->)|by exists scope].
Qed.

(** A token of this issuer, checked against keys that still contain its own. *)
Lemma own_token_authorized self rt rt' ring ks c id scopes issued_at jti token scope current clock :
  runtime_keyset ks ring c = Ok rt → served_by ring (k_public_jwk (ks_active ks)) rt' →
  sign_claims rt (service_account_claims (t_issuer self) (t_audience self) (t_tenant_id self)
    (t_access_token_seconds self) id scopes issued_at jti) = Some token →
  0 < t_access_token_seconds self → issued_at + t_access_token_seconds self ≤ u64_max →
  issued_at ≤ current + CLOCK_SKEW_SECONDS → clock ≤ issued_at + t_access_token_seconds self + CLOCK_SKEW_SECONDS →
  service_account_authorized token scope (rk_jwks rt') (t_issuer self) (t_audience self) (t_tenant_id self) current clock
  = bool_decide (scope ∈ scopes).
Proof.
  intros Hrt Hserved Hsign Hpos Hmax Hiat Hexp. set (claims := service_account_claims _ _ _ _ _ _ _ _) in Hsign.
  destruct (runtime_encoding _ _ _ _ Hrt) as (Hpub & signing & Hder & Hmatch).
  destruct (served_find _ _ _ _ Hserved Hpub) as (keys & Hset & Hfind).
  destruct (jwk_valid _ _ Hpub) as [_ [key Hkey]].
  destruct (jwt_encode_verifies _ _ _ _ _ _ _ Hsign Hder Hmatch Hkey) as [Hhead Hver].
  assert (Hx : sv_exp claims = issued_at + t_access_token_seconds self).
  { apply N.mod_small. unfold u64_max in Hmax. lia. }
  unfold service_account_authorized. rewrite Hhead, Hset. cbn [mbind option_bind]. rewrite Hfind. cbn [mbind option_bind].
  rewrite Hkey. cbn [mbind option_bind]. unfold decode_service_claims. rewrite Hver. cbn [mbind option_bind].
  rewrite from_to_json. cbn [mbind option_bind]. rewrite Hx.
  assert ((clock - CLOCK_SKEW_SECONDS <=? issued_at + t_access_token_seconds self) = true) as -> by lia.
  cbn [sv_iss sv_aud claims service_account_claims]. rewrite !bool_decide_eq_true_2 by done. cbn [negb orb].
  cbn [sv_client_id sv_token_type sv_tenant_id sv_sub sv_jti sv_iat sv_scope claims service_account_claims].
  rewrite !uuid_parse_show, !bool_decide_eq_true_2 by done. cbn [is_some andb]. rewrite Hx.
  assert ((issued_at <=? saturating_add current CLOCK_SKEW_SECONDS) = true) as -> by (unfold saturating_add; lia).
  assert ((issued_at <? issued_at + t_access_token_seconds self) = true) as -> by lia. cbn [andb]. apply scope_member.
Qed.
Lemma wp_issue_service_account self rt id scopes o w :
  wp (issue_service_account self (Some rt) id scopes) o w (λ r w',
    vw w' = vw w ∧ ∀ tok, r = Ok tok → ist_expires_in tok = t_access_token_seconds self ∧ ∃ jti,
      sign_claims rt (service_account_claims (t_issuer self) (t_audience self) (t_tenant_id self)
        (t_access_token_seconds self) id scopes (clock o w) jti) = Some (ist_token tok)).
Proof.
  unfold issue_service_account. apply wp_bind, wp_now, wp_bind, wp_new_v4. intros jti w1 Hdb _ _. cbn zeta beta.
  apply wp_bind. cbn [some_or]. apply wp_lift. apply wp_bind, wp_some_or.
  - intros token Ht. apply wp_ret. split; [unfold vw; by rewrite Hdb|]. intros tok [= <-]. split; [done|]. by exists jti.
  - intros _. split; [unfold vw; by rewrite Hdb|done].
Qed.

(** C14: a service token is worth exactly its scopes, for as long as it lives.  A
    token that the issuer signs with its active key is accepted by the issuer's own
    check for precisely the scopes it was issued with, whatever key rotations
    (forced, immediate or failing ones included) happen before it expires, and
    although the checking process's clock is off by up to the allowed skew. *)
Theorem service_token_authorizes ji imm self ks rt c id scopes scope tok o w w1 st o2 w2 :
  stored (vw w) ks → runtime_keyset ks (ji_master_keys ji) c = Ok rt →
  0 < t_access_token_seconds self → t_access_token_seconds self ≤ overlap_seconds (ji_rotation ji) →
  clock o w + t_access_token_seconds self ≤ u64_max →
  issue_service_account self (Some rt) id scopes o w = (Ok tok, w1) →
  rtc (rotating ji imm) (mkIS (clock o w) rt w1) st → is_time st < clock o w + t_access_token_seconds self →
  clock o w ≤ clock o2 w2 + CLOCK_SKEW_SECONDS →
  clock o2 (tick w2) ≤ clock o w + t_access_token_seconds self + CLOCK_SKEW_SECONDS →
  (authorizes_service_account self (Some (is_runtime st)) (ist_token tok) scope o2 w2).1
  = Ok (bool_decide (scope ∈ scopes)).
Proof.
  intros Hs Hrt Hpos Hov Hmax Hissue Hrun Hlt Hiat Hexp.
  pose proof (wp_issue_service_account self rt id scopes o w) as Hw. unfold wp in Hw. rewrite Hissue in Hw.
  destruct Hw as [Hv Hw]. cbn [fst snd] in Hv, Hw. destruct (Hw _ eq_refl) as (_ & jti & Hsign).
  destruct (token_key_kept ji imm ks rt (clock o w) (t_access_token_seconds self) w1 st) as [_ Hserved];
    [by rewrite Hv|by exists c|done..|].
  transitivity (Ok (E := error) (service_account_authorized (ist_token tok) scope (rk_jwks (is_runtime st)) (t_issuer self)
    (t_audience self) (t_tenant_id self) (clock o2 w2) (clock o2 (tick w2)))); [done|].
  f_equal. by eapply own_token_authorized.
Qed.
End Tokens.

(** ** A token signed before a rotation and checked after it *)

Lemma public_jwk_fields `{Env, !ExtSigning} kid j :
  validate_public_jwk kid j = Ok tt → json_get_str j #"kid" = Some kid ∧ is_Some (json_get_str j #"x").
Proof.
  unfold validate_public_jwk. destruct (json_get_str j #"x"); [|done]. destruct (json_get_str j #"y"); [|done].
  case_bool_decide; [by eauto|done].
Qed.

Lemma matches_private_x `{Env, !ExtSigning} j signing :
  matches_private j signing = Ok tt → ∃ x, sec1_x signing = Some x ∧ json_get_str j #"x" = Some (b64url_encode x).
Proof.
  unfold matches_private. destruct (sec1_x signing) as [x|]; [|done]. destruct (sec1_y signing); [|done].
  case_bool_decide; [by eauto|done].
Qed.

Module DemoTokens.
Import DemoEnv DemoSigning.

#[export] Program Instance codec_service_claims : Codec ServiceAccountClaims :=
  codec_iso (A := (str * (str * str)) * ((N * (N * str)) * (str * (str * (str * list str)))))
    (λ c, ((sv_iss c, (sv_aud c, sv_sub c)), ((sv_exp c, (sv_iat c, sv_jti c)),
       (sv_token_type c, (sv_tenant_id c, (sv_client_id c, sv_scope c))))))
    (λ '((a, (b, c)), ((d, (e, f)), (g, (h, (i, j))))), Some (mkServiceClaims a b c d e f g h i j)) _.
Next Obligation. by intros []. Qed.

(** A token names its key, its payload and the coordinate of the key that signed it. *)
Definition demo_token (kid payload der : list N) : str := to_json (kid, (payload, demo_b64 (to_bytes32 der))).

Definition demo_token_parts (token : str) : option (str * (str * str)) := from_json token.
Definition demo_jwk_list (v : str) : option (list (list (str * str))) := from_json v.

Definition demo_header (token : str) : option (bool * option str) :=
  match demo_token_parts token with Some (kid, _) => Some (true, Some kid) | None => None end.
Definition demo_verified (token key : str) : option str :=
  match demo_token_parts token with
  | Some (_, (payload, x)) => if bool_decide (x = key) then Some payload else None
  | None => None
  end.

Lemma demo_token_read kid payload der :
  demo_token_parts (demo_token kid payload der) = Some (kid, (payload, demo_b64 (to_bytes32 der))).
Proof. unfold demo_token_parts, demo_token. by rewrite from_to_json. Qed.

#[export] Program Instance demo_jwt : ExtJwt :=
  {| jwt_encode kid payload der := Some (demo_token kid payload der);
     jwt_decode_header := demo_header;
     jwk_set v := demo_get_str v #"keys" ≫= demo_jwk_list;
     jwk_key_id j := demo_get_str j #"kid";
     DecodingKey := str;
     decoding_key_from_jwk j := demo_get_str j #"x";
     jwt_verified := demo_verified |}.
Next Obligation.
  intros l _. unfold demo_get_str. cbn [list_to_map]. cbn. rewrite lookup_insert. rewrite decide_True by done. cbn [mbind option_bind].
  exact (from_to_json l).
Qed.
Next Obligation. intros kid j Hj. exact (public_jwk_fields _ _ Hj). Qed.
Next Obligation.
  intros kid payload der token signing j key [= <-] [= <-] Hm Hk. unfold demo_header, demo_verified. rewrite demo_token_read.
  split; [done|].
  destruct (matches_private_x _ _ Hm) as (x & [= <-] & Hx). assert (key = demo_b64 (to_bytes32 der)) as ->.
  { apply (inj Some). rewrite <- Hk. exact Hx. }
  by rewrite bool_decide_eq_true_2.
Qed.

Definition demo_settings : TokenSettings := mkSettings #"https://auth.example" #"app" #"tenant-a" 20.
Abbreviation demo_issued :=
  (issue_service_account demo_settings (Some demo_runtime) (demo_uuid_of 7) [lit "events.read"] demo_oracle demo_key_world).
Definition demo_service_token : str :=
  Eval vm_compute in match demo_issued.1 with Ok tok => ist_token tok | Err _ => [] end.
Definition demo_issued_world : world := Eval vm_compute in demo_issued.2.
Abbreviation demo_rotation := (maintain_at demo_issuer demo_runtime 1005 true true demo_oracle demo_issued_world).
Definition demo_rotated : issuer_state :=
  Eval vm_compute in
    mkIS 1005 (match demo_rotation.1 with Ok (_, rt) => rt | Err _ => demo_runtime end) demo_rotation.2.

Lemma demo_token_rotating :
  rotating demo_issuer true (mkIS (clock demo_oracle demo_key_world) demo_runtime demo_issued_world) demo_rotated.
Proof.
  assert (demo_rotated = mkIS 1005 (match demo_rotation.1 with Ok (_, rt) => rt | Err _ => demo_runtime end) demo_rotation.2)
    as -> by eval_eq.
  apply (rotating_maintain _ _ _ _ _ _ true true demo_oracle demo_rotation.1 demo_rotation.2); [done|done|].
  by destruct demo_rotation.
Qed.

Lemma service_token_authorizes_witness :
  rk_active_kid demo_runtime ≠ rk_active_kid (is_runtime demo_rotated) ∧
  (authorizes_service_account demo_settings (Some (is_runtime demo_rotated)) demo_service_token #"events.read"
     demo_oracle demo_issued_world).1 = Ok (bool_decide (lit "events.read" ∈ [lit "events.read"])).
Proof.
  split; [apply (bool_decide_eq_true_1 (_ ≠ _)); eval_eq|].
  apply (service_token_authorizes demo_issuer true demo_settings demo_keyset demo_runtime 1000 (demo_uuid_of 7)
    [lit "events.read"] #"events.read" (mkIssuedServiceToken demo_service_token 20) demo_oracle demo_key_world
    demo_issued_world demo_rotated demo_oracle demo_issued_world).
  - exact demo_keyset_stored.
  - eval_eq.
  - done.
  - done.
  - done.
  - eval_eq.
  - apply rtc_once, demo_token_rotating.
  - done.
  - done.
  - done.
Defined.
End DemoTokens.
