(* ===== verification/Management.v ===== *)
(** * Realm-side fleet grants (src/src/store/management.rs)

    Pairing a realm with a control plane: one-time pairing codes, the grant a code is
    exchanged for, its lookup by credential, rotation and revocation, and the counts
    of a realm's summary. *)

From S2P Require Import Prelude Sable Logic Demo Records Events Identifiers Users Invitations Accounts Sessions Ceremonies.
From S2P Require Import Guards ServiceAccounts.

Definition PAIRING_PREFIX : str := #"auth:fleet-pairing:".
Definition GRANT_PREFIX : str := #"auth:fleet-grant:".
Definition GRANT_SECRET_PREFIX : str := #"auth:fleet-grant-secret:".
Definition GRANT_ROTATION_PREFIX : str := #"auth:fleet-grant-rotation:".
Definition PAIRING_SECONDS : N := 600.
Definition GRANT_SECONDS : N := 31536000.

Record RealmPairingRecord := mkPairing {
  rp_id : Uuid;
  rp_realm_id : str;
  rp_control_plane_origin : str;
  rp_requested_scopes : list str;
  rp_created_by : Uuid;
  rp_created_at : N;
  rp_expires_at : N
}.

Record RealmFleetGrantRecord := mkGrant {
  rg_connection_id : Uuid;
  rg_realm_id : str;
  rg_control_plane_origin : str;
  rg_control_plane_instance_id : str;
  rg_assignment_epoch : N;
  rg_credential_digest : str;
  rg_credential_hint : str;
  rg_granted_scopes : list str;
  rg_created_at : N;
  rg_expires_at : N;
  rg_revoked_at : option N
}.

Record RealmFleetGrantRotationRecord := mkGrantRotation {
  rr_connection_id : Uuid;
  rr_credential_digest : str;
  rr_completed_at : N
}.

Record RealmSummaryCounts := mkSummaryCounts {
  sc_users : N; sc_passkeys : N; sc_active_sessions : N; sc_service_accounts : N }.

Definition set_grant_revoked (t : option N) (g : RealmFleetGrantRecord) : RealmFleetGrantRecord :=
  mkGrant (rg_connection_id g) (rg_realm_id g) (rg_control_plane_origin g) (rg_control_plane_instance_id g)
    (rg_assignment_epoch g) (rg_credential_digest g) (rg_credential_hint g) (rg_granted_scopes g) (rg_created_at g)
    (rg_expires_at g) t.

(** The last six characters, taken from the back. *)
Definition hint_of (credential : str) : str := reverse (take 6 (reverse credential)).

Section Management.
Context `{Env}.
Context `{!Serde RealmPairingRecord, !Serde RealmFleetGrantRecord, !Serde RealmFleetGrantRotationRecord}.
Context `{!Serde User, !Serde ServiceAccountRecord}.

Definition credential_digest (value : str) : str := b64url_encode (sha256 (bytes value)).
Definition pairing_key (code : str) : str := PAIRING_PREFIX ++ credential_digest code.
Definition grant_key (id : Uuid) : str := GRANT_PREFIX ++ uuid_show id.
Definition grant_secret_key (digest : str) : str := GRANT_SECRET_PREFIX ++ digest.
Definition grant_rotation_key (request_id : Uuid) : str := GRANT_ROTATION_PREFIX ++ uuid_show request_id.

Definition create_realm_pairing (realm_id control_plane_origin : str) (requested_scopes : list str) (created_by : Uuid) :
    M error (RealmPairingRecord * str) :=
  timestamp ← now;
  id ← new_v4;
  let record := mkPairing id realm_id control_plane_origin requested_scopes created_by timestamp
                  (saturating_add timestamp PAIRING_SECONDS) in
  random ← random_bytes 32;
  let code := #"rpair_" ++ b64url_encode random in
  execute [SETEX (pairing_key code) (to_json record) PAIRING_SECONDS];;
  mret (record, code).

(** Taking a pairing, if it satisfies [valid] and has not expired. *)
Definition take_pairing (code : str) (valid : RealmPairingRecord → bool) : M error RealmPairingRecord :=
  found ← take_json (pairing_key code);
  record ← some_or (EPolicy RealmPairingInvalid) found;
  t ← now;
  ensure ((t <? rp_expires_at record) && valid record) (EPolicy RealmPairingInvalid);;
  mret record.

Definition store_grant (grant : RealmFleetGrantRecord) : M error unit :=
  execute [SET (grant_key (rg_connection_id grant)) (to_json grant);
           SET (grant_secret_key (rg_credential_digest grant)) (uuid_show (rg_connection_id grant))].

Definition exchange_realm_pairing (code control_plane_origin control_plane_instance_id : str) (assignment_epoch : N) :
    M error (RealmFleetGrantRecord * str) :=
  ensure (negb (assignment_epoch =? 0)) (EBail "Fleet assignment epoch must be positive");;
  pairing ← take_pairing code (λ r, bool_decide (rp_control_plane_origin r = control_plane_origin));
  random ← random_bytes 32;
  let credential := #"rfg_" ++ b64url_encode random in
  timestamp ← now;
  id ← new_v4;
  let grant := mkGrant id (rp_realm_id pairing) (rp_control_plane_origin pairing) control_plane_instance_id assignment_epoch
                 (credential_digest credential) (hint_of credential) (rp_requested_scopes pairing) timestamp
                 (saturating_add timestamp GRANT_SECONDS) None in
  store_grant grant;;
  mret (grant, credential).

Definition credential_shape (credential : str) : bool :=
  starts_with #"rfg_" credential && ((32 <=? len credential) && (len credential <=? 128)).

Definition consume_outbound_realm_pairing (code control_plane_origin control_plane_instance_id : str) (assignment_epoch : N)
    (connection_id : Uuid) (credential : str) (granted_scopes : list str) : M error RealmFleetGrantRecord :=
  ensure (negb (assignment_epoch =? 0) && credential_shape credential) (EBail "outbound Fleet grant is invalid");;
  pairing ← take_pairing code (λ r, bool_decide (rp_control_plane_origin r = control_plane_origin)
                                     && bool_decide (rp_requested_scopes r = granted_scopes));
  timestamp ← now;
  let grant := mkGrant connection_id (rp_realm_id pairing) (rp_control_plane_origin pairing) control_plane_instance_id
                 assignment_epoch (credential_digest credential) (hint_of credential) granted_scopes timestamp
                 (saturating_add timestamp GRANT_SECONDS) None in
  store_grant grant;;
  mret grant.

Definition realm_fleet_grant_by_credential (credential : str) : M error (option RealmFleetGrantRecord) :=
  let digest := credential_digest credential in
  found ← get (grant_secret_key digest);
  match found with
  | None => mret None
  | Some id =>
      id ← some_or EUuid (uuid_parse id);
      grant ← get_json (grant_key id);
      match grant with
      | None => mret None
      | Some grant =>
          if is_some (rg_revoked_at grant) then mret None else
          t ← now;
          mret (if (t <? rg_expires_at grant) && bool_decide (rg_credential_digest grant = digest) then Some grant else None)
      end
  end.

Definition telemetry_export_grant (id : Uuid) : M error (option RealmFleetGrantRecord) :=
  grant ← get_json (grant_key id);
  match grant with
  | None => mret None
  | Some grant =>
      if is_some (rg_revoked_at grant) then mret None else
      t ← now;
      mret (if (t <? rg_expires_at grant) && existsb (λ s, bool_decide (s = #"telemetry.export")) (rg_granted_scopes grant)
            then Some grant else None)
  end.

Definition realm_telemetry_export_grants : M error (list RealmFleetGrantRecord) :=
  ids ← record_ids GRANT_PREFIX;
  grants ← load_records telemetry_export_grant ids;
  mret (sort_by (λ a b, rg_created_at b <? rg_created_at a) grants).

Definition revoke_realm_fleet_grant (connection_id : Uuid) : M error RealmFleetGrantRecord :=
  found ← get_json (grant_key connection_id);
  grant ← some_or (EPolicy RealmFleetGrantInvalid) found;
  grant ← (if is_some (rg_revoked_at grant) then mret grant else t ← now; mret (set_grant_revoked (Some t) grant));
  execute [SET (grant_key connection_id) (to_json grant); DEL [grant_secret_key (rg_credential_digest grant)]];;
  mret grant.

Definition rotate_realm_fleet_grant (connection_id request_id : Uuid) (credential credential_hint : str) :
    M error RealmFleetGrantRecord :=
  ensure (credential_shape credential && (len credential_hint <=? 32)) (EBail "new Fleet grant credential is invalid");;
  let digest := credential_digest credential in
  completed ← get_json (grant_rotation_key request_id);
  match completed with
  | Some completed =>
      ensure (bool_decide (rr_connection_id completed = connection_id) && bool_decide (rr_credential_digest completed = digest))
        (EBail "Fleet credential rotation request was replayed with different data");;
      grant ← get_json (grant_key connection_id);
      some_or (EPolicy RealmFleetGrantInvalid)
        (option_filter (λ g, negb (is_some (rg_revoked_at g)) && bool_decide (rg_credential_digest g = digest)) grant)
  | None =>
      found ← get_json (grant_key connection_id);
      grant ← some_or (EPolicy RealmFleetGrantInvalid) (option_filter (λ g, negb (is_some (rg_revoked_at g))) found);
      t ← now;
      ensure (t <? rg_expires_at grant) (EPolicy RealmFleetGrantInvalid);;
      timestamp ← now;
      let old_digest := rg_credential_digest grant in
      let grant := mkGrant (rg_connection_id grant) (rg_realm_id grant) (rg_control_plane_origin grant)
                     (rg_control_plane_instance_id grant) (rg_assignment_epoch grant) digest credential_hint
                     (rg_granted_scopes grant) timestamp (saturating_add timestamp GRANT_SECONDS) (rg_revoked_at grant) in
      execute [SET (grant_key (rg_connection_id grant)) (to_json grant); DEL [grant_secret_key old_digest];
               SET (grant_secret_key digest) (uuid_show (rg_connection_id grant));
               SETEX (grant_rotation_key request_id) (to_json (mkGrantRotation connection_id digest timestamp)) 86400];;
      mret grant
  end.

(** [count_keys]: the lengths of all batches, so that a key SCAN reports twice counts
    twice. *)
Definition count_keys (prefix : str) : M error N :=
  batches ← scan prefix;
  mret (foldl (λ count batch, saturating_add count (N.of_nat (length batch))) 0 batches).

Definition count_passkeys (ids : list Uuid) (count : N) : M error N :=
  foldM (λ count id, u ← get_json (#"auth:user:" ++ uuid_show id);
                     mret (match u with
                           | Some u => saturating_add count (N.of_nat (length (u_passkeys u)))
                           | None => count
                           end)) ids count.

Definition realm_summary_counts : M error RealmSummaryCounts :=
  user_ids ← record_ids #"auth:user:";
  passkeys ← count_passkeys user_ids 0;
  active_sessions ← count_keys #"auth:session:";
  accounts ← service_accounts;
  mret (mkSummaryCounts (N.of_nat (length user_ids)) passkeys active_sessions (N.of_nat (length accounts))).

(** ** Pairing codes *)

Lemma wp_take_pairing code valid o w (Q : result error RealmPairingRecord → world → Prop) :
  (∀ e w', vw w' = vw w ∨ vw w' = delete (pairing_key code) (vw w) → Q (Err e) w') →
  (∀ r w', vw w' = delete (pairing_key code) (vw w) → w_uuid w' = w_uuid w → w_rand w' = w_rand w →
     (∃ t v, live t (vw w) (pairing_key code) = Some v ∧ from_json v = Some r) → valid r = true → Q (Ok r) w') →
  wp (take_pairing code valid) o w Q.
Proof.
  intros He Hok. apply wp_bind, wp_take_json; [intros d _ Hd; by apply He|]. intros d Hd.
  destruct (live (trip_time o w) (vw w) _) as [v|] eqn:Hl; [destruct (from_json v) as [r|] eqn:Hj|].
  - apply wp_bind, wp_some_or; [|done]. intros ? [= <-]. apply wp_bind, wp_now. apply wp_bind, wp_ensure.
    + intros Hv. reflect. apply wp_ret, Hok; [done|done|done|by eauto|done].
    + intros _. apply He. by right.
  - apply He. by right.
  - apply wp_bind, wp_some_or; [done|]. intros _. apply He. by right.
Qed.

(** ** Grants *)

Definition is_grant_key (k : str) : bool := starts_with GRANT_PREFIX k.

Definition grants_ok (m : gmap str entry) : Prop := records grant_key rg_connection_id (λ _, True) m.

(** The grant of a connection is revoked. *)
Definition grant_revoked (m : gmap str entry) (id : Uuid) : Prop :=
  ∃ g, holds m (grant_key id) g ∧ is_Some (rg_revoked_at g).

Record grant_next (id : Uuid) (m m' : gmap str entry) : Prop := {
  gn_grants : grants_ok m';
  gn_revoked : grant_revoked m id → grant_revoked m' id
}.

Lemma grant_same id m m' : (∀ k, is_grant_key k = true → m' !! k = m !! k) → grants_ok m → grant_next id m m'.
Proof.
  intros Hag Hok. split.
  - intros i e He. rewrite Hag in He by done. by apply Hok.
  - intros (g & Hg & Hr). exists g. split; [|done]. unfold holds. by rewrite Hag.
Qed.

Lemma grant_put id m m' g :
  grants_ok m → (∀ i, i ≠ rg_connection_id g → m' !! grant_key i = m !! grant_key i) →
  holds m' (grant_key (rg_connection_id g)) g →
  (rg_connection_id g = id → grant_revoked m id → is_Some (rg_revoked_at g)) → grant_next id m m'.
Proof.
  intros Hok Hag Hg Hrev. split.
  - intros i e He. destruct (decide (i = rg_connection_id g)) as [->|Hne]; [|rewrite Hag in He by done; by apply Hok].
    unfold holds in Hg. rewrite Hg in He. injection He as <-. by exists g.
  - intros Hr. destruct (decide (rg_connection_id g = id)) as [<-|Hne]; [exists g; auto|].
    destruct Hr as (g0 & Hg0 & Hr). exists g0. split; [|done]. unfold holds. by rewrite Hag.
Qed.

(** The state a stored grant leaves. *)
Definition granted_state (g : RealmFleetGrantRecord) (m : gmap str entry) : gmap str entry :=
  <[grant_secret_key (rg_credential_digest g) := Entry (uuid_show (rg_connection_id g)) None]>
  (<[grant_key (rg_connection_id g) := Entry (to_json g) None]> m).

Lemma granted_next id g m m' :
  grants_ok m → (∀ k, is_grant_key k = true → m' !! k = m !! k) → rg_connection_id g ≠ id ∨ m !! grant_key id = None →
  grant_next id m (granted_state g m').
Proof.
  intros Hok Hag Hne. apply (grant_put _ _ _ g); [done| | |].
  - intros i Hi. unfold granted_state. rewrite lookup_insert_ne by key_neq.
    rewrite lookup_insert_ne; [by apply Hag|]. by intros ?%app_inv_head%(inj uuid_show).
  - unfold holds, granted_state. rewrite lookup_insert_ne by key_neq. apply lookup_insert_eq.
  - intros Heq (g0 & Hg0 & _). unfold holds in Hg0. destruct Hne; congruence.
Qed.

Lemma wp_store_grant id g m o w :
  grants_ok m → (∀ k, is_grant_key k = true → vw w !! k = m !! k) → rg_connection_id g ≠ id ∨ m !! grant_key id = None →
  wp (store_grant g) o w (λ _ w', grant_next id m (vw w')).
Proof.
  intros Hok Hag Hne. apply (wp_execute_inv (grant_next id m)); [by apply grant_same|]. intros t. by apply granted_next.
Qed.

Lemma taken_same (code : str) (m m' : gmap str entry) (k : str) :
  m' = m ∨ m' = delete (pairing_key code) m → is_grant_key k = true → m' !! k = m !! k.
Proof.
  intros [->| ->] Hk; [done|]. apply lookup_delete_ne. intros <-. done.
Qed.

Lemma wp_exchange_pairing id code origin instance epoch o w :
  grants_ok (vw w) → fresh_id grant_key o w →
  wp (exchange_realm_pairing code origin instance epoch) o w (λ _ w', grant_next id (vw w) (vw w')).
Proof.
  intros Hok Hfresh. apply wp_bind, wp_ensure; [intros _|intros _; by apply grant_same].
  apply wp_bind, wp_take_pairing; [intros e w1 Hv; apply grant_same; [|done]; intros; by eapply taken_same|].
  intros r w1 Hv1 Hu1 _ _ _. apply wp_bind. unfold wp at 1. cbn [random_bytes fst snd]. cbv zeta.
  apply wp_bind, wp_now, wp_bind. unfold wp at 1. cbn [new_v4 fst snd tick w_uuid]. cbv zeta. rewrite Hu1.
  apply wp_bind. eapply wp_mono; [eapply (wp_store_grant id _ (vw w)); [done| |]|].
  - intros k Hk. eapply taken_same; [right; exact Hv1|done].
  - cbn [rg_connection_id]. destruct (decide (o_uuid o (w_uuid w) = id)) as [<-|]; [by right|by left].
  - intros [[]|e] w2 Hw2; [by apply wp_ret|done].
Qed.

Lemma wp_consume id code origin instance epoch cid credential scopes o w :
  grants_ok (vw w) → cid ≠ id →
  wp (consume_outbound_realm_pairing code origin instance epoch cid credential scopes) o w
    (λ _ w', grant_next id (vw w) (vw w')).
Proof.
  intros Hok Hne. apply wp_bind, wp_ensure; [intros _|intros _; by apply grant_same].
  apply wp_bind, wp_take_pairing; [intros e w1 Hv; apply grant_same; [|done]; intros; by eapply taken_same|].
  intros r w1 Hv1 _ _ _ _. apply wp_bind, wp_now, wp_bind.
  eapply wp_mono; [eapply (wp_store_grant id _ (vw w)); [done| |by left]|].
  - intros k Hk. eapply taken_same; [right; exact Hv1|done].
  - intros [[]|e] w2 Hw2; [by apply wp_ret|done].
Qed.

(** Revocation. *)
Definition revoke_grant_outcome (cid : Uuid) (r : result error RealmFleetGrantRecord) (w' : world) : Prop :=
  ∀ g, r = Ok g → holds (vw w') (grant_key cid) g ∧ is_Some (rg_revoked_at g) ∧ rg_connection_id g = cid.

Lemma revoked_state id cid g m :
  grants_ok m → rg_connection_id g = cid → is_Some (rg_revoked_at g) →
  let m' := delete (grant_secret_key (rg_credential_digest g)) (<[grant_key cid := Entry (to_json g) None]> m) in
  grant_next id m m' ∧ holds m' (grant_key cid) g.
Proof.
  intros Hok <- Hrev m'. assert (Hh : holds m' (grant_key (rg_connection_id g)) g).
  { unfold holds, m'. rewrite lookup_delete_ne by key_neq. apply lookup_insert_eq. }
  split; [|done]. apply (grant_put _ _ _ g); [done| |done|done]. intros i Hi. unfold m'.
  rewrite lookup_delete_ne by key_neq. rewrite lookup_insert_ne; [done|]. by intros ?%app_inv_head%(inj uuid_show).
Qed.

Lemma wp_revoke_grant id cid o w :
  grants_ok (vw w) →
  wp (revoke_realm_fleet_grant cid) o w (λ r w', grant_next id (vw w) (vw w') ∧ revoke_grant_outcome cid r w').
Proof.
  intros Hok. assert (Herr : ∀ e w', vw w' = vw w → grant_next id (vw w) (vw w') ∧ revoke_grant_outcome cid (Err e) w').
  { intros e w' Hv. split; [|done]. apply grant_same; [|done]. intros. by rewrite Hv. }
  apply wp_bind. eapply wp_record; [exact Hok|by intros w1 [Hv1 _]; apply Herr| |].
  { intros w1 [Hv1 _] _. apply wp_bind, wp_some_or; [done|]. intros _. by apply Herr. }
  intros g w1 [Hv1 _] Hg Hid _. apply wp_bind, wp_some_or; [|done]. intros ? [= <-].
  assert (Hgo : ∀ g' w2, vw w2 = vw w → rg_connection_id g' = cid → is_Some (rg_revoked_at g') →
    wp (execute [SET (grant_key cid) (to_json g'); DEL [grant_secret_key (rg_credential_digest g')]];; mret g') o w2
      (λ r w', grant_next id (vw w) (vw w') ∧ revoke_grant_outcome cid r w')).
  { intros g' w2 Hv2 Hid' Hrev. destruct (revoked_state id cid g' (vw w) Hok Hid' Hrev) as [Hn Hh].
    apply wp_bind, wp_execute_view; rewrite Hv2.
    - intros w3 t _ [Hv|Hv]; [by apply Herr|]. split; [rewrite Hv; exact Hn|done].
    - intros w3 t _ Hv. apply wp_ret. split; [rewrite Hv; exact Hn|]. intros ? [= <-]. split; [|done]. rewrite Hv. exact Hh. }
  apply wp_bind. destruct (rg_revoked_at g) as [t0|] eqn:Hr; cbn [is_some].
  - apply wp_ret, Hgo; [done|done|by rewrite Hr].
  - apply wp_bind, wp_now, wp_ret. apply Hgo; [by rewrite vw_tick|done|done].
Qed.

(** The state a rotation leaves. *)
Definition rotated_state (t : N) (rid : Uuid) (old : str) (g : RealmFleetGrantRecord) (m : gmap str entry) : gmap str entry :=
  <[grant_rotation_key rid := Entry (to_json (mkGrantRotation (rg_connection_id g) (rg_credential_digest g) (rg_created_at g)))
                                (Some (t + 86400))]>
  (<[grant_secret_key (rg_credential_digest g) := Entry (uuid_show (rg_connection_id g)) None]>
  (delete (grant_secret_key old) (<[grant_key (rg_connection_id g) := Entry (to_json g) None]> m))).

Lemma rotated_lookups t rid old g m :
  holds (rotated_state t rid old g m) (grant_key (rg_connection_id g)) g ∧
  rotated_state t rid old g m !! grant_secret_key (rg_credential_digest g) = Some (Entry (uuid_show (rg_connection_id g)) None) ∧
  ∀ i, i ≠ rg_connection_id g → rotated_state t rid old g m !! grant_key i = m !! grant_key i.
Proof.
  unfold holds, rotated_state. split_and!.
  - rewrite !lookup_insert_ne by key_neq. rewrite lookup_delete_ne by key_neq. apply lookup_insert_eq.
  - rewrite lookup_insert_ne by key_neq. apply lookup_insert_eq.
  - intros i Hi. rewrite !lookup_insert_ne by key_neq. rewrite lookup_delete_ne by key_neq.
    rewrite lookup_insert_ne; [done|]. by intros ?%app_inv_head%(inj uuid_show).
Qed.

Definition rotate_grant_outcome (m : gmap str entry) (cid rid : Uuid) (credential : str)
    (r : result error RealmFleetGrantRecord) (w' : world) : Prop :=
  ∀ g, r = Ok g → ¬ grant_revoked m cid ∧ rg_connection_id g = cid ∧
    (m !! grant_rotation_key rid = None →
     rg_credential_digest g = credential_digest credential ∧ rg_revoked_at g = None ∧ holds (vw w') (grant_key cid) g ∧
     vw w' !! grant_secret_key (credential_digest credential) = Some (Entry (uuid_show cid) None)).

(** Writing the rotated grant [g'] over [g], which is not revoked. *)
Lemma wp_rotate_write id rid credential g g' o w :
  grants_ok (vw w) → holds (vw w) (grant_key (rg_connection_id g)) g → rg_revoked_at g = None →
  rg_connection_id g' = rg_connection_id g → rg_credential_digest g' = credential_digest credential → rg_revoked_at g' = None →
  wp (execute [SET (grant_key (rg_connection_id g')) (to_json g'); DEL [grant_secret_key (rg_credential_digest g)];
               SET (grant_secret_key (rg_credential_digest g')) (uuid_show (rg_connection_id g'));
               SETEX (grant_rotation_key rid)
                 (to_json (mkGrantRotation (rg_connection_id g') (rg_credential_digest g') (rg_created_at g'))) 86400];; mret g') o w
    (λ r w', grant_next id (vw w) (vw w') ∧ rotate_grant_outcome (vw w) (rg_connection_id g) rid credential r w').
Proof.
  intros Hok Hg Hr Hid Hdig Hr'. assert (Hnot : ¬ grant_revoked (vw w) (rg_connection_id g)).
  { intros (g0 & Hg0 & [? Hr0]). rewrite (holds_inj _ _ _ _ Hg0 Hg) in Hr0. congruence. }
  assert (Hn : ∀ t, grant_next id (vw w) (rotated_state t rid (rg_credential_digest g) g' (vw w))).
  { intros t. destruct (rotated_lookups t rid (rg_credential_digest g) g' (vw w)) as (Hh & _ & Ho).
    apply (grant_put _ _ _ g'); [done|done|done|]. rewrite Hid. intros <- Hrev. done. }
  apply wp_bind, wp_execute_view.
  - intros w1 t _ [Hv|Hv]; (split; [|done]); rewrite Hv; [by apply grant_same|apply Hn].
  - intros w1 t _ Hv. apply wp_ret. split; [rewrite Hv; apply Hn|]. intros ? [= <-]. split_and!; [done|done|]. intros _.
    destruct (rotated_lookups t rid (rg_credential_digest g) g' (vw w)) as (Hh & Hs & _). rewrite Hv, <- Hid, <- Hdig.
    by split_and!.
Qed.

Lemma wp_rotate_grant id cid rid credential hint o w :
  grants_ok (vw w) →
  wp (rotate_realm_fleet_grant cid rid credential hint) o w
    (λ r w', grant_next id (vw w) (vw w') ∧ rotate_grant_outcome (vw w) cid rid credential r w').
Proof.
  intros Hok. set (Q := λ r w', _). assert (Herr : ∀ e w', vw w' = vw w → Q (Err e) w').
  { intros e w' Hv. split; [|done]. apply grant_same; [|done]. intros. by rewrite Hv. }
  apply wp_bind, wp_ensure; [intros _|intros _; by apply Herr]. apply wp_bind, wp_get_json_view; [by intros; apply Herr|].
  intros t w1 Hv1. destruct (live t (vw w) (grant_rotation_key rid)) as [v|] eqn:Hl.
  { destruct (from_json v) as [done_|]; [|by apply Herr]. apply wp_bind, wp_ensure; [intros Hb|intros _; by apply Herr].
    apply wp_bind. eapply wp_record; [rewrite Hv1; exact Hok| | |].
    - intros w2 [Hv2 _]. apply Herr. congruence.
    - intros w2 [Hv2 _] _. apply wp_some_or; [done|]. intros _. apply Herr. congruence.
    - intros g w2 [Hv2 _] Hg Hid _. rewrite Hv1 in Hg, Hv2. apply wp_some_or; [|intros _; by apply Herr].
      intros ? [[= <-] Hp]%option_filter_Some. split; [apply grant_same; [intros; by rewrite Hv2|done]|]. reflect.
      intros ? [= <-]. split_and!; [|done|].
      + intros (g' & Hg' & [? Hr]). rewrite (holds_inj _ _ _ _ Hg' Hg) in Hr. by rewrite Hr in *.
      + apply live_Some in Hl as [dl Hl]. intros Hn. congruence. }
  apply wp_bind. eapply wp_record; [rewrite Hv1; exact Hok| | |].
  - intros w2 [Hv2 _]. apply Herr. congruence.
  - intros w2 [Hv2 _] _. apply wp_bind, wp_some_or; [done|]. intros _. apply Herr. congruence.
  - intros g w2 [Hv2 _] Hg <- _. rewrite Hv1 in Hg, Hv2. apply wp_bind, wp_some_or; [|intros _; by apply Herr].
    intros ? [[= <-] Hrev]%option_filter_Some. apply wp_bind, wp_now. apply wp_bind, wp_ensure; [intros _|intros _; by apply Herr].
    apply wp_bind, wp_now. cbv zeta. destruct (rg_revoked_at g) eqn:Hr; [done|]. set (g' := mkGrant _ _ _ _ _ _ _ _ _ _ _).
    assert (Hv3 : vw (tick (tick w2)) = vw w) by (by rewrite !vw_tick). unfold Q. rewrite <- Hv3 in Hok, Hg |- *.
    by apply (wp_rotate_write id rid credential g g').
Qed.

(** ** Lookup by credential *)

Lemma wp_grant_lookup credential o w :
  grants_ok (vw w) →
  wp (realm_fleet_grant_by_credential credential) o w (λ r w', vw w' = vw w ∧ ∀ g, r = Ok (Some g) →
    holds (vw w) (grant_key (rg_connection_id g)) g ∧ rg_revoked_at g = None ∧
    rg_credential_digest g = credential_digest credential ∧ ∃ n, o_now o n < rg_expires_at g).
Proof.
  intros Hok. apply wp_bind, wp_get_view; [done|]. intros t w1 Hv1. destruct (live _ _ _) as [v|]; [|by apply wp_ret].
  apply wp_bind, wp_some_or; [|done]. intros id _. apply wp_bind. eapply wp_record; [rewrite Hv1; exact Hok| | |].
  - intros w2 [Hv2 _]. split; [congruence|done].
  - intros w2 [Hv2 _] _. apply wp_ret. split; [congruence|done].
  - intros g w2 [Hv2 _] Hg Hid _. rewrite Hv1 in Hg, Hv2. destruct (rg_revoked_at g) eqn:Hr; cbn [is_some]; [by apply wp_ret|].
    apply wp_bind, wp_now, wp_ret. split; [by rewrite vw_tick|]. destruct (_ && _) eqn:Hb; [|done]. reflect.
    intros ? [= <-]. subst id. split_and!; [done|done|done|]. eexists. unfold clock in *. done.
Qed.

(** ** Sequences of operations *)

(** Anything but an outbound pairing that reuses the identifier [id]. *)
Inductive grant_run (id : Uuid) : world → world → Prop :=
  | gr_create realm origin scopes by_ o w : grant_run id w (create_realm_pairing realm origin scopes by_ o w).2
  | gr_exchange code origin instance epoch o w :
      fresh_id grant_key o w → grant_run id w (exchange_realm_pairing code origin instance epoch o w).2
  | gr_consume code origin instance epoch cid credential scopes o w :
      cid ≠ id → grant_run id w (consume_outbound_realm_pairing code origin instance epoch cid credential scopes o w).2
  | gr_rotate cid rid credential hint o w : grant_run id w (rotate_realm_fleet_grant cid rid credential hint o w).2
  | gr_revoke cid o w : grant_run id w (revoke_realm_fleet_grant cid o w).2
  | gr_elsewhere w w' : agree_on (λ k, is_grant_key k = true) (vw w) (vw w') → grant_run id w w'.

Lemma create_pairing_grants realm origin scopes by_ : leaves is_grant_key (create_realm_pairing realm origin scopes by_).
Proof. unfold leaves, create_realm_pairing. moves_go. by apply leaves_execute. Qed.

Lemma grant_run_step id w w' : grant_run id w w' → grants_ok (vw w) → grant_next id (vw w) (vw w').
Proof.
  intros [realm origin scopes by_ o ?|code origin instance epoch o ? Hf|code origin instance epoch cid credential scopes o ? Hne
         |cid rid credential hint o ?|cid o ?|? ? Hag] Hok.
  - apply grant_same; [|done]. intros k Hk. by apply create_pairing_grants.
  - exact (wp_exchange_pairing id code origin instance epoch o _ Hok Hf).
  - exact (wp_consume id code origin instance epoch cid credential scopes o _ Hok Hne).
  - exact (proj1 (wp_rotate_grant id cid rid credential hint o _ Hok)).
  - exact (proj1 (wp_revoke_grant id cid o _ Hok)).
  - by apply grant_same.
Qed.

Lemma grant_runs_step id w w' : rtc (grant_run id) w w' → grants_ok (vw w) → grant_next id (vw w) (vw w').
Proof.
  induction 1 as [w|w w1 w2 Hs _ IH]; intros Hok; [by apply grant_same|].
  destruct (grant_run_step _ _ _ Hs Hok) as [Hok1 Hr1]. destruct (IH Hok1) as [Hok2 Hr2]. split; [done|auto].
Qed.

(** A key that is absent stays absent. *)
Definition stays_absent (k : str) (m m' : gmap str entry) : Prop := m !! k = None → m' !! k = None.

#[global] Instance stays_absent_preorder k : PreOrder (stays_absent k).
Proof. split; [by intros m Hm|]. intros m1 m2 m3 H12 H23 Hm. auto. Qed.

Lemma absent_agree k P m m' : P k = true → agree_on (λ k, P k = true) m m' → stays_absent k m m'.
Proof. intros HP Hag Hk. by rewrite Hag. Qed.

Lemma take_pairing_absent code valid k : moves (stays_absent k) (take_pairing code valid).
Proof.
  unfold take_pairing. moves_go. apply moves_take_json; [apply _|]. intros m Hk.
  destruct (decide (pairing_key code = k)) as [->|Hne]; [apply lookup_delete_eq|by rewrite lookup_delete_ne].
Qed.

Definition is_pairing_key (k : str) : bool := starts_with PAIRING_PREFIX k.

Lemma pairing_writes_absent code p : leaves is_pairing_key p → moves (stays_absent (pairing_key code)) (p : M error unit).
Proof. intros Hp. eapply moves_mono; [|exact Hp]. intros m m'. by apply absent_agree. Qed.

Ltac absent_go := moves_go; first [apply take_pairing_absent | apply pairing_writes_absent; by apply leaves_execute].

Lemma exchange_absent code code' origin instance epoch :
  moves (stays_absent (pairing_key code)) (exchange_realm_pairing code' origin instance epoch).
Proof. unfold exchange_realm_pairing, store_grant. absent_go. Qed.

Lemma consume_absent code code' origin instance epoch cid credential scopes :
  moves (stays_absent (pairing_key code)) (consume_outbound_realm_pairing code' origin instance epoch cid credential scopes).
Proof. unfold consume_outbound_realm_pairing, store_grant. absent_go. Qed.

Lemma rotate_absent code cid rid credential hint :
  moves (stays_absent (pairing_key code)) (rotate_realm_fleet_grant cid rid credential hint).
Proof. unfold rotate_realm_fleet_grant. absent_go. Qed.

Lemma revoke_absent code cid : moves (stays_absent (pairing_key code)) (revoke_realm_fleet_grant cid).
Proof. unfold revoke_realm_fleet_grant. absent_go. Qed.

(** The bytes drawn next. *)
Definition next_draw (n : nat) (o : oracle) (w : world) : list N := (λ i, o_rand o (w_rand w) i mod 256) <$> seq 0 n.

(** Anything but drawing the same code once more. *)
Inductive pairing_run (code : str) : world → world → Prop :=
  | pr_create realm origin scopes by_ o w :
      pairing_key (#"rpair_" ++ b64url_encode (next_draw 32 o w)) ≠ pairing_key code →
      pairing_run code w (create_realm_pairing realm origin scopes by_ o w).2
  | pr_exchange code' origin instance epoch o w : pairing_run code w (exchange_realm_pairing code' origin instance epoch o w).2
  | pr_consume code' origin instance epoch cid credential scopes o w :
      pairing_run code w (consume_outbound_realm_pairing code' origin instance epoch cid credential scopes o w).2
  | pr_rotate cid rid credential hint o w : pairing_run code w (rotate_realm_fleet_grant cid rid credential hint o w).2
  | pr_revoke cid o w : pairing_run code w (revoke_realm_fleet_grant cid o w).2
  | pr_elsewhere w w' : agree_on (λ k, is_pairing_key k = true) (vw w) (vw w') → pairing_run code w w'.

Lemma create_absent code realm origin scopes by_ o w :
  pairing_key (#"rpair_" ++ b64url_encode (next_draw 32 o w)) ≠ pairing_key code →
  stays_absent (pairing_key code) (vw w) (vw (create_realm_pairing realm origin scopes by_ o w).2).
Proof.
  intros Hne Hk. enough (wp (create_realm_pairing realm origin scopes by_) o w (λ _ w', vw w' !! pairing_key code = None)) as Hw
    by exact Hw.
  apply wp_bind, wp_now, wp_bind. unfold wp at 1. cbn [new_v4 fst snd]. cbv zeta. apply wp_bind.
  unfold wp at 1. cbn [random_bytes fst snd tick w_rand]. fold (next_draw 32 o w). cbv zeta. apply wp_bind.
  eapply wp_mono; [apply (wp_execute_inv (λ m, m !! pairing_key code = None)); [exact Hk|]|].
  - intros t. cbn. by rewrite lookup_insert_ne.
  - intros [[]|e] w' Hw'; [by apply wp_ret|done].
Qed.

Lemma pairing_run_absent code w w' : pairing_run code w w' → stays_absent (pairing_key code) (vw w) (vw w').
Proof.
  intros [realm origin scopes by_ o ? Hne| | | | |? ? Hag].
  - exact (create_absent code realm origin scopes by_ o _ Hne).
  - apply exchange_absent.
  - apply consume_absent.
  - apply rotate_absent.
  - apply revoke_absent.
  - by apply (absent_agree _ is_pairing_key).
Qed.

Lemma pairing_runs_absent code w w' : rtc (pairing_run code) w w' → stays_absent (pairing_key code) (vw w) (vw w').
Proof. induction 1 as [w|w w1 w2 Hs _ IH]; [done|]. intros Hk. by apply IH, (pairing_run_absent _ _ _ Hs). Qed.

(** A code that is not stored buys nothing. *)
Lemma wp_take_absent code valid o w (Q : result error RealmPairingRecord → world → Prop) :
  vw w !! pairing_key code = None → (∀ e w', Q (Err e) w') → wp (take_pairing code valid) o w Q.
Proof.
  intros Hk He. apply wp_take_pairing; [by intros|]. intros r w' _ _ _ (t & v & Hl & _) _.
  rewrite live_missing in Hl by done. done.
Qed.

(** ** Properties *)

(** C17: a pairing code is exchanged at most once: after a successful exchange no later
    exchange or outbound consumption of the code succeeds, whatever else happens in
    between, short of the same code being drawn again. *)
Theorem pairing_code_single_use code origin instance epoch o w g w1 w2 o' :
  exchange_realm_pairing code origin instance epoch o w = (Ok g, w1) → rtc (pairing_run code) w1 w2 →
  (∀ origin' instance' epoch', is_ok (exchange_realm_pairing code origin' instance' epoch' o' w2).1 = false) ∧
  (∀ origin' instance' epoch' cid credential scopes,
     is_ok (consume_outbound_realm_pairing code origin' instance' epoch' cid credential scopes o' w2).1 = false).
Proof.
  intros Hrun Hruns. assert (Hk : vw w1 !! pairing_key code = None).
  { enough (wp (exchange_realm_pairing code origin instance epoch) o w (λ r w', ∀ g, r = Ok g → vw w' !! pairing_key code = None)) as Hw
      by (unfold wp in Hw; rewrite Hrun in Hw; by eapply Hw).
    apply wp_bind, wp_ensure; [intros _|done]. apply wp_bind, wp_take_pairing; [done|]. intros r w' Hv _ _ _ _.
    eapply wp_mono; [apply (wp_moves (stays_absent (pairing_key code)))|].
    - unfold store_grant. absent_go.
    - intros x w'' Hs g' ->. apply Hs. rewrite Hv. apply lookup_delete_eq. }
  apply (pairing_runs_absent _ _ _ Hruns) in Hk.
  split; intros; match goal with |- is_ok (?p o' w2).1 = false => change (wp p o' w2 (λ r _, is_ok r = false)) end;
    (apply wp_bind, wp_ensure; [intros _|done]); by apply wp_bind, wp_take_absent.
Qed.

(** Once a realm revokes a grant, no credential authenticates its connection any
    more and it cannot be rotated back to life, whatever pairings, rotations and
    revocations follow (outbound pairings that reuse the identifier apart). *)
Theorem revoked_grant_refused id o w g w1 w2 o' :
  grants_ok (vw w) → revoke_realm_fleet_grant id o w = (Ok g, w1) → rtc (grant_run id) w1 w2 →
  (∀ credential x, (realm_fleet_grant_by_credential credential o' w2).1 = Ok (Some x) → rg_connection_id x ≠ id) ∧
  (∀ rid credential hint x, (rotate_realm_fleet_grant id rid credential hint o' w2).1 ≠ Ok x).
Proof.
  intros Hok Hrun Hruns. pose proof (wp_revoke_grant id id o w Hok) as Hw. unfold wp in Hw. rewrite Hrun in Hw.
  destruct Hw as [[Hok1 _] Hout]. destruct (Hout g eq_refl) as (Hg & Hrev & _).
  destruct (grant_runs_step _ _ _ Hruns Hok1) as [Hok2 Hr2]. assert (Hrv : grant_revoked (vw w2) id) by (apply Hr2; by exists g).
  split.
  - intros credential x Hx <-. destruct (wp_grant_lookup credential o' w2 Hok2) as [_ Hl].
    destruct (Hl x Hx) as (Hh & Hnone & _). destruct Hrv as (g' & Hg' & [? Hs]).
    rewrite (holds_inj _ _ _ _ Hg' Hh) in Hs. congruence.
  - intros rid credential hint x Hx. destruct (wp_rotate_grant id id rid credential hint o' w2 Hok2) as [_ Ho].
    by destruct (Ho x Hx) as [Hn _].
Qed.

(** A rotation switches credentials at once: afterwards the connection answers to
    the new credential only, with the rotated grant. *)
Theorem rotation_switches id rid credential hint o w g w1 o' :
  grants_ok (vw w) → vw w !! grant_rotation_key rid = None →
  rotate_realm_fleet_grant id rid credential hint o w = (Ok g, w1) →
  (∀ other x, (realm_fleet_grant_by_credential other o' w1).1 = Ok (Some x) → rg_connection_id x = id →
     credential_digest other = credential_digest credential ∧ x = g) ∧
  (reliable o' → (∀ n, o_now o' n < rg_expires_at g) → (realm_fleet_grant_by_credential credential o' w1).1 = Ok (Some g)).
Proof.
  intros Hok Hnew Hrun. pose proof (wp_rotate_grant id id rid credential hint o w Hok) as Hw. unfold wp in Hw. rewrite Hrun in Hw.
  destruct Hw as [[Hok1 _] Hout]. destruct (Hout g eq_refl) as (_ & Hid & Hd). destruct (Hd Hnew) as (Hdig & Hrev & Hg & Hs).
  split.
  - intros other x Hx Hxid. destruct (wp_grant_lookup other o' w1 Hok1) as [_ Hl]. destruct (Hl x Hx) as (Hh & _ & Hxd & _).
    rewrite Hxid in Hh. assert (x = g) as -> by (by eapply holds_inj). split; [congruence|done].
  - intros Hr Hexp. change (wp (realm_fleet_grant_by_credential credential) o' w1 (λ r _, r = Ok (Some g))).
    apply wp_bind, wp_get_view; [done|]. intros t w2 Hv2. rewrite (live_persistent _ _ _ _ Hs).
    apply wp_bind, wp_some_or; [|by rewrite uuid_parse_show]. intros ? [= <-]%(eq_trans (eq_sym (uuid_parse_show _))).
    apply wp_bind, wp_get_json_view; [done|]. intros t' w3 Hv3. rewrite Hv2, (live_persistent _ _ _ _ Hg), from_to_json, Hrev.
    apply wp_bind, wp_now, wp_ret. unfold clock. rewrite (proj2 (N.ltb_lt _ _) (Hexp _)), bool_decide_eq_true_2 by done. done.
Qed.
End Management.

(** ** Witnesses *)

Module DemoManagement.
Import DemoEnv.

#[export] Program Instance codec_pairing : Codec RealmPairingRecord :=
  codec_iso (λ r : RealmPairingRecord, (rp_id r, (rp_realm_id r, (rp_control_plane_origin r, (rp_requested_scopes r,
      (rp_created_by r, (rp_created_at r, rp_expires_at r)))))))
    (λ '(a, (b, (c, (d, (e, (f, g)))))), Some (mkPairing a b c d e f g)) _.
Next Obligation. by intros []. Qed.

#[export] Program Instance codec_grant : Codec RealmFleetGrantRecord :=
  codec_iso (λ r : RealmFleetGrantRecord, (rg_connection_id r, (rg_realm_id r, (rg_control_plane_origin r,
      (rg_control_plane_instance_id r, (rg_assignment_epoch r, (rg_credential_digest r, (rg_credential_hint r,
      (rg_granted_scopes r, (rg_created_at r, (rg_expires_at r, rg_revoked_at r)))))))))))
    (λ '(a, (b, (c, (d, (e, (f, (g, (h, (i, (j, k)))))))))), Some (mkGrant a b c d e f g h i j k)) _.
Next Obligation. by intros []. Qed.

#[export] Program Instance codec_grant_rotation : Codec RealmFleetGrantRotationRecord :=
  codec_iso (λ r : RealmFleetGrantRotationRecord, (rr_connection_id r, (rr_credential_digest r, rr_completed_at r)))
    (λ '(a, (b, c)), Some (mkGrantRotation a b c)) _.
Next Obligation. by intros []. Qed.

(** A realm pairs with a control plane, rotates the credential and ends the grant. *)
Definition demo_origin : str := #"https://fleet.example".
Abbreviation demo_pairing :=
  (create_realm_pairing #"realm-a" demo_origin [lit "realm.read"] (demo_uuid_of 900) demo_oracle (demo_world [])).
Definition demo_code : str := Eval vm_compute in match demo_pairing.1 with Ok (_, c) => c | Err _ => [] end.
Definition demo_pairing_world : world := Eval vm_compute in demo_pairing.2.
Abbreviation demo_exchange := (exchange_realm_pairing demo_code demo_origin #"fleet-1" 1 demo_oracle demo_pairing_world).
Definition demo_grant_id : Uuid :=
  Eval vm_compute in match demo_exchange.1 with Ok (g, _) => rg_connection_id g | Err _ => demo_uuid_of 0 end.
Definition demo_grant_world : world := Eval vm_compute in demo_exchange.2.
Definition demo_new_credential : str := #"rfg_0123456789012345678901234567890123456789".
Abbreviation demo_rotation :=
  (rotate_realm_fleet_grant demo_grant_id (demo_uuid_of 901) demo_new_credential #"456789" demo_oracle demo_grant_world).
Definition demo_rotated_world : world := Eval vm_compute in demo_rotation.2.
Abbreviation demo_revocation := (revoke_realm_fleet_grant demo_grant_id demo_oracle demo_rotated_world).

Lemma pairing_code_single_use_witness :
  is_ok demo_exchange.1 = true ∧ is_ok (exchange_realm_pairing demo_code demo_origin #"fleet-1" 2 demo_oracle demo_exchange.2).1 = false.
Proof.
  assert (Hok : is_ok demo_exchange.1 = true) by eval_eq. split; [exact Hok|].
  destruct (demo_exchange.1) as [g|e] eqn:Hr; [|discriminate Hok].
  assert (Hrun : demo_exchange = (Ok g, demo_exchange.2)) by (rewrite <- Hr; by destruct demo_exchange).
  exact (proj1 (pairing_code_single_use demo_code demo_origin #"fleet-1" 1 demo_oracle demo_pairing_world g demo_exchange.2
    demo_exchange.2 demo_oracle Hrun (rtc_refl _ _)) demo_origin #"fleet-1" 2).
Defined.

Lemma demo_grants_ok : grants_ok (vw demo_grant_world).
Proof.
  assert (Hn : grant_next demo_grant_id (vw demo_pairing_world) (vw demo_exchange.2)).
  { apply (wp_exchange_pairing demo_grant_id demo_code demo_origin #"fleet-1" 1 demo_oracle demo_pairing_world); [|unfold fresh_id; eval_eq].
    intros id e He. pose proof (demo_view_forall demo_pairing_world (λ p, negb (is_grant_key p.1)) (grant_key id) e
      ltac:(eval_eq) He) as Hall. done. }
  assert (demo_grant_world = demo_exchange.2) as -> by eval_eq. apply Hn.
Qed.

Lemma demo_rotated_ok : grants_ok (vw demo_rotated_world).
Proof.
  assert (demo_rotated_world = demo_rotation.2) as -> by eval_eq.
  apply (wp_rotate_grant demo_grant_id demo_grant_id (demo_uuid_of 901) demo_new_credential #"456789" demo_oracle
    demo_grant_world demo_grants_ok).
Qed.

Lemma revoked_grant_refused_witness :
  is_ok demo_revocation.1 = true ∧
  ∀ x, (realm_fleet_grant_by_credential demo_new_credential demo_oracle demo_revocation.2).1 = Ok (Some x) →
    rg_connection_id x ≠ demo_grant_id.
Proof.
  assert (Hok : is_ok demo_revocation.1 = true) by eval_eq. split; [exact Hok|].
  destruct (demo_revocation.1) as [g|e] eqn:Hr; [|discriminate Hok].
  assert (Hrun : demo_revocation = (Ok g, demo_revocation.2)) by (rewrite <- Hr; by destruct demo_revocation).
  exact (proj1 (revoked_grant_refused demo_grant_id demo_oracle demo_rotated_world g demo_revocation.2 demo_revocation.2
    demo_oracle demo_rotated_ok Hrun (rtc_refl _ _)) demo_new_credential).
Defined.

Lemma rotation_switches_witness :
  is_ok demo_rotation.1 = true ∧
  ∀ other x, (realm_fleet_grant_by_credential other demo_oracle demo_rotation.2).1 = Ok (Some x) →
    rg_connection_id x = demo_grant_id → credential_digest other = credential_digest demo_new_credential.
Proof.
  assert (Hok : is_ok demo_rotation.1 = true) by eval_eq. split; [exact Hok|].
  destruct (demo_rotation.1) as [g|e] eqn:Hr; [|discriminate Hok].
  assert (Hrun : demo_rotation = (Ok g, demo_rotation.2)) by (rewrite <- Hr; by destruct demo_rotation).
  intros other x Hx Hid.
  exact (proj1 (proj1 (rotation_switches demo_grant_id (demo_uuid_of 901) demo_new_credential #"456789" demo_oracle
    demo_grant_world g demo_rotation.2 demo_oracle demo_grants_ok ltac:(eval_eq) Hrun) other x Hx Hid)).
Defined.
End DemoManagement.
