(* ===== verification/Fleet.v ===== *)
(** * The fleet hierarchy (src/src/store/fleet.rs)

    Organizations, their projects and their environments in the control plane's
    datastore.  Every mutation writes the resource, the record of the request that
    caused it and an audit record in one transaction, so that a retried request is
    answered from the record instead of being carried out again. *)

From S2P Require Import Prelude Sable Logic Demo Records.

Definition ORGANIZATION_PREFIX : str := #"fleet:organization:".
Definition ORGANIZATION_SLUG_PREFIX : str := #"fleet:organization-slug:".
Definition PROJECT_PREFIX : str := #"fleet:project:".
Definition PROJECT_SLUG_PREFIX : str := #"fleet:project-slug:".
Definition ENVIRONMENT_PREFIX : str := #"fleet:environment:".
Definition ENVIRONMENT_SLUG_PREFIX : str := #"fleet:environment-slug:".
Definition IDEMPOTENCY_PREFIX : str := #"fleet:idempotency:".
Definition AUDIT_PREFIX : str := #"fleet:audit:".

Inductive FleetResourceStateRecord := FleetActive | FleetArchived.
#[global] Instance FleetResourceStateRecord_eq_dec : EqDecision FleetResourceStateRecord.
Proof. solve_decision. Defined.

Inductive FleetEnvironmentKindRecord := Development | Preview | Staging | Production.

Inductive FleetResourceKindRecord := KOrganization | KProject | KEnvironment.
#[global] Instance FleetResourceKindRecord_eq_dec : EqDecision FleetResourceKindRecord.
Proof. solve_decision. Defined.

Record FleetOrganizationRecord := mkFleetOrganization {
  fo_id : Uuid;
  fo_slug : str;
  fo_name : str;
  fo_state : FleetResourceStateRecord;
  fo_created_at : N;
  fo_updated_at : N;
  fo_archived_at : option N
}.

Record FleetProjectRecord := mkFleetProject {
  fp_id : Uuid;
  fp_organization_id : Uuid;
  fp_slug : str;
  fp_name : str;
  fp_description : str;
  fp_state : FleetResourceStateRecord;
  fp_created_at : N;
  fp_updated_at : N;
  fp_archived_at : option N
}.

Record FleetEnvironmentRecord := mkFleetEnvironment {
  fe_id : Uuid;
  fe_organization_id : Uuid;
  fe_project_id : Uuid;
  fe_slug : str;
  fe_name : str;
  fe_kind : FleetEnvironmentKindRecord;
  fe_provider : str;
  fe_region : str;
  fe_state : FleetResourceStateRecord;
  fe_created_at : N;
  fe_updated_at : N;
  fe_archived_at : option N
}.

Record FleetAuditRecord := mkFleetAudit {
  fa_id : Uuid;
  fa_request_id : Uuid;
  fa_operator_id : Uuid;
  fa_action : str;
  fa_resource_kind : str;
  fa_resource_id : Uuid;
  fa_organization_id : option Uuid;
  fa_project_id : option Uuid;
  fa_environment_id : option Uuid;
  fa_reason : str;
  fa_occurred_at : N
}.

Record FleetIdempotencyRecord := mkIdempotency { idem_action : str; idem_resource_id : Uuid }.

Record MutationAudit := mkMutationAudit {
  ma_request_id : Uuid;
  ma_operator_id : Uuid;
  ma_action : str;
  ma_resource_kind : str;
  ma_resource_id : Uuid;
  ma_organization_id : option Uuid;
  ma_project_id : option Uuid;
  ma_environment_id : option Uuid;
  ma_reason : str
}.

Definition organization_key `{ExtUuid} (id : Uuid) : str := ORGANIZATION_PREFIX ++ uuid_show id.
Definition organization_slug_key (slug : str) : str := ORGANIZATION_SLUG_PREFIX ++ slug.
Definition project_key `{ExtUuid} (id : Uuid) : str := PROJECT_PREFIX ++ uuid_show id.
Definition project_slug_key `{ExtUuid} (organization_id : Uuid) (slug : str) : str :=
  PROJECT_SLUG_PREFIX ++ uuid_show organization_id ++ #":" ++ slug.
Definition environment_key `{ExtUuid} (id : Uuid) : str := ENVIRONMENT_PREFIX ++ uuid_show id.
Definition environment_slug_key `{ExtUuid} (project_id : Uuid) (slug : str) : str :=
  ENVIRONMENT_SLUG_PREFIX ++ uuid_show project_id ++ #":" ++ slug.
Definition idempotency_key `{ExtUuid} (request_id : Uuid) : str := IDEMPOTENCY_PREFIX ++ uuid_show request_id.
Definition audit_key `{ExtUuid} (id : Uuid) : str := AUDIT_PREFIX ++ uuid_show id.

Definition is_active (s : FleetResourceStateRecord) : bool := bool_decide (s = FleetActive).

(** Archiving an active record stamps it; an archived one is left as it is. *)
Definition archive_organization (t : N) (r : FleetOrganizationRecord) : FleetOrganizationRecord :=
  mkFleetOrganization (fo_id r) (fo_slug r) (fo_name r) FleetArchived (fo_created_at r) t (Some t).
Definition archive_project (t : N) (r : FleetProjectRecord) : FleetProjectRecord :=
  mkFleetProject (fp_id r) (fp_organization_id r) (fp_slug r) (fp_name r) (fp_description r) FleetArchived
    (fp_created_at r) t (Some t).
Definition archive_environment (t : N) (r : FleetEnvironmentRecord) : FleetEnvironmentRecord :=
  mkFleetEnvironment (fe_id r) (fe_organization_id r) (fe_project_id r) (fe_slug r) (fe_name r) (fe_kind r)
    (fe_provider r) (fe_region r) FleetArchived (fe_created_at r) t (Some t).

Definition fleet_missing : error := EPolicy FleetResourceMissing.

Section Fleet.
Context `{Env}.
Context `{!Serde FleetOrganizationRecord, !Serde FleetProjectRecord, !Serde FleetEnvironmentRecord}.
Context `{!Serde FleetAuditRecord, !Serde FleetIdempotencyRecord}.

Definition fleet_organization (id : Uuid) : M error (option FleetOrganizationRecord) := get_json (organization_key id).
Definition fleet_project (id : Uuid) : M error (option FleetProjectRecord) := get_json (project_key id).
Definition fleet_environment (id : Uuid) : M error (option FleetEnvironmentRecord) := get_json (environment_key id).

Definition fleet_organizations (include_archived : bool) : M error (list FleetOrganizationRecord) :=
  ids ← record_ids ORGANIZATION_PREFIX;
  records ← load_records (load_if fleet_organization (λ r, include_archived || is_active (fo_state r))) ids;
  mret (sort_by (λ a b, uuid_ltb (fo_id a) (fo_id b)) records).

Definition fleet_projects (organization_id : Uuid) (include_archived : bool) : M error (list FleetProjectRecord) :=
  ids ← record_ids PROJECT_PREFIX;
  records ← load_records (load_if fleet_project (λ r,
    bool_decide (fp_organization_id r = organization_id) && (include_archived || is_active (fp_state r)))) ids;
  mret (sort_by (λ a b, uuid_ltb (fp_id a) (fp_id b)) records).

Definition fleet_environments (organization_id project_id : Uuid) (include_archived : bool) :
    M error (list FleetEnvironmentRecord) :=
  ids ← record_ids ENVIRONMENT_PREFIX;
  records ← load_records (load_if fleet_environment (λ r,
    bool_decide (fe_organization_id r = organization_id) && bool_decide (fe_project_id r = project_id)
    && (include_archived || is_active (fe_state r)))) ids;
  mret (sort_by (λ a b, uuid_ltb (fe_id a) (fe_id b)) records).

Definition fleet_audit_records : M error (list FleetAuditRecord) :=
  ids ← record_ids AUDIT_PREFIX;
  records ← load_records (λ id, get_json (audit_key id)) ids;
  mret (sort_by (λ a b, key_before (fa_occurred_at a, fa_id a) (fa_occurred_at b, fa_id b)) records).

Definition fleet_idempotent_resource (action : str) (request_id : Uuid) : M error (option Uuid) :=
  found ← get_json (idempotency_key request_id);
  match (found : option FleetIdempotencyRecord) with
  | None => mret None
  | Some record =>
      ensure (bool_decide (idem_action record = action)) (EPolicy FleetIdempotencyConflict);;
      mret (Some (idem_resource_id record))
  end.

(** The block every mutation starts with: a request that was carried out already is
    answered with the resource as it is now. *)
Definition idempotent {A : Type} (action : str) (request_id : Uuid) (load : Uuid → M error (option A))
    (body : M error A) : M error A :=
  replay ← fleet_idempotent_resource action request_id;
  match replay with
  | Some resource_id => found ← load resource_id; some_or fleet_missing found
  | None => body
  end.

Definition audit_record_of (audit : MutationAudit) (id : Uuid) (occurred_at : N) : FleetAuditRecord :=
  mkFleetAudit id (ma_request_id audit) (ma_operator_id audit) (ma_action audit) (ma_resource_kind audit)
    (ma_resource_id audit) (ma_organization_id audit) (ma_project_id audit) (ma_environment_id audit)
    (ma_reason audit) occurred_at.

Definition request_records (audit : MutationAudit) (id : Uuid) (occurred_at : N) : list cmd :=
  [SET (idempotency_key (ma_request_id audit)) (to_json (mkIdempotency (ma_action audit) (ma_resource_id audit)));
   SET (audit_key id) (to_json (audit_record_of audit id occurred_at))].

(** [resource] is the JSON text of the record. *)
Definition persist_fleet_mutation (resource_key resource : str) (slug_index : option (str * Uuid))
    (audit : MutationAudit) : M error unit :=
  id ← new_v4;
  occurred_at ← now;
  execute ([SET resource_key resource]
           ++ match slug_index with Some (key, i) => [SET key (uuid_show i)] | None => [] end
           ++ request_records audit id occurred_at).

(** *** Organizations *)

Definition create_fleet_organization (slug name : str) (request_id operator_id : Uuid) (reason : str) :
    M error FleetOrganizationRecord :=
  idempotent #"organization.create" request_id fleet_organization (
    taken ← get (organization_slug_key slug);
    ensure (negb (is_some taken)) (EPolicy FleetSlugConflict);;
    timestamp ← now;
    id ← new_v4;
    let record := mkFleetOrganization id slug name FleetActive timestamp timestamp None in
    persist_fleet_mutation (organization_key id) (to_json record) (Some (organization_slug_key slug, id))
      (mkMutationAudit request_id operator_id #"organization.create" #"organization" id (Some id) None None reason);;
    mret record).

Definition update_fleet_organization (id : Uuid) (name : str) (request_id operator_id : Uuid) (reason : str) :
    M error FleetOrganizationRecord :=
  idempotent #"organization.update" request_id fleet_organization (
    found ← fleet_organization id;
    record ← some_or fleet_missing found;
    ensure (is_active (fo_state record)) (EPolicy FleetParentArchived);;
    t ← now;
    let record := mkFleetOrganization (fo_id record) (fo_slug record) name (fo_state record) (fo_created_at record)
                    t (fo_archived_at record) in
    persist_fleet_mutation (organization_key id) (to_json record) None
      (mkMutationAudit request_id operator_id #"organization.update" #"organization" id (Some id) None None reason);;
    mret record).

Definition archive_fleet_organization (id request_id operator_id : Uuid) (reason : str) :
    M error FleetOrganizationRecord :=
  idempotent #"organization.archive" request_id fleet_organization (
    projects ← fleet_projects id false;
    ensure (negb (existsb (λ r, is_active (fp_state r)) projects)) (EPolicy FleetHasActiveChildren);;
    found ← fleet_organization id;
    record ← some_or fleet_missing found;
    record ← (if is_active (fo_state record) then t ← now; mret (archive_organization t record) else mret record);
    persist_fleet_mutation (organization_key id) (to_json record) None
      (mkMutationAudit request_id operator_id #"organization.archive" #"organization" id (Some id) None None reason);;
    mret record).

(** *** Projects *)

Definition create_fleet_project (organization_id : Uuid) (slug name description : str) (request_id operator_id : Uuid)
    (reason : str) : M error FleetProjectRecord :=
  idempotent #"project.create" request_id fleet_project (
    found ← fleet_organization organization_id;
    organization ← some_or fleet_missing found;
    ensure (is_active (fo_state organization)) (EPolicy FleetParentArchived);;
    taken ← get (project_slug_key organization_id slug);
    ensure (negb (is_some taken)) (EPolicy FleetSlugConflict);;
    timestamp ← now;
    id ← new_v4;
    let record := mkFleetProject id organization_id slug name description FleetActive timestamp timestamp None in
    persist_fleet_mutation (project_key id) (to_json record) (Some (project_slug_key organization_id slug, id))
      (mkMutationAudit request_id operator_id #"project.create" #"project" id (Some organization_id) (Some id) None reason);;
    mret record).

Definition update_fleet_project (organization_id id : Uuid) (name description : str) (request_id operator_id : Uuid)
    (reason : str) : M error FleetProjectRecord :=
  idempotent #"project.update" request_id fleet_project (
    found ← fleet_project id;
    record ← some_or fleet_missing (option_filter (λ r, bool_decide (fp_organization_id r = organization_id)) found);
    ensure (is_active (fp_state record)) (EPolicy FleetParentArchived);;
    t ← now;
    let record := mkFleetProject (fp_id record) (fp_organization_id record) (fp_slug record) name description
                    (fp_state record) (fp_created_at record) t (fp_archived_at record) in
    persist_fleet_mutation (project_key id) (to_json record) None
      (mkMutationAudit request_id operator_id #"project.update" #"project" id (Some organization_id) (Some id) None reason);;
    mret record).

Definition archive_fleet_project (organization_id id request_id operator_id : Uuid) (reason : str) :
    M error FleetProjectRecord :=
  idempotent #"project.archive" request_id fleet_project (
    environments ← fleet_environments organization_id id false;
    ensure (negb (existsb (λ r, is_active (fe_state r)) environments)) (EPolicy FleetHasActiveChildren);;
    found ← fleet_project id;
    record ← some_or fleet_missing (option_filter (λ r, bool_decide (fp_organization_id r = organization_id)) found);
    record ← (if is_active (fp_state record) then t ← now; mret (archive_project t record) else mret record);
    persist_fleet_mutation (project_key id) (to_json record) None
      (mkMutationAudit request_id operator_id #"project.archive" #"project" id (Some organization_id) (Some id) None reason);;
    mret record).

(** *** Environments *)

Definition in_project (organization_id project_id : Uuid) (r : FleetEnvironmentRecord) : bool :=
  bool_decide (fe_organization_id r = organization_id) && bool_decide (fe_project_id r = project_id).

Definition create_fleet_environment (organization_id project_id : Uuid) (slug name : str)
    (kind : FleetEnvironmentKindRecord) (provider region : str) (request_id operator_id : Uuid) (reason : str) :
    M error FleetEnvironmentRecord :=
  idempotent #"environment.create" request_id fleet_environment (
    found ← fleet_project project_id;
    project ← some_or fleet_missing (option_filter (λ r, bool_decide (fp_organization_id r = organization_id)) found);
    ensure (is_active (fp_state project)) (EPolicy FleetParentArchived);;
    taken ← get (environment_slug_key project_id slug);
    ensure (negb (is_some taken)) (EPolicy FleetSlugConflict);;
    timestamp ← now;
    id ← new_v4;
    let record := mkFleetEnvironment id organization_id project_id slug name kind provider region FleetActive
                    timestamp timestamp None in
    persist_fleet_mutation (environment_key id) (to_json record) (Some (environment_slug_key project_id slug, id))
      (mkMutationAudit request_id operator_id #"environment.create" #"environment" id (Some organization_id)
         (Some project_id) (Some id) reason);;
    mret record).

Definition update_fleet_environment (organization_id project_id id : Uuid) (name : str)
    (kind : FleetEnvironmentKindRecord) (provider region : str) (request_id operator_id : Uuid) (reason : str) :
    M error FleetEnvironmentRecord :=
  idempotent #"environment.update" request_id fleet_environment (
    found ← fleet_environment id;
    record ← some_or fleet_missing (option_filter (in_project organization_id project_id) found);
    ensure (is_active (fe_state record)) (EPolicy FleetParentArchived);;
    t ← now;
    let record := mkFleetEnvironment (fe_id record) (fe_organization_id record) (fe_project_id record) (fe_slug record)
                    name kind provider region (fe_state record) (fe_created_at record) t (fe_archived_at record) in
    persist_fleet_mutation (environment_key id) (to_json record) None
      (mkMutationAudit request_id operator_id #"environment.update" #"environment" id (Some organization_id)
         (Some project_id) (Some id) reason);;
    mret record).

Definition archive_fleet_environment (organization_id project_id id request_id operator_id : Uuid) (reason : str) :
    M error FleetEnvironmentRecord :=
  idempotent #"environment.archive" request_id fleet_environment (
    found ← fleet_environment id;
    record ← some_or fleet_missing (option_filter (in_project organization_id project_id) found);
    record ← (if is_active (fe_state record) then t ← now; mret (archive_environment t record) else mret record);
    persist_fleet_mutation (environment_key id) (to_json record) None
      (mkMutationAudit request_id operator_id #"environment.archive" #"environment" id (Some organization_id)
         (Some project_id) (Some id) reason);;
    mret record).

(** ** The state of the hierarchy *)

#[global] Instance organization_key_inj : Inj (=) (=) organization_key.
Proof. intros a b Hab. by apply app_inv_head, (inj uuid_show) in Hab. Qed.
#[global] Instance project_key_inj : Inj (=) (=) project_key.
Proof. intros a b Hab. by apply app_inv_head, (inj uuid_show) in Hab. Qed.
#[global] Instance environment_key_inj : Inj (=) (=) environment_key.
Proof. intros a b Hab. by apply app_inv_head, (inj uuid_show) in Hab. Qed.
#[global] Instance idempotency_key_inj : Inj (=) (=) idempotency_key.
Proof. intros a b Hab. by apply app_inv_head, (inj uuid_show) in Hab. Qed.

(** A family of records: each stored under its identifier, with the entry of its
    slug pointing back at it, and satisfying [P]. *)
Definition family_ok {A : Type} `{Serde A} (key : Uuid → str) (rid : A → Uuid) (slug : A → str) (P : A → Prop)
    (m : gmap str entry) : Prop :=
  records key rid (λ r, m !! slug r = Some (Entry (uuid_show (rid r)) None) ∧ P r) m.

Definition project_parent (m : gmap str entry) (r : FleetProjectRecord) : Prop :=
  ∃ org, holds m (organization_key (fp_organization_id r)) org ∧
    (fp_state r = FleetActive → fo_state org = FleetActive).

Definition environment_parent (m : gmap str entry) (r : FleetEnvironmentRecord) : Prop :=
  ∃ project, holds m (project_key (fe_project_id r)) project ∧ fp_organization_id project = fe_organization_id r ∧
    (fe_state r = FleetActive → fp_state project = FleetActive).

Definition org_slug (r : FleetOrganizationRecord) : str := organization_slug_key (fo_slug r).
Definition project_slug (r : FleetProjectRecord) : str := project_slug_key (fp_organization_id r) (fp_slug r).
Definition environment_slug (r : FleetEnvironmentRecord) : str := environment_slug_key (fe_project_id r) (fe_slug r).

Record fleet_ok (m : gmap str entry) : Prop := {
  fk_organizations : family_ok organization_key fo_id org_slug (λ _, True) m;
  fk_projects : family_ok project_key fp_id project_slug (project_parent m) m;
  fk_environments : family_ok environment_key fe_id environment_slug (environment_parent m) m;
  fk_requests rid e : m !! idempotency_key rid = Some e → e_deadline e = None
}.

(** The entries that are written once: slugs and carried-out requests. *)
Definition is_index_key (k : str) : bool :=
  starts_with ORGANIZATION_SLUG_PREFIX k || starts_with PROJECT_SLUG_PREFIX k || starts_with ENVIRONMENT_SLUG_PREFIX k
  || starts_with IDEMPOTENCY_PREFIX k.

Definition indexes_kept (m m' : gmap str entry) : Prop :=
  ∀ k v, is_index_key k = true → m !! k = Some (Entry v None) → m' !! k = Some (Entry v None).

Definition fleet_step (m m' : gmap str entry) : Prop := fleet_ok m → fleet_ok m' ∧ indexes_kept m m'.

#[global] Instance fleet_step_preorder : PreOrder fleet_step.
Proof.
  split; [intros m Hm; split; [done|by intros k v]|]. intros m1 m2 m3 H1 H2 Hm. destruct (H1 Hm) as [Hm2 Hk1]. destruct (H2 Hm2) as [Hm3 Hk2].
  split; [done|]. intros k v Hk Hv. auto.
Qed.

(** *** Changes of one family *)

Lemma family_same {A : Type} `{Serde A} key rid slug (P P' : A → Prop) m m' :
  (∀ id, m' !! key id = m !! key id) → (∀ r, is_index_key (slug r) = true) → indexes_kept m m' →
  (∀ id r, holds m (key id) r → P r → P' r) →
  family_ok key rid slug P m → family_ok key rid slug P' m'.
Proof.
  intros Hsame Hslug Hidx HP Hok id e He. rewrite Hsame in He. destruct (Hok _ _ He) as (r & -> & Hid & Hs & Hr).
  exists r. split_and!; [done|done|by apply Hidx|eapply HP; [..|done]; done].
Qed.

Lemma family_put {A : Type} `{Serde A} key rid slug (P P' : A → Prop) m m' id (r : A) :
  (∀ id', id' ≠ id → m' !! key id' = m !! key id') → holds m' (key id) r → rid r = id →
  m' !! slug r = Some (Entry (uuid_show id) None) →
  (∀ r, is_index_key (slug r) = true) → indexes_kept m m' → P' r → (∀ id' r, id' ≠ id → holds m (key id') r → P r → P' r) →
  family_ok key rid slug P m → family_ok key rid slug P' m'.
Proof.
  intros Hsame Hr Hid Hs Hslug Hidx HPr HP Hok id' e He. destruct (decide (id' = id)) as [->|Hne].
  - rewrite Hr in He. injection He as <-. exists r. by rewrite Hid.
  - rewrite Hsame in He by done. destruct (Hok _ _ He) as (r' & -> & Hid' & Hs' & Hr').
    exists r'. split_and!; [done|done|by apply Hidx|eapply HP; [..|done]; done].
Qed.

Lemma index_org r : is_index_key (org_slug r) = true.
Proof. done. Qed.
Lemma index_project r : is_index_key (project_slug r) = true.
Proof. done. Qed.
Lemma index_environment r : is_index_key (environment_slug r) = true.
Proof. done. Qed.

(** *** Changes of the whole state *)

Definition is_record_key (k : str) : bool :=
  starts_with ORGANIZATION_PREFIX k || starts_with PROJECT_PREFIX k || starts_with ENVIRONMENT_PREFIX k.

(** Only the record under [k] differs, nothing written once is lost and request
    records stay without time to live. *)
Record writes_record (k : str) (m m' : gmap str entry) : Prop := {
  wr_frame k' : is_record_key k' = true → k' ≠ k → m' !! k' = m !! k';
  wr_indexes : indexes_kept m m';
  wr_requests rid e : m' !! idempotency_key rid = Some e → e_deadline e = None
}.

Lemma record_organization id : is_record_key (organization_key id) = true.
Proof. done. Qed.
Lemma record_project id : is_record_key (project_key id) = true.
Proof. done. Qed.
Lemma record_environment id : is_record_key (environment_key id) = true.
Proof. done. Qed.

Lemma organization_written m m' id r :
  fleet_ok m → writes_record (organization_key id) m m' →
  holds m' (organization_key id) r → fo_id r = id → m' !! org_slug r = Some (Entry (uuid_show id) None) →
  (∀ pid p, holds m (project_key pid) p → fp_organization_id p = id → fp_state p = FleetActive → fo_state r = FleetActive) →
  fleet_ok m'.
Proof.
  intros [Ho Hp He _] [Hf Hi Hq] Hr Hid Hs Hkids. split; [| | |done].
  - eapply family_put; [|exact Hr|done..|by intros|exact Ho]. intros id' Hne. apply Hf; [done|]. by intros ?%(inj _).
  - eapply family_same; [intros; apply Hf; [done|key_neq]|exact index_project|done| |exact Hp].
    intros pid p Hpp (org & Ho' & Ha). destruct (decide (fp_organization_id p = id)) as [Heq|Hne].
    + exists r. rewrite Heq. split; [done|]. eauto.
    + exists org. split; [|done]. unfold holds. rewrite Hf; [done|done|by intros ?%(inj _)].
  - eapply family_same; [intros; apply Hf; [done|key_neq]|exact index_environment|done| |exact He].
    intros eid e _ (project & Hp' & Ha). exists project. split; [|done]. unfold holds. rewrite Hf; [done|done|key_neq].
Qed.

Lemma project_written m m' id r :
  fleet_ok m → writes_record (project_key id) m m' →
  holds m' (project_key id) r → fp_id r = id → m' !! project_slug r = Some (Entry (uuid_show id) None) →
  project_parent m r →
  (∀ eid e, holds m (environment_key eid) e → fe_project_id e = id →
     fp_organization_id r = fe_organization_id e ∧ (fe_state e = FleetActive → fp_state r = FleetActive)) →
  fleet_ok m'.
Proof.
  intros [Ho Hp He _] [Hf Hi Hq] Hr Hid Hs Hparent Hkids.
  assert (Hup : ∀ p, project_parent m p → project_parent m' p).
  { intros p (org & Ho' & Ha). exists org. split; [|done]. unfold holds. rewrite Hf; [done|done|key_neq]. }
  split; [| | |done].
  - eapply family_same; [intros; apply Hf; [done|key_neq]|exact index_org|done|done|exact Ho].
  - eapply family_put; [|exact Hr|done|done|exact index_project|done|by apply Hup|intros; by apply Hup|exact Hp].
    intros id' Hne. apply Hf; [done|]. by intros ?%(inj _).
  - eapply family_same; [intros; apply Hf; [done|key_neq]|exact index_environment|done| |exact He].
    intros eid e Hee (project & Hp' & Ha). destruct (decide (fe_project_id e = id)) as [Heq|Hne].
    + exists r. rewrite Heq. split; [done|]. eauto.
    + exists project. split; [|done]. unfold holds. rewrite Hf; [done|done|by intros ?%(inj _)].
Qed.

Lemma environment_written m m' id r :
  fleet_ok m → writes_record (environment_key id) m m' →
  holds m' (environment_key id) r → fe_id r = id → m' !! environment_slug r = Some (Entry (uuid_show id) None) →
  environment_parent m r → fleet_ok m'.
Proof.
  intros [Ho Hp He _] [Hf Hi Hq] Hr Hid Hs Hparent.
  assert (Hup : ∀ e, environment_parent m e → environment_parent m' e).
  { intros e (p & Hp' & Ha). exists p. split; [|done]. unfold holds. rewrite Hf; [done|done|key_neq]. }
  split; [| | |done].
  - eapply family_same; [intros; apply Hf; [done|key_neq]|exact index_org|done|done|exact Ho].
  - eapply family_same; [intros; apply Hf; [done|key_neq]|exact index_project|done| |exact Hp].
    intros pid p _ (org & Ho' & Ha). exists org. split; [|done]. unfold holds. rewrite Hf; [done|done|key_neq].
  - eapply family_put; [|exact Hr|done|done|exact index_environment|done|by apply Hup|intros; by apply Hup|exact He].
    intros id' Hne. apply Hf; [done|]. by intros ?%(inj _).
Qed.

(** ** One transaction *)

Definition indexed (slug : option (str * Uuid)) (m : gmap str entry) : gmap str entry :=
  match slug with Some (k, i) => <[k := Entry (uuid_show i) None]> m | None => m end.

(** The contents after [persist_fleet_mutation]. *)
Definition mutated (rk rv : str) (slug : option (str * Uuid)) (audit : MutationAudit) (id : Uuid) (t : N)
    (m : gmap str entry) : gmap str entry :=
  <[audit_key id := Entry (to_json (audit_record_of audit id t)) None]>
  (<[idempotency_key (ma_request_id audit) :=
       Entry (to_json (mkIdempotency (ma_action audit) (ma_resource_id audit))) None]>
  (indexed slug (<[rk := Entry rv None]> m))).

Lemma wp_persist_fleet rk rv slug audit o w (Q : result error unit → world → Prop) :
  (∀ w', vw w' = vw w → Q (Err EDb) w') →
  (∀ r w' id t, vw w' = mutated rk rv slug audit id t (vw w) → Q r w') →
  wp (persist_fleet_mutation rk rv slug audit) o w Q.
Proof.
  intros He Hok. apply wp_bind, wp_new_v4. intros id w1 Hdb _ _. apply wp_bind, wp_now.
  set (cs := _ ++ _). assert (Hcs : ∀ t m, (exec_pipe t cs m).2 = mutated rk rv slug audit id (clock o w1) m).
  { intros t m. unfold cs, mutated. by destruct slug as [[k i]|]. }
  assert (Hv : vw (tick w1) = vw w) by (unfold vw; simpl; by rewrite Hdb).
  apply wp_execute_view.
  - intros w' t _ [Hw|Hw]; [apply He; congruence|]. rewrite Hcs, Hv in Hw. by eapply Hok.
  - intros w' t _ Hw. rewrite Hcs, Hv in Hw. by eapply Hok.
Qed.

(** A request that was carried out, with the resource it changed. *)
Definition completed (m : gmap str entry) (action : str) (rid id : Uuid) : Prop :=
  ∃ v, m !! idempotency_key rid = Some (Entry v None) ∧ from_json v = Some (mkIdempotency action id).

Lemma completed_kept m m' action rid id : indexes_kept m m' → completed m action rid id → completed m' action rid id.
Proof. intros Hk (v & Hv & Hj). exists v. split; [by apply Hk|done]. Qed.

Lemma mutated_completed rk rv slug audit id t m :
  completed (mutated rk rv slug audit id t m) (ma_action audit) (ma_request_id audit) (ma_resource_id audit).
Proof. eexists. unfold mutated. rewrite lookup_insert_ne by key_neq. rewrite lookup_insert_eq. split; [done|apply from_to_json]. Qed.

Lemma mutated_frame rk rv slug audit id t m k :
  k ≠ rk → (∀ sk i, slug = Some (sk, i) → k ≠ sk) → starts_with IDEMPOTENCY_PREFIX k = false →
  starts_with AUDIT_PREFIX k = false → mutated rk rv slug audit id t m !! k = m !! k.
Proof.
  intros Hr Hs Hi Ha. unfold mutated.
  rewrite lookup_insert_ne by (intros <-; unfold audit_key, starts_with in Ha; by rewrite strip_prefix_app in Ha).
  rewrite lookup_insert_ne by (intros <-; unfold idempotency_key, starts_with in Hi; by rewrite strip_prefix_app in Hi).
  destruct slug as [[sk i]|]; simpl; [rewrite lookup_insert_ne by (apply not_eq_sym; by eapply Hs)|]; by apply lookup_insert_ne.
Qed.

Lemma index_not_record k : is_index_key k = true → is_record_key k = false ∧ starts_with AUDIT_PREFIX k = false.
Proof.
  unfold is_index_key. rewrite !orb_true_iff.
  intros [[[Hk|Hk]|Hk]|Hk]; apply starts_with_spec in Hk as [x ->]; done.
Qed.

(** The slug to be taken, if any, is free. *)
Definition free_slug (slug : option (str * Uuid)) (m : gmap str entry) : Prop :=
  ∀ sk i, slug = Some (sk, i) → is_index_key sk = true ∧ starts_with IDEMPOTENCY_PREFIX sk = false ∧
    ∀ v, m !! sk ≠ Some (Entry v None).

Lemma mutated_record rk rv slug audit id t m :
  is_record_key rk = true → free_slug slug m → mutated rk rv slug audit id t m !! rk = Some (Entry rv None).
Proof.
  intros Hrk Hslug. unfold mutated. rewrite lookup_insert_ne by (intros <-; done). rewrite lookup_insert_ne by (intros <-; done).
  destruct slug as [[sk i]|]; simpl; [|apply lookup_insert_eq]. rewrite lookup_insert_ne; [apply lookup_insert_eq|].
  intros ->. destruct (Hslug _ _ eq_refl) as [Hs _]. apply index_not_record in Hs as [Hs _]. congruence.
Qed.

Lemma mutated_slug rk rv sk i audit id t m :
  free_slug (Some (sk, i)) m → mutated rk rv (Some (sk, i)) audit id t m !! sk = Some (Entry (uuid_show i) None).
Proof.
  intros Hslug. destruct (Hslug _ _ eq_refl) as (Hs & Hi & _). apply index_not_record in Hs as [_ Ha]. unfold mutated.
  rewrite lookup_insert_ne by (intros <-; unfold audit_key, starts_with in Ha; by rewrite strip_prefix_app in Ha).
  rewrite lookup_insert_ne by (intros <-; unfold idempotency_key, starts_with in Hi; by rewrite strip_prefix_app in Hi).
  apply lookup_insert_eq.
Qed.

(** A mutation of a request that was not carried out before, with a slug that is
    free, writes one record. *)
Lemma mutated_writes rk rv slug audit id t m :
  fleet_ok m → is_record_key rk = true → m !! idempotency_key (ma_request_id audit) = None →
  free_slug slug m →
  writes_record rk m (mutated rk rv slug audit id t m).
Proof.
  intros Hok Hrk Hfree Hslug. split.
  - intros k Hk Hne. apply mutated_frame; [done| | |].
    + intros sk i Hs ->. destruct (Hslug _ _ Hs) as [Hf _]. apply index_not_record in Hf as [Hf _]. congruence.
    + destruct (starts_with IDEMPOTENCY_PREFIX k) eqn:Hi; [|done]. apply starts_with_spec in Hi as [x ->]. done.
    + destruct (starts_with AUDIT_PREFIX k) eqn:Hi; [|done]. apply starts_with_spec in Hi as [x ->]. done.
  - intros k v Hk Hv. destruct (index_not_record _ Hk) as [Hnr Hna]. unfold mutated.
    rewrite lookup_insert_ne by (intros <-; unfold audit_key, starts_with in Hna; by rewrite strip_prefix_app in Hna).
    rewrite lookup_insert_ne by (intros <-; congruence).
    assert (rk ≠ k) by (intros ->; congruence).
    destruct slug as [[sk i]|]; simpl; [rewrite lookup_insert_ne|]; [by rewrite lookup_insert_ne| |by rewrite lookup_insert_ne].
    intros ->. by destruct (Hslug _ _ eq_refl) as (_ & _ & Hf), (Hf v).
  - intros rid e. unfold mutated. rewrite lookup_insert_ne by key_neq.
    destruct (decide (rid = ma_request_id audit)) as [->|Hne]; [rewrite lookup_insert_eq; by intros [= <-]|].
    rewrite lookup_insert_ne by (by intros ?%(inj _)).
    assert (idempotency_key rid ≠ rk) by (intros <-; done).
    intros He. apply (fk_requests _ Hok rid). destruct slug as [[sk i]|]; simpl in He; [|by rewrite lookup_insert_ne in He].
    rewrite lookup_insert_ne in He; [by rewrite lookup_insert_ne in He|].
    intros Heq. destruct (Hslug _ _ eq_refl) as (_ & Hi & _). rewrite Heq in Hi. unfold idempotency_key, starts_with in Hi.
    by rewrite strip_prefix_app in Hi.
Qed.

(** ** Reading *)

Lemma wp_idempotent_resource action rid o w (Q : result error (option Uuid) → world → Prop) :
  (∀ rid e, vw w !! idempotency_key rid = Some e → e_deadline e = None) → (∀ e w', undisturbed w w' → Q (Err e) w') →
  (∀ id w', undisturbed w w' → completed (vw w) action rid id → Q (Ok (Some id)) w') →
  (∀ w', undisturbed w w' → vw w !! idempotency_key rid = None → Q (Ok None) w') →
  wp (fleet_idempotent_resource action rid) o w Q.
Proof.
  intros Hq He Hdone Hnew. apply wp_bind, wp_get_json; [intros d _ Hv; by apply He|]. intros d Hv.
  destruct (vw w !! idempotency_key rid) as [[v dl]|] eqn:Hk; [|rewrite live_missing by done; by apply wp_ret, Hnew].
  pose proof (Hq _ _ Hk) as Hdl. simpl in Hdl. subst dl. rewrite (live_persistent _ _ _ _ Hk).
  destruct (from_json v) as [[a id]|] eqn:Hj; [|by apply He]. apply wp_bind, wp_ensure; [|intros _; by apply He].
  intros Ha%bool_decide_eq_true. simpl in Ha. subst a. apply wp_ret, Hdone; [done|]. by exists v.
Qed.

Lemma wp_idempotent {A : Type} `{Serde A} action rid key (load : Uuid → M error (option A)) body o w Q :
  (∀ rid e, vw w !! idempotency_key rid = Some e → e_deadline e = None) →
  (∀ id, load id = get_json (key id)) → (∀ e w', undisturbed w w' → Q (Err e) w') →
  (∀ id r w', undisturbed w w' → completed (vw w) action rid id →
     (∃ t v, live t (vw w) (key id) = Some v ∧ from_json v = Some r) → Q (Ok r) w') →
  (∀ w', undisturbed w w' → vw w !! idempotency_key rid = None → wp body o w' Q) →
  wp (idempotent action rid load body) o w Q.
Proof.
  intros Hq Hload He Hdone Hnew. apply wp_bind, wp_idempotent_resource; [done|done| |done].
  intros id w1 Hw1 Hc. apply wp_bind. rewrite Hload. apply wp_get_json.
  { intros d _ Hv. apply He. by transitivity w1. }
  intros d Hv. destruct (live _ _ _) as [v|] eqn:Hl; [destruct (from_json v) as [r|] eqn:Hj|].
  - apply wp_some_or; [|done]. intros ? [= <-]. apply (Hdone id); [by transitivity w1|done|].
    eexists _, v. split; [|done]. by rewrite <- (proj1 Hw1).
  - apply He. by transitivity w1.
  - apply wp_some_or; [done|]. intros _. apply He. by transitivity w1.
Qed.

(** What a mutation leaves: the state stays sound, and a request that succeeded is on
    record with the resource it returned. *)
Definition outcome {A : Type} (m : gmap str entry) (action : str) (rid : Uuid) (idf : A → Uuid)
    (r : result error A) (w' : world) : Prop :=
  fleet_step m (vw w') ∧ ∀ a, r = Ok a → completed (vw w') action rid (idf a).

Lemma outcome_err {A : Type} m action rid (idf : A → Uuid) e w' : vw w' = m → outcome m action rid idf (Err e) w'.
Proof. intros <-. split; [reflexivity|done]. Qed.

(** The whole operation, given its body. *)
Lemma wp_operation {A : Type} `{Serde A} action rid key (idf : A → Uuid) P (load : Uuid → M error (option A)) body o w :
  fleet_ok (vw w) → records key idf P (vw w) → (∀ id, load id = get_json (key id)) →
  (∀ w', undisturbed w w' → vw w !! idempotency_key rid = None → wp body o w' (outcome (vw w) action rid idf)) →
  wp (idempotent action rid load body) o w (outcome (vw w) action rid idf).
Proof.
  intros Hok Hfam Hload Hbody. apply (wp_idempotent action rid key); [apply fk_requests, Hok|done| | |done].
  - intros e w' [Hv _]. by apply outcome_err.
  - intros id r w' [Hv _] Hc Hr. split; [by rewrite Hv|]. intros ? [= <-]. rewrite Hv.
    by rewrite (records_live _ _ _ _ _ _ Hfam Hr).
Qed.

(** The final transaction. *)
Lemma wp_persisted {A : Type} m rk rv slug audit (a : A) (idf : A → Uuid) o w :
  vw w = m → fleet_ok m → is_record_key rk = true → m !! idempotency_key (ma_request_id audit) = None →
  free_slug slug m →
  idf a = ma_resource_id audit →
  (∀ m', writes_record rk m m' → m' !! rk = Some (Entry rv None) →
     (∀ sk i, slug = Some (sk, i) → m' !! sk = Some (Entry (uuid_show i) None)) → fleet_ok m') →
  wp (persist_fleet_mutation rk rv slug audit;; mret a) o w (outcome m (ma_action audit) (ma_request_id audit) idf).
Proof.
  intros <- Hok Hrk Hfree Hslug Hid Hw. apply wp_bind, wp_persist_fleet; [intros w' Hv; by apply outcome_err|].
  intros r w' id t Hv. pose proof (mutated_writes rk rv slug audit id t _ Hok Hrk Hfree Hslug) as Hwr.
  assert (Hstep : fleet_step (vw w) (vw w')).
  { intros _. rewrite Hv. split; [|apply Hwr]. apply Hw; [done|by apply mutated_record|].
    intros sk i ->. by apply mutated_slug. }
  destruct r as [[]|e]; [apply wp_ret|]; (split; [done|]); [|done]. intros ? [= <-]. rewrite Hv, Hid. apply mutated_completed.
Qed.

(** ** Every operation keeps the hierarchy sound *)

Lemma no_slug m : free_slug None m.
Proof. done. Qed.

Lemma free_slug_intro t m sk i :
  is_index_key sk = true → starts_with IDEMPOTENCY_PREFIX sk = false → live t m sk = None → free_slug (Some (sk, i)) m.
Proof.
  intros Hk Hi Hl sk' i' [= <- <-]. split_and!; [done|done|]. intros v Hv. by rewrite (live_persistent _ _ _ _ Hv) in Hl.
Qed.

Lemma family_holds {A : Type} `{Serde A} key rid slug (P : A → Prop) m id (r : A) :
  family_ok key rid slug P m → holds m (key id) r →
  rid r = id ∧ m !! slug r = Some (Entry (uuid_show id) None) ∧ P r.
Proof. intros Hok Hr. by destruct (records_holds _ _ _ _ _ _ Hok Hr) as (<- & ? & ?). Qed.

Lemma family_slug {A : Type} `{Serde A} key rid slug (P : A → Prop) m i j (a b : A) :
  family_ok key rid slug P m → holds m (key i) a → holds m (key j) b → slug a = slug b → i = j.
Proof.
  intros Hok Ha Hb Hs. destruct (family_holds _ _ _ _ _ _ _ Hok Ha) as (_ & H1 & _).
  destruct (family_holds _ _ _ _ _ _ _ Hok Hb) as (_ & H2 & _). rewrite Hs, H2 in H1. injection H1 as H1.
  by apply (inj uuid_show) in H1.
Qed.

Lemma wp_create_fleet_organization slug name rid oper reason o w :
  fleet_ok (vw w) → fresh_id organization_key o w →
  wp (create_fleet_organization slug name rid oper reason) o w (outcome (vw w) #"organization.create" rid fo_id).
Proof.
  intros Hok Hfresh. eapply (wp_operation _ rid organization_key); [done|apply Hok|done|]. intros w1 [Hv1 Hu1] Hnew.
  apply wp_bind, wp_get; [intros d _ Hv; apply outcome_err; by rewrite <- Hv1|]. intros d Hv.
  apply wp_bind, wp_ensure; [|intros _; apply outcome_err; by rewrite <- Hv1]. intros Hslug.
  apply wp_bind, wp_now. apply wp_bind. unfold wp at 1. cbn [new_v4 fst snd]. cbv zeta. cbn [tick after_trip w_uuid]. rewrite Hu1.
  set (id := o_uuid o (w_uuid w)). set (r := mkFleetOrganization _ _ _ _ _ _ _).
  apply (wp_persisted _ _ _ (Some (organization_slug_key slug, id)) (mkMutationAudit _ _ _ _ _ _ _ _ _)).
  - change (db_view d = vw w). by rewrite Hv.
  - done.
  - done.
  - done.
  - apply (free_slug_intro (trip_time o w1)); [done|done|]. rewrite <- Hv1. by destruct (live _ _ _).
  - done.
  - intros m' Hwr Hr Hs. eapply (organization_written _ _ id r); [done|done|done|done|by apply Hs|].
    intros pid p Hp Hpid _. destruct (family_holds _ _ _ _ _ _ _ (fk_projects _ Hok) Hp) as (_ & _ & org & Ho & _).
    rewrite Hpid in Ho. unfold holds, fresh_id in *. fold id in Hfresh. congruence.
Qed.

(** Overwriting a record keeps its slug entry. *)
Lemma slug_kept {A : Type} `{Serde A} key rid slug (P : A → Prop) rk m m' id (r r' : A) :
  family_ok key rid slug P m → holds m (key id) r → slug r' = slug r → is_index_key (slug r) = true →
  writes_record rk m m' → m' !! slug r' = Some (Entry (uuid_show id) None).
Proof.
  intros Hok Hr Hs Hi Hw. rewrite Hs. apply Hw; [done|]. by destruct (family_holds _ _ _ _ _ _ _ Hok Hr) as (_ & ? & _).
Qed.

(** Loading the record to be changed, possibly filtered. *)
Lemma wp_found {A B : Type} `{Serde A} key rid (P : A → Prop) (f : option A → option A) id (k : A → M error B) m o w
    (Q : result error B → world → Prop) :
  vw w = m → records key rid P m → f None = None → (∀ e w', vw w' = m → Q (Err e) w') →
  (∀ r r' w', undisturbed w w' → holds m (key id) r → rid r = id → P r → f (Some r) = Some r' → wp (k r') o w' Q) →
  wp (found ← get_json (key id); record ← some_or fleet_missing (f found); k record) o w Q.
Proof.
  intros <- Hok Hf He Hk. apply wp_bind, (wp_record key rid P); [done|intros w1 [Hv _]; by apply He| |].
  - intros w1 [Hv _] _. apply wp_bind, wp_some_or; [by rewrite Hf|]. intros _. by apply He.
  - intros r w1 Hw1 Hr Hid HP. apply wp_bind, wp_some_or; [|intros _; by apply He, Hw1]. intros r' Hr'. by eapply Hk.
Qed.

Lemma wp_update_fleet_organization id name rid oper reason o w :
  fleet_ok (vw w) →
  wp (update_fleet_organization id name rid oper reason) o w (outcome (vw w) #"organization.update" rid fo_id).
Proof.
  intros Hok. eapply (wp_operation _ rid organization_key); [done|apply Hok|done|]. intros w1 [Hv1 _] Hnew.
  eapply (wp_found organization_key fo_id _ (λ x, x) id _ (vw w));
    [done|apply Hok|done|intros; by apply outcome_err|]. intros r ? w2 [Hv2 _] Hr Hid _ [= <-].
  apply wp_bind, wp_ensure; [|intros _; apply outcome_err; congruence]. intros Hact%bool_decide_eq_true.
  apply wp_bind, wp_now. cbv zeta. set (r' := mkFleetOrganization _ _ _ _ _ _ _).
  apply (wp_persisted _ _ _ None (mkMutationAudit _ _ _ _ _ _ _ _ _)); try done; [change (vw w2 = vw w); congruence|].
  intros m' Hwr Hr' _. eapply (organization_written _ _ id r'); [done|done|done|done| |by intros].
  eapply slug_kept; [apply (fk_organizations _ Hok)|exact Hr|done|done|exact Hwr].
Qed.

Lemma wp_fleet_projects organization_id incl o w (Q : result error (list FleetProjectRecord) → world → Prop) :
  fleet_ok (vw w) → (∀ e w', vw w' = vw w → Q (Err e) w') →
  (∀ l w', vw w' = vw w →
     (∀ id r, holds (vw w) (project_key id) r → fp_organization_id r = organization_id →
        incl || is_active (fp_state r) = true → r ∈ l) → Q (Ok l) w') →
  wp (fleet_projects organization_id incl) o w Q.
Proof.
  intros Hok He Hl. eapply (wp_listing PROJECT_PREFIX project_key fp_id);
    [done|apply Hok|done|done|].
  intros l w' Hv Hin _. apply Hl; [done|]. intros id r Hr Ho Ha. apply (Hin id); [done|]. by rewrite bool_decide_eq_true_2.
Qed.

Lemma wp_archive_fleet_organization id rid oper reason o w :
  fleet_ok (vw w) →
  wp (archive_fleet_organization id rid oper reason) o w (outcome (vw w) #"organization.archive" rid fo_id).
Proof.
  intros Hok. eapply (wp_operation _ rid organization_key); [done|apply Hok|done|]. intros w1 [Hv1 _] Hnew.
  apply wp_bind, wp_fleet_projects; [by rewrite Hv1|intros e w' Hv; apply outcome_err; congruence|]. rewrite Hv1.
  intros l w2 Hv2 Hl. apply wp_bind, wp_ensure; [|intros _; apply outcome_err; congruence]. intros Hnone%negb_true_iff.
  eapply (wp_found organization_key fo_id _ (λ x, x) id _ (vw w));
    [done|apply Hok|done|intros; by apply outcome_err|]. intros r ? w3 [Hv3 _] Hr Hid _ [= <-].
  assert (Hgo : ∀ r' w4, vw w4 = vw w → fo_id r' = id → fo_slug r' = fo_slug r →
    wp (persist_fleet_mutation (organization_key id) (to_json r') None
      (mkMutationAudit rid oper #"organization.archive" #"organization" id (Some id) None None reason);; mret r') o w4
      (outcome (vw w) #"organization.archive" rid fo_id)).
  { intros r' w4 Hv4 Hid' Hs'. apply (wp_persisted _ _ _ None (mkMutationAudit _ _ _ _ _ _ _ _ _)); try done.
    intros m' Hwr Hr' _. eapply (organization_written _ _ id r'); [done|done|done|done| |].
    - eapply slug_kept; [apply (fk_organizations _ Hok)|exact Hr|unfold org_slug; by rewrite Hs'|done|exact Hwr].
    - intros pid p Hp Hpid Hact. exfalso. apply (existsb_false_elem _ _ _ Hnone (Hl pid p Hp Hpid ltac:(unfold is_active; by rewrite bool_decide_eq_true_2))).
      unfold is_active. by rewrite bool_decide_eq_true_2. }
  destruct (is_active (fo_state r)); apply wp_bind; [apply wp_bind, wp_now|]; apply wp_ret, Hgo; rewrite ?vw_tick; done || congruence.
Qed.

Lemma wp_create_fleet_project org slug name desc rid oper reason o w :
  fleet_ok (vw w) → fresh_id project_key o w →
  wp (create_fleet_project org slug name desc rid oper reason) o w (outcome (vw w) #"project.create" rid fp_id).
Proof.
  intros Hok Hfresh. eapply (wp_operation _ rid project_key); [done|apply Hok|done|]. intros w1 [Hv1 Hu1] Hnew.
  eapply (wp_found organization_key fo_id _ (λ x, x) org _ (vw w));
    [done|apply Hok|done|intros; by apply outcome_err|]. intros parent ? w2 [Hv2 Hu2] Hp _ _ [= <-].
  apply wp_bind, wp_ensure; [|intros _; apply outcome_err; congruence]. intros Hact%bool_decide_eq_true.
  apply wp_bind, wp_get; [intros d _ Hv; apply outcome_err; unfold vw in *; simpl in *; congruence|]. intros d Hv.
  apply wp_bind, wp_ensure; [|intros _; apply outcome_err; unfold vw in *; simpl in *; congruence]. intros Hslug.
  apply wp_bind, wp_now. apply wp_bind. unfold wp at 1. cbn [new_v4 fst snd]. cbv zeta. cbn [tick after_trip w_uuid].
  replace (w_uuid w2) with (w_uuid w) by congruence.
  set (id := o_uuid o (w_uuid w)). set (r := mkFleetProject _ _ _ _ _ _ _ _ _).
  apply (wp_persisted _ _ _ (Some (project_slug_key org slug, id)) (mkMutationAudit _ _ _ _ _ _ _ _ _)); try done.
  - change (db_view d = vw w). congruence.
  - apply (free_slug_intro (trip_time o w2)); [done|done|]. rewrite <- Hv1, <- Hv2. by destruct (live _ _ _).
  - intros m' Hwr Hr Hs. eapply (project_written _ _ id r); [done|done|done|done|by apply Hs|by exists parent|].
    intros eid e He Heid. destruct (family_holds _ _ _ _ _ _ _ (fk_environments _ Hok) He) as (_ & _ & p & Hpp & _).
    rewrite Heid in Hpp. unfold holds, fresh_id in *. fold id in Hfresh. congruence.
Qed.

(** A record with the same place in the hierarchy and at least as much alive. *)
Lemma project_replaced m m' id r r' :
  fleet_ok m → writes_record (project_key id) m m' → holds m (project_key id) r → holds m' (project_key id) r' →
  fp_id r' = fp_id r → fp_organization_id r' = fp_organization_id r → fp_slug r' = fp_slug r →
  (fp_state r' = FleetActive → fp_state r = FleetActive) →
  (fp_state r' = fp_state r ∨ ∀ eid e, holds m (environment_key eid) e → fe_project_id e = id →
     fe_organization_id e = fp_organization_id r → fe_state e ≠ FleetActive) →
  fleet_ok m'.
Proof.
  intros Hok Hwr Hr Hr' Hid Horg Hslug Hst Hkids.
  destruct (family_holds _ _ _ _ _ _ _ (fk_projects _ Hok) Hr) as (Hrid & _ & org & Ho & Ha).
  apply (project_written m m' id r'); [done|done|done|congruence| | |].
  - eapply slug_kept; [apply (fk_projects _ Hok)|exact Hr|unfold project_slug; congruence|done|exact Hwr].
  - exists org. rewrite Horg. split; [done|auto].
  - intros eid e He Heid.
    destruct (family_holds _ _ _ _ _ _ _ (fk_environments _ Hok) He) as (_ & _ & p & Hp & Hpo & Hpa).
    rewrite Heid in Hp. rewrite (holds_inj _ _ _ _ Hp Hr) in *. split; [congruence|]. intros Hact.
    destruct Hkids as [->|Hkids]; [auto|]. by destruct (Hkids eid e He Heid (eq_sym Hpo)).
Qed.

Lemma wp_update_fleet_project org id name desc rid oper reason o w :
  fleet_ok (vw w) →
  wp (update_fleet_project org id name desc rid oper reason) o w (outcome (vw w) #"project.update" rid fp_id).
Proof.
  intros Hok. eapply (wp_operation _ rid project_key); [done|apply Hok|done|]. intros w1 [Hv1 _] Hnew.
  eapply (wp_found project_key fp_id _ (option_filter _) id _ (vw w));
    [done|apply Hok|done|intros; by apply outcome_err|].
  intros r ? w2 [Hv2 _] Hr Hid _ [[= <-] Ho]%option_filter_Some. reflect.
  apply wp_bind, wp_ensure; [|intros _; apply outcome_err; congruence]. intros Hact%bool_decide_eq_true.
  apply wp_bind, wp_now. cbv zeta. set (r' := mkFleetProject _ _ _ _ _ _ _ _ _).
  apply (wp_persisted _ _ _ None (mkMutationAudit _ _ _ _ _ _ _ _ _)); try done; [change (vw w2 = vw w); congruence|].
  intros m' Hwr Hr' _. apply (project_replaced (vw w) m' id r r'); [done..|by left].
Qed.

Lemma wp_fleet_environments org project incl o w (Q : result error (list FleetEnvironmentRecord) → world → Prop) :
  fleet_ok (vw w) → (∀ e w', vw w' = vw w → Q (Err e) w') →
  (∀ l w', vw w' = vw w →
     (∀ id r, holds (vw w) (environment_key id) r → fe_organization_id r = org → fe_project_id r = project →
        incl || is_active (fe_state r) = true → r ∈ l) → Q (Ok l) w') →
  wp (fleet_environments org project incl) o w Q.
Proof.
  intros Hok He Hl.
  eapply (wp_listing ENVIRONMENT_PREFIX environment_key fe_id);
    [done|apply Hok|done|done|].
  intros l w' Hv Hin _. apply Hl; [done|]. intros id r Hr Ho Hp Ha. apply (Hin id); [done|]. by rewrite !bool_decide_eq_true_2.
Qed.

Lemma wp_archive_fleet_project org id rid oper reason o w :
  fleet_ok (vw w) →
  wp (archive_fleet_project org id rid oper reason) o w (outcome (vw w) #"project.archive" rid fp_id).
Proof.
  intros Hok. eapply (wp_operation _ rid project_key); [done|apply Hok|done|]. intros w1 [Hv1 _] Hnew.
  apply wp_bind, wp_fleet_environments; [by rewrite Hv1|intros e w' Hv; apply outcome_err; congruence|]. rewrite Hv1.
  intros l w2 Hv2 Hl. apply wp_bind, wp_ensure; [|intros _; apply outcome_err; congruence]. intros Hnone%negb_true_iff.
  eapply (wp_found project_key fp_id _ (option_filter _) id _ (vw w));
    [done|apply Hok|done|intros; by apply outcome_err|].
  intros r ? w3 [Hv3 _] Hr Hid _ [[= <-] Ho]%option_filter_Some. reflect.
  assert (Hgo : ∀ r' w4, vw w4 = vw w → fp_id r' = fp_id r → fp_slug r' = fp_slug r →
    fp_organization_id r' = fp_organization_id r → (fp_state r' = FleetActive → fp_state r = FleetActive) →
    wp (persist_fleet_mutation (project_key id) (to_json r') None
      (mkMutationAudit rid oper #"project.archive" #"project" id (Some org) (Some id) None reason);; mret r') o w4
      (outcome (vw w) #"project.archive" rid fp_id)).
  { intros r' w4 Hv4 Hid' Hs' Ho' Hst. apply (wp_persisted _ _ _ None (mkMutationAudit _ _ _ _ _ _ _ _ _)); try done; [simpl; congruence|].
    intros m' Hwr Hr' _. apply (project_replaced (vw w) m' id r r'); try done. right. intros eid e He Heid Heo Hact.
    assert (Hin : is_active (fe_state e) = true) by (unfold is_active; by rewrite bool_decide_eq_true_2).
    apply (existsb_false_elem _ _ e Hnone); [|done]. eapply Hl; [exact He|congruence|done|exact Hin]. }
  destruct (is_active (fp_state r)); apply wp_bind; [apply wp_bind, wp_now|]; apply wp_ret, Hgo; rewrite ?vw_tick; simpl; done || congruence.
Qed.

Lemma wp_create_fleet_environment org project slug name kind provider region rid oper reason o w :
  fleet_ok (vw w) → fresh_id environment_key o w →
  wp (create_fleet_environment org project slug name kind provider region rid oper reason) o w
    (outcome (vw w) #"environment.create" rid fe_id).
Proof.
  intros Hok Hfresh. eapply (wp_operation _ rid environment_key); [done|apply Hok|done|]. intros w1 [Hv1 Hu1] Hnew.
  eapply (wp_found project_key fp_id _ (option_filter _) project _ (vw w));
    [done|apply Hok|done|intros; by apply outcome_err|].
  intros parent ? w2 [Hv2 Hu2] Hp _ _ [[= <-] Ho]%option_filter_Some. reflect.
  apply wp_bind, wp_ensure; [|intros _; apply outcome_err; congruence]. intros Hact%bool_decide_eq_true.
  apply wp_bind, wp_get; [intros d _ Hv; apply outcome_err; unfold vw in *; simpl in *; congruence|]. intros d Hv.
  apply wp_bind, wp_ensure; [|intros _; apply outcome_err; unfold vw in *; simpl in *; congruence]. intros Hslug.
  apply wp_bind, wp_now. apply wp_bind. unfold wp at 1. cbn [new_v4 fst snd]. cbv zeta. cbn [tick after_trip w_uuid].
  replace (w_uuid w2) with (w_uuid w) by congruence.
  set (id := o_uuid o (w_uuid w)). set (r := mkFleetEnvironment _ _ _ _ _ _ _ _ _ _ _ _).
  apply (wp_persisted _ _ _ (Some (environment_slug_key project slug, id)) (mkMutationAudit _ _ _ _ _ _ _ _ _)); try done.
  - change (db_view d = vw w). congruence.
  - apply (free_slug_intro (trip_time o w2)); [done|done|]. rewrite <- Hv1, <- Hv2. by destruct (live _ _ _).
  - intros m' Hwr Hr Hs. eapply (environment_written _ _ id r); [done|done|done|done|by apply Hs|by exists parent].
Qed.

(** The last two operations differ in what they change of the environment. *)
Lemma wp_environment_replaced m id r r' rid oper action org project reason o w :
  vw w = m → fleet_ok m → m !! idempotency_key rid = None → holds m (environment_key id) r →
  fe_id r' = fe_id r → fe_slug r' = fe_slug r → fe_project_id r' = fe_project_id r →
  fe_organization_id r' = fe_organization_id r → (fe_state r' = FleetActive → fe_state r = FleetActive) →
  wp (persist_fleet_mutation (environment_key id) (to_json r') None
        (mkMutationAudit rid oper action #"environment" id (Some org) (Some project) (Some id) reason);; mret r') o w
    (outcome m action rid fe_id).
Proof.
  intros Hv Hok Hnew Hr Hid Hs Hp Ho Hst.
  destruct (family_holds _ _ _ _ _ _ _ (fk_environments _ Hok) Hr) as (Hrid & _ & parent & Hpp & Hpo & Hpa).
  apply (wp_persisted _ _ _ None (mkMutationAudit _ _ _ _ _ _ _ _ _)); try done; [simpl; congruence|].
  intros m' Hwr Hr' _. apply (environment_written m m' id r'); [done|done|done|congruence| |].
  - eapply slug_kept; [apply (fk_environments _ Hok)|exact Hr|unfold environment_slug; congruence|done|exact Hwr].
  - exists parent. rewrite Hp, Ho. split_and!; auto.
Qed.

Lemma wp_update_fleet_environment org project id name kind provider region rid oper reason o w :
  fleet_ok (vw w) →
  wp (update_fleet_environment org project id name kind provider region rid oper reason) o w
    (outcome (vw w) #"environment.update" rid fe_id).
Proof.
  intros Hok. eapply (wp_operation _ rid environment_key); [done|apply Hok|done|]. intros w1 [Hv1 _] Hnew.
  eapply (wp_found environment_key fe_id _ (option_filter _) id _ (vw w));
    [done|apply Hok|done|intros; by apply outcome_err|].
  intros r ? w2 [Hv2 _] Hr _ _ [[= <-] _]%option_filter_Some.
  apply wp_bind, wp_ensure; [|intros _; apply outcome_err; congruence]. intros _.
  apply wp_bind, wp_now. cbv zeta. apply (wp_environment_replaced _ _ r); try done. rewrite vw_tick. congruence.
Qed.

Lemma wp_archive_fleet_environment org project id rid oper reason o w :
  fleet_ok (vw w) →
  wp (archive_fleet_environment org project id rid oper reason) o w (outcome (vw w) #"environment.archive" rid fe_id).
Proof.
  intros Hok. eapply (wp_operation _ rid environment_key); [done|apply Hok|done|]. intros w1 [Hv1 _] Hnew.
  eapply (wp_found environment_key fe_id _ (option_filter _) id _ (vw w));
    [done|apply Hok|done|intros; by apply outcome_err|].
  intros r ? w2 [Hv2 _] Hr _ _ [[= <-] _]%option_filter_Some.
  destruct (is_active (fe_state r)); apply wp_bind; [apply wp_bind, wp_now|]; apply wp_ret, (wp_environment_replaced _ _ r);
    rewrite ?vw_tick; done || congruence.
Qed.

(** ** Requests *)

Inductive fleet_request :=
  | CreateOrganization (slug name : str)
  | UpdateOrganization (id : Uuid) (name : str)
  | ArchiveOrganization (id : Uuid)
  | CreateProject (organization_id : Uuid) (slug name description : str)
  | UpdateProject (organization_id id : Uuid) (name description : str)
  | ArchiveProject (organization_id id : Uuid)
  | CreateEnvironment (organization_id project_id : Uuid) (slug name : str) (kind : FleetEnvironmentKindRecord)
      (provider region : str)
  | UpdateEnvironment (organization_id project_id id : Uuid) (name : str) (kind : FleetEnvironmentKindRecord)
      (provider region : str)
  | ArchiveEnvironment (organization_id project_id id : Uuid).

Definition fleet_action (q : fleet_request) : str :=
  match q with
  | CreateOrganization _ _ => #"organization.create"
  | UpdateOrganization _ _ => #"organization.update"
  | ArchiveOrganization _ => #"organization.archive"
  | CreateProject _ _ _ _ => #"project.create"
  | UpdateProject _ _ _ _ => #"project.update"
  | ArchiveProject _ _ => #"project.archive"
  | CreateEnvironment _ _ _ _ _ _ _ => #"environment.create"
  | UpdateEnvironment _ _ _ _ _ _ _ => #"environment.update"
  | ArchiveEnvironment _ _ _ => #"environment.archive"
  end.

(** Carry out a request; the answer is the identifier of the resource returned. *)
Definition perform_fleet (q : fleet_request) (rid oper : Uuid) (reason : str) : M error Uuid :=
  match q with
  | CreateOrganization slug name => r ← create_fleet_organization slug name rid oper reason; mret (fo_id r)
  | UpdateOrganization id name => r ← update_fleet_organization id name rid oper reason; mret (fo_id r)
  | ArchiveOrganization id => r ← archive_fleet_organization id rid oper reason; mret (fo_id r)
  | CreateProject org slug name desc => r ← create_fleet_project org slug name desc rid oper reason; mret (fp_id r)
  | UpdateProject org id name desc => r ← update_fleet_project org id name desc rid oper reason; mret (fp_id r)
  | ArchiveProject org id => r ← archive_fleet_project org id rid oper reason; mret (fp_id r)
  | CreateEnvironment org project slug name kind provider region =>
      r ← create_fleet_environment org project slug name kind provider region rid oper reason; mret (fe_id r)
  | UpdateEnvironment org project id name kind provider region =>
      r ← update_fleet_environment org project id name kind provider region rid oper reason; mret (fe_id r)
  | ArchiveEnvironment org project id => r ← archive_fleet_environment org project id rid oper reason; mret (fe_id r)
  end.

(** A new resource gets an identifier that no resource of its kind has. *)
Definition fresh_for (q : fleet_request) (o : oracle) (w : world) : Prop :=
  match q with
  | CreateOrganization _ _ => fresh_id organization_key o w
  | CreateProject _ _ _ _ => fresh_id project_key o w
  | CreateEnvironment _ _ _ _ _ _ _ => fresh_id environment_key o w
  | _ => True
  end.

Lemma outcome_id {A : Type} m action rid (idf : A → Uuid) (p : M error A) o w :
  wp p o w (outcome m action rid idf) → wp (r ← p; mret (idf r)) o w (outcome m action rid (λ id, id)).
Proof.
  intros Hp. apply wp_bind. eapply wp_mono; [exact Hp|]. intros [a|e] w' [Hs Hc]; [|split; [done|by intros]].
  apply wp_ret. split; [done|]. intros ? [= <-]. by apply Hc.
Qed.

Lemma wp_perform_fleet q rid oper reason o w :
  fleet_ok (vw w) → fresh_for q o w →
  wp (perform_fleet q rid oper reason) o w (outcome (vw w) (fleet_action q) rid (λ id, id)).
Proof.
  intros Hok Hf. destruct q; apply outcome_id.
  - by apply wp_create_fleet_organization.
  - by apply wp_update_fleet_organization.
  - by apply wp_archive_fleet_organization.
  - by apply wp_create_fleet_project.
  - by apply wp_update_fleet_project.
  - by apply wp_archive_fleet_project.
  - by apply wp_create_fleet_environment.
  - by apply wp_update_fleet_environment.
  - by apply wp_archive_fleet_environment.
Qed.

(** The control plane at work: requests, with round trips failing at will, and
    operations that write no hierarchy record and lose no index entry. *)
Inductive fleet_run : world → world → Prop :=
  | run_request q rid oper reason o w :
      fresh_for q o w → fleet_run w (perform_fleet q rid oper reason o w).2
  | run_elsewhere k w w' :
      is_record_key k = false → writes_record k (vw w) (vw w') → fleet_run w w'.

Lemma elsewhere_step k m m' : is_record_key k = false → writes_record k m m' → fleet_step m m'.
Proof.
  intros Hk [Hf Hi Hq] [Ho Hp He _]. split; [|done].
  assert (Hrec : ∀ k', is_record_key k' = true → m' !! k' = m !! k') by (intros k' Hk'; apply Hf; [done|congruence]).
  assert (Hkeep : ∀ (A : Type) (S : Serde A) k' (r : A), is_record_key k' = true → holds m k' r → holds m' k' r).
  { intros A S k' r Hk' Hr. unfold holds. by rewrite Hrec. }
  split; [| | |done].
  - eapply family_same; [intros; by apply Hrec|exact index_org|done|done|exact Ho].
  - eapply family_same; [intros; by apply Hrec|exact index_project|done| |exact Hp].
    intros id r _ (org & Ho' & Ha). exists org. split; [by apply Hkeep|done].
  - eapply family_same; [intros; by apply Hrec|exact index_environment|done| |exact He].
    intros id r _ (project & Hp' & Ha). exists project. split; [by apply Hkeep|done].
Qed.

Lemma fleet_run_step w w' : fleet_run w w' → fleet_step (vw w) (vw w').
Proof.
  intros Hrun. destruct Hrun as [q rid oper reason o w Hf|k w w' Hk Hw]; [|by eapply elsewhere_step].
  intros Hok. by apply (wp_perform_fleet q rid oper reason o w Hok Hf).
Qed.

Lemma fleet_runs_step w w' : rtc fleet_run w w' → fleet_step (vw w) (vw w').
Proof. induction 1 as [|w1 w2 w3 H1 _ IH]; [reflexivity|]. etrans; [by apply fleet_run_step|done]. Qed.

Lemma completed_inj m a a' rid id id' : completed m a rid id → completed m a' rid id' → a = a' ∧ id = id'.
Proof. intros (v & Hv & Hj) (v' & Hv' & Hj'). rewrite Hv in Hv'. injection Hv' as <-. rewrite Hj in Hj'. by injection Hj'. Qed.

(** A request that is on record changes nothing and answers with its resource. *)
Definition inert {A : Type} (m : gmap str entry) (a : str) (id : Uuid) (action : str) (idf : A → Uuid)
    (r : result error A) (w' : world) : Prop :=
  vw w' = m ∧ ∀ x, r = Ok x → a = action ∧ idf x = id.

Lemma wp_inert {A : Type} `{Serde A} action rid key (idf : A → Uuid) P (load : Uuid → M error (option A)) body a id o w :
  fleet_ok (vw w) → records key idf P (vw w) → (∀ id, load id = get_json (key id)) → completed (vw w) a rid id →
  wp (r ← idempotent action rid load body; mret (idf r)) o w (inert (vw w) a id action (λ x, x)).
Proof.
  intros Hok Hfam Hload Hc. apply wp_bind, (wp_idempotent action rid key); [apply fk_requests, Hok|done|by intros e w' [? _]| |].
  - intros id' r w' [Hv _] Hc' Hr. apply wp_ret. split; [done|]. intros ? [= <-].
    destruct (completed_inj _ _ _ _ _ _ Hc Hc') as [-> ->]. by rewrite (records_live _ _ _ _ _ _ Hfam Hr).
  - intros w' _ Hn. destruct Hc as (v & Hv & _). congruence.
Qed.

Lemma wp_perform_inert q rid oper reason a id o w :
  fleet_ok (vw w) → completed (vw w) a rid id →
  wp (perform_fleet q rid oper reason) o w (inert (vw w) a id (fleet_action q) (λ x, x)).
Proof.
  intros Hok Hc. destruct q.
  1-3: eapply (wp_inert _ rid organization_key fo_id); [done|apply Hok|done|done].
  1-3: eapply (wp_inert _ rid project_key fp_id); [done|apply Hok|done|done].
  all: eapply (wp_inert _ rid environment_key fe_id); [done|apply Hok|done|done].
Qed.


(** A fleet request takes effect at most once.  After a request has succeeded,
    and after any further activity, presenting its identifier again (with any
    arguments, by anyone) changes nothing in the datastore, and it succeeds only as
    the same action, with the resource of the first time. *)
Theorem fleet_request_once q rid oper reason o w id w1 w2 q' oper' reason' o' :
  fleet_ok (vw w) → fresh_for q o w → perform_fleet q rid oper reason o w = (Ok id, w1) → rtc fleet_run w1 w2 →
  vw (perform_fleet q' rid oper' reason' o' w2).2 = vw w2 ∧
  ∀ id', (perform_fleet q' rid oper' reason' o' w2).1 = Ok id' → fleet_action q' = fleet_action q ∧ id' = id.
Proof.
  intros Hok Hf Hr Hrun. pose proof (wp_perform_fleet q rid oper reason o w Hok Hf) as Hw. unfold wp in Hw. rewrite Hr in Hw.
  destruct Hw as [Hs Hc]. destruct (Hs Hok) as [Hok1 _]. destruct (fleet_runs_step _ _ Hrun Hok1) as [Hok2 Hk].
  pose proof (completed_kept _ _ _ _ _ Hk (Hc _ eq_refl)) as Hc2.
  destruct (wp_perform_inert q' rid oper' reason' _ _ o' w2 Hok2 Hc2) as [Hv Hi].
  split; [exact Hv|]. intros id' Hid. by destruct (Hi _ Hid) as [-> ->].
Qed.
End Fleet.

(** ** Witnesses *)

Module DemoFleet.
Import DemoEnv.

#[export] Program Instance codec_fleet_state : Codec FleetResourceStateRecord :=
  codec_iso (A := bool) (λ r, match r with FleetActive => false | FleetArchived => true end)
    (λ b, Some (if b then FleetArchived else FleetActive)) _.
Next Obligation. by intros []. Qed.

#[export] Program Instance codec_fleet_kind : Codec FleetEnvironmentKindRecord :=
  codec_iso (A := bool * bool)
    (λ r, match r with Development => (false, false) | Preview => (false, true) | Staging => (true, false)
                     | Production => (true, true) end)
    (λ b : bool * bool, Some (if b.1 then if b.2 then Production else Staging else if b.2 then Preview else Development)) _.
Next Obligation. by intros []. Qed.

#[export] Program Instance codec_fleet_organization : Codec FleetOrganizationRecord :=
  codec_iso (λ r : FleetOrganizationRecord, (fo_id r, (fo_slug r, (fo_name r, (fo_state r, (fo_created_at r,
      (fo_updated_at r, fo_archived_at r)))))))
    (λ '(a, (b, (c, (d, (e, (f, g)))))), Some (mkFleetOrganization a b c d e f g)) _.
Next Obligation. by intros []. Qed.

#[export] Program Instance codec_fleet_project : Codec FleetProjectRecord :=
  codec_iso (λ r : FleetProjectRecord, (fp_id r, (fp_organization_id r, (fp_slug r, (fp_name r, (fp_description r,
      (fp_state r, (fp_created_at r, (fp_updated_at r, fp_archived_at r)))))))))
    (λ '(a, (b, (c, (d, (e, (f, (g, (h, i)))))))), Some (mkFleetProject a b c d e f g h i)) _.
Next Obligation. by intros []. Qed.

#[export] Program Instance codec_fleet_environment : Codec FleetEnvironmentRecord :=
  codec_iso (λ r : FleetEnvironmentRecord, (fe_id r, (fe_organization_id r, (fe_project_id r, (fe_slug r, (fe_name r,
      (fe_kind r, (fe_provider r, (fe_region r, (fe_state r, (fe_created_at r, (fe_updated_at r, fe_archived_at r))))))))))))
    (λ '(a, (b, (c, (d, (e, (f, (g, (h, (i, (j, (k, l))))))))))), Some (mkFleetEnvironment a b c d e f g h i j k l)) _.
Next Obligation. by intros []. Qed.

#[export] Program Instance codec_fleet_audit : Codec FleetAuditRecord :=
  codec_iso (λ r : FleetAuditRecord, (fa_id r, (fa_request_id r, (fa_operator_id r, (fa_action r, (fa_resource_kind r,
      (fa_resource_id r, (fa_organization_id r, (fa_project_id r, (fa_environment_id r, (fa_reason r, fa_occurred_at r)))))))))))
    (λ '(a, (b, (c, (d, (e, (f, (g, (h, (i, (j, k)))))))))), Some (mkFleetAudit a b c d e f g h i j k)) _.
Next Obligation. by intros []. Qed.

#[export] Program Instance codec_idempotency : Codec FleetIdempotencyRecord :=
  codec_iso (λ r : FleetIdempotencyRecord, (idem_action r, idem_resource_id r)) (λ '(a, b), Some (mkIdempotency a b)) _.
Next Obligation. by intros []. Qed.

(** An organization, a project and an environment, created by requests 101 to 103. *)
Definition demo_operator : Uuid := demo_uuid_of 900.
Definition demo_org_request : fleet_request := CreateOrganization #"acme" #"Acme".
Abbreviation demo_org_run :=
  (perform_fleet demo_org_request (demo_uuid_of 101) demo_operator #"setup" demo_oracle (demo_world [])).
Definition demo_org_id : Uuid := Eval vm_compute in match demo_org_run.1 with Ok id => id | Err _ => demo_uuid_of 0 end.
Definition demo_org_world : world := Eval vm_compute in demo_org_run.2.
Definition demo_project_request : fleet_request := CreateProject demo_org_id #"web" #"Web" [].
Abbreviation demo_project_run :=
  (perform_fleet demo_project_request (demo_uuid_of 102) demo_operator #"setup" demo_oracle demo_org_world).
Definition demo_project_id : Uuid := Eval vm_compute in match demo_project_run.1 with Ok id => id | Err _ => demo_uuid_of 0 end.
Definition demo_project_world : world := Eval vm_compute in demo_project_run.2.
Definition demo_environment_request : fleet_request :=
  CreateEnvironment demo_org_id demo_project_id #"prod" #"Production" Production #"aws" #"eu".
Abbreviation demo_environment_run :=
  (perform_fleet demo_environment_request (demo_uuid_of 103) demo_operator #"setup" demo_oracle demo_project_world).
Definition demo_environment_id : Uuid :=
  Eval vm_compute in match demo_environment_run.1 with Ok id => id | Err _ => demo_uuid_of 0 end.
Definition demo_environment_world : world := Eval vm_compute in demo_environment_run.2.

Lemma fleet_ok_empty : fleet_ok (vw (demo_world [])).
Proof. split; intros id e He; exact (False_ind _ (lookup_empty_Some _ e He)). Qed.

Ltac demo_fresh :=
  cbv [fresh_for demo_org_request demo_project_request demo_environment_request]; unfold fresh_id; eval_eq.

Lemma demo_fleet_run : rtc fleet_run (demo_world []) demo_environment_world.
Proof.
  assert (demo_environment_world = demo_environment_run.2) as -> by eval_eq.
  eapply rtc_l; [apply (run_request demo_org_request (demo_uuid_of 101) demo_operator #"setup" demo_oracle); demo_fresh|].
  assert (demo_org_run.2 = demo_org_world) as -> by eval_eq.
  eapply rtc_l; [apply (run_request demo_project_request (demo_uuid_of 102) demo_operator #"setup" demo_oracle); demo_fresh|].
  assert (demo_project_run.2 = demo_project_world) as -> by eval_eq.
  apply rtc_once, run_request. demo_fresh.
Qed.


(** Archiving the organization is refused while the project is active, and the request
    that created it cannot be replayed as anything else. *)
Abbreviation demo_replay q :=
  (perform_fleet q (demo_uuid_of 101) demo_operator #"again" demo_oracle demo_environment_world).

Lemma fleet_request_once_witness :
  (demo_replay (CreateOrganization #"other" #"Other")).1 = Ok demo_org_id ∧
  vw (demo_replay (CreateOrganization #"other" #"Other")).2 = vw demo_environment_world ∧
  vw (demo_replay (ArchiveOrganization demo_org_id)).2 = vw demo_environment_world ∧
  is_ok (demo_replay (ArchiveOrganization demo_org_id)).1 = false.
Proof.
  assert (Hrun : perform_fleet demo_org_request (demo_uuid_of 101) demo_operator #"setup" demo_oracle (demo_world [])
    = (Ok demo_org_id, demo_org_world)) by eval_eq.
  assert (Hrest : rtc fleet_run demo_org_world demo_environment_world).
  { assert (demo_environment_world = demo_environment_run.2) as -> by eval_eq.
    eapply rtc_l; [apply (run_request demo_project_request (demo_uuid_of 102) demo_operator #"setup" demo_oracle); demo_fresh|].
    assert (demo_project_run.2 = demo_project_world) as -> by eval_eq.
    apply rtc_once, run_request. demo_fresh. }
  assert (Hfresh : fresh_for demo_org_request demo_oracle (demo_world [])) by (demo_fresh).
  pose proof (λ q, fleet_request_once demo_org_request (demo_uuid_of 101) demo_operator #"setup" demo_oracle (demo_world [])
    demo_org_id demo_org_world demo_environment_world q demo_operator #"again" demo_oracle fleet_ok_empty Hfresh Hrun Hrest) as Honce.
  split_and!.
  - eval_eq.
  - exact (proj1 (Honce (CreateOrganization #"other" #"Other"))).
  - exact (proj1 (Honce (ArchiveOrganization demo_org_id))).
  - eval_eq.
Defined.
End DemoFleet.
