(* ===== verification/FleetConnections.v ===== *)
(** * Fleet connections (src/src/store/fleet.rs)

    The link between an environment of the control plane and a realm: an attempt is
    opened for ten minutes, completed once with the credential the realm granted,
    observed, rotated in two phases and finally revoked.  Each assignment of a realm
    carries an epoch that is reserved from a counter. *)

From S2P Require Import Prelude Sable Logic Demo Records Events Fleet.

Definition CONNECTION_ATTEMPT_PREFIX : str := #"fleet:connection-attempt:".
Definition CONNECTION_PREFIX : str := #"fleet:connection:".
Definition FLEET_CONNECTION_ATTEMPT_SECONDS : N := 600.

Inductive FleetConnectionModeRecord := PublicEndpoint | OutboundConnector.
#[global] Instance FleetConnectionModeRecord_eq_dec : EqDecision FleetConnectionModeRecord.
Proof. solve_decision. Defined.

Inductive FleetConnectionStateRecord := Pending | Verifying | Healthy | Degraded | Offline | Revoked.
#[global] Instance FleetConnectionStateRecord_eq_dec : EqDecision FleetConnectionStateRecord.
Proof. solve_decision. Defined.

Record EncryptedFleetCredential := mkFleetCredential {
  ef_wrapping_key_id : str;
  ef_nonce : str;
  ef_ciphertext : str
}.

Record FleetConnectionAttemptRecord := mkAttempt {
  at_id : Uuid;
  at_organization_id : Uuid;
  at_project_id : Uuid;
  at_environment_id : Uuid;
  at_mode : FleetConnectionModeRecord;
  at_management_endpoint : str;
  at_pairing_code_digest : option str;
  at_created_by : Uuid;
  at_created_at : N;
  at_expires_at : N
}.

Record FleetConnectionRecord := mkConnection {
  fc_id : Uuid;
  fc_organization_id : Uuid;
  fc_project_id : Uuid;
  fc_environment_id : Uuid;
  fc_realm_id : str;
  fc_assignment_epoch : N;
  fc_display_name : str;
  fc_mode : FleetConnectionModeRecord;
  fc_management_endpoint : str;
  fc_credential : EncryptedFleetCredential;
  fc_credential_hint : str;
  fc_staged_credential : option EncryptedFleetCredential;
  fc_staged_credential_hint : option str;
  fc_credential_rotation_request_id : option Uuid;
  fc_deployment_version : str;
  fc_protocol_version : str;
  fc_capabilities : list (str * N);
  fc_granted_scopes : list str;
  fc_issuer : str;
  fc_rp_id : str;
  fc_state : FleetConnectionStateRecord;
  fc_last_seen_at : option N;
  fc_created_at : N;
  fc_updated_at : N;
  fc_revoked_at : option N
}.

(** Assignments to the mutable fields. *)
Definition set_status (state : FleetConnectionStateRecord) (last_seen : option N) (updated : N) (revoked : option N)
    (r : FleetConnectionRecord) : FleetConnectionRecord :=
  mkConnection (fc_id r) (fc_organization_id r) (fc_project_id r) (fc_environment_id r) (fc_realm_id r)
    (fc_assignment_epoch r) (fc_display_name r) (fc_mode r) (fc_management_endpoint r) (fc_credential r)
    (fc_credential_hint r) (fc_staged_credential r) (fc_staged_credential_hint r) (fc_credential_rotation_request_id r)
    (fc_deployment_version r) (fc_protocol_version r) (fc_capabilities r) (fc_granted_scopes r) (fc_issuer r) (fc_rp_id r)
    state last_seen (fc_created_at r) updated revoked.

Definition set_credential (credential : EncryptedFleetCredential) (hint : str)
    (staged : option EncryptedFleetCredential) (staged_hint : option str) (request : option Uuid) (updated : N)
    (r : FleetConnectionRecord) : FleetConnectionRecord :=
  mkConnection (fc_id r) (fc_organization_id r) (fc_project_id r) (fc_environment_id r) (fc_realm_id r)
    (fc_assignment_epoch r) (fc_display_name r) (fc_mode r) (fc_management_endpoint r) credential
    hint staged staged_hint request
    (fc_deployment_version r) (fc_protocol_version r) (fc_capabilities r) (fc_granted_scopes r) (fc_issuer r) (fc_rp_id r)
    (fc_state r) (fc_last_seen_at r) (fc_created_at r) updated (fc_revoked_at r).

Definition set_created (t : N) (r : FleetConnectionRecord) : FleetConnectionRecord :=
  mkConnection (fc_id r) (fc_organization_id r) (fc_project_id r) (fc_environment_id r) (fc_realm_id r)
    (fc_assignment_epoch r) (fc_display_name r) (fc_mode r) (fc_management_endpoint r) (fc_credential r)
    (fc_credential_hint r) (fc_staged_credential r) (fc_staged_credential_hint r) (fc_credential_rotation_request_id r)
    (fc_deployment_version r) (fc_protocol_version r) (fc_capabilities r) (fc_granted_scopes r) (fc_issuer r) (fc_rp_id r)
    (fc_state r) (fc_last_seen_at r) t t (fc_revoked_at r).

Definition is_revoked (r : FleetConnectionRecord) : bool := bool_decide (fc_state r = Revoked).

Definition connection_attempt_key `{ExtUuid} (id : Uuid) : str := CONNECTION_ATTEMPT_PREFIX ++ uuid_show id.
Definition connection_key `{ExtUuid} (id : Uuid) : str := CONNECTION_PREFIX ++ uuid_show id.
Definition pairing_code_digest `{ExtCrypto} (value : str) : str := hex_encode (sha256 (bytes value)).
Definition assignment_epoch_key `{ExtCrypto} (realm_id : str) : str :=
  #"fleet:assignment-epoch:" ++ hex_encode (sha256 (bytes realm_id)).

Definition is_none_or {A : Type} (p : A → bool) (x : option A) : bool := match x with Some a => p a | None => true end.

(** [Iterator::max] of the epochs of a realm, or 0. *)
Definition last_epoch (realm_id : str) (l : list FleetConnectionRecord) : N :=
  foldr N.max 0 (fc_assignment_epoch <$> List.filter (λ r, bool_decide (fc_realm_id r = realm_id)) l).

Definition connection_conflict : error := EPolicy FleetConnectionConflict.
Definition attempt_expired : error := EPolicy FleetConnectionAttemptExpired.

Section FleetConnections.
Context `{Env}.
Context `{!Serde FleetOrganizationRecord, !Serde FleetProjectRecord, !Serde FleetEnvironmentRecord}.
Context `{!Serde FleetAuditRecord, !Serde FleetIdempotencyRecord}.
Context `{!Serde FleetConnectionAttemptRecord, !Serde FleetConnectionRecord}.

Definition fleet_connection (id : Uuid) : M error (option FleetConnectionRecord) := get_json (connection_key id).
Definition fleet_connection_attempt (id : Uuid) : M error (option FleetConnectionAttemptRecord) :=
  get_json (connection_attempt_key id).

Definition fleet_connections (organization_id project_id environment_id : option Uuid) (include_revoked : bool) :
    M error (list FleetConnectionRecord) :=
  ids ← record_ids CONNECTION_PREFIX;
  records ← load_records (load_if fleet_connection (λ r,
    is_none_or (λ v, bool_decide (fc_organization_id r = v)) organization_id
    && is_none_or (λ v, bool_decide (fc_project_id r = v)) project_id
    && is_none_or (λ v, bool_decide (fc_environment_id r = v)) environment_id
    && (include_revoked || negb (is_revoked r)))) ids;
  mret (sort_by (λ a b, uuid_ltb (fc_id a) (fc_id b)) records).

Definition observe_fleet_connection (id : Uuid) (state : FleetConnectionStateRecord) : M error FleetConnectionRecord :=
  found ← fleet_connection id;
  record ← some_or fleet_missing found;
  if is_revoked record || is_some (fc_revoked_at record) then mret record else
  timestamp ← now;
  let record := set_status state
    (if bool_decide (state = Healthy) then Some timestamp else fc_last_seen_at record) timestamp
    (fc_revoked_at record) record in
  execute [SET (connection_key id) (to_json record)];;
  mret record.

(** The reply of [SET .. NX] is not looked at. *)
Definition reserve_fleet_assignment_epoch (realm_id : str) : M error N :=
  connections ← fleet_connections None None None true;
  let current := last_epoch realm_id connections in
  let key := assignment_epoch_key realm_id in
  execute [SETNX key (show_u64 current)];;
  rs ← query [INCR key];
  next ← lift (match rs with [RInt n] => Ok n | _ => Err EDb end);
  ensure (negb (next =? 0)) (EBail "realm assignment epoch is exhausted");;
  mret next.

(** [Option::filter] on the deadline, which reads the clock. *)
Definition unexpired_attempt (found : option FleetConnectionAttemptRecord) : M error FleetConnectionAttemptRecord :=
  match found with
  | None => fail attempt_expired
  | Some attempt =>
      t ← now;
      ensure (t <? at_expires_at attempt) attempt_expired;;
      mret attempt
  end.

Definition create_fleet_connection_attempt (organization_id project_id environment_id : Uuid)
    (mode : FleetConnectionModeRecord) (management_endpoint : str) (pairing_code : option str)
    (request_id operator_id : Uuid) (reason : str) : M error FleetConnectionAttemptRecord :=
  replay ← fleet_idempotent_resource #"connection.begin" request_id;
  match replay with
  | Some resource_id => found ← fleet_connection_attempt resource_id; unexpired_attempt found
  | None =>
      found ← fleet_environment environment_id;
      environment ← some_or fleet_missing (option_filter (in_project organization_id project_id) found);
      ensure (is_active (fe_state environment)) (EPolicy FleetParentArchived);;
      timestamp ← now;
      id ← new_v4;
      let record := mkAttempt id organization_id project_id environment_id mode management_endpoint
        (pairing_code_digest <$> pairing_code) operator_id timestamp
        (saturating_add timestamp FLEET_CONNECTION_ATTEMPT_SECONDS) in
      audit_id ← new_v4;
      execute ([SETEX (connection_attempt_key id) (to_json record) FLEET_CONNECTION_ATTEMPT_SECONDS]
        ++ request_records (mkMutationAudit request_id operator_id #"connection.begin" #"connection" id
             (Some organization_id) (Some project_id) (Some environment_id) reason) audit_id timestamp);;
      mret record
  end.

Definition authenticated_outbound_connection_attempt (id : Uuid) (pairing_code : str) :
    M error (option FleetConnectionAttemptRecord) :=
  found ← fleet_connection_attempt id;
  match found with
  | None => mret None
  | Some attempt =>
      let supplied := pairing_code_digest pairing_code in
      let matches := match option_filter (λ expected, len expected =? len supplied) (at_pairing_code_digest attempt) with
                     | Some expected => ct_eq expected supplied
                     | None => false
                     end in
      if negb (bool_decide (at_mode attempt = OutboundConnector)) then mret None else
      t ← now;
      mret (if (t <? at_expires_at attempt) && matches then Some attempt else None)
  end.

Definition persist_fleet_mutation_with_delete (resource_key resource delete_key : str) (audit : MutationAudit) :
    M error unit :=
  id ← new_v4;
  occurred_at ← now;
  execute ([DEL [delete_key]; SET resource_key resource] ++ request_records audit id occurred_at).

(** The record describes the connection that the attempt was opened for. *)
Definition for_attempt (record : FleetConnectionRecord) (attempt : FleetConnectionAttemptRecord) : bool :=
  bool_decide (fc_organization_id record = at_organization_id attempt)
  && bool_decide (fc_project_id record = at_project_id attempt)
  && bool_decide (fc_environment_id record = at_environment_id attempt)
  && bool_decide (fc_mode record = at_mode attempt)
  && bool_decide (fc_management_endpoint record = at_management_endpoint attempt).

Definition complete_fleet_connection (attempt_id : Uuid) (record : FleetConnectionRecord) (request_id operator_id : Uuid)
    (reason : str) : M error FleetConnectionRecord :=
  idempotent #"connection.complete" request_id fleet_connection (
    found ← fleet_connection_attempt attempt_id;
    attempt ← unexpired_attempt found;
    ensure (for_attempt record attempt) fleet_missing;;
    siblings ← fleet_connections None None (Some (fc_environment_id record)) true;
    ensure (negb (existsb (λ existing,
        bool_decide (fc_realm_id existing = fc_realm_id record) && negb (is_revoked existing)) siblings))
      connection_conflict;;
    all ← fleet_connections None None None true;
    ensure (negb ((fc_assignment_epoch record =? 0)
                  || (fc_assignment_epoch record <=? last_epoch (fc_realm_id record) all))) connection_conflict;;
    timestamp ← now;
    let record := set_created timestamp record in
    let audit := mkMutationAudit request_id operator_id #"connection.complete" #"connection" (fc_id record)
      (Some (fc_organization_id record)) (Some (fc_project_id record)) (Some (fc_environment_id record)) reason in
    (if bool_decide (fc_mode record = OutboundConnector)
     then persist_fleet_mutation (connection_key (fc_id record)) (to_json record) None audit
     else persist_fleet_mutation_with_delete (connection_key (fc_id record)) (to_json record)
            (connection_attempt_key attempt_id) audit);;
    mret record).

Definition fleet_connection_for_completion_request (request_id : Uuid) : M error (option FleetConnectionRecord) :=
  id ← fleet_idempotent_resource #"connection.complete" request_id;
  match id with None => mret None | Some id => fleet_connection id end.

Definition fleet_connection_for_credential_rotation_request (request_id : Uuid) : M error (option FleetConnectionRecord) :=
  id ← fleet_idempotent_resource #"connection.rotate_credential" request_id;
  match id with None => mret None | Some id => fleet_connection id end.

Definition in_environment (organization_id project_id environment_id : Uuid) (r : FleetConnectionRecord) : bool :=
  bool_decide (fc_organization_id r = organization_id) && bool_decide (fc_project_id r = project_id)
  && bool_decide (fc_environment_id r = environment_id).

Definition revoke_fleet_connection (organization_id project_id environment_id id request_id operator_id : Uuid)
    (reason : str) : M error FleetConnectionRecord :=
  idempotent #"connection.revoke" request_id fleet_connection (
    found ← fleet_connection id;
    record ← some_or fleet_missing (option_filter (in_environment organization_id project_id environment_id) found);
    record ← (if is_revoked record then mret record
              else t ← now; mret (set_status Revoked (fc_last_seen_at record) t (Some t) record));
    persist_fleet_mutation (connection_key id) (to_json record) None
      (mkMutationAudit request_id operator_id #"connection.revoke" #"connection" id (Some organization_id)
         (Some project_id) (Some environment_id) reason);;
    mret record).

Definition rotate_fleet_connection_credential
    (organization_id project_id environment_id id request_id operator_id : Uuid) (reason : str) :
    M error FleetConnectionRecord :=
  idempotent #"connection.rotate_credential" request_id fleet_connection (
    found ← fleet_connection id;
    record ← some_or fleet_missing (option_filter (λ r,
      in_environment organization_id project_id environment_id r && negb (is_revoked r)) found);
    ensure (bool_decide (fc_credential_rotation_request_id record = Some request_id)) connection_conflict;;
    credential ← some_or connection_conflict (fc_staged_credential record);
    hint ← some_or connection_conflict (fc_staged_credential_hint record);
    t ← now;
    let record := set_credential credential hint None None None t record in
    persist_fleet_mutation (connection_key id) (to_json record) None
      (mkMutationAudit request_id operator_id #"connection.rotate_credential" #"connection" id (Some organization_id)
         (Some project_id) (Some environment_id) reason);;
    mret record).

Definition stage_fleet_connection_credential (id : Uuid) (credential : EncryptedFleetCredential) (credential_hint : str)
    (request_id : Uuid) : M error FleetConnectionRecord :=
  found ← fleet_connection id;
  record ← some_or fleet_missing (option_filter (λ r, negb (is_revoked r)) found);
  match fc_credential_rotation_request_id record with
  | Some existing => if bool_decide (existing = request_id) then mret record else fail connection_conflict
  | None =>
      t ← now;
      let record := set_credential (fc_credential record) (fc_credential_hint record) (Some credential)
        (Some credential_hint) (Some request_id) t record in
      execute [SET (connection_key id) (to_json record)];;
      mret record
  end.

Definition record_fleet_remote_mutation (connection_id request_id operator_id : Uuid) (action reason : str) :
    M error FleetAuditRecord :=
  replay ← fleet_idempotent_resource action request_id;
  match replay with
  | Some _ =>
      records ← fleet_audit_records;
      some_or fleet_missing (List.find (λ r, bool_decide (fa_request_id r = request_id)
        && bool_decide (fa_action r = action)) records)
  | None =>
      found ← fleet_connection connection_id;
      connection ← some_or fleet_missing
        (option_filter (λ r, negb (is_revoked r) && negb (is_some (fc_revoked_at r))) found);
      id ← new_v4;
      t ← now;
      let audit := mkFleetAudit id request_id operator_id action #"environment" (fc_environment_id connection)
        (Some (fc_organization_id connection)) (Some (fc_project_id connection)) (Some (fc_environment_id connection))
        reason t in
      execute [SET (audit_key id) (to_json audit);
               SET (idempotency_key request_id) (to_json (mkIdempotency action (fc_environment_id connection)))];;
      mret audit
  end.

(** ** The state of the connections *)

#[global] Instance connection_key_inj : Inj (=) (=) connection_key.
Proof. intros a b Hab. by apply app_inv_head, (inj uuid_show) in Hab. Qed.

Definition is_connection_key (k : str) : bool := starts_with CONNECTION_PREFIX k.

(** Two connections of the same realm. *)
Definition compatible (a b : FleetConnectionRecord) : Prop :=
  fc_realm_id a = fc_realm_id b →
  fc_assignment_epoch a ≠ fc_assignment_epoch b ∧
  (fc_environment_id a = fc_environment_id b → fc_state a = Revoked ∨ fc_state b = Revoked).

Record conn_ok (m : gmap str entry) : Prop := {
  ck_records : records connection_key fc_id (λ _, True) m;
  ck_compatible i j a b : i ≠ j → holds m (connection_key i) a → holds m (connection_key j) b → compatible a b
}.

(** Revoked connections are never touched again. *)
Definition graves_kept (m m' : gmap str entry) : Prop :=
  ∀ id r, holds m (connection_key id) r → fc_state r = Revoked → holds m' (connection_key id) r.

Record conn_next (m m' : gmap str entry) : Prop := {
  cn_fleet : fleet_ok m';
  cn_conn : conn_ok m';
  cn_indexes : indexes_kept m m';
  cn_graves : graves_kept m m'
}.

Definition conn_step (m m' : gmap str entry) : Prop := fleet_ok m → conn_ok m → conn_next m m'.

#[global] Instance conn_step_preorder : PreOrder conn_step.
Proof.
  split; [intros m Hf Hc; split; [done|done|by intros k v|by intros id r]|]. intros m1 m2 m3 H1 H2 Hf Hc. destruct (H1 Hf Hc) as [Hf2 Hc2 Hi1 Hg1].
  destruct (H2 Hf2 Hc2) as [Hf3 Hc3 Hi2 Hg2]. split; [done|done|intros k v Hk Hv; auto|]. intros id r Hr Hs. auto.
Qed.

Lemma compatible_sym a b : compatible a b → compatible b a.
Proof. intros Hc Hr. destruct (Hc (eq_sym Hr)) as [He Hs]. split; [by apply not_eq_sym|]. intros Henv. destruct (Hs (eq_sym Henv)); auto. Qed.

Lemma connection_not_record id : is_record_key (connection_key id) = false.
Proof. done. Qed.

(** A step that writes one connection. *)
Lemma connection_written m m' id r :
  writes_record (connection_key id) m m' →
  (∀ k, is_connection_key k = true → k ≠ connection_key id → m' !! k = m !! k) →
  holds m' (connection_key id) r → fc_id r = id →
  (conn_ok m → ∀ j b, j ≠ id → holds m (connection_key j) b → compatible r b) →
  (∀ r0, holds m (connection_key id) r0 → fc_state r0 = Revoked → r0 = r) →
  conn_step m m'.
Proof.
  intros Hw Hframe Hr Hid Hcomp Hgrave Hf Hc. destruct (elsewhere_step _ _ _ (connection_not_record id) Hw Hf) as [Hf' Hi].
  assert (Hother : ∀ j, j ≠ id → m' !! connection_key j = m !! connection_key j).
  { intros j Hj. apply Hframe; [done|]. by intros ?%(inj _). }
  split; [done| |done|].
  - split.
    + intros j e He. destruct (decide (j = id)) as [->|Hj]; [|rewrite Hother in He by done; by apply (ck_records _ Hc)].
      rewrite Hr in He. injection He as <-. by exists r.
    + intros i j a b Hij Ha Hb. unfold holds in Ha, Hb.
      destruct (decide (i = id)) as [->|Hi']; [|rewrite Hother in Ha by done];
        (destruct (decide (j = id)) as [->|Hj']; [|rewrite Hother in Hb by done]); [done| | |].
      * rewrite (holds_inj _ _ _ _ Ha Hr). by apply (Hcomp Hc j).
      * rewrite (holds_inj _ _ _ _ Hb Hr). by apply compatible_sym, (Hcomp Hc i).
      * by apply (ck_compatible _ Hc i j).
  - intros j r0 Hr0 Hs. destruct (decide (j = id)) as [->|Hj]; [by rewrite (Hgrave _ Hr0 Hs)|]. unfold holds. by rewrite Hother.
Qed.

(** A step that writes no connection. *)
Lemma connections_untouched m m' :
  (∀ k, is_connection_key k = true → m' !! k = m !! k) → fleet_step m m' → conn_step m m'.
Proof.
  intros Hframe Hs Hf Hc. destruct (Hs Hf) as [Hf' Hi].
  assert (Heq : ∀ id, m' !! connection_key id = m !! connection_key id) by (intros; by apply Hframe).
  split; [done| |done|].
  - split; [intros id e He; rewrite Heq in He; by apply (ck_records _ Hc)|].
    intros i j a b Hij Ha Hb. unfold holds in Ha, Hb. rewrite Heq in Ha, Hb. by apply (ck_compatible _ Hc i j).
  - intros id r Hr _. unfold holds. by rewrite Heq.
Qed.

(** *** Transactions *)

Definition requests_ok (m : gmap str entry) : Prop := ∀ rid e, m !! idempotency_key rid = Some e → e_deadline e = None.

Lemma insert_writes k e m : requests_ok m → is_index_key k = false → writes_record k m (<[k := e]> m).
Proof.
  intros Hq Hk. split.
  - intros k' _ Hne. by apply lookup_insert_ne.
  - intros k' v Hk' Hv. rewrite lookup_insert_ne; [done|]. intros ->. congruence.
  - intros rid e'. rewrite lookup_insert_ne; [apply Hq|]. intros ->. done.
Qed.

Lemma delete_writes k dk m : requests_ok m → is_index_key dk = false → is_record_key dk = false → writes_record k m (delete dk m).
Proof.
  intros Hq Hk Hr. split.
  - intros k' Hk' _. rewrite lookup_delete_ne; [done|]. intros ->. congruence.
  - intros k' v Hk' Hv. rewrite lookup_delete_ne; [done|]. intros ->. congruence.
  - intros rid e' He. apply (Hq rid). rewrite lookup_delete in He. by case_decide.
Qed.

Lemma writes_trans k m1 m2 m3 : writes_record k m1 m2 → writes_record k m2 m3 → writes_record k m1 m3.
Proof.
  intros [Hf1 Hi1 _] [Hf2 Hi2 Hq2]. split; [|intros k' v Hk Hv; auto|done]. intros k' Hk Hne. rewrite Hf2 by done. auto.
Qed.

(** The record of the request and its audit on top of a change. *)
Definition requested (audit : MutationAudit) (id : Uuid) (t : N) (m : gmap str entry) : gmap str entry :=
  <[audit_key id := Entry (to_json (audit_record_of audit id t)) None]>
  (<[idempotency_key (ma_request_id audit) :=
       Entry (to_json (mkIdempotency (ma_action audit) (ma_resource_id audit))) None]> m).

Lemma requested_writes k audit id t m m1 :
  writes_record k m m1 → m !! idempotency_key (ma_request_id audit) = None → writes_record k m (requested audit id t m1).
Proof.
  intros [Hf Hi Hq] Hnew. unfold requested. split.
  - intros k' Hk Hne. rewrite !lookup_insert_ne; [by apply Hf|intros <-; done|intros <-; done].
  - intros k' v Hk Hv. rewrite lookup_insert_ne by (intros <-; done).
    rewrite lookup_insert_ne by (intros <-; congruence). by apply Hi.
  - intros rid e. rewrite lookup_insert_ne by key_neq.
    destruct (decide (rid = ma_request_id audit)) as [->|Hne]; [rewrite lookup_insert_eq; by intros [= <-]|].
    rewrite lookup_insert_ne by (by intros ?%(inj _)). apply Hq.
Qed.

Lemma requested_frame audit id t m k :
  starts_with IDEMPOTENCY_PREFIX k = false → starts_with AUDIT_PREFIX k = false → requested audit id t m !! k = m !! k.
Proof.
  intros Hi Ha. unfold requested, audit_key, idempotency_key, starts_with in *.
  rewrite !lookup_insert_ne; [done|intros <-; by rewrite strip_prefix_app in Hi|intros <-; by rewrite strip_prefix_app in Ha].
Qed.

Lemma connection_frame audit id t m k : is_connection_key k = true → requested audit id t m !! k = m !! k.
Proof. intros Hk. apply starts_with_spec in Hk as [x ->]. by apply requested_frame. Qed.

(** ** The operations *)

Definition same_assignment (r r' : FleetConnectionRecord) : Prop :=
  fc_id r' = fc_id r ∧ fc_realm_id r' = fc_realm_id r ∧ fc_assignment_epoch r' = fc_assignment_epoch r ∧
  fc_environment_id r' = fc_environment_id r.

Lemma connection_replaced m m' id r r' :
  writes_record (connection_key id) m m' → (∀ k, is_connection_key k = true → k ≠ connection_key id → m' !! k = m !! k) →
  holds m (connection_key id) r → holds m' (connection_key id) r' → same_assignment r r' →
  fc_state r ≠ Revoked ∨ r' = r → fleet_ok m → conn_ok m → conn_next m m'.
Proof.
  intros Hw Hframe Hr Hr' (Hid & Hrealm & Hepoch & Henv) Hst Hf Hc.
  destruct (records_holds _ _ _ _ _ _ (ck_records _ Hc) Hr) as [Hrid _].
  apply (connection_written m m' id r'); [done|done|done|congruence| | |done|done].
  - intros _ j b Hj Hb Hrb. destruct (ck_compatible _ Hc id j r b (not_eq_sym Hj) Hr Hb) as [He Hs]; [congruence|].
    split; [congruence|]. intros Hee. destruct Hst as [Hst| ->]; [|apply Hs; congruence].
    destruct Hs as [?|?]; [congruence|done|by right].
  - intros r0 Hr0 Hs. rewrite (holds_inj _ _ _ _ Hr0 Hr) in *. by destruct Hst.
Qed.

(** One [SET] of the record. *)
Lemma wp_set_connection {A : Type} id r r' (a : A) o w (Q : result error A → world → Prop) :
  fleet_ok (vw w) → conn_ok (vw w) → holds (vw w) (connection_key id) r → same_assignment r r' → fc_state r ≠ Revoked →
  (∀ x w', conn_next (vw w) (vw w') → Q x w') →
  wp (execute [SET (connection_key id) (to_json r')];; mret a) o w Q.
Proof.
  intros Hf Hc Hr Hsame Hst HQ.
  assert (Hnext : conn_next (vw w) (<[connection_key id := Entry (to_json r') None]> (vw w))).
  { apply (connection_replaced _ _ id r r'); try done; [|..|by left].
    - apply insert_writes; [exact (fk_requests _ Hf)|done].
    - intros k _ Hk. by apply lookup_insert_ne.
    - apply lookup_insert_eq. }
  apply wp_bind, wp_execute_view.
  - intros w' t _ [Hv|Hv]; apply HQ; rewrite Hv; [by apply conn_step_preorder|done].
  - intros w' t _ Hv. apply wp_ret, HQ. by rewrite Hv.
Qed.

(** The final transaction of a mutation. *)
Lemma wp_persist_connection {A : Type} id r r' audit (a : A) o w (Q : result error A → world → Prop) :
  fleet_ok (vw w) → conn_ok (vw w) → vw w !! idempotency_key (ma_request_id audit) = None →
  holds (vw w) (connection_key id) r → same_assignment r r' → fc_state r ≠ Revoked ∨ r' = r →
  (∀ w', vw w' = vw w → Q (Err EDb) w') →
  (∀ x w', conn_next (vw w) (vw w') → holds (vw w') (connection_key id) r' → (∀ b, x = Ok b → b = a) → Q x w') →
  wp (persist_fleet_mutation (connection_key id) (to_json r') None audit;; mret a) o w Q.
Proof.
  intros Hf Hc Hnew Hr Hsame Hst He HQ. apply wp_bind, wp_persist_fleet; [done|]. intros x w' aid t Hv.
  change (mutated _ _ None audit aid t (vw w))
    with (requested audit aid t (<[connection_key id := Entry (to_json r') None]> (vw w))) in Hv.
  assert (Hh : holds (vw w') (connection_key id) r').
  { unfold holds. rewrite Hv, connection_frame by done. apply lookup_insert_eq. }
  assert (Hnext : conn_next (vw w) (vw w')).
  { apply (connection_replaced _ _ id r r'); try done; rewrite Hv.
    - apply requested_writes; [|done]. apply insert_writes; [exact (fk_requests _ Hf)|done].
    - intros k Hk Hne. rewrite connection_frame by done. by apply lookup_insert_ne. }
  destruct x as [[]|e]; [apply wp_ret|]; apply HQ; try done. by intros ? [= <-].
Qed.

Lemma next_refl m m' : m' = m → fleet_ok m → conn_ok m → conn_next m m'.
Proof. intros ->. by apply conn_step_preorder. Qed.

Lemma wp_observe id st o w :
  fleet_ok (vw w) → conn_ok (vw w) → wp (observe_fleet_connection id st) o w (λ _ w', conn_next (vw w) (vw w')).
Proof.
  intros Hf Hc. eapply (wp_found connection_key fc_id _ (λ x, x)); [done|apply (ck_records _ Hc)|done|intros; by apply next_refl|].
  intros r ? w1 [Hv1 _] Hr _ _ [= <-]. destruct (is_revoked r || _) eqn:Hrev; [by apply wp_ret, next_refl|].
  apply wp_bind, wp_now. cbv zeta. apply orb_false_iff in Hrev as [Hrev _]. apply bool_decide_eq_false in Hrev.
  rewrite <- Hv1 in *. by apply (wp_set_connection _ r).
Qed.

Lemma wp_stage id credential hint rid o w :
  fleet_ok (vw w) → conn_ok (vw w) →
  wp (stage_fleet_connection_credential id credential hint rid) o w (λ _ w', conn_next (vw w) (vw w')).
Proof.
  intros Hf Hc.
  eapply (wp_found connection_key fc_id _ (option_filter _)); [done|apply (ck_records _ Hc)|done|intros; by apply next_refl|].
  intros r ? w1 [Hv1 _] Hr _ _ [[= <-] Hrev]%option_filter_Some. apply negb_true_iff, bool_decide_eq_false in Hrev.
  destruct (fc_credential_rotation_request_id r) as [e|].
  - destruct (bool_decide _); [apply wp_ret|apply wp_fail]; by apply next_refl.
  - apply wp_bind, wp_now. cbv zeta. rewrite <- Hv1 in *. by apply (wp_set_connection _ r).
Qed.

Lemma wp_rotate org project env id rid oper reason o w :
  fleet_ok (vw w) → conn_ok (vw w) →
  wp (rotate_fleet_connection_credential org project env id rid oper reason) o w (λ _ w', conn_next (vw w) (vw w')).
Proof.
  intros Hf Hc. apply (wp_idempotent _ rid connection_key); [apply fk_requests, Hf|done|by intros e w' [? _]; apply next_refl|
    by intros ? ? w' [? _] _ _; apply next_refl|].
  intros w1 [Hv1 _] Hnew.
  eapply (wp_found connection_key fc_id _ (option_filter _) id _ (vw w)); [done|apply (ck_records _ Hc)|done|intros; by apply next_refl|].
  intros r ? w2 [Hv2 _] Hr _ _ [[= <-] Hp]%option_filter_Some. apply andb_true_iff in Hp as [_ Hrev].
  apply negb_true_iff, bool_decide_eq_false in Hrev. rewrite Hv1 in Hv2.
  apply wp_bind, wp_ensure; [intros _|intros _; by apply next_refl].
  apply wp_bind, wp_some_or; [intros cred _|intros _; by apply next_refl].
  apply wp_bind, wp_some_or; [intros hint _|intros _; by apply next_refl].
  apply wp_bind, wp_now. cbv zeta. rewrite <- Hv2 in *.
  apply (wp_persist_connection _ r); try done; [by left|]. by intros w' Hv; apply next_refl.
Qed.

Definition revoke_outcome (m : gmap str entry) (id rid : Uuid) (r : result error FleetConnectionRecord) (w' : world) : Prop :=
  conn_next m (vw w') ∧
  ∀ c, r = Ok c → m !! idempotency_key rid = None → holds (vw w') (connection_key id) c ∧ fc_state c = Revoked.

Lemma wp_revoke org project env id rid oper reason o w :
  fleet_ok (vw w) → conn_ok (vw w) →
  wp (revoke_fleet_connection org project env id rid oper reason) o w (revoke_outcome (vw w) id rid).
Proof.
  intros Hf Hc. assert (Herr : ∀ e w', vw w' = vw w → revoke_outcome (vw w) id rid (Err e) w')
    by (intros e w' Hv; split; [by apply next_refl|done]).
  apply (wp_idempotent _ rid connection_key); [apply fk_requests, Hf|done|by intros e w' [? _]; apply Herr| |].
  { intros id' c w' [Hv _] (v & Hv' & _) _. split; [by apply next_refl|]. intros ? _ Hn. congruence. }
  intros w1 [Hv1 _] Hnew.
  eapply (wp_found connection_key fc_id _ (option_filter _) id _ (vw w)); [done|apply (ck_records _ Hc)|done|intros; by apply Herr|].
  intros r ? w2 [Hv2 _] Hr _ _ [[= <-] _]%option_filter_Some. rewrite Hv1 in Hv2.
  assert (Hgo : ∀ r' w3, vw w3 = vw w → same_assignment r r' → fc_state r ≠ Revoked ∨ r' = r → fc_state r' = Revoked →
    wp (persist_fleet_mutation (connection_key id) (to_json r') None (mkMutationAudit rid oper #"connection.revoke"
      #"connection" id (Some org) (Some project) (Some env) reason);; mret r') o w3 (revoke_outcome (vw w) id rid)).
  { intros r' w3 Hv3 Hs Hst Hrev. rewrite <- Hv3 in *. apply (wp_persist_connection _ r); try done; [intros w' Hv; by apply Herr|].
    intros x w' Hn Hh Hx. split; [done|]. intros c -> _. by rewrite (Hx c eq_refl). }
  destruct (is_revoked r) eqn:Hrev; unfold is_revoked in Hrev; reflect; apply wp_bind.
  - apply wp_ret, Hgo; [done|done|by right|done].
  - apply wp_bind, wp_now, wp_ret, Hgo; [done|done|by left|done].
Qed.

Lemma wp_fleet_connections org project env incl o w (Q : result error (list FleetConnectionRecord) → world → Prop) :
  conn_ok (vw w) → (∀ e w', vw w' = vw w → Q (Err e) w') →
  (∀ l w', vw w' = vw w →
     (∀ id r, holds (vw w) (connection_key id) r → is_none_or (λ v, bool_decide (fc_organization_id r = v)) org = true →
        is_none_or (λ v, bool_decide (fc_project_id r = v)) project = true →
        is_none_or (λ v, bool_decide (fc_environment_id r = v)) env = true →
        incl || negb (is_revoked r) = true → r ∈ l) → Q (Ok l) w') →
  wp (fleet_connections org project env incl) o w Q.
Proof.
  intros Hc He Hl. eapply (wp_listing CONNECTION_PREFIX connection_key fc_id); [done|apply (ck_records _ Hc)|done|done|].
  intros l w' Hv Hin _. apply Hl; [done|]. intros id r Hr H1 H2 H3 H4. apply (Hin id); [done|]. by rewrite H1, H2, H3, H4.
Qed.

Lemma last_epoch_ge realm l r : r ∈ l → fc_realm_id r = realm → fc_assignment_epoch r ≤ last_epoch realm l.
Proof.
  unfold last_epoch. intros Hin Hr. induction l as [|x l IH]; [by apply elem_of_nil in Hin|]. cbn [List.filter].
  apply elem_of_cons in Hin as [<-|Hin].
  - rewrite bool_decide_eq_true_2 by done. apply N.le_max_l.
  - specialize (IH Hin). destruct (bool_decide _); [|done]. etrans; [exact IH|apply N.le_max_r].
Qed.

Lemma wp_unexpired found o w (Q : result error FleetConnectionAttemptRecord → world → Prop) :
  (∀ e w', vw w' = vw w → Q (Err e) w') → (∀ a w', vw w' = vw w → found = Some a → Q (Ok a) w') →
  wp (unexpired_attempt found) o w Q.
Proof.
  intros He Ha. destruct found as [a|]; [|by apply wp_fail, He]. apply wp_bind, wp_now, wp_bind, wp_ensure.
  - intros _. by apply wp_ret, Ha.
  - intros _. by apply He.
Qed.

Lemma wp_persist_with_delete rk rv dk audit o w (Q : result error unit → world → Prop) :
  (∀ w', vw w' = vw w → Q (Err EDb) w') →
  (∀ r w' id t, vw w' = requested audit id t (<[rk := Entry rv None]> (delete dk (vw w))) → Q r w') →
  wp (persist_fleet_mutation_with_delete rk rv dk audit) o w Q.
Proof.
  intros He Hok. apply wp_bind, wp_new_v4. intros id w1 Hdb _ _. apply wp_bind, wp_now.
  assert (Hv : vw (tick w1) = vw w) by (unfold vw; simpl; by rewrite Hdb).
  apply wp_execute_view; rewrite Hv.
  - intros w' t _ [Hw|Hw]; [by apply He|apply (Hok _ _ id (clock o w1)); exact Hw].
  - intros w' t _ Hw. apply (Hok _ _ id (clock o w1)). exact Hw.
Qed.

(** A new connection: its realm has no other live connection in the environment, and
    all its other connections have smaller epochs. *)
Definition admissible (m : gmap str entry) (r : FleetConnectionRecord) : Prop :=
  m !! connection_key (fc_id r) = None ∧
  ∀ j b, holds m (connection_key j) b → fc_realm_id b = fc_realm_id r →
    fc_assignment_epoch b < fc_assignment_epoch r ∧ (fc_environment_id b = fc_environment_id r → fc_state b = Revoked).

Lemma connection_new m m1 audit id t r :
  fleet_ok m → conn_ok m → admissible m r → m !! idempotency_key (ma_request_id audit) = None →
  writes_record (connection_key (fc_id r)) m m1 → (∀ k, is_connection_key k = true → m1 !! k = m !! k) →
  conn_next m (requested audit id t (<[connection_key (fc_id r) := Entry (to_json r) None]> m1)).
Proof.
  intros Hf Hc [Hfree Hadm] Hnew Hw Hframe. apply (connection_written m _ (fc_id r) r); try done.
  - apply requested_writes; [|done]. eapply writes_trans; [done|]. apply insert_writes; [|done]. exact (wr_requests _ _ _ Hw).
  - intros k Hk Hne. rewrite connection_frame, lookup_insert_ne by done. by apply Hframe.
  - unfold holds. rewrite connection_frame by done. apply lookup_insert_eq.
  - intros _ j b _ Hb Hrealm. destruct (Hadm j b Hb (eq_sym Hrealm)) as [He Hs]. split; [lia|]. right. by apply Hs.
  - intros r0 Hr0. unfold holds in Hr0. congruence.
Qed.

Lemma wp_complete attempt_id record rid oper reason o w :
  fleet_ok (vw w) → conn_ok (vw w) → vw w !! connection_key (fc_id record) = None →
  wp (complete_fleet_connection attempt_id record rid oper reason) o w (λ _ w', conn_next (vw w) (vw w')).
Proof.
  intros Hf Hc Hfree. assert (Hsame : ∀ w', vw w' = vw w → conn_next (vw w) (vw w')) by (intros w' Hv; by apply next_refl).
  apply (wp_idempotent _ rid connection_key); [apply fk_requests, Hf|done|by intros e w' [? _]; apply Hsame|
    by intros ? ? w' [? _] _ _; apply Hsame|].
  intros w1 [Hv1 _] Hnew. apply wp_bind, wp_get_json_view; [intros w' Hv _; apply Hsame; congruence|].
  intros t w2 Hv2. rewrite Hv1 in Hv2. set (res := match live _ _ _ with Some _ => _ | None => _ end).
  destruct res as [found|e]; [|by apply Hsame].
  apply wp_bind, wp_unexpired; [intros e w' Hv; apply Hsame; congruence|]. intros a w3 Hv3 _. rewrite Hv2 in Hv3.
  apply wp_bind, wp_ensure; [intros _|intros _; by apply Hsame].
  apply wp_bind, wp_fleet_connections; [by rewrite Hv3|intros e w' Hv; apply Hsame; congruence|]. rewrite Hv3.
  intros siblings w4 Hv4 Hsib. apply wp_bind, wp_ensure; [intros Hone%negb_true_iff|intros _; by apply Hsame].
  apply wp_bind, wp_fleet_connections; [by rewrite Hv4|intros e w' Hv; apply Hsame; congruence|]. rewrite Hv4.
  intros all w5 Hv5 Hall. apply wp_bind, wp_ensure; [intros Hep%negb_true_iff|intros _; by apply Hsame].
  apply orb_false_iff in Hep as [_ Hep]. apply N.leb_gt in Hep.
  apply wp_bind, wp_now. cbv zeta. set (r := set_created _ record).
  assert (Hadm : admissible (vw w) r).
  { split; [done|]. intros j b Hb Hrealm. split.
    - pose proof (last_epoch_ge (fc_realm_id record) all b (Hall j b Hb eq_refl eq_refl eq_refl eq_refl) Hrealm).
      change (fc_assignment_epoch r) with (fc_assignment_epoch record). lia.
    - intros Henv. destruct (decide (fc_state b = Revoked)) as [|Hrev]; [done|exfalso]. apply (existsb_false_elem _ _ b Hone).
      + apply (Hsib j); [done|done|done| |done]. by apply bool_decide_eq_true_2.
      + rewrite bool_decide_eq_true_2 by done. unfold is_revoked. by rewrite bool_decide_eq_false_2. }
  assert (Hend : ∀ (x : result error unit) w', conn_next (vw w) (vw w') →
    match x with Ok _ => wp (mret r : M error _) o w' (λ _ w', conn_next (vw w) (vw w')) | Err _ => conn_next (vw w) (vw w') end)
    by (intros [[]|] w' Hn; done).
  apply wp_bind. destruct (bool_decide (fc_mode r = OutboundConnector)).
  - apply wp_persist_fleet; rewrite vw_tick, Hv5; [by apply Hsame|]. intros x w' aid t' Hv. apply Hend. rewrite Hv.
    apply (connection_new _ (vw w)); try done. split; [done|by intros k|exact (fk_requests _ Hf)].
  - apply wp_persist_with_delete; rewrite vw_tick, Hv5; [by apply Hsame|]. intros x w' aid t' Hv. apply Hend. rewrite Hv.
    apply connection_new; try done; [apply delete_writes; [exact (fk_requests _ Hf)|done|done]|].
    intros k Hk. rewrite lookup_delete_ne; [done|]. intros <-. done.
Qed.

(** *** The other operations leave the connections alone *)

Definition is_state_key (k : str) : bool := is_record_key k || is_index_key k || is_connection_key k.

Lemma state_agree_step m m' : agree_on (λ k, is_state_key k = true) m m' → conn_step m m'.
Proof.
  intros Ha. unfold agree_on, is_state_key in Ha. intros Hf.
  assert (Hw : writes_record AUDIT_PREFIX m m').
  { split.
    - intros k Hk _. apply Ha. by rewrite Hk.
    - intros k v Hk Hv. rewrite Ha; [done|]. by rewrite Hk, orb_true_r.
    - intros rid e He. rewrite Ha in He by done. by apply (fk_requests _ Hf rid). }
  apply connections_untouched; [|by apply (elsewhere_step AUDIT_PREFIX)|done]. intros k Hk. apply Ha. by rewrite Hk, orb_true_r.
Qed.

Lemma fleet_connections_reads R `{!PreOrder R} org project env incl : moves R (fleet_connections org project env incl).
Proof.
  unfold fleet_connections, load_if, fleet_connection. moves_go. apply load_records_reads; [apply _|]. intros. moves_go.
Qed.

Lemma reserve_state realm : leaves is_state_key (reserve_fleet_assignment_epoch realm).
Proof.
  unfold reserve_fleet_assignment_epoch, leaves. moves_go; [apply fleet_connections_reads, _|by apply leaves_execute|by apply leaves_query].
Qed.

Lemma wp_begin_attempt org project env mode endpoint code rid oper reason o w :
  fleet_ok (vw w) → conn_ok (vw w) →
  wp (create_fleet_connection_attempt org project env mode endpoint code rid oper reason) o w
    (λ _ w', conn_next (vw w) (vw w')).
Proof.
  intros Hf Hc. assert (Hsame : ∀ w', vw w' = vw w → conn_next (vw w) (vw w')) by (intros w' Hv; by apply next_refl).
  apply wp_bind, wp_idempotent_resource; [apply fk_requests, Hf|by intros e w' [? _]; apply Hsame| |].
  { intros id w1 [Hv1 _] _. apply wp_bind, wp_get_json_view; [intros w' Hv _; apply Hsame; congruence|]. intros t w2 Hv2.
    destruct (match live _ _ _ with Some _ => _ | None => _ end) as [found|e]; [|apply Hsame; congruence].
    apply wp_unexpired; [intros e w' Hv; apply Hsame; congruence|intros a w' Hv _; apply Hsame; congruence]. }
  intros w1 [Hv1 _] Hnew. eapply (wp_found environment_key fe_id _ (option_filter _) env _ (vw w));
    [done|apply (fk_environments _ Hf)|done|intros; by apply Hsame|]. intros e ? w2 [Hv2 _] _ _ _ _. rewrite Hv1 in Hv2.
  apply wp_bind, wp_ensure; [intros _|intros _; by apply Hsame].
  apply wp_bind, wp_now, wp_bind, wp_new_v4. intros id w3 Hdb3 _ _. cbv zeta. apply wp_bind, wp_new_v4. intros aid w4 Hdb4 _ _.
  assert (Hv4 : vw w4 = vw w) by (unfold vw in *; simpl in *; congruence). set (ts := clock o w2). set (a := mkAttempt _ _ _ _ _ _ _ _ _ _).
  assert (Hstep : ∀ t, conn_next (vw w) (exec_pipe t ([SETEX (connection_attempt_key id) (to_json a) FLEET_CONNECTION_ATTEMPT_SECONDS]
    ++ request_records (mkMutationAudit rid oper #"connection.begin" #"connection" id (Some org) (Some project) (Some env) reason) aid ts) (vw w)).2).
  { intros t. change ((exec_pipe t _ (vw w)).2) with (requested (mkMutationAudit rid oper #"connection.begin" #"connection" id
      (Some org) (Some project) (Some env) reason) aid ts (<[connection_attempt_key id := Entry (to_json a) (Some (t + FLEET_CONNECTION_ATTEMPT_SECONDS))]> (vw w))).
    apply connections_untouched; [|apply (elsewhere_step (connection_attempt_key id)); [done|]|done|done].
    - intros k Hk. rewrite connection_frame by done. rewrite lookup_insert_ne; [done|]. intros <-. done.
    - apply requested_writes; [|done]. apply insert_writes; [exact (fk_requests _ Hf)|done]. }
  apply wp_bind, wp_execute_view; rewrite Hv4.
  - intros w' t _ [Hv|Hv]; [by apply Hsame|]. rewrite Hv. apply Hstep.
  - intros w' t _ Hv. apply wp_ret. rewrite Hv. apply Hstep.
Qed.

(** A remote change is put on record only for a connection that is in force. *)
Definition remote_outcome (m : gmap str entry) (id rid : Uuid) (r : result error FleetAuditRecord) (w' : world) : Prop :=
  conn_next m (vw w') ∧ ∀ a, r = Ok a → m !! idempotency_key rid = None →
    ∃ c, holds m (connection_key id) c ∧ fc_state c ≠ Revoked ∧ fc_revoked_at c = None.

Lemma fleet_audit_records_reads R `{!PreOrder R} : moves R fleet_audit_records.
Proof. unfold fleet_audit_records. moves_go. apply load_records_reads; [apply _|]. intros. moves_go. Qed.

Lemma wp_remote id rid oper action reason o w :
  fleet_ok (vw w) → conn_ok (vw w) →
  wp (record_fleet_remote_mutation id rid oper action reason) o w (remote_outcome (vw w) id rid).
Proof.
  intros Hf Hc. assert (Herr : ∀ e w', vw w' = vw w → remote_outcome (vw w) id rid (Err e) w')
    by (intros e w' Hv; split; [by apply next_refl|done]).
  apply wp_bind, wp_idempotent_resource; [apply fk_requests, Hf|by intros e w' [? _]; apply Herr| |].
  { intros rid' w1 [Hv1 _] (v & Hv & _). apply wp_reads; [moves_go; apply fleet_audit_records_reads, _|].
    intros r w' Hv'. split; [apply next_refl; congruence || done|]. intros a _ Hn. congruence. }
  intros w1 [Hv1 _] Hnew. eapply (wp_found connection_key fc_id _ (option_filter _) id _ (vw w));
    [done|apply (ck_records _ Hc)|done|intros; by apply Herr|]. intros c ? w2 [Hv2 _] Hr _ _ [[= <-] Hlive]%option_filter_Some.
  rewrite Hv1 in Hv2. apply andb_true_iff in Hlive as [Hl1 Hl2]. apply negb_true_iff, bool_decide_eq_false in Hl1.
  apply wp_bind, wp_new_v4. intros aid w3 Hdb3 _ _. apply wp_bind, wp_now. cbv zeta.
  assert (Hv3 : vw (tick w3) = vw w) by (unfold vw in *; simpl in *; congruence).
  set (audit := mkFleetAudit _ _ _ _ _ _ _ _ _ _ _). set (idem := mkIdempotency _ _).
  set (m' := <[idempotency_key rid := Entry (to_json idem) None]> (<[audit_key aid := Entry (to_json audit) None]> (vw w))).
  assert (Hstep : conn_next (vw w) m').
  { apply connections_untouched; [|apply (elsewhere_step (audit_key aid)); [done|]|done|done].
    - intros k Hk. unfold m'. rewrite !lookup_insert_ne; [done|by intros <-|by intros <-].
    - assert (Hbase : writes_record (audit_key aid) (vw w) (<[audit_key aid := Entry (to_json audit) None]> (vw w)))
        by (apply insert_writes; [exact (fk_requests _ Hf)|done]). split.
      + intros k Hk Hne. unfold m'. rewrite lookup_insert_ne by (by intros <-). by apply Hbase.
      + intros k v Hk Hv. unfold m'. rewrite lookup_insert_ne by (intros <-; congruence). by apply Hbase.
      + intros rid' e. unfold m'. destruct (decide (rid' = rid)) as [->|Hne]; [rewrite lookup_insert_eq; by intros [= <-]|].
        rewrite lookup_insert_ne by (by intros ?%(inj _)). apply Hbase. }
  apply wp_bind, wp_execute_view; rewrite Hv3.
  - intros w' t _ [Hv|Hv]; [by apply Herr|]. split; [|done]. by rewrite Hv.
  - intros w' t _ Hv. apply wp_ret. split; [by rewrite Hv|]. intros a _ _. exists c. split_and!; [done|done|by destruct (fc_revoked_at c)].
Qed.

(** *** Frames *)

Definition is_epoch_key (k : str) : bool := starts_with #"fleet:assignment-epoch:" k.
Definition is_side_key (k : str) : bool := is_connection_key k || is_epoch_key k.

Lemma leaves_persist P rk rv slug audit :
  P rk = false → (∀ sk i, slug = Some (sk, i) → P sk = false) → (∀ id, P (idempotency_key id) = false) →
  (∀ id, P (audit_key id) = false) → leaves P (persist_fleet_mutation rk rv slug audit).
Proof.
  intros Hr Hs Hi Ha. unfold persist_fleet_mutation, leaves. moves_go. apply leaves_execute. unfold untouched, pipe_writes.
  destruct slug as [[sk i]|]; cbn -[idempotency_key audit_key]; rewrite Hr, Hi, Ha; [|done]. by rewrite (Hs _ _ eq_refl).
Qed.

Lemma idempotent_leaves {A : Type} `{Serde A} P action rid key (load : Uuid → M error (option A)) body :
  (∀ id, load id = get_json (key id)) → leaves P body → leaves P (idempotent action rid load body).
Proof.
  intros Hl Hb. unfold idempotent, fleet_idempotent_resource, leaves. moves_go. rewrite Hl. apply moves_get_json, _.
Qed.

Ltac leaf :=
  first [ apply fleet_connections_reads, _
        | apply load_records_reads; [apply _|]; intros; unfold load_if, fleet_project, fleet_environment; moves_go
        | apply leaves_persist; [done|by intros ? ? [= <- _]|done|done]
        | by apply leaves_execute ].

(** The hierarchy's operations write records, indexes, requests and the audit
    trail only. *)
Lemma perform_fleet_leaves P q rid oper reason :
  (∀ k, P k = true → is_record_key k || is_index_key k || starts_with AUDIT_PREFIX k = false) →
  leaves P (perform_fleet q rid oper reason).
Proof.
  intros HP. assert (HP' : ∀ k, is_record_key k || is_index_key k || starts_with AUDIT_PREFIX k = true → P k = false).
  { intros k Hk. destruct (P k) eqn:Hp; [|done]. apply HP in Hp. congruence. }
  destruct q; (apply moves_bind; [apply _|eapply idempotent_leaves; [done|]|intros; apply moves_ret, _]);
    unfold fleet_organization, fleet_project, fleet_environment, fleet_projects, fleet_environments, leaves; moves_go;
    try (apply leaves_persist; [by apply HP'|intros ? ? [= <- _]; by apply HP'|intros; by apply HP'|intros; by apply HP']); leaf.
Qed.

Lemma perform_fleet_side q rid oper reason : leaves is_side_key (perform_fleet q rid oper reason).
Proof.
  apply perform_fleet_leaves. intros k. unfold is_side_key, is_connection_key, is_epoch_key. rewrite orb_true_iff.
  intros [Hk|Hk]; apply starts_with_spec in Hk as [x ->]; done.
Qed.

Lemma observe_epoch id st : leaves is_epoch_key (observe_fleet_connection id st).
Proof. unfold observe_fleet_connection, fleet_connection, leaves. moves_go; leaf. Qed.
Lemma stage_epoch id c h rid : leaves is_epoch_key (stage_fleet_connection_credential id c h rid).
Proof. unfold stage_fleet_connection_credential, fleet_connection, leaves. moves_go; leaf. Qed.
Lemma rotate_epoch a b c id rid oper reason :
  leaves is_epoch_key (rotate_fleet_connection_credential a b c id rid oper reason).
Proof. eapply idempotent_leaves; [done|]. unfold fleet_connection, leaves. moves_go; leaf. Qed.
Lemma revoke_epoch a b c id rid oper reason : leaves is_epoch_key (revoke_fleet_connection a b c id rid oper reason).
Proof. eapply idempotent_leaves; [done|]. unfold fleet_connection, leaves. moves_go; leaf. Qed.
Lemma complete_epoch a r rid oper reason : leaves is_epoch_key (complete_fleet_connection a r rid oper reason).
Proof.
  eapply idempotent_leaves; [done|].
  unfold fleet_connection_attempt, unexpired_attempt, persist_fleet_mutation_with_delete, leaves. moves_go; leaf.
Qed.
Lemma begin_epoch a b c mode endpoint code rid oper reason :
  leaves is_epoch_key (create_fleet_connection_attempt a b c mode endpoint code rid oper reason).
Proof.
  unfold create_fleet_connection_attempt, fleet_idempotent_resource, fleet_connection_attempt, unexpired_attempt,
    fleet_environment, leaves. moves_go; leaf.
Qed.
Lemma remote_epoch id rid oper action reason : leaves is_epoch_key (record_fleet_remote_mutation id rid oper action reason).
Proof.
  unfold record_fleet_remote_mutation, fleet_idempotent_resource, fleet_connection, leaves.
  moves_go; [apply fleet_audit_records_reads, _|leaf].
Qed.

(** ** The control plane at work *)

(** Hierarchy requests, operations on connections, reservations of epochs and steps
    of anything that leaves these records alone.  The identifier of a completed
    connection, which the realm chooses, must be unused. *)
Inductive conn_run : world → world → Prop :=
  | cr_request q rid oper reason o w :
      fresh_for q o w → conn_run w (perform_fleet q rid oper reason o w).2
  | cr_begin a b c mode endpoint code rid oper reason o w :
      conn_run w (create_fleet_connection_attempt a b c mode endpoint code rid oper reason o w).2
  | cr_complete attempt record rid oper reason o w :
      vw w !! connection_key (fc_id record) = None →
      conn_run w (complete_fleet_connection attempt record rid oper reason o w).2
  | cr_observe id st o w : conn_run w (observe_fleet_connection id st o w).2
  | cr_stage id credential hint rid o w : conn_run w (stage_fleet_connection_credential id credential hint rid o w).2
  | cr_rotate a b c id rid oper reason o w :
      conn_run w (rotate_fleet_connection_credential a b c id rid oper reason o w).2
  | cr_revoke a b c id rid oper reason o w : conn_run w (revoke_fleet_connection a b c id rid oper reason o w).2
  | cr_remote id rid oper action reason o w : conn_run w (record_fleet_remote_mutation id rid oper action reason o w).2
  | cr_reserve realm o w : conn_run w (reserve_fleet_assignment_epoch realm o w).2
  | cr_elsewhere w w' :
      agree_on (λ k, is_state_key k || is_epoch_key k = true) (vw w) (vw w') → conn_run w w'.

Lemma conn_run_step w w' : conn_run w w' → conn_step (vw w) (vw w').
Proof.
  intros Hrun. destruct Hrun as [q rid oper reason o w Hf| | | | | | | | |w w' Ha]; intros Hf' Hc.
  - apply connections_untouched; [|intros _; by apply (wp_perform_fleet q rid oper reason o w)|done|done].
    intros k Hk. apply (perform_fleet_side q rid oper reason o w). unfold is_side_key. by rewrite Hk.
  - by apply wp_begin_attempt.
  - by apply wp_complete.
  - by apply wp_observe.
  - by apply wp_stage.
  - by apply wp_rotate.
  - by apply (wp_revoke a b c id rid oper reason o w).
  - by apply (wp_remote id rid oper action reason o w).
  - by apply state_agree_step; [apply reserve_state|..].
  - apply state_agree_step; [|done..]. intros k Hk. apply Ha. by rewrite Hk.
Qed.

Lemma conn_runs_step w w' : rtc conn_run w w' → conn_step (vw w) (vw w').
Proof. induction 1 as [|w1 w2 w3 H1 _ IH]; [reflexivity|]. etrans; [by apply conn_run_step|done]. Qed.

(** C16: a realm is assigned once.  However requests and replies are lost, an
    environment has at most one connection per realm that is not revoked, and no two
    connections of a realm, in whatever environments, carry the same assignment
    epoch.  The runs considered complete pairings under connection identifiers not
    in use; the code leaves the choice to the realm and does not check it, see
    [DemoConnections.completion_replaces_foreign_connection]. *)
Theorem realm_assigned_once w w' :
  fleet_ok (vw w) → conn_ok (vw w) → rtc conn_run w w' →
  ∀ i j a b, holds (vw w') (connection_key i) a → holds (vw w') (connection_key j) b → fc_realm_id a = fc_realm_id b →
    (fc_assignment_epoch a = fc_assignment_epoch b → i = j) ∧
    (fc_environment_id a = fc_environment_id b → fc_state a ≠ Revoked → fc_state b ≠ Revoked → i = j).
Proof.
  intros Hf Hc Hrun i j a b Ha Hb Hr. destruct (conn_runs_step _ _ Hrun Hf Hc) as [_ Hc' _ _].
  destruct (decide (i = j)) as [|Hij]; [done|]. destruct (ck_compatible _ Hc' i j a b Hij Ha Hb Hr) as [He Hs].
  split; [done|]. intros Henv Hsa Hsb. by destruct (Hs Henv).
Qed.

(** Revoking a connection is final.  Once a fresh request has revoked it, its
    record stays as it is: no observation, staged or completed rotation, replay or
    lost reply revives it, and no further remote change is put on record for it.  As
    above, later pairings are assumed to come under unused identifiers; one that
    presents the identifier of the revoked connection would replace its record. *)
Theorem revoked_connection_final a b c id rid oper reason o w r w1 w2 :
  fleet_ok (vw w) → conn_ok (vw w) → vw w !! idempotency_key rid = None →
  revoke_fleet_connection a b c id rid oper reason o w = (Ok r, w1) → rtc conn_run w1 w2 →
  fc_state r = Revoked ∧ holds (vw w2) (connection_key id) r ∧
  ∀ rid' oper' action reason' o' x, vw w2 !! idempotency_key rid' = None →
    (record_fleet_remote_mutation id rid' oper' action reason' o' w2).1 ≠ Ok x.
Proof.
  intros Hf Hc Hnew Hrev Hrun. pose proof (wp_revoke a b c id rid oper reason o w Hf Hc) as Hw. unfold wp in Hw. rewrite Hrev in Hw.
  destruct Hw as [[Hf1 Hc1 _ _] Hr]. destruct (Hr _ eq_refl Hnew) as [Hh Hs].
  destruct (conn_runs_step _ _ Hrun Hf1 Hc1) as [Hf2 Hc2 _ Hg]. pose proof (Hg _ _ Hh Hs) as Hh2. split_and!; [done|done|].
  intros rid' oper' action reason' o' x Hnew' Hx.
  destruct (proj2 (wp_remote id rid' oper' action reason' o' w2 Hf2 Hc2) x Hx Hnew') as (c' & Hc' & Hlive & _).
  by rewrite (holds_inj _ _ _ _ Hc' Hh2) in Hlive.
Qed.

(** ** Assignment epochs *)

Definition counter_at (m : gmap str entry) (k : str) (n : N) : Prop :=
  ∃ v, m !! k = Some (Entry v None) ∧ parse_u64 v = Some n.

Definition grows (k : str) (m m' : gmap str entry) : Prop := ∀ n, counter_at m k n → ∃ n', n ≤ n' ∧ counter_at m' k n'.

#[global] Instance grows_preorder k : PreOrder (grows k).
Proof.
  split; [intros m n Hn; by exists n|]. intros m1 m2 m3 H1 H2 n Hn. destruct (H1 n Hn) as (n' & Hle & Hn').
  destruct (H2 n' Hn') as (n'' & Hle' & Hn''). exists n''. split; [lia|done].
Qed.

Lemma grows_agree P k m m' : P k = true → agree_on (λ k, P k = true) m m' → grows k m m'.
Proof. intros Hk Ha n (v & Hv & Hp). exists n. split; [done|]. exists v. by rewrite Ha. Qed.

(** One increment. *)
Lemma incr_counter t k m n :
  counter_at m k n →
  (exec_pipe t [INCR k] m).1 = [RErr] ∧ (exec_pipe t [INCR k] m).2 = m ∨
  (exec_pipe t [INCR k] m).1 = [RInt (n + 1)] ∧ counter_at (exec_pipe t [INCR k] m).2 k (n + 1).
Proof.
  intros (v & Hv & Hp). simpl. rewrite (live_persistent _ _ _ _ Hv), Hp. destruct (N.ltb_spec n i64_max) as [Hlt|Hge]; [right|by left].
  simpl. split; [done|]. eexists. rewrite lookup_insert_eq, Hv. split; [done|]. apply parse_show_u64. unfold i64_max, u64_max in *. lia.
Qed.

Lemma setnx_counter t k v m n : counter_at m k n → (exec_pipe t [SETNX k v] m).2 = m.
Proof. intros (v' & Hv & Hp). simpl. by rewrite (live_persistent _ _ _ _ Hv). Qed.

Lemma incr_grows t k k' m : grows k' m (exec_pipe t [INCR k] m).2.
Proof.
  intros n Hn. destruct (decide (k' = k)) as [->|Hne].
  - destruct (incr_counter t k m n Hn) as [[_ ->]|[_ Hn']]; [by exists n|]. exists (n + 1). split; [lia|done].
  - exists n. split; [done|]. destruct Hn as (v & Hv & Hp). exists v. split; [|done].
    rewrite exec_pipe_frame; [done|]. unfold pipe_writes. simpl. by intros [->|?%elem_of_nil]%elem_of_cons.
Qed.

Lemma setnx_grows t k k' v m : grows k' m (exec_pipe t [SETNX k v] m).2.
Proof.
  intros n Hn. exists n. split; [done|]. destruct (decide (k' = k)) as [->|Hne]; [by rewrite (setnx_counter _ _ _ _ n)|].
  destruct Hn as (v' & Hv & Hp). exists v'. split; [|done].
  rewrite exec_pipe_frame; [done|]. unfold pipe_writes. simpl. by intros [->|?%elem_of_nil]%elem_of_cons.
Qed.

Lemma reserve_grows realm k : moves (grows k) (reserve_fleet_assignment_epoch realm).
Proof.
  unfold reserve_fleet_assignment_epoch. moves_go.
  - apply fleet_connections_reads, _.
  - apply moves_execute; [apply _|]. intros. apply setnx_grows.
  - apply moves_query; [apply _|]. intros. apply incr_grows.
Qed.

Lemma conn_run_grows k w w' : is_epoch_key k = true → conn_run w w' → grows k (vw w) (vw w').
Proof.
  intros Hk Hrun. destruct Hrun as [q rid oper reason o w _| | | | | | | | |w w' Ha].
  - apply (grows_agree is_side_key); [unfold is_side_key; by rewrite Hk, orb_true_r|apply perform_fleet_side].
  - by apply (grows_agree is_epoch_key); [|apply begin_epoch].
  - by apply (grows_agree is_epoch_key); [|apply complete_epoch].
  - by apply (grows_agree is_epoch_key); [|apply observe_epoch].
  - by apply (grows_agree is_epoch_key); [|apply stage_epoch].
  - by apply (grows_agree is_epoch_key); [|apply rotate_epoch].
  - by apply (grows_agree is_epoch_key); [|apply revoke_epoch].
  - by apply (grows_agree is_epoch_key); [|apply remote_epoch].
  - apply reserve_grows.
  - apply (grows_agree is_epoch_key); [done|]. intros k' Hk'. apply Ha. by rewrite Hk', orb_true_r.
Qed.

Lemma conn_runs_grow k w w' : is_epoch_key k = true → rtc conn_run w w' → grows k (vw w) (vw w').
Proof. intros Hk. induction 1 as [|w1 w2 w3 H1 _ IH]; [reflexivity|]. etrans; [by apply conn_run_grows|done]. Qed.

Definition persistent_key (m : gmap str entry) (k : str) : Prop := ∀ e, m !! k = Some e → e_deadline e = None.

(** What a delivered increment of a counter without time to live leaves. *)
Lemma incr_reply t k m n :
  persistent_key m k → (exec_pipe t [INCR k] m).1 = [RInt n] →
  counter_at (exec_pipe t [INCR k] m).2 k n ∧ ∀ n0, counter_at m k n0 → n0 < n.
Proof.
  intros Hp Hr. split.
  - destruct (m !! k) as [[v dl]|] eqn:Hk.
    + pose proof (Hp _ Hk) as Hdl. simpl in Hdl. subst dl. destruct (parse_u64 v) as [p|] eqn:Hv.
      * destruct (incr_counter t k m p) as [[He _]|[He Hc]]; [by exists v|congruence|]. rewrite He in Hr. by injection Hr as <-.
      * simpl in Hr. rewrite (live_persistent _ _ _ _ Hk), Hv in Hr. done.
    + simpl in *. rewrite (live_missing _ _ _ Hk) in *. simpl in *. injection Hr as <-. eexists. by rewrite lookup_insert_eq.
  - intros n0 Hn. destruct (incr_counter t k m n0 Hn) as [[He _]|[He _]]; rewrite He in Hr; [done|]. injection Hr as <-. lia.
Qed.

Lemma wp_reserve realm o w :
  conn_ok (vw w) → persistent_key (vw w) (assignment_epoch_key realm) →
  wp (reserve_fleet_assignment_epoch realm) o w (λ r w', ∀ n, r = Ok n →
    counter_at (vw w') (assignment_epoch_key realm) n ∧
    ∀ n0, counter_at (vw w) (assignment_epoch_key realm) n0 → n0 < n).
Proof.
  intros Hc Hp. set (k := assignment_epoch_key realm) in *. unfold reserve_fleet_assignment_epoch. apply wp_bind, wp_fleet_connections; [done|by intros|]. intros l w1 Hv1 _. cbv zeta. fold k.
  apply wp_bind, wp_execute_view; [by intros|]. rewrite Hv1. intros w2 t2 _ Hv2.
  assert (Hp2 : persistent_key (vw w2) k).
  { rewrite Hv2. intros e. simpl. destruct (live _ _ k) eqn:Hl; simpl; [apply Hp|]. rewrite lookup_insert_eq. by intros [= <-]. }
  apply wp_bind, wp_query; [by intros|]. intros d _ Hd. cbv zeta. destruct (existsb is_err _) eqn:He; [by intros|].
  apply wp_bind, wp_lift. destruct (exec_pipe _ [INCR k] (vw w2)).1 as [|[| |n| | | |] [|]] eqn:Hr; try by intros.
  destruct (incr_reply _ _ _ _ Hp2 Hr) as [Hcnt Hlt]. apply wp_bind, wp_ensure; [intros _|by intros].
  apply wp_ret. intros ? [= <-]. split; [change (counter_at (db_view d) k n); by rewrite Hd|].
  intros n0 Hn0. apply Hlt. rewrite Hv2. by rewrite (setnx_counter _ _ _ _ n0).
Qed.

(** An assignment epoch is never reused.  Two reservations for the same realm
    return strictly increasing epochs, whatever operations of the fleet store come in
    between (pairings under unused identifiers) and whichever requests or replies are
    lost. *)
Theorem epoch_never_reused realm o w n w1 w2 o' n' w3 :
  fleet_ok (vw w) → conn_ok (vw w) → persistent_key (vw w) (assignment_epoch_key realm) →
  reserve_fleet_assignment_epoch realm o w = (Ok n, w1) → rtc conn_run w1 w2 →
  reserve_fleet_assignment_epoch realm o' w2 = (Ok n', w3) → n < n'.
Proof.
  intros Hf Hc Hp Hr Hrun Hr'. pose proof (wp_reserve realm o w Hc Hp) as Hw. unfold wp in Hw. rewrite Hr in Hw.
  destruct (Hw n eq_refl) as [Hn _].
  assert (Hstep : conn_next (vw w) (vw w1)).
  { pose proof (conn_run_step _ _ (cr_reserve realm o w) Hf Hc) as Hs. by rewrite Hr in Hs. }
  destruct (conn_runs_step _ _ Hrun (cn_fleet _ _ Hstep) (cn_conn _ _ Hstep)) as [_ Hc2 _ _].
  destruct (conn_runs_grow (assignment_epoch_key realm) _ _ eq_refl Hrun n Hn) as (n0 & Hle & Hn0).
  assert (Hp2 : persistent_key (vw w2) (assignment_epoch_key realm)).
  { destruct Hn0 as (v & Hv & _). intros e He. rewrite Hv in He. by injection He as <-. }
  pose proof (wp_reserve realm o' w2 Hc2 Hp2) as Hw'. unfold wp in Hw'. rewrite Hr' in Hw'.
  destruct (Hw' n' eq_refl) as [_ Hlt]. specialize (Hlt n0 Hn0). lia.
Qed.
End FleetConnections.

(** ** Witnesses *)

Module DemoConnections.
Import DemoEnv DemoFleet.

#[export] Program Instance codec_fleet_credential : Codec EncryptedFleetCredential :=
  codec_iso (λ r : EncryptedFleetCredential, (ef_wrapping_key_id r, (ef_nonce r, ef_ciphertext r)))
    (λ '(a, (b, c)), Some (mkFleetCredential a b c)) _.
Next Obligation. by intros []. Qed.

#[export] Program Instance codec_connection_mode : Codec FleetConnectionModeRecord :=
  codec_iso (A := bool) (λ r, match r with PublicEndpoint => false | OutboundConnector => true end)
    (λ b, Some (if b then OutboundConnector else PublicEndpoint)) _.
Next Obligation. by intros []. Qed.

#[export] Program Instance codec_connection_state : Codec FleetConnectionStateRecord :=
  codec_iso (A := N)
    (λ r, match r with Pending => 0 | Verifying => 1 | Healthy => 2 | Degraded => 3 | Offline => 4 | Revoked => 5 end)
    (λ n : N, Some (if n =? 0 then Pending else if n =? 1 then Verifying else if n =? 2 then Healthy
                    else if n =? 3 then Degraded else if n =? 4 then Offline else Revoked)) _.
Next Obligation. by intros []. Qed.

#[export] Program Instance codec_attempt : Codec FleetConnectionAttemptRecord :=
  codec_iso (λ r : FleetConnectionAttemptRecord, (at_id r, (at_organization_id r, (at_project_id r, (at_environment_id r,
      (at_mode r, (at_management_endpoint r, (at_pairing_code_digest r, (at_created_by r, (at_created_at r, at_expires_at r))))))))))
    (λ '(a, (b, (c, (d, (e, (f, (g, (h, (i, j))))))))), Some (mkAttempt a b c d e f g h i j)) _.
Next Obligation. by intros []. Qed.

#[export] Program Instance codec_connection : Codec FleetConnectionRecord :=
  codec_iso (λ r : FleetConnectionRecord,
      ((fc_id r, (fc_organization_id r, (fc_project_id r, (fc_environment_id r, (fc_realm_id r, (fc_assignment_epoch r,
        (fc_display_name r, (fc_mode r, fc_management_endpoint r)))))))),
       ((fc_credential r, (fc_credential_hint r, (fc_staged_credential r, (fc_staged_credential_hint r,
          (fc_credential_rotation_request_id r, (fc_deployment_version r, fc_protocol_version r)))))),
        (fc_capabilities r, (fc_granted_scopes r, (fc_issuer r, (fc_rp_id r, (fc_state r, (fc_last_seen_at r,
          (fc_created_at r, (fc_updated_at r, fc_revoked_at r)))))))))))
    (λ '((a, (b, (c, (d, (e, (f, (g, (h, i)))))))),
         ((j, (k, (l, (m, (n, (p, q)))))), (s, (t, (u, (v, (x, (y, (z, (z1, z2)))))))))),
       Some (mkConnection a b c d e f g h i j k l m n p q s t u v x y z z1 z2)) _.
Next Obligation. by intros []. Qed.

(** The record the handler builds for a realm that answered with identifier [id]. *)
Definition demo_connection (id : Uuid) (realm : str) (epoch : N) : FleetConnectionRecord :=
  mkConnection id demo_org_id demo_project_id demo_environment_id realm epoch realm PublicEndpoint #"https://realm"
    (mkFleetCredential [] [] []) [] None None None [] [] [] [] [] [] Healthy None 0 0 None.

Abbreviation demo_begin rid w :=
  (create_fleet_connection_attempt demo_org_id demo_project_id demo_environment_id PublicEndpoint #"https://realm" None
     rid demo_operator [] demo_oracle w).
Abbreviation demo_attempt_of run := (match run.1 with Ok a => at_id a | Err _ => demo_uuid_of 0 end).

Abbreviation demo_begun := (demo_begin (demo_uuid_of 201) demo_environment_world).
Definition demo_begun_world : world := Eval vm_compute in demo_begun.2.
Definition demo_attempt : Uuid := Eval vm_compute in demo_attempt_of demo_begun.
Abbreviation demo_reserved := (reserve_fleet_assignment_epoch #"realm-a" demo_oracle demo_begun_world).
Definition demo_reserved_world : world := Eval vm_compute in demo_reserved.2.
Abbreviation demo_completed :=
  (complete_fleet_connection demo_attempt (demo_connection (demo_uuid_of 500) #"realm-a" 1) (demo_uuid_of 202)
     demo_operator [] demo_oracle demo_reserved_world).
Definition demo_connected_world : world := Eval vm_compute in demo_completed.2.
Definition demo_connected : FleetConnectionRecord :=
  Eval vm_compute in match demo_completed.1 with Ok r => r | Err _ => demo_connection (demo_uuid_of 0) [] 0 end.
Abbreviation demo_reserved_again := (reserve_fleet_assignment_epoch #"realm-a" demo_oracle demo_connected_world).
Abbreviation demo_revocation :=
  (revoke_fleet_connection demo_org_id demo_project_id demo_environment_id (demo_uuid_of 500) (demo_uuid_of 203)
     demo_operator [] demo_oracle demo_connected_world).
Definition demo_revoked_world : world := Eval vm_compute in demo_revocation.2.

Lemma demo_fleet_ok : fleet_ok (vw demo_environment_world).
Proof. exact (proj1 (fleet_runs_step _ _ demo_fleet_run fleet_ok_empty)). Qed.

Lemma demo_conn_ok : conn_ok (vw demo_environment_world).
Proof.
  assert (Hnone : ∀ id, vw demo_environment_world !! connection_key id = None).
  { intros id. destruct (vw demo_environment_world !! connection_key id) as [e|] eqn:He; [|done].
    pose proof (demo_view_forall demo_environment_world (λ p, negb (is_connection_key p.1)) (connection_key id) e) as Hf.
    assert (Hb : negb (is_connection_key (connection_key id)) = true) by (apply Hf; [eval_eq|exact He]). done. }
  split; [intros id e He; rewrite Hnone in He; done|]. intros i j a b _ Ha. unfold holds in Ha. by rewrite Hnone in Ha.
Qed.

Lemma demo_conn_run : rtc conn_run demo_environment_world demo_connected_world.
Proof.
  assert (demo_connected_world = demo_completed.2) as -> by eval_eq.
  eapply rtc_l; [apply (cr_begin demo_org_id demo_project_id demo_environment_id PublicEndpoint #"https://realm" None
    (demo_uuid_of 201) demo_operator [] demo_oracle)|].
  assert (demo_begun.2 = demo_begun_world) as -> by eval_eq.
  eapply rtc_l; [apply (cr_reserve #"realm-a" demo_oracle)|]. assert (demo_reserved.2 = demo_reserved_world) as -> by eval_eq.
  apply rtc_once, cr_complete. eval_eq.
Qed.

Lemma realm_assigned_once_witness :
  ∃ a, holds (vw demo_connected_world) (connection_key (demo_uuid_of 500)) a ∧
    ∀ j b, holds (vw demo_connected_world) (connection_key j) b → fc_realm_id a = fc_realm_id b →
      fc_assignment_epoch a = fc_assignment_epoch b → demo_uuid_of 500 = j.
Proof.
  set (a := demo_connected). exists a.
  assert (Hh : holds (vw demo_connected_world) (connection_key (demo_uuid_of 500)) a) by (unfold holds; eval_eq).
  split; [exact Hh|]. intros j b Hb Hr Hepoch.
  exact (proj1 (realm_assigned_once demo_environment_world demo_connected_world demo_fleet_ok demo_conn_ok demo_conn_run
    (demo_uuid_of 500) j a b Hh Hb Hr) Hepoch).
Defined.

Lemma demo_connected_ok : fleet_ok (vw demo_connected_world) ∧ conn_ok (vw demo_connected_world).
Proof. by destruct (conn_runs_step _ _ demo_conn_run demo_fleet_ok demo_conn_ok) as [? ? _ _]. Qed.

Lemma revoked_connection_final_witness :
  ∃ r, demo_revocation.1 = Ok r ∧ holds (vw (observe_fleet_connection (demo_uuid_of 500) Healthy demo_oracle demo_revocation.2).2)
         (connection_key (demo_uuid_of 500)) r.
Proof.
  assert (He : is_ok demo_revocation.1 = true) by eval_eq. destruct (is_ok_run _ He) as [r Hr]. exists r.
  split; [by rewrite Hr|].
  destruct (revoked_connection_final demo_org_id demo_project_id demo_environment_id (demo_uuid_of 500) (demo_uuid_of 203)
    demo_operator [] demo_oracle demo_connected_world r demo_revocation.2
    (observe_fleet_connection (demo_uuid_of 500) Healthy demo_oracle demo_revocation.2).2) as (_ & Hh & _).
  - exact (proj1 demo_connected_ok).
  - exact (proj2 demo_connected_ok).
  - eval_eq.
  - exact Hr.
  - apply rtc_once, cr_observe.
  - exact Hh.
Defined.

Lemma epoch_never_reused_witness :
  demo_reserved.1 = Ok 1 ∧ demo_reserved_again.1 = Ok 2 ∧ 1 < 2.
Proof.
  assert (H1 : demo_reserved.1 = Ok 1) by eval_eq. assert (H2 : demo_reserved_again.1 = Ok 2) by eval_eq.
  split_and!; [exact H1|exact H2|].
  assert (Hb : conn_next (vw demo_environment_world) (vw demo_begun_world)).
  { assert (demo_begun_world = demo_begun.2) as -> by eval_eq. apply conn_run_step; [apply cr_begin|exact demo_fleet_ok|exact demo_conn_ok]. }
  apply (epoch_never_reused #"realm-a" demo_oracle demo_begun_world 1 demo_reserved_world demo_connected_world demo_oracle 2
    demo_reserved_again.2 (cn_fleet _ _ Hb) (cn_conn _ _ Hb)).
  - intros e Hk. assert (Hn : vw demo_begun_world !! assignment_epoch_key #"realm-a" = None) by eval_eq. congruence.
  - eval_eq.
  - assert (demo_connected_world = demo_completed.2) as -> by eval_eq. apply rtc_once, cr_complete. eval_eq.
  - apply run_ok. exact H2.
Defined.

(** The identifier of the new connection is the one the realm answered with, and the
    store does not ask whether it is in use: a second realm that answers with the
    identifier of the first one's connection replaces that record. *)
Abbreviation demo_begun_b := (demo_begin (demo_uuid_of 211) demo_connected_world).
Abbreviation demo_hijack :=
  (complete_fleet_connection (demo_attempt_of demo_begun_b) (demo_connection (demo_uuid_of 500) #"realm-b" 1)
     (demo_uuid_of 212) demo_operator [] demo_oracle demo_begun_b.2).

Definition demo_realm_at (w : world) : option str :=
  match (fleet_connection (demo_uuid_of 500) demo_oracle w).1 with Ok (Some r) => Some (fc_realm_id r) | _ => None end.

Example completion_replaces_foreign_connection :
  demo_realm_at demo_connected_world = Some #"realm-a" ∧ is_ok demo_hijack.1 = true ∧
  demo_realm_at demo_hijack.2 = Some #"realm-b".
Proof. split_and!; eval_eq. Qed.

(** A request id used again for another connection: the second mutation, carried out
    on the second realm, is answered with the audit record of the first. *)
Definition demo_elsewhere : FleetConnectionRecord :=
  mkConnection (demo_uuid_of 501) demo_org_id demo_project_id (demo_uuid_of 777) #"realm-b" 1 #"realm-b" PublicEndpoint
    #"https://realm-b" (mkFleetCredential [] [] []) [] None None None [] [] [] [] [] [] Healthy None 0 0 None.
Abbreviation demo_two_realms :=
  (execute [SET (connection_key (demo_uuid_of 501)) (to_json demo_elsewhere)] demo_oracle demo_connected_world).2.
Abbreviation demo_remote id w :=
  (record_fleet_remote_mutation id (demo_uuid_of 220) demo_operator #"realm.remote.delete-webhook" [] demo_oracle w).
Abbreviation demo_first := (demo_remote (demo_uuid_of 500) demo_two_realms).
Abbreviation demo_second := (demo_remote (demo_uuid_of 501) demo_first.2).
Abbreviation demo_audited run := (match run.1 with Ok a => Some (fa_environment_id a) | Err _ => None end).
Abbreviation demo_audits w := (match (fleet_audit_records demo_oracle w).1 with Ok l => length l | Err _ => 0%nat end).

Example second_realm_unaudited :
  demo_audited demo_first = Some (Some demo_environment_id) ∧ demo_audited demo_second = Some (Some demo_environment_id) ∧
  demo_audits demo_second.2 = demo_audits demo_first.2.
Proof. split_and!; eval_eq. Qed.
End DemoConnections.
