(* ===== verification/FleetRoles.v ===== *)
(** * Delegated fleet roles (src/src/store/fleet.rs, src/src/operator_auth.rs)

    Role bindings of operators to organizations, projects and environments, the role
    an operator effectively has on a resource (the strongest of the bindings on the
    resource and the resources it lies in), and the authorization of fleet requests
    that rests on it. *)

From S2P Require Import Prelude Sable Logic Demo Records Events Identifiers Users Invitations Accounts Sessions Organization RateLimit.
From S2P Require Import Guards OperatorAuth Fleet FleetConnections.

Definition ROLE_BINDING_PREFIX : str := #"fleet:role-binding:".
Definition ROLE_BINDING_SUBJECT_PREFIX : str := #"fleet:role-binding-subject:".

Inductive FleetRoleRecord := FleetOwner | FleetAdministrator | FleetOperator | FleetSupport | FleetAuditor.
#[global] Instance FleetRoleRecord_eq_dec : EqDecision FleetRoleRecord.
Proof. solve_decision. Defined.

Record FleetRoleBindingRecord := mkBinding {
  fb_id : Uuid;
  fb_operator_id : Uuid;
  fb_resource_kind : FleetResourceKindRecord;
  fb_resource_id : Uuid;
  fb_role : FleetRoleRecord;
  fb_created_by : Uuid;
  fb_created_at : N;
  fb_revoked_by : option Uuid;
  fb_revoked_at : option N
}.

Definition fleet_role_rank (role : FleetRoleRecord) : N :=
  match role with
  | FleetOwner => 0
  | FleetAdministrator => 1
  | FleetOperator => 2
  | FleetSupport => 3
  | FleetAuditor => 4
  end.

Definition kind_name (kind : FleetResourceKindRecord) : str :=
  match kind with
  | KOrganization => #"organization"
  | KProject => #"project"
  | KEnvironment => #"environment"
  end.

Definition role_binding_key `{ExtUuid} (id : Uuid) : str := ROLE_BINDING_PREFIX ++ uuid_show id.
Definition role_binding_subject_key `{ExtUuid} (operator_id : Uuid) (resource_kind : FleetResourceKindRecord)
    (resource_id : Uuid) : str :=
  ROLE_BINDING_SUBJECT_PREFIX ++ uuid_show operator_id ++ #":" ++ kind_name resource_kind ++ #":" ++ uuid_show resource_id.

(** [Iterator::min_by_key]: the first of the smallest. *)
Fixpoint strongest (l : list FleetRoleRecord) : option FleetRoleRecord :=
  match l with
  | [] => None
  | role :: l =>
      match strongest l with
      | Some other => if fleet_role_rank other <? fleet_role_rank role then Some other else Some role
      | None => Some role
      end
  end.

Definition fleet_allows (role : FleetRoleRecord) (capability : OperatorCapability) : bool :=
  match capability with
  | CapRead => true
  | CapSupport => match role with FleetAuditor => false | _ => true end
  | CapAdminister => match role with FleetOwner | FleetAdministrator => true | _ => false end
  end.

Section FleetRoles.
Context `{Env}.
Context `{!Serde FleetOrganizationRecord, !Serde FleetProjectRecord, !Serde FleetEnvironmentRecord}.
Context `{!Serde FleetAuditRecord, !Serde FleetIdempotencyRecord, !Serde FleetRoleBindingRecord}.
Context `{!Serde AuthEvent, !Serde User, !Serde Session, !Serde OperatorRecord}.

Definition fleet_role_binding (id : Uuid) : M error (option FleetRoleBindingRecord) := get_json (role_binding_key id).

Definition fleet_role_bindings (resource_kind : FleetResourceKindRecord) (resource_id : Uuid) (include_revoked : bool) :
    M error (list FleetRoleBindingRecord) :=
  ids ← record_ids ROLE_BINDING_PREFIX;
  records ← load_records (load_if fleet_role_binding (λ r,
    bool_decide (fb_resource_kind r = resource_kind) && bool_decide (fb_resource_id r = resource_id)
    && (include_revoked || negb (is_some (fb_revoked_at r))))) ids;
  mret (sort_by (λ a b, uuid_ltb (fb_id a) (fb_id b)) records).

Definition fleet_role_binding_for_operator (operator_id : Uuid) (resource_kind : FleetResourceKindRecord)
    (resource_id : Uuid) : M error (option FleetRoleBindingRecord) :=
  found ← get (role_binding_subject_key operator_id resource_kind resource_id);
  match found with
  | None => mret None
  | Some id =>
      id ← some_or EUuid (uuid_parse id);
      binding ← fleet_role_binding id;
      mret (option_filter (λ r, negb (is_some (fb_revoked_at r))) binding)
  end.

(** The role of the binding on one resource, if there is one. *)
Definition bound_role (operator_id : Uuid) (resource_kind : FleetResourceKindRecord) (resource_id : Uuid) :
    M error (list FleetRoleRecord) :=
  binding ← fleet_role_binding_for_operator operator_id resource_kind resource_id;
  mret (match binding with Some b => [fb_role b] | None => [] end).

Definition fleet_effective_role (operator_id : Uuid) (resource_kind : FleetResourceKindRecord) (resource_id : Uuid) :
    M error (option FleetRoleRecord) :=
  own ← bound_role operator_id resource_kind resource_id;
  inherited ← match resource_kind with
    | KOrganization => mret []
    | KProject =>
        found ← fleet_project resource_id;
        project ← some_or fleet_missing found;
        bound_role operator_id KOrganization (fp_organization_id project)
    | KEnvironment =>
        found ← fleet_environment resource_id;
        environment ← some_or fleet_missing found;
        of_project ← bound_role operator_id KProject (fe_project_id environment);
        of_organization ← bound_role operator_id KOrganization (fe_organization_id environment);
        mret (of_project ++ of_organization)
    end;
  mret (strongest (own ++ inherited)).

Definition ensure_fleet_resource (kind : FleetResourceKindRecord) (id : Uuid) : M error unit :=
  exists_ ← match kind with
    | KOrganization => r ← fleet_organization id; mret (is_some r)
    | KProject => r ← fleet_project id; mret (is_some r)
    | KEnvironment => r ← fleet_environment id; mret (is_some r)
    end;
  ensure exists_ fleet_missing.

Definition resource_organization_id (kind : FleetResourceKindRecord) (id : Uuid) : M error (option Uuid) :=
  match kind with
  | KOrganization => mret (Some id)
  | KProject => found ← fleet_project id; r ← some_or fleet_missing found; mret (Some (fp_organization_id r))
  | KEnvironment => found ← fleet_environment id; r ← some_or fleet_missing found; mret (Some (fe_organization_id r))
  end.

Definition resource_project_id (kind : FleetResourceKindRecord) (id : Uuid) : M error (option Uuid) :=
  match kind with
  | KOrganization => mret None
  | KProject => mret (Some id)
  | KEnvironment => found ← fleet_environment id; r ← some_or fleet_missing found; mret (Some (fe_project_id r))
  end.

Definition resource_environment_id (kind : FleetResourceKindRecord) (id : Uuid) : option Uuid :=
  if bool_decide (kind = KEnvironment) then Some id else None.

Definition upsert_fleet_role_binding (operator_id : Uuid) (resource_kind : FleetResourceKindRecord) (resource_id : Uuid)
    (role : FleetRoleRecord) (request_id actor_id : Uuid) (reason : str) : M error FleetRoleBindingRecord :=
  idempotent #"role-binding.upsert" request_id fleet_role_binding (
    ensure_fleet_resource resource_kind resource_id;;
    let index_key := role_binding_subject_key operator_id resource_kind resource_id in
    existing ← get index_key;
    timestamp ← now;
    record ← match existing with
      | Some id =>
          id ← some_or EUuid (uuid_parse id);
          found ← fleet_role_binding id;
          r ← some_or fleet_missing found;
          mret (mkBinding (fb_id r) (fb_operator_id r) (fb_resource_kind r) (fb_resource_id r) role actor_id timestamp
                  None None)
      | None =>
          id ← new_v4;
          mret (mkBinding id operator_id resource_kind resource_id role actor_id timestamp None None)
      end;
    organization_id ← resource_organization_id resource_kind resource_id;
    project_id ← resource_project_id resource_kind resource_id;
    persist_fleet_mutation (role_binding_key (fb_id record)) (to_json record) (Some (index_key, fb_id record))
      (mkMutationAudit request_id actor_id #"role-binding.upsert" #"role-binding" (fb_id record) organization_id
         project_id (resource_environment_id resource_kind resource_id) reason);;
    mret record).

Definition revoke_fleet_role_binding (id request_id actor_id : Uuid) (reason : str) : M error FleetRoleBindingRecord :=
  idempotent #"role-binding.revoke" request_id fleet_role_binding (
    found ← fleet_role_binding id;
    record ← some_or fleet_missing found;
    record ← (if is_some (fb_revoked_at record) then mret record else
              t ← now;
              mret (mkBinding (fb_id record) (fb_operator_id record) (fb_resource_kind record) (fb_resource_id record)
                      (fb_role record) (fb_created_by record) (fb_created_at record) (Some actor_id) (Some t)));
    organization_id ← resource_organization_id (fb_resource_kind record) (fb_resource_id record);
    project_id ← resource_project_id (fb_resource_kind record) (fb_resource_id record);
    persist_fleet_mutation (role_binding_key id) (to_json record) None
      (mkMutationAudit request_id actor_id #"role-binding.revoke" #"role-binding" id organization_id project_id
         (resource_environment_id (fb_resource_kind record) (fb_resource_id record)) reason);;
    mret record).

(** ** Authorization *)

Definition authorize_fleet (self : OperatorAuthorizer) (headers : HeaderMap) (capability : OperatorCapability)
    (resource_kind : FleetResourceKindRecord) (resource_id : Uuid) : M ConnectError OperatorActor :=
  actor ← authenticate self headers;
  if allows (op_role (actor_operator actor)) capability
  then require_step_up_for capability (actor_session actor);; mret actor
  else
  delegated ← map_err internal (fleet_effective_role (u_id (actor_user actor)) resource_kind resource_id);
  if match delegated with Some role => fleet_allows role capability | None => false end
  then require_step_up_for capability (actor_session actor);; mret actor
  else fail operator_denied.

Definition require_fleet_role_dominance (self : OperatorAuthorizer) (actor : OperatorActor)
    (resource_kind : FleetResourceKindRecord) (resource_id : Uuid) (target_role : FleetRoleRecord) : M ConnectError unit :=
  actor_role ← match op_role (actor_operator actor) with
    | Owner => mret FleetOwner
    | Administrator => mret FleetAdministrator
    | Support | Auditor =>
        role ← map_err internal (fleet_effective_role (u_id (actor_user actor)) resource_kind resource_id);
        some_or (permission_denied "operator access denied") role
    end;
  ensure (negb (fleet_role_rank target_role <? fleet_role_rank actor_role))
    (permission_denied "operator role does not dominate the requested Fleet role").

(** ** The bindings *)

Definition is_role_key (k : str) : bool :=
  starts_with ROLE_BINDING_PREFIX k || starts_with ROLE_BINDING_SUBJECT_PREFIX k.

Definition subject_of (r : FleetRoleBindingRecord) : str :=
  role_binding_subject_key (fb_operator_id r) (fb_resource_kind r) (fb_resource_id r).

(** Every binding is stored under its identifier and is the one its subject's
    index names. *)
Record bindings_ok (m : gmap str entry) : Prop := {
  bk_records : records role_binding_key fb_id (λ r, m !! subject_of r = Some (Entry (uuid_show (fb_id r)) None)) m;
  bk_subjects op kind res e : m !! role_binding_subject_key op kind res = Some e →
    ∃ r, e = Entry (uuid_show (fb_id r)) None ∧ holds m (role_binding_key (fb_id r)) r ∧
      subject_of r = role_binding_subject_key op kind res
}.

Lemma uuid_no_colon u : 58 ∉ uuid_show u.
Proof.
  intros Hin. pose proof (uuid_show_chars u) as Hc. rewrite forallb_forall in Hc.
  by specialize (Hc 58 ltac:(by apply list_elem_of_In)).
Qed.

Lemma app_sep_inj (c : N) a b a' b' : c ∉ a → c ∉ a' → a ++ c :: b = a' ++ c :: b' → a = a' ∧ b = b'.
Proof.
  revert a'. induction a as [|x a IH]; intros [|y a'] Ha Ha' Heq; simpl in *; [by simplify_eq|simplify_eq..|].
  - by destruct Ha'; left.
  - by destruct Ha; left.
  - injection Heq as -> Heq. apply IH in Heq as [-> ->]; [done|set_solver..].
Qed.

Lemma subject_key_inj op kind res op' kind' res' :
  role_binding_subject_key op kind res = role_binding_subject_key op' kind' res' → op = op' ∧ kind = kind' ∧ res = res'.
Proof.
  unfold role_binding_subject_key. intros Heq%app_inv_head.
  apply app_sep_inj in Heq as [->%(inj _) Heq]; [|apply uuid_no_colon..].
  split; [done|]. destruct kind, kind'; try discriminate;
    by (apply app_inv_head, app_inv_head, (inj uuid_show) in Heq).
Qed.

(** The binding of a subject, and the one in force. *)
Definition bound (m : gmap str entry) (s : str) (r : FleetRoleBindingRecord) : Prop :=
  holds m (role_binding_key (fb_id r)) r ∧ subject_of r = s.

Definition in_force (m : gmap str entry) (op : Uuid) (kind : FleetResourceKindRecord) (res : Uuid)
    (r : FleetRoleBindingRecord) : Prop :=
  bound m (role_binding_subject_key op kind res) r ∧ fb_revoked_at r = None.

Lemma bound_index m s r : bindings_ok m → bound m s r → m !! s = Some (Entry (uuid_show (fb_id r)) None).
Proof. intros Hb [Hr <-]. by destruct (records_holds _ _ _ _ _ _ (bk_records _ Hb) Hr). Qed.

Lemma bound_inj m s r r' : bindings_ok m → bound m s r → bound m s r' → r = r'.
Proof.
  intros Hb Hr Hr'. pose proof (bound_index _ _ _ Hb Hr) as H1. rewrite (bound_index _ _ _ Hb Hr') in H1.
  injection H1 as Hid%(inj _). destruct Hr as [Hr _], Hr' as [Hr' _]. rewrite Hid in Hr'. by eapply holds_inj.
Qed.

(** Writing one binding, whose subject's index names it afterwards and named
    nothing else before. *)
Lemma binding_written m m' r :
  (∀ k, is_role_key k = true → k ≠ role_binding_key (fb_id r) → k ≠ subject_of r → m' !! k = m !! k) →
  holds m' (role_binding_key (fb_id r)) r → m' !! subject_of r = Some (Entry (uuid_show (fb_id r)) None) →
  (∀ r0, holds m (role_binding_key (fb_id r)) r0 → subject_of r0 = subject_of r) →
  (∀ e, m !! subject_of r = Some e → e = Entry (uuid_show (fb_id r)) None) →
  bindings_ok m → bindings_ok m' ∧ ∀ s r', s ≠ subject_of r → bound m' s r' → bound m s r'.
Proof.
  intros Hframe Hr Hs Hown Hidx Hb.
  assert (Hother : ∀ id, id ≠ fb_id r → m' !! role_binding_key id = m !! role_binding_key id).
  { intros id Hne. apply Hframe; [done| |done]. by intros ?%app_inv_head%(inj _). }
  split; [split|].
  - intros id e He. destruct (decide (id = fb_id r)) as [->|Hne]; [unfold holds in Hr; rewrite Hr in He; injection He as <-; eauto|].
    rewrite Hother in He by done. destruct (bk_records _ Hb id e He) as (r' & -> & <- & Hi). exists r'. split_and!; [done..|].
    rewrite Hframe; [done|done|done|]. intros Heq. rewrite Heq in Hi. apply Hidx in Hi. injection Hi as ?%(inj _). done.
  - intros op kind res e He. destruct (decide (role_binding_subject_key op kind res = subject_of r)) as [Heq|Hne].
    { rewrite Heq, Hs in He. injection He as <-. by exists r. }
    rewrite Hframe in He by done. destruct (bk_subjects _ Hb _ _ _ _ He) as (r' & -> & Hr' & Hs').
    exists r'. split_and!; [done| |done]. unfold holds. rewrite Hother; [done|]. intros Hid. rewrite Hid in Hr'.
    apply Hown in Hr'. congruence.
  - intros s r' Hne [Hr' Hs']. split; [|done]. unfold holds. rewrite <- Hother; [done|]. intros Hid. rewrite Hid in Hr'.
    pose proof (holds_inj _ _ _ _ Hr Hr'). congruence.
Qed.

(** ** Reading *)

Lemma wp_binding_index op kind res o w (Q : result error (option str) → world → Prop) :
  bindings_ok (vw w) → (∀ w', undisturbed w w' → Q (Err EDb) w') →
  (∀ w', undisturbed w w' → vw w !! role_binding_subject_key op kind res = None → Q (Ok None) w') →
  (∀ r w', undisturbed w w' → bound (vw w) (role_binding_subject_key op kind res) r → Q (Ok (Some (uuid_show (fb_id r)))) w') →
  wp (get (role_binding_subject_key op kind res)) o w Q.
Proof.
  intros Hb He Hn Hs. apply wp_get; [intros d _ Hd; apply He; by split|]. intros d Hd. unfold live.
  destruct (vw w !! _) as [e|] eqn:Hlk; [|apply Hn; [by split|done]].
  destruct (bk_subjects _ Hb _ _ _ _ Hlk) as (r & -> & Hr & Hsub). apply Hs; [by split|by split].
Qed.

Lemma wp_binding_for op kind res o w (Q : result error (option FleetRoleBindingRecord) → world → Prop) :
  bindings_ok (vw w) → (∀ e w', undisturbed w w' → Q (Err e) w') →
  (∀ x w', undisturbed w w' → (∀ r, x = Some r ↔ in_force (vw w) op kind res r) → Q (Ok x) w') →
  wp (fleet_role_binding_for_operator op kind res) o w Q.
Proof.
  intros Hb He Hok. apply wp_bind, wp_binding_index; [done|by intros; apply He| |].
  { intros w1 H1 Hn. apply wp_ret, Hok; [done|]. intros r. split; [done|]. intros [Hr _].
    apply bound_index in Hr; [|done]. congruence. }
  intros r w1 H1 Hr. apply wp_bind, wp_some_or; [|by rewrite uuid_parse_show]. intros ? [= <-]%(eq_trans (eq_sym (uuid_parse_show _))).
  apply wp_bind. destruct H1 as [Hv1 Hu1]. eapply wp_record; [rewrite Hv1; apply Hb|..].
  - intros w2 [Hv2 Hu2]. apply He. split; congruence.
  - intros w2 _ Hn. destruct Hr as [Hr _]. unfold holds in Hr. congruence.
  - intros r' w2 [Hv2 Hu2] Hr' _ _. rewrite Hv1 in Hr'. apply wp_ret, Hok; [split; congruence|].
    destruct Hr as [Hr Hsub]. pose proof (holds_inj _ _ _ _ Hr Hr') as <-. intros x. simpl.
    split; [|intros [Hx Hrev]; pose proof (bound_inj _ _ _ _ Hb Hx (conj Hr Hsub)) as ->; by rewrite Hrev].
    destruct (fb_revoked_at r) eqn:Hrev; [done|]. intros [= <-]. by split.
Qed.

Lemma wp_bound_role op kind res o w (Q : result error (list FleetRoleRecord) → world → Prop) :
  bindings_ok (vw w) → (∀ e w', undisturbed w w' → Q (Err e) w') →
  (∀ l w', undisturbed w w' → (∀ role, role ∈ l ↔ ∃ r, in_force (vw w) op kind res r ∧ fb_role r = role) → Q (Ok l) w') →
  wp (bound_role op kind res) o w Q.
Proof.
  intros Hb He Hok. apply wp_bind, wp_binding_for; [done|done|]. intros x w1 H1 Hx. apply wp_ret, Hok; [done|].
  intros role. setoid_rewrite <- Hx. destruct x as [b|]; [|set_solver]. rewrite list_elem_of_singleton. naive_solver.
Qed.

(** The resources whose bindings count for a resource: itself and those it lies in. *)
Definition covers (m : gmap str entry) (kind : FleetResourceKindRecord) (res : Uuid) (kind' : FleetResourceKindRecord)
    (res' : Uuid) : Prop :=
  (kind', res') = (kind, res) ∨
  match kind with
  | KOrganization => False
  | KProject => ∃ p, holds m (project_key res) p ∧ (kind', res') = (KOrganization, fp_organization_id p)
  | KEnvironment => ∃ e, holds m (environment_key res) e ∧
      ((kind', res') = (KProject, fe_project_id e) ∨ (kind', res') = (KOrganization, fe_organization_id e))
  end.

(** The roles an operator holds on a resource, its own and the inherited ones. *)
Definition held (m : gmap str entry) (op : Uuid) (kind : FleetResourceKindRecord) (res : Uuid) (role : FleetRoleRecord) : Prop :=
  ∃ kind' res' r, covers m kind res kind' res' ∧ in_force m op kind' res' r ∧ fb_role r = role.

Lemma strongest_spec l :
  match strongest l with
  | Some role => role ∈ l ∧ ∀ other, other ∈ l → fleet_role_rank role ≤ fleet_role_rank other
  | None => l = []
  end.
Proof.
  induction l as [|role l IH]; simpl; [done|]. destruct (strongest l) as [other|]; [|subst l; split; [set_solver|]].
  - destruct IH as [Hin Hmin]. destruct (fleet_role_rank other <? fleet_role_rank role) eqn:Hlt; split; [set_solver| |set_solver|].
    + intros x [->|Hx]%elem_of_cons; [lia|by apply Hmin].
    + intros x [->|Hx]%elem_of_cons; [lia|]. specialize (Hmin x Hx). lia.
  - intros x ->%list_elem_of_singleton. lia.
Qed.

Lemma rank_inj a b : fleet_role_rank a = fleet_role_rank b → a = b.
Proof. by destruct a, b. Qed.

(** The role computed for an operator is the strongest one it holds. *)
Definition effective (m : gmap str entry) (op : Uuid) (kind : FleetResourceKindRecord) (res : Uuid)
    (x : option FleetRoleRecord) : Prop :=
  match x with
  | Some role => held m op kind res role ∧ ∀ other, held m op kind res other → fleet_role_rank role ≤ fleet_role_rank other
  | None => ∀ role, ¬ held m op kind res role
  end.

Lemma effective_strongest m op kind res l :
  (∀ role, role ∈ l ↔ held m op kind res role) → effective m op kind res (strongest l).
Proof.
  intros Hl. pose proof (strongest_spec l) as Hs. unfold effective. destruct (strongest l) as [role|].
  - destruct Hs as [Hin Hmin]. split; [by apply Hl|]. intros other Ho. by apply Hmin, Hl.
  - intros role Hr. apply Hl in Hr. subst l. set_solver.
Qed.

Lemma undisturbed_trans w1 w2 w3 : undisturbed w1 w2 → undisturbed w2 w3 → undisturbed w1 w3.
Proof. intros [H1 H2] [H3 H4]. split; congruence. Qed.

Lemma wp_effective_role op kind res o w (Q : result error (option FleetRoleRecord) → world → Prop) :
  fleet_ok (vw w) → bindings_ok (vw w) → (∀ e w', undisturbed w w' → Q (Err e) w') →
  (∀ x w', undisturbed w w' → effective (vw w) op kind res x → Q (Ok x) w') →
  wp (fleet_effective_role op kind res) o w Q.
Proof.
  intros Hf Hb He Hok. apply wp_bind, wp_bound_role; [done|done|]. intros own w1 H1 Hown. apply wp_bind.
  assert (Hfin : ∀ l w', undisturbed w w' → (∀ role, role ∈ own ++ l ↔ held (vw w) op kind res role) →
    wp (mret (strongest (own ++ l)) : M error _) o w' Q).
  { intros l w' Hw' Hl. apply wp_ret, Hok; [done|]. by apply effective_strongest. }
  assert (Hv1 := proj1 H1). destruct kind.
  - apply wp_ret, Hfin; [done|]. intros role. rewrite app_nil_r, Hown. unfold held, covers. split.
    + intros (r & Hr & Hrole). exists KOrganization, res, r. split; [by left|done].
    + intros (k' & i' & r & [[= -> ->]|[]] & Hr). by exists r.
  - apply wp_bind. eapply wp_record; [rewrite Hv1; apply Hf|..].
    + intros w2 H2. eapply He, undisturbed_trans; eauto.
    + intros w2 H2 _. apply wp_bind, wp_some_or; [done|]. intros _. eapply He, undisturbed_trans; eauto.
    + intros p w2 H2 Hp _ _. apply wp_bind, wp_some_or; [|done]. intros ? [= <-]. rewrite Hv1 in Hp.
      assert (Hu2 := undisturbed_trans _ _ _ H1 H2). assert (Hv2 := proj1 Hu2).
      apply wp_bound_role; [by rewrite Hv2|intros; eapply He, undisturbed_trans; eauto|].
      intros l w3 H3 Hl. apply Hfin; [by eapply undisturbed_trans|]. intros role. rewrite elem_of_app, Hown, Hl, Hv2.
      unfold held, covers. split.
      { intros [(r & Hr & Hrole)|(r & Hr & Hrole)]; eexists _, _, r; (split; [|done]); [by left|right; by exists p]. }
      intros (k' & i' & r & [[= -> ->]|(p' & Hp' & [= -> ->])] & Hin & Hr); [by left; eauto|].
      rewrite (holds_inj _ _ _ _ Hp' Hp) in Hin. eauto.
  - apply wp_bind. eapply wp_record; [rewrite Hv1; apply Hf|..].
    + intros w2 H2. eapply He, undisturbed_trans; eauto.
    + intros w2 H2 _. apply wp_bind, wp_some_or; [done|]. intros _. eapply He, undisturbed_trans; eauto.
    + intros e w2 H2 Hen _ _. apply wp_bind, wp_some_or; [|done]. intros ? [= <-]. rewrite Hv1 in Hen.
      assert (Hu2 := undisturbed_trans _ _ _ H1 H2). assert (Hv2 := proj1 Hu2).
      apply wp_bind, wp_bound_role; [by rewrite Hv2|intros; eapply He, undisturbed_trans; eauto|].
      intros l w3 H3 Hl. assert (Hu3 := undisturbed_trans _ _ _ Hu2 H3). assert (Hv3 := proj1 Hu3).
      apply wp_bind, wp_bound_role; [by rewrite Hv3|intros; eapply He, undisturbed_trans; eauto|].
      intros l' w4 H4 Hl'. apply wp_ret, Hfin; [by eapply undisturbed_trans|]. intros role.
      rewrite !elem_of_app, Hown, Hl, Hl', Hv2, Hv3. unfold held, covers. split.
      { intros [(r & Hr & Hrole)|[(r & Hr & Hrole)|(r & Hr & Hrole)]]; eexists _, _, r; (split; [|done]);
          [by left|right; exists e; split; [done|by left]|right; exists e; split; [done|by right]]. }
      intros (k' & i' & r & [[= -> ->]|(e' & He' & [[= -> ->]|[= -> ->]])] & Hin & Hr); [by left; eauto|..];
        rewrite (holds_inj _ _ _ _ He' Hen) in Hin; eauto.
Qed.

(** ** Writing *)

Record role_next (m m' : gmap str entry) : Prop := {
  rn_fleet : fleet_ok m';
  rn_bindings : bindings_ok m';
  rn_indexes : indexes_kept m m'
}.

Lemma role_same m m' : m' = m → fleet_ok m → bindings_ok m → role_next m m'.
Proof. intros -> Hf Hb. split; [done|done|]. by intros k v _ Hk. Qed.

Lemma writes_elsewhere k k' m m' : is_record_key k' = false → writes_record k' m m' → writes_record k m m'.
Proof.
  intros Hk [Hf Hi Hr]. split; [|done|done]. intros k0 H0 _. apply Hf; [done|]. intros ->. congruence.
Qed.

Lemma binding_mutated m r slug audit aid t :
  slug = None ∨ slug = Some (subject_of r, fb_id r) → fleet_ok m → m !! idempotency_key (ma_request_id audit) = None →
  let m' := mutated (role_binding_key (fb_id r)) (to_json r) slug audit aid t m in
  fleet_step m m' ∧ holds m' (role_binding_key (fb_id r)) r ∧
  (∀ k, is_role_key k = true → k ≠ role_binding_key (fb_id r) → k ≠ subject_of r → m' !! k = m !! k) ∧
  m' !! subject_of r = match slug with Some (_, i) => Some (Entry (uuid_show i) None) | None => m !! subject_of r end.
Proof.
  intros Hslug Hf Hreq m'. assert (Hrole : ∀ k, is_role_key k = true →
    starts_with IDEMPOTENCY_PREFIX k = false ∧ starts_with AUDIT_PREFIX k = false).
  { intros k. unfold is_role_key. rewrite orb_true_iff. intros [Hk|Hk]; apply starts_with_spec in Hk as [x ->]; done. }
  split_and!.
  - apply (elsewhere_step (role_binding_key (fb_id r))); [done|]. apply requested_writes; [|done].
    assert (Hw : writes_record (role_binding_key (fb_id r)) m (<[role_binding_key (fb_id r) := Entry (to_json r) None]> m))
      by (apply insert_writes; [exact (fk_requests _ Hf)|done]).
    destruct Hslug as [->| ->]; simpl; [done|]. eapply writes_trans; [apply Hw|].
    apply (writes_elsewhere _ (subject_of r)); [done|]. apply insert_writes; [exact (wr_requests _ _ _ Hw)|done].
  - unfold holds, m', mutated. rewrite !lookup_insert_ne by key_neq.
    destruct Hslug as [->| ->]; simpl; [|rewrite lookup_insert_ne by key_neq]; apply lookup_insert_eq.
  - intros k Hk H1 H2. destruct (Hrole k Hk). apply mutated_frame; [done| |done|done].
    destruct Hslug as [->| ->]; [done|]. by intros ? ? [= <- <-].
  - unfold m', mutated. rewrite !lookup_insert_ne by key_neq.
    destruct Hslug as [->| ->]; simpl; [rewrite lookup_insert_ne by key_neq; done|apply lookup_insert_eq].
Qed.

(** Storing a binding: it is the only one that may change. *)
Lemma wp_persist_binding r slug audit o w (Q : result error FleetRoleBindingRecord → world → Prop) :
  fleet_ok (vw w) → bindings_ok (vw w) → vw w !! idempotency_key (ma_request_id audit) = None →
  (slug = None ∧ vw w !! subject_of r = Some (Entry (uuid_show (fb_id r)) None) ∨ slug = Some (subject_of r, fb_id r)) →
  (∀ r0, holds (vw w) (role_binding_key (fb_id r)) r0 → subject_of r0 = subject_of r) →
  (∀ e, vw w !! subject_of r = Some e → e = Entry (uuid_show (fb_id r)) None) →
  (∀ w', vw w' = vw w → Q (Err EDb) w') →
  (∀ x w', role_next (vw w) (vw w') → bound (vw w') (subject_of r) r →
     (∀ s r', s ≠ subject_of r → bound (vw w') s r' → bound (vw w) s r') → (∀ b, x = Ok b → b = r) → Q x w') →
  wp (persist_fleet_mutation (role_binding_key (fb_id r)) (to_json r) slug audit;; mret r) o w Q.
Proof.
  intros Hf Hb Hreq Hslug Hown Hidx He Hok. apply wp_bind, wp_persist_fleet; [done|]. intros x w1 aid t Hv1.
  destruct (binding_mutated (vw w) r slug audit aid t) as (Hstep & Hr & Hframe & Hs); [naive_solver|done|done|].
  rewrite <- Hv1 in *. destruct (Hstep Hf) as [Hf1 Hi].
  assert (Hs1 : vw w1 !! subject_of r = Some (Entry (uuid_show (fb_id r)) None)) by (rewrite Hs; by destruct Hslug as [[-> ?]| ->]).
  destruct (binding_written (vw w) (vw w1) r Hframe Hr Hs1 Hown Hidx Hb) as [Hb1 Hother].
  destruct x as [[]|e]; [apply wp_ret|]; (apply Hok; [by split|by split|done|by intros ? [=]]).
Qed.

Lemma wp_ensure_resource kind res o w (Q : result error unit → world → Prop) :
  fleet_ok (vw w) → (∀ e w', undisturbed w w' → Q (Err e) w') → (∀ w', undisturbed w w' → Q (Ok tt) w') →
  wp (ensure_fleet_resource kind res) o w Q.
Proof.
  intros Hf He Hok. unfold ensure_fleet_resource.
  destruct kind; apply wp_bind, wp_bind; (eapply wp_record; [apply Hf|by intros; apply He|..]);
    intros; apply wp_ret, wp_ensure; intros; auto.
Qed.

Lemma resource_organization_id_reads kind res : moves eq (resource_organization_id kind res).
Proof. unfold resource_organization_id, fleet_project, fleet_environment. destruct kind; moves_go. Qed.
Lemma resource_project_id_reads kind res : moves eq (resource_project_id kind res).
Proof. unfold resource_project_id, fleet_environment. destruct kind; moves_go. Qed.

(** An upsert changes the binding of its subject only, to one in force with the
    requested role. *)
Definition upsert_outcome (m : gmap str entry) (op : Uuid) (kind : FleetResourceKindRecord) (res : Uuid)
    (role : FleetRoleRecord) (rid : Uuid) (x : result error FleetRoleBindingRecord) (w' : world) : Prop :=
  role_next m (vw w') ∧
  (∀ s r, bound (vw w') s r → bound m s r ∨ in_force (vw w') op kind res r ∧ fb_role r = role ∧
     s = role_binding_subject_key op kind res) ∧
  (∀ r, x = Ok r → m !! idempotency_key rid = None → in_force (vw w') op kind res r ∧ fb_role r = role).

Lemma upsert_unchanged m op kind res role rid e w' :
  fleet_ok m → bindings_ok m → vw w' = m → upsert_outcome m op kind res role rid (Err e) w'.
Proof. intros Hf Hb Hv. split; [by apply role_same|]. split; [|done]. intros s r Hr. left. by rewrite <- Hv. Qed.

(** Storing the upserted binding. *)
Lemma wp_upserted m op kind res role rid actor reason r o w :
  fleet_ok m → bindings_ok m → m !! idempotency_key rid = None → vw w = m →
  subject_of r = role_binding_subject_key op kind res → fb_revoked_at r = None → fb_role r = role →
  (∀ r0, holds m (role_binding_key (fb_id r)) r0 → subject_of r0 = subject_of r) →
  (∀ e, m !! subject_of r = Some e → e = Entry (uuid_show (fb_id r)) None) →
  wp (organization_id ← resource_organization_id kind res;
      project_id ← resource_project_id kind res;
      persist_fleet_mutation (role_binding_key (fb_id r)) (to_json r) (Some (role_binding_subject_key op kind res, fb_id r))
        (mkMutationAudit rid actor #"role-binding.upsert" #"role-binding" (fb_id r) organization_id project_id
           (resource_environment_id kind res) reason);; mret r) o w (upsert_outcome m op kind res role rid).
Proof.
  intros Hf Hb Hnew Hv Hsub Hrev Hrole Hown Hidx.
  apply wp_bind, wp_reads; [apply resource_organization_id_reads|]. intros [org|e] w1 Hv1; [|apply upsert_unchanged; [done..|congruence]].
  apply wp_bind, wp_reads; [apply resource_project_id_reads|]. intros [project|e] w2 Hv2; [|apply upsert_unchanged; [done..|congruence]].
  assert (Hm : vw w2 = m) by congruence. apply wp_persist_binding; rewrite ?Hm; [done|done|done| |done|done| |].
  - right. by rewrite Hsub.
  - intros w' Hw'. by apply upsert_unchanged.
  - intros x w' Hn Hbd Hother Hx. assert (Hin : in_force (vw w') op kind res r) by (split; [by rewrite <- Hsub|done]).
    split_and!; [done| |].
    + intros s r' Hr'. destruct (decide (s = subject_of r)) as [->|Hne]; [right|left; by apply Hother].
      rewrite (bound_inj _ _ _ _ (rn_bindings _ _ Hn) Hr' Hbd). by split_and!.
    + intros ? -> _. by rewrite (Hx _ eq_refl).
Qed.

Lemma wp_upsert op kind res role rid actor reason o w :
  fleet_ok (vw w) → bindings_ok (vw w) → fresh_id role_binding_key o w →
  wp (upsert_fleet_role_binding op kind res role rid actor reason) o w (upsert_outcome (vw w) op kind res role rid).
Proof.
  intros Hf Hb Hfresh. assert (Herr : ∀ e w', vw w' = vw w → upsert_outcome (vw w) op kind res role rid (Err e) w')
    by (intros; by apply upsert_unchanged).
  apply (wp_idempotent _ rid role_binding_key); [apply fk_requests, Hf|done|by intros e w' [? _]; apply Herr| |].
  { intros id c w' [Hv _] (v & Hv' & _) _. split; [by apply role_same|]. split; [left; by rewrite <- Hv|].
    intros ? _ Hn. congruence. }
  intros w1 H1 Hnew. apply wp_bind, wp_ensure_resource; [by rewrite (proj1 H1)|intros e w' [? _]; apply Herr; destruct H1; congruence|].
  intros w2 H2. assert (Hu2 := undisturbed_trans _ _ _ H1 H2). clear H1 H2.
  apply wp_bind, wp_binding_index; [by rewrite (proj1 Hu2)|intros w' [? _]; apply Herr; destruct Hu2; congruence|..].
  - intros w3 H3 Hn. assert (Hu3 := undisturbed_trans _ _ _ Hu2 H3). rewrite (proj1 Hu2) in Hn. destruct Hu3 as [Hv3 Hi3].
    apply wp_bind, wp_now. apply wp_bind, wp_bind. unfold wp at 1. cbn [new_v4 fst snd]. cbv zeta. cbn [tick w_uuid]. rewrite Hi3.
    apply wp_ret, wp_upserted; [done|done|done|done|done|done|done| |].
    + intros r0 Hr0. unfold fresh_id, holds in *. simpl in Hr0. congruence.
    + intros e He. unfold subject_of in He. simpl in He. congruence.
  - intros r w3 H3 Hr. assert (Hu3 := undisturbed_trans _ _ _ Hu2 H3). rewrite (proj1 Hu2) in Hr. destruct Hu3 as [Hv3 _].
    apply wp_bind, wp_now. apply wp_bind, wp_bind, wp_some_or; [|by rewrite uuid_parse_show].
    intros ? [= <-]%(eq_trans (eq_sym (uuid_parse_show _))).
    eapply (wp_found role_binding_key fb_id _ (λ x, x) _ _ (vw w)); [by rewrite vw_tick|apply (bk_records _ Hb)|done|intros; by apply Herr|].
    intros r' ? w4 [Hv4 _] Hr' _ _ [= <-]. rewrite vw_tick, Hv3 in Hv4.
    assert (Hi := bound_index _ _ _ Hb Hr). destruct Hr as [Hr Hsub]. pose proof (holds_inj _ _ _ _ Hr Hr') as <-.
    apply wp_ret, wp_upserted; [done|done|done|done|exact Hsub|done|done| |].
    + intros r0 Hr0. simpl in Hr0. by rewrite (holds_inj _ _ _ _ Hr0 Hr).
    + intros e He. change (subject_of _) with (subject_of r) in He. simpl. congruence.
Qed.

(** A revocation puts no binding in force, and takes the one it names out of it. *)
Definition unbind_outcome (m : gmap str entry) (id rid : Uuid) (x : result error FleetRoleBindingRecord) (w' : world) : Prop :=
  role_next m (vw w') ∧
  (∀ s r, bound (vw w') s r → fb_revoked_at r = None → bound m s r) ∧
  (∀ r, x = Ok r → m !! idempotency_key rid = None →
     fb_id r = id ∧ bound (vw w') (subject_of r) r ∧ is_Some (fb_revoked_at r)).

Lemma unbind_unchanged m id rid e w' :
  fleet_ok m → bindings_ok m → vw w' = m → unbind_outcome m id rid (Err e) w'.
Proof. intros Hf Hb Hv. split; [by apply role_same|]. split; [|done]. intros s r Hr _. by rewrite <- Hv. Qed.

Lemma wp_unbound m id rid actor reason r r' o w :
  fleet_ok m → bindings_ok m → m !! idempotency_key rid = None → vw w = m → holds m (role_binding_key id) r →
  fb_id r = id → fb_id r' = id → subject_of r' = subject_of r → is_Some (fb_revoked_at r') →
  wp (organization_id ← resource_organization_id (fb_resource_kind r') (fb_resource_id r');
      project_id ← resource_project_id (fb_resource_kind r') (fb_resource_id r');
      persist_fleet_mutation (role_binding_key id) (to_json r') None
        (mkMutationAudit rid actor #"role-binding.revoke" #"role-binding" id organization_id project_id
           (resource_environment_id (fb_resource_kind r') (fb_resource_id r')) reason);; mret r') o w (unbind_outcome m id rid).
Proof.
  intros Hf Hb Hnew Hv Hr Hid Hid' Hsub Hrev.
  apply wp_bind, wp_reads; [apply resource_organization_id_reads|]. intros [org|e] w1 Hv1; [|apply unbind_unchanged; [done..|congruence]].
  apply wp_bind, wp_reads; [apply resource_project_id_reads|]. intros [project|e] w2 Hv2; [|apply unbind_unchanged; [done..|congruence]].
  assert (Hm : vw w2 = m) by congruence. subst id. rewrite <- Hid' in Hr.
  assert (Hi := bound_index _ (subject_of r) r Hb ltac:(split; [by rewrite <- Hid'|done])). rewrite <- Hid', <- Hsub in Hi.
  rewrite <- Hid'. apply wp_persist_binding; rewrite ?Hm; [done|done|done|by left| | | |].
  - intros r0 Hr0. by rewrite (holds_inj _ _ _ _ Hr0 Hr).
  - intros e He. congruence.
  - intros w' Hw'. by apply unbind_unchanged.
  - intros x w' Hn Hbd Hother Hx. split_and!; [done| |by intros ? -> _; rewrite (Hx _ eq_refl)].
    intros s b Hr' Hnone. apply Hother; [|done]. intros ->.
    rewrite (bound_inj _ _ _ _ (rn_bindings _ _ Hn) Hr' Hbd) in Hnone. rewrite Hnone in Hrev. by destruct Hrev.
Qed.

Lemma wp_unbind id rid actor reason o w :
  fleet_ok (vw w) → bindings_ok (vw w) →
  wp (revoke_fleet_role_binding id rid actor reason) o w (unbind_outcome (vw w) id rid).
Proof.
  intros Hf Hb. assert (Herr : ∀ e w', vw w' = vw w → unbind_outcome (vw w) id rid (Err e) w')
    by (intros; by apply unbind_unchanged).
  apply (wp_idempotent _ rid role_binding_key); [apply fk_requests, Hf|done|by intros e w' [? _]; apply Herr| |].
  { intros i c w' [Hv _] (v & Hv' & _) _. split; [by apply role_same|]. split; [intros s r Hr _; by rewrite <- Hv|].
    intros ? _ Hn. congruence. }
  intros w1 [Hv1 _] Hnew. eapply (wp_found role_binding_key fb_id _ (λ x, x) _ _ (vw w));
    [done|apply (bk_records _ Hb)|done|intros; by apply Herr|].
  intros r ? w2 [Hv2 _] Hr Hid _ [= <-]. rewrite Hv1 in Hv2. apply wp_bind. destruct (fb_revoked_at r) eqn:Hrev; simpl.
  - apply wp_ret, (wp_unbound _ _ _ _ _ r); [done..|]. by rewrite Hrev.
  - apply wp_bind, wp_now, wp_ret. by apply (wp_unbound _ _ _ _ _ r).
Qed.

(** Anything but the role bindings. *)
Definition is_hierarchy_key (k : str) : bool := is_record_key k || is_index_key k.

Lemma role_leaves m m' : agree_on (λ k, is_role_key k = true) m m' → bindings_ok m →
  bindings_ok m' ∧ ∀ s r, bound m' s r → bound m s r.
Proof.
  intros Hag Hb.
  assert (Hr : ∀ id, m' !! role_binding_key id = m !! role_binding_key id) by (intros; by apply Hag).
  assert (Hs : ∀ op kind res, m' !! role_binding_subject_key op kind res = m !! role_binding_subject_key op kind res)
    by (intros; by apply Hag).
  split; [split|].
  - intros id e He. rewrite Hr in He. destruct (bk_records _ Hb id e He) as (r & -> & <- & Hi). exists r. split_and!; [done..|].
    unfold subject_of. by rewrite Hs.
  - intros op kind res e He. rewrite Hs in He. destruct (bk_subjects _ Hb _ _ _ _ He) as (r & -> & Hh & Hsub).
    exists r. split_and!; [done| |done]. unfold holds. by rewrite Hr.
  - intros s r [Hh Hsub]. split; [|done]. unfold holds. by rewrite <- Hr.
Qed.

Lemma perform_fleet_roles q rid oper reason : leaves is_role_key (perform_fleet q rid oper reason).
Proof.
  apply perform_fleet_leaves. intros k. unfold is_role_key. rewrite orb_true_iff.
  intros [Hk|Hk]; apply starts_with_spec in Hk as [x ->]; done.
Qed.

(** ** Sequences of operations, other than upserts for one subject *)
Inductive role_run (except : option (Uuid * FleetResourceKindRecord * Uuid)) : world → world → Prop :=
  | rr_upsert op kind res role rid actor reason o w :
      except ≠ Some (op, kind, res) → fresh_id role_binding_key o w →
      role_run except w (upsert_fleet_role_binding op kind res role rid actor reason o w).2
  | rr_revoke id rid actor reason o w : role_run except w (revoke_fleet_role_binding id rid actor reason o w).2
  | rr_fleet q rid oper reason o w : fresh_for q o w → role_run except w (perform_fleet q rid oper reason o w).2
  | rr_elsewhere w w' :
      agree_on (λ k, is_role_key k = true) (vw w) (vw w') → fleet_step (vw w) (vw w') → role_run except w w'.

(** No binding comes into force for the excepted subject. *)
Definition stays_out (except : option (Uuid * FleetResourceKindRecord * Uuid)) (m m' : gmap str entry) : Prop :=
  ∀ op kind res r, except = Some (op, kind, res) → in_force m' op kind res r → in_force m op kind res r.

Lemma role_run_step except w w' :
  role_run except w w' → fleet_ok (vw w) → bindings_ok (vw w) → role_next (vw w) (vw w') ∧ stays_out except (vw w) (vw w').
Proof.
  intros [op kind res role rid actor reason o ? Hne Hfr|id rid actor reason o ?|q rid oper reason o ? Hfr|? ? Hag Hst] Hf Hb.
  - pose proof (wp_upsert op kind res role rid actor reason o _ Hf Hb Hfr) as (Hn & Hout & _). split; [done|].
    intros op' kind' res' r Hex [Hr Hrev]. split; [|done]. destruct (Hout _ _ Hr) as [?|(_ & _ & Heq)]; [done|].
    apply subject_key_inj in Heq as (-> & -> & ->). congruence.
  - pose proof (wp_unbind id rid actor reason o _ Hf Hb) as (Hn & Hout & _). split; [done|].
    intros op' kind' res' r Hex [Hr Hrev]. split; [by apply Hout|done].
  - pose proof (wp_perform_fleet q rid oper reason o _ Hf Hfr) as [Hst _]. destruct (Hst Hf) as [Hf' Hi].
    destruct (role_leaves _ _ (perform_fleet_roles q rid oper reason o _) Hb) as [Hb' Hout].
    split; [by split|]. intros op kind res r _ [Hr Hrev]. split; [by apply Hout|done].
  - destruct (Hst Hf) as [Hf' Hi]. destruct (role_leaves _ _ Hag Hb) as [Hb' Hout].
    split; [by split|]. intros op kind res r _ [Hr Hrev]. split; [by apply Hout|done].
Qed.

Lemma role_runs_step except w w' :
  rtc (role_run except) w w' → fleet_ok (vw w) → bindings_ok (vw w) → role_next (vw w) (vw w') ∧ stays_out except (vw w) (vw w').
Proof.
  induction 1 as [w|w w1 w2 Hs _ IH]; intros Hf Hb; [split; [by apply role_same|by intros ? ? ? ? _]|].
  destruct (role_run_step _ _ _ Hs Hf Hb) as [[Hf1 Hb1 Hi1] Ho1]. destruct (IH Hf1 Hb1) as [[Hf2 Hb2 Hi2] Ho2].
  split; [split; [done|done|]|].
  - intros k v Hk Hv. by apply Hi2, Hi1.
  - intros op kind res r Hex Hr. apply (Ho1 _ _ _ _ Hex), (Ho2 _ _ _ _ Hex), Hr.
Qed.

(** ** Authorization *)

Definition is_fleet_key (k : str) : bool := starts_with #"fleet:" k.

Lemma off_log_fleet : off_log is_fleet_key.
Proof. intros k Hk. apply starts_with_spec in Hk as [x ->]. done. Qed.

Lemma authenticate_fleet self headers : moves (agree_on (λ k, is_fleet_key k = true)) (authenticate self headers).
Proof.
  unfold authenticate. moves_go.
  - by apply moves_map_err, session_leaves.
  - apply moves_map_err, ensure_operator_leaves; [exact off_log_fleet|done..].
Qed.

(** Everything above is kept under the fleet's keys. *)
Lemma fleet_agree m m' : agree_on (λ k, is_fleet_key k = true) m m' → fleet_ok m → bindings_ok m → fleet_ok m' ∧ bindings_ok m'.
Proof.
  intros Hag Hf Hb.
  assert (Hsub : ∀ k, is_record_key k || is_index_key k || is_role_key k = true → m' !! k = m !! k).
  { intros k Hk. apply Hag. unfold is_record_key, is_index_key, is_role_key in Hk. rewrite !orb_true_iff in Hk.
    destruct_or!; apply starts_with_spec in Hk as [x ->]; done. }
  split.
  - refine (proj1 (elsewhere_step [] m m' _ _ Hf)); [done|]. split.
    + intros k Hk _. apply Hsub. by rewrite Hk.
    + intros k v Hk Hv. rewrite Hsub; [done|]. by rewrite Hk, orb_true_r.
    + intros rid e He. rewrite Hsub in He by done. by eapply fk_requests.
  - eapply role_leaves; [|done]. intros k Hk. apply Hsub. by rewrite Hk, orb_true_r.
Qed.

Lemma held_agree m m' op kind res role : agree_on (λ k, is_fleet_key k = true) m m' →
  held m' op kind res role → held m op kind res role.
Proof.
  intros Hag (kind' & res' & r & Hc & [[Hh Hs] Hrev] & Hrole). exists kind', res', r. split_and!; [|split; [split|]|]; try done.
  - destruct Hc as [Hc|Hc]; [by left|right]. destruct kind; [done|..]; destruct Hc as (x & Hx & Hres); exists x; (split; [|done]);
      unfold holds; by rewrite <- Hag.
  - unfold holds. by rewrite <- Hag.
Qed.

(** A fleet request is let through for the console role or for a delegated one. *)
Definition fleet_granted (m : gmap str entry) (a : OperatorActor) (capability : OperatorCapability)
    (kind : FleetResourceKindRecord) (res : Uuid) : Prop :=
  allows (op_role (actor_operator a)) capability = true ∨
  ∃ role, held m (u_id (actor_user a)) kind res role ∧ fleet_allows role capability = true.

Lemma wp_authorize_fleet self headers capability kind res o w (Q : result ConnectError OperatorActor → world → Prop) :
  accounts_ok (vw w) → grants_persist (vw w) → fleet_ok (vw w) → bindings_ok (vw w) →
  (∀ e w', agree_on (λ k, is_fleet_key k = true) (vw w) (vw w') → Q (Err e) w') →
  (∀ a w', agree_on (λ k, is_fleet_key k = true) (vw w) (vw w') → authenticated_as self headers (vw w) (vw w') a →
     fleet_granted (vw w) a capability kind res → confirmed o capability (actor_session a) → Q (Ok a) w') →
  wp (authorize_fleet self headers capability kind res) o w Q.
Proof.
  intros Hacc Hg Hf Hb He Hok. apply wp_bind. pose proof (authenticate_fleet self headers o w) as Hag.
  pose proof (wp_authenticate self headers o w Hacc Hg) as Hau. unfold wp in Hau |- *.
  destruct (authenticate self headers o w) as [[a|e] w1]; simpl in *; [|by apply He]. specialize (Hau a eq_refl).
  destruct (fleet_agree _ _ Hag Hf Hb) as [Hf1 Hb1].
  assert (Hdone : ∀ w2, undisturbed w1 w2 → fleet_granted (vw w) a capability kind res →
    wp (require_step_up_for capability (actor_session a);; mret a) o w2 Q).
  { intros w2 [Hv2 _] Hgr. rewrite <- Hv2 in Hag, Hau.
    apply wp_bind, wp_require_step_up; [intros e w3 [Hv3 _]; apply He; by rewrite Hv3|].
    intros w3 [Hv3 _] Hc. rewrite <- Hv3 in Hag, Hau. by apply wp_ret, Hok. }
  destruct (allows _ capability) eqn:Hal; [apply Hdone; [done|by left]|].
  apply wp_bind, wp_map_err, wp_effective_role; [done|done|intros e w2 [Hv2 _]; apply He; by rewrite Hv2|].
  intros x w2 Hw2 Heff. assert (Hdeny : Q (Err operator_denied) w2) by (apply He; by rewrite (proj1 Hw2)).
  destruct x as [role|]; [|exact Hdeny]. destruct (fleet_allows role capability) eqn:Hfa; [|exact Hdeny].
  apply Hdone; [done|]. right. exists role. split; [|done]. by eapply held_agree, Heff.
Qed.

(** The fleet role an actor acts with on a resource. *)
Definition authority (m : gmap str entry) (a : OperatorActor) (kind : FleetResourceKindRecord) (res : Uuid)
    (role : FleetRoleRecord) : Prop :=
  match op_role (actor_operator a) with
  | Owner => role = FleetOwner
  | Administrator => role = FleetAdministrator
  | Support | Auditor => effective m (u_id (actor_user a)) kind res (Some role)
  end.

Lemma wp_dominance self a kind res target o w (Q : result ConnectError unit → world → Prop) :
  fleet_ok (vw w) → bindings_ok (vw w) → (∀ e w', undisturbed w w' → Q (Err e) w') →
  (∀ role w', undisturbed w w' → authority (vw w) a kind res role → fleet_role_rank role ≤ fleet_role_rank target → Q (Ok tt) w') →
  wp (require_fleet_role_dominance self a kind res target) o w Q.
Proof.
  intros Hf Hb He Hok. unfold require_fleet_role_dominance, authority in *. apply wp_bind.
  assert (Hfin : ∀ role w', undisturbed w w' → (fleet_role_rank role ≤ fleet_role_rank target → Q (Ok tt) w') →
    wp (ensure (negb (fleet_role_rank target <? fleet_role_rank role))
          (permission_denied "operator role does not dominate the requested Fleet role")) o w' Q).
  { intros role w' Hw' HQ. apply wp_ensure; intros Hle; [apply HQ; lia|by apply He]. }
  assert (Hdel : (∀ role w', undisturbed w w' → effective (vw w) (u_id (actor_user a)) kind res (Some role) →
      fleet_role_rank role ≤ fleet_role_rank target → Q (Ok tt) w') →
    wp (role ← map_err internal (fleet_effective_role (u_id (actor_user a)) kind res);
        some_or (permission_denied "operator access denied") role) o w
      (λ r w', match r with Ok role => wp (ensure (negb (fleet_role_rank target <? fleet_role_rank role))
          (permission_denied "operator role does not dominate the requested Fleet role")) o w' Q | Err e => Q (Err e) w' end)).
  { intros HQ. apply wp_bind, wp_map_err, wp_effective_role; [done|done|by intros; apply He|]. intros x w1 H1 Hx.
    apply wp_some_or; [|by intros; apply He]. intros role ->. apply Hfin; [done|]. by eapply HQ. }
  destruct (op_role (actor_operator a)); [apply wp_ret, Hfin; [done|]; by apply Hok..|by apply Hdel|by apply Hdel].
Qed.

(** ** Frames *)

Lemma upsert_role_leaves P op kind res role rid actor reason :
  (∀ k, is_role_key k || is_index_key k || starts_with AUDIT_PREFIX k = true → P k = false) →
  leaves P (upsert_fleet_role_binding op kind res role rid actor reason).
Proof.
  intros HP. eapply idempotent_leaves; [done|]. unfold leaves, ensure_fleet_resource, fleet_organization, fleet_project,
    fleet_environment, fleet_role_binding. moves_go;
    try (eapply moves_mono; [|first [apply resource_organization_id_reads|apply resource_project_id_reads]]; by intros ?? ->);
    (apply leaves_persist; [by apply HP|intros ? ? [= <- _]; by apply HP|intros; by apply HP|intros; by apply HP]).
Qed.

Lemma revoke_role_leaves P id rid actor reason :
  (∀ k, is_role_key k || is_index_key k || starts_with AUDIT_PREFIX k = true → P k = false) →
  leaves P (revoke_fleet_role_binding id rid actor reason).
Proof.
  intros HP. eapply idempotent_leaves; [done|]. unfold leaves, fleet_role_binding. moves_go;
    try (eapply moves_mono; [|first [apply resource_organization_id_reads|apply resource_project_id_reads]]; by intros ?? ->);
    (apply leaves_persist; [by apply HP|done|intros; by apply HP|intros; by apply HP]).
Qed.

(** ** Properties *)

(** C5: a fleet request is let through only for an authenticated operator whose console
    role covers the capability, or who holds an unrevoked delegated role covering
    it on the very resource or on a project or organization the resource lies in;
    administration takes a passkey confirmed within five minutes in either case. *)
Theorem fleet_access_sound self headers capability kind res o w a w' :
  accounts_ok (vw w) → grants_persist (vw w) → fleet_ok (vw w) → bindings_ok (vw w) →
  authorize_fleet self headers capability kind res o w = (Ok a, w') →
  authenticated_as self headers (vw w) (vw w') a ∧ fleet_granted (vw w) a capability kind res ∧
  confirmed o capability (actor_session a).
Proof.
  intros Hacc Hg Hf Hb Hrun. enough (wp (authorize_fleet self headers capability kind res) o w (λ r w', ∀ a, r = Ok a →
    authenticated_as self headers (vw w) (vw w') a ∧ fleet_granted (vw w) a capability kind res ∧
    confirmed o capability (actor_session a))) as Hw.
  { unfold wp in Hw. rewrite Hrun in Hw. by apply Hw. }
  apply wp_authorize_fleet; [done..|]. by intros x w1 _ Hau Hgr Hc ? [= <-].
Qed.

(** Once a delegated role is revoked, its operator has no role of its own on that
    resource any more: nothing but a new upsert for the same operator and
    resource puts a binding in force again, whatever other grants, revocations
    and hierarchy changes follow. *)
Theorem revoked_role_final id rid actor reason o w r w1 w2 :
  fleet_ok (vw w) → bindings_ok (vw w) → vw w !! idempotency_key rid = None →
  revoke_fleet_role_binding id rid actor reason o w = (Ok r, w1) →
  rtc (role_run (Some (fb_operator_id r, fb_resource_kind r, fb_resource_id r))) w1 w2 →
  fb_id r = id ∧ ∀ x, ¬ in_force (vw w2) (fb_operator_id r) (fb_resource_kind r) (fb_resource_id r) x.
Proof.
  intros Hf Hb Hnew Hrun Hruns. pose proof (wp_unbind id rid actor reason o w Hf Hb) as Hw. unfold wp in Hw.
  rewrite Hrun in Hw. destruct Hw as ([Hf1 Hb1 _] & _ & Hok). destruct (Hok r eq_refl Hnew) as (Hid & Hbd & [t Hrev]).
  split; [done|]. intros x Hx. destruct (role_runs_step _ _ _ Hruns Hf1 Hb1) as [_ Hout].
  destruct (Hout _ _ _ _ eq_refl Hx) as [Hx1 Hnone]. rewrite (bound_inj _ _ _ _ Hb1 Hx1 Hbd) in Hnone. congruence.
Qed.
End FleetRoles.

(** ** Witnesses *)

Module DemoRoles.
Import DemoEnv DemoFleet.

#[export] Program Instance codec_resource_kind : Codec FleetResourceKindRecord :=
  codec_iso (A := N) (λ r, match r with KOrganization => 0 | KProject => 1 | KEnvironment => 2 end)
    (λ n : N, Some (if n =? 0 then KOrganization else if n =? 1 then KProject else KEnvironment)) _.
Next Obligation. by intros []. Qed.

Definition role_code (n : N) : FleetRoleRecord :=
  if n =? 0 then FleetOwner else if n =? 1 then FleetAdministrator else if n =? 2 then FleetOperator
  else if n =? 3 then FleetSupport else FleetAuditor.

#[export] Program Instance codec_fleet_role : Codec FleetRoleRecord :=
  codec_iso (A := N) fleet_role_rank (λ n, Some (role_code n)) _.
Next Obligation. by intros []. Qed.

#[export] Program Instance codec_role_binding : Codec FleetRoleBindingRecord :=
  codec_iso (λ r : FleetRoleBindingRecord, (fb_id r, (fb_operator_id r, (fb_resource_kind r, (fb_resource_id r, (fb_role r,
      (fb_created_by r, (fb_created_at r, (fb_revoked_by r, fb_revoked_at r)))))))))
    (λ '(a, (b, (c, (d, (e, (f, (g, (h, i)))))))), Some (mkBinding a b c d e f g h i)) _.
Next Obligation. by intros []. Qed.

(** The demo account holds the Support role on the console and is delegated the
    administration of an organization with one project. *)
Abbreviation demo_support := (promote_operator demo_store demo_id Support demo_oracle demo_signed_in.2).
Abbreviation demo_new_org :=
  (perform_fleet demo_org_request (demo_uuid_of 101) demo_operator #"setup" demo_oracle demo_support.2).
Definition demo_org : Uuid := Eval vm_compute in match demo_new_org.1 with Ok id => id | Err _ => demo_uuid_of 0 end.
Abbreviation demo_new_project :=
  (perform_fleet (CreateProject demo_org #"web" #"Web" []) (demo_uuid_of 102) demo_operator #"setup" demo_oracle demo_new_org.2).
Definition demo_project : Uuid := Eval vm_compute in match demo_new_project.1 with Ok id => id | Err _ => demo_uuid_of 0 end.
Abbreviation demo_delegated :=
  (upsert_fleet_role_binding demo_id KOrganization demo_org FleetAdministrator (demo_uuid_of 103) demo_operator #"setup"
     demo_oracle demo_new_project.2).
Definition demo_binding : Uuid := Eval vm_compute in match demo_delegated.1 with Ok r => fb_id r | Err _ => demo_uuid_of 0 end.
Abbreviation demo_delegated_access :=
  (authorize_fleet demo_authorizer demo_console_headers CapAdminister KProject demo_project demo_oracle demo_delegated.2).
Abbreviation demo_unbound :=
  (revoke_fleet_role_binding demo_binding (demo_uuid_of 104) demo_operator #"done" demo_oracle demo_delegated.2).

(** Accounts, fleet and bindings are well formed there. *)
Record demo_state (w : world) : Prop := {
  ds_accounts : accounts_ok (vw w);
  ds_grants : grants_persist (vw w);
  ds_fleet : fleet_ok (vw w);
  ds_bindings : bindings_ok (vw w)
}.

(** Keys of accounts and of operators, which the fleet's operations leave alone. *)
Definition is_console_key (k : str) : bool := is_account_key k || starts_with OPERATOR_PREFIX k.

Lemma console_apart k : is_console_key k = true → is_fleet_key k = false.
Proof.
  unfold is_console_key, is_account_key. rewrite !orb_true_iff. intros Hk.
  destruct_or!; apply starts_with_spec in Hk as [x ->]; done.
Qed.

Lemma fleet_writes_apart k :
  is_record_key k || is_role_key k || is_index_key k || starts_with AUDIT_PREFIX k = true → is_console_key k = false.
Proof.
  intros Hk. destruct (is_console_key k) eqn:Hc; [|done]. apply console_apart in Hc.
  unfold is_record_key, is_role_key, is_index_key in Hk. rewrite !orb_true_iff in Hk.
  destruct_or!; apply starts_with_spec in Hk as [x ->]; done.
Qed.

Lemma perform_fleet_console q rid oper reason : leaves is_console_key (perform_fleet q rid oper reason).
Proof.
  apply perform_fleet_leaves. intros k Hk. destruct (is_record_key k || is_index_key k || _) eqn:Hf; [|done].
  rewrite fleet_writes_apart in Hk; [done|]. rewrite !orb_true_iff in *. tauto.
Qed.

Lemma upsert_console op kind res role rid actor reason :
  leaves is_console_key (upsert_fleet_role_binding op kind res role rid actor reason).
Proof. apply upsert_role_leaves. intros k Hk. apply fleet_writes_apart. rewrite !orb_true_iff in *. tauto. Qed.

Lemma demo_state_step w w' :
  demo_state w → agree_on (λ k, is_console_key k = true) (vw w) (vw w') → role_run None w w' → demo_state w'.
Proof.
  intros [Ha Hg Hf Hb] Hag Hrun. destruct (role_run_step _ _ _ Hrun Hf Hb) as [[Hf' Hb' _] _]. split; [| |done|done].
  - eapply accounts_ok_agree; [|done]. intros k Hk. apply Hag. unfold is_console_key. by rewrite Hk.
  - intros id e He. rewrite Hag in He; [by eapply Hg|]. unfold is_console_key, operator_key, starts_with.
    by rewrite strip_prefix_app, orb_true_r.
Qed.

(** A state without any fleet record. *)
Lemma no_fleet m : (∀ k, is_fleet_key k = true → m !! k = None) → fleet_ok m ∧ bindings_ok m.
Proof.
  intros Hm. split; split; try (intros id e He; by rewrite Hm in He). intros op kind res e He. by rewrite Hm in He.
Qed.

Lemma demo_support_state : demo_state demo_support.2.
Proof.
  assert (Hno : ∀ k, is_fleet_key k = true → vw demo_support.2 !! k = None).
  { intros k Hk. destruct (vw _ !! k) as [e|] eqn:He; [|done].
    pose proof (demo_view_forall demo_support.2 (λ p, negb (is_fleet_key p.1)) k e ltac:(eval_eq) He) as Hall.
    cbn [fst] in Hall. by rewrite Hk in Hall. }
  apply no_fleet in Hno as [Hf Hb]. split; [|apply demo_grants; eval_eq|done|done].
  eapply accounts_ok_agree; [|exact demo_signed_in_accounts].
  exact (promote_operator_accounts demo_store demo_id Support demo_oracle demo_signed_in.2).
Qed.

Lemma demo_delegated_state : demo_state demo_delegated.2.
Proof.
  eapply demo_state_step; [|apply upsert_console|apply rr_upsert; [done|unfold fresh_id; eval_eq]].
  eapply demo_state_step; [|apply perform_fleet_console|apply rr_fleet; unfold fresh_for, fresh_id; eval_eq].
  eapply demo_state_step; [|apply perform_fleet_console|apply rr_fleet; unfold demo_org_request, fresh_for, fresh_id; eval_eq].
  exact demo_support_state.
Qed.

Lemma fleet_access_sound_witness :
  ∃ a, demo_delegated_access = (Ok a, demo_delegated_access.2) ∧ allows (op_role (actor_operator a)) CapAdminister = false ∧
    fleet_granted (vw demo_delegated.2) a CapAdminister KProject demo_project.
Proof.
  assert (Hok : match demo_delegated_access.1 with Ok a => negb (allows (op_role (actor_operator a)) CapAdminister) | Err _ => false end
    = true) by eval_eq.
  destruct (demo_delegated_access.1) as [a|e] eqn:Hr; [|discriminate Hok].
  assert (Hrun : demo_delegated_access = (Ok a, demo_delegated_access.2)) by (rewrite <- Hr; by destruct demo_delegated_access).
  exists a. split; [exact Hrun|]. split; [by apply negb_true_iff in Hok|]. destruct demo_delegated_state as [Ha Hg Hf Hb].
  exact (proj1 (proj2 (fleet_access_sound demo_authorizer demo_console_headers CapAdminister KProject demo_project demo_oracle
    demo_delegated.2 a demo_delegated_access.2 Ha Hg Hf Hb Hrun))).
Defined.

Lemma revoked_role_final_witness :
  ∃ r, demo_unbound = (Ok r, demo_unbound.2) ∧
    ∀ x, ¬ in_force (vw demo_unbound.2) (fb_operator_id r) (fb_resource_kind r) (fb_resource_id r) x.
Proof.
  assert (Hok : is_ok demo_unbound.1 = true) by eval_eq.
  destruct (demo_unbound.1) as [r|e] eqn:Hr; [|discriminate Hok].
  assert (Hrun : demo_unbound = (Ok r, demo_unbound.2)) by (rewrite <- Hr; by destruct demo_unbound).
  exists r. split; [exact Hrun|]. destruct demo_delegated_state as [Ha Hg Hf Hb].
  exact (proj2 (revoked_role_final demo_binding (demo_uuid_of 104) demo_operator #"done" demo_oracle demo_delegated.2 r
    demo_unbound.2 demo_unbound.2 Hf Hb ltac:(eval_eq) Hrun (rtc_refl _ _))).
Defined.
End DemoRoles.
