(* ===== verification/ManagementEndpoint.v ===== *)
(** * Management endpoints and sealed credentials (src/src/fleet_rpc.rs, src/src/telemetry.rs)

    Where the control plane may send a realm's credential: the checks on a
    management endpoint, the classification of addresses, the validation of what the
    name resolves to, the checks on a realm's self-description, and the encryption of
    realm credentials at rest. *)

From S2P Require Import Prelude Sable Logic Demo Records Bytes Events Identifiers Users Invitations Accounts Sessions Organization.
From S2P Require Import RateLimit WriterLease SigningKeys Guards OperatorAuth Fleet FleetConnections.

Inductive Environment := EnvDevelopment | EnvProduction.
#[global] Instance Environment_eq_dec : EqDecision Environment.
Proof. solve_decision. Defined.

(** ** The [url] crate *)

Record Url := mkUrl {
  url_scheme : str;
  url_username : str;
  url_password : option str;
  url_host_str : option str;
  url_port_or_known_default : option N;
  url_path : str;
  url_query : option str;
  url_fragment : option str;
  url_to_string : str
}.

Class ExtUrl := { url_parse : str → option Url }.

Definition invalid (message : String.string) : ConnectError := mkConnectError InvalidArgument message.
Definition invalid_connector (message : String.string) : ConnectError := mkConnectError InvalidArgument message.

#[global] Arguments invalid message%_string_scope.
#[global] Arguments invalid_connector message%_string_scope.

(** ** Addresses that are routed on the internet *)

Definition public_v4 (a b c d : N) : bool :=
  negb (((a =? 0) && (b =? 0) && (c =? 0) && (d =? 0))
        || ((a =? 10) || ((a =? 172) && (16 <=? b) && (b <=? 31)) || ((a =? 192) && (b =? 168)))
        || (a =? 127)
        || ((a =? 169) && (b =? 254))
        || ((a =? 255) && (b =? 255) && (c =? 255) && (d =? 255))
        || ((224 <=? a) && (a <=? 239))
        || (a =? 0)
        || ((a =? 100) && (64 <=? b) && (b <=? 127))
        || ((a =? 192) && (b =? 0) && (c =? 0))
        || ((a =? 192) && (b =? 0) && (c =? 2))
        || ((a =? 198) && ((b =? 18) || (b =? 19)))
        || ((a =? 198) && (b =? 51) && (c =? 100))
        || ((a =? 203) && (b =? 0) && (c =? 113))
        || (240 <=? a)).

(** [Ipv6Addr::octets] *)
Definition octets (groups : list N) : list N := flat_map (λ g, [g / 256; g mod 256]) groups.

Definition to_ipv4_mapped (groups : list N) : option (N * N * N * N) :=
  if bool_decide (take 12 (octets groups) = replicate 10 0 ++ [255; 255])
  then match drop 12 (octets groups) with
       | [a; b; c; d] => Some (a, b, c, d)
       | _ => None
       end
  else None.

Definition public_v6 (groups : list N) : bool :=
  match to_ipv4_mapped groups with
  | Some (a, b, c, d) => public_v4 a b c d
  | None =>
      let o i := nth i (octets groups) 0 in
      let blocked :=
        forallb (N.eqb 0) (octets groups)
        || (forallb (N.eqb 0) (take 15 (octets groups)) && (o 15%nat =? 1))
        || (o 0%nat =? 255)
        || (N.land (o 0%nat) 254 =? 252)
        || ((o 0%nat =? 254) && (N.land (o 1%nat) 192 =? 128))
        || ((o 0%nat =? 32) && (o 1%nat =? 1) && (o 2%nat =? 13) && (o 3%nat =? 184)) in
      negb blocked && (N.land (o 0%nat) 224 =? 32)
  end.

Definition public_address (ip : IpAddr) : bool :=
  match ip with
  | V4 a b c d => public_v4 a b c d
  | V6 groups => public_v6 groups
  end.

Definition ends_with (suffix s : str) : bool := starts_with (reverse suffix) (reverse s).

Definition public_management_host (host : str) : bool :=
  match parse_ip host with
  | Some ip => public_address ip
  | None =>
      let host := to_ascii_lowercase <$> trim_end_matches 46 host in
      contains_char 46 host
      && negb (bool_decide (host ∈ [lit "localhost"; lit "metadata.google.internal"; lit "metadata.amazonaws.com"]))
      && negb (existsb (λ suffix, ends_with suffix host)
                 [lit ".localhost"; lit ".local"; lit ".internal"; lit ".home.arpa"; lit ".invalid"])
  end.

Definition safe_management_endpoint `{ExtUrl} (value : str) (environment : Environment) : result ConnectError Url :=
  match url_parse (trim value) with
  | None => Err (invalid "management endpoint is invalid")
  | Some endpoint =>
      if negb (bool_decide (url_username endpoint = [])) || is_some (url_password endpoint)
         || is_some (url_query endpoint) || is_some (url_fragment endpoint)
         || negb (bool_decide (url_path endpoint = []) || bool_decide (url_path endpoint = #"/"))
      then Err (invalid "management endpoint must be an origin")
      else match url_host_str endpoint with
      | None => Err (invalid "management endpoint has no host")
      | Some host =>
          if bool_decide (environment = EnvProduction) && negb (public_management_host host)
          then Err (invalid "management endpoint must use a public host")
          else if bool_decide (url_scheme endpoint = #"https") then Ok endpoint
          else if bool_decide (url_scheme endpoint = #"http") && bool_decide (environment = EnvDevelopment)
                  && (bool_decide (host ∈ [lit "localhost"; lit "127.0.0.1"; lit "::1"; lit "host.docker.internal"])
                      || negb (contains_char 46 host))
          then Ok endpoint
          else Err (invalid "management endpoint must use HTTPS")
      end
  end.

(** ** Resolution *)

Record SocketAddr := mkSocketAddr { sa_ip : IpAddr; sa_port : N; sa_flowinfo : N; sa_scope_id : N }.
#[global] Instance SocketAddr_eq_dec : EqDecision SocketAddr.
Proof. solve_decision. Defined.

(** The derived order: IPv4 before IPv6, then field by field. *)
Definition address_key (a : SocketAddr) : list N :=
  match sa_ip a with
  | V4 x y z u => [0; x; y; z; u; sa_port a]
  | V6 groups => 1 :: groups ++ [sa_port a; sa_flowinfo a; sa_scope_id a]
  end.

(** [Vec::dedup]: drop what equals its predecessor. *)
Fixpoint dedup {A : Type} `{EqDecision A} (l : list A) : list A :=
  match l with
  | [] => []
  | x :: l' => match l' with
               | y :: _ => if bool_decide (x = y) then dedup l' else x :: dedup l'
               | [] => [x]
               end
  end.

(** Displaying an address and parsing it again gives the address, so the host check
    on its text is the check on the address. *)
Definition validated_management_addresses (addresses : list SocketAddr) (environment : Environment) :
    result ConnectError (list SocketAddr) :=
  let addresses := dedup (sort_by (λ a b, lex_ltb (address_key a) (address_key b)) addresses) in
  match addresses with
  | [] => Err (mkConnectError Unavailable "management endpoint DNS returned no addresses")
  | _ =>
      if bool_decide (environment = EnvProduction) && existsb (λ a, negb (public_address (sa_ip a))) addresses
      then Err (invalid "management endpoint DNS resolved to a non-public address")
      else Ok addresses
  end.

(** [management_client] up to the transport: the endpoint and the addresses its
    connections are pinned to.  [lookup_host] is the resolver's answer, if it
    comes within the time limit. *)
Definition management_client `{ExtUrl} (endpoint : str) (environment : Environment)
    (lookup_host : str → N → option (option (list SocketAddr))) : result ConnectError (Url * list SocketAddr) :=
  match safe_management_endpoint endpoint environment with
  | Err e => Err e
  | Ok url =>
      match url_host_str url with
      | None => Err (invalid "stored management endpoint has no host")
      | Some host =>
          match url_port_or_known_default url with
          | None => Err (invalid "stored management endpoint has no port")
          | Some port =>
              match lookup_host host port with
              | None => Err (mkConnectError Unavailable "management endpoint DNS timed out")
              | Some None => Err (mkConnectError Unavailable "management endpoint DNS failed")
              | Some (Some addresses) =>
                  match validated_management_addresses addresses environment with
                  | Err e => Err e
                  | Ok addresses => Ok (url, addresses)
                  end
              end
          end
      end
  end.

(** ** What a realm says about itself *)

Record RealmDiscovery := mkDiscovery {
  rd_realm_id : str;
  rd_deployment_version : str;
  rd_management_protocol_version : str;
  rd_issuer : str;
  rd_rp_id : str;
  rd_pairing_supported : bool;
  rd_outbound_connector_supported : bool;
  rd_capabilities : list (str * N)
}.

Definition capability_invalid (c : str * N) : bool :=
  bool_decide (c.1 = []) || (128 <? len c.1) || (c.2 =? 0)
  || negb (forallb (λ b, is_ascii_alphanumeric b || (b =? 46) || (b =? 45) || (b =? 95)) (bytes c.1)).

Definition discovery_text_invalid (value : str) : bool :=
  bool_decide (value = []) || (512 <? len value) || existsb is_control value.

Definition validate_management_discovery `{ExtUrl} (discovery : RealmDiscovery) (require_outbound_connector : bool) :
    result ConnectError unit :=
  if bool_decide (rd_realm_id discovery = []) || (128 <? len (rd_realm_id discovery))
     || negb (forallb (λ b, is_ascii_alphanumeric b || (b =? 45) || (b =? 95)) (bytes (rd_realm_id discovery)))
     || negb (bool_decide (rd_management_protocol_version discovery = #"1"))
     || negb (rd_pairing_supported discovery)
     || (require_outbound_connector && negb (rd_outbound_connector_supported discovery))
     || bool_decide (rd_capabilities discovery = []) || (32 <? N.of_nat (length (rd_capabilities discovery)))
     || existsb capability_invalid (rd_capabilities discovery)
  then Err (invalid_connector "realm discovery is invalid")
  else if existsb discovery_text_invalid [rd_deployment_version discovery; rd_issuer discovery; rd_rp_id discovery]
  then Err (invalid_connector "realm discovery is invalid")
  else match url_parse (rd_issuer discovery) with
  | None => Err (invalid_connector "realm discovery issuer is invalid")
  | Some issuer =>
      match url_host_str issuer with
      | None => Err (invalid_connector "realm discovery issuer is invalid")
      | Some issuer_host =>
          if negb (bool_decide (url_username issuer = [])) || is_some (url_password issuer)
             || is_some (url_query issuer) || is_some (url_fragment issuer)
             || negb (bool_decide (url_path issuer = []) || bool_decide (url_path issuer = #"/"))
             || negb (bool_decide (url_scheme issuer = #"https")
                      || (bool_decide (url_scheme issuer = #"http")
                          && bool_decide (issuer_host ∈ [lit "localhost"; lit "127.0.0.1"; lit "::1"])))
          then Err (invalid_connector "realm discovery issuer is invalid")
          else Ok tt
      end
  end.

(** ** Credentials at rest *)

Section Credentials.
Context `{Env, !ExtSigning}.

Definition fleet_credential_aad (connection_id : Uuid) (key_id : str) : str :=
  #"rustyauth-fleet-credential-v1" ++ #":" ++ uuid_show connection_id ++ #":" ++ key_id.

Definition seal_fleet_credential (keys : KeyRing) (connection_id : Uuid) (credential : str) :
    M ConnectError EncryptedFleetCredential :=
  let '(mkKeyEntry key_id key) := kr_active keys in
  nonce ← random_bytes 12;
  ciphertext ← some_or (mkConnectError Internal "encrypt realm credential")
    (aes_encrypt key nonce (bytes credential) (fleet_credential_aad connection_id key_id));
  mret (mkFleetCredential key_id (b64url_encode nonce) (b64url_encode ciphertext)).

Definition open_fleet_credential (keys : KeyRing) (connection_id : Uuid) (encrypted : EncryptedFleetCredential) :
    result ConnectError str :=
  match keyring_get keys (ef_wrapping_key_id encrypted) with
  | None => Err (mkConnectError FailedPrecondition "realm credential requires an unavailable wrapping key")
  | Some key =>
      match b64url_decode (ef_nonce encrypted) with
      | None => Err (mkConnectError DataLoss "decode realm credential nonce")
      | Some nonce =>
          if negb (length nonce =? 12)%nat
          then Err (mkConnectError DataLoss "realm credential nonce has wrong length")
          else match b64url_decode (ef_ciphertext encrypted) with
          | None => Err (mkConnectError DataLoss "decode encrypted realm credential")
          | Some ciphertext =>
              match aes_decrypt key nonce ciphertext (fleet_credential_aad connection_id (ef_wrapping_key_id encrypted)) with
              | None => Err (mkConnectError DataLoss "decrypt realm credential")
              | Some plaintext => ok_or (mkConnectError DataLoss "realm credential is invalid") (from_utf8 plaintext)
              end
          end
      end
  end.
End Credentials.

(** ** The address classification by prefixes *)

(** The 32-bit value of an address, and membership in a prefix. *)
Definition v4_value (a b c d : N) : N := be_value [a; b; c; d].

Record Cidr := mkCidr { cidr_base : N; cidr_length : N }.
Definition in_cidr (x : N) (p : Cidr) : bool :=
  N.shiftr x (32 - cidr_length p) =? N.shiftr (cidr_base p) (32 - cidr_length p).

(** The special-purpose blocks: this network, private use, shared address space,
    loopback, link local, protocol assignments, documentation, benchmarking,
    multicast, reserved and broadcast. *)
Definition reserved_v4 : list Cidr :=
  [mkCidr (v4_value 0 0 0 0) 8; mkCidr (v4_value 10 0 0 0) 8; mkCidr (v4_value 100 64 0 0) 10;
   mkCidr (v4_value 127 0 0 0) 8; mkCidr (v4_value 169 254 0 0) 16; mkCidr (v4_value 172 16 0 0) 12;
   mkCidr (v4_value 192 0 0 0) 24; mkCidr (v4_value 192 0 2 0) 24; mkCidr (v4_value 192 168 0 0) 16;
   mkCidr (v4_value 198 18 0 0) 15; mkCidr (v4_value 198 51 100 0) 24; mkCidr (v4_value 203 0 113 0) 24;
   mkCidr (v4_value 224 0 0 0) 4; mkCidr (v4_value 240 0 0 0) 4].

Definition is_octet (b : N) : Prop := b < 256.

Lemma v4_shift_24 a b c d : is_octet b → is_octet c → is_octet d → N.shiftr (v4_value a b c d) 24 = a.
Proof.
  unfold is_octet, v4_value, be_value. intros Hb Hc Hd. rewrite N.shiftr_div_pow2. cbn [foldl].
  symmetry. apply (N.div_unique _ _ _ (b * 65536 + c * 256 + d)); change (2 ^ 24) with 16777216; lia.
Qed.

Lemma v4_shift_16 a b c d : is_octet c → is_octet d → N.shiftr (v4_value a b c d) 16 = a * 256 + b.
Proof.
  unfold is_octet, v4_value, be_value. intros Hc Hd. rewrite N.shiftr_div_pow2. cbn [foldl].
  symmetry. apply (N.div_unique _ _ _ (c * 256 + d)); change (2 ^ 16) with 65536; lia.
Qed.

Lemma v4_shift_8 a b c d : is_octet d → N.shiftr (v4_value a b c d) 8 = a * 65536 + b * 256 + c.
Proof.
  unfold is_octet, v4_value, be_value. intros Hd. rewrite N.shiftr_div_pow2. cbn [foldl].
  symmetry. apply (N.div_unique _ _ _ d); change (2 ^ 8) with 256; lia.
Qed.

(** Prefixes that end inside an octet. *)
Lemma v4_shift_mid k a b c d :
  is_octet c → is_octet d → N.shiftr (v4_value a b c d) (16 + k) = (a * 256 + b) / 2 ^ k.
Proof. intros Hc Hd. by rewrite <- N.shiftr_shiftr, v4_shift_16, N.shiftr_div_pow2. Qed.

(** Each block in terms of octets. *)
Lemma cidr_8 base a b c d :
  is_octet b → is_octet c → is_octet d → in_cidr (v4_value a b c d) (mkCidr (v4_value base 0 0 0) 8) = (a =? base).
Proof.
  intros Hb Hc Hd. unfold in_cidr. cbn [cidr_base cidr_length]. change (32 - 8) with 24.
  by rewrite !v4_shift_24 by (unfold is_octet in *; lia).
Qed.

Lemma cidr_16 a' b' a b c d :
  is_octet b → is_octet b' → is_octet c → is_octet d →
  in_cidr (v4_value a b c d) (mkCidr (v4_value a' b' 0 0) 16) = (a =? a') && (b =? b').
Proof.
  intros Hb Hb' Hc Hd. unfold in_cidr. cbn [cidr_base cidr_length]. change (32 - 16) with 16.
  rewrite !v4_shift_16 by (unfold is_octet in *; lia). unfold is_octet in *. lia.
Qed.

Lemma cidr_24 a' b' c' a b c d :
  is_octet b → is_octet b' → is_octet c → is_octet c' → is_octet d →
  in_cidr (v4_value a b c d) (mkCidr (v4_value a' b' c' 0) 24) = (a =? a') && (b =? b') && (c =? c').
Proof.
  intros Hb Hb' Hc Hc' Hd. unfold in_cidr. cbn [cidr_base cidr_length]. change (32 - 24) with 8.
  rewrite !v4_shift_8 by (unfold is_octet in *; lia). unfold is_octet in *. lia.
Qed.

(** Prefixes that end inside an octet. *)
Ltac cidr_inside k q :=
  intros Hb Hc Hd; unfold in_cidr; cbn [cidr_base cidr_length];
  match goal with |- context [32 - ?l] => change (32 - l) with (16 + k) end;
  rewrite !v4_shift_mid by (unfold is_octet in *; lia); change (2 ^ k) with q; unfold is_octet in *;
  match goal with |- context [(?a * 256 + ?b) / q] => pose proof (N.div_mod (a * 256 + b) q ltac:(lia));
    pose proof (N.mod_lt (a * 256 + b) q ltac:(lia)) end;
  match goal with |- context [?x =? ?y] => let v := eval vm_compute in y in change y with v end; lia.

Lemma cidr_shared a b c d : is_octet b → is_octet c → is_octet d →
  in_cidr (v4_value a b c d) (mkCidr (v4_value 100 64 0 0) 10) = (a =? 100) && (64 <=? b) && (b <=? 127).
Proof. cidr_inside 6 64. Qed.
Lemma cidr_private a b c d : is_octet b → is_octet c → is_octet d →
  in_cidr (v4_value a b c d) (mkCidr (v4_value 172 16 0 0) 12) = (a =? 172) && (16 <=? b) && (b <=? 31).
Proof. cidr_inside 4 16. Qed.
Lemma cidr_benchmark a b c d : is_octet b → is_octet c → is_octet d →
  in_cidr (v4_value a b c d) (mkCidr (v4_value 198 18 0 0) 15) = (a =? 198) && ((b =? 18) || (b =? 19)).
Proof. cidr_inside 1 2. Qed.
Lemma cidr_multicast a b c d : is_octet b → is_octet c → is_octet d →
  in_cidr (v4_value a b c d) (mkCidr (v4_value 224 0 0 0) 4) = (224 <=? a) && (a <=? 239).
Proof. cidr_inside 12 4096. Qed.
Lemma cidr_reserved a b c d : is_octet b → is_octet c → is_octet d →
  in_cidr (v4_value a b c d) (mkCidr (v4_value 240 0 0 0) 4) = (240 <=? a) && (a <=? 255).
Proof. cidr_inside 12 4096. Qed.

(** The checks on the octets are the checks on the prefixes. *)
Lemma public_v4_ranges a b c d :
  is_octet a → is_octet b → is_octet c → is_octet d →
  public_v4 a b c d = negb (existsb (in_cidr (v4_value a b c d)) reserved_v4).
Proof.
  intros Ha Hb Hc Hd. unfold reserved_v4. cbn [existsb].
  rewrite !cidr_8, !cidr_16, !cidr_24, cidr_shared, cidr_private, cidr_benchmark, cidr_multicast, cidr_reserved by done.
  unfold public_v4. f_equal. unfold is_octet in *.
  assert (H255 : (a =? 255) = true → (240 <=? a) = true) by lia. assert (Htop : (a <=? 255) = true) by lia. rewrite Htop, orb_false_r, andb_true_r.
  apply eq_true_iff_eq. rewrite !orb_true_iff, !andb_true_iff, ?orb_true_iff. tauto.
Qed.

(** An address of the internet: outside the special-purpose IPv4 blocks; or in
    2000::/3, outside the documentation block 2001:db8::/32; an IPv4-mapped address
    counts as its IPv4 address. *)
Definition routable (ip : IpAddr) : bool :=
  match ip with
  | V4 a b c d => negb (existsb (in_cidr (v4_value a b c d)) reserved_v4)
  | V6 [g0; g1; g2; g3; g4; g5; g6; g7] =>
      if (g0 =? 0) && (g1 =? 0) && (g2 =? 0) && (g3 =? 0) && (g4 =? 0) && (g5 =? 65535)
      then negb (existsb (in_cidr (g6 * 65536 + g7)) reserved_v4)
      else (8192 <=? g0) && (g0 <? 16384) && negb ((g0 =? 8193) && (g1 =? 3512))
  | V6 _ => false
  end.

Definition ip_wf (ip : IpAddr) : Prop :=
  match ip with
  | V4 a b c d => is_octet a ∧ is_octet b ∧ is_octet c ∧ is_octet d
  | V6 groups => length groups = 8%nat ∧ Forall (λ g, g < 65536) groups
  end.

(** A check on all bytes. *)
Lemma bytes_forall (p : N → bool) : forallb p (N.of_nat <$> seq 0 256) = true → ∀ b, is_octet b → p b = true.
Proof.
  rewrite forallb_forall. intros Hp b Hb. apply Hp, list_elem_of_In, list_elem_of_fmap. exists (N.to_nat b).
  split; [lia|]. apply elem_of_seq. unfold is_octet in Hb. lia.
Qed.

Lemma top_bits b : is_octet b → (N.land b 224 =? 32) = ((32 <=? b) && (b <? 64)).
Proof.
  intros Hb. apply eqb_prop. revert b Hb.
  apply (bytes_forall (λ b, eqb (N.land b 224 =? 32) ((32 <=? b) && (b <? 64)))). vm_compute. reflexivity.
Qed.

Lemma local_bits b : is_octet b → (N.land b 254 =? 252) = ((252 <=? b) && (b <? 254)).
Proof.
  intros Hb. apply eqb_prop. revert b Hb.
  apply (bytes_forall (λ b, eqb (N.land b 254 =? 252) ((252 <=? b) && (b <? 254)))). vm_compute. reflexivity.
Qed.

Lemma split_group g : g < 65536 → is_octet (g / 256) ∧ is_octet (g mod 256) ∧ g = g / 256 * 256 + g mod 256.
Proof.
  unfold is_octet. intros Hg. pose proof (N.div_mod g 256 ltac:(lia)). pose proof (N.mod_lt g 256 ltac:(lia)).
  assert (g / 256 < 256) by (apply N.Div0.div_lt_upper_bound; lia). lia.
Qed.

Lemma group_is h l g : g < 65536 → g / 256 = h → g mod 256 = l → g = h * 256 + l.
Proof. intros Hg <- <-. by apply split_group. Qed.

Lemma mapped_spec g0 g1 g2 g3 g4 g5 g6 g7 :
  Forall (λ g, g < 65536) [g0; g1; g2; g3; g4; g5; g6; g7] →
  to_ipv4_mapped [g0; g1; g2; g3; g4; g5; g6; g7] =
  if (g0 =? 0) && (g1 =? 0) && (g2 =? 0) && (g3 =? 0) && (g4 =? 0) && (g5 =? 65535)
  then Some (g6 / 256, g6 mod 256, g7 / 256, g7 mod 256) else None.
Proof.
  intros Hg. unfold to_ipv4_mapped, octets. cbn [flat_map app take drop replicate].
  match goal with |- (if ?x then _ else _) = (if ?y then _ else _) => assert (x = y) as ->; [|done] end.
  rewrite !Forall_cons in Hg. destruct Hg as (H0 & H1 & H2 & H3 & H4 & H5 & _).
  apply eq_true_iff_eq. rewrite bool_decide_eq_true, !andb_true_iff, !N.eqb_eq. split.
  - intros [= a0 b0 a1 b1 a2 b2 a3 b3 a4 b4 a5 b5].
    rewrite (group_is _ _ _ H0 a0 b0), (group_is _ _ _ H1 a1 b1), (group_is _ _ _ H2 a2 b2), (group_is _ _ _ H3 a3 b3),
      (group_is _ _ _ H4 a4 b4), (group_is _ _ _ H5 a5 b5). done.
  - intros (((((-> & ->) & ->) & ->) & ->) & ->). reflexivity.
Qed.

(** Inside 2000::/3 the only block refused is the one for documentation. *)
Lemma unicast_block g0 g1 rest last other :
  g0 < 65536 → g1 < 65536 →
  negb ((0 =? g0 / 256) && rest || ((0 =? g0 / 256) && other) && last || (g0 / 256 =? 255)
        || (N.land (g0 / 256) 254 =? 252) || ((g0 / 256 =? 254) && (N.land (g0 mod 256) 192 =? 128))
        || ((g0 / 256 =? 32) && (g0 mod 256 =? 1) && (g1 / 256 =? 13) && (g1 mod 256 =? 184)))
    && (N.land (g0 / 256) 224 =? 32)
  = (8192 <=? g0) && (g0 <? 16384) && negb ((g0 =? 8193) && (g1 =? 3512)).
Proof.
  intros H0 H1. apply split_group in H0 as (O0 & L0 & E0), H1 as (O1 & L1 & E1). rewrite top_bits, local_bits by done.
  set (h0 := g0 / 256) in *. set (l0 := g0 mod 256) in *. set (h1 := g1 / 256) in *. set (l1 := g1 mod 256) in *.
  clearbody h0 l0 h1 l1. unfold is_octet in *. subst g0 g1.
  replace (8192 <=? h0 * 256 + l0) with (32 <=? h0) by lia. replace (h0 * 256 + l0 <? 16384) with (h0 <? 64) by lia.
  replace (h0 * 256 + l0 =? 8193) with ((h0 =? 32) && (l0 =? 1)) by lia.
  replace (h1 * 256 + l1 =? 3512) with ((h1 =? 13) && (l1 =? 184)) by lia.
  destruct ((32 <=? h0) && (h0 <? 64)) eqn:Hr; [|by rewrite andb_false_r]. reflect.
  replace (0 =? h0) with false by lia. replace (h0 =? 255) with false by lia. replace (252 <=? h0) with false by lia.
  replace (h0 =? 254) with false by lia. cbn [andb orb]. rewrite andb_true_r. f_equal. by rewrite !andb_assoc.
Qed.

Lemma public_address_routable ip : ip_wf ip → public_address ip = routable ip.
Proof.
  destruct ip as [a b c d|groups]; cbn [public_address routable ip_wf]; [intros (? & ? & ? & ?); by apply public_v4_ranges|].
  intros [Hlen Hg]. destruct groups as [|g0 [|g1 [|g2 [|g3 [|g4 [|g5 [|g6 [|g7 [|]]]]]]]]]; try done.
  unfold public_v6. rewrite mapped_spec by done. rewrite !Forall_cons in Hg. destruct Hg as (H0 & H1 & _ & _ & _ & _ & H6 & H7 & _).
  match goal with |- context [if ?x then _ else _] => destruct x eqn:Hm end; clear Hm.
  - apply split_group in H6 as (? & ? & E6), H7 as (? & ? & E7). rewrite public_v4_ranges by done.
    replace (v4_value (g6 / 256) (g6 mod 256) (g7 / 256) (g7 mod 256)) with (g6 * 65536 + g7); [done|].
    unfold v4_value, be_value. cbn [foldl]. lia.
  - cbv zeta. unfold octets. cbn [flat_map app nth take forallb]. by apply unicast_block.
Qed.

Lemma dedup_elem {A : Type} `{EqDecision A} (x : A) l : x ∈ dedup l ↔ x ∈ l.
Proof.
  induction l as [|y l IH]; [done|]. destruct l as [|z l]; [done|]. cbn [dedup]. case_bool_decide as Hyz.
  - subst y. rewrite IH. set_solver.
  - rewrite !(elem_of_cons _ _ y), IH. done.
Qed.

(** ** Properties *)


(** A realm credential that was sealed for a connection opens for that connection
    to the same credential, as long as the wrapping key is in the ring. *)
Theorem credential_roundtrip `{Env, !ExtSigning} keys connection_id credential o w enc w' :
  forallb is_scalar credential = true →
  seal_fleet_credential keys connection_id credential o w = (Ok enc, w') →
  open_fleet_credential keys connection_id enc = Ok credential.
Proof.
  intros Hs. unfold seal_fleet_credential, open_fleet_credential. pose proof (keyring_get_active keys) as Hg.
  destruct (kr_active keys) as [kid key]. cbn [ke_id ke_key] in Hg.
  destruct (random_bytes_run (E := ConnectError) 12 o w) as (nonce & w1 & Hr & Hlen & Hb & _).
  unfold mbind, M_bind. rewrite Hr. unfold some_or, lift.
  destruct (aes_encrypt _ _ _ _) as [c|] eqn:Hc; cbn [ok_or]; [|done]. intros [= <- _].
  destruct (aes_decrypt_encrypt _ _ _ _ _ Hc) as [Hd Hcb]. cbn [ef_wrapping_key_id ef_nonce ef_ciphertext].
  rewrite Hg, (b64url_decode_encode nonce) by done. rewrite Hlen. cbn [Nat.eqb negb].
  rewrite (b64url_decode_encode c) by done. rewrite Hd. by rewrite from_utf8_bytes.
Qed.

(** ** Witnesses *)

Module DemoEndpoint.
Import DemoEnv DemoSigning.

(** A parser that knows one origin. *)
Definition demo_url : Url :=
  mkUrl #"https" [] None (Some #"auth.customer.example") (Some 443) #"/" None None #"https://auth.customer.example/".
#[export] Instance demo_url_parse : ExtUrl :=
  {| url_parse s := if bool_decide (s = #"https://auth.customer.example") then Some demo_url else None |}.

Definition demo_address : SocketAddr := mkSocketAddr (V4 1 1 1 1) 443 0 0.
Definition demo_lookup (host : str) (port : N) : option (option (list SocketAddr)) := Some (Some [demo_address; demo_address]).


(** One private answer fails the resolution. *)
Example private_answer_poisons :
  validated_management_addresses [demo_address; mkSocketAddr (V4 169 254 169 254) 443 0 0] EnvProduction =
  Err (invalid "management endpoint DNS resolved to a non-public address").
Proof. vm_compute. reflexivity. Qed.

(** The host of a URL with an IPv6 literal is bracketed, so that the literal is
    taken for a name without dots: no IPv6 literal is accepted, public or not. *)
Example ipv6_literal_refused :
  match parse_ip #"2606:4700:4700::1111" with Some ip => public_address ip | None => false end = true ∧
  public_management_host #"[2606:4700:4700::1111]" = false.
Proof. vm_compute. split; reflexivity. Qed.

Abbreviation demo_sealed := (seal_fleet_credential demo_ring (demo_uuid_of 500) #"rfg_secret" demo_oracle (demo_world [])).

Lemma credential_roundtrip_witness :
  ∃ enc, demo_sealed = (Ok enc, demo_sealed.2) ∧ open_fleet_credential demo_ring (demo_uuid_of 500) enc = Ok #"rfg_secret".
Proof.
  assert (Hok : is_ok demo_sealed.1 = true) by eval_eq.
  destruct (demo_sealed.1) as [enc|e] eqn:Hr; [|discriminate Hok].
  assert (Hrun : demo_sealed = (Ok enc, demo_sealed.2)) by (rewrite <- Hr; by destruct demo_sealed).
  exists enc. split; [exact Hrun|].
  exact (credential_roundtrip demo_ring (demo_uuid_of 500) #"rfg_secret" demo_oracle (demo_world []) enc demo_sealed.2
    ltac:(eval_eq) Hrun).
Defined.
End DemoEndpoint.
