(* ===== verification/Connector.v ===== *)
(** * The outbound connector (src/src/telemetry.rs, [outbound_command] of src/src/fleet_rpc.rs)

    A private realm dials the control plane and keeps a stream open; the control
    plane sends signed commands over it and the realm answers each with a signed
    response.  Both ends are modelled: frames and their signatures, the control
    plane's session with its table of outstanding commands, and the realm's
    execution of a command. *)

From S2P Require Import Prelude Sable Logic Demo Records Bytes Events Identifiers Users Invitations Accounts Sessions Organization.
From S2P Require Import RateLimit WriterLease SigningKeys Guards OperatorAuth Fleet FleetConnections ManagementEndpoint.
From S2P Require Import ServiceAccounts Management.

Definition CONNECTOR_COMMAND_QUEUE : nat := 32.
Definition CONNECTOR_SIGNATURE_DOMAIN : list N := #"rustyauth-connector-frame-v1" ++ [0].
Definition CAPABILITY_TELEMETRY_ROLLUPS_V1 : str := #"telemetry.rollups.v1".
Definition TELEMETRY_BATCH_TYPE : str := #"rustyauth.analytics.v1.TelemetryBucketBatch".
Definition TELEMETRY_ACK_TYPE : str := #"rustyauth.analytics.v1.TelemetryBatchAcknowledgement".
Definition COMMAND_ERROR_TYPE : str := #"rustyauth.connector.v1.CommandError".
Definition MAX_RETRY_SECONDS : N := 300.

(** ** Crates: [time], [hmac], [hex] *)

Class ExtTime := {
  OffsetDateTime : Type;
  unix_nanos : OffsetDateTime → Z;
  from_unix_timestamp : N → option OffsetDateTime;
  format_rfc3339 : OffsetDateTime → option str;
  parse_rfc3339 : str → option OffsetDateTime;
  time_add_seconds : OffsetDateTime → N → OffsetDateTime
}.

Class ExtMac := {
  hmac_sha256 : list N → list N → list N;
  hmac_length k m : length (hmac_sha256 k m) = 32%nat
}.

(** ** Frames *)

Inductive ConnectorFrameKind := FrameUnspecified | Hello | Heartbeat | Command | Result_ | Error_ | Goodbye | TelemetryBatch | TelemetryAck.
#[global] Instance ConnectorFrameKind_eq_dec : EqDecision ConnectorFrameKind.
Proof. solve_decision. Defined.

Definition kind_code (k : ConnectorFrameKind) : Z :=
  match k with
  | FrameUnspecified => 0 | Hello => 1 | Heartbeat => 2 | Command => 3 | Result_ => 4 | Error_ => 5 | Goodbye => 6
  | TelemetryBatch => 7 | TelemetryAck => 8
  end%Z.

Definition as_known (code : Z) : option ConnectorFrameKind :=
  List.find (λ k, Z.eqb (kind_code k) code)
    [FrameUnspecified; Hello; Heartbeat; Command; Result_; Error_; Goodbye; TelemetryBatch; TelemetryAck].

Record ConnectorFrame := mkFrame {
  cf_realm_id : str;
  cf_connection_id : str;
  cf_request_id : str;
  cf_kind : Z;
  cf_capability : str;
  cf_expires_at : str;
  cf_payload : list N;
  cf_payload_type : str;
  cf_signature : list N
}.
#[global] Instance ConnectorFrame_eq_dec : EqDecision ConnectorFrame.
Proof. solve_decision. Defined.

Definition set_signature (s : list N) (f : ConnectorFrame) : ConnectorFrame :=
  mkFrame (cf_realm_id f) (cf_connection_id f) (cf_request_id f) (cf_kind f) (cf_capability f) (cf_expires_at f)
    (cf_payload f) (cf_payload_type f) s.

(** [i32::to_be_bytes] *)
Definition i32_bytes (z : Z) : list N := be_bytes 4 (Z.to_N (z mod 2 ^ 32)).

(** A value preceded by its length. *)
Definition framed (value : list N) : list N := be_bytes 8 (N.of_nat (length value)) ++ value.

Definition connector_frame_signing_bytes (frame : ConnectorFrame) : list N :=
  CONNECTOR_SIGNATURE_DOMAIN ++
  concat (framed <$> [bytes (cf_realm_id frame); bytes (cf_connection_id frame); bytes (cf_request_id frame);
                      i32_bytes (cf_kind frame); bytes (cf_capability frame); bytes (cf_expires_at frame);
                      bytes (cf_payload_type frame); cf_payload frame]).

Section Signing.
Context `{ExtMac}.

Definition sign_connector_frame (frame : ConnectorFrame) (signing_key : list N) : ConnectorFrame :=
  set_signature (hmac_sha256 signing_key (connector_frame_signing_bytes frame)) frame.

Definition verify_connector_frame (frame : ConnectorFrame) (signing_key : list N) : result ConnectError unit :=
  if negb (length (cf_signature frame) =? 32)%nat
  then Err (unauthenticated "connector frame signature is invalid")
  else if ct_eq (hmac_sha256 signing_key (connector_frame_signing_bytes frame)) (cf_signature frame) then Ok tt
  else Err (unauthenticated "connector frame signature is invalid").
End Signing.

(** [1_u64.checked_shl(n)] for [n < 64] *)
Definition retry_delay_seconds (attempts : N) : N := N.min (N.shiftl 1 (N.min attempts 9)) MAX_RETRY_SECONDS.

Section Connector.
Context `{Env, !ExtSigning, !ExtTime, !ExtMac}.
Context `{!Serde FleetConnectionRecord}.

(** ** The credential on both ends *)

Definition connector_proof_from_digest (digest : str) : str := #"rfc1_" ++ digest.
Definition connector_proof_from_credential (credential : str) : str :=
  connector_proof_from_digest (hex_encode (sha256 (bytes credential))).
Definition connector_signing_key_from_credential (credential : str) : list N := sha256 (bytes credential).
Definition connector_signing_key_from_digest (digest : str) : result ConnectError (list N) :=
  match hex_decode digest with
  | Some b => if (length b =? 32)%nat then Ok b else Err (mkConnectError DataLoss "stored connector key is invalid")
  | None => Err (mkConnectError DataLoss "stored connector key is invalid")
  end.

Definition connector_connection_active (connection : FleetConnectionRecord) : bool :=
  match fc_state connection with Healthy | Degraded | Offline => true | _ => false end
  && negb (is_some (fc_revoked_at connection)).

Fixpoint authenticate_with (connection_id : Uuid) (keys : KeyRing) (supplied : str) (candidates : list EncryptedFleetCredential) :
    result ConnectError (list N) :=
  match candidates with
  | [] => Err (unauthenticated "connector identity is invalid")
  | encrypted :: candidates =>
      match open_fleet_credential keys connection_id encrypted with
      | Err e => Err e
      | Ok credential =>
          if ct_eq (sha256 (bytes (connector_proof_from_credential credential))) (sha256 (bytes supplied))
          then Ok (connector_signing_key_from_credential credential)
          else authenticate_with connection_id keys supplied candidates
      end
  end.

Definition authenticate_connector (connection : FleetConnectionRecord) (keys : KeyRing) (supplied : str) :
    result ConnectError (list N) :=
  authenticate_with (fc_id connection) keys supplied
    (fc_credential connection :: match fc_staged_credential connection with Some c => [c] | None => [] end).

(** ** Checks on frames; [now_utc] is the time in nanoseconds *)

Definition validate_connector_expiry (value : str) (now_utc : Z) : result ConnectError unit :=
  match parse_rfc3339 value with
  | None => Err (invalid_connector "connector frame expiry is invalid")
  | Some expiry =>
      if (unix_nanos expiry <=? now_utc)%Z || (now_utc + 300 * 10 ^ 9 <? unix_nanos expiry)%Z
      then Err (invalid_connector "connector frame expiry must be in the next five minutes")
      else Ok tt
  end.

Definition connector_expiry_after (now_utc : OffsetDateTime) (seconds : N) : result ConnectError str :=
  ok_or (mkConnectError Internal "format connector expiry") (format_rfc3339 (time_add_seconds now_utc seconds)).

Definition validate_hello (frame : ConnectorFrame) (connection : FleetConnectionRecord) : result ConnectError unit :=
  if negb (bool_decide (cf_realm_id frame = fc_realm_id connection))
     || negb (bool_decide (cf_connection_id frame = uuid_show (fc_id connection)))
     || negb (bool_decide (cf_capability frame = CAPABILITY_TELEMETRY_ROLLUPS_V1))
     || negb (bool_decide (cf_payload frame = [])) || negb (bool_decide (cf_payload_type frame = []))
  then Err (permission_denied "connector HELLO does not match the authenticated connection")
  else if negb (existsb (λ c, bool_decide (c.1 = CAPABILITY_TELEMETRY_ROLLUPS_V1) && (c.2 =? 1)) (fc_capabilities connection))
  then Err (mkConnectError FailedPrecondition "connection was paired without telemetry.rollups.v1")
  else Ok tt.

Definition validate_telemetry_frame (frame : ConnectorFrame) (connection : FleetConnectionRecord) : result ConnectError unit :=
  if negb (bool_decide (as_known (cf_kind frame) = Some TelemetryBatch))
     || negb (bool_decide (cf_realm_id frame = fc_realm_id connection))
     || negb (bool_decide (cf_connection_id frame = uuid_show (fc_id connection)))
     || negb (bool_decide (cf_capability frame = CAPABILITY_TELEMETRY_ROLLUPS_V1))
     || negb (bool_decide (cf_payload_type frame = TELEMETRY_BATCH_TYPE))
     || negb (is_some (uuid_parse (cf_request_id frame)))
  then Err (invalid_connector "invalid telemetry connector frame")
  else Ok tt.

Definition validate_bound_signed_frame (frame : ConnectorFrame) (connection : FleetConnectionRecord) (signing_key : list N)
    (now_utc : Z) : result ConnectError unit :=
  if negb (bool_decide (cf_realm_id frame = fc_realm_id connection))
     || negb (bool_decide (cf_connection_id frame = uuid_show (fc_id connection)))
     || negb (is_some (uuid_parse (cf_request_id frame)))
  then Err (permission_denied "connector frame does not match its authenticated connection")
  else match validate_connector_expiry (cf_expires_at frame) now_utc with
  | Err e => Err e
  | Ok _ => verify_connector_frame frame signing_key
  end.

Definition response_capabilities : list str :=
  [lit "realm.operations"; lit "realm.remote-admin"; lit "realm.connection.revoke"; lit "realm.connection.rotate"].

Definition validate_command_response (frame : ConnectorFrame) (connection : FleetConnectionRecord) (signing_key : list N)
    (now_utc : Z) : result ConnectError unit :=
  match validate_bound_signed_frame frame connection signing_key now_utc with
  | Err e => Err e
  | Ok _ => if bool_decide (cf_capability frame ∈ response_capabilities) then Ok tt
            else Err (invalid_connector "connector response capability is invalid")
  end.

Definition validate_heartbeat (frame : ConnectorFrame) (connection : FleetConnectionRecord) (signing_key : list N)
    (now_utc : Z) : result ConnectError unit :=
  match validate_bound_signed_frame frame connection signing_key now_utc with
  | Err e => Err e
  | Ok _ => if bool_decide (cf_payload frame = []) && bool_decide (cf_payload_type frame = []) then Ok tt
            else Err (invalid_connector "connector heartbeat payload is invalid")
  end.

(** ** The realm executes a command *)

(** The operations of [RealmCommandExecutor], from the encoded request to the
    encoded response; a payload that does not decode is an error. *)
Record RealmCommandExecutor := mkExecutor {
  ex_operational_snapshot : Uuid → list N → M ConnectError (list N);
  ex_remote_mutation : Uuid → list N → M ConnectError (list N);
  ex_revoke_connection : Uuid → list N → M ConnectError (list N);
  ex_rotate_connection_credential : Uuid → list N → M ConnectError (list N)
}.

Definition validate_realm_command (command : ConnectorFrame) (grant : RealmFleetGrantRecord) (signing_key : list N)
    (now_utc : Z) : result ConnectError unit :=
  if negb (bool_decide (as_known (cf_kind command) = Some Command))
     || negb (bool_decide (cf_realm_id command = rg_realm_id grant))
     || negb (bool_decide (cf_connection_id command = uuid_show (rg_connection_id grant)))
     || negb (is_some (uuid_parse (cf_request_id command)))
  then Err (permission_denied "connector command does not match the authenticated grant")
  else match validate_connector_expiry (cf_expires_at command) now_utc with
  | Err e => Err e
  | Ok _ => verify_connector_frame command signing_key
  end.

Definition required_scope (capability : str) : option str :=
  if bool_decide (capability = #"realm.operations") then Some #"realm.read"
  else if bool_decide (capability = #"realm.remote-admin") then Some #"realm.support"
  else if bool_decide (capability = #"realm.connection.revoke") then Some #"realm.read"
  else if bool_decide (capability = #"realm.connection.rotate") then Some #"realm.read"
  else None.

Definition scope_granted (capability : str) (grant : RealmFleetGrantRecord) : bool :=
  match required_scope capability with
  | Some required => bool_decide (required ∈ rg_granted_scopes grant)
  | None => true
  end.

(** The operation a capability and a request type select, and its response type. *)
Definition operation (executor : RealmCommandExecutor) (capability payload_type : str) :
    option ((Uuid → list N → M ConnectError (list N)) * str) :=
  if bool_decide (capability = #"realm.operations")
     && bool_decide (payload_type = #"rustyauth.management.v1.GetOperationalSnapshotRequest")
  then Some (ex_operational_snapshot executor, #"rustyauth.management.v1.RealmOperationalSnapshot")
  else if bool_decide (capability = #"realm.remote-admin")
     && bool_decide (payload_type = #"rustyauth.management.v1.RemoteMutationRequest")
  then Some (ex_remote_mutation executor, #"rustyauth.management.v1.RemoteMutationResult")
  else if bool_decide (capability = #"realm.connection.revoke")
     && bool_decide (payload_type = #"rustyauth.management.v1.RevokeFleetConnectionRequest")
  then Some (ex_revoke_connection executor, #"rustyauth.management.v1.FleetConnectionState")
  else if bool_decide (capability = #"realm.connection.rotate")
     && bool_decide (payload_type = #"rustyauth.management.v1.RotateFleetCredentialRequest")
  then Some (ex_rotate_connection_credential executor, #"rustyauth.management.v1.PairingGrant")
  else None.

Definition command_outcome (executor : RealmCommandExecutor) (grant : RealmFleetGrantRecord) (command : ConnectorFrame)
    (signing_key : list N) (now_utc : Z) : M ConnectError (str * list N) :=
  lift (validate_realm_command command grant signing_key now_utc);;
  ensure (scope_granted (cf_capability command) grant) (permission_denied "realm grant does not allow this operation");;
  match operation executor (cf_capability command) (cf_payload_type command) with
  | Some (run, response_type) => payload ← run (rg_connection_id grant) (cf_payload command); mret (response_type, payload)
  | None => fail (invalid_connector "connector command capability or type is invalid")
  end.

Definition execute_connector_command (executor : RealmCommandExecutor) (grant : RealmFleetGrantRecord)
    (command : ConnectorFrame) (signing_key : list N) (now_utc : Z) : M ConnectError ConnectorFrame :=
  outcome ← attempt (E := ConnectError) (command_outcome executor grant command signing_key now_utc);
  let '(kind, payload_type, payload) :=
    match outcome with
    | Ok (payload_type, payload) => (Result_, payload_type, payload)
    | Err _ => (Error_, COMMAND_ERROR_TYPE, [])
    end in
  mret (sign_connector_frame
    (mkFrame (rg_realm_id grant) (uuid_show (rg_connection_id grant)) (cf_request_id command) (kind_code kind)
       (cf_capability command) (cf_expires_at command) payload payload_type []) signing_key).

(** ** The control plane sends a command *)

Definition connector_offline : ConnectError := mkConnectError Unavailable "realm outbound connector is offline".

(** What becomes of a command handed to the queue of a live session. *)
Inductive delivery := QueueFull | SessionClosed | NoReply | ReplyDropped | Replied (response : ConnectorFrame).

Definition hub_command (live : Uuid → bool) (deliver : ConnectorFrame → delivery) (connection_id : Uuid)
    (frame : ConnectorFrame) : result ConnectError ConnectorFrame :=
  if negb (bool_decide (as_known (cf_kind frame) = Some Command))
     || negb (bool_decide (cf_connection_id frame = uuid_show connection_id))
     || negb (is_some (uuid_parse (cf_request_id frame)))
  then Err (invalid_connector "invalid outbound connector command")
  else if negb (live connection_id) then Err connector_offline
  else match deliver frame with
  | QueueFull => Err (mkConnectError ResourceExhausted "realm connector command queue is full")
  | SessionClosed => Err connector_offline
  | NoReply => Err (mkConnectError DeadlineExceeded "realm connector command timed out")
  | ReplyDropped => Err connector_offline
  | Replied response => Ok response
  end.

Definition command_frame (connection : FleetConnectionRecord) (request_id : Uuid) (capability expires_at : str)
    (payload : list N) (request_type : str) : ConnectorFrame :=
  mkFrame (fc_realm_id connection) (uuid_show (fc_id connection)) (uuid_show request_id) (kind_code Command)
    capability expires_at payload request_type [].

Definition outbound_command_with_credential (live : Uuid → bool) (deliver : ConnectorFrame → delivery)
    (connection : FleetConnectionRecord) (credential : str) (request_id : Uuid) (capability expires_at : str)
    (payload : list N) (request_type response_type : str) : result ConnectError (list N) :=
  let signing_key := connector_signing_key_from_credential credential in
  let command := sign_connector_frame
    (command_frame connection request_id capability expires_at payload request_type) signing_key in
  match hub_command live deliver (fc_id connection) command with
  | Err e => Err e
  | Ok response =>
      if negb (bool_decide (cf_realm_id response = fc_realm_id connection))
         || negb (bool_decide (cf_connection_id response = uuid_show (fc_id connection)))
         || negb (bool_decide (cf_request_id response = uuid_show request_id))
         || negb (bool_decide (cf_capability response = capability))
         || negb (bool_decide (cf_expires_at response = expires_at))
      then Err (mkConnectError DataLoss "realm connector response does not match the command")
      else match as_known (cf_kind response) with
      | Some Result_ =>
          if bool_decide (cf_payload_type response = response_type) then Ok (cf_payload response)
          else Err (mkConnectError DataLoss "realm connector response type does not match the command")
      | Some Error_ => Err (mkConnectError FailedPrecondition "realm rejected the connector command")
      | _ => Err (mkConnectError DataLoss "realm connector response type does not match the command")
      end
  end.

Definition outbound_command (live : Uuid → bool) (deliver : ConnectorFrame → delivery) (credential_keys : KeyRing)
    (connection : FleetConnectionRecord) (request_id : Uuid) (capability expires_at : str) (payload : list N)
    (request_type response_type : str) : result ConnectError (list N) :=
  match open_fleet_credential credential_keys (fc_id connection) (fc_credential connection) with
  | Err e => Err e
  | Ok credential => outbound_command_with_credential live deliver connection credential request_id capability expires_at
                       payload request_type response_type
  end.

(** ** A session of the control plane *)

Definition connector_source (_ : error) : ConnectError :=
  mkConnectError Unavailable "Fleet telemetry persistence unavailable".

(** The commands awaiting a response: request id and the caller that waits. *)
Definition pending_table : Type := list (Uuid * nat).

Inductive session_event :=
  | Inbound (frame : option (result ConnectError ConnectorFrame)) (now_utc : Z)
  | Queued (command : option (ConnectorFrame * nat)).

(** What the session does: send a frame to the realm, answer a caller, turn one away. *)
Inductive session_output :=
  | Sent (frame : ConnectorFrame)
  | Answered (caller : nat) (frame : ConnectorFrame)
  | TurnedAway (caller : nat).

Definition find_pending (id : Uuid) (pending : pending_table) : option nat :=
  snd <$> List.find (λ e, bool_decide (e.1 = id)) pending.
Definition remove_pending (id : Uuid) (pending : pending_table) : pending_table :=
  List.filter (λ e, negb (bool_decide (e.1 = id))) pending.

(** One turn of the loop.  [gone] are the callers that stopped waiting; [telemetry]
    takes a batch and encodes its acknowledgement.  [None] ends the loop. *)
Definition session_step (telemetry : FleetConnectionRecord → list N → M ConnectError (list N))
    (connection : FleetConnectionRecord) (signing_key : list N) (gone : list nat) (event : session_event)
    (pending : pending_table) : M ConnectError (option (pending_table * list session_output)) :=
  let pending := List.filter (λ e, negb (bool_decide (e.2 ∈ gone))) pending in
  match event with
  | Inbound None _ => mret None
  | Inbound (Some (Err e)) _ => fail e
  | Inbound (Some (Ok frame)) now_utc =>
      match as_known (cf_kind frame) with
      | Some TelemetryBatch =>
          lift (validate_telemetry_frame frame connection);;
          acknowledgement ← telemetry connection (cf_payload frame);
          mret (Some (pending, [Sent (mkFrame (fc_realm_id connection) (uuid_show (fc_id connection)) (cf_request_id frame)
            (kind_code TelemetryAck) CAPABILITY_TELEMETRY_ROLLUPS_V1 [] acknowledgement TELEMETRY_ACK_TYPE [])]))
      | Some Result_ | Some Error_ =>
          lift (validate_command_response frame connection signing_key now_utc);;
          request_id ← some_or (invalid_connector "connector response request id is invalid") (uuid_parse (cf_request_id frame));
          caller ← some_or (invalid_connector "unsolicited or replayed connector response") (find_pending request_id pending);
          mret (Some (remove_pending request_id pending, [Answered caller frame]))
      | Some Heartbeat =>
          lift (validate_heartbeat frame connection signing_key now_utc);;
          map_err connector_source (observe_fleet_connection (fc_id connection) Healthy);;
          mret (Some (pending, []))
      | _ => fail (invalid_connector "connector frame kind is not valid in this direction")
      end
  | Queued None => mret None
  | Queued (Some (frame, caller)) =>
      if (CONNECTOR_COMMAND_QUEUE <=? length pending)%nat then mret (Some (pending, [TurnedAway caller])) else
      request_id ← some_or (invalid_connector "connector command request id is invalid") (uuid_parse (cf_request_id frame));
      ensure (negb (is_some (find_pending request_id pending)))
        (invalid_connector "duplicate in-flight connector request id");;
      mret (Some ((request_id, caller) :: pending, [Sent frame]))
  end.

(** The loop over the events of a session, with the outputs made before it ended. *)
Fixpoint session_loop (telemetry : FleetConnectionRecord → list N → M ConnectError (list N))
    (connection : FleetConnectionRecord) (signing_key : list N) (events : list (list nat * session_event))
    (pending : pending_table) : M ConnectError (pending_table * list session_output * option ConnectError) :=
  match events with
  | [] => mret (pending, [], None)
  | (gone, event) :: events =>
      turn ← attempt (E := ConnectError) (session_step telemetry connection signing_key gone event pending);
      match turn with
      | Err e => mret (pending, [], Some e)
      | Ok None => mret (pending, [], None)
      | Ok (Some (pending, outputs)) =>
          rest ← session_loop telemetry connection signing_key events pending;
          let '(pending, later, outcome) := rest in
          mret (pending, outputs ++ later, outcome)
      end
  end.

(** [connect] up to its loop *)
Definition open_session (credential_keys : KeyRing) (proof : option str) (hello : option ConnectorFrame) :
    M ConnectError (FleetConnectionRecord * list N) :=
  proof ← some_or (unauthenticated "connector proof required") proof;
  hello ← some_or (invalid_connector "connector stream ended before HELLO") hello;
  ensure (bool_decide (as_known (cf_kind hello) = Some Hello)) (invalid_connector "first connector frame must be HELLO");;
  connection_id ← some_or (invalid_connector "connection_id must be a canonical UUID") (uuid_parse (cf_connection_id hello));
  found ← map_err connector_source (fleet_connection connection_id);
  connection ← some_or (unauthenticated "connector identity is invalid") (option_filter connector_connection_active found);
  signing_key ← lift (authenticate_connector connection credential_keys proof);
  lift (validate_hello hello connection);;
  mret (connection, signing_key).

(** ** Pairing of a private realm *)

Definition safe_outbound_pairing_code (value : str) : result ConnectError str :=
  let value := trim value in
  if negb (starts_with #"rpair_" value) || negb ((32 <=? len value) && (len value <=? 128))
     || existsb is_ascii_whitespace (bytes value)
  then Err (unauthenticated "outbound pairing is invalid")
  else Ok value.

Definition connector_scopes : list str := [lit "realm.read"; lit "realm.support"; lit "telemetry.export"].

(** Some element also occurs before itself. *)
Fixpoint duplicated (seen l : list str) : bool :=
  match l with [] => false | scope :: l => bool_decide (scope ∈ seen) || duplicated (scope :: seen) l end.

Definition safe_connector_scopes (values : list str) : result ConnectError (list str) :=
  let scopes := match values with [] => [lit "realm.read"; lit "telemetry.export"] | _ => values end in
  if (3 <? length scopes)%nat || existsb (λ scope, negb (bool_decide (scope ∈ connector_scopes))) scopes
  then Err (invalid_connector "outbound pairing scope is invalid")
  else if duplicated [] scopes then Err (invalid_connector "outbound pairing scope is duplicated")
  else Ok scopes.

Definition format_connector_timestamp (value : N) : result ConnectError str :=
  if i64_max <? value then Err (mkConnectError DataLoss "timestamp is invalid")
  else match from_unix_timestamp value with
  | None => Err (mkConnectError DataLoss "timestamp is invalid")
  | Some t => ok_or (mkConnectError Internal "format connector timestamp") (format_rfc3339 t)
  end.

Record PairingGrant := mkPairingGrant {
  pg_connection_id : str;
  pg_realm_id : str;
  pg_credential : str;
  pg_credential_hint : str;
  pg_granted_scopes : list str;
  pg_created_at : str;
  pg_expires_at : str;
  pg_assignment_epoch : N;
  pg_control_plane_instance_id : str
}.

Definition pairing_grant_from_connection (record : FleetConnectionRecord) (credential control_plane_instance_id : str) :
    result ConnectError PairingGrant :=
  match format_connector_timestamp (fc_created_at record) with
  | Err e => Err e
  | Ok created_at =>
      match format_connector_timestamp (saturating_add (fc_created_at record) 31536000) with
      | Err e => Err e
      | Ok expires_at => Ok (mkPairingGrant (uuid_show (fc_id record)) (fc_realm_id record) credential
          (fc_credential_hint record) (fc_granted_scopes record) created_at expires_at (fc_assignment_epoch record)
          control_plane_instance_id)
      end
  end.
End Connector.

Section PairOutbound.
Context `{Env, !ExtSigning, !ExtTime, !ExtMac, !ExtUrl}.
Context `{!Serde FleetOrganizationRecord, !Serde FleetProjectRecord, !Serde FleetEnvironmentRecord}.
Context `{!Serde FleetAuditRecord, !Serde FleetIdempotencyRecord}.
Context `{!Serde FleetConnectionAttemptRecord, !Serde FleetConnectionRecord}.

Record OutboundPairingRequest := mkOutboundPairing {
  op_attempt_id : str;
  op_pairing_code : str;
  op_discovery : option RealmDiscovery;
  op_requested_scopes : list str
}.

Definition outbound_connection (attempt : FleetConnectionAttemptRecord) (discovery : RealmDiscovery) (scopes : list str)
    (connection_id : Uuid) (assignment_epoch : N) (credential : str) (encrypted : EncryptedFleetCredential) :
    FleetConnectionRecord :=
  mkConnection connection_id (at_organization_id attempt) (at_project_id attempt) (at_environment_id attempt)
    (rd_realm_id discovery) assignment_epoch (rd_realm_id discovery) OutboundConnector (at_management_endpoint attempt)
    encrypted (hint_of credential) None None None (rd_deployment_version discovery)
    (rd_management_protocol_version discovery) (rd_capabilities discovery) scopes (rd_issuer discovery) (rd_rp_id discovery)
    Offline None 0 0 None.

(** [pair_outbound] after the rate limiter let the request pass *)
Definition pair_outbound_admitted (credential_keys : KeyRing) (control_plane_instance_id : str)
    (request : OutboundPairingRequest) : M ConnectError PairingGrant :=
  attempt_id ← some_or (invalid_connector "outbound pairing attempt is invalid") (uuid_parse (op_attempt_id request));
  pairing_code ← lift (safe_outbound_pairing_code (op_pairing_code request));
  found ← map_err connector_source (authenticated_outbound_connection_attempt attempt_id pairing_code);
  attempt ← some_or (unauthenticated "outbound pairing is invalid") found;
  discovery ← some_or (invalid_connector "realm discovery is required") (op_discovery request);
  lift (validate_management_discovery discovery true);;
  scopes ← lift (safe_connector_scopes (op_requested_scopes request));
  existing ← map_err connector_source (fleet_connection_for_completion_request attempt_id);
  match existing with
  | Some existing =>
      ensure (bool_decide (fc_mode existing = OutboundConnector)
              && bool_decide (fc_realm_id existing = rd_realm_id discovery)
              && bool_decide (fc_granted_scopes existing = scopes))
        (mkConnectError AlreadyExists "outbound pairing attempt was completed with different data");;
      credential ← lift (open_fleet_credential credential_keys (fc_id existing) (fc_credential existing));
      lift (pairing_grant_from_connection existing credential control_plane_instance_id)
  | None =>
      assignment_epoch ← map_err connector_source (reserve_fleet_assignment_epoch (rd_realm_id discovery));
      connection_id ← new_v4;
      random ← random_bytes 32;
      let credential := #"rfg_" ++ b64url_encode random in
      encrypted ← seal_fleet_credential credential_keys connection_id credential;
      record ← map_err connector_source (complete_fleet_connection attempt_id
        (outbound_connection attempt discovery scopes connection_id assignment_epoch credential encrypted)
        attempt_id (at_created_by attempt) #"private realm completed outbound pairing");
      lift (pairing_grant_from_connection record credential control_plane_instance_id)
  end.

Definition pair_outbound (limiter : RateLimiter) (instant : N) (clock : option N) (credential_keys : KeyRing)
    (control_plane_instance_id : str) (request : OutboundPairingRequest) :
    M ConnectError (result ConnectError PairingGrant * RateLimiter) :=
  d ← map_err connector_source (check limiter PairingExchange #"fleet-outbound-pairing-global" instant clock);
  let '(decision, limiter) := d in
  if negb (allowed decision)
  then mret (Err (mkConnectError ResourceExhausted "outbound pairing rate limit exceeded"), limiter)
  else r ← attempt (E := ConnectError) (pair_outbound_admitted credential_keys control_plane_instance_id request);
       mret (r, limiter).
End PairOutbound.

(** ** Frames and signatures *)

Section FrameLemmas.
Context `{ExtMac}.

Record frame_wf (f : ConnectorFrame) : Prop := {
  wf_text : Forall (λ s, forallb is_scalar s = true)
    [cf_realm_id f; cf_connection_id f; cf_request_id f; cf_capability f; cf_expires_at f; cf_payload_type f];
  wf_text_length : Forall (λ s, N.of_nat (length (bytes s)) < 2 ^ 64)
    [cf_realm_id f; cf_connection_id f; cf_request_id f; cf_capability f; cf_expires_at f; cf_payload_type f];
  wf_payload_length : N.of_nat (length (cf_payload f)) < 2 ^ 64;
  wf_kind : (- 2 ^ 31 <= cf_kind f < 2 ^ 31)%Z
}.

Lemma framed_inj a b x y :
  N.of_nat (length a) < 2 ^ 64 → N.of_nat (length b) < 2 ^ 64 → framed a ++ x = framed b ++ y → a = b ∧ x = y.
Proof.
  unfold framed. rewrite <- !app_assoc. intros Ha Hb Heq.
  apply app_inj_1 in Heq as [Hlen Heq]; [|by rewrite !be_bytes_length].
  apply be_bytes_inj in Hlen; [|done..]. apply app_inj_1 in Heq; [done|lia].
Qed.

Lemma framed_list_inj l l' :
  length l = length l' → Forall (λ a, N.of_nat (length a) < 2 ^ 64) l → Forall (λ a, N.of_nat (length a) < 2 ^ 64) l' →
  concat (framed <$> l) = concat (framed <$> l') → l = l'.
Proof.
  revert l'. induction l as [|a l IH]; intros [|b l'] Hn Hl Hl' Heq; try done.
  apply Forall_cons in Hl as [Ha Hl], Hl' as [Hb Hl']. cbn [fmap list_fmap concat] in Heq.
  apply framed_inj in Heq as [-> Heq]; [|done..]. f_equal. apply IH; auto.
Qed.

Lemma bytes_inj s t : forallb is_scalar s = true → forallb is_scalar t = true → bytes s = bytes t → s = t.
Proof. intros Hs Ht Heq. apply from_utf8_bytes in Hs, Ht. rewrite Heq, Ht in Hs. congruence. Qed.

Lemma i32_bytes_inj z z' :
  (- 2 ^ 31 <= z < 2 ^ 31)%Z → (- 2 ^ 31 <= z' < 2 ^ 31)%Z → i32_bytes z = i32_bytes z' → z = z'.
Proof.
  intros Hz Hz' Heq. apply be_bytes_inj in Heq; [|cbn; lia..].
  assert (Hmod : (z mod 2 ^ 32 = z' mod 2 ^ 32)%Z) by lia. clear Heq. lia.
Qed.

Lemma signed_fields_wf f : frame_wf f → Forall (λ a, N.of_nat (length a) < 2 ^ 64)
  [bytes (cf_realm_id f); bytes (cf_connection_id f); bytes (cf_request_id f); i32_bytes (cf_kind f);
   bytes (cf_capability f); bytes (cf_expires_at f); bytes (cf_payload_type f); cf_payload f].
Proof.
  intros Hf. pose proof (wf_text_length f Hf) as Ht. rewrite !Forall_cons in Ht.
  pose proof (wf_payload_length f Hf). unfold i32_bytes. rewrite !Forall_cons, be_bytes_length. tauto || (repeat split; try tauto; done).
Qed.

(** A connector signature covers every field of a frame: two well-formed frames
    with the same signed bytes differ at most in the signature, so no field can be
    altered, and no boundary between two fields moved, under a valid signature. *)
Theorem signing_bytes_injective f f' :
  frame_wf f → frame_wf f' → connector_frame_signing_bytes f = connector_frame_signing_bytes f' →
  set_signature (cf_signature f) f' = f.
Proof.
  intros Hf Hf' Heq. unfold connector_frame_signing_bytes in Heq. apply app_inv_head in Heq.
  apply framed_list_inj in Heq; [|done|by apply signed_fields_wf..].
  pose proof (i32_bytes_inj _ _ (wf_kind f Hf) (wf_kind f' Hf')) as Hk.
  remember (i32_bytes (cf_kind f)) as k. remember (i32_bytes (cf_kind f')) as k'.
  injection Heq as H1 H2 H3 H4 H5 H6 H7 H8. specialize (Hk H4).
  pose proof (wf_text f Hf) as Ht. pose proof (wf_text f' Hf') as Ht'. rewrite !Forall_cons in Ht, Ht'.
  destruct f, f'; cbn in *. unfold set_signature; cbn. f_equal; try (symmetry; apply bytes_inj; tauto); done.
Qed.

Lemma verify_signed f key : verify_connector_frame (sign_connector_frame f key) key = Ok tt.
Proof.
  unfold verify_connector_frame, sign_connector_frame. cbn [cf_signature set_signature].
  rewrite hmac_length. cbn [Nat.eqb negb]. unfold ct_eq. by rewrite bool_decide_true.
Qed.

Lemma as_known_kind k : as_known (kind_code k) = Some k.
Proof. by destruct k. Qed.
End FrameLemmas.

(** ** Commands from end to end *)

Section RoundTrip.
Context `{Env, !ExtSigning, !ExtTime, !ExtMac}.
Context `{!Serde FleetConnectionRecord}.

Lemma operation_capability executor capability payload_type op :
  operation executor capability payload_type = Some op → capability ∈ response_capabilities.
Proof.
  unfold operation, response_capabilities. rewrite !elem_of_cons.
  destruct (bool_decide (capability = #"realm.operations")) eqn:Hc1; [reflect; tauto|].
  destruct (bool_decide (capability = #"realm.remote-admin")) eqn:Hc2; [reflect; tauto|].
  destruct (bool_decide (capability = #"realm.connection.revoke")) eqn:Hc3; [reflect; tauto|].
  destruct (bool_decide (capability = #"realm.connection.rotate")) eqn:Hc4; [reflect; tauto|done].
Qed.

Lemma realm_accepts connection grant key request_id capability expires_at payload request_type t :
  rg_connection_id grant = fc_id connection → rg_realm_id grant = fc_realm_id connection →
  validate_connector_expiry expires_at t = Ok tt →
  validate_realm_command
    (sign_connector_frame (command_frame connection request_id capability expires_at payload request_type) key)
    grant key t = Ok tt.
Proof.
  intros Hid Hrealm Ht. unfold validate_realm_command. rewrite verify_signed.
  cbn [cf_kind cf_realm_id cf_connection_id cf_request_id cf_expires_at sign_connector_frame set_signature command_frame].
  rewrite as_known_kind, uuid_parse_show, Ht, Hid, Hrealm. rewrite !bool_decide_true by done. done.
Qed.

(** C11: The two ends of a connector agree: a command that the control plane signs with
    the connection's credential is executed by the realm holding the same key, exactly
    one run of the selected operation changing the realm's state, and the signed
    response passes the session's checks and yields the operation's payload to the
    caller.  An operation that fails reaches the caller as a refusal. *)
Theorem connector_roundtrip executor grant connection credential request_id capability expires_at payload
    request_type response_type run outcome o w w' t1 t2 live :
  rg_connection_id grant = fc_id connection → rg_realm_id grant = fc_realm_id connection →
  operation executor capability request_type = Some (run, response_type) →
  scope_granted capability grant = true →
  validate_connector_expiry expires_at t1 = Ok tt → validate_connector_expiry expires_at t2 = Ok tt →
  live (fc_id connection) = true →
  run (fc_id connection) payload o w = (outcome, w') →
  let key := connector_signing_key_from_credential credential in
  let command := sign_connector_frame
    (command_frame connection request_id capability expires_at payload request_type) key in
  ∃ response,
    execute_connector_command executor grant command key t1 o w = (Ok response, w') ∧
    validate_command_response response connection key t2 = Ok tt ∧
    outbound_command_with_credential live (λ frame, if bool_decide (frame = command) then Replied response else NoReply)
      connection credential request_id capability expires_at payload request_type response_type
    = match outcome with
      | Ok reply => Ok reply
      | Err _ => Err (mkConnectError FailedPrecondition "realm rejected the connector command")
      end.
Proof.
  intros Hid Hrealm Hop Hscope Ht1 Ht2 Hlive Hrun key command.
  pose proof (realm_accepts connection grant key request_id capability expires_at payload request_type t1 Hid Hrealm Ht1) as Hacc.
  unfold execute_connector_command, attempt, command_outcome, mbind, M_bind, mret, M_ret.
  unfold lift at 1. fold command in Hacc. rewrite Hacc.
  change (cf_capability command) with capability. change (cf_payload_type command) with request_type.
  change (cf_payload command) with payload. rewrite Hscope, Hop, Hid. unfold ensure, mret, M_ret; cbn beta iota. rewrite Hrun.
  destruct outcome as [reply|e]; cbn; eexists; (split; [reflexivity|split]).
  all: try (unfold validate_command_response, validate_bound_signed_frame; rewrite verify_signed;
    cbn [cf_realm_id cf_connection_id cf_request_id cf_expires_at cf_capability sign_connector_frame set_signature command];
    rewrite Hrealm, Ht2, uuid_parse_show, !bool_decide_true by (done || by eapply operation_capability); done).
  all: unfold outbound_command_with_credential, hub_command; fold key; fold command;
    cbn [cf_kind cf_connection_id cf_request_id command sign_connector_frame set_signature command_frame];
    rewrite as_known_kind, uuid_parse_show, Hlive, !bool_decide_true by done; cbn [negb orb is_some].
  all: rewrite !bool_decide_true by (done || by rewrite Hrealm); cbn [negb orb]; by rewrite as_known_kind || done.
Qed.

(** C12: A grant that pairing stored can never be used by the realm's connector: its
    digest is base64url text, which the connector cannot decode as a hexadecimal
    key, and the proof derived from it is the proof of no credential whatsoever. *)
Theorem stored_digest_unusable credential fleet_credential :
  connector_signing_key_from_digest (credential_digest credential)
    = Err (mkConnectError DataLoss "stored connector key is invalid")
  ∧ connector_proof_from_digest (credential_digest credential) ≠ connector_proof_from_credential fleet_credential.
Proof.
  assert (Hlen : length (credential_digest credential) = 43%nat).
  { unfold credential_digest. by rewrite b64url_length, sha256_length. }
  split.
  - unfold connector_signing_key_from_digest. by rewrite hex_decode_odd by (by rewrite Hlen).
  - intros Heq%(f_equal length). unfold connector_proof_from_credential, connector_proof_from_digest in Heq.
    rewrite !length_app, Hlen, hex_encode_length, sha256_length in Heq. cbn in Heq. lia.
Qed.

Lemma retry_delay_bounds n : 1 ≤ retry_delay_seconds n ≤ MAX_RETRY_SECONDS.
Proof.
  unfold retry_delay_seconds, MAX_RETRY_SECONDS. rewrite N.shiftl_1_l.
  pose proof (N.pow_le_mono_r 2 0 (N.min n 9)). cbn in *. lia.
Qed.
End RoundTrip.

(** ** Sessions as a step relation *)

Section Sessions.
Context `{Env, !ExtSigning, !ExtTime, !ExtMac}.
Context `{!Serde FleetConnectionRecord}.
Variable telemetry : FleetConnectionRecord → list N → M ConnectError (list N).
Variable connection : FleetConnectionRecord.
Variable signing_key : list N.

(** The callers that hand a command to the session. *)
Definition queued (events : list (list nat * session_event)) : list nat :=
  omap (λ e, match e.2 with Queued (Some (_, caller)) => Some caller | _ => None end) events.
Definition answered (outputs : list session_output) : list nat :=
  omap (λ x, match x with Answered caller _ => Some caller | _ => None end) outputs.

(** [caller] asked for the command with request id [id]. *)
Definition asked (past : list (list nat * session_event)) (caller : nat) (id : Uuid) : Prop :=
  ∃ gone command, (gone, Queued (Some (command, caller))) ∈ past ∧ uuid_parse (cf_request_id command) = Some id.

(** [frame] is a response of the realm, signed for this connection. *)
Definition authentic (frame : ConnectorFrame) : Prop :=
  cf_realm_id frame = fc_realm_id connection ∧ cf_connection_id frame = uuid_show (fc_id connection) ∧
  verify_connector_frame frame signing_key = Ok tt.

Inductive session_next : session_event → pending_table → list session_output → pending_table → Prop :=
  | next_quiet event pending outputs : answered outputs = [] → session_next event pending outputs pending
  | next_sent frame caller id pending :
      (length pending < CONNECTOR_COMMAND_QUEUE)%nat → uuid_parse (cf_request_id frame) = Some id →
      session_next (Queued (Some (frame, caller))) pending [Sent frame] ((id, caller) :: pending)
  | next_answered frame t id caller pending :
      authentic frame → uuid_parse (cf_request_id frame) = Some id → (id, caller) ∈ pending →
      caller ∉ (remove_pending id pending).*2 →
      session_next (Inbound (Some (Ok frame)) t) pending [Answered caller frame] (remove_pending id pending).

Definition retained (gone : list nat) (pending : pending_table) : pending_table :=
  List.filter (λ e, negb (bool_decide (e.2 ∈ gone))) pending.

Lemma filter_sublist {A} (f : A → bool) l : List.filter f l `sublist_of` l.
Proof. induction l as [|x l IH]; cbn; [done|]. destruct (f x); by constructor. Qed.

Lemma sublist_fmap {A B} (f : A → B) l k : l `sublist_of` k → f <$> l `sublist_of` f <$> k.
Proof. induction 1; cbn; by constructor. Qed.

Lemma sublist_elem {A} (x : A) l k : l `sublist_of` k → x ∈ l → x ∈ k.
Proof. intros Hs Hx. by eapply elem_of_submseteq, sublist_submseteq. Qed.

Lemma find_pending_elem id pending caller : find_pending id pending = Some caller → (id, caller) ∈ pending.
Proof.
  unfold find_pending. destruct (List.find _ _) as [[i c]|] eqn:Hf; [|done]. intros [= <-].
  apply List.find_some in Hf as [Hin Heq]. reflect. subst. by apply list_elem_of_In.
Qed.

Lemma removed_caller id caller pending :
  NoDup pending.*2 → (id, caller) ∈ pending → caller ∉ (remove_pending id pending).*2.
Proof.
  intros Hnd Hin [[i c] [Heq Hr]]%list_elem_of_fmap. cbn in Heq. subst c.
  apply list_elem_of_In, List.filter_In in Hr as [Hr Hne]. apply list_elem_of_In in Hr. cbn in Hne. reflect.
  apply Hne. apply list_elem_of_lookup in Hin as [j Hj], Hr as [k Hk].
  assert (j = k) as ->; [|congruence].
  eapply NoDup_lookup; [exact Hnd| |]; rewrite list_lookup_fmap; [by rewrite Hj|by rewrite Hk].
Qed.

Lemma command_response_authentic frame t :
  validate_command_response frame connection signing_key t = Ok tt → authentic frame.
Proof.
  unfold validate_command_response, validate_bound_signed_frame, authentic.
  destruct (bool_decide (cf_realm_id frame = _)) eqn:Hr; [|done].
  destruct (bool_decide (cf_connection_id frame = _)) eqn:Hc; [|done].
  destruct (is_some _); [|done]. cbn [negb orb].
  destruct (validate_connector_expiry _ _); [|done].
  destruct (verify_connector_frame _ _) as [[]|]; [|done]. by reflect.
Qed.

Lemma wp_session_step gone event pending o w :
  NoDup (retained gone pending).*2 →
  wp (session_step telemetry connection signing_key gone event pending) o w (λ r _,
    match r with
    | Ok (Some (pending', outputs)) => session_next event (retained gone pending) outputs pending'
    | _ => True
    end).
Proof.
  intros Hnd. unfold session_step. fold (retained gone pending). destruct event as [[[frame|e]|] t|[[frame caller]|]]; try done.
  - destruct (as_known _) as [[]|]; try done.
    + apply wp_bind, wp_lift. destruct (validate_heartbeat _ _ _ _); [|done].
      apply wp_bind. unfold wp at 1. destruct (map_err _ _ o w) as [[?|?] ?]; cbn; [by constructor|done].
    + apply wp_bind, wp_lift. destruct (validate_command_response _ _ _ _) as [[]|] eqn:Hv; [|done].
      apply wp_bind, wp_some_or; [|done]. intros id Hid. apply wp_bind, wp_some_or; [|done].
      intros caller Hc%find_pending_elem. apply wp_ret. econstructor; eauto using command_response_authentic, removed_caller.
    + apply wp_bind, wp_lift. destruct (validate_command_response _ _ _ _) as [[]|] eqn:Hv; [|done].
      apply wp_bind, wp_some_or; [|done]. intros id Hid. apply wp_bind, wp_some_or; [|done].
      intros caller Hc%find_pending_elem. apply wp_ret. econstructor; eauto using command_response_authentic, removed_caller.
    + apply wp_bind, wp_lift. destruct (validate_telemetry_frame _ _); [|done].
      apply wp_bind. unfold wp at 1. destruct (telemetry _ _ o w) as [[?|?] ?]; cbn; [by constructor|done].
  - destruct (_ <=? _)%nat eqn:Hq; [by apply wp_ret; constructor|]. apply Nat.leb_gt in Hq.
    apply wp_bind, wp_some_or; [|done]. intros id Hid. apply wp_bind, wp_ensure; [|done].
    intros _. apply wp_ret. by constructor.
Qed.

Record session_inv (past : list (list nat * session_event)) (pending : pending_table) (outputs : list session_output) : Prop := {
  si_bound : (length pending ≤ CONNECTOR_COMMAND_QUEUE)%nat;
  si_fresh : NoDup (pending.*2 ++ answered outputs);
  si_asked : ∀ id caller, (id, caller) ∈ pending → asked past caller id;
  si_answered : ∀ caller frame, Answered caller frame ∈ outputs →
    authentic frame ∧ ∃ id, uuid_parse (cf_request_id frame) = Some id ∧ asked past caller id
}.

Lemma asked_weaken past past' caller id : past ⊆ past' → asked past caller id → asked past' caller id.
Proof. intros Hsub (g & c & Hin & Hc). exists g, c. split; [by apply Hsub|done]. Qed.

Lemma asked_queued past caller id : asked past caller id → caller ∈ queued past.
Proof. intros (g & c & Hin & _). apply list_elem_of_omap. by exists (g, Queued (Some (c, caller))). Qed.

Lemma answered_app a b : answered (a ++ b) = answered a ++ answered b.
Proof. apply omap_app. Qed.

Lemma answered_elem caller outputs : caller ∈ answered outputs → ∃ frame, Answered caller frame ∈ outputs.
Proof.
  intros [[f|c f|c] [Hin Heq]]%list_elem_of_omap; try done. injection Heq as ->. by exists f.
Qed.

Lemma inv_weaken past past' pending outputs :
  past ⊆ past' → session_inv past pending outputs → session_inv past' pending outputs.
Proof.
  intros Hsub [Hb Hf Ha Hans]. split; [done|done|eauto using asked_weaken|].
  intros c f [Hauth (id & Hid & Hask)]%Hans. split; [done|]. exists id. eauto using asked_weaken.
Qed.

Lemma inv_retained past gone pending outputs :
  session_inv past pending outputs → session_inv past (retained gone pending) outputs.
Proof.
  intros [Hb Hf Ha Hans]. pose proof (filter_sublist (λ e, negb (bool_decide (e.2 ∈ gone))) pending) as Hsub.
  fold (retained gone pending) in Hsub. split; [|..|done].
  - apply sublist_length in Hsub. lia.
  - eapply sublist_NoDup; [exact Hf|]. apply sublist_app; [by apply sublist_fmap|done].
  - intros id c Hin. apply Ha. by eapply sublist_elem.
Qed.

Lemma inv_next past gone event pending outputs outputs' pending' :
  NoDup (queued (past ++ [(gone, event)])) → session_inv past pending outputs →
  session_next event pending outputs' pending' →
  session_inv (past ++ [(gone, event)]) pending' (outputs ++ outputs').
Proof.
  intros Hnd Hinv Hnext. pose proof Hinv as Hinv0.
  apply (inv_weaken _ (past ++ [(gone, event)])) in Hinv as [Hb Hf Ha Hans]; [|set_solver].
  destruct Hnext as [event pending outs Hq|f c id pending Hlt Hid|f t id c pending Hauth Hid Hin Hout].
  - split; [done|by rewrite answered_app, Hq, app_nil_r|done|].
    intros c f [Hc|Hc]%elem_of_app; [by apply Hans|]. assert (c ∈ answered outs) as Hc'; [|rewrite Hq in Hc'; by apply not_elem_of_nil in Hc'].
    apply list_elem_of_omap. by exists (Answered c f).
  - assert (Hnew : c ∉ queued past).
    { unfold queued in Hnd. rewrite omap_app in Hnd. apply NoDup_app in Hnd as (_ & Hd & _). intros Hc. apply (Hd c Hc). cbn. set_solver. }
    split.
    + cbn [length]. lia.
    + rewrite answered_app. cbn [answered omap list_omap]. rewrite app_nil_r. cbn [fmap list_fmap snd app].
      apply NoDup_cons. split; [|done]. intros [Hc|Hc]%elem_of_app; apply Hnew.
      * apply list_elem_of_fmap in Hc as ([i c'] & -> & Hin). eapply asked_queued, (si_asked _ _ _ Hinv0), Hin.
      * apply answered_elem in Hc as [f' Hc]. destruct (si_answered _ _ _ Hinv0 _ _ Hc) as (_ & i & _ & Hask). by eapply asked_queued.
    + intros i c' [[= -> ->]|Hin]%elem_of_cons; [|by apply Ha]. exists gone, f. split; [set_solver|done].
    + intros c' f' [Hc|Hc]%elem_of_app; [by apply Hans|set_solver].
  - pose proof (filter_sublist (λ e, negb (bool_decide (e.1 = id))) pending) as Hsub. fold (remove_pending id pending) in Hsub.
    split.
    + apply sublist_length in Hsub. lia.
    + rewrite answered_app. cbn [answered omap list_omap].
      apply NoDup_app in Hf as (Hn1 & Hd & Hn2). apply NoDup_app. split; [|split].
      * eapply sublist_NoDup; [exact Hn1|by apply sublist_fmap].
      * intros x Hx [Hc|Hc]%elem_of_app.
        -- apply (Hd x); [|done]. eapply sublist_elem; [|exact Hx]. by apply sublist_fmap.
        -- apply list_elem_of_singleton in Hc as ->. done.
      * apply NoDup_app. split; [done|]. split; [|apply NoDup_singleton].
        intros x Hx ->%list_elem_of_singleton. apply (Hd c); [|done]. by apply (list_elem_of_fmap_2 snd _ (id, c)).
    + intros i c' Hin'. apply Ha. by eapply sublist_elem.
    + intros c' f' [Hc|[= -> ->]%list_elem_of_singleton]%elem_of_app; [by apply Hans|]. eauto.
Qed.

Lemma wp_session_loop events past pending outputs o w :
  NoDup (queued (past ++ events)) → session_inv past pending outputs →
  wp (session_loop telemetry connection signing_key events pending) o w (λ r _,
    match r with
    | Ok (pending', outputs', _) => session_inv (past ++ events) pending' (outputs ++ outputs')
    | Err _ => False
    end).
Proof.
  revert past pending outputs w. induction events as [|[gone event] events IH]; intros past pending outputs w Hnd Hinv.
  { apply wp_ret. by rewrite !app_nil_r. }
  cbn [session_loop]. apply wp_bind, wp_attempt.
  pose proof (inv_retained _ gone _ _ Hinv) as Hret.
  eapply wp_mono; [apply wp_session_step; apply si_fresh, NoDup_app in Hret; tauto|].
  intros [[[pending' outs]|]|e] w1 Hstep.
  - apply wp_bind. eapply wp_mono.
    + eapply (IH (past ++ [(gone, event)]) pending' (outputs ++ outs)); [by rewrite <- app_assoc|].
      eapply inv_next; [|exact Hret|exact Hstep].
      rewrite cons_middle, app_assoc in Hnd. unfold queued in *. rewrite omap_app in Hnd. apply NoDup_app in Hnd. tauto.
    + intros [[[p later] e]|e] w2; [|done]. rewrite <- !app_assoc. intros Hr. apply wp_ret. exact Hr.
  - apply wp_ret. rewrite app_nil_r. eapply inv_weaken; [|done]. set_solver.
  - apply wp_ret. rewrite app_nil_r. eapply inv_weaken; [|done]. set_solver.
Qed.

(** C10: Whatever the realm, the network and the callers do, a session of the control
    plane holds at most 32 outstanding commands and answers each caller at most
    once, and only with a response signed for this connection that carries the
    request id of a command the same caller submitted: unsolicited, replayed and
    forged responses never reach anyone. *)
Theorem session_answers_once events o w :
  NoDup (queued events) →
  ∃ pending outputs outcome w',
    session_loop telemetry connection signing_key events [] o w = (Ok (pending, outputs, outcome), w') ∧
    (length pending ≤ CONNECTOR_COMMAND_QUEUE)%nat ∧ NoDup (answered outputs) ∧
    ∀ caller frame, Answered caller frame ∈ outputs →
      authentic frame ∧ ∃ id, uuid_parse (cf_request_id frame) = Some id ∧ asked events caller id.
Proof.
  intros Hnd. assert (Hinit : session_inv [] [] []).
  { split; [unfold CONNECTOR_COMMAND_QUEUE; cbn; lia|constructor|set_solver|set_solver]. }
  pose proof (wp_session_loop events [] [] [] o w Hnd Hinit) as Hwp. unfold wp in Hwp.
  destruct (session_loop _ _ _ _ _ o w) as [[[[p outs] e]|e] w']; cbn in Hwp; [|done].
  destruct Hwp as [Hb Hf _ Hans]. exists p, outs, e, w'. split; [done|]. split; [done|]. split; [|done].
  apply NoDup_app in Hf. tauto.
Qed.
End Sessions.

(** ** Concrete runs *)

Module DemoConnector.
Import DemoEnv DemoFleet DemoSigning DemoConnections.

(** Not a MAC: the laws only ask for the length. *)
Definition demo_hmac (k m : list N) : list N := take 32 (reverse m ++ k ++ replicate 32 0).
#[export] Program Instance demo_mac : ExtMac :=
  {| hmac_sha256 := demo_hmac |}.
Next Obligation. intros k m. unfold demo_hmac. rewrite length_take, !length_app, length_replicate. lia. Qed.

(** Timestamps are written in seconds. *)
#[export] Instance demo_time : ExtTime :=
  {| OffsetDateTime := N; unix_nanos t := (Z.of_N t * 10 ^ 9)%Z; from_unix_timestamp := Some;
     format_rfc3339 t := Some (show_u64 t); parse_rfc3339 := parse_u64;
     time_add_seconds := N.add |}.

Definition demo_line : FleetConnectionRecord := demo_connection (demo_uuid_of 500) #"realm-a" 1.
Definition demo_credential : str := #"rfg_secret".
Definition demo_key : list N := connector_signing_key_from_credential demo_credential.
Definition demo_grant : RealmFleetGrantRecord :=
  mkGrant (demo_uuid_of 500) #"realm-a" [] [] 1 [] [] [lit "realm.read"] 0 0 None.
Definition demo_now : Z := (1000 * 10 ^ 9)%Z.
Definition demo_command : ConnectorFrame :=
  sign_connector_frame (command_frame demo_line (demo_uuid_of 7) #"realm.operations" #"1030" [1; 2]
    #"rustyauth.management.v1.GetOperationalSnapshotRequest") demo_key.
(** A realm that answers a snapshot request with its payload reversed. *)
Definition demo_executor : RealmCommandExecutor :=
  mkExecutor (λ _ p, mret (reverse p)) (λ _ _, fail (invalid_connector "not offered")) (λ _ _, fail (invalid_connector "not offered")) (λ _ _, fail (invalid_connector "not offered")).

Lemma demo_frame_wf s : frame_wf (set_signature s demo_command).
Proof.
  split; [| |vm_compute; reflexivity|by vm_compute].
  all: apply Forall_forall; intros x Hx; repeat (apply elem_of_cons in Hx as [->|Hx]; [vm_compute; reflexivity|]).
  all: by apply not_elem_of_nil in Hx.
Qed.

Lemma signing_bytes_injective_witness :
  frame_wf (set_signature [] demo_command) ∧
  set_signature [] (set_signature [1] demo_command) = set_signature [] demo_command.
Proof.
  split; [apply demo_frame_wf|].
  apply (signing_bytes_injective (set_signature [] demo_command) (set_signature [1] demo_command));
    [apply demo_frame_wf..|vm_compute; reflexivity].
Defined.

Lemma connector_roundtrip_witness : ∃ response,
  execute_connector_command demo_executor demo_grant demo_command demo_key demo_now demo_oracle (demo_world [])
    = (Ok response, demo_world []) ∧
  outbound_command_with_credential (λ _, true) (λ frame, if bool_decide (frame = demo_command) then Replied response else NoReply)
    demo_line demo_credential (demo_uuid_of 7) #"realm.operations" #"1030" [1; 2]
    #"rustyauth.management.v1.GetOperationalSnapshotRequest" #"rustyauth.management.v1.RealmOperationalSnapshot" = Ok [2; 1].
Proof.
  destruct (connector_roundtrip demo_executor demo_grant demo_line demo_credential (demo_uuid_of 7) #"realm.operations"
    #"1030" [1; 2] #"rustyauth.management.v1.GetOperationalSnapshotRequest"
    #"rustyauth.management.v1.RealmOperationalSnapshot" (ex_operational_snapshot demo_executor) (Ok [2; 1])
    demo_oracle (demo_world []) (demo_world []) demo_now demo_now (λ _, true)) as (response & Hexec & _ & Hout);
    [eval_eq..|]. exists response. exact (conj Hexec Hout).
Defined.

(** A response, its replay, and the session ending at the replay. *)
Definition demo_response : ConnectorFrame :=
  match (execute_connector_command demo_executor demo_grant demo_command demo_key demo_now demo_oracle (demo_world [])).1 with
  | Ok response => response | Err _ => demo_command end.
Definition demo_events : list (list nat * session_event) :=
  [([], Queued (Some (demo_command, 4%nat))); ([], Inbound (Some (Ok demo_response)) demo_now);
   ([], Inbound (Some (Ok demo_response)) demo_now)].
Abbreviation demo_session :=
  (session_loop (λ _ _, mret []) demo_line demo_key demo_events [] demo_oracle (demo_world [])).

Lemma session_answers_once_witness :
  NoDup (queued demo_events) ∧
  ∃ p outputs e w', demo_session = (Ok (p, outputs, e), w') ∧ NoDup (answered outputs) ∧
    Ok (E := ConnectError) (p, outputs, e) = Ok ([], [Sent demo_command; Answered 4 demo_response],
      Some (invalid_connector "unsolicited or replayed connector response")).
Proof.
  assert (Hnd : NoDup (queued demo_events)) by (vm_compute; apply NoDup_singleton).
  split; [exact Hnd|].
  destruct (session_answers_once (λ _ _, mret []) demo_line demo_key demo_events demo_oracle (demo_world []) Hnd)
    as (p & outs & e & w' & Hrun & _ & Hans & _).
  exists p, outs, e, w'. split; [exact Hrun|]. split; [exact Hans|].
  transitivity demo_session.1; [rewrite Hrun; reflexivity|vm_compute; reflexivity].
Defined.
End DemoConnector.
