(* ===== verification/FleetRpc.v ===== *)
(** * The fleet service (src/src/fleet_rpc.rs)

    The handlers of the control plane's fleet service over the fleet store: wire
    validation, authorization, paging, and the translation of records and errors. *)

From S2P Require Import Prelude Sable Logic Demo Records Bytes Events Identifiers Users Invitations Accounts Sessions Organization.
From S2P Require Import RateLimit WriterLease SigningKeys Guards OperatorAuth Fleet FleetConnections FleetRoles ManagementEndpoint Connector.

Definition DEFAULT_PAGE_SIZE : nat := 25.
Definition MAX_PAGE_SIZE : N := 100.
Definition PAGE_TOKEN_LENGTH : N := 22.

(** ** Messages *)

Record MutationContext := mkMutation { mc_request_id : str; mc_reason : str }.

Inductive ResourceState := ResourceStateUnspecified | ResourceStateActive | ResourceStateArchived.
Inductive EnvironmentKind := KindUnspecified | KindDevelopment | KindPreview | KindStaging | KindProduction.
Inductive ConnectionMode := ModeUnspecified | ModePublicEndpoint | ModeOutboundConnector.
Inductive ConnectionState :=
  | StateUnspecified | StatePending | StateVerifying | StateHealthy | StateDegraded | StateOffline | StateRevoked.
Inductive ResourceKind := ResourceUnspecified | ResourceOrganization | ResourceProject | ResourceEnvironment.
Inductive FleetRole := RoleUnspecified | RoleOwner | RoleAdministrator | RoleOperator | RoleSupport | RoleAuditor.
Inductive AuditOutcome := OutcomeUnspecified | OutcomeSucceeded.

Record OrganizationMessage := mkOrganizationMessage {
  po_id : str; po_slug : str; po_name : str; po_state : ResourceState;
  po_created_at : str; po_updated_at : str; po_archived_at : str }.

Record ProjectMessage := mkProjectMessage {
  pp_id : str; pp_organization_id : str; pp_slug : str; pp_name : str; pp_description : str; pp_state : ResourceState;
  pp_created_at : str; pp_updated_at : str; pp_archived_at : str }.

Record EnvironmentMessage := mkEnvironmentMessage {
  pe_id : str; pe_organization_id : str; pe_project_id : str; pe_slug : str; pe_name : str; pe_kind : EnvironmentKind;
  pe_provider : str; pe_region : str; pe_state : ResourceState;
  pe_created_at : str; pe_updated_at : str; pe_archived_at : str }.

Record ConnectionAttemptMessage := mkAttemptMessage {
  pa_id : str; pa_environment_id : str; pa_mode : ConnectionMode; pa_expires_at : str; pa_state : ConnectionState }.

Record RealmConnectionMessage := mkConnectionMessage {
  pc_id : str; pc_organization_id : str; pc_project_id : str; pc_environment_id : str; pc_realm_id : str;
  pc_display_name : str; pc_mode : ConnectionMode; pc_management_endpoint : str; pc_credential_reference : str;
  pc_deployment_version : str; pc_protocol_version : str; pc_capabilities : list (str * N); pc_issuer : str; pc_rp_id : str;
  pc_state : ConnectionState; pc_last_seen_at : str; pc_created_at : str; pc_updated_at : str; pc_revoked_at : str }.

Record RoleBindingMessage := mkBindingMessage {
  pb_id : str; pb_operator_id : str; pb_resource_kind : ResourceKind; pb_resource_id : str; pb_role : FleetRole;
  pb_created_by : str; pb_created_at : str; pb_revoked_by : str; pb_revoked_at : str }.

Record AuditEventMessage := mkAuditMessage {
  pv_id : str; pv_request_id : str; pv_operator_id : str; pv_action : str; pv_resource_kind : ResourceKind;
  pv_resource_id : str; pv_organization_id : str; pv_project_id : str; pv_environment_id : str;
  pv_outcome : AuditOutcome; pv_reason : str; pv_occurred_at : str }.

(** ** Validation *)

Definition not_found : ConnectError := mkConnectError NotFound "Fleet resource is missing".

Definition source_error (e : error) : ConnectError :=
  match e with
  | EPolicy FleetResourceMissing => mkConnectError NotFound "Fleet resource is missing"
  | EPolicy FleetSlugConflict => mkConnectError AlreadyExists "Fleet resource slug is already in use"
  | EPolicy FleetParentArchived => mkConnectError FailedPrecondition "Fleet resource is archived"
  | EPolicy FleetHasActiveChildren => mkConnectError FailedPrecondition "Fleet resource has active children"
  | EPolicy FleetIdempotencyConflict => mkConnectError AlreadyExists "mutation request id was already used"
  | EPolicy FleetConnectionAttemptExpired =>
      mkConnectError FailedPrecondition "connection attempt expired or was already consumed"
  | EPolicy FleetConnectionConflict => mkConnectError AlreadyExists "realm is already connected to this environment"
  | _ => mkConnectError Internal "Fleet operation failed"
  end.

Definition require_mutation (mutation : option MutationContext) : result ConnectError MutationContext :=
  ok_or (invalid "mutation context is required") mutation.

Definition safe_slug (value : str) : result ConnectError str :=
  let value := trim value in
  if negb ((2 <=? len value) && (len value <=? 63)) || starts_with #"-" value || ends_with_char 45 value
     || contains_str #"--" value
     || negb (forallb (λ b, is_ascii_lowercase b || is_ascii_digit b || (b =? 45)) (bytes value))
  then Err (invalid "slug must be 2-63 lowercase letters, digits or single hyphens")
  else Ok value.

Definition text_error (field : str) : ConnectError :=
  if bool_decide (field = #"name") then invalid "name is invalid"
  else if bool_decide (field = #"description") then invalid "description is invalid"
  else if bool_decide (field = #"provider") then invalid "provider is invalid"
  else if bool_decide (field = #"region") then invalid "region is invalid"
  else if bool_decide (field = #"mutation.reason") then invalid "mutation reason is invalid"
  else invalid "text field is invalid".

Definition safe_text (value field : str) (maximum : N) (allow_empty : bool) : result ConnectError str :=
  let value := trim value in
  let allow_empty := allow_empty && negb (bool_decide (field = #"mutation.reason")) in
  if (negb allow_empty && bool_decide (value = [])) || (maximum <? len value) || existsb is_control value
  then Err (text_error field)
  else Ok value.

Definition safe_secret (value : str) (minimum maximum : N) : result ConnectError str :=
  let value := trim value in
  if negb ((minimum <=? len value) && (len value <=? maximum)) || existsb is_whitespace value || existsb is_control value
  then Err (invalid "secret is invalid")
  else Ok value.

Definition safe_remote_reason (value : str) : result ConnectError str :=
  let value := trim value in
  if negb ((10 <=? len value) && (len value <=? 500)) || existsb is_control value
  then Err (invalid "remote mutation reason must contain 10-500 safe characters")
  else Ok value.

Definition safe_remote_target (value : str) (maximum : N) : result ConnectError str :=
  let value := trim value in
  if bool_decide (value = []) || (maximum <? len value) || existsb is_whitespace value || existsb is_control value
  then Err (invalid "remote mutation target is invalid")
  else Ok value.

Inductive RemoteMutationOperation :=
  | OpUnspecified | RevokeUserPasskey | SetServiceAccountEnabled | RevokeServiceAccountCredential | PauseWebhook | DeleteWebhook.
#[global] Instance RemoteMutationOperation_eq_dec : EqDecision RemoteMutationOperation.
Proof. solve_decision. Defined.

Definition remote_mutation_action (operation : RemoteMutationOperation) : str :=
  match operation with
  | OpUnspecified => #"unspecified"
  | RevokeUserPasskey => #"revoke-user-passkey"
  | SetServiceAccountEnabled => #"set-service-account-enabled"
  | RevokeServiceAccountCredential => #"revoke-service-account-credential"
  | PauseWebhook => #"pause-webhook"
  | DeleteWebhook => #"delete-webhook"
  end.

Definition management_error (error : ConnectError) : ConnectError :=
  match code error with
  | InvalidArgument | Unauthenticated | PermissionDenied | FailedPrecondition | AlreadyExists | ResourceExhausted => error
  | _ => mkConnectError Unavailable "realm management endpoint is unavailable"
  end.

Definition page_size (value : N) : result ConnectError nat :=
  if value =? 0 then Ok DEFAULT_PAGE_SIZE
  else if value <=? MAX_PAGE_SIZE then Ok (N.to_nat value)
  else Err (invalid "page_size must be between 1 and 100").

Section Wire.
Context `{Env, !ExtSigning}.

Definition required_uuid (value : str) : result ConnectError Uuid := ok_or (invalid "resource id is invalid") (uuid_parse value).

Definition optional_uuid (value : str) : result ConnectError (option Uuid) :=
  if bool_decide (value = []) then Ok None
  else match required_uuid value with Ok id => Ok (Some id) | Err e => Err e end.

Definition encode_page_token (id : Uuid) : str := b64url_encode (uuid_as_bytes id).

Definition decode_page_token (value : str) : result ConnectError (option Uuid) :=
  if bool_decide (value = []) then Ok None
  else if negb (len value =? PAGE_TOKEN_LENGTH) then Err (invalid "page_token is invalid")
  else match b64url_decode value with
  | None => Err (invalid "page_token is invalid")
  | Some b => match uuid_from_slice b with
              | Some id => Ok (Some id)
              | None => Err (invalid "page_token is invalid")
              end
  end.

Definition next_page_token {T : Type} (records : list T) (page_size : nat) (id : T → Uuid) : str :=
  if (page_size <? length records)%nat
  then match records !! (page_size - 1)%nat with Some r => encode_page_token (id r) | None => [] end
  else [].

(** The tail of the listing handlers: what lies after the token, cut to a page. *)
Definition page {T : Type} (id : T → Uuid) (after : option Uuid) (page_size : nat) (records : list T) : list T * str :=
  let records := List.filter (λ r, match after with Some a => uuid_ltb a (id r) | None => true end) records in
  (take page_size records, next_page_token records page_size id).
End Wire.

(** ** Records as messages *)

Section Messages.
Context `{Env, !ExtTime}.

Definition format_timestamp (value : N) : result ConnectError str :=
  if i64_max <? value then Err (mkConnectError DataLoss "stored timestamp is invalid")
  else match from_unix_timestamp value with
  | None => Err (mkConnectError DataLoss "stored timestamp is invalid")
  | Some t => ok_or (mkConnectError Internal "format Fleet timestamp") (format_rfc3339 t)
  end.

Definition format_optional_timestamp (value : option N) : result ConnectError str :=
  match value with Some v => format_timestamp v | None => Ok [] end.

(** [current] is the clock in seconds *)
Definition validate_remote_expiry (value : str) (current : N) : result ConnectError unit :=
  match parse_rfc3339 value with
  | None => Err (invalid "remote mutation expiry must be an RFC 3339 timestamp")
  | Some t =>
      let seconds := (unix_nanos t / 10 ^ 9)%Z in
      if (seconds <? 0)%Z then Err (invalid "remote mutation expiry is invalid")
      else if (Z.to_N seconds <=? current) || (saturating_add current (5 * 60) <? Z.to_N seconds)
      then Err (invalid "remote mutation expiry must be in the next five minutes")
      else Ok tt
  end.

Definition resource_state (state : FleetResourceStateRecord) : ResourceState :=
  match state with FleetActive => ResourceStateActive | FleetArchived => ResourceStateArchived end.

Definition environment_kind (kind : option EnvironmentKind) : result ConnectError FleetEnvironmentKindRecord :=
  match kind with
  | Some KindDevelopment => Ok Development
  | Some KindPreview => Ok Preview
  | Some KindStaging => Ok Staging
  | Some KindProduction => Ok Production
  | Some KindUnspecified | None => Err (invalid "environment kind is required")
  end.

Definition environment_kind_proto (kind : FleetEnvironmentKindRecord) : EnvironmentKind :=
  match kind with
  | Development => KindDevelopment
  | Preview => KindPreview
  | Staging => KindStaging
  | Production => KindProduction
  end.

Definition connection_mode (mode : option ConnectionMode) : result ConnectError FleetConnectionModeRecord :=
  match mode with
  | Some ModePublicEndpoint => Ok PublicEndpoint
  | Some ModeOutboundConnector => Ok OutboundConnector
  | Some ModeUnspecified | None => Err (invalid "connection mode is required")
  end.

Definition connection_mode_proto (mode : FleetConnectionModeRecord) : ConnectionMode :=
  match mode with PublicEndpoint => ModePublicEndpoint | OutboundConnector => ModeOutboundConnector end.

Definition connection_state_proto (state : FleetConnectionStateRecord) : ConnectionState :=
  match state with
  | Pending => StatePending
  | Verifying => StateVerifying
  | Healthy => StateHealthy
  | Degraded => StateDegraded
  | Offline => StateOffline
  | Revoked => StateRevoked
  end.

Definition connector_connection_usable (record : FleetConnectionRecord) : bool :=
  negb (is_some (fc_revoked_at record))
  && match fc_state record with Healthy | Degraded | Offline => true | _ => false end.

Definition resource_kind_record (kind : option ResourceKind) : result ConnectError FleetResourceKindRecord :=
  match kind with
  | Some ResourceOrganization => Ok KOrganization
  | Some ResourceProject => Ok KProject
  | Some ResourceEnvironment => Ok KEnvironment
  | Some ResourceUnspecified | None => Err (invalid "resource kind is required")
  end.

Definition resource_kind_proto (kind : FleetResourceKindRecord) : ResourceKind :=
  match kind with
  | KOrganization => ResourceOrganization
  | KProject => ResourceProject
  | KEnvironment => ResourceEnvironment
  end.

Definition fleet_role_record (role : option FleetRole) : result ConnectError FleetRoleRecord :=
  match role with
  | Some RoleOwner => Ok FleetOwner
  | Some RoleAdministrator => Ok FleetAdministrator
  | Some RoleOperator => Ok FleetOperator
  | Some RoleSupport => Ok FleetSupport
  | Some RoleAuditor => Ok FleetAuditor
  | Some RoleUnspecified | None => Err (invalid "Fleet role is required")
  end.

Definition fleet_role_proto (role : FleetRoleRecord) : FleetRole :=
  match role with
  | FleetOwner => RoleOwner
  | FleetAdministrator => RoleAdministrator
  | FleetOperator => RoleOperator
  | FleetSupport => RoleSupport
  | FleetAuditor => RoleAuditor
  end.

Definition uuid_or_empty (id : option Uuid) : str := match id with Some id => uuid_show id | None => [] end.

Definition organization_to_proto (r : FleetOrganizationRecord) : result ConnectError OrganizationMessage :=
  created_at ← format_timestamp (fo_created_at r);
  updated_at ← format_timestamp (fo_updated_at r);
  archived_at ← format_optional_timestamp (fo_archived_at r);
  Ok (mkOrganizationMessage (uuid_show (fo_id r)) (fo_slug r) (fo_name r) (resource_state (fo_state r)) created_at updated_at
        archived_at).

Definition project_to_proto (r : FleetProjectRecord) : result ConnectError ProjectMessage :=
  created_at ← format_timestamp (fp_created_at r);
  updated_at ← format_timestamp (fp_updated_at r);
  archived_at ← format_optional_timestamp (fp_archived_at r);
  Ok (mkProjectMessage (uuid_show (fp_id r)) (uuid_show (fp_organization_id r)) (fp_slug r) (fp_name r) (fp_description r)
        (resource_state (fp_state r)) created_at updated_at archived_at).

Definition environment_to_proto (r : FleetEnvironmentRecord) : result ConnectError EnvironmentMessage :=
  created_at ← format_timestamp (fe_created_at r);
  updated_at ← format_timestamp (fe_updated_at r);
  archived_at ← format_optional_timestamp (fe_archived_at r);
  Ok (mkEnvironmentMessage (uuid_show (fe_id r)) (uuid_show (fe_organization_id r)) (uuid_show (fe_project_id r)) (fe_slug r)
        (fe_name r) (environment_kind_proto (fe_kind r)) (fe_provider r) (fe_region r) (resource_state (fe_state r)) created_at
        updated_at archived_at).

Definition connection_attempt_to_proto (r : FleetConnectionAttemptRecord) : result ConnectError ConnectionAttemptMessage :=
  expires_at ← format_timestamp (at_expires_at r);
  Ok (mkAttemptMessage (uuid_show (at_id r)) (uuid_show (at_environment_id r)) (connection_mode_proto (at_mode r)) expires_at
        StatePending).

Definition connection_to_proto (r : FleetConnectionRecord) : result ConnectError RealmConnectionMessage :=
  last_seen_at ← format_optional_timestamp (fc_last_seen_at r);
  created_at ← format_timestamp (fc_created_at r);
  updated_at ← format_timestamp (fc_updated_at r);
  revoked_at ← format_optional_timestamp (fc_revoked_at r);
  Ok (mkConnectionMessage (uuid_show (fc_id r)) (uuid_show (fc_organization_id r)) (uuid_show (fc_project_id r))
        (uuid_show (fc_environment_id r)) (fc_realm_id r) (fc_display_name r) (connection_mode_proto (fc_mode r))
        (fc_management_endpoint r) (#"fleet-credential://" ++ uuid_show (fc_id r)) (fc_deployment_version r)
        (fc_protocol_version r) (fc_capabilities r) (fc_issuer r) (fc_rp_id r) (connection_state_proto (fc_state r))
        last_seen_at created_at updated_at revoked_at).

Definition role_binding_to_proto (r : FleetRoleBindingRecord) : result ConnectError RoleBindingMessage :=
  created_at ← format_timestamp (fb_created_at r);
  revoked_at ← format_optional_timestamp (fb_revoked_at r);
  Ok (mkBindingMessage (uuid_show (fb_id r)) (uuid_show (fb_operator_id r)) (resource_kind_proto (fb_resource_kind r))
        (uuid_show (fb_resource_id r)) (fleet_role_proto (fb_role r)) (uuid_show (fb_created_by r)) created_at
        (uuid_or_empty (fb_revoked_by r)) revoked_at).

Definition audit_to_proto (r : FleetAuditRecord) : result ConnectError AuditEventMessage :=
  occurred_at ← format_timestamp (fa_occurred_at r);
  Ok (mkAuditMessage (uuid_show (fa_id r)) (uuid_show (fa_request_id r)) (uuid_show (fa_operator_id r)) (fa_action r)
        (if bool_decide (fa_resource_kind r = #"organization") then ResourceOrganization
         else if bool_decide (fa_resource_kind r = #"project") then ResourceProject
         else if bool_decide (fa_resource_kind r = #"environment") then ResourceEnvironment
         else ResourceUnspecified)
        (uuid_show (fa_resource_id r)) (uuid_or_empty (fa_organization_id r)) (uuid_or_empty (fa_project_id r))
        (uuid_or_empty (fa_environment_id r)) OutcomeSucceeded (fa_reason r) occurred_at).
End Messages.

(** ** Following the page tokens *)

Section Paging.
Context `{Env, !ExtSigning}.

(** A client that asks for page after page until the token is empty. *)
Fixpoint walk_pages {T : Type} (id : T → Uuid) (size : nat) (records : list T) (fuel : nat) (token : str) : option (list (list T)) :=
  match fuel with
  | O => None
  | S fuel =>
      match decode_page_token token with
      | Err _ => None
      | Ok after =>
          let '(p, next) := page id after size records in
          if bool_decide (next = []) then Some [p]
          else rest ← walk_pages id size records fuel next; Some (p :: rest)
      end
  end.

Lemma page_token_roundtrip u : encode_page_token u ≠ [] ∧ decode_page_token (encode_page_token u) = Ok (Some u).
Proof.
  assert (Hlen : length (encode_page_token u) = 22%nat).
  { unfold encode_page_token, uuid_as_bytes. by rewrite b64url_length, be_bytes_length. }
  assert (Hne : encode_page_token u ≠ []) by (intros Hn; by rewrite Hn in Hlen).
  split; [done|]. unfold decode_page_token. rewrite bool_decide_false by done.
  unfold PAGE_TOKEN_LENGTH. rewrite len_ascii by (apply b64url_ascii, b64url_alphabet). rewrite Hlen. cbn [N.of_nat N.eqb negb].
  unfold encode_page_token. rewrite b64url_decode_encode by (apply be_bytes_bytes). by rewrite uuid_from_bytes.
Qed.

Lemma sorted_split {T : Type} (id : T → Uuid) (l1 l2 : list T) x :
  StronglySorted (id_before id) (l1 ++ x :: l2) →
  Forall (λ r, uuid_lt (id r) (id x)) l1 ∧ Forall (λ r, uuid_lt (id x) (id r)) l2.
Proof.
  induction l1 as [|a l1 IH]; cbn; inversion_clear 1 as [|? ? Hs Hall]; [by split|].
  destruct (IH Hs) as [H1 H2]. split; [|done]. constructor; [|done].
  rewrite Forall_forall in Hall. apply Hall. set_solver.
Qed.

Lemma after_token {T : Type} (id : T → Uuid) (l1 l2 : list T) x :
  StronglySorted (id_before id) (l1 ++ x :: l2) → List.filter (λ r, uuid_ltb (id x) (id r)) (l1 ++ x :: l2) = l2.
Proof.
  intros Hs. apply sorted_split in Hs as [H1 H2]. rewrite List.filter_app. cbn [List.filter].
  assert (uuid_ltb (id x) (id x) = false) as -> by (unfold uuid_ltb; lia).
  assert (List.filter (λ r, uuid_ltb (id x) (id r)) l1 = []) as ->.
  { induction H1 as [|a l1 Ha _ IH]; [done|]. cbn. unfold uuid_lt in Ha.
    assert (uuid_ltb (id x) (id a) = false) as -> by (unfold uuid_ltb; lia). done. }
  cbn [app]. induction H2 as [|a l2 Ha _ IH]; [done|]. cbn. apply uuid_ltb_spec in Ha. rewrite Ha. by f_equal.
Qed.

(** The walk from a point of the list: what is behind it has been seen. *)
Lemma walk_rest {T : Type} (id : T → Uuid) size records fuel seen rest token after :
  (0 < size)%nat → StronglySorted (id_before id) records → records = seen ++ rest →
  decode_page_token token = Ok after →
  List.filter (λ r, match after with Some a => uuid_ltb a (id r) | None => true end) records = rest →
  (length rest < fuel * size)%nat →
  ∃ pages, walk_pages id size records fuel token = Some pages ∧ concat pages = rest ∧
    Forall (λ p, (length p ≤ size)%nat) pages ∧ (length pages ≤ S (length rest / size))%nat.
Proof.
  intros Hsize Hs. revert seen rest token after. induction fuel as [|fuel IH]; intros seen rest token after Hsplit Htok Hrest Hfuel; [lia|].
  cbn [walk_pages]. rewrite Htok. unfold page. rewrite Hrest. unfold next_page_token.
  destruct (Nat.ltb_spec size (length rest)) as [Hlt|Hle].
  - destruct (rest !! (size - 1)%nat) as [x|] eqn:Hx; [|apply lookup_ge_None in Hx; lia].
    destruct (page_token_roundtrip (id x)) as [Hne Hdec]. rewrite bool_decide_false by done.
    pose proof (take_drop_middle rest (size - 1) x Hx) as Hmid. replace (S (size - 1)) with size in Hmid by lia.
    assert (Htake : take size rest = take (size - 1) rest ++ [x]).
    { replace size with (S (size - 1)) at 1 by lia. by apply take_S_r. }
    destruct (IH (seen ++ take size rest) (drop size rest) (encode_page_token (id x)) (Some (id x)))
      as (pages & Hw & Hc & Hall & Hn); [by rewrite <- app_assoc, take_drop|done| |rewrite length_drop; lia|].
    + assert (Hrec : records = (seen ++ take (size - 1) rest) ++ x :: drop size rest) by (by rewrite <- app_assoc, Hmid).
      rewrite Hrec. apply after_token. by rewrite <- Hrec.
    + rewrite Hw. cbn. exists (take size rest :: pages). cbn [concat length]. rewrite Hc, take_drop.
      split_and!; [done|done|constructor; [rewrite length_take; lia|done]|].
      rewrite length_drop in Hn. replace (length rest) with ((length rest - size) + 1 * size)%nat by lia.
      rewrite Nat.div_add by lia. lia.
  - rewrite bool_decide_true by done. exists [take size rest]. rewrite take_ge by done. cbn. rewrite app_nil_r.
    split_and!; [done|done|by constructor|lia].
Qed.

(** C28: Listing by pages terminates and is complete: a client that follows the page
    tokens from the empty one gets, after at most one page more than the number of
    full pages, the empty token, and the pages it got, none longer than the size
    asked for, are the records in order, each exactly once. *)
Theorem paging_terminates {T : Type} (id : T → Uuid) requested size (records : list T) :
  page_size requested = Ok size → StronglySorted (id_before id) records →
  ∃ pages, walk_pages id size records (S (length records / size)) [] = Some pages ∧ concat pages = records ∧
    Forall (λ p, (length p ≤ size)%nat) pages ∧ (length pages ≤ S (length records / size))%nat.
Proof.
  intros Hsize Hs. assert (Hpos : (0 < size)%nat).
  { unfold page_size, DEFAULT_PAGE_SIZE in Hsize. destruct (N.eqb_spec requested 0); [injection Hsize; lia|].
    destruct (requested <=? _); [injection Hsize; lia|done]. }
  apply (walk_rest id size records _ [] records [] None); [done..| |].
  - clear. induction records as [|r l IH]; [done|]. cbn. by f_equal.
  - pose proof (Nat.div_mod_eq (length records) size). pose proof (Nat.mod_upper_bound (length records) size). nia.
Qed.
End Paging.
