(* ===== verification/FleetService.v ===== *)
(** * The handlers of the fleet service ([impl FleetService for FleetRpc], src/src/fleet_rpc.rs)

    Each handler authorizes the caller, validates the request and runs a store
    operation.  The fields of a request are the arguments of its handler, in the
    order in which the handler reads them. *)

From S2P Require Import Prelude Sable Logic Demo Records Bytes Events Identifiers Users Invitations Accounts Sessions Organization.
From S2P Require Import RateLimit WriterLease SigningKeys Guards OperatorAuth Fleet FleetConnections FleetRoles ManagementEndpoint.
From S2P Require Import Management Connector FleetRpc.

Fixpoint collect {A B : Type} (f : A → result ConnectError B) (l : list A) : result ConnectError (list B) :=
  match l with
  | [] => Ok []
  | a :: l => b ← f a; bs ← collect f l; Ok (b :: bs)
  end.

Section FleetService.
Context `{Env, !ExtSigning, !ExtTime, !ExtMac, !ExtUrl}.
Context `{!Serde FleetOrganizationRecord, !Serde FleetProjectRecord, !Serde FleetEnvironmentRecord}.
Context `{!Serde FleetAuditRecord, !Serde FleetIdempotencyRecord, !Serde FleetRoleBindingRecord}.
Context `{!Serde FleetConnectionAttemptRecord, !Serde FleetConnectionRecord}.
Context `{!Serde AuthEvent, !Serde User, !Serde Session, !Serde OperatorRecord}.
Variable authorizer : OperatorAuthorizer.

(** The mutation context's fields, read last. *)
Definition mutation_fields (mutation : MutationContext) : M ConnectError (Uuid * str) :=
  request_id ← lift (required_uuid (mc_request_id mutation));
  reason ← lift (safe_text (mc_reason mutation) #"mutation.reason" 500 true);
  mret (request_id, reason).

(** The body of a listing handler once the caller is authorized. *)
Definition list_page {T P : Type} (id : T → Uuid) (to_proto : T → result ConnectError P) (load : M error (list T))
    (page_token : str) (size : N) : M ConnectError (list P * str) :=
  after ← lift (decode_page_token page_token);
  size ← lift (page_size size);
  records ← map_err source_error load;
  let '(records, next) := page id after size records in
  messages ← lift (collect to_proto records);
  mret (messages, next).

(** ** Organizations *)

Definition list_organizations (headers : HeaderMap) (page_token : str) (size : N) (include_archived : bool) :
    M ConnectError (list OrganizationMessage * str) :=
  authorize authorizer headers CapRead;;
  list_page fo_id organization_to_proto (fleet_organizations include_archived) page_token size.

Definition get_organization (headers : HeaderMap) (organization_id : str) : M ConnectError OrganizationMessage :=
  id ← lift (required_uuid organization_id);
  authorize_fleet authorizer headers CapRead KOrganization id;;
  found ← map_err source_error (fleet_organization id);
  record ← some_or not_found found;
  lift (organization_to_proto record).

Definition create_organization (headers : HeaderMap) (mutation : option MutationContext) (slug name : str) :
    M ConnectError OrganizationMessage :=
  actor ← authorize authorizer headers CapAdminister;
  mutation ← lift (require_mutation mutation);
  slug ← lift (safe_slug slug);
  name ← lift (safe_text name #"name" 120 false);
  fields ← mutation_fields mutation;
  record ← map_err source_error (create_fleet_organization slug name fields.1 (u_id (actor_user actor)) fields.2);
  lift (organization_to_proto record).

Definition update_organization (headers : HeaderMap) (organization_id : str) (mutation : option MutationContext)
    (name : str) : M ConnectError OrganizationMessage :=
  organization_id ← lift (required_uuid organization_id);
  actor ← authorize_fleet authorizer headers CapAdminister KOrganization organization_id;
  mutation ← lift (require_mutation mutation);
  name ← lift (safe_text name #"name" 120 false);
  fields ← mutation_fields mutation;
  record ← map_err source_error
    (update_fleet_organization organization_id name fields.1 (u_id (actor_user actor)) fields.2);
  lift (organization_to_proto record).

Definition archive_organization (headers : HeaderMap) (organization_id : str) (mutation : option MutationContext) :
    M ConnectError OrganizationMessage :=
  organization_id ← lift (required_uuid organization_id);
  actor ← authorize_fleet authorizer headers CapAdminister KOrganization organization_id;
  mutation ← lift (require_mutation mutation);
  fields ← mutation_fields mutation;
  record ← map_err source_error (archive_fleet_organization organization_id fields.1 (u_id (actor_user actor)) fields.2);
  lift (organization_to_proto record).

(** *** The overview *)

Record FleetOverview := mkOverview {
  ov_organizations : N; ov_projects : N; ov_environments : N; ov_healthy : N; ov_degraded : N; ov_offline : N;
  ov_calculated_at : str }.

Definition count_state (state : FleetConnectionStateRecord) (l : list FleetConnectionRecord) : N :=
  N.of_nat (length (List.filter (λ r, bool_decide (fc_state r = state)) l)).

Definition count_organization (counts : N * N * N) (organization : FleetOrganizationRecord) : M ConnectError (N * N * N) :=
  let '(organizations, projects, environments) := counts in
  found ← map_err source_error (fleet_projects (fo_id organization) false);
  environments ← foldM (λ total project,
    l ← map_err source_error (fleet_environments (fo_id organization) (fp_id project) false);
    mret (saturating_add total (N.of_nat (length l)))) found environments;
  mret (organizations + 1, saturating_add projects (N.of_nat (length found)), environments).

Definition get_fleet_overview (headers : HeaderMap) (organization_id : str) : M ConnectError FleetOverview :=
  authorize authorizer headers CapRead;;
  organization_id ← lift (optional_uuid organization_id);
  organizations ← map_err source_error (fleet_organizations false);
  counts ← foldM count_organization
    (List.filter (λ r, is_none_or (λ id, bool_decide (fo_id r = id)) organization_id) organizations) (0, 0, 0);
  connections ← map_err source_error (fleet_connections organization_id None None false);
  t ← now;
  calculated_at ← lift (format_timestamp t);
  mret (mkOverview counts.1.1 counts.1.2 counts.2 (count_state Healthy connections) (count_state Degraded connections)
          (count_state Offline connections) calculated_at).

(** ** Projects *)

Definition list_projects (headers : HeaderMap) (organization_id page_token : str) (size : N) (include_archived : bool) :
    M ConnectError (list ProjectMessage * str) :=
  organization_id ← lift (required_uuid organization_id);
  authorize_fleet authorizer headers CapRead KOrganization organization_id;;
  list_page fp_id project_to_proto (fleet_projects organization_id include_archived) page_token size.

Definition get_project (headers : HeaderMap) (organization_id project_id : str) : M ConnectError ProjectMessage :=
  organization_id ← lift (required_uuid organization_id);
  project_id ← lift (required_uuid project_id);
  authorize_fleet authorizer headers CapRead KProject project_id;;
  found ← map_err source_error (fleet_project project_id);
  record ← some_or not_found (option_filter (λ r, bool_decide (fp_organization_id r = organization_id)) found);
  lift (project_to_proto record).

Definition create_project (headers : HeaderMap) (organization_id : str) (mutation : option MutationContext)
    (slug name description : str) : M ConnectError ProjectMessage :=
  organization_id ← lift (required_uuid organization_id);
  actor ← authorize_fleet authorizer headers CapAdminister KOrganization organization_id;
  mutation ← lift (require_mutation mutation);
  slug ← lift (safe_slug slug);
  name ← lift (safe_text name #"name" 120 false);
  description ← lift (safe_text description #"description" 500 true);
  fields ← mutation_fields mutation;
  record ← map_err source_error
    (create_fleet_project organization_id slug name description fields.1 (u_id (actor_user actor)) fields.2);
  lift (project_to_proto record).

Definition update_project (headers : HeaderMap) (project_id : str) (mutation : option MutationContext)
    (organization_id name description : str) : M ConnectError ProjectMessage :=
  project_id ← lift (required_uuid project_id);
  actor ← authorize_fleet authorizer headers CapAdminister KProject project_id;
  mutation ← lift (require_mutation mutation);
  organization_id ← lift (required_uuid organization_id);
  name ← lift (safe_text name #"name" 120 false);
  description ← lift (safe_text description #"description" 500 true);
  fields ← mutation_fields mutation;
  record ← map_err source_error
    (update_fleet_project organization_id project_id name description fields.1 (u_id (actor_user actor)) fields.2);
  lift (project_to_proto record).

Definition archive_project (headers : HeaderMap) (project_id : str) (mutation : option MutationContext)
    (organization_id : str) : M ConnectError ProjectMessage :=
  project_id ← lift (required_uuid project_id);
  actor ← authorize_fleet authorizer headers CapAdminister KProject project_id;
  mutation ← lift (require_mutation mutation);
  organization_id ← lift (required_uuid organization_id);
  fields ← mutation_fields mutation;
  record ← map_err source_error
    (archive_fleet_project organization_id project_id fields.1 (u_id (actor_user actor)) fields.2);
  lift (project_to_proto record).

(** ** Environments *)

Definition list_environments (headers : HeaderMap) (organization_id project_id page_token : str) (size : N)
    (include_archived : bool) : M ConnectError (list EnvironmentMessage * str) :=
  organization_id ← lift (required_uuid organization_id);
  project_id ← lift (required_uuid project_id);
  authorize_fleet authorizer headers CapRead KProject project_id;;
  list_page fe_id environment_to_proto (fleet_environments organization_id project_id include_archived) page_token size.

Definition get_environment (headers : HeaderMap) (organization_id project_id environment_id : str) :
    M ConnectError EnvironmentMessage :=
  organization_id ← lift (required_uuid organization_id);
  project_id ← lift (required_uuid project_id);
  environment_id ← lift (required_uuid environment_id);
  authorize_fleet authorizer headers CapRead KEnvironment environment_id;;
  found ← map_err source_error (fleet_environment environment_id);
  record ← some_or not_found (option_filter (in_project organization_id project_id) found);
  lift (environment_to_proto record).

Definition create_environment (headers : HeaderMap) (project_id : str) (mutation : option MutationContext)
    (organization_id slug name : str) (kind : option EnvironmentKind) (provider region : str) :
    M ConnectError EnvironmentMessage :=
  project_id ← lift (required_uuid project_id);
  actor ← authorize_fleet authorizer headers CapAdminister KProject project_id;
  mutation ← lift (require_mutation mutation);
  organization_id ← lift (required_uuid organization_id);
  slug ← lift (safe_slug slug);
  name ← lift (safe_text name #"name" 120 false);
  kind ← lift (environment_kind kind);
  provider ← lift (safe_text provider #"provider" 80 true);
  region ← lift (safe_text region #"region" 80 true);
  fields ← mutation_fields mutation;
  record ← map_err source_error (create_fleet_environment organization_id project_id slug name kind provider region
    fields.1 (u_id (actor_user actor)) fields.2);
  lift (environment_to_proto record).

Definition update_environment (headers : HeaderMap) (environment_id : str) (mutation : option MutationContext)
    (organization_id project_id name : str) (kind : option EnvironmentKind) (provider region : str) :
    M ConnectError EnvironmentMessage :=
  environment_id ← lift (required_uuid environment_id);
  actor ← authorize_fleet authorizer headers CapAdminister KEnvironment environment_id;
  mutation ← lift (require_mutation mutation);
  organization_id ← lift (required_uuid organization_id);
  project_id ← lift (required_uuid project_id);
  name ← lift (safe_text name #"name" 120 false);
  kind ← lift (environment_kind kind);
  provider ← lift (safe_text provider #"provider" 80 true);
  region ← lift (safe_text region #"region" 80 true);
  fields ← mutation_fields mutation;
  record ← map_err source_error (update_fleet_environment organization_id project_id environment_id name kind provider
    region fields.1 (u_id (actor_user actor)) fields.2);
  lift (environment_to_proto record).

Definition archive_environment (headers : HeaderMap) (environment_id : str) (mutation : option MutationContext)
    (organization_id project_id : str) : M ConnectError EnvironmentMessage :=
  environment_id ← lift (required_uuid environment_id);
  actor ← authorize_fleet authorizer headers CapAdminister KEnvironment environment_id;
  mutation ← lift (require_mutation mutation);
  organization_id ← lift (required_uuid organization_id);
  project_id ← lift (required_uuid project_id);
  fields ← mutation_fields mutation;
  record ← map_err source_error (archive_fleet_environment organization_id project_id environment_id fields.1
    (u_id (actor_user actor)) fields.2);
  lift (environment_to_proto record).

(** ** Role bindings and the audit trail *)

Definition list_role_bindings (headers : HeaderMap) (resource_kind : option ResourceKind) (resource_id page_token : str)
    (size : N) (include_revoked : bool) : M ConnectError (list RoleBindingMessage * str) :=
  kind ← lift (resource_kind_record resource_kind);
  resource_id ← lift (required_uuid resource_id);
  authorize_fleet authorizer headers CapRead kind resource_id;;
  list_page fb_id role_binding_to_proto (fleet_role_bindings kind resource_id include_revoked) page_token size.

Definition upsert_role_binding (headers : HeaderMap) (resource_kind : option ResourceKind) (resource_id : str)
    (mutation : option MutationContext) (role : option FleetRole) (operator_id : str) : M ConnectError RoleBindingMessage :=
  kind ← lift (resource_kind_record resource_kind);
  resource_id ← lift (required_uuid resource_id);
  actor ← authorize_fleet authorizer headers CapAdminister kind resource_id;
  mutation ← lift (require_mutation mutation);
  target_role ← lift (fleet_role_record role);
  require_fleet_role_dominance authorizer actor kind resource_id target_role;;
  operator_id ← lift (required_uuid operator_id);
  fields ← mutation_fields mutation;
  record ← map_err source_error (upsert_fleet_role_binding operator_id kind resource_id target_role fields.1
    (u_id (actor_user actor)) fields.2);
  lift (role_binding_to_proto record).

Definition revoke_role_binding (headers : HeaderMap) (role_binding_id : str) (mutation : option MutationContext) :
    M ConnectError RoleBindingMessage :=
  role_binding_id ← lift (required_uuid role_binding_id);
  found ← map_err source_error (fleet_role_binding role_binding_id);
  binding ← some_or not_found found;
  actor ← authorize_fleet authorizer headers CapAdminister (fb_resource_kind binding) (fb_resource_id binding);
  mutation ← lift (require_mutation mutation);
  require_fleet_role_dominance authorizer actor (fb_resource_kind binding) (fb_resource_id binding) (fb_role binding);;
  fields ← mutation_fields mutation;
  record ← map_err source_error (revoke_fleet_role_binding role_binding_id fields.1 (u_id (actor_user actor)) fields.2);
  lift (role_binding_to_proto record).

(** The most specific scope a request names. *)
Definition audit_scope (organization_id project_id environment_id : option Uuid) : option (FleetResourceKindRecord * Uuid) :=
  match environment_id, project_id, organization_id with
  | Some id, _, _ => Some (KEnvironment, id)
  | None, Some id, _ => Some (KProject, id)
  | None, None, Some id => Some (KOrganization, id)
  | None, None, None => None
  end.

Definition audit_visible (organization_id project_id environment_id : option Uuid) (r : FleetAuditRecord) : bool :=
  is_none_or (λ id, bool_decide (fa_organization_id r = Some id)) organization_id
  && is_none_or (λ id, bool_decide (fa_project_id r = Some id)) project_id
  && is_none_or (λ id, bool_decide (fa_environment_id r = Some id)) environment_id.

(** The records pass the scope and the token in one [retain], and are sorted by
    identifier before the page is cut. *)
Definition list_audit_events (headers : HeaderMap) (organization_id project_id environment_id page_token : str) (size : N) :
    M ConnectError (list AuditEventMessage * str) :=
  organization_id ← lift (optional_uuid organization_id);
  project_id ← lift (optional_uuid project_id);
  environment_id ← lift (optional_uuid environment_id);
  match audit_scope organization_id project_id environment_id with
  | Some (kind, id) => authorize_fleet authorizer headers CapRead kind id
  | None => authorize authorizer headers CapRead
  end;;
  list_page fa_id audit_to_proto
    (records ← fleet_audit_records;
     mret (sort_by (λ a b, uuid_ltb (fa_id a) (fa_id b))
             (List.filter (audit_visible organization_id project_id environment_id) records)))
    page_token size.
End FleetService.

(** ** Connections *)

(** The realm's side of the management API, reached through a validated client.
    The answers are the realm's own; they do not touch the control plane's store. *)
Record RotateFleetCredentialRequest := mkRotateRequest {
  rq_connection_id : str;
  rq_request_id : str;
  rq_reason : str;
  rq_new_credential : str;
  rq_new_credential_hint : str
}.

Record ExchangePairingCodeRequest := mkExchangeRequest {
  xq_code : str;
  xq_control_plane_origin : str;
  xq_control_plane_instance_id : str;
  xq_request_id : str;
  xq_assignment_epoch : N
}.

Record RevokeFleetConnectionRequest := mkRevokeRequest { vq_connection_id : str; vq_request_id : str; vq_reason : str }.

Record RemoteMutationRequest := mkRemoteRequest {
  mq_connection_id : str;
  mq_request_id : str;
  mq_reason : str;
  mq_expires_at : str;
  mq_operation : RemoteMutationOperation;
  mq_target_id : str;
  mq_secondary_id : str;
  mq_enabled : bool
}.

Record RemoteMutationResult := mkRemoteResult {
  mr_connection_id : str;
  mr_request_id : str;
  mr_operation : option RemoteMutationOperation
}.

Record FleetRealmMutationResult := mkRealmMutationResult {
  fm_result : RemoteMutationResult; fm_source : str; fm_centrally_audited_at : str }.

Record RealmManagement := mkRealm {
  rm_get_discovery : Url * list SocketAddr → result ConnectError RealmDiscovery;
  rm_exchange_pairing_code : Url * list SocketAddr → ExchangePairingCodeRequest → result ConnectError PairingGrant;
  rm_revoke : Url * list SocketAddr → str → RevokeFleetConnectionRequest → result ConnectError unit;
  rm_rotate : Url * list SocketAddr → str → RotateFleetCredentialRequest → result ConnectError PairingGrant;
  rm_execute : Url * list SocketAddr → str → RemoteMutationRequest → result ConnectError RemoteMutationResult
}.

(** [buffa]: the protobuf encodings used on the connector. *)
Class ExtProto := {
  encode_revoke : RevokeFleetConnectionRequest → list N;
  decode_connection_state : list N → option unit;
  encode_rotate : RotateFleetCredentialRequest → list N;
  decode_pairing_grant : list N → option PairingGrant;
  encode_mutation : RemoteMutationRequest → list N;
  decode_mutation_result : list N → option RemoteMutationResult
}.

(** [FleetRpc] without the store *)
Record FleetServer := mkServer {
  fs_authorizer : OperatorAuthorizer;
  fs_credential_keys : KeyRing;
  fs_runtime_environment : Environment;
  fs_control_plane_origin : str;
  fs_control_plane_instance_id : str
}.

Definition MANAGEMENT_TIMEOUT : N := 8.

Section Connections.
Context `{Env, !ExtSigning, !ExtTime, !ExtMac, !ExtUrl, !ExtProto}.
Context `{!Serde FleetOrganizationRecord, !Serde FleetProjectRecord, !Serde FleetEnvironmentRecord}.
Context `{!Serde FleetAuditRecord, !Serde FleetIdempotencyRecord, !Serde FleetRoleBindingRecord}.
Context `{!Serde FleetConnectionAttemptRecord, !Serde FleetConnectionRecord}.
Context `{!Serde AuthEvent, !Serde User, !Serde Session, !Serde OperatorRecord}.
Variable self : FleetServer.
(** The name resolution, the realms, the connector hub and the clock of this call. *)
Variable lookup_host : str → N → option (option (list SocketAddr)).
Variable realm : RealmManagement.
Variable live : Uuid → bool.
Variable deliver : ConnectorFrame → delivery.
Variable now_utc : OffsetDateTime.

Abbreviation client endpoint := (management_client endpoint (fs_runtime_environment self) lookup_host).

Definition revoke_remote_connection (endpoint credential connection_id request_id reason : str) : result ConnectError unit :=
  c ← client endpoint; rm_revoke realm c credential (mkRevokeRequest connection_id request_id reason).

Definition rotate_remote_connection (endpoint credential : str) (request : RotateFleetCredentialRequest) :
    result ConnectError PairingGrant :=
  c ← client endpoint; rm_rotate realm c credential request.

Definition outbound_revoke_connection (connection : FleetConnectionRecord) (request : RevokeFleetConnectionRequest) :
    result ConnectError unit :=
  request_id ← required_uuid (vq_request_id request);
  expires_at ← connector_expiry_after now_utc MANAGEMENT_TIMEOUT;
  payload ← outbound_command live deliver (fs_credential_keys self) connection request_id #"realm.connection.revoke"
    expires_at (encode_revoke request) #"rustyauth.management.v1.RevokeFleetConnectionRequest"
    #"rustyauth.management.v1.FleetConnectionState";
  ok_or (mkConnectError DataLoss "realm connector returned an invalid revocation result") (decode_connection_state payload).

Definition outbound_rotate_connection (connection : FleetConnectionRecord) (request : RotateFleetCredentialRequest)
    (credential : str) : result ConnectError PairingGrant :=
  request_id ← required_uuid (rq_request_id request);
  expires_at ← connector_expiry_after now_utc MANAGEMENT_TIMEOUT;
  payload ← outbound_command_with_credential live deliver connection credential request_id #"realm.connection.rotate"
    expires_at (encode_rotate request) #"rustyauth.management.v1.RotateFleetCredentialRequest"
    #"rustyauth.management.v1.PairingGrant";
  ok_or (mkConnectError DataLoss "realm connector returned an invalid credential rotation result")
    (decode_pairing_grant payload).

Definition list_connections (headers : HeaderMap) (organization_id project_id environment_id page_token : str) (size : N)
    (include_revoked : bool) : M ConnectError (list RealmConnectionMessage * str) :=
  organization_id ← lift (required_uuid organization_id);
  project_id ← lift (optional_uuid project_id);
  environment_id ← lift (optional_uuid environment_id);
  let '(scope_kind, scope_id) :=
    match environment_id, project_id with
    | Some id, _ => (KEnvironment, id)
    | None, Some id => (KProject, id)
    | None, None => (KOrganization, organization_id)
    end in
  authorize_fleet (fs_authorizer self) headers CapRead scope_kind scope_id;;
  list_page fc_id connection_to_proto
    (fleet_connections (Some organization_id) project_id environment_id include_revoked) page_token size.

Definition get_connection (headers : HeaderMap) (organization_id project_id environment_id connection_id : str) :
    M ConnectError RealmConnectionMessage :=
  organization_id ← lift (required_uuid organization_id);
  project_id ← lift (required_uuid project_id);
  environment_id ← lift (required_uuid environment_id);
  authorize_fleet (fs_authorizer self) headers CapRead KEnvironment environment_id;;
  connection_id ← lift (required_uuid connection_id);
  found ← map_err source_error (fleet_connection connection_id);
  record ← some_or not_found (option_filter (in_environment organization_id project_id environment_id) found);
  lift (connection_to_proto record).

Definition begin_connection (headers : HeaderMap) (environment_id : str) (mutation : option MutationContext)
    (mode : option ConnectionMode) (pairing_code management_endpoint organization_id project_id : str) :
    M ConnectError ConnectionAttemptMessage :=
  environment_id ← lift (required_uuid environment_id);
  actor ← authorize_fleet (fs_authorizer self) headers CapAdminister KEnvironment environment_id;
  mutation ← lift (require_mutation mutation);
  mode ← lift (connection_mode mode);
  pairing_code ← lift (match mode with
    | OutboundConnector => code ← safe_secret pairing_code 16 256; Ok (Some code)
    | PublicEndpoint => if bool_decide (pairing_code = []) then Ok None
                        else Err (invalid "pairing_code is valid only for an outbound connection")
    end);
  endpoint ← lift (match mode with
    | PublicEndpoint =>
        url ← safe_management_endpoint management_endpoint (fs_runtime_environment self);
        Ok (trim_end_matches 47 (url_to_string url))
    | OutboundConnector => Ok (fs_control_plane_origin self)
    end);
  organization_id ← lift (required_uuid organization_id);
  project_id ← lift (required_uuid project_id);
  fields ← mutation_fields mutation;
  record ← map_err source_error (create_fleet_connection_attempt organization_id project_id environment_id mode endpoint
    pairing_code fields.1 (u_id (actor_user actor)) fields.2);
  lift (connection_attempt_to_proto record).

(** The record of a realm that answered discovery and the exchange of the code. *)
Definition public_connection (attempt : FleetConnectionAttemptRecord) (discovery : RealmDiscovery) (grant : PairingGrant)
    (id : Uuid) (assignment_epoch : N) (encrypted : EncryptedFleetCredential) : M ConnectError FleetConnectionRecord :=
  realm_id ← lift (safe_text (rd_realm_id discovery) #"realm_id" 128 false);
  hint ← lift (safe_text (pg_credential_hint grant) #"credential_hint" 32 true);
  deployment ← lift (safe_text (rd_deployment_version discovery) #"deployment_version" 64 true);
  protocol ← lift (safe_text (rd_management_protocol_version discovery) #"protocol_version" 32 true);
  issuer ← lift (safe_text (rd_issuer discovery) #"issuer" 512 true);
  rp_id ← lift (safe_text (rd_rp_id discovery) #"rp_id" 253 true);
  seen ← now;
  mret (mkConnection id (at_organization_id attempt) (at_project_id attempt) (at_environment_id attempt) realm_id
    assignment_epoch realm_id (at_mode attempt) (at_management_endpoint attempt) encrypted hint None None None deployment
    protocol (rd_capabilities discovery) (pg_granted_scopes grant) issuer rp_id Healthy (Some seen) 0 0 None).

Definition complete_connection (headers : HeaderMap) (mutation : option MutationContext) (attempt_id pairing_code : str) :
    M ConnectError RealmConnectionMessage :=
  mutation ← lift (require_mutation mutation);
  attempt_id ← lift (required_uuid attempt_id);
  pairing_code ← lift (safe_secret pairing_code 16 256);
  found ← map_err source_error (fleet_connection_attempt attempt_id);
  attempt ← map_err source_error (unexpired_attempt found);
  actor ← authorize_fleet (fs_authorizer self) headers CapAdminister KEnvironment (at_environment_id attempt);
  ensure (negb (bool_decide (at_mode attempt = OutboundConnector)))
    (mkConnectError FailedPrecondition "outbound attempt must be completed from the private realm");;
  c ← lift (client (at_management_endpoint attempt));
  discovery ← map_err management_error (lift (rm_get_discovery realm c));
  lift (validate_management_discovery discovery false);;
  assignment_epoch ← map_err source_error (reserve_fleet_assignment_epoch (rd_realm_id discovery));
  grant ← map_err management_error (lift (rm_exchange_pairing_code realm c
    (mkExchangeRequest pairing_code (fs_control_plane_origin self) (fs_control_plane_instance_id self)
       (mc_request_id mutation) assignment_epoch)));
  ensure (bool_decide (pg_realm_id grant = rd_realm_id discovery) && negb (bool_decide (pg_connection_id grant = []))
          && (pg_assignment_epoch grant =? assignment_epoch))
    (mkConnectError DataLoss "realm pairing response is inconsistent");;
  id ← lift (required_uuid (pg_connection_id grant));
  encrypted ← seal_fleet_credential (fs_credential_keys self) id (pg_credential grant);
  record ← public_connection attempt discovery grant id assignment_epoch encrypted;
  fields ← mutation_fields mutation;
  record ← map_err source_error
    (complete_fleet_connection attempt_id record fields.1 (u_id (actor_user actor)) fields.2);
  lift (connection_to_proto record).

(** One attempt at the realm, with the active or the staged credential. *)
Definition rotate_at_realm (staged : FleetConnectionRecord) (request : RotateFleetCredentialRequest) (credential : str) :
    result ConnectError PairingGrant :=
  match fc_mode staged with
  | PublicEndpoint => rotate_remote_connection (fc_management_endpoint staged) credential request
  | OutboundConnector => outbound_rotate_connection staged request credential
  end.

Definition rotation_consistent (connection_id : Uuid) (staged : FleetConnectionRecord) (remote : PairingGrant) : bool :=
  bool_decide (pg_connection_id remote = uuid_show connection_id) && bool_decide (pg_realm_id remote = fc_realm_id staged)
  && (pg_assignment_epoch remote =? fc_assignment_epoch staged)
  && bool_decide (pg_granted_scopes remote = fc_granted_scopes staged) && bool_decide (pg_credential remote = []).

(** The part of [rotate_connection] after a replay was ruled out *)
Definition rotate_existing (organization_id project_id environment_id connection_id request_id operator_id : Uuid)
    (reason : str) (existing : FleetConnectionRecord) : M ConnectError RealmConnectionMessage :=
  staged ← (if bool_decide (fc_credential_rotation_request_id existing = Some request_id) then mret existing else
    random ← random_bytes 32;
    let credential := #"rfg_" ++ b64url_encode random in
    encrypted ← seal_fleet_credential (fs_credential_keys self) connection_id credential;
    map_err source_error (stage_fleet_connection_credential connection_id encrypted (hint_of credential) request_id));
  active_credential ← lift (open_fleet_credential (fs_credential_keys self) (fc_id staged) (fc_credential staged));
  staged_encrypted ← some_or (mkConnectError DataLoss "staged realm credential is missing") (fc_staged_credential staged);
  staged_credential ← lift (open_fleet_credential (fs_credential_keys self) (fc_id staged) staged_encrypted);
  staged_hint ← some_or (mkConnectError DataLoss "staged credential hint is missing") (fc_staged_credential_hint staged);
  let request := mkRotateRequest (uuid_show connection_id) (uuid_show request_id) reason staged_credential staged_hint in
  remote ← lift (match rotate_at_realm staged request active_credential with
    | Ok response => Ok response
    | Err _ => rotate_at_realm staged request staged_credential
    end);
  ensure (rotation_consistent connection_id staged remote)
    (mkConnectError DataLoss "realm credential rotation response is inconsistent");;
  record ← map_err source_error (rotate_fleet_connection_credential organization_id project_id environment_id connection_id
    request_id operator_id reason);
  lift (connection_to_proto record).

Definition rotate_connection (headers : HeaderMap) (mutation : option MutationContext)
    (organization_id project_id environment_id connection_id : str) : M ConnectError RealmConnectionMessage :=
  mutation ← lift (require_mutation mutation);
  organization_id ← lift (required_uuid organization_id);
  project_id ← lift (required_uuid project_id);
  environment_id ← lift (required_uuid environment_id);
  actor ← authorize_fleet (fs_authorizer self) headers CapAdminister KEnvironment environment_id;
  connection_id ← lift (required_uuid connection_id);
  request_id ← lift (required_uuid (mc_request_id mutation));
  reason ← lift (safe_remote_reason (mc_reason mutation));
  found ← map_err source_error (fleet_connection connection_id);
  existing ← some_or not_found (option_filter (λ r,
    in_environment organization_id project_id environment_id r && connector_connection_usable r) found);
  completed ← map_err source_error (fleet_connection_for_credential_rotation_request request_id);
  match completed with
  | Some completed =>
      ensure (bool_decide (fc_id completed = fc_id existing))
        (mkConnectError AlreadyExists "credential rotation request belongs to another connection");;
      lift (connection_to_proto completed)
  | None => rotate_existing organization_id project_id environment_id connection_id request_id (u_id (actor_user actor))
              reason existing
  end.

Definition outbound_remote_mutation (connection : FleetConnectionRecord) (request : RemoteMutationRequest) :
    result ConnectError RemoteMutationResult :=
  request_id ← required_uuid (mq_request_id request);
  payload ← outbound_command live deliver (fs_credential_keys self) connection request_id #"realm.remote-admin"
    (mq_expires_at request) (encode_mutation request) #"rustyauth.management.v1.RemoteMutationRequest"
    #"rustyauth.management.v1.RemoteMutationResult";
  ok_or (mkConnectError DataLoss "realm connector returned an invalid mutation result") (decode_mutation_result payload).

(** The call itself; opening the credential and building the client fail the handler
    at once, the realm's own failure is returned as a value. *)
Definition execute_at_realm (connection : FleetConnectionRecord) (request : RemoteMutationRequest) :
    result ConnectError (result ConnectError RemoteMutationResult) :=
  match fc_mode connection with
  | PublicEndpoint =>
      credential ← open_fleet_credential (fs_credential_keys self) (fc_id connection) (fc_credential connection);
      c ← client (fc_management_endpoint connection);
      Ok (match rm_execute realm c credential request with Ok r => Ok r | Err e => Err (management_error e) end)
  | OutboundConnector => Ok (outbound_remote_mutation connection request)
  end.

Definition live_source (mode : FleetConnectionModeRecord) : str :=
  match mode with PublicEndpoint => #"live-public-endpoint" | OutboundConnector => #"live-outbound-connector" end.

Definition execute_realm_mutation (headers : HeaderMap) (mutation : option MutationContext)
    (organization_id project_id environment_id connection_id expires_at : str) (operation : option RemoteMutationOperation)
    (target_id secondary_id : str) (enabled : bool) : M ConnectError FleetRealmMutationResult :=
  mutation ← lift (require_mutation mutation);
  organization_id ← lift (required_uuid organization_id);
  project_id ← lift (required_uuid project_id);
  environment_id ← lift (required_uuid environment_id);
  actor ← authorize_fleet (fs_authorizer self) headers CapAdminister KEnvironment environment_id;
  connection_id ← lift (required_uuid connection_id);
  found ← map_err source_error (fleet_connection connection_id);
  connection ← some_or not_found (option_filter (λ r,
    in_environment organization_id project_id environment_id r && connector_connection_usable r) found);
  ensure (existsb (λ c, bool_decide (c.1 = #"realm.remote-admin") && (c.2 =? 1)) (fc_capabilities connection))
    (mkConnectError FailedPrecondition "realm does not support controlled remote administration");;
  request_id ← lift (required_uuid (mc_request_id mutation));
  reason ← lift (safe_remote_reason (mc_reason mutation));
  current ← now;
  lift (validate_remote_expiry expires_at current);;
  operation ← some_or (invalid "remote mutation operation is required")
    (option_filter (λ v, negb (bool_decide (v = OpUnspecified))) operation);
  target_id ← lift (safe_remote_target target_id 1024);
  secondary_id ← lift (if bool_decide (trim secondary_id = []) then Ok [] else safe_remote_target secondary_id 1024);
  outcome ← lift (execute_at_realm connection (mkRemoteRequest (uuid_show (fc_id connection)) (uuid_show request_id) reason
    expires_at operation target_id secondary_id enabled));
  match outcome with
  | Err e => attempt (E := error) (observe_fleet_connection (fc_id connection) Degraded);; fail e
  | Ok remote =>
      ensure (bool_decide (mr_connection_id remote = uuid_show (fc_id connection))
              && bool_decide (mr_request_id remote = uuid_show request_id)
              && bool_decide (mr_operation remote = Some operation))
        (mkConnectError DataLoss "realm mutation response does not match the authenticated request");;
      audit ← map_err source_error (record_fleet_remote_mutation (fc_id connection) request_id (u_id (actor_user actor))
        (#"realm.remote." ++ remote_mutation_action operation) reason);
      map_err source_error (observe_fleet_connection (fc_id connection) Healthy);;
      audited_at ← lift (format_timestamp (fa_occurred_at audit));
      mret (mkRealmMutationResult remote (live_source (fc_mode connection)) audited_at)
  end.

(** [analytics] purges the connection's telemetry and records the outcome. *)
Definition revoke_connection (analytics : option (Uuid → Uuid → Uuid → Uuid → str → M ConnectError unit))
    (headers : HeaderMap) (mutation : option MutationContext)
    (organization_id project_id environment_id connection_id : str) : M ConnectError RealmConnectionMessage :=
  mutation ← lift (require_mutation mutation);
  organization_id ← lift (required_uuid organization_id);
  project_id ← lift (required_uuid project_id);
  environment_id ← lift (required_uuid environment_id);
  actor ← authorize_fleet (fs_authorizer self) headers CapAdminister KEnvironment environment_id;
  id ← lift (required_uuid connection_id);
  found ← map_err source_error (fleet_connection id);
  existing ← some_or not_found (option_filter (in_environment organization_id project_id environment_id) found);
  (if is_revoked existing then mret tt
   else match fc_mode existing with
   | PublicEndpoint =>
       credential ← lift (open_fleet_credential (fs_credential_keys self) (fc_id existing) (fc_credential existing));
       attempt (E := ConnectError) (lift (revoke_remote_connection (fc_management_endpoint existing) credential
         connection_id (mc_request_id mutation) (mc_reason mutation)));;
       mret tt
   | OutboundConnector =>
       attempt (E := ConnectError) (lift (outbound_revoke_connection existing
         (mkRevokeRequest connection_id (mc_request_id mutation) (mc_reason mutation))));;
       mret tt
   end);;
  fields ← mutation_fields mutation;
  record ← map_err source_error (revoke_fleet_connection organization_id project_id environment_id id fields.1
    (u_id (actor_user actor)) fields.2);
  match analytics with
  | Some purge => purge fields.1 organization_id id (u_id (actor_user actor)) fields.2
  | None => mret tt
  end;;
  lift (connection_to_proto record).
End Connections.

(** ** What the handlers guarantee *)

Section Guarantees.
Context `{Env, !ExtSigning, !ExtTime}.
Context `{!Serde FleetOrganizationRecord, !Serde FleetProjectRecord, !Serde FleetEnvironmentRecord}.
Context `{!Serde FleetAuditRecord, !Serde FleetIdempotencyRecord, !Serde FleetRoleBindingRecord}.
Context `{!Serde AuthEvent, !Serde User, !Serde Session, !Serde OperatorRecord}.
Variable authorizer : OperatorAuthorizer.

(** The page of a complete, strictly increasing listing. *)
Definition page_of {T P : Type} (id : T → Uuid) (to_proto : T → result ConnectError P) (visible : T → Prop)
    (token : str) (size : N) (answer : list P * str) : Prop :=
  ∃ after n all, decode_page_token token = Ok after ∧ page_size size = Ok n ∧
    StronglySorted (id_before id) all ∧ (∀ r, r ∈ all ↔ visible r) ∧
    collect to_proto (page id after n all).1 = Ok answer.1 ∧ answer.2 = (page id after n all).2.

Lemma wp_list_page {T P : Type} `{!Serde T} prefix key (id : T → Uuid) (to_proto : T → result ConnectError P) (R : T → Prop)
    (load : Uuid → M error (option T)) p token size o w :
  (∀ i, key i = prefix ++ uuid_show i) → records key id R (vw w) → (∀ i, load i = get_json (key i)) →
  wp (list_page id to_proto
        (ids ← record_ids prefix; rs ← load_records (load_if load p) ids;
         mret (sort_by (λ a b, uuid_ltb (id a) (id b)) rs)) token size) o w
    (λ r _, ∀ answer, r = Ok answer →
       page_of id to_proto (λ x, p x = true ∧ ∃ i, holds (vw w) (key i) x) token size answer).
Proof.
  intros Hkey Hok Hload. unfold list_page. apply wp_bind, wp_lift. destruct (decode_page_token token) as [after|] eqn:Ha; [|done].
  apply wp_bind, wp_lift. destruct (page_size size) as [n|] eqn:Hn; [|done].
  apply wp_bind, wp_map_err. apply (wp_listing_sorted prefix key id R); [done..|].
  intros all w' Hv Hs Hall. destruct (page id after n all) as [rs next] eqn:Hp.
  apply wp_bind, wp_lift. destruct (collect to_proto rs) as [ms|] eqn:Hc; [|done].
  apply wp_ret. intros answer [= <-]. exists after, n, all. rewrite Hp. by split_and!.
Qed.

(** The project listing answers only an authenticated caller who may read the
    organization, with the requested page of a complete listing: the records of
    that organization and of no other, archived ones when asked for, in strictly
    increasing order. *)
Theorem list_projects_exact headers organization_id token size include_archived o w answer w' :
  accounts_ok (vw w) → grants_persist (vw w) → fleet_ok (vw w) → bindings_ok (vw w) →
  list_projects authorizer headers organization_id token size include_archived o w = (Ok answer, w') →
  ∃ org a m, required_uuid organization_id = Ok org ∧ fleet_granted (vw w) a CapRead KOrganization org ∧
    authenticated_as authorizer headers (vw w) m a ∧
    page_of fp_id project_to_proto (λ r, (∃ i, holds (vw w) (project_key i) r) ∧ fp_organization_id r = org ∧
      (include_archived = true ∨ fp_state r = FleetActive)) token size answer.
Proof.
  intros Hacc Hg Hf Hb Hrun.
  enough (wp (list_projects authorizer headers organization_id token size include_archived) o w (λ r _,
    ∀ answer, r = Ok answer → ∃ org a m, required_uuid organization_id = Ok org ∧
      fleet_granted (vw w) a CapRead KOrganization org ∧ authenticated_as authorizer headers (vw w) m a ∧
      page_of fp_id project_to_proto (λ r, (∃ i, holds (vw w) (project_key i) r) ∧ fp_organization_id r = org ∧
        (include_archived = true ∨ fp_state r = FleetActive)) token size answer)) as Hw.
  { unfold wp in Hw. rewrite Hrun in Hw. by apply Hw. }
  clear Hrun answer w'. unfold list_projects. apply wp_bind, wp_lift.
  destruct (required_uuid organization_id) as [org|] eqn:Horg; [|done].
  apply wp_bind, wp_authorize_fleet; [done..|]. intros a w1 Hag Hau Hgr _.
  destruct (fleet_agree _ _ Hag Hf Hb) as [Hf1 _].
  eapply wp_mono; [eapply (wp_list_page PROJECT_PREFIX project_key); [done|apply (fk_projects _ Hf1)|done]|].
  intros r w2 Hr answer ->. destruct (Hr answer eq_refl) as (after & n & all & Ht & Hn & Hs & Hall & Hc & Hnext).
  exists org, a, (vw w1). split_and!; [done..|]. exists after, n, all. split_and!; [done..| |done|done].
  intros x. rewrite Hall, andb_true_iff, orb_true_iff. unfold is_active. rewrite !bool_decide_eq_true.
  assert (Hh : ∀ i, holds (vw w1) (project_key i) x ↔ holds (vw w) (project_key i) x).
  { intros i. unfold holds. by rewrite Hag. }
  setoid_rewrite Hh. tauto.
Qed.

(** C6: Delegation never exceeds the delegator: a role binding is granted or changed
    only by an authenticated, freshly confirmed administrator of the resource whose
    own fleet role there is at least as strong as the role granted, and the only
    binding that changes is the one of the named operator on the named resource. *)
Theorem delegation_bounded headers kind res mutation role oper k id target op rid o w a w1 message w' :
  accounts_ok (vw w) → grants_persist (vw w) → fleet_ok (vw w) → bindings_ok (vw w) →
  resource_kind_record kind = Ok k → required_uuid res = Ok id → fleet_role_record role = Ok target →
  required_uuid oper = Ok op → required_uuid (mc_request_id mutation) = Ok rid →
  authorize_fleet authorizer headers CapAdminister k id o w = (Ok a, w1) → fresh_id role_binding_key o w1 →
  upsert_role_binding authorizer headers kind res (Some mutation) role oper o w = (Ok message, w') →
  fleet_granted (vw w) a CapAdminister k id ∧ confirmed o CapAdminister (actor_session a) ∧
  (∃ own, authority (vw w1) a k id own ∧ fleet_role_rank own ≤ fleet_role_rank target) ∧
  (∀ s r, bound (vw w') s r → bound (vw w1) s r ∨ fb_role r = target ∧ s = role_binding_subject_key op k id) ∧
  (vw w1 !! idempotency_key rid = None → ∃ r, in_force (vw w') op k id r ∧ fb_role r = target).
Proof.
  intros Hacc Hg Hf Hb Hk Hid Hrole Hop Hrid Hauth Hfresh Hrun.
  assert (Hsound : fleet_granted (vw w) a CapAdminister k id ∧ confirmed o CapAdminister (actor_session a) ∧
    agree_on (λ k, is_fleet_key k = true) (vw w) (vw w1)).
  { enough (wp (authorize_fleet authorizer headers CapAdminister k id) o w (λ r w1, ∀ a, r = Ok a →
      fleet_granted (vw w) a CapAdminister k id ∧ confirmed o CapAdminister (actor_session a) ∧
      agree_on (λ k, is_fleet_key k = true) (vw w) (vw w1))) as Hw; [unfold wp in Hw; rewrite Hauth in Hw; by apply Hw|].
    apply wp_authorize_fleet; [done..|]. by intros x w2 Hag _ Hgr Hc ? [= <-]. }
  destruct Hsound as (Hgr & Hconf & Hag). destruct (fleet_agree _ _ Hag Hf Hb) as [Hf1 Hb1].
  split; [done|]. split; [done|].
  unfold upsert_role_binding in Hrun. cbn [mbind M_bind] in Hrun. unfold mbind, M_bind, lift in Hrun.
  rewrite Hk in Hrun. cbv beta iota in Hrun. rewrite Hid in Hrun. cbv beta iota in Hrun. rewrite Hauth in Hrun. cbv beta iota in Hrun.
  cbn [require_mutation ok_or] in Hrun. rewrite Hrole in Hrun. cbv beta iota in Hrun.
  pose proof (wp_dominance authorizer a k id target o w1 (λ r w2, ∀ u, r = Ok u → undisturbed w1 w2 ∧
    ∃ own, authority (vw w1) a k id own ∧ fleet_role_rank own ≤ fleet_role_rank target) Hf1 Hb1) as Hdom.
  unfold wp in Hdom. destruct (require_fleet_role_dominance _ _ _ _ _ o w1) as [[[]|e] w2]; [|done].
  cbn [fst snd] in Hdom.
  destruct (Hdom ltac:(done) ltac:(by intros own w3 Hw3 Ho Hle u _; split; [|by exists own]) tt eq_refl) as [[Hv2 Hu2] Hown].
  split; [exact Hown|]. rewrite Hop in Hrun. cbv beta iota in Hrun.
  unfold mutation_fields, mbind, M_bind, lift in Hrun. rewrite Hrid in Hrun. cbv beta iota in Hrun.
  destruct (safe_text (mc_reason mutation) _ _ _) as [reason|]; [|done].
  unfold mret, M_ret, map_err in Hrun. cbv beta iota in Hrun. cbn [fst snd] in Hrun.
  assert (Hfresh2 : fresh_id role_binding_key o w2) by (unfold fresh_id in *; by rewrite Hv2, Hu2).
  rewrite <- Hv2 in Hf1, Hb1 |- *.
  pose proof (wp_upsert op k id target rid (u_id (actor_user a)) reason o w2 Hf1 Hb1 Hfresh2) as Hup. unfold wp in Hup.
  destruct (upsert_fleet_role_binding _ _ _ _ _ _ _ o w2) as [[r|e] w3]; [|done]. cbn [fst snd] in Hup.
  assert (w3 = w') as -> by (by injection Hrun). destruct Hup as (_ & Hbound & Hnew). split.
  - intros s x [Hx|(_ & Hx & Hs)]%Hbound; [by left|by right].
  - intros Hn. exists r. by apply Hnew.
Qed.
End Guarantees.

(** ** Concrete runs *)

Module DemoService.
Import DemoEnv DemoFleet DemoRoles DemoSigning DemoConnections DemoConnector.

Lemma paging_terminates_witness :
  walk_pages (λ u, u) 2 (demo_uuid_of <$> [1; 2; 3; 4; 5]%nat) 3 []
  = Some [demo_uuid_of <$> [1; 2]%nat; demo_uuid_of <$> [3; 4]%nat; demo_uuid_of <$> [5]%nat].
Proof.
  assert (Hs : StronglySorted (id_before (λ u, u)) (demo_uuid_of <$> [1; 2; 3; 4; 5]%nat)).
  { repeat constructor. }
  destruct (paging_terminates (λ u, u) 2 2 (demo_uuid_of <$> [1; 2; 3; 4; 5]%nat) eq_refl Hs) as (pages & Hw & _).
  transitivity (Some pages); [exact Hw|]. rewrite <- Hw. vm_compute. reflexivity.
Defined.

Abbreviation demo_listing :=
  (list_projects demo_authorizer demo_console_headers (uuid_show demo_org) [] 0 false demo_oracle demo_delegated.2).

Lemma list_projects_exact_witness :
  ∃ answer, demo_listing = (Ok answer, demo_listing.2) ∧ length answer.1 = 1%nat ∧
    ∃ org a, required_uuid (uuid_show demo_org) = Ok org ∧ fleet_granted (vw demo_delegated.2) a CapRead KOrganization org.
Proof.
  assert (Hok : match demo_listing.1 with Ok answer => (length answer.1 =? 1)%nat | Err _ => false end = true) by eval_eq.
  destruct (demo_listing.1) as [answer|e] eqn:Hr; [|discriminate Hok].
  assert (Hrun : demo_listing = (Ok answer, demo_listing.2)) by (rewrite <- Hr; by destruct demo_listing).
  exists answer. split; [exact Hrun|]. split; [by apply Nat.eqb_eq|]. destruct demo_delegated_state as [Ha Hg Hf Hb].
  destruct (list_projects_exact demo_authorizer demo_console_headers (uuid_show demo_org) [] 0 false demo_oracle
    demo_delegated.2 answer demo_listing.2 Ha Hg Hf Hb Hrun) as (org & a & m & Horg & Hgr & _).
  exists org, a. exact (conj Horg Hgr).
Defined.

(** The delegated administrator of the organization appoints an auditor of the project. *)
Definition demo_mutation (n : nat) : MutationContext := mkMutation (uuid_show (demo_uuid_of n)) #"quarterly review".
Abbreviation demo_access :=
  (authorize_fleet demo_authorizer demo_console_headers CapAdminister KProject demo_project demo_oracle demo_delegated.2).
Abbreviation demo_appointment :=
  (upsert_role_binding demo_authorizer demo_console_headers (Some ResourceProject) (uuid_show demo_project)
     (Some (demo_mutation 105)) (Some RoleAuditor) (uuid_show (demo_uuid_of 901)) demo_oracle demo_delegated.2).

Lemma delegation_bounded_witness :
  ∃ message, demo_appointment = (Ok message, demo_appointment.2) ∧
    ∃ r, in_force (vw demo_appointment.2) (demo_uuid_of 901) KProject demo_project r ∧ fb_role r = FleetAuditor.
Proof.
  assert (Hok : is_ok demo_appointment.1 = true) by eval_eq.
  destruct (demo_appointment.1) as [message|e] eqn:Hr; [|discriminate Hok].
  assert (Hrun : demo_appointment = (Ok message, demo_appointment.2)) by (rewrite <- Hr; by destruct demo_appointment).
  assert (Hok1 : is_ok demo_access.1 = true) by eval_eq.
  destruct (demo_access.1) as [a|e] eqn:Hr1; [|discriminate Hok1].
  assert (Hrun1 : demo_access = (Ok a, demo_access.2)) by (rewrite <- Hr1; by destruct demo_access).
  exists message. split; [exact Hrun|]. destruct demo_delegated_state as [Ha Hg Hf Hb].
  destruct (delegation_bounded demo_authorizer demo_console_headers (Some ResourceProject) (uuid_show demo_project)
    (demo_mutation 105) (Some RoleAuditor) (uuid_show (demo_uuid_of 901)) KProject demo_project FleetAuditor (demo_uuid_of 901)
    (demo_uuid_of 105) demo_oracle demo_delegated.2 a demo_access.2 message demo_appointment.2 Ha Hg Hf Hb
    eq_refl ltac:(eval_eq) eq_refl ltac:(eval_eq) ltac:(eval_eq) Hrun1 ltac:(unfold fresh_id; eval_eq) Hrun)
    as (_ & _ & _ & _ & Hnew).
  apply Hnew. eval_eq.
Defined.

(** An organization's owner binding, in the hands of a delegated administrator:
    revoking it is refused, but upserting the same operator with a weaker role
    replaces it. *)
Abbreviation demo_owner_bound :=
  (upsert_fleet_role_binding (demo_uuid_of 902) KOrganization demo_org FleetOwner (demo_uuid_of 106) demo_operator #"setup"
     demo_oracle demo_delegated.2).
Definition demo_owner_binding : Uuid :=
  Eval vm_compute in match demo_owner_bound.1 with Ok r => fb_id r | Err _ => demo_uuid_of 0 end.
Abbreviation demo_role_of w :=
  (match (fleet_role_binding demo_owner_binding demo_oracle w).1 with Ok (Some r) => Some (fb_role r) | _ => None end).
Abbreviation demo_overwrite :=
  (upsert_role_binding demo_authorizer demo_console_headers (Some ResourceOrganization) (uuid_show demo_org)
     (Some (demo_mutation 107)) (Some RoleAuditor) (uuid_show (demo_uuid_of 902)) demo_oracle demo_owner_bound.2).

Example owner_demoted_by_administrator :
  (revoke_role_binding demo_authorizer demo_console_headers (uuid_show demo_owner_binding) (Some (demo_mutation 107))
     demo_oracle demo_owner_bound.2).1 = Err (permission_denied "operator role does not dominate the requested Fleet role") ∧
  demo_role_of demo_owner_bound.2 = Some FleetOwner ∧ is_ok demo_overwrite.1 = true ∧
  demo_role_of demo_overwrite.2 = Some FleetAuditor.
Proof. split_and!; eval_eq. Qed.

(** Two connections whose wrapping key is no longer in the ring: the one reached
    over a private connector is revoked locally, the public one is not. *)
Abbreviation demo_new_environment :=
  (perform_fleet (CreateEnvironment demo_org demo_project #"prod" #"Production" Production [] []) (demo_uuid_of 108)
     demo_operator #"setup" demo_oracle demo_delegated.2).
Definition demo_env : Uuid :=
  Eval vm_compute in match demo_new_environment.1 with Ok id => id | Err _ => demo_uuid_of 0 end.
Definition demo_orphaned (mode : FleetConnectionModeRecord) : FleetConnectionRecord :=
  mkConnection (demo_uuid_of 600) demo_org demo_project demo_env #"realm-a" 1 #"realm-a" mode
    #"https://auth.customer.example" (mkFleetCredential #"retired" [] []) [] None None None [] [] [] [] [] [] Healthy None 0 0 None.
Abbreviation demo_planted mode :=
  (execute [SET (connection_key (demo_uuid_of 600)) (to_json (demo_orphaned mode))] demo_oracle demo_new_environment.2).2.

#[local] Instance demo_proto : ExtProto :=
  {| encode_revoke _ := []; decode_connection_state _ := None; encode_rotate _ := []; decode_pairing_grant _ := None;
     encode_mutation _ := []; decode_mutation_result _ := None |}.
#[local] Instance demo_no_urls : ExtUrl := {| url_parse _ := None |}.
Definition demo_server : FleetServer := mkServer demo_authorizer demo_ring EnvProduction #"https://fleet" #"fleet-1".
Definition demo_silent_realm : RealmManagement :=
  mkRealm (λ _, Err connector_offline) (λ _ _, Err connector_offline) (λ _ _ _, Err connector_offline)
    (λ _ _ _, Err connector_offline) (λ _ _ _, Err connector_offline).
Abbreviation demo_revoke mode :=
  (revoke_connection demo_server (λ _ _, None) demo_silent_realm (λ _, false) (λ _, NoReply) 1000 None demo_console_headers
     (Some (demo_mutation 109)) (uuid_show demo_org) (uuid_show demo_project) (uuid_show demo_env)
     (uuid_show (demo_uuid_of 600)) demo_oracle (demo_planted mode)).
Abbreviation demo_state_of w :=
  (match (fleet_connection (demo_uuid_of 600) demo_oracle w).1 with Ok (Some r) => Some (fc_state r) | _ => None end).

Example public_revocation_blocked :
  (demo_revoke PublicEndpoint).1
    = Err (mkConnectError FailedPrecondition "realm credential requires an unavailable wrapping key") ∧
  demo_state_of (demo_revoke PublicEndpoint).2 = Some Healthy ∧
  is_ok (demo_revoke OutboundConnector).1 = true ∧ demo_state_of (demo_revoke OutboundConnector).2 = Some Revoked.
Proof. split_and!; eval_eq. Qed.
End DemoService.
