(* ===== verification/System.v ===== *)
(** * The store as a whole (impl Store in src/src/store.rs and src/src/store/)

    The mutating operations of the modelled components, in any order and with any
    loss of requests and replies, from an empty datastore. *)

From S2P Require Import Prelude Sable Logic Demo Records Events Identifiers Users Invitations Accounts Sessions Touches.
From S2P Require Import Credentials Recovery Ceremonies Verification Organization Webhooks ServiceAccounts.

Section System.
Context `{Env}.
Context `{!Serde AuthEvent, !Serde User, !Serde Session, !Serde AccountInvitationRecord}.
Context `{!Serde RegistrationCeremony, !Serde AuthenticationCeremony, !Serde LocalAgentHandoff}.
Context `{!Serde IdentifierVerificationChallenge, !Serde OrganizationRecord, !Serde OperatorRecord}.
Context `{!Serde WebhookRecord, !Serde WebhookDeliveryRecord, !Serde ServiceAccountRecord, !Serde ServiceCredentialLocator}.

Inductive operation :=
  | AppendEvent (event_type : str) (subject : option Uuid)
  | AppendEventWithData (event_type : str) (subject : option Uuid) (data : Value)
  | AppendTelemetryEvents (inputs : list (str * option Uuid * Value))
  | PruneEvents (cutoff maximum : N)
  | CreateUser (id : Uuid) (i : IdentifierValue) (p : AccountProfile) (pk : Passkey) (verified : bool) (claim : option (Uuid * str))
  | UpdateProfile (id : Uuid) (p : AccountProfile)
  | AddIdentifier (id : Uuid) (i : IdentifierValue) (verified : bool)
  | RemoveIdentifier (id : Uuid) (i : IdentifierValue)
  | SetPrimaryIdentifier (id : Uuid) (i : IdentifierValue)
  | SetIdentifierVerification (id : Uuid) (i : IdentifierValue) (verified : bool)
  | CreateInvitation (i : IdentifierValue) (by_ : Uuid) (lifetime : N)
  | ConsumeInvitation (i : IdentifierValue) (code : str)
  | ConsumeInvitationClaim (i : IdentifierValue) (id : Uuid) (digest : str)
  | RevokeInvitation (id : Uuid)
  | CreateSession (u : User) (origin : SessionOrigin) (seconds : N)
  | ReadSession (token : str) (idle : N)
  | DeleteSession (token : str)
  | MarkStepUp (token : str) (session_id : Uuid) (credential : str)
  | RevokeAllSessions (id : Uuid)
  | SignIn (id : Uuid) (r : AuthenticationResult) (seconds : N)
  | ApplyAuthentication (id : Uuid) (r : AuthenticationResult)
  | AddPasskey (id : Uuid) (label : str) (pk : Passkey)
  | RenamePasskey (id : Uuid) (credential label : str)
  | RevokePasskey (id : Uuid) (credential : str)
  | RotateRecoveryCodes (id : Uuid)
  | ConsumeRecoveryCode (i : IdentifierValue) (code : str)
  | AddRecoveryPasskey (id : Uuid) (label : str) (pk : Passkey)
  | SaveRegistration (c : RegistrationCeremony)
  | TakeRegistration (id : Uuid)
  | SaveAuthentication (c : AuthenticationCeremony)
  | TakeAuthentication (id : Uuid)
  | CreateHandoff (email redirect : str) (lifetime : N)
  | TakeHandoff (code : str)
  | CreateVerification (id : Uuid) (i : IdentifierValue)
  | ConsumeVerification (challenge id : Uuid) (code : str)
  | DeleteVerification (challenge : Uuid)
  | EnsureOrganization (name : str)
  | UpdateOrganization (name : str)
  | EnsureOperator (u : User) (allowed : bool)
  | PromoteOperator (id : Uuid) (role : OperatorRoleRecord)
  | DemoteOperator (id : Uuid)
  | PutWebhook (r : WebhookRecord) (event_type : str)
  | UpdateWebhookRuntime (r : WebhookRecord)
  | RemoveWebhook (id : str)
  | SetWebhookCursor (id : str) (sequence : N)
  | PutDelivery (r : WebhookDeliveryRecord)
  | PruneDeliveries (cutoff : N) (limit : nat)
  | CreateServiceAccount (name description : str) (scopes : list str) (by_ : Uuid)
  | UpdateServiceAccount (id : Uuid) (name description : str) (status : ServiceAccountStatusRecord) (scopes : list str)
  | CreateServiceCredential (id : Uuid) (name : str) (expires : option N)
  | RevokeServiceCredential (id credential : Uuid)
  | ExchangeServiceCredential (raw : str) (scopes : list str).

(** Run a program for its effect. *)
Definition effect {A : Type} (p : M error A) : M error unit := _ ← p; mret tt.

Definition perform (self : Store) (op : operation) : M error unit :=
  match op with
  | AppendEvent ty subj => effect (append_event self ty subj)
  | AppendEventWithData ty subj data => effect (append_event_with_data self ty subj data)
  | AppendTelemetryEvents inputs => effect (append_telemetry_events self inputs)
  | PruneEvents cutoff maximum => effect (prune_events_older_than cutoff maximum)
  | CreateUser id i p pk v claim => effect (create_user_with_passkey self id i p pk v claim)
  | UpdateProfile id p => effect (update_profile self id p)
  | AddIdentifier id i v => effect (add_identifier self id i v)
  | RemoveIdentifier id i => effect (remove_identifier self id i)
  | SetPrimaryIdentifier id i => effect (set_primary_identifier self id i)
  | SetIdentifierVerification id i v => effect (set_identifier_verification self id i v)
  | CreateInvitation i by_ n => effect (create_account_invitation self i by_ n)
  | ConsumeInvitation i code => effect (consume_account_invitation self i code)
  | ConsumeInvitationClaim i id d => effect (consume_account_invitation_claim self i id d)
  | RevokeInvitation id => effect (revoke_account_invitation self id)
  | CreateSession u origin n => effect (create_session self u origin n)
  | ReadSession token idle => effect (session token idle)
  | DeleteSession token => effect (delete_session token)
  | MarkStepUp token id c => effect (mark_session_step_up self token id c)
  | RevokeAllSessions id => effect (revoke_all_sessions self id)
  | SignIn id r n => effect (apply_authentication_and_create_session self id r n)
  | ApplyAuthentication id r => effect (apply_authentication id r)
  | AddPasskey id l pk => effect (add_passkey self id l pk)
  | RenamePasskey id c l => effect (rename_passkey self id c l)
  | RevokePasskey id c => effect (revoke_passkey self id c)
  | RotateRecoveryCodes id => effect (rotate_recovery_codes self id)
  | ConsumeRecoveryCode i code => effect (consume_recovery_code self i code)
  | AddRecoveryPasskey id l pk => effect (add_recovery_passkey self id l pk)
  | SaveRegistration c => effect (save_registration c)
  | TakeRegistration id => effect (take_registration id)
  | SaveAuthentication c => effect (save_authentication c)
  | TakeAuthentication id => effect (take_authentication id)
  | CreateHandoff e r n => effect (create_local_agent_handoff self e r n)
  | TakeHandoff code => effect (take_local_agent_handoff code)
  | CreateVerification id i => effect (create_identifier_verification self id i)
  | ConsumeVerification c id code => effect (consume_identifier_verification c id code)
  | DeleteVerification c => effect (delete_identifier_verification c)
  | EnsureOrganization n => effect (ensure_organization self n)
  | UpdateOrganization n => effect (update_organization self n)
  | EnsureOperator u b => effect (ensure_operator self u b)
  | PromoteOperator id r => effect (promote_operator self id r)
  | DemoteOperator id => effect (demote_operator self id)
  | PutWebhook r ty => effect (put_webhook self r ty)
  | UpdateWebhookRuntime r => effect (update_webhook_runtime r)
  | RemoveWebhook id => effect (remove_webhook self id)
  | SetWebhookCursor id n => effect (set_webhook_cursor id n)
  | PutDelivery r => effect (put_webhook_delivery self r)
  | PruneDeliveries c l => effect (prune_webhook_deliveries_older_than c l)
  | CreateServiceAccount n d s b => effect (create_service_account self n d s b)
  | UpdateServiceAccount id n d st s => effect (update_service_account self id n d st s)
  | CreateServiceCredential id n e => effect (create_service_credential self id n e)
  | RevokeServiceCredential id c => effect (revoke_service_credential self id c)
  | ExchangeServiceCredential raw s => effect (exchange_service_credential self raw s)
  end.

(** What the environment guarantees: a new account has an unused identifier, the
    digests of freshly drawn recovery codes differ, and the event counter is below
    its last value when the log is pruned. *)
Definition enabled (op : operation) (o : oracle) (w : world) : Prop :=
  match op with
  | CreateUser id _ _ _ _ _ => vw w !! user_key id = None
  | RotateRecoveryCodes id => NoDup (drawn_digests id o w)
  | PruneEvents _ _ => ∀ lo hi, log_ok (vw w) lo hi → hi < u64_max
  | _ => True
  end.

(** One operation, or work elsewhere in the datastore (limits, leases, signing keys). *)
Inductive system_step (self : Store) : world → world → Prop :=
  | step_perform op o w : enabled op o w → system_step self w (perform self op o w).2
  | step_foreign w w' :
      agree_on (λ k, is_account_key k = true ∨ is_log_key k = true) (vw w) (vw w') → system_step self w w'.

(** ** The log *)

Lemma effect_state {A : Type} (p : M error A) o w : (effect p o w).2 = (p o w).2.
Proof. unfold effect, mbind, M_bind. by destruct (p o w) as [[a|e] w']. Qed.

Create HintDb system_log discriminated.
#[local] Hint Resolve append_event_locked_extends append_event_with_data_extends append_telemetry_events_extends create_user_extends update_profile_extends : system_log.
#[local] Hint Resolve add_identifier_extends remove_identifier_extends set_primary_identifier_extends set_identifier_verification_extends create_account_invitation_extends : system_log.
#[local] Hint Resolve consume_account_invitation_extends consume_claim_extends revoke_account_invitation_extends create_session_extends session_extends : system_log.
#[local] Hint Resolve delete_session_extends mark_session_step_up_extends revoke_all_sessions_extends apply_and_create_extends apply_authentication_extends : system_log.
#[local] Hint Resolve add_passkey_extends rename_passkey_extends revoke_passkey_extends rotate_recovery_codes_extends consume_recovery_code_extends : system_log.
#[local] Hint Resolve add_recovery_passkey_extends save_registration_extends take_registration_extends save_authentication_extends take_authentication_extends : system_log.
#[local] Hint Resolve create_local_agent_handoff_extends take_local_agent_handoff_extends create_identifier_verification_extends consume_identifier_verification_extends delete_identifier_verification_extends : system_log.
#[local] Hint Resolve ensure_organization_extends update_organization_extends ensure_operator_extends promote_operator_extends demote_operator_extends : system_log.
#[local] Hint Resolve put_webhook_extends update_webhook_runtime_extends remove_webhook_extends set_webhook_cursor_extends put_webhook_delivery_extends : system_log.
#[local] Hint Resolve prune_webhook_deliveries_extends create_service_account_extends update_service_account_extends create_service_credential_extends revoke_service_credential_extends : system_log.
#[local] Hint Resolve exchange_service_credential_extends : system_log.

Lemma perform_extends self op :
  match op with PruneEvents _ _ => True | _ => moves log_extends (perform self op) end.
Proof.
  destruct op; try done; cbn [perform]; unfold effect; (apply moves_bind; [apply _| |intros; apply moves_ret, _]);
    auto with system_log nocore.
Qed.

(** ** The accounts *)

Lemma append_event_with_data_accounts self ty subj data : leaves is_account_key (append_event_with_data self ty subj data).
Proof. unfold append_event_with_data, pop_event. leaves_go off_log_accounts. Qed.
Lemma append_telemetry_events_accounts self inputs : leaves is_account_key (append_telemetry_events self inputs).
Proof. unfold append_telemetry_events. leaves_go off_log_accounts. apply (leaves_commit _ []); [apply off_log_accounts|done]. Qed.
Lemma append_event_accounts self ty subj : leaves is_account_key (append_event self ty subj).
Proof. apply leaves_append, off_log_accounts. Qed.

Lemma keeps_leaves {A : Type} (p : M error A) o : leaves is_account_key p → keeps o accounts_ok p.
Proof. intros Hp. eapply keeps_moves; [exact Hp|]. intros m m' Hm. by apply accounts_ok_agree. Qed.

Create HintDb system_accounts discriminated.
#[local] Hint Resolve append_event_accounts append_event_with_data_accounts append_telemetry_events_accounts : system_accounts.
#[local] Hint Resolve create_account_invitation_accounts consume_claim_accounts consume_account_invitation_accounts revoke_account_invitation_accounts create_session_accounts : system_accounts.
#[local] Hint Resolve session_accounts delete_session_accounts mark_session_step_up_accounts save_registration_accounts save_authentication_accounts : system_accounts.
#[local] Hint Resolve take_registration_accounts take_authentication_accounts take_local_agent_handoff_accounts create_local_agent_handoff_accounts create_identifier_verification_accounts : system_accounts.
#[local] Hint Resolve consume_identifier_verification_accounts delete_identifier_verification_accounts ensure_organization_accounts update_organization_accounts ensure_operator_accounts : system_accounts.
#[local] Hint Resolve promote_operator_accounts demote_operator_accounts put_webhook_accounts update_webhook_runtime_accounts remove_webhook_accounts : system_accounts.
#[local] Hint Resolve set_webhook_cursor_accounts put_webhook_delivery_accounts prune_webhook_deliveries_accounts prune_events_accounts create_service_account_accounts : system_accounts.
#[local] Hint Resolve update_service_account_accounts create_service_credential_accounts exchange_service_credential_accounts revoke_service_credential_accounts : system_accounts.
#[local] Hint Resolve revoke_all_sessions_accounts sign_in_accounts apply_authentication_accounts add_passkey_accounts rename_passkey_accounts : system_accounts.
#[local] Hint Resolve revoke_passkey_accounts consume_recovery_code_accounts add_recovery_passkey_accounts update_profile_accounts set_primary_identifier_accounts : system_accounts.
#[local] Hint Resolve set_identifier_verification_accounts add_identifier_accounts remove_identifier_accounts : system_accounts.

Lemma perform_accounts self op o w :
  enabled op o w → accounts_ok (vw w) → accounts_ok (vw (perform self op o w).2).
Proof.
  intros He Hacc. destruct op; cbn [perform]; rewrite effect_state;
    match goal with
    | |- accounts_ok (vw (?p o w).2) =>
        first [ apply (keeps_leaves p o); [solve [auto with system_accounts nocore]|exact Hacc]
              | refine ((_ : keeps o accounts_ok p) w Hacc); solve [auto with system_accounts nocore]
              | idtac ]
    end.
  - by apply (wp_create_user self id i p pk verified claim o w Hacc He).
  - by apply (wp_rotate_recovery_codes self id o w Hacc He).
Qed.

(** ** Reachable states *)

Record system_ok (m : gmap str entry) : Prop := {
  sys_accounts : accounts_ok m;
  sys_log : ∃ lo hi, log_ok m lo hi
}.

Lemma system_step_ok self w w' : system_step self w w' → system_ok (vw w) → system_ok (vw w').
Proof.
  intros Hstep [Hacc (lo & hi & Hlog)]. destruct Hstep as [op o w He|w w' Ha].
  - split; [by apply perform_accounts|]. pose proof (perform_extends self op) as Hext.
    destruct op; try (destruct (Hext o w lo hi Hlog) as (hi' & _ & Hlog' & _); by exists lo, hi').
    cbn [perform]. rewrite effect_state. destruct (wp_retention cutoff maximum lo hi o w Hlog (He _ _ Hlog)) as (lo' & Hr & _).
    exists lo', hi. apply (rt_log _ _ _ _ _ _ Hr).
  - split; [eapply accounts_ok_agree; [|done]; intros k Hk; apply Ha; by left|]. exists lo, hi.
    eapply log_ok_agree; [|done]. intros k Hk. apply Ha. by right.
Qed.

Lemma system_steps_ok self w w' : rtc (system_step self) w w' → system_ok (vw w) → system_ok (vw w').
Proof. induction 1 as [|w1 w2 w3 H1 _ IH]; [done|]. intros Hok. by eapply IH, system_step_ok. Qed.

Lemma system_ok_empty : system_ok ∅.
Proof.
  split; [|exists 1, 0; split; [by right|by right|by vm_compute|lia]].
  split; intros; rewrite ?lookup_empty in *; try done.
  all: match goal with Hs : stored_user ∅ _ _ |- _ => destruct Hs as (v & u0 & Hk & _); by rewrite lookup_empty in Hk end.
Qed.

(** C1: every reachable state is consistent.  From an empty datastore, after any
    sequence of the store's operations and of work elsewhere in the datastore, with
    requests and replies lost at will: two stored accounts that share a contact
    identifier or a passkey credential are the same account; the index finds exactly
    the account an identifier is linked to, or reports that there is none; and a
    reader of the event log never sees a missing, malformed or misnumbered event. *)
Theorem reachable_consistent self w0 w :
  vw w0 = ∅ → rtc (system_step self) w0 w →
  (∀ id1 u1 id2 u2, stored_user (vw w) id1 u1 → stored_user (vw w) id2 u2 →
     (∃ i, i ∈ linked u1 ∧ i ∈ linked u2) ∨ (∃ c, c ∈ credentials u1 ∧ c ∈ credentials u2) →
     id1 = id2 ∧ u1 = u2) ∧
  (∀ i o, match (user_by_identifier i o w).1 with
          | Ok (Some u) => ∃ id, stored_user (vw w) id u ∧ i ∈ linked u
          | Ok None => ∀ id u, stored_user (vw w) id u → i ∉ linked u
          | Err e => e = EDb
          end) ∧
  (∀ after limit o e, after ≤ u64_max → (events after limit o w).1 = Err e →
     e = EDb ∨ ∃ minimum, e = ELog (CursorExpired minimum)).
Proof.
  intros H0 Hrun. destruct (system_steps_ok self w0 w Hrun) as [Hacc (lo & hi & Hlog)]; [rewrite H0; apply system_ok_empty|].
  split_and!.
  - intros id1 u1 id2 u2 H1 H2 Hshare. by eapply accounts_unique.
  - intros i o. apply (wp_user_by_identifier i o w (λ r _, match r with
      | Ok (Some u) => ∃ id, stored_user (vw w) id u ∧ i ∈ linked u
      | Ok None => ∀ id u, stored_user (vw w) id u → i ∉ linked u | Err e => e = EDb end)); eauto.
  - intros after limit o e Hafter. apply (wp_events after limit lo hi o w (λ r _, r = Err e → e = EDb ∨ ∃ n, e = ELog (CursorExpired n)));
      [done|done|intros ? _ _ [= <-]; by left|intros ? _ _ _ [= <-]; right; by eexists|done].
Qed.
End System.

(** ** Witnesses *)

Import DemoEnv.

#[export] Program Instance codec_organization : Codec OrganizationRecord :=
  codec_iso (λ r : OrganizationRecord, (org_id r, (org_slug r, (org_name r, org_created_at r))))
    (λ '(a, (b, (c, d))), Some (mkOrganization a b c d)) _.
Next Obligation. by intros []. Qed.

(** A registration and an event. *)
Abbreviation demo_step0 :=
  (perform demo_store (CreateUser demo_id demo_email demo_profile demo_passkey true None) demo_oracle (demo_world [])).
Abbreviation demo_step1 :=
  (perform demo_store (AppendEvent #"session.revoked" (Some demo_id)) demo_oracle demo_step0.2).

Lemma reachable_consistent_witness :
  is_ok demo_step0.1 = true ∧ is_ok demo_step1.1 = true ∧
  match (user_by_identifier demo_email demo_oracle demo_step1.2).1 with
  | Ok (Some u) => ∃ id, stored_user (vw demo_step1.2) id u ∧ demo_email ∈ linked u
  | Ok None => ∀ id u, stored_user (vw demo_step1.2) id u → demo_email ∉ linked u
  | Err e => e = EDb
  end.
Proof.
  split; [eval_eq|]. split; [eval_eq|].
  destruct (reachable_consistent demo_store (demo_world []) demo_step1.2) as (_ & Hu & _); [reflexivity| |].
  - apply (rtc_l _ _ demo_step0.2).
    + apply (step_perform demo_store (CreateUser demo_id demo_email demo_profile demo_passkey true None) demo_oracle (demo_world [])).
      exact (eq_refl : vw (demo_world []) !! user_key demo_id = None).
    + apply rtc_once, (step_perform demo_store (AppendEvent #"session.revoked" (Some demo_id)) demo_oracle demo_step0.2). exact I.
  - exact (Hu demo_email demo_oracle).
Defined.
