(* ===== verification/Snapshot.v ===== *)
(** * Snapshots of the datastore (src/src/store/snapshot.rs)

    The export of every durable record, the restore into an empty datastore with
    its in-progress marker, the policy that classifies each key family, and the
    lease of the backup worker. *)

From S2P Require Import Prelude Sable Logic Demo Records Events Identifiers Users Accounts Sessions Organization Management.
From S2P Require Import Invitations Touches Credentials Recovery Ceremonies Verification Webhooks ServiceAccounts System.

Definition RESTORE_SENTINEL : str := #"auth:restore:in-progress".
Definition BACKUP_LEASE_KEY : str := #"auth:backup:lease".
Definition MAX_SNAPSHOT_VALUE_BYTES : N := 8 * 1024 * 1024.
Definition SNAPSHOT_READ_BATCH_SIZE : nat := 250.

Record StoreRecord := mkStoreRecord {
  sr_key : str;
  sr_value : str;
  sr_expires_at : option N
}.
#[global] Instance StoreRecord_eq_dec : EqDecision StoreRecord.
Proof. solve_decision. Defined.

(** ** Which keys a snapshot holds *)

Inductive SnapshotKeyPolicy := Include | Exclude.
#[global] Instance SnapshotKeyPolicy_eq_dec : EqDecision SnapshotKeyPolicy.
Proof. solve_decision. Defined.

Definition one_of (keys : list str) (key : str) : bool := existsb (λ k, bool_decide (key = k)) keys.
Definition has_prefix (prefixes : list str) (key : str) : bool := existsb (λ p, starts_with p key) prefixes.
(** [key.starts_with(prefix) && key.len() > prefix.len()] for one of them. *)
Definition extends_prefix (prefixes : list str) (key : str) : bool :=
  existsb (λ p, starts_with p key && (len p <? len key)) prefixes.

Definition analytics_keys : list str := [lit "analytics:projector-cursor"; lit "analytics:closure-cursor"].
Definition analytics_prefixes : list str := [lit "analytics:bucket:"; lit "analytics:outbox:"].
Definition fleet_prefixes : list str :=
  [ lit "fleet:organization:"; lit "fleet:organization-slug:"; lit "fleet:project:"; lit "fleet:project-slug:";
    lit "fleet:environment:"; lit "fleet:environment-slug:"; lit "fleet:connection:"; lit "fleet:role-binding:";
    lit "fleet:role-binding-subject:"; lit "fleet:idempotency:"; lit "fleet:assignment-epoch:"; lit "fleet:audit:";
    lit "fleet:analytics-bucket:"; lit "fleet:analytics-policy:"; lit "fleet:analytics-policy-idempotency:";
    lit "fleet:analytics-quarantine:"; lit "fleet:analytics-ingestion-audit:"; lit "fleet:analytics-operator-audit:";
    lit "fleet:analytics-maintenance-audit:"; lit "fleet:analytics-manifest:" ].
Definition realm_keys : list str :=
  [ lit "auth:event-sequence"; lit "auth:event-min-sequence"; lit "auth:jwt:keyset:v1"; ORGANIZATION_KEY ].
Definition realm_prefixes : list str :=
  [ lit "auth:user:"; lit "auth:email:"; lit "auth:identifier:"; lit "auth:credential:"; lit "auth:session:";
    lit "auth:event:"; lit "auth:invitation:"; lit "auth:invitation-code:"; lit "auth:webhook:";
    lit "auth:webhook-cursor:"; lit "auth:webhook-delivery:"; lit "auth:webhook-delivery-event:";
    OPERATOR_PREFIX; SERVICE_ACCOUNT_PREFIX; SERVICE_CREDENTIAL_PREFIX; lit "auth:fleet-grant:";
    lit "auth:fleet-grant-secret:"; lit "auth:remote-mutation:" ].
Definition transient_keys : list str :=
  [ lit "auth:jwt:active"; lit "auth:jwt:maintenance-lock"; lit "auth:writer-lease"; RESTORE_SENTINEL ].
Definition transient_prefixes : list str :=
  [ lit "auth:registration:"; lit "auth:authentication:"; lit "auth:identifier-verification:";
    lit "auth:agent-handoff:"; lit "auth:rate-limit:"; lit "auth:session-activity:"; lit "auth:fleet-pairing:";
    lit "auth:backup:"; OPERATOR_SEEN_PREFIX; lit "fleet:connection-attempt:"; lit "fleet:operations-cache:";
    lit "fleet:analytics-quota:"; lit "fleet:analytics-quota-batch:" ].

Definition snapshot_key_policy (key : str) : result error SnapshotKeyPolicy :=
  if one_of analytics_keys key || extends_prefix analytics_prefixes key then Ok Include
  else if extends_prefix fleet_prefixes key then Ok Include
  else if one_of realm_keys key || has_prefix realm_prefixes key then Ok Include
  else if one_of transient_keys key || has_prefix transient_prefixes key then Ok Exclude
  else Err (EBail "unknown RustyAuth key family in snapshot").

Fixpoint included_keys (keys : list str) : result error (list str) :=
  match keys with
  | [] => Ok []
  | key :: keys =>
      policy ← snapshot_key_policy key;
      rest ← included_keys keys;
      Ok (match policy with Include => key :: rest | Exclude => rest end)
  end.

(** [Vec<Option<String>>] and [Vec<i64>] from the replies of a pipeline. *)
Fixpoint decode_values (rs : list reply) : result error (list (option str)) :=
  match rs with
  | [] => Ok []
  | RNil :: rs => vs ← decode_values rs; Ok (None :: vs)
  | RBulk v :: rs => vs ← decode_values rs; Ok (Some v :: vs)
  | _ => Err EDb
  end.
Fixpoint decode_ttls (rs : list reply) : result error (list Z) :=
  match rs with
  | [] => Ok []
  | RSigned z :: rs => zs ← decode_ttls rs; Ok (z :: zs)
  | _ => Err EDb
  end.

(** The records of one batch, from the zipped replies. *)
Fixpoint batch_records (captured_at : N) (batch : list (str * option str * Z)) : result error (list StoreRecord) :=
  match batch with
  | [] => Ok []
  | (key, value, ttl) :: batch =>
      match value with
      | None => batch_records captured_at batch
      | Some value =>
          if MAX_SNAPSHOT_VALUE_BYTES <? len value
          then Err (EBail "snapshot record exceeds the 8 MiB safety limit")
          else if (ttl =? -1)%Z
          then rest ← batch_records captured_at batch; Ok (mkStoreRecord key value None :: rest)
          else if (0 <=? ttl)%Z
          then rest ← batch_records captured_at batch;
               Ok (mkStoreRecord key value (Some (saturating_add captured_at (Z.to_N ttl))) :: rest)
          else if (ttl =? -2)%Z then batch_records captured_at batch
          else Err (EBail "SableDB returned invalid TTL")
      end
  end.

Definition key_lt (a b : StoreRecord) : bool := lex_ltb (sr_key a) (sr_key b).

(** [records.windows(2).any(|pair| pair[0].key >= pair[1].key)] *)
Fixpoint unsorted (records : list StoreRecord) : bool :=
  match records with
  | a :: ((b :: _) as rest) => negb (key_lt a b) || unsorted rest
  | _ => false
  end.

Fixpoint check_records (records : list StoreRecord) : result error unit :=
  match records with
  | [] => Ok tt
  | record :: records =>
      policy ← snapshot_key_policy (sr_key record);
      if negb (bool_decide (policy = Include)) then Err (EBail "restore contains an excluded transient key")
      else if MAX_SNAPSHOT_VALUE_BYTES <? len (sr_value record)
      then Err (EBail "restore record exceeds the 8 MiB safety limit")
      else check_records records
  end.

Section Snapshot.
Context `{Env, !Serde User}.

Definition collect_keys (keys : list str) (batch : list str) : M error (list str) :=
  let keys := foldl (λ keys key, key_insert key keys) keys batch in
  ensure (negb (MAX_SNAPSHOT_KEYS <? N.of_nat (length keys)))
    (EBail "RustyAuth namespace exceeds the one-million-key safety limit");;
  mret keys.

Definition managed_prefixes : list str := [lit "auth:"; lit "fleet:"; lit "analytics:"].

Definition managed_keys : M error (list str) :=
  foldM (λ keys pattern, batches ← scan pattern; foldM collect_keys batches keys) managed_prefixes [].

(** ** Export *)

Definition read_batch (captured_at : N) (keys : list str) : M error (list StoreRecord) :=
  rs ← query (GET <$> keys);
  values ← lift (decode_values rs);
  rs ← query (TTL <$> keys);
  ttls ← lift (decode_ttls rs);
  ensure (bool_decide (length values = length keys) && bool_decide (length ttls = length keys))
    (EBail "SableDB returned an incomplete snapshot batch");;
  lift (batch_records captured_at (zip (zip keys values) ttls)).

Definition export_records : M error (N * list StoreRecord) :=
  captured_at ← now;
  keys ← managed_keys;
  keys ← lift (included_keys keys);
  batches ← mapM_ (read_batch captured_at) (chunks SNAPSHOT_READ_BATCH_SIZE keys);
  mret (captured_at, sort_by key_lt (concat batches)).

(** ** Restore *)

Definition raise_session_version (u : User) : User :=
  set_session_version (saturating_add (u_session_version u) 1) u.

Definition restored_value (preserve_sessions : bool) (record : StoreRecord) : result error str :=
  if starts_with #"auth:user:" (sr_key record) then
    u ← ok_or EDecode (from_json (sr_value record));
    u ← normalize_and_validate u;
    Ok (to_json (if preserve_sessions then u else raise_session_version u))
  else Ok (sr_value record).

Definition skipped (preserve_sessions : bool) (current : N) (record : StoreRecord) : bool :=
  (starts_with #"auth:session:" (sr_key record) && negb preserve_sessions)
  || match sr_expires_at record with Some expires_at => expires_at <=? current | None => false end.

Fixpoint restore_commands (preserve_sessions : bool) (current : N) (records : list StoreRecord) :
    result error (list cmd) :=
  match records with
  | [] => Ok []
  | record :: records =>
      if skipped preserve_sessions current record
      then restore_commands preserve_sessions current records
      else
        value ← restored_value preserve_sessions record;
        rest ← restore_commands preserve_sessions current records;
        Ok (match sr_expires_at record with
            | Some expires_at => SETEX (sr_key record) value (N.max (saturating_sub expires_at current) 1)
            | None => SET (sr_key record) value
            end :: rest)
  end.

Definition restore_chunk (preserve_sessions : bool) (current : N) (restored : N) (chunk : list StoreRecord) :
    M error N :=
  pipeline ← lift (restore_commands preserve_sessions current chunk);
  match pipeline with
  | [] => mret restored
  | _ => execute pipeline;; mret (restored + N.of_nat (length pipeline))
  end.

Definition restore_records (records : list StoreRecord) (preserve_sessions : bool) : M error N :=
  keys ← managed_keys;
  ensure (bool_decide (keys = [])) (EBail "restore destination is not empty; use a new SableDB volume");;
  ensure (negb ((MAX_SNAPSHOT_KEYS <? N.of_nat (length records)) || unsorted records))
    (EBail "restore records must be uniquely sorted within the key safety limit");;
  _ ← lift (check_records records);
  t ← now;
  execute [SET RESTORE_SENTINEL (show_u64 t)];;
  current ← now;
  foldM (restore_chunk preserve_sessions current) (chunks 250 records) 0.

Definition complete_restore : M error unit := execute [DEL [RESTORE_SENTINEL]].

Definition ensure_restore_complete : M error unit :=
  marker ← get RESTORE_SENTINEL;
  ensure (negb (is_some marker))
    (EBail "an incomplete restore marker is present; discard this SableDB volume and restore into a new one").

(** ** The lease of the backup worker *)

Definition acquire_backup_lease : M error (option str) :=
  id ← new_v4;
  let token := uuid_show id in
  rs ← query [SET_NX_EX BACKUP_LEASE_KEY token 3600];
  match rs with
  | [ROk] => mret (Some token)
  | [RNil] => mret None
  | _ => fail EDb
  end.

(** SableDB implements [DELIFEQ], so its answer is the first attempt's; the outcome is
    only logged. *)
Definition release_backup_lease (token : str) : M error unit :=
  _ ← attempt (E := error) (query [DELIFEQ BACKUP_LEASE_KEY token]);
  mret tt.
End Snapshot.

(** ** The keys found *)

Lemma key_inserts batch l :
  StronglySorted lex_lt l →
  StronglySorted lex_lt (foldl (λ keys key, key_insert key keys) l batch) ∧
  ∀ k, k ∈ foldl (λ keys key, key_insert key keys) l batch ↔ k ∈ l ∨ k ∈ batch.
Proof.
  revert l. induction batch as [|x batch IH]; intros l Hs; simpl; [set_solver|].
  destruct (IH _ (key_insert_sorted x l Hs)) as [Hs' Hel]. split; [done|]. intros k.
  rewrite Hel, key_insert_elem, elem_of_cons. tauto.
Qed.

Lemma sorted_keys_nodup l : StronglySorted lex_lt l → NoDup l.
Proof.
  induction 1 as [|x l Hs IH Hall]; constructor; [|done]. intros Hx. rewrite Forall_forall in Hall.
  by apply (lex_lt_neq x x); [apply Hall|].
Qed.

Definition managed (k : str) : bool := has_prefix managed_prefixes k.

(** The entry is there at every round trip. *)
Definition outlasts (o : oracle) (e : entry) : Prop := ∀ i, expired (t_at (o_trip o i)) e = false.

Lemma outlasts_persistent o v : outlasts o (Entry v None).
Proof. done. Qed.

Lemma outlasts_live o i m k e : m !! k = Some e → outlasts o e → live (t_at (o_trip o i)) m k = Some (e_val e).
Proof. unfold live. intros -> Ho. by rewrite Ho. Qed.

Section Facts.
Context `{Env, !Serde User}.

(** The keys of a set of the datastore's keys. *)
Lemma keys_within (m : gmap str entry) keys :
  StronglySorted lex_lt keys → (∀ k, k ∈ keys → is_Some (m !! k)) → (length keys ≤ size m)%nat.
Proof.
  intros Hs Hk. rewrite <- (size_dom m), <- (size_list_to_set (C := gset str) keys) by (by apply sorted_keys_nodup).
  apply subseteq_size. intros k Hk'%elem_of_list_to_set. by apply elem_of_dom, Hk.
Qed.

(** What the scans so far contribute: [ps] are the patterns done. *)
Record found (o : oracle) (m : gmap str entry) (ps : list str) (keys : list str) : Prop := {
  fd_sorted : StronglySorted lex_lt keys;
  fd_there k : k ∈ keys → has_prefix managed_prefixes k = true ∧ is_Some (m !! k);
  fd_all k e : m !! k = Some e → outlasts o e → has_prefix ps k = true → k ∈ keys
}.

Lemma wp_collect batches keys o w (Q : result error (list str) → world → Prop) :
  StronglySorted lex_lt keys → (∀ k, k ∈ keys ∨ k ∈ concat batches → is_Some (vw w !! k)) →
  (∀ e, MAX_SNAPSHOT_KEYS < N.of_nat (size (vw w)) → Q (Err e) w) →
  (∀ keys', StronglySorted lex_lt keys' → (∀ k, k ∈ keys' ↔ k ∈ keys ∨ k ∈ concat batches) → Q (Ok keys') w) →
  wp (foldM collect_keys batches keys) o w Q.
Proof.
  revert keys. induction batches as [|b batches IH]; intros keys Hs Hk He Hok; cbn [foldM].
  { apply wp_ret, Hok; [done|]. set_solver. }
  destruct (key_inserts b keys Hs) as [Hs1 Hel1]. unfold collect_keys at 1.
  assert (Hk1 : ∀ k, k ∈ foldl (λ keys key, key_insert key keys) keys b → is_Some (vw w !! k)).
  { intros k [?|?]%Hel1; apply Hk; [by left|right]. simpl. set_solver. }
  apply wp_bind, wp_bind, wp_ensure.
  - intros _. apply wp_ret, IH; [done| |done|].
    + intros k [?|?]; [by apply Hk1|apply Hk; right; simpl; set_solver].
    + intros keys' Hs' Hel. apply Hok; [done|]. intros k. rewrite Hel, Hel1. simpl. set_solver.
  - intros Hlen. apply He. pose proof (keys_within (vw w) _ Hs1 Hk1). reflect. lia.
Qed.

Lemma has_prefix_elem ps p k : p ∈ ps → starts_with p k = true → has_prefix ps k = true.
Proof. intros Hp Hk. apply existsb_exists. exists p. by rewrite <- list_elem_of_In. Qed.

Lemma wp_scan_prefix p ps keys o w (Q : result error (list str) → world → Prop) :
  found o (vw w) ps keys → p ∈ managed_prefixes →
  (∀ e w', vw w' = vw w → ¬ reliable o ∨ MAX_SNAPSHOT_KEYS < N.of_nat (size (vw w)) → Q (Err e) w') →
  (∀ keys' w', vw w' = vw w → found o (vw w) (p :: ps) keys' → Q (Ok keys') w') →
  wp (batches ← scan p; foldM collect_keys batches keys) o w Q.
Proof.
  intros [Hs Hthere Hall] Hp He Hok. apply wp_bind. unfold wp at 1, scan. destruct (t_fate _) eqn:Hf; simpl.
  2,3: apply He; [done|left; intros Hr; specialize (Hr (w_trip w)); congruence].
  set (t := t_at _). set (w1 := after_trip w (w_db w)). assert (Hv : vw w1 = vw w) by done.
  assert (Hb : ∀ k, k ∈ concat (db_scan t p (w_db w)) ↔ starts_with p k = true ∧ is_Some (live t (vw w) k))
    by (intros; apply db_scan_spec).
  assert (Hlive : ∀ k, is_Some (live t (vw w) k) → is_Some (vw w !! k))
    by (intros k [v (dl & Hl)%live_Some]; by rewrite Hl).
  apply wp_collect; rewrite ?Hv; [done| |intros e Hn; apply He; auto|].
  { intros k [Hk|[_ Hk]%Hb]; [by apply Hthere|by apply Hlive]. }
  intros keys' Hs' Hel. apply Hok; [done|]. split; [done| |].
  - intros k [Hk|[Hpk Hk]%Hb]%Hel; [by apply Hthere|]. split; [by eapply has_prefix_elem|by apply Hlive].
  - intros k e Hk Ho [Hpk|Hps]%orb_true_iff; apply Hel; [right|left; by eapply Hall]. apply Hb. split; [done|].
    unfold t. rewrite (outlasts_live o _ _ _ e Hk Ho). eauto.
Qed.

Lemma wp_managed_keys o w (Q : result error (list str) → world → Prop) :
  (∀ e w', vw w' = vw w → ¬ reliable o ∨ MAX_SNAPSHOT_KEYS < N.of_nat (size (vw w)) → Q (Err e) w') →
  (∀ keys w', vw w' = vw w → found o (vw w) managed_prefixes keys → Q (Ok keys) w') →
  wp managed_keys o w Q.
Proof.
  intros He Hok. unfold managed_keys. cbn [foldM managed_prefixes].
  assert (H0 : found o (vw w) [] []) by (split; [constructor|set_solver|done]).
  apply wp_bind, (wp_scan_prefix _ [] []); [done|set_solver|done|]. intros k1 w1 Hv1 H1. rewrite <- Hv1 in H1.
  apply wp_bind, (wp_scan_prefix _ _ _ _ _ _ H1); [set_solver|intros; apply He; congruence|].
  intros k2 w2 Hv2 H2. rewrite <- Hv2 in H2.
  apply wp_bind, (wp_scan_prefix _ _ _ _ _ _ H2); [set_solver|intros; apply He; congruence|].
  intros k3 w3 Hv3 [Hs Ht Ha]. assert (Hv : vw w2 = vw w) by congruence. rewrite Hv in *.
  apply wp_ret, Hok; [congruence|]. split; [done..|]. intros k e Hk Ho Hm. apply (Ha k e); try done.
  unfold has_prefix, managed_prefixes in *. simpl in *. rewrite !orb_true_iff in *. tauto.
Qed.
End Facts.

(** ** What an export holds *)

(** The record is the entry under its key: same value, and an expiry exactly when the
    entry has one, the seconds left at some round trip counted from the capture. *)
Definition faithful (o : oracle) (captured_at : N) (m : gmap str entry) (r : StoreRecord) : Prop :=
  ∃ e, m !! sr_key r = Some e ∧ sr_value r = e_val e ∧
    match e_deadline e with
    | None => sr_expires_at r = None
    | Some d => ∃ i, t_at (o_trip o i) < d ∧
                sr_expires_at r = Some (saturating_add captured_at (d - t_at (o_trip o i)))
    end.

Section ExportFacts.
Context `{Env, !Serde User}.

Lemma pipe_gets t keys m : exec_pipe t (GET <$> keys) m = ((λ k, bulk (live t m k)) <$> keys, m).
Proof. induction keys as [|k keys IH]; [done|]. rewrite !fmap_cons. cbn [exec_pipe exec_cmd]. by rewrite IH. Qed.

Lemma pipe_ttls t keys m : exec_pipe t (TTL <$> keys) m = ((λ k, RSigned (time_to_live t (m !! k))) <$> keys, m).
Proof. induction keys as [|k keys IH]; [done|]. rewrite !fmap_cons. cbn [exec_pipe exec_cmd]. by rewrite IH. Qed.

Lemma gets_no_err (t : N) (keys : list str) m : existsb is_err ((λ k, bulk (live t m k)) <$> keys) = false.
Proof. induction keys as [|k keys IH]; [done|]. rewrite fmap_cons. cbn [existsb]. rewrite IH. by destruct (live t m k). Qed.

Lemma ttls_no_err (t : N) (keys : list str) (m : gmap str entry) : existsb is_err ((λ k, RSigned (time_to_live t (m !! k))) <$> keys) = false.
Proof. induction keys as [|k keys IH]; [done|]. rewrite fmap_cons. cbn [existsb]. by rewrite IH. Qed.

Lemma decode_gets (t : N) (keys : list str) m : decode_values ((λ k, bulk (live t m k)) <$> keys) = Ok (live t m <$> keys).
Proof. induction keys as [|k keys IH]; [done|]. rewrite !fmap_cons. by destruct (live t m k); cbn [bulk decode_values]; rewrite IH. Qed.

Lemma decode_ttl_replies (t : N) (keys : list str) (m : gmap str entry) :
  decode_ttls ((λ k, RSigned (time_to_live t (m !! k))) <$> keys) = Ok ((λ k, time_to_live t (m !! k)) <$> keys).
Proof. induction keys as [|k keys IH]; [done|]. rewrite !fmap_cons. cbn [decode_ttls]. by rewrite IH. Qed.

(** The oversized values are the only reason to refuse a batch. *)
Definition oversized (m : gmap str entry) : Prop := ∃ k e, m !! k = Some e ∧ MAX_SNAPSHOT_VALUE_BYTES < len (e_val e).

Record batch_ok (o : oracle) (c : N) (m : gmap str entry) (keys : list str) (recs : list StoreRecord) : Prop := {
  bo_faithful r : r ∈ recs → faithful o c m r;
  bo_sublist : sr_key <$> recs `sublist_of` keys;
  bo_all k e : k ∈ keys → m !! k = Some e → outlasts o e → ∃ r, r ∈ recs ∧ sr_key r = k
}.

Lemma batch_ok_nil o c m : batch_ok o c m [] [].
Proof. split; [set_solver|done|set_solver]. Qed.

Lemma batch_ok_skip o c m k keys recs :
  (∀ e, m !! k = Some e → outlasts o e → False) →
  batch_ok o c m keys recs → batch_ok o c m (k :: keys) recs.
Proof.
  intros Hk [Hf Hs Ha]. split; [done|by constructor|].
  intros k' e [->|Hk']%elem_of_cons He Ho; [by edestruct Hk|by eapply Ha].
Qed.

Lemma batch_ok_cons o c m r keys recs :
  faithful o c m r → batch_ok o c m keys recs → batch_ok o c m (sr_key r :: keys) (r :: recs).
Proof.
  intros Hr [Hf Hs Ha]. split.
  - intros r' [->|Hr']%elem_of_cons; [done|by apply Hf].
  - simpl. by constructor.
  - intros k e [->|Hk]%elem_of_cons He Ho; [exists r; set_solver|].
    destruct (Ha k e Hk He Ho) as (r' & Hr' & Hkey). exists r'. set_solver.
Qed.

Lemma batch_records_spec o i j c m keys :
  let t1 := t_at (o_trip o i) in
  let t2 := t_at (o_trip o j) in
  match batch_records c (zip (zip keys (live t1 m <$> keys)) ((λ k, time_to_live t2 (m !! k)) <$> keys)) with
  | Ok recs => batch_ok o c m keys recs
  | Err _ => oversized m
  end.
Proof.
  intros t1 t2. induction keys as [|k keys IH]; [apply batch_ok_nil|]. cbn [fmap list_fmap zip zip_with batch_records].
  destruct (live t1 m k) as [v|] eqn:Hl.
  2: { case_match; [|done]. apply batch_ok_skip; [|done]. intros e Hk Ho.
       unfold t1 in Hl. by rewrite (outlasts_live o _ _ _ e Hk Ho) in Hl. }
  apply live_Some in Hl as [dl Hk]. rewrite Hk. cbn [time_to_live e_deadline].
  destruct (MAX_SNAPSHOT_VALUE_BYTES <? len v) eqn:Hlen; [exists k, (Entry v dl); split; [done|]; reflect; done|].
  unfold expired. cbn [e_deadline]. destruct dl as [d|]; [destruct (d <=? t2) eqn:Hd|]; cbn.
  - case_match; [|done]. apply batch_ok_skip; [|done]. intros e He Ho. rewrite Hk in He. injection He as <-.
    specialize (Ho j). unfold expired in Ho. cbn in Ho. fold t2 in Ho. congruence.
  - destruct (Z.eqb_spec (Z.of_N (d - t2)) (-1)) as [?|_]; [lia|].
    destruct (Z.leb_spec 0 (Z.of_N (d - t2))) as [_|?]; [|lia].
    rewrite N2Z.id. case_match; [|done]. simpl.
    apply (batch_ok_cons o c m (mkStoreRecord k v (Some (saturating_add c (d - t2))))); [|done].
    exists (Entry v (Some d)). split_and!; [done..|]. exists j. fold t2. split; [reflect; lia|done].
  - case_match; [|done]. simpl. apply (batch_ok_cons o c m (mkStoreRecord k v None)); [|done].
    by exists (Entry v None).
Qed.

Lemma wp_read_batch c keys o w (Q : result error (list StoreRecord) → world → Prop) :
  (∀ e w', vw w' = vw w → ¬ reliable o ∨ oversized (vw w) → Q (Err e) w') →
  (∀ recs w', vw w' = vw w → batch_ok o c (vw w) keys recs → Q (Ok recs) w') →
  wp (read_batch c keys) o w Q.
Proof.
  intros He Hok. unfold read_batch. apply wp_bind, wp_query.
  { intros d Hd [Hv|Hv]; (apply He; [|left; by eapply not_delivered]); [done|by rewrite pipe_gets in Hv]. }
  intros d1 _ Hv1. rewrite pipe_gets in *. cbv zeta. cbn [fst snd] in *. rewrite gets_no_err.
  apply wp_bind, wp_lift. rewrite decode_gets.
  set (w1 := after_trip w d1). assert (Hw1 : vw w1 = vw w) by done.
  apply wp_bind, wp_query.
  { intros d Hd [Hv|Hv]; (apply He; [|left; by eapply not_delivered]); [by transitivity (vw w1)|rewrite pipe_ttls in Hv; by transitivity (vw w1)]. }
  intros d2 _ Hv2. rewrite pipe_ttls in *. cbv zeta. cbn [fst snd] in *. rewrite ttls_no_err.
  apply wp_bind, wp_lift. rewrite decode_ttl_replies, Hw1 in *.
  apply wp_bind, wp_ensure; [intros _|rewrite !length_fmap, !bool_decide_true by done; done].
  apply wp_lift. pose proof (batch_records_spec o (w_trip w) (w_trip w1) c (vw w) keys) as Hs. cbv zeta in Hs.
  fold (trip_time o w) in Hs. fold (trip_time o w1) in Hs.
  destruct (batch_records _ _) as [recs|e]; [by apply Hok|apply He; [done|by right]].
Qed.

Lemma batch_ok_app o c m k1 k2 r1 r2 :
  batch_ok o c m k1 r1 → batch_ok o c m k2 r2 → batch_ok o c m (k1 ++ k2) (r1 ++ r2).
Proof.
  intros [Hf1 Hs1 Ha1] [Hf2 Hs2 Ha2]. split.
  - intros r [?|?]%elem_of_app; auto.
  - rewrite fmap_app. by apply sublist_app.
  - intros k e [Hk|Hk]%elem_of_app He Ho; [destruct (Ha1 k e Hk He Ho) as (r & ? & ?)
      |destruct (Ha2 k e Hk He Ho) as (r & ? & ?)]; exists r; set_solver.
Qed.

Lemma wp_read_batches c bs o w (Q : result error (list (list StoreRecord)) → world → Prop) :
  (∀ e w', vw w' = vw w → ¬ reliable o ∨ oversized (vw w) → Q (Err e) w') →
  (∀ recs w', vw w' = vw w → batch_ok o c (vw w) (concat bs) (concat recs) → Q (Ok recs) w') →
  wp (mapM_ (read_batch c) bs) o w Q.
Proof.
  revert w Q. induction bs as [|b bs IH]; intros w Q He Hok; cbn [mapM_].
  { apply wp_ret, Hok; [done|apply batch_ok_nil]. }
  apply wp_bind, wp_read_batch; [done|]. intros recs w1 Hv1 Hb.
  apply wp_bind, IH; [intros e w2 Hv2; rewrite Hv1; apply He; congruence|]. intros rest w2 Hv2 Hr.
  apply wp_ret, Hok; [congruence|]. simpl. apply batch_ok_app; [done|by rewrite <- Hv1].
Qed.

(** The policy sorts the keys into kept and left out, or refuses one of them. *)
Lemma included_keys_spec keys :
  match included_keys keys with
  | Ok ks => ks `sublist_of` keys ∧ (∀ k, k ∈ keys → is_ok (snapshot_key_policy k) = true) ∧
             ∀ k, k ∈ ks ↔ k ∈ keys ∧ snapshot_key_policy k = Ok Include
  | Err _ => ∃ k, k ∈ keys ∧ is_ok (snapshot_key_policy k) = false
  end.
Proof.
  induction keys as [|k keys IH]; cbn [included_keys]; [set_solver|].
  destruct (snapshot_key_policy k) as [p|e] eqn:Hp; cbn; [|exists k; rewrite Hp; set_solver].
  destruct (included_keys keys) as [ks|e]; cbn; [|destruct IH as (k' & ? & ?); exists k'; set_solver].
  destruct IH as (Hs & Hok & Hel). split_and!.
  - destruct p; by constructor.
  - intros k' [->|Hk']%elem_of_cons; [by rewrite Hp|by apply Hok].
  - intros k'. destruct p; rewrite ?elem_of_cons, Hel.
    + split; [intros [->|[? ?]]; auto|]. intros [[->|?] ?]; auto.
    + split; [intros [? ?]; auto|]. intros [[->|?] Hk']; [congruence|auto].
Qed.

Definition by_key (a b : StoreRecord) : Prop := lex_lt (sr_key a) (sr_key b).

(** The contents [m] as records captured at [c]. *)
Record exported (o : oracle) (c : N) (m : gmap str entry) (recs : list StoreRecord) : Prop := {
  ex_sorted : StronglySorted by_key recs;
  ex_record r : r ∈ recs → snapshot_key_policy (sr_key r) = Ok Include ∧ faithful o c m r;
  ex_all k e : m !! k = Some e → outlasts o e → managed k = true → snapshot_key_policy k = Ok Include →
    ∃ r, r ∈ recs ∧ sr_key r = k;
  ex_known k e : m !! k = Some e → outlasts o e → managed k = true → is_ok (snapshot_key_policy k) = true
}.

Lemma keys_sorted recs : NoDup (sr_key <$> recs) → StronglySorted by_key (sort_by key_lt recs).
Proof. apply (sort_by_ordered sr_key lex_lt lex_ltb (λ _ _, iff_refl _) lex_lt_total). Qed.

Definition refused (m : gmap str entry) : Prop :=
  oversized m ∨ MAX_SNAPSHOT_KEYS < N.of_nat (size m) ∨
  ∃ k, is_Some (m !! k) ∧ managed k = true ∧ is_ok (snapshot_key_policy k) = false.

Lemma wp_export_records o w (Q : result error (N * list StoreRecord) → world → Prop) :
  (∀ e w', vw w' = vw w → ¬ reliable o ∨ refused (vw w) → Q (Err e) w') →
  (∀ recs w', vw w' = vw w → exported o (clock o w) (vw w) recs → Q (Ok (clock o w, recs)) w') →
  wp export_records o w Q.
Proof.
  intros He Hok. unfold export_records. apply wp_bind, wp_now. set (c := clock o w).
  apply wp_bind, wp_managed_keys; [intros e w1 Hv [?|?]; apply He; unfold refused; auto|].
  intros keys w1 Hv1 [Hsort Hthere Hall]. rewrite vw_tick in *. apply wp_bind, wp_lift.
  pose proof (included_keys_spec keys) as Hinc. destruct (included_keys keys) as [ks|e].
  2: { destruct Hinc as (k & Hk & Hp). apply He; [done|]. right. right. right. exists k.
       destruct (Hthere k Hk) as [? ?]. by split_and!. }
  destruct Hinc as (Hsub & Hknown & Hel).
  apply wp_bind, wp_read_batches; rewrite Hv1; [intros e w2 Hv2 [?|?]; apply He; unfold refused; auto|].
  intros rs w2 Hv2 [Hf Hs Ha]. rewrite chunks_concat in * by (unfold SNAPSHOT_READ_BATCH_SIZE; lia).
  apply wp_ret, Hok; [done|]. split.
  - apply keys_sorted. eapply sublist_NoDup; [|exact Hs]. eapply sublist_NoDup; [|exact Hsub].
    by apply sorted_keys_nodup.
  - intros r Hr%sort_by_elem. split; [|by apply Hf]. apply Hel. eapply elem_of_sublist; [|exact Hs].
    by apply list_elem_of_fmap_2.
  - intros k e Hk Ho Hm Hp. destruct (Ha k e) as (r & Hr & Hkey); [|done..|exists r; by rewrite sort_by_elem].
    apply Hel. split; [by eapply Hall|done].
  - intros k e Hk Ho Hm. by eapply Hknown, Hall.
Qed.
End ExportFacts.

(** ** What a restore writes *)

Definition restored_deadline (current t : N) (r : StoreRecord) : option N :=
  match sr_expires_at r with
  | Some x => Some (t + N.max (saturating_sub x current) 1)
  | None => None
  end.

Section RestoreFacts.
Context `{Env, !Serde User}.

(** The records of [done] over the contents [m0]: each one that is not skipped is there
    with its restored value, and nothing else has changed. *)
Record restoring (p : bool) (c : N) (m0 : gmap str entry) (done : list StoreRecord) (m : gmap str entry) : Prop := {
  rs_done r : r ∈ done → skipped p c r = false →
    ∃ v t, restored_value p r = Ok v ∧ m !! sr_key r = Some (Entry v (restored_deadline c t r));
  rs_other k : (∀ r, r ∈ done → skipped p c r = false → sr_key r ≠ k) → m !! k = m0 !! k
}.

Lemma restoring_nil p c m : restoring p c m [] m.
Proof. split; [set_solver|done]. Qed.

Lemma restoring_app p c m0 l1 m1 l2 m2 :
  NoDup (sr_key <$> l1 ++ l2) → restoring p c m0 l1 m1 → restoring p c m1 l2 m2 → restoring p c m0 (l1 ++ l2) m2.
Proof.
  rewrite fmap_app. intros (_ & Hnd & _)%NoDup_app [Hd1 Ho1] [Hd2 Ho2]. split.
  - intros r [Hr|Hr]%elem_of_app Hk; [|by apply Hd2]. destruct (Hd1 r Hr Hk) as (v & t & Hv & Hm). exists v, t.
    split; [done|]. rewrite Ho2; [done|]. intros r' Hr' _ Heq. apply (Hnd (sr_key r)); [by apply list_elem_of_fmap_2|].
    rewrite <- Heq. by apply list_elem_of_fmap_2.
  - intros k Hk. rewrite Ho2, Ho1; [done|..]; intros r Hr; apply Hk; set_solver.
Qed.

Lemma restore_commands_spec p c records :
  match restore_commands p c records with
  | Ok cs => NoDup (sr_key <$> records) → ∀ t m,
      existsb is_err (exec_pipe t cs m).1 = false ∧ restoring p c m records (exec_pipe t cs m).2
  | Err _ => ∃ r, r ∈ records ∧ skipped p c r = false ∧ is_ok (restored_value p r) = false
  end.
Proof.
  induction records as [|r records IH]; cbn [restore_commands]; [intros _ t m; split; [done|apply restoring_nil]|].
  assert (Hskip : ∀ m m', skipped p c r = true → restoring p c m records m' → restoring p c m (r :: records) m').
  { intros m m' Hs [Hd Ho]. split; [intros r' [->|Hr']%elem_of_cons; [congruence|by apply Hd]|].
    intros k Hk. apply Ho. intros r' Hr'. apply Hk. set_solver. }
  destruct (skipped p c r) eqn:Hs.
  { destruct (restore_commands p c records) as [cs|e]; [|destruct IH as (r' & ? & ?); exists r'; set_solver].
    intros [_ Hnd]%NoDup_cons t m. destruct (IH Hnd t m). auto. }
  destruct (restored_value p r) as [v|e] eqn:Hv; cbn [mbind result_bind]; [|exists r; rewrite Hv; set_solver].
  destruct (restore_commands p c records) as [cs|e]; cbn [mbind result_bind]; [|destruct IH as (r' & ? & ?); exists r'; set_solver].
  intros Hnd t m. pose proof Hnd as [_ Hnd']%NoDup_cons.
  set (e := Entry v (restored_deadline c t r)).
  assert (Hone : restoring p c m [r] (<[sr_key r := e]> m)).
  { split; [intros ? ->%list_elem_of_singleton _; exists v, t; split; [done|apply lookup_insert_eq]|].
    intros k Hk. apply lookup_insert_ne. apply Hk; [set_solver|done]. }
  match goal with |- context [exec_pipe t (?cmd :: _) m] =>
    assert (Hc : exec_cmd t cmd m = (ROk, <[sr_key r := e]> m)) end.
  { unfold e, restored_deadline. destruct (sr_expires_at r) as [x|]; cbn [exec_cmd]; [|done].
    destruct (N.eqb_spec (N.max (saturating_sub x c) 1) 0); [lia|done]. }
  cbn [exec_pipe]. rewrite Hc. destruct (IH Hnd' t (<[sr_key r := e]> m)) as [Hne Hr].
  destruct (exec_pipe t cs (<[sr_key r := e]> m)) as [rs m2]. split; [done|].
  by apply (restoring_app p c m [r] (<[sr_key r := e]> m) records).
Qed.

(** Whatever happens on the way, only the keys of the records are written. *)
Lemma wp_restore_chunks p c chunks n o w (Q : result error N → world → Prop) :
  NoDup (sr_key <$> concat chunks) →
  (∀ e w', (∀ k, k ∉ sr_key <$> concat chunks → vw w' !! k = vw w !! k) →
     ¬ reliable o ∨ (∃ r, r ∈ concat chunks ∧ is_ok (restored_value p r) = false) → Q (Err e) w') →
  (∀ n' w', restoring p c (vw w) (concat chunks) (vw w') → Q (Ok n') w') →
  wp (foldM (restore_chunk p c) chunks n) o w Q.
Proof.
  revert n w Q. induction chunks as [|chunk chunks IH]; intros n w Q Hnd He Hok; cbn [foldM].
  { apply wp_ret, Hok, restoring_nil. }
  cbn [concat] in *. pose proof Hnd as Hnd'. rewrite fmap_app in Hnd'. apply NoDup_app in Hnd' as (Hnd1 & _ & Hnd2).
  assert (Hrest : ∀ n' w1, restoring p c (vw w) chunk (vw w1) → wp (foldM (restore_chunk p c) chunks n') o w1 Q).
  { intros n' w1 Hr1. apply IH; [done| |].
    - intros e w2 Hw2 Hwhy. apply He.
      + intros k Hk. rewrite fmap_app in Hk. rewrite Hw2 by set_solver. apply (rs_other _ _ _ _ _ Hr1).
        intros r Hr _ <-. apply Hk, elem_of_app. left. by apply list_elem_of_fmap_2.
      + destruct Hwhy as [?|(r & ? & ?)]; [by left|right; exists r; set_solver].
    - intros n2 w2 Hr2. by eapply Hok, restoring_app. }
  apply wp_bind. unfold restore_chunk at 1. apply wp_bind, wp_lift.
  pose proof (restore_commands_spec p c chunk) as Hspec. destruct (restore_commands p c chunk) as [cs|e].
  2: { destruct Hspec as (r & Hr & _ & Hv). apply He; [done|right]. exists r. set_solver. }
  specialize (Hspec Hnd1). destruct cs as [|cmd cs].
  { apply wp_ret, Hrest. apply (Hspec 0 (vw w)). }
  apply wp_bind, wp_execute_view.
  - intros w1 t Hwhy Hv. apply He.
    + intros k Hk. destruct Hv as [->| ->]; [done|]. destruct (Hspec t (vw w)) as [_ Hr]. apply (rs_other _ _ _ _ _ Hr).
      intros r Hr' _ <-. apply Hk. rewrite fmap_app. apply elem_of_app. left. by apply list_elem_of_fmap_2.
    + left. destruct Hwhy as [?|Herr]; [done|]. destruct (Hspec t (vw w)) as [Hne _]. congruence.
  - intros w1 t _ Hv. apply wp_ret, Hrest. rewrite Hv. by apply Hspec.
Qed.

#[local] Instance by_key_trans : Transitive by_key.
Proof. intros a b c Hab Hbc. unfold by_key in *. by transitivity (sr_key b). Qed.

Lemma unsorted_spec l : unsorted l = false ↔ StronglySorted by_key l.
Proof.
  split.
  - intros Hu. apply Sorted_StronglySorted; [exact by_key_trans|].
    induction l as [|a [|b l] IH]; [repeat constructor..|]. simpl in Hu. reflect.
    constructor; [by apply IH|]. by constructor.
  - induction 1 as [|a l Hs IH Hall]; [done|]. destruct l as [|b l]; [done|]. simpl in *. rewrite IH.
    apply Forall_inv in Hall. unfold by_key, lex_lt in Hall. unfold key_lt. by rewrite Hall.
Qed.

Lemma by_key_nodup l : StronglySorted by_key l → NoDup (sr_key <$> l).
Proof.
  induction 1 as [|a l Hs IH Hall]; cbn; [constructor|]. constructor; [|done].
  intros (b & Heq & Hb)%list_elem_of_fmap. rewrite Forall_forall in Hall. by apply (lex_lt_neq _ _ (Hall b Hb)).
Qed.

Lemma check_records_spec l :
  check_records l = Ok tt ↔
  ∀ r, r ∈ l → snapshot_key_policy (sr_key r) = Ok Include ∧ len (sr_value r) ≤ MAX_SNAPSHOT_VALUE_BYTES.
Proof.
  induction l as [|r l IH]; cbn [check_records]; [set_solver|]. setoid_rewrite elem_of_cons.
  destruct (snapshot_key_policy (sr_key r)) as [[]|e] eqn:Hp; cbn.
  - destruct (N.ltb_spec MAX_SNAPSHOT_VALUE_BYTES (len (sr_value r))) as [Hlt|Hle].
    + split; [done|]. intros Hall. destruct (Hall r (or_introl eq_refl)). lia.
    + rewrite IH. split; [intros Hall r' [->|?]; auto|intros Hall r' ?; apply Hall; auto].
  - split; [done|]. intros Hall. destruct (Hall r (or_introl eq_refl)). congruence.
  - split; [done|]. intros Hall. destruct (Hall r (or_introl eq_refl)). congruence.
Qed.

(** The records that a restore accepts. *)
Record restorable (p : bool) (records : list StoreRecord) : Prop := {
  ra_count : N.of_nat (length records) ≤ MAX_SNAPSHOT_KEYS;
  ra_sorted : StronglySorted by_key records;
  ra_record r : r ∈ records → snapshot_key_policy (sr_key r) = Ok Include ∧ len (sr_value r) ≤ MAX_SNAPSHOT_VALUE_BYTES
}.

(** The in-progress marker. *)
Definition marked (m : gmap str entry) : Prop := ∃ v, m !! RESTORE_SENTINEL = Some (Entry v None).

Lemma sentinel_excluded (records : list StoreRecord) : (∀ r, r ∈ records → snapshot_key_policy (sr_key r) = Ok Include) →
  RESTORE_SENTINEL ∉ sr_key <$> records.
Proof.
  intros Hp (r & Heq & Hr)%list_elem_of_fmap. specialize (Hp r Hr). rewrite <- Heq in Hp. by vm_compute in Hp.
Qed.

Lemma wp_restore_records records p o w (Q : result error N → world → Prop) :
  (∀ e w', vw w' = vw w ∨ marked (vw w') →
     ¬ reliable o ∨ MAX_SNAPSHOT_KEYS < N.of_nat (size (vw w)) ∨ (∃ k, managed k = true ∧ is_Some (vw w !! k)) ∨
     ¬ restorable p records ∨ (∃ r, r ∈ records ∧ is_ok (restored_value p r) = false) → Q (Err e) w') →
  (∀ n w' c t, restorable p records → marked (vw w') →
     restoring p c (<[RESTORE_SENTINEL := Entry (show_u64 t) None]> (vw w)) records (vw w') → Q (Ok n) w') →
  wp (restore_records records p) o w Q.
Proof.
  intros He Hok. unfold restore_records. apply wp_bind, wp_managed_keys; [intros e w1 Hv [?|?]; apply He; auto|].
  intros keys w1 Hv1 [_ Hthere _]. apply wp_bind, wp_ensure; intros Hkeys; reflect.
  2: { apply He; [by left|]. right. right. left. destruct keys as [|k keys]; [done|]. exists k. apply Hthere. set_solver. }
  apply wp_bind, wp_ensure; intros Hshape; apply negb_true_iff in Hshape || apply negb_false_iff in Hshape.
  2: { apply He; [by left|]. right. right. right. left. intros [Hc Hs _]. apply unsorted_spec in Hs. rewrite Hs in Hshape.
       rewrite orb_false_r in Hshape. reflect. lia. }
  reflect. rename select (unsorted records = false) into Hs. apply unsorted_spec in Hs.
  apply wp_bind, wp_lift. destruct (check_records records) as [[]|e] eqn:Hcheck.
  2: { apply He; [by left|]. right. right. right. left. intros [_ _ Hr]. apply check_records_spec in Hr. congruence. }
  pose proof (proj1 (check_records_spec records) Hcheck) as Hr.
  assert (Hra : restorable p records) by (split; [lia|done..]).
  apply wp_bind, wp_now, wp_bind, wp_execute_view.
  { intros w2 t [?|?] Hv; [|done]. apply He; [|by left]. destruct Hv as [->| ->]; rewrite vw_tick, ?Hv1; [by left|].
    right. eexists. apply lookup_insert_eq. }
  intros w2 t _ Hv2. rewrite vw_tick, Hv1 in Hv2. cbn [exec_pipe exec_cmd snd] in Hv2.
  apply wp_bind, wp_now.
  assert (Hsent : RESTORE_SENTINEL ∉ sr_key <$> records) by (apply sentinel_excluded; intros r Hin; by apply Hr).
  apply wp_restore_chunks; rewrite chunks_concat by lia.
  - by apply by_key_nodup.
  - intros e w3 Hw3 Hwhy. apply He; [|tauto]. right. eexists. rewrite Hw3 by done. rewrite vw_tick, Hv2. apply lookup_insert_eq.
  - intros n w3 Hw3. rewrite vw_tick, Hv2 in Hw3. eapply Hok; [done| |exact Hw3]. eexists.
    rewrite (rs_other _ _ _ _ _ Hw3); [apply lookup_insert_eq|]. intros r Hin _ Heq. apply Hsent. rewrite <- Heq.
    by apply list_elem_of_fmap_2.
Qed.
End RestoreFacts.

(** ** Export followed by restore *)

Section Recovery.
Context `{Env, !Serde AuthEvent, !Serde User}.

Definition restored_user (p : bool) (u : User) : User := if p then u else raise_session_version u.

(** Contents [m'] recovered from contents [m]: every durable record of [m], nothing
    that [m] did not hold, nothing transient, and no session unless they are kept. *)
Record recovered (p : bool) (m m' : gmap str entry) : Prop := {
  rc_absent k : k ≠ RESTORE_SENTINEL → m !! k = None → m' !! k = None;
  rc_transient k : k ≠ RESTORE_SENTINEL → snapshot_key_policy k ≠ Ok Include → m' !! k = None;
  rc_session k : p = false → starts_with #"auth:session:" k = true → m' !! k = None;
  rc_copy k v : m !! k = Some (Entry v None) → managed k = true → snapshot_key_policy k = Ok Include →
    starts_with #"auth:user:" k = false → starts_with #"auth:session:" k && negb p = false →
    m' !! k = Some (Entry v None);
  rc_user k v : m !! k = Some (Entry v None) → starts_with #"auth:user:" k = true →
    ∃ u0 u, from_json v = Some u0 ∧ normalize_and_validate u0 = Ok u ∧
            m' !! k = Some (Entry (to_json (restored_user p u)) None)
}.

Lemma policy_realm q k : q ∈ realm_prefixes → starts_with q k = true → snapshot_key_policy k = Ok Include.
Proof.
  intros Hq Hk. unfold snapshot_key_policy. rewrite (has_prefix_elem realm_prefixes q k Hq Hk), orb_true_r.
  by repeat case_match.
Qed.

Lemma starts_with_app q x k : starts_with (q ++ x) k = true → starts_with q k = true.
Proof. rewrite !starts_with_spec. intros [t ->]. exists (x ++ t). by rewrite app_assoc. Qed.

Lemma auth_managed k : starts_with #"auth:" k = true → managed k = true.
Proof. intros Hk. unfold managed, has_prefix, managed_prefixes. cbn [existsb]. by rewrite Hk. Qed.

Lemma user_prefix_key k : starts_with #"auth:user:" k = true →
  managed k = true ∧ snapshot_key_policy k = Ok Include ∧ starts_with #"auth:session:" k = false.
Proof.
  intros Hk. split_and!.
  - by apply auth_managed, (starts_with_app _ #"user:").
  - apply (policy_realm #"auth:user:"); [set_solver|done].
  - apply starts_with_spec in Hk as [t ->]. reflexivity.
Qed.

Lemma restore_recovered p o c1 recs c t m m' :
  exported o c1 m recs → restorable p recs →
  restoring p c (<[RESTORE_SENTINEL := Entry (show_u64 t) None]> ∅) recs m' → recovered p m m'.
Proof.
  intros [_ Hrec Hall _] [_ Hsort _] [Hdone Hother].
  assert (Hgone : ∀ k, k ≠ RESTORE_SENTINEL → (∀ r, r ∈ recs → skipped p c r = false → sr_key r ≠ k) → m' !! k = None).
  { intros k Hk Hr. rewrite (Hother k Hr), lookup_insert_ne by done. apply lookup_empty. }
  assert (Hkept : ∀ k v, m !! k = Some (Entry v None) → managed k = true → snapshot_key_policy k = Ok Include →
    starts_with #"auth:session:" k && negb p = false →
    ∃ v', restored_value p (mkStoreRecord k v None) = Ok v' ∧ m' !! k = Some (Entry v' None)).
  { intros k v Hk Hm Hp Hs. destruct (Hall _ _ Hk (outlasts_persistent o v) Hm Hp) as (r & Hr & Hkey).
    destruct (Hrec r Hr) as (_ & e & He & Hv & Hx). rewrite Hkey, Hk in He. injection He as <-. cbn in Hv, Hx.
    destruct r as [k' v' x]. cbn in *. subst k' v' x.
    destruct (Hdone _ Hr) as (v' & t' & Hv' & Hm'); [unfold skipped; cbn; by rewrite Hs|]. by exists v'. }
  split.
  - intros k Hk Hn. apply Hgone; [done|]. intros r Hr _ <-. destruct (Hrec r Hr) as (_ & e & He & _). congruence.
  - intros k Hk Hp. apply Hgone; [done|]. intros r Hr _ <-. by destruct (Hrec r Hr).
  - intros k -> Hs. apply Hgone; [intros ->; done|]. intros r Hr Hskip <-. unfold skipped in Hskip. by rewrite Hs in Hskip.
  - intros k v Hk Hm Hp Hu Hs. destruct (Hkept k v Hk Hm Hp Hs) as (v' & Hv' & Hm'). unfold restored_value in Hv'.
    cbn [sr_key sr_value] in Hv'. rewrite Hu in Hv'. by injection Hv' as <-.
  - intros k v Hk Hu. destruct (user_prefix_key k Hu) as (Hm & Hp & Hs).
    destruct (Hkept k v Hk Hm Hp) as (v' & Hv' & Hm'); [by rewrite Hs|]. unfold restored_value in Hv'.
    cbn [sr_key sr_value] in Hv'. rewrite Hu in Hv'. destruct (from_json v) as [u0|] eqn:Hj; [|done]. cbn in Hv'.
    destruct (normalize_and_validate u0) as [u|] eqn:Hn; [|done]. cbn in Hv'. injection Hv' as <-. by exists u0, u.
Qed.

Lemma restored_user_ok p u : user_ok u → user_ok (restored_user p u).
Proof. intros Hu. destruct p; [done|]. pose proof Hu as [_ Hp Hr _]. by apply (user_ok_update u). Qed.

Lemma restored_user_fields p u :
  u_id (restored_user p u) = u_id u ∧ linked (restored_user p u) = linked u ∧
  credentials (restored_user p u) = credentials u.
Proof. by destruct p. Qed.

Lemma recovered_user p m m' id u : recovered p m m' → stored_user m id u → stored_user m' id (restored_user p u).
Proof.
  intros Hr (v & u0 & Hk & Hj & Hn). destruct (rc_user _ _ _ Hr _ _ Hk) as (u0' & u' & Hj' & Hn' & Hk').
  { apply starts_with_spec. by exists (uuid_show id). }
  rewrite Hj in Hj'. injection Hj' as <-. rewrite Hn in Hn'. injection Hn' as <-.
  exists (to_json (restored_user p u)), (restored_user p u). split_and!; [done|apply from_to_json|].
  apply user_ok_normalize, restored_user_ok. by apply normalize_ok in Hn as [? _].
Qed.

Lemma recovered_copy p m m' q x v :
  recovered p m m' → q ∈ realm_prefixes → starts_with #"auth:" q = true →
  apart q #"auth:user:" = true → apart q #"auth:session:" = true →
  m !! (q ++ x) = Some (Entry v None) → m' !! (q ++ x) = Some (Entry v None).
Proof.
  intros Hr Hq Ha Hu Hs Hk.
  assert (Hap : ∀ q', apart q q' = true → starts_with q' (q ++ x) = false).
  { intros q' Hq'. destruct (starts_with q' (q ++ x)) eqn:Heq; [|done].
    apply starts_with_spec in Heq as [y Hy]. by apply (apart_app q q' x y) in Hq'. }
  assert (Hqk : starts_with q (q ++ x) = true) by (apply starts_with_spec; by exists x).
  apply (rc_copy _ _ _ Hr); [done| |by eapply policy_realm|by apply Hap|by rewrite (Hap _ Hs)].
  apply auth_managed. apply starts_with_spec in Ha as [y ->]. by eapply starts_with_app.
Qed.

(** Entries of the account and log families, which never expire. *)
Lemma recovered_identifier p m m' i v : recovered p m m' →
  m !! identifier_key i = Some (Entry v None) → m' !! identifier_key i = Some (Entry v None).
Proof. intros Hr. apply (recovered_copy p _ _ #"auth:identifier:"); [done|set_solver|reflexivity..]. Qed.

Lemma recovered_email p m m' x v : recovered p m m' →
  m !! email_key x = Some (Entry v None) → m' !! email_key x = Some (Entry v None).
Proof. intros Hr. apply (recovered_copy p _ _ #"auth:email:"); [done|set_solver|reflexivity..]. Qed.

Lemma recovered_credential p m m' x v : recovered p m m' →
  m !! credential_key x = Some (Entry v None) → m' !! credential_key x = Some (Entry v None).
Proof. intros Hr. apply (recovered_copy p _ _ #"auth:credential:"); [done|set_solver|reflexivity..]. Qed.

Lemma recovered_event p m m' s v : recovered p m m' →
  m !! event_key s = Some (Entry v None) → m' !! event_key s = Some (Entry v None).
Proof. intros Hr. apply (recovered_copy p _ _ #"auth:event:"); [done|set_solver|reflexivity..]. Qed.

(** What the recovered contents hold under a key comes from the source. *)
Lemma recovered_origin p m m' k e : recovered p m m' → k ≠ RESTORE_SENTINEL → m' !! k = Some e → is_Some (m !! k).
Proof.
  intros Hr Hk He. destruct (m !! k) eqn:Hm; [eauto|]. rewrite (rc_absent _ _ _ Hr k Hk Hm) in He. done.
Qed.

Lemma recovered_user_inv p m m' id u' : accounts_ok m → recovered p m m' →
  stored_user m' id u' → ∃ u, stored_user m id u ∧ u' = restored_user p u.
Proof.
  intros Hacc Hr Hu'. assert (Hk : is_Some (m !! user_key id)).
  { destruct Hu' as (v & u0 & Hk & _). eapply recovered_origin; [done|by vm_compute|done]. }
  destruct Hk as [e He]. destruct (acc_user _ Hacc id e He) as [u Hu]. exists u. split; [done|].
  eapply stored_user_inj; [done|]. by eapply recovered_user.
Qed.

Lemma recovered_resolves p m m' i id : recovered p m m' → resolves m i id → resolves m' i id.
Proof.
  intros Hr [Hk|(Hn & Hkind & He)]; [left; by eapply recovered_identifier|right]. split_and!; [|done|by eapply recovered_email].
  eapply rc_absent; [done|by vm_compute|done].
Qed.

Lemma recovered_accounts p m m' : recovered p m m' → accounts_ok m → accounts_ok m'.
Proof.
  intros Hr Hacc. pose proof Hacc as [Hu Hid Hlk Hcr Hpk Hix Hem Hcx].
  assert (Hback : ∀ id u', stored_user m' id u' → ∃ u, stored_user m id u ∧ u' = restored_user p u)
    by (intros; by eapply recovered_user_inv).
  split.
  - intros id e He. destruct (recovered_origin p m m' (user_key id) e Hr ltac:(by vm_compute) He) as [e0 He0].
    destruct (Hu _ _ He0) as [u Hs]. eexists. by eapply recovered_user.
  - intros id u' (u & Hs & ->)%Hback. destruct (restored_user_fields p u) as (-> & _). by apply Hid.
  - intros id u' i (u & Hs & ->)%Hback Hi. destruct (restored_user_fields p u) as (_ & Hl & _). rewrite Hl in Hi.
    eapply recovered_resolves; [done|by eapply Hlk].
  - intros id u' c (u & Hs & ->)%Hback Hc. destruct (restored_user_fields p u) as (_ & _ & Hl). rewrite Hl in Hc.
    eapply recovered_credential; [done|by eapply Hcr].
  - intros id u' (u & Hs & ->)%Hback. destruct (restored_user_fields p u) as (_ & _ & ->). by eapply Hpk.
  - intros i e He. destruct (recovered_origin p m m' (identifier_key i) e Hr ltac:(by vm_compute) He) as [e0 He0].
    destruct (Hix _ _ He0) as (id & u & -> & Hs & Hi). rewrite (recovered_identifier p m m' i _ Hr He0) in He.
    injection He as <-. exists id, (restored_user p u). destruct (restored_user_fields p u) as (_ & -> & _).
    split_and!; [done|by eapply recovered_user|done].
  - intros v e He. destruct (recovered_origin p m m' (email_key v) e Hr ltac:(by vm_compute) He) as [e0 He0].
    destruct (Hem _ _ He0) as (id & u & -> & Hs & Hi). rewrite (recovered_email p m m' v _ Hr He0) in He.
    injection He as <-. exists id, (restored_user p u). destruct (restored_user_fields p u) as (_ & -> & _).
    split_and!; [done|by eapply recovered_user|done].
  - intros c e He. destruct (recovered_origin p m m' (credential_key c) e Hr ltac:(by vm_compute) He) as [e0 He0].
    destruct (Hcx _ _ He0) as (id & u & -> & Hs & Hi). rewrite (recovered_credential p m m' c _ Hr He0) in He.
    injection He as <-. exists id, (restored_user p u). destruct (restored_user_fields p u) as (_ & _ & ->).
    split_and!; [done|by eapply recovered_user|done].
Qed.

Lemma recovered_counter p m m' k n d :
  recovered p m m' → k = SEQUENCE_KEY ∨ k = MIN_SEQUENCE_KEY → counter_at m k n d → counter_at m' k n d.
Proof.
  intros Hr Hk [Hc|[Hc ->]]; [left|right; split; [|done]].
  - destruct Hk as [-> | ->]; by apply (rc_copy _ _ _ Hr).
  - destruct Hk as [-> | ->]; by apply (rc_absent _ _ _ Hr).
Qed.

Lemma recovered_log p m m' lo hi : recovered p m m' → log_ok m lo hi → log_ok m' lo hi.
Proof.
  intros Hr [Hs Hm Hb He]. split; [eapply recovered_counter; eauto..|done|].
  intros s Hlo Hhi. destruct (He s Hlo Hhi) as (ev & Hk & Hseq). exists ev. split; [|done]. by eapply recovered_event.
Qed.
End Recovery.

(** ** Properties *)

Section Properties.
Context `{Env, !Serde AuthEvent, !Serde User, !Serde Session, !Serde WebhookDeliveryRecord}.

Lemma wp_any {E A : Type} (m : M E A) o w (Q : result E A → world → Prop) : (∀ r w', Q r w') → wp m o w Q.
Proof. intros HQ. apply HQ. Qed.

(** The marker stops a start of the server and another restore. *)
Lemma marked_not_complete o w : marked (vw w) → (ensure_restore_complete o w).1 ≠ Ok tt.
Proof.
  intros [v Hv]. unfold ensure_restore_complete. apply (wp_bind _ _ _ _ (λ r _, r ≠ Ok tt)), wp_get_view; [done|].
  intros t w1 _. rewrite (live_persistent _ _ _ _ Hv). done.
Qed.

(** A key of the managed namespaces that is there throughout keeps a restore out. *)
Lemma occupied_not_restored k e records p o w (Q : result error N → world → Prop) :
  vw w !! k = Some e → outlasts o e → managed k = true → (∀ e' w', vw w' = vw w → Q (Err e') w') → wp (restore_records records p) o w Q.
Proof.
  intros Hk Ho Hm HQ. unfold restore_records. apply wp_bind, wp_managed_keys; [intros; by apply HQ|].
  intros keys w1 Hv1 [_ _ Hall]. apply wp_bind, wp_ensure; [|intros; by apply HQ]. intros ->%bool_decide_eq_true. exfalso.
  by eapply not_elem_of_nil, (Hall k _ Hk).
Qed.

Lemma marked_not_restored records p o w :
  marked (vw w) → is_ok (restore_records records p o w).1 = false ∧ vw (restore_records records p o w).2 = vw w.
Proof.
  intros [v Hv]. apply (occupied_not_restored _ _ records p o w (λ r w1, is_ok r = false ∧ vw w1 = vw w) Hv); [apply outlasts_persistent|reflexivity|done].
Qed.

(** A persistent key that no family covers stops the export. *)
Lemma unknown_key_refused k v o w :
  vw w !! k = Some (Entry v None) → managed k = true → is_ok (snapshot_key_policy k) = false →
  is_ok (export_records o w).1 = false.
Proof.
  intros Hk Hm Hp. apply (wp_export_records o w (λ r _, is_ok r = false)); [done|].
  intros recs w' _ [_ _ _ Hknown]. exfalso. pose proof (Hknown k _ Hk (outlasts_persistent o v) Hm). congruence.
Qed.

(** C23: the export is the datastore's durable contents.  When every round trip is
    delivered, every key of the managed namespaces belongs to a known family and the
    size limits are met, the export succeeds.  Its records come in strictly increasing
    key order; each one is the entry under its key, with the same value and an expiry
    exactly when the entry has one; and no entry of an included family that is there
    throughout is missing. *)
Theorem export_exact o w :
  reliable o → ¬ refused (vw w) →
  ∃ recs, (export_records o w).1 = Ok (clock o w, recs) ∧ StronglySorted by_key recs ∧
    (∀ r, r ∈ recs → snapshot_key_policy (sr_key r) = Ok Include ∧ faithful o (clock o w) (vw w) r) ∧
    (∀ k e, vw w !! k = Some e → outlasts o e → managed k = true → snapshot_key_policy k = Ok Include →
       ∃ r, r ∈ recs ∧ sr_key r = k).
Proof.
  intros Hr Hno. apply (wp_export_records o w (λ r _, ∃ recs, r = Ok (clock o w, recs) ∧ StronglySorted by_key recs ∧
    (∀ r, r ∈ recs → snapshot_key_policy (sr_key r) = Ok Include ∧ faithful o (clock o w) (vw w) r) ∧ _)).
  - by intros e w' _ [?|?].
  - intros recs w' _ [Hs Hf Ha _]. by exists recs.
Qed.

(** An interrupted restore is noticed.  Whatever requests and replies are lost while
    records are restored, either the datastore is as it was, or from then on the check at
    start-up refuses the datastore, and a further restore refuses it and leaves it
    unchanged. *)
Theorem interrupted_restore_detected records p o w :
  let w' := (restore_records records p o w).2 in
  vw w' = vw w ∨
  ∀ o', (ensure_restore_complete o' w').1 ≠ Ok tt ∧
    ∀ records' p', is_ok (restore_records records' p' o' w').1 = false ∧ vw (restore_records records' p' o' w').2 = vw w'.
Proof.
  cbv zeta. apply (wp_restore_records records p o w (λ _ w', vw w' = vw w ∨ ∀ o', (ensure_restore_complete o' w').1 ≠ Ok tt ∧
    ∀ records' p', is_ok (restore_records records' p' o' w').1 = false ∧ vw (restore_records records' p' o' w').2 = vw w')).
  - intros e w' [Hv|Hm] _; [by left|right]. intros o'. split; [by apply marked_not_complete|]. intros. by apply marked_not_restored.
  - intros n w' c t _ Hm _. right. intros o'. split; [by apply marked_not_complete|]. intros. by apply marked_not_restored.
Qed.

Lemma exported_restores p o1 c m recs o2 w2 n :
  exported o1 c m recs → vw w2 = ∅ → (restore_records recs p o2 w2).1 = Ok n → system_ok m →
  let w' := (restore_records recs p o2 w2).2 in
  system_ok (vw w') ∧
  (∀ id u, stored_user m id u → stored_user (vw w') id (restored_user p u)) ∧
  (∀ k v, m !! k = Some (Entry v None) → managed k = true → snapshot_key_policy k = Ok Include →
     starts_with #"auth:user:" k = false → starts_with #"auth:session:" k && negb p = false →
     vw w' !! k = Some (Entry v None)) ∧
  (∀ k, k ≠ RESTORE_SENTINEL → snapshot_key_policy k ≠ Ok Include → vw w' !! k = None) ∧
  (p = false → ∀ token idle o x touches, (session token idle o w').1 ≠ Ok (Some x, touches)).
Proof.
  intros Hexp Hempty Hre [Hacc (lo & hi & Hlog)]. cbv zeta.
  assert (Hrec : recovered p m (vw (restore_records recs p o2 w2).2)).
  { revert Hre. apply (wp_restore_records recs p o2 w2 (λ r w', r = Ok n → recovered p m (vw w'))); [done|].
    intros n' w' c' t Hra _ Hr _. rewrite Hempty in Hr. by eapply restore_recovered. }
  assert (Hacc' := recovered_accounts _ _ _ Hrec Hacc). split_and!.
  - split; [done|]. exists lo, hi. by eapply recovered_log.
  - intros id u. by eapply recovered_user.
  - intros k v. by apply (rc_copy _ _ _ Hrec).
  - intros k. by apply (rc_transient _ _ _ Hrec).
  - intros -> token idle o x touches. set (w' := (restore_records recs false o2 w2).2) in *.
    apply (wp_session token idle o w' (λ res _, res ≠ Ok (Some x, touches))); [done|done|done|].
    intros r act s u now ts tl w3 _ Hg. destruct (gr_record _ _ _ _ _ _ _ _ _ Hg) as (v & Hl & _).
    apply live_Some in Hl as [dl Hl]. rewrite (rc_session _ _ _ Hrec (session_key token) eq_refl) in Hl; [done|].
    apply starts_with_spec. by eexists.
Qed.

(** A recovery point restores the realm.  Let an export succeed, and let its records be
    restored, with or without the sessions, into a new datastore.  Then an account store
    and an event log that were consistent are consistent again; every account is back
    under its identifier, with its session version raised unless sessions are kept; every
    other durable record without expiry is back with its value; nothing transient comes
    back; and without the sessions no token authenticates. *)
Theorem recovery_point_restores p o1 w1 c recs o2 w2 n :
  (export_records o1 w1).1 = Ok (c, recs) → vw w2 = ∅ → (restore_records recs p o2 w2).1 = Ok n →
  system_ok (vw w1) →
  let w' := (restore_records recs p o2 w2).2 in
  system_ok (vw w') ∧
  (∀ id u, stored_user (vw w1) id u → stored_user (vw w') id (restored_user p u)) ∧
  (∀ k v, vw w1 !! k = Some (Entry v None) → managed k = true → snapshot_key_policy k = Ok Include →
     starts_with #"auth:user:" k = false → starts_with #"auth:session:" k && negb p = false →
     vw w' !! k = Some (Entry v None)) ∧
  (∀ k, k ≠ RESTORE_SENTINEL → snapshot_key_policy k ≠ Ok Include → vw w' !! k = None) ∧
  (p = false → ∀ token idle o x touches, (session token idle o w').1 ≠ Ok (Some x, touches)).
Proof.
  intros Hex Hempty Hre Hsys. apply (exported_restores p o1 c (vw w1) recs o2 w2 n); [|done..].
  revert Hex. apply (wp_export_records o1 w1 (λ r _, r = Ok (c, recs) → _)); [done|]. by intros recs' w' _ Hx [= <- <-].
Qed.

End Properties.

(** ** Witnesses *)

Module DemoSnapshot.
Import DemoEnv.

(** What an export refuses, as a test. *)
Definition refusedb (m : gmap str entry) : bool :=
  existsb (λ ke : str * entry, (MAX_SNAPSHOT_VALUE_BYTES <? len (e_val ke.2)) ||
    (managed ke.1 && negb (is_ok (snapshot_key_policy ke.1)))) (map_to_list m)
  || (MAX_SNAPSHOT_KEYS <? N.of_nat (size m)).

Lemma refusedb_spec m : refusedb m = false → ¬ refused m.
Proof.
  unfold refusedb. intros Hb. apply orb_false_iff in Hb as [Hb Hs].
  assert (Hall : ∀ k e, m !! k = Some e → (MAX_SNAPSHOT_VALUE_BYTES <? len (e_val e)) = false ∧
    managed k && negb (is_ok (snapshot_key_policy k)) = false).
  { intros k e He. apply elem_of_map_to_list in He.
    destruct (MAX_SNAPSHOT_VALUE_BYTES <? len (e_val e)) eqn:H1.
    { edestruct (existsb_false_elem _ _ (k, e) Hb He). apply orb_true_iff. by left. }
    destruct (managed k && negb (is_ok (snapshot_key_policy k))) eqn:H2; [|done].
    edestruct (existsb_false_elem _ _ (k, e) Hb He). apply orb_true_iff. by right. }
  intros [(k & e & He & Hlen)|[Hsize|(k & [e He] & Hm & Hp)]].
  - destruct (Hall k e He) as [Hl _]. reflect. lia.
  - reflect. lia.
  - destruct (Hall k e He) as [_ Hl]. by rewrite Hm, Hp in Hl.
Qed.

Abbreviation demo_realm := (demo_step1.2).
Definition demo_records : list StoreRecord :=
  Eval vm_compute in match (export_records demo_oracle demo_realm).1 with Ok (_, recs) => recs | Err _ => [] end.
Definition demo_captured : N :=
  Eval vm_compute in match (export_records demo_oracle demo_realm).1 with Ok (c, _) => c | Err _ => 0 end.

Lemma demo_realm_ok : system_ok (vw demo_realm).
Proof.
  apply (system_steps_ok demo_store (demo_world [])); [|exact system_ok_empty].
  apply (rtc_l _ _ demo_step0.2).
  - apply (step_perform demo_store (CreateUser demo_id demo_email demo_profile demo_passkey true None) demo_oracle (demo_world [])).
    exact (eq_refl : vw (demo_world []) !! user_key demo_id = None).
  - apply rtc_once, (step_perform demo_store (AppendEvent #"session.revoked" (Some demo_id)) demo_oracle demo_step0.2). exact I.
Qed.

Lemma export_exact_witness :
  length demo_records = 7%nat ∧
  ∃ recs, (export_records demo_oracle demo_realm).1 = Ok (clock demo_oracle demo_realm, recs) ∧ StronglySorted by_key recs ∧
    (∀ r, r ∈ recs → snapshot_key_policy (sr_key r) = Ok Include ∧ faithful demo_oracle (clock demo_oracle demo_realm) (vw demo_realm) r) ∧
    (∀ k e, vw demo_realm !! k = Some e → outlasts demo_oracle e → managed k = true → snapshot_key_policy k = Ok Include →
       ∃ r, r ∈ recs ∧ sr_key r = k).
Proof.
  split; [vm_compute; reflexivity|].
  apply (export_exact demo_oracle demo_realm); [exact demo_reliable|]. apply refusedb_spec. vm_compute. reflexivity.
Defined.

(** The realm with one account is restored into an empty datastore without its sessions. *)
Abbreviation demo_restore := (restore_records demo_records false demo_oracle (demo_world [])).

Lemma recovery_point_restores_witness :
  demo_restore.1 = Ok 7 ∧ system_ok (vw demo_restore.2) ∧
  stored_user (vw demo_restore.2) demo_id (restored_user false demo_user) ∧
  (ensure_restore_complete demo_oracle demo_restore.2).1 ≠ Ok tt.
Proof.
  assert (Hex : (export_records demo_oracle demo_realm).1 = Ok (demo_captured, demo_records)) by eval_eq.
  assert (Hre : demo_restore.1 = Ok 7) by eval_eq.
  destruct (recovery_point_restores false demo_oracle demo_realm demo_captured demo_records demo_oracle (demo_world []) 7
    Hex eq_refl Hre demo_realm_ok) as (Hok & Hu & _).
  split; [exact Hre|]. split; [exact Hok|]. split; [|vm_compute; discriminate].
  apply Hu. exists (to_json demo_user), demo_user. split_and!; eval_eq.
Defined.


Example delivery_refused :
  (export_records demo_oracle (demo_world [])).1 = Ok (1000, []) ∧
  (export_records demo_oracle demo_queued.2).1 = Err (EBail "unknown RustyAuth key family in snapshot").
Proof. split; eval_eq. Qed.

(** A rotated control-plane credential: its receipt is of no family either, so for the day
    that the receipt lives there is no backup of the realm. *)
Import DemoManagement.
Example rotation_refused :
  is_ok (export_records demo_oracle demo_grant_world).1 = true ∧
  (export_records demo_oracle demo_rotated_world).1 = Err (EBail "unknown RustyAuth key family in snapshot").
Proof. split; eval_eq. Qed.
End DemoSnapshot.
