(* ===== verification/BackupSnapshot.v ===== *)
(** * Backup snapshots (src/src/backup/snapshot.rs)

    A snapshot is the exported records with a manifest: their number, digest, key
    families and event sequence.  Before it is stored, and again before it is restored,
    the records are indexed by family and checked against each other. *)

From S2P Require Import Prelude Sable Logic Demo Bytes Records Events Identifiers Users Accounts Sessions Organization.
From S2P Require Import ServiceAccounts SigningKeys RemoteMutations Management Fleet FleetConnections FleetRoles System Snapshot.

#[global] Program Instance Uuid_countable : Countable Uuid :=
  inj_countable uuid_bits uuid_of_bits _.
Next Obligation.
  intros u. unfold uuid_of_bits. destruct (decide _) as [Hd|Hd]; [f_equal; by apply uuid_bits_inj|]. by destruct u.
Qed.

Definition kind_code (k : FleetResourceKindRecord) : N := match k with KOrganization => 0 | KProject => 1 | KEnvironment => 2 end.
Definition kind_of_code (n : N) : option FleetResourceKindRecord :=
  if n =? 0 then Some KOrganization else if n =? 1 then Some KProject else if n =? 2 then Some KEnvironment else None.
Lemma kind_of_kind_code k : kind_of_code (kind_code k) = Some k.
Proof. by destruct k. Qed.
#[global] Instance FleetResourceKindRecord_countable : Countable FleetResourceKindRecord :=
  inj_countable kind_code kind_of_code kind_of_kind_code.

Definition SNAPSHOT_VERSION : N := 2.

Record FleetIdempotencySnapshot := mkIdempotencySnapshot { is_action : str; is_resource_id : Uuid }.

Record SnapshotManifest := mkManifest {
  mf_record_count : N;
  mf_content_sha256 : str;
  mf_key_families : gmap str N;
  mf_event_sequence : N
}.
Record BackupSnapshot := mkSnapshot {
  bs_format_version : N;
  bs_snapshot_id : Uuid;
  bs_tenant_id : str;
  bs_captured_at : N;
  bs_records : list StoreRecord;
  bs_manifest : SnapshotManifest
}.

(** ** Key families: the strings of the source as constructors *)

Inductive Family :=
  | FEventSequence | FEventMinSequence | FKeyset | FOrganization | FUser | FEmailIndex | FIdentifierIndex
  | FCredentialIndex | FSession | FEvent | FInvitation | FInvitationCode | FWebhook | FWebhookCursor
  | FWebhookDelivery | FWebhookDeliveryEvent | FOperator | FServiceAccount | FServiceCredential | FRealmFleetGrant
  | FRealmFleetGrantSecret | FRemoteMutation | FFleetOrganization | FFleetOrganizationSlug | FFleetProject
  | FFleetProjectSlug | FFleetEnvironment | FFleetEnvironmentSlug | FFleetConnection | FFleetRoleBinding
  | FFleetRoleBindingSubject | FFleetIdempotency | FFleetAssignmentEpoch | FFleetAudit | FFleetAnalyticsBucket
  | FFleetAnalyticsPolicy | FFleetAnalyticsPolicyIdempotency | FFleetAnalyticsQuarantine
  | FFleetAnalyticsIngestionAudit | FFleetAnalyticsOperatorAudit | FFleetAnalyticsMaintenanceAudit
  | FFleetAnalyticsManifest | FAnalyticsBucket | FAnalyticsOutbox | FAnalyticsProjectorCursor | FAnalyticsClosureCursor.
#[global] Instance Family_eq_dec : EqDecision Family.
Proof. solve_decision. Defined.

Definition family_name (f : Family) : str :=
  match f with
  | FEventSequence => #"event-sequence" | FEventMinSequence => #"event-min-sequence" | FKeyset => #"keyset"
  | FOrganization => #"organization" | FUser => #"user" | FEmailIndex => #"email-index"
  | FIdentifierIndex => #"identifier-index" | FCredentialIndex => #"credential-index" | FSession => #"session"
  | FEvent => #"event" | FInvitation => #"invitation" | FInvitationCode => #"invitation-code"
  | FWebhook => #"webhook" | FWebhookCursor => #"webhook-cursor" | FWebhookDelivery => #"webhook-delivery"
  | FWebhookDeliveryEvent => #"webhook-delivery-event" | FOperator => #"operator"
  | FServiceAccount => #"service-account" | FServiceCredential => #"service-credential"
  | FRealmFleetGrant => #"realm-fleet-grant" | FRealmFleetGrantSecret => #"realm-fleet-grant-secret"
  | FRemoteMutation => #"remote-mutation" | FFleetOrganization => #"fleet-organization"
  | FFleetOrganizationSlug => #"fleet-organization-slug" | FFleetProject => #"fleet-project"
  | FFleetProjectSlug => #"fleet-project-slug" | FFleetEnvironment => #"fleet-environment"
  | FFleetEnvironmentSlug => #"fleet-environment-slug" | FFleetConnection => #"fleet-connection"
  | FFleetRoleBinding => #"fleet-role-binding" | FFleetRoleBindingSubject => #"fleet-role-binding-subject"
  | FFleetIdempotency => #"fleet-idempotency" | FFleetAssignmentEpoch => #"fleet-assignment-epoch"
  | FFleetAudit => #"fleet-audit" | FFleetAnalyticsBucket => #"fleet-analytics-bucket"
  | FFleetAnalyticsPolicy => #"fleet-analytics-policy"
  | FFleetAnalyticsPolicyIdempotency => #"fleet-analytics-policy-idempotency"
  | FFleetAnalyticsQuarantine => #"fleet-analytics-quarantine"
  | FFleetAnalyticsIngestionAudit => #"fleet-analytics-ingestion-audit"
  | FFleetAnalyticsOperatorAudit => #"fleet-analytics-operator-audit"
  | FFleetAnalyticsMaintenanceAudit => #"fleet-analytics-maintenance-audit"
  | FFleetAnalyticsManifest => #"fleet-analytics-manifest" | FAnalyticsBucket => #"analytics-bucket"
  | FAnalyticsOutbox => #"analytics-outbox" | FAnalyticsProjectorCursor => #"analytics-projector-cursor"
  | FAnalyticsClosureCursor => #"analytics-closure-cursor"
  end.

Definition family_prefixes : list (str * Family) :=
  [ (lit "auth:user:", FUser); (lit "auth:email:", FEmailIndex); (lit "auth:identifier:", FIdentifierIndex);
    (lit "auth:credential:", FCredentialIndex); (lit "auth:session:", FSession); (lit "auth:event:", FEvent);
    (lit "auth:invitation:", FInvitation); (lit "auth:invitation-code:", FInvitationCode);
    (lit "auth:webhook:", FWebhook); (lit "auth:webhook-cursor:", FWebhookCursor);
    (lit "auth:webhook-delivery:", FWebhookDelivery); (lit "auth:webhook-delivery-event:", FWebhookDeliveryEvent);
    (lit "auth:operator:", FOperator); (lit "auth:service-account:", FServiceAccount);
    (lit "auth:service-credential:", FServiceCredential); (lit "auth:fleet-grant:", FRealmFleetGrant);
    (lit "auth:fleet-grant-secret:", FRealmFleetGrantSecret); (lit "auth:remote-mutation:", FRemoteMutation);
    (lit "fleet:organization:", FFleetOrganization); (lit "fleet:organization-slug:", FFleetOrganizationSlug);
    (lit "fleet:project:", FFleetProject); (lit "fleet:project-slug:", FFleetProjectSlug);
    (lit "fleet:environment:", FFleetEnvironment); (lit "fleet:environment-slug:", FFleetEnvironmentSlug);
    (lit "fleet:connection:", FFleetConnection); (lit "fleet:role-binding:", FFleetRoleBinding);
    (lit "fleet:role-binding-subject:", FFleetRoleBindingSubject); (lit "fleet:idempotency:", FFleetIdempotency);
    (lit "fleet:assignment-epoch:", FFleetAssignmentEpoch); (lit "fleet:audit:", FFleetAudit);
    (lit "fleet:analytics-bucket:", FFleetAnalyticsBucket); (lit "fleet:analytics-policy:", FFleetAnalyticsPolicy);
    (lit "fleet:analytics-policy-idempotency:", FFleetAnalyticsPolicyIdempotency);
    (lit "fleet:analytics-quarantine:", FFleetAnalyticsQuarantine);
    (lit "fleet:analytics-ingestion-audit:", FFleetAnalyticsIngestionAudit);
    (lit "fleet:analytics-operator-audit:", FFleetAnalyticsOperatorAudit);
    (lit "fleet:analytics-maintenance-audit:", FFleetAnalyticsMaintenanceAudit);
    (lit "fleet:analytics-manifest:", FFleetAnalyticsManifest); (lit "analytics:bucket:", FAnalyticsBucket);
    (lit "analytics:outbox:", FAnalyticsOutbox) ].

Definition record_family (key : str) : result error Family :=
  if bool_decide (key = #"auth:event-sequence") then Ok FEventSequence
  else if bool_decide (key = #"auth:event-min-sequence") then Ok FEventMinSequence
  else if bool_decide (key = KEYSET_KEY) then Ok FKeyset
  else if bool_decide (key = #"auth:organization") then Ok FOrganization
  else match List.find (λ pf : str * Family, starts_with pf.1 key && (len pf.1 <? len key)) family_prefixes with
       | Some pf => Ok pf.2
       | None =>
           if bool_decide (key = #"analytics:projector-cursor") then Ok FAnalyticsProjectorCursor
           else if bool_decide (key = #"analytics:closure-cursor") then Ok FAnalyticsClosureCursor
           else Err (EBail "backup contains unsupported key")
       end.

Definition record_family_allows_expiry (f : Family) : bool :=
  match f with
  | FSession | FRemoteMutation | FFleetAnalyticsQuarantine | FFleetAnalyticsIngestionAudit
  | FFleetAnalyticsMaintenanceAudit => true
  | _ => false
  end.

(** [str::trim_start_matches] with a string: every leading copy goes. *)
Fixpoint trim_start_fuel (fuel : nat) (p s : str) : str :=
  match fuel with
  | O => s
  | S fuel => match strip_prefix p s with Some s' => trim_start_fuel fuel p s' | None => s end
  end.
Definition trim_start_matches_str (p s : str) : str := trim_start_fuel (length s) p s.

Definition require (b : bool) (message : String.string) : result error unit := if b then Ok tt else Err (EBail message).
#[global] Arguments require b message%_string_scope.

(** A [for] loop of checks. *)
Fixpoint for_each {A : Type} (f : A → result error unit) (l : list A) : result error unit :=
  match l with
  | [] => Ok tt
  | x :: l => _ ← f x; for_each f l
  end.

(** [if map.insert(key, value).is_some() { bail! }] *)
Definition insert_new {K A : Type} `{Countable K} (m : gmap K A) (k : K) (a : A) (message : String.string) :
    result error (gmap K A) :=
  match m !! k with Some _ => Err (EBail message) | None => Ok (<[k := a]> m) end.
#[global] Arguments insert_new {K A _ _} m k a message%_string_scope.

(** ** The index

    [SnapshotIndex] with its fields in three groups: the realm's records, the log and
    key-set counters, and the fleet workspace. *)

Section Index.
Context `{Env, !ExtSigning}.
Context `{!Serde AuthEvent, !Serde User, !Serde Session, !Serde OrganizationRecord, !Serde OperatorRecord}.
Context `{!Serde ServiceAccountRecord, !Serde ServiceCredentialLocator, !Serde RealmFleetGrantRecord}.
Context `{!Serde FleetOrganizationRecord, !Serde FleetProjectRecord, !Serde FleetEnvironmentRecord}.
Context `{!Serde FleetConnectionRecord, !Serde FleetRoleBindingRecord, !Serde FleetAuditRecord}.
Context `{!Serde FleetIdempotencySnapshot, !Serde (list StoreRecord)}.
(** [serde_json::from_str::<Value>] and [value.get(name).and_then(Value::as_u64)] *)
Context (parse_value : str → option Value) (json_get_u64 : Value → str → option N).

Record RealmIndex := mkRealmIndex {
  ix_users : gmap Uuid User;
  ix_email_indexes : gmap str Uuid;
  ix_identifier_indexes : gmap str Uuid;
  ix_credential_indexes : gmap str Uuid;
  ix_sessions : list Session;
  ix_operators : list OperatorRecord;
  ix_organizations : N;
  ix_service_accounts : gmap Uuid ServiceAccountRecord;
  ix_service_credentials : list ServiceCredentialLocator;
  ix_realm_fleet_grants : gmap Uuid RealmFleetGrantRecord;
  ix_realm_fleet_grant_secrets : gmap str Uuid
}.
Record LogIndex := mkLogIndex {
  ix_event_count : N;
  ix_event_lowest : option N;
  ix_event_highest : option N;
  ix_event_sequence_record : option N;
  ix_event_min_sequence_record : option N;
  ix_keyset_count : N
}.
Record FleetIndex := mkFleetIndex {
  ix_fleet_organizations : gmap Uuid FleetOrganizationRecord;
  ix_fleet_organization_slugs : gmap str Uuid;
  ix_fleet_projects : gmap Uuid FleetProjectRecord;
  ix_fleet_project_slugs : gmap (Uuid * str) Uuid;
  ix_fleet_environments : gmap Uuid FleetEnvironmentRecord;
  ix_fleet_environment_slugs : gmap (Uuid * str) Uuid;
  ix_fleet_connections : gmap Uuid FleetConnectionRecord;
  ix_fleet_role_bindings : gmap Uuid FleetRoleBindingRecord;
  ix_fleet_role_binding_subjects : gmap (Uuid * FleetResourceKindRecord * Uuid) Uuid;
  ix_fleet_idempotency : gmap Uuid FleetIdempotencySnapshot;
  ix_fleet_audits : gmap Uuid FleetAuditRecord
}.
Record SnapshotIndex := mkIndex {
  ix_families : gmap str N;
  ix_realm : RealmIndex;
  ix_log : LogIndex;
  ix_fleet : FleetIndex
}.

Definition empty_index : SnapshotIndex :=
  mkIndex ∅ (mkRealmIndex ∅ ∅ ∅ ∅ [] [] 0 ∅ [] ∅ ∅) (mkLogIndex 0 None None None None 0)
    (mkFleetIndex ∅ ∅ ∅ ∅ ∅ ∅ ∅ ∅ ∅ ∅ ∅).

(** [*families.entry(family).or_insert(0) += 1] *)
Definition count_family (f : Family) (families : gmap str N) : gmap str N :=
  <[family_name f := default 0 (families !! family_name f) + 1]> families.

Definition decode {A : Type} `{!Serde A} (r : StoreRecord) : result error A := ok_or EDecode (from_json (sr_value r)).
Definition parse_id (s : str) : result error Uuid := ok_or EUuid (uuid_parse s).
Definition parse_number (s : str) : result error N := ok_or EDecode (parse_u64 s).

Definition index_user (ix : RealmIndex) (r : StoreRecord) : result error RealmIndex :=
  let 'mkRealmIndex users emails identifiers credentials sessions operators orgs accounts locators grants secrets := ix in
  u ← decode r;
  u ← normalize_and_validate u;
  _ ← require (bool_decide (sr_key r = #"auth:user:" ++ uuid_show (u_id u))) "backup user key does not match its record id";
  users ← insert_new users (u_id u) u "backup contains duplicate records for one user id";
  Ok (mkRealmIndex users emails identifiers credentials sessions operators orgs accounts locators grants secrets).

Definition index_realm (f : Family) (ix : RealmIndex) (r : StoreRecord) : result error RealmIndex :=
  let 'mkRealmIndex users emails identifiers credentials sessions operators orgs accounts locators grants secrets := ix in
  match f with
  | FUser => index_user ix r
  | FEmailIndex =>
      id ← parse_id (sr_value r);
      let emails := <[trim_start_matches_str #"auth:email:" (sr_key r) := id]> emails in
      Ok (mkRealmIndex users emails identifiers credentials sessions operators orgs accounts locators grants secrets)
  | FIdentifierIndex =>
      id ← parse_id (sr_value r);
      let identifiers := <[trim_start_matches_str #"auth:identifier:" (sr_key r) := id]> identifiers in
      Ok (mkRealmIndex users emails identifiers credentials sessions operators orgs accounts locators grants secrets)
  | FCredentialIndex =>
      id ← parse_id (sr_value r);
      let credentials := <[trim_start_matches_str #"auth:credential:" (sr_key r) := id]> credentials in
      Ok (mkRealmIndex users emails identifiers credentials sessions operators orgs accounts locators grants secrets)
  | FSession =>
      _ ← require (is_some (sr_expires_at r)) "backup session has no expiry";
      s ← decode r;
      let sessions := sessions ++ [s] in
      Ok (mkRealmIndex users emails identifiers credentials sessions operators orgs accounts locators grants secrets)
  | FOrganization =>
      _ ← (decode r : result error OrganizationRecord);
      let orgs := N.min (orgs + 1) 255 in
      Ok (mkRealmIndex users emails identifiers credentials sessions operators orgs accounts locators grants secrets)
  | FOperator =>
      op ← decode r;
      _ ← require (bool_decide (sr_key r = #"auth:operator:" ++ uuid_show (op_user_id op)))
            "backup operator key does not match its user id";
      let operators := operators ++ [op] in
      Ok (mkRealmIndex users emails identifiers credentials sessions operators orgs accounts locators grants secrets)
  | FServiceAccount =>
      a ← decode r;
      _ ← require (bool_decide (sr_key r = #"auth:service-account:" ++ uuid_show (sa_id a)))
            "backup service-account key does not match its id";
      let accounts := <[sa_id a := a]> accounts in
      Ok (mkRealmIndex users emails identifiers credentials sessions operators orgs accounts locators grants secrets)
  | FServiceCredential =>
      l ← decode r;
      let locators := locators ++ [l] in
      Ok (mkRealmIndex users emails identifiers credentials sessions operators orgs accounts locators grants secrets)
  | FRealmFleetGrant =>
      g ← decode r;
      _ ← require (bool_decide (sr_key r = #"auth:fleet-grant:" ++ uuid_show (rg_connection_id g)))
            "backup realm Fleet grant key does not match its connection id";
      grants ← insert_new grants (rg_connection_id g) g "backup contains duplicate realm Fleet grants";
      Ok (mkRealmIndex users emails identifiers credentials sessions operators orgs accounts locators grants secrets)
  | FRealmFleetGrantSecret =>
      id ← parse_id (sr_value r);
      secrets ← insert_new secrets (trim_start_matches_str #"auth:fleet-grant-secret:" (sr_key r)) id
                  "backup contains duplicate realm Fleet grant locators";
      Ok (mkRealmIndex users emails identifiers credentials sessions operators orgs accounts locators grants secrets)
  | FRemoteMutation =>
      _ ← parse_id (trim_start_matches_str #"auth:remote-mutation:" (sr_key r));
      _ ← require (is_some (sr_expires_at r)) "backup remote mutation receipt has no expiry";
      v ← ok_or EDecode (parse_value (sr_value r));
      _ ← require (negb (negb (is_some (json_get_str v #"digest")) || negb (is_some (json_get_str v #"state"))
                         || negb (is_some (json_get_u64 v #"claimedAt"))))
            "backup remote mutation receipt is malformed";
      Ok ix
  | _ => Ok ix
  end.

Definition index_log (tenant_id : str) (f : Family) (ix : LogIndex) (r : StoreRecord) : result error LogIndex :=
  let 'mkLogIndex count lowest highest sequence minimum keysets := ix in
  match f with
  | FEvent =>
      n ← parse_number (trim_start_matches_str #"auth:event:" (sr_key r));
      ev ← decode r;
      _ ← require (bool_decide (sr_key r = #"auth:event:" ++ show_u64 n) && (ev_sequence ev =? n)
                   && bool_decide (ev_tenant_id ev = tenant_id))
            "backup event metadata does not match its key or tenant";
      Ok (mkLogIndex (saturating_add count 1)
            (Some (match lowest with Some current => N.min current n | None => n end))
            (Some (match highest with Some current => N.max current n | None => n end)) sequence minimum keysets)
  | FKeyset => Ok (mkLogIndex count lowest highest sequence minimum (N.min (keysets + 1) 255))
  | FEventSequence =>
      n ← parse_number (sr_value r);
      Ok (mkLogIndex count lowest highest (Some n) minimum keysets)
  | FEventMinSequence =>
      n ← parse_number (sr_value r);
      Ok (mkLogIndex count lowest highest sequence (Some n) keysets)
  | _ => Ok ix
  end.

Definition parse_parent_slug (value : str) : result error (Uuid * str) :=
  '(parent, slug) ← ok_or (EBail "backup slug index is malformed") (split_once 58 value);
  _ ← require (negb (bool_decide (slug = []))) "backup slug index has an empty slug";
  parent ← parse_id parent;
  Ok (parent, slug).

(** The iterator of [value.split(':')] read with [next]. *)
Definition parse_binding_subject (value : str) : result error (Uuid * FleetResourceKindRecord * Uuid) :=
  let parts := split 58 value in
  operator_id ← parse_id (default [] (parts !! 0%nat));
  kind ← match parts !! 1%nat with
         | Some k => if bool_decide (k = #"organization") then Ok KOrganization
                     else if bool_decide (k = #"project") then Ok KProject
                     else if bool_decide (k = #"environment") then Ok KEnvironment
                     else Err (EBail "backup Fleet role binding subject has an invalid resource kind")
         | None => Err (EBail "backup Fleet role binding subject has an invalid resource kind")
         end;
  resource_id ← parse_id (default [] (parts !! 2%nat));
  _ ← require (negb (is_some (parts !! 3%nat))) "backup Fleet role binding subject index is malformed";
  Ok (operator_id, kind, resource_id).

Definition index_fleet (f : Family) (ix : FleetIndex) (r : StoreRecord) : result error FleetIndex :=
  let 'mkFleetIndex orgs org_slugs projects project_slugs envs env_slugs conns bindings subjects idem audits := ix in
  match f with
  | FFleetOrganization =>
      v ← decode r;
      _ ← require (bool_decide (sr_key r = #"fleet:organization:" ++ uuid_show (fo_id v)))
            "backup Fleet organization key does not match its id";
      orgs ← insert_new orgs (fo_id v) v "backup contains duplicate Fleet organizations";
      Ok (mkFleetIndex orgs org_slugs projects project_slugs envs env_slugs conns bindings subjects idem audits)
  | FFleetOrganizationSlug =>
      id ← parse_id (sr_value r);
      org_slugs ← insert_new org_slugs (trim_start_matches_str #"fleet:organization-slug:" (sr_key r)) id
                    "backup contains duplicate Fleet organization slug indexes";
      Ok (mkFleetIndex orgs org_slugs projects project_slugs envs env_slugs conns bindings subjects idem audits)
  | FFleetProject =>
      v ← decode r;
      _ ← require (bool_decide (sr_key r = #"fleet:project:" ++ uuid_show (fp_id v)))
            "backup Fleet project key does not match its id";
      projects ← insert_new projects (fp_id v) v "backup contains duplicate Fleet projects";
      Ok (mkFleetIndex orgs org_slugs projects project_slugs envs env_slugs conns bindings subjects idem audits)
  | FFleetProjectSlug =>
      key ← parse_parent_slug (trim_start_matches_str #"fleet:project-slug:" (sr_key r));
      id ← parse_id (sr_value r);
      project_slugs ← insert_new project_slugs key id "backup contains duplicate Fleet project slug indexes";
      Ok (mkFleetIndex orgs org_slugs projects project_slugs envs env_slugs conns bindings subjects idem audits)
  | FFleetEnvironment =>
      v ← decode r;
      _ ← require (bool_decide (sr_key r = #"fleet:environment:" ++ uuid_show (fe_id v)))
            "backup Fleet environment key does not match its id";
      envs ← insert_new envs (fe_id v) v "backup contains duplicate Fleet environments";
      Ok (mkFleetIndex orgs org_slugs projects project_slugs envs env_slugs conns bindings subjects idem audits)
  | FFleetEnvironmentSlug =>
      key ← parse_parent_slug (trim_start_matches_str #"fleet:environment-slug:" (sr_key r));
      id ← parse_id (sr_value r);
      env_slugs ← insert_new env_slugs key id "backup contains duplicate Fleet environment slug indexes";
      Ok (mkFleetIndex orgs org_slugs projects project_slugs envs env_slugs conns bindings subjects idem audits)
  | FFleetConnection =>
      v ← decode r;
      _ ← require (bool_decide (sr_key r = #"fleet:connection:" ++ uuid_show (fc_id v)))
            "backup Fleet connection key does not match its id";
      conns ← insert_new conns (fc_id v) v "backup contains duplicate Fleet connections";
      Ok (mkFleetIndex orgs org_slugs projects project_slugs envs env_slugs conns bindings subjects idem audits)
  | FFleetRoleBinding =>
      v ← decode r;
      _ ← require (bool_decide (sr_key r = #"fleet:role-binding:" ++ uuid_show (fb_id v)))
            "backup Fleet role binding key does not match its id";
      bindings ← insert_new bindings (fb_id v) v "backup contains duplicate Fleet role bindings";
      Ok (mkFleetIndex orgs org_slugs projects project_slugs envs env_slugs conns bindings subjects idem audits)
  | FFleetRoleBindingSubject =>
      key ← parse_binding_subject (trim_start_matches_str #"fleet:role-binding-subject:" (sr_key r));
      id ← parse_id (sr_value r);
      subjects ← insert_new subjects key id "backup contains duplicate Fleet role binding subject indexes";
      Ok (mkFleetIndex orgs org_slugs projects project_slugs envs env_slugs conns bindings subjects idem audits)
  | FFleetIdempotency =>
      id ← parse_id (trim_start_matches_str #"fleet:idempotency:" (sr_key r));
      v ← decode r;
      idem ← insert_new idem id v "backup contains duplicate Fleet idempotency records";
      Ok (mkFleetIndex orgs org_slugs projects project_slugs envs env_slugs conns bindings subjects idem audits)
  | FFleetAudit =>
      v ← decode r;
      _ ← require (bool_decide (sr_key r = #"fleet:audit:" ++ uuid_show (fa_id v)))
            "backup Fleet audit key does not match its id";
      audits ← insert_new audits (fa_id v) v "backup contains duplicate Fleet audit records";
      Ok (mkFleetIndex orgs org_slugs projects project_slugs envs env_slugs conns bindings subjects idem audits)
  | _ => Ok ix
  end.

Definition index_record (tenant_id : str) (ix : SnapshotIndex) (r : StoreRecord) : result error SnapshotIndex :=
  f ← record_family (sr_key r);
  _ ← require (record_family_allows_expiry f || negb (is_some (sr_expires_at r)))
        "durable backup record unexpectedly has an expiry";
  realm ← index_realm f (ix_realm ix) r;
  log ← index_log tenant_id f (ix_log ix) r;
  fleet ← index_fleet f (ix_fleet ix) r;
  Ok (mkIndex (count_family f (ix_families ix)) realm log fleet).

Fixpoint index_records (tenant_id : str) (ix : SnapshotIndex) (records : list StoreRecord) : result error SnapshotIndex :=
  match records with
  | [] => Ok ix
  | r :: records => ix ← index_record tenant_id ix r; index_records tenant_id ix records
  end.

(** ** Cross-record checks *)

Definition values {K A : Type} `{Countable K} (m : gmap K A) : list A := (map_to_list m).*2.

Definition points_to {K : Type} `{Countable K} (m : gmap K Uuid) (k : K) (id : Uuid) : bool := bool_decide (m !! k = Some id).
Definition contains_key {K A : Type} `{Countable K} (m : gmap K A) (k : K) : bool := is_some (m !! k).

Definition check_identifier (ix : RealmIndex) (u : User) (i : AccountIdentifier) : result error unit :=
  require (points_to (ix_identifier_indexes ix) (kind_as_str (ai_kind i) ++ #":" ++ ai_value i) (u_id u)
           || (kind_eqb (ai_kind i) Email && points_to (ix_email_indexes ix) (ai_value i) (u_id u)))
    "backup identifier index is missing or inconsistent".

Definition check_user (ix : RealmIndex) (u : User) : result error unit :=
  _ ← require (negb (negb (bool_decide (u_email u = [])) && negb (points_to (ix_email_indexes ix) (u_email u) (u_id u))))
        "backup email index is missing or inconsistent";
  _ ← for_each (check_identifier ix u) (u_identifiers u);
  for_each (λ c, require (points_to (ix_credential_indexes ix) (sp_id c) (u_id u))
                   "backup credential index is missing or inconsistent") (u_passkeys u).

Definition validate_user_indexes (ix : RealmIndex) : result error unit := for_each (check_user ix) (values (ix_users ix)).

Definition has_identifier (u : User) (kind : IdentifierKind) (value : str) : bool :=
  existsb (λ i, kind_eqb (ai_kind i) kind && bool_decide (ai_value i = value)) (u_identifiers u).

Definition check_email_entry (ix : RealmIndex) (entry : str * Uuid) : result error unit :=
  u ← ok_or (EBail "backup email index points to an unknown user") (ix_users ix !! entry.2);
  require (has_identifier u Email entry.1) "backup email index does not belong to its referenced user".

Definition check_identifier_entry (ix : RealmIndex) (entry : str * Uuid) : result error unit :=
  '(kind, value) ← ok_or (EBail "backup identifier index has an invalid key") (split_once 58 entry.1);
  kind ← (if bool_decide (kind = #"email") then Ok Email else if bool_decide (kind = #"phone") then Ok Phone
          else Err (EBail "backup identifier index has an unsupported type"));
  u ← ok_or (EBail "backup identifier index points to an unknown user") (ix_users ix !! entry.2);
  require (has_identifier u kind value) "backup identifier index does not belong to its referenced user".

Definition check_credential_entry (ix : RealmIndex) (entry : str * Uuid) : result error unit :=
  u ← ok_or (EBail "backup credential index points to an unknown user") (ix_users ix !! entry.2);
  require (existsb (λ c, bool_decide (sp_id c = entry.1)) (u_passkeys u))
    "backup credential index does not belong to its referenced user".

Definition validate_index_ownership (ix : RealmIndex) : result error unit :=
  _ ← for_each (check_email_entry ix) (map_to_list (ix_email_indexes ix));
  _ ← for_each (check_identifier_entry ix) (map_to_list (ix_identifier_indexes ix));
  for_each (check_credential_entry ix) (map_to_list (ix_credential_indexes ix)).

Definition check_locator (ix : RealmIndex) (l : ServiceCredentialLocator) : result error unit :=
  a ← ok_or (EBail "backup service credential points to an unknown service account")
        (ix_service_accounts ix !! l_service_account_id l);
  require (existsb (λ c, bool_decide (sc_id c = l_credential_id l)) (sa_credentials a))
    "backup service credential is absent from its service account".

Definition check_grant (ix : RealmIndex) (g : RealmFleetGrantRecord) : result error unit :=
  _ ← require (negb (negb (is_some (rg_revoked_at g))
                     && negb (points_to (ix_realm_fleet_grant_secrets ix) (rg_credential_digest g) (rg_connection_id g))))
        "backup realm Fleet grant locator is missing or inconsistent";
  require (negb (is_some (rg_revoked_at g) && contains_key (ix_realm_fleet_grant_secrets ix) (rg_credential_digest g)))
    "backup revoked realm Fleet grant still has a live credential locator".

Definition check_grant_secret (ix : RealmIndex) (entry : str * Uuid) : result error unit :=
  g ← ok_or (EBail "backup realm Fleet grant locator points to an unknown grant") (ix_realm_fleet_grants ix !! entry.2);
  require (negb (negb (bool_decide (rg_credential_digest g = entry.1)) || is_some (rg_revoked_at g)))
    "backup realm Fleet grant locator does not belong to a live grant".

Definition validate_record_ownership (ix : RealmIndex) : result error unit :=
  _ ← require (negb (existsb (λ s, negb (contains_key (ix_users ix) (s_user_id s))) (ix_sessions ix)))
        "backup contains a session for an unknown user";
  _ ← require (negb (1 <? ix_organizations ix)) "backup contains more than one organization";
  _ ← require (negb (existsb (λ op, negb (contains_key (ix_users ix) (op_user_id op))) (ix_operators ix)))
        "backup contains an operator for an unknown user";
  _ ← for_each (check_locator ix) (ix_service_credentials ix);
  _ ← for_each (check_grant ix) (values (ix_realm_fleet_grants ix));
  for_each (check_grant_secret ix) (map_to_list (ix_realm_fleet_grant_secrets ix)).

Definition check_organization (ix : FleetIndex) (o : FleetOrganizationRecord) : result error unit :=
  require (points_to (ix_fleet_organization_slugs ix) (fo_slug o) (fo_id o))
    "backup Fleet organization slug index is missing or inconsistent".

Definition check_organization_slug (ix : FleetIndex) (entry : str * Uuid) : result error unit :=
  o ← ok_or (EBail "backup Fleet organization slug points to an unknown organization") (ix_fleet_organizations ix !! entry.2);
  require (bool_decide (fo_slug o = entry.1)) "backup Fleet organization slug does not belong to its record".

Definition check_project (ix : FleetIndex) (p : FleetProjectRecord) : result error unit :=
  _ ← require (contains_key (ix_fleet_organizations ix) (fp_organization_id p))
        "backup Fleet project points to an unknown organization";
  require (points_to (ix_fleet_project_slugs ix) (fp_organization_id p, fp_slug p) (fp_id p))
    "backup Fleet project slug index is missing or inconsistent".

Definition check_project_slug (ix : FleetIndex) (entry : Uuid * str * Uuid) : result error unit :=
  p ← ok_or (EBail "backup Fleet project slug points to an unknown project") (ix_fleet_projects ix !! entry.2);
  require (bool_decide (fp_organization_id p = entry.1.1) && bool_decide (fp_slug p = entry.1.2))
    "backup Fleet project slug does not belong to its record".

Definition check_environment (ix : FleetIndex) (e : FleetEnvironmentRecord) : result error unit :=
  _ ← require (contains_key (ix_fleet_organizations ix) (fe_organization_id e))
        "backup Fleet environment points to an unknown organization";
  p ← ok_or (EBail "backup Fleet environment points to an unknown project") (ix_fleet_projects ix !! fe_project_id e);
  _ ← require (bool_decide (fp_organization_id p = fe_organization_id e))
        "backup Fleet environment crosses organization boundaries";
  require (points_to (ix_fleet_environment_slugs ix) (fe_project_id e, fe_slug e) (fe_id e))
    "backup Fleet environment slug index is missing or inconsistent".

Definition check_environment_slug (ix : FleetIndex) (entry : Uuid * str * Uuid) : result error unit :=
  e ← ok_or (EBail "backup Fleet environment slug points to an unknown environment") (ix_fleet_environments ix !! entry.2);
  require (bool_decide (fe_project_id e = entry.1.1) && bool_decide (fe_slug e = entry.1.2))
    "backup Fleet environment slug does not belong to its record".

Definition check_connection (ix : FleetIndex) (c : FleetConnectionRecord) : result error unit :=
  e ← ok_or (EBail "backup Fleet connection points to an unknown environment") (ix_fleet_environments ix !! fc_environment_id c);
  _ ← require (bool_decide (fe_organization_id e = fc_organization_id c) && bool_decide (fe_project_id e = fc_project_id c))
        "backup Fleet connection crosses workspace boundaries";
  require (negb (bool_decide (ef_wrapping_key_id (fc_credential c) = []) || bool_decide (ef_nonce (fc_credential c) = [])
                 || bool_decide (ef_ciphertext (fc_credential c) = [])))
    "backup Fleet connection contains an invalid encrypted credential".

Definition check_binding (ix : FleetIndex) (b : FleetRoleBindingRecord) : result error unit :=
  let resource_exists := match fb_resource_kind b with
    | KOrganization => contains_key (ix_fleet_organizations ix) (fb_resource_id b)
    | KProject => contains_key (ix_fleet_projects ix) (fb_resource_id b)
    | KEnvironment => contains_key (ix_fleet_environments ix) (fb_resource_id b)
    end in
  _ ← require resource_exists "backup Fleet role binding points to an unknown resource";
  require (points_to (ix_fleet_role_binding_subjects ix) (fb_operator_id b, fb_resource_kind b, fb_resource_id b) (fb_id b))
    "backup Fleet role binding subject index is missing or inconsistent".

Definition check_binding_subject (ix : FleetIndex) (entry : Uuid * FleetResourceKindRecord * Uuid * Uuid) : result error unit :=
  b ← ok_or (EBail "backup Fleet role binding subject points to an unknown binding") (ix_fleet_role_bindings ix !! entry.2);
  require (bool_decide (fb_operator_id b = entry.1.1.1) && bool_decide (fb_resource_kind b = entry.1.1.2)
           && bool_decide (fb_resource_id b = entry.1.2))
    "backup Fleet role binding subject does not belong to its record".

Definition audit_supported (kind action : str) : bool :=
  if one_of [lit "organization"; lit "project"; lit "environment"] kind
  then one_of [lit "create"; lit "update"; lit "archive"] action
  else if bool_decide (kind = #"connection") then one_of [lit "begin"; lit "complete"; lit "revoke"] action
  else if bool_decide (kind = #"role-binding") then one_of [lit "upsert"; lit "revoke"] action
  else false.

(** [audit.organization_id != .. || audit.project_id != .. || audit.environment_id != ..] *)
Definition scoped (a : FleetAuditRecord) (organization_id project_id environment_id : option Uuid) : bool :=
  bool_decide (fa_organization_id a = organization_id) && bool_decide (fa_project_id a = project_id)
  && bool_decide (fa_environment_id a = environment_id).

Definition check_audit_resource (ix : FleetIndex) (a : FleetAuditRecord) (action : str) : result error unit :=
  let kind := fa_resource_kind a in
  if bool_decide (kind = #"organization") then
    o ← ok_or (EBail "backup Fleet audit points to an unknown organization") (ix_fleet_organizations ix !! fa_resource_id a);
    require (scoped a (Some (fo_id o)) None None) "backup Fleet organization audit has inconsistent ownership"
  else if bool_decide (kind = #"project") then
    p ← ok_or (EBail "backup Fleet audit points to an unknown project") (ix_fleet_projects ix !! fa_resource_id a);
    require (scoped a (Some (fp_organization_id p)) (Some (fp_id p)) None) "backup Fleet project audit has inconsistent ownership"
  else if bool_decide (kind = #"environment") then
    e ← ok_or (EBail "backup Fleet audit points to an unknown environment") (ix_fleet_environments ix !! fa_resource_id a);
    require (scoped a (Some (fe_organization_id e)) (Some (fe_project_id e)) (Some (fe_id e)))
      "backup Fleet environment audit has inconsistent ownership"
  else if bool_decide (kind = #"connection") && bool_decide (action = #"begin") then
    require (is_some (fa_organization_id a) && is_some (fa_project_id a) && is_some (fa_environment_id a))
      "backup Fleet connection attempt audit has inconsistent ownership"
  else if bool_decide (kind = #"connection") then
    c ← ok_or (EBail "backup Fleet audit points to an unknown connection") (ix_fleet_connections ix !! fa_resource_id a);
    require (scoped a (Some (fc_organization_id c)) (Some (fc_project_id c)) (Some (fc_environment_id c)))
      "backup Fleet connection audit has inconsistent ownership"
  else if bool_decide (kind = #"role-binding") then
    b ← ok_or (EBail "backup Fleet audit points to an unknown role binding") (ix_fleet_role_bindings ix !! fa_resource_id a);
    '(organization_id, project_id, environment_id) ←
      match fb_resource_kind b with
      | KOrganization => Ok (Some (fb_resource_id b), None, None)
      | KProject =>
          p ← ok_or (EBail "backup Fleet role binding project is missing") (ix_fleet_projects ix !! fb_resource_id b);
          Ok (Some (fp_organization_id p), Some (fp_id p), None)
      | KEnvironment =>
          e ← ok_or (EBail "backup Fleet role binding environment is missing") (ix_fleet_environments ix !! fb_resource_id b);
          Ok (Some (fe_organization_id e), Some (fe_project_id e), Some (fe_id e))
      end;
    require (scoped a organization_id project_id environment_id) "backup Fleet role binding audit has inconsistent ownership"
  else Err (EBail "backup Fleet audit has an unsupported resource kind").

Definition check_audit (ix : FleetIndex) (a : FleetAuditRecord) : result error unit :=
  '(action_kind, action) ← ok_or (EBail "backup Fleet audit action is malformed") (split_once 46 (fa_action a));
  _ ← require (bool_decide (action_kind = fa_resource_kind a) && audit_supported action_kind action)
        "backup Fleet audit action does not match its resource kind";
  _ ← check_audit_resource ix a action;
  i ← ok_or (EBail "backup Fleet audit has no idempotency record") (ix_fleet_idempotency ix !! fa_request_id a);
  require (bool_decide (is_action i = fa_action a) && bool_decide (is_resource_id i = fa_resource_id a))
    "backup Fleet audit and idempotency record disagree".

Definition check_idempotency (ix : FleetIndex) (entry : Uuid * FleetIdempotencySnapshot) : result error unit :=
  require (existsb (λ a, bool_decide (fa_request_id a = entry.1) && bool_decide (fa_action a = is_action entry.2)
                         && bool_decide (fa_resource_id a = is_resource_id entry.2)) (values (ix_fleet_audits ix)))
    "backup Fleet idempotency record has no matching audit".

Definition validate_fleet_workspace (ix : FleetIndex) : result error unit :=
  _ ← for_each (check_organization ix) (values (ix_fleet_organizations ix));
  _ ← for_each (check_organization_slug ix) (map_to_list (ix_fleet_organization_slugs ix));
  _ ← for_each (check_project ix) (values (ix_fleet_projects ix));
  _ ← for_each (check_project_slug ix) (map_to_list (ix_fleet_project_slugs ix));
  _ ← for_each (check_environment ix) (values (ix_fleet_environments ix));
  _ ← for_each (check_environment_slug ix) (map_to_list (ix_fleet_environment_slugs ix));
  _ ← for_each (check_connection ix) (values (ix_fleet_connections ix));
  _ ← for_each (check_binding ix) (values (ix_fleet_role_bindings ix));
  _ ← for_each (check_binding_subject ix) (map_to_list (ix_fleet_role_binding_subjects ix));
  _ ← for_each (check_audit ix) (values (ix_fleet_audits ix));
  for_each (check_idempotency ix) (map_to_list (ix_fleet_idempotency ix)).

(** ** Validation of a snapshot *)

Definition canonical_records_sha256 (records : list StoreRecord) : str := hex_encode (sha256 (bytes (to_json records))).

Definition validate_format (s : BackupSnapshot) (expected_tenant : str) : result error unit :=
  _ ← require (bs_format_version s =? SNAPSHOT_VERSION) "unsupported backup snapshot version";
  _ ← require (bool_decide (bs_tenant_id s = expected_tenant)) "backup tenant does not match configured tenant";
  _ ← require (mf_record_count (bs_manifest s) =? N.of_nat (length (bs_records s)))
        "backup manifest record count does not match its contents";
  _ ← require (negb (unsorted (bs_records s))) "backup records must be uniquely sorted by key";
  require (bool_decide (canonical_records_sha256 (bs_records s) = mf_content_sha256 (bs_manifest s)))
    "backup manifest digest does not match its contents".

Definition validate_key_families (s : BackupSnapshot) (ix : SnapshotIndex) : result error unit :=
  _ ← require (bool_decide (ix_families ix = mf_key_families (bs_manifest s)))
        "backup key-family manifest does not match its contents";
  require (ix_keyset_count (ix_log ix) =? 1) "backup must contain exactly one signing keyset".

Definition zip_bounds (a b : option N) : option (N * N) :=
  match a, b with Some a, Some b => Some (a, b) | _, _ => None end.

Definition validate_event_sequence (s : BackupSnapshot) (ix : LogIndex) : result error unit :=
  let sequence := mf_event_sequence (bs_manifest s) in
  _ ← require (negb (negb (default 0 (ix_event_sequence_record ix) =? sequence)
                     || ((0 <? sequence) && negb (is_some (ix_event_sequence_record ix)))))
        "backup event sequence record does not match its manifest";
  let minimum := default 1 (ix_event_min_sequence_record ix) in
  _ ← require (negb ((minimum =? 0) || (saturating_add sequence 1 <? minimum)))
        "backup minimum event sequence is outside the retained window";
  let expected_count := if minimum <=? sequence then saturating_add (saturating_sub sequence minimum) 1 else 0 in
  let expected_bounds := if 0 <? expected_count then Some (minimum, sequence) else None in
  require (negb (negb (ix_event_count ix =? expected_count)
                 || negb (bool_decide (zip_bounds (ix_event_lowest ix) (ix_event_highest ix) = expected_bounds))))
    "backup retained event sequence is not contiguous".

Definition validate_snapshot (s : BackupSnapshot) (expected_tenant : str) : result error unit :=
  _ ← validate_format s expected_tenant;
  ix ← index_records (bs_tenant_id s) empty_index (bs_records s);
  _ ← validate_key_families s ix;
  _ ← validate_event_sequence s (ix_log ix);
  _ ← validate_user_indexes (ix_realm ix);
  _ ← validate_index_ownership (ix_realm ix);
  _ ← validate_record_ownership (ix_realm ix);
  validate_fleet_workspace (ix_fleet ix).

(** ** Capture *)

Definition event_sequence_of (records : list StoreRecord) : result error N :=
  match List.find (λ r, bool_decide (sr_key r = #"auth:event-sequence")) records with
  | Some r => parse_number (sr_value r)
  | None => Ok 0
  end.

Fixpoint count_families (families : gmap str N) (records : list StoreRecord) : result error (gmap str N) :=
  match records with
  | [] => Ok families
  | r :: records => f ← record_family (sr_key r); count_families (count_family f families) records
  end.

Definition from_records (tenant_id : str) (captured_at : N) (records : list StoreRecord) : M error BackupSnapshot :=
  let content_sha256 := canonical_records_sha256 records in
  event_sequence ← lift (event_sequence_of records);
  key_families ← lift (count_families ∅ records);
  snapshot_id ← new_v4;
  let snapshot := mkSnapshot SNAPSHOT_VERSION snapshot_id tenant_id captured_at records
    (mkManifest (N.of_nat (length records)) content_sha256 key_families event_sequence) in
  _ ← lift (validate_snapshot snapshot tenant_id);
  mret snapshot.

Definition capture (tenant_id : str) : M error BackupSnapshot :=
  '(captured_at, records) ← export_records;
  from_records tenant_id captured_at records.

Definition signing_keyset (s : BackupSnapshot) : result error str :=
  r ← ok_or (EBail "snapshot does not contain a signing keyset")
        (List.find (λ r, bool_decide (sr_key r = KEYSET_KEY)) (bs_records s));
  Ok (sr_value r).
End Index.

(** ** Reading a result *)

Lemma bind_Ok {A B : Type} (x : result error A) (f : A → result error B) b :
  x ≫= f = Ok b → ∃ a, x = Ok a ∧ f a = Ok b.
Proof. destruct x as [a|e]; [|done]. by exists a. Qed.

Lemma require_Ok b msg x : require b msg = Ok x → b = true.
Proof. unfold require. by destruct b. Qed.

Lemma ok_or_Ok {A : Type} (e : error) (x : option A) a : ok_or e x = Ok a → x = Some a.
Proof. destruct x; simpl; congruence. Qed.

Lemma insert_new_Ok {K A : Type} `{Countable K} (m : gmap K A) k a msg m' :
  insert_new m k a msg = Ok m' → m !! k = None ∧ m' = <[k := a]> m.
Proof. unfold insert_new. destruct (m !! k); [done|]. by intros [= <-]. Qed.

Lemma for_each_Ok {A : Type} (f : A → result error unit) l : for_each f l = Ok tt ↔ ∀ x, x ∈ l → f x = Ok tt.
Proof.
  induction l as [|x l IH]; cbn [for_each]; [set_solver|]. setoid_rewrite elem_of_cons. split.
  - intros ([] & Hx & Hl)%bind_Ok y [->|Hy]; [done|]. by apply IH.
  - intros Hall. rewrite (Hall x) by auto. cbn. apply IH. auto.
Qed.

Lemma values_elem {K A : Type} `{Countable K} (m : gmap K A) a : a ∈ values m ↔ ∃ k, m !! k = Some a.
Proof.
  unfold values. rewrite list_elem_of_fmap. split.
  - intros ([k a'] & -> & Hk%elem_of_map_to_list). by exists k.
  - intros [k Hk]. exists (k, a). by rewrite elem_of_map_to_list.
Qed.

(** Take apart a successful sequence of checks. *)
Ltac ok_inv :=
  repeat match goal with
  | H : Ok _ = Ok _ |- _ => injection H as H; try subst
  | H : Err _ = Ok _ |- _ => discriminate H
  | H : _ ≫= _ = Ok _ |- _ =>
      let x := fresh "x" in let Hx := fresh "Hx" in apply bind_Ok in H as (x & Hx & H)
  | H : require _ _ = Ok _ |- _ => apply require_Ok in H
  | H : insert_new _ _ _ _ = Ok _ |- _ =>
      let Hn := fresh "Hn" in apply insert_new_Ok in H as [Hn H]; try subst
  | H : ok_or _ _ = Ok _ |- _ => apply ok_or_Ok in H
  | H : decode _ = Ok _ |- _ => unfold decode in H; apply ok_or_Ok in H
  | H : parse_id _ = Ok _ |- _ => unfold parse_id in H; apply ok_or_Ok in H
  | H : parse_number _ = Ok _ |- _ => unfold parse_number in H; apply ok_or_Ok in H
  end.

(** ** What the index holds *)

(** Every entry of the map comes from a record; and, where duplicates are refused, every
    record that stands for an entry has it there. *)
Definition sourced {K A : Type} `{Countable K} (R : StoreRecord → K → A → Prop) (l : list StoreRecord) (m : gmap K A) : Prop :=
  ∀ k a, m !! k = Some a → ∃ r, r ∈ l ∧ R r k a.
Definition covered {K A : Type} `{Countable K} (R : StoreRecord → K → A → Prop) (l : list StoreRecord) (m : gmap K A) : Prop :=
  ∀ r k a, r ∈ l → R r k a → m !! k = Some a.

Lemma sourced_same {K A : Type} `{Countable K} R l r (m : gmap K A) : sourced R l m → sourced R (l ++ [r]) m.
Proof. intros Hs k a Hk. destruct (Hs k a Hk) as (r' & ? & ?). exists r'. set_solver. Qed.

Lemma sourced_insert {K A : Type} `{Countable K} (R : StoreRecord → K → A → Prop) l r (m : gmap K A) k a :
  sourced R l m → R r k a → sourced R (l ++ [r]) (<[k := a]> m).
Proof.
  intros Hs Hr k' a'. destruct (decide (k = k')) as [<-|Hne].
  - rewrite lookup_insert_eq. intros [= <-]. exists r. set_solver.
  - rewrite lookup_insert_ne by done. intros Hk. destruct (Hs k' a' Hk) as (r' & ? & ?). exists r'. set_solver.
Qed.

Lemma covered_same {K A : Type} `{Countable K} (R : StoreRecord → K → A → Prop) l r (m : gmap K A) :
  covered R l m → (∀ k a, ¬ R r k a) → covered R (l ++ [r]) m.
Proof. intros Hc Hr r' k a [Hl|Hl%list_elem_of_singleton]%elem_of_app Ha; [by eapply Hc|subst; by destruct (Hr k a)]. Qed.

Lemma covered_insert {K A : Type} `{Countable K} (R : StoreRecord → K → A → Prop) l r (m : gmap K A) k a :
  covered R l m → m !! k = None → (∀ k' a', R r k' a' → k' = k ∧ a' = a) → covered R (l ++ [r]) (<[k := a]> m).
Proof.
  intros Hc Hn Hfun r' k' a' [Hl|Hl%list_elem_of_singleton]%elem_of_app Ha.
  - pose proof (Hc r' k' a' Hl Ha) as Hk. rewrite lookup_insert_ne; [done|]. intros ->. congruence.
  - subst r'. destruct (Hfun _ _ Ha) as [-> ->]. apply lookup_insert_eq.
Qed.

Section IndexFacts.
Context `{Env, !ExtSigning}.
Context `{!Serde AuthEvent, !Serde User, !Serde Session, !Serde OrganizationRecord, !Serde OperatorRecord}.
Context `{!Serde ServiceAccountRecord, !Serde ServiceCredentialLocator, !Serde RealmFleetGrantRecord}.
Context `{!Serde FleetOrganizationRecord, !Serde FleetProjectRecord, !Serde FleetEnvironmentRecord}.
Context `{!Serde FleetConnectionRecord, !Serde FleetRoleBindingRecord, !Serde FleetAuditRecord}.
Context `{!Serde FleetIdempotencySnapshot, !Serde (list StoreRecord)}.
Context (parse_value : str → option Value) (json_get_u64 : Value → str → option N).

Abbreviation index_record := (index_record parse_value json_get_u64).
Abbreviation index_records := (index_records parse_value json_get_u64).

(** The record holds [a], under the key of its identifier. *)
Definition holds_record {A : Type} `{!Serde A} (f : Family) (prefix : str) (rid : A → Uuid) (r : StoreRecord) (id : Uuid) (a : A) : Prop :=
  record_family (sr_key r) = Ok f ∧ from_json (sr_value r) = Some a ∧ rid a = id ∧ sr_key r = prefix ++ uuid_show id.

Lemma holds_record_fun {A : Type} `{!Serde A} f prefix (rid : A → Uuid) r id a id' a' :
  holds_record f prefix rid r id a → holds_record f prefix rid r id' a' → id' = id ∧ a' = a.
Proof. intros (_ & Ha & <- & _) (_ & Ha' & <- & _). rewrite Ha in Ha'. by injection Ha' as <-. Qed.

Lemma holds_record_other {A : Type} `{!Serde A} f g prefix (rid : A → Uuid) r id a :
  record_family (sr_key r) = Ok g → f ≠ g → ¬ holds_record f prefix rid r id a.
Proof. intros Hg Hne (Hf & _). congruence. Qed.

Definition user_record (r : StoreRecord) (id : Uuid) (u : User) : Prop :=
  record_family (sr_key r) = Ok FUser ∧ sr_key r = user_key id ∧ u_id u = id ∧
  ∃ u0, from_json (sr_value r) = Some u0 ∧ normalize_and_validate u0 = Ok u.

Lemma user_record_fun r id u id' u' : user_record r id u → user_record r id' u' → id' = id ∧ u' = u.
Proof.
  intros (_ & _ & <- & u0 & Hj & Hn) (_ & _ & <- & u0' & Hj' & Hn'). rewrite Hj in Hj'. injection Hj' as <-.
  rewrite Hn in Hn'. by injection Hn' as <-.
Qed.

(** The locator of a grant's secret. *)
Definition secret_record (r : StoreRecord) (digest : str) (id : Uuid) : Prop :=
  record_family (sr_key r) = Ok FRealmFleetGrantSecret ∧ trim_start_matches_str #"auth:fleet-grant-secret:" (sr_key r) = digest ∧
  uuid_parse (sr_value r) = Some id.

Lemma secret_record_fun r k a k' a' : secret_record r k a → secret_record r k' a' → k' = k ∧ a' = a.
Proof. intros (_ & <- & Ha) (_ & <- & Ha'). split; congruence. Qed.

(** The map holds what the records of the family stand for. *)
Definition kept {K A : Type} `{Countable K} (f : Family) (R : StoreRecord → K → A → Prop) (l : list StoreRecord) (m : gmap K A) : Prop :=
  sourced R l m ∧ covered R l m ∧ ∀ r, r ∈ l → record_family (sr_key r) = Ok f → ∃ k a, R r k a.

Abbreviation grant_record := (holds_record FRealmFleetGrant GRANT_PREFIX rg_connection_id).

Record realm_indexed (l : list StoreRecord) (ix : RealmIndex) : Prop := {
  ri_users : kept FUser user_record l (ix_users ix);
  ri_grants : kept FRealmFleetGrant grant_record l (ix_realm_fleet_grants ix);
  ri_secrets : kept FRealmFleetGrantSecret secret_record l (ix_realm_fleet_grant_secrets ix);
  ri_sessions r : r ∈ l → record_family (sr_key r) = Ok FSession →
    ∃ s, from_json (sr_value r) = Some s ∧ s ∈ ix_sessions ix ∧ is_Some (sr_expires_at r);
  ri_operators r : r ∈ l → record_family (sr_key r) = Ok FOperator →
    ∃ op, from_json (sr_value r) = Some op ∧ op ∈ ix_operators ix ∧ sr_key r = operator_key (op_user_id op)
}.

Lemma realm_indexed_nil : realm_indexed [] (ix_realm empty_index).
Proof. split; [split_and!; intros ???; set_solver..|set_solver|set_solver]. Qed.

(** A clause of the index that the record does not touch. *)
Lemma clause_same {K A : Type} `{Countable K} (R : StoreRecord → K → A → Prop) l r (m : gmap K A) g :
  (∀ k a, R r k a → record_family (sr_key r) = Ok g) → record_family (sr_key r) ≠ Ok g → kept g R l m → kept g R (l ++ [r]) m.
Proof.
  intros HR Hne (Hs & Hc & Hall). split_and!; [by apply sourced_same| |].
  - apply covered_same; [done|]. intros k a Ha. by apply Hne, (HR k a).
  - intros r' [Hr|Hr%list_elem_of_singleton]%elem_of_app Hg; [by apply Hall|by subst].
Qed.

(** A clause that gains the entry of the record. *)
Lemma clause_insert {K A : Type} `{Countable K} (R : StoreRecord → K → A → Prop) l r (m : gmap K A) g k a :
  R r k a → (∀ k' a', R r k' a' → k' = k ∧ a' = a) → m !! k = None → kept g R l m → kept g R (l ++ [r]) (<[k := a]> m).
Proof.
  intros Hr Hfun Hn (Hs & Hc & Hall). split_and!; [by apply sourced_insert|by apply covered_insert|].
  intros r' [Hr'|Hr'%list_elem_of_singleton]%elem_of_app Hg; [by apply Hall|subst; by exists k, a].
Qed.

Lemma list_clause_same {A : Type} (P : StoreRecord → A → Prop) (g : Family) l r :
  record_family (sr_key r) ≠ Ok g →
  (∀ r', r' ∈ l → record_family (sr_key r') = Ok g → ∃ a, P r' a) →
  ∀ r', r' ∈ l ++ [r] → record_family (sr_key r') = Ok g → ∃ a, P r' a.
Proof. intros Hne Hl r' [Hr|Hr%list_elem_of_singleton]%elem_of_app Hg; [by apply Hl|subst; done]. Qed.

Lemma user_record_family r k u : user_record r k u → record_family (sr_key r) = Ok FUser.
Proof. by intros (? & _). Qed.
Lemma secret_record_family r k u : secret_record r k u → record_family (sr_key r) = Ok FRealmFleetGrantSecret.
Proof. by intros (? & _). Qed.
Lemma holds_record_family {A : Type} `{!Serde A} f prefix (rid : A → Uuid) r id a :
  holds_record f prefix rid r id a → record_family (sr_key r) = Ok f.
Proof. by intros (? & _). Qed.

Ltac other_clause :=
  match goal with
  | |- kept _ _ _ _ =>
      eapply clause_same; [first [exact (user_record_family _)|exact (secret_record_family _)|exact (holds_record_family _ _ _ _)]
                          |congruence|assumption]
  | |- ∀ r, _ → _ => eapply list_clause_same; [congruence|assumption]
  end.

Lemma realm_indexed_same l r ix ix' f :
  record_family (sr_key r) = Ok f →
  match f with FUser | FRealmFleetGrant | FRealmFleetGrantSecret | FSession | FOperator => False | _ => True end →
  (ix_users ix', ix_realm_fleet_grants ix', ix_realm_fleet_grant_secrets ix', ix_sessions ix', ix_operators ix') =
  (ix_users ix, ix_realm_fleet_grants ix, ix_realm_fleet_grant_secrets ix, ix_sessions ix, ix_operators ix) →
  realm_indexed l ix → realm_indexed (l ++ [r]) ix'.
Proof.
  intros Hf Hcase Heq [H1 H2 H3 H4 H5]. injection Heq as E1 E2 E3 E4 E5.
  split; rewrite ?E1, ?E2, ?E3, ?E4, ?E5; destruct f; try done; other_clause.
Qed.

Lemma realm_indexed_step f l r ix ix' :
  record_family (sr_key r) = Ok f → index_realm parse_value json_get_u64 f ix r = Ok ix' →
  realm_indexed l ix → realm_indexed (l ++ [r]) ix'.
Proof.
  intros Hf Hstep Hix. destruct ix as [users emails ids creds sessions operators orgs accounts locators grants secrets].
  destruct f; cbn [index_realm index_user] in Hstep; ok_inv; try (refine (realm_indexed_same l r _ _ _ Hf I _ Hix); reflexivity).
  all: pose proof Hix as [H1 H2 H3 H4 H5]; reflect.
  - split; try other_clause. apply clause_insert; [|intros k' a'; eapply user_record_fun|done|done].
    all: split_and!; try done; by eexists.
  - split; try other_clause.
    intros r' [Hr|Hr%list_elem_of_singleton]%elem_of_app Hg; [|subst r'].
    + destruct (H4 r' Hr Hg) as (s & ? & ? & ?). exists s. set_solver.
    + eexists. split; [done|]. split; [set_solver|]. by destruct (sr_expires_at r).
  - split; try other_clause.
    intros r' [Hr|Hr%list_elem_of_singleton]%elem_of_app Hg; [|subst r'].
    + destruct (H5 r' Hr Hg) as (s & ? & ? & ?). exists s. set_solver.
    + eexists. split; [done|]. split; [set_solver|]. done.
  - split; try other_clause. apply clause_insert; [by split_and!|intros k' a'; eapply holds_record_fun|done|done].
    by split_and!.
  - split; try other_clause. apply clause_insert; [by split_and!|intros k' a'; eapply secret_record_fun|done|done].
    by split_and!.
Qed.

(** *** The fleet *)

Abbreviation organization_record := (holds_record FFleetOrganization ORGANIZATION_PREFIX fo_id).
Abbreviation project_record := (holds_record FFleetProject PROJECT_PREFIX fp_id).
Abbreviation environment_record := (holds_record FFleetEnvironment ENVIRONMENT_PREFIX fe_id).
Abbreviation connection_record := (holds_record FFleetConnection CONNECTION_PREFIX fc_id).
Abbreviation binding_record := (holds_record FFleetRoleBinding ROLE_BINDING_PREFIX fb_id).
Abbreviation audit_record := (holds_record FFleetAudit AUDIT_PREFIX fa_id).

Record fleet_indexed (l : list StoreRecord) (ix : FleetIndex) : Prop := {
  fi_organizations : kept FFleetOrganization organization_record l (ix_fleet_organizations ix);
  fi_projects : kept FFleetProject project_record l (ix_fleet_projects ix);
  fi_environments : kept FFleetEnvironment environment_record l (ix_fleet_environments ix);
  fi_connections : kept FFleetConnection connection_record l (ix_fleet_connections ix);
  fi_bindings : kept FFleetRoleBinding binding_record l (ix_fleet_role_bindings ix);
  fi_audits : kept FFleetAudit audit_record l (ix_fleet_audits ix)
}.

Lemma fleet_indexed_nil : fleet_indexed [] (ix_fleet empty_index).
Proof. split; (split_and!; intros ???; set_solver). Qed.

Lemma kept_same {A : Type} `{!Serde A} f g prefix (rid : A → Uuid) l r m :
  record_family (sr_key r) = Ok g → g ≠ f → kept f (holds_record f prefix rid) l m → kept f (holds_record f prefix rid) (l ++ [r]) m.
Proof. intros Hg Hne. eapply clause_same; [exact (holds_record_family _ _ _ _)|congruence]. Qed.

Lemma kept_insert {A : Type} `{!Serde A} f prefix (rid : A → Uuid) l r m a :
  record_family (sr_key r) = Ok f → from_json (sr_value r) = Some a → sr_key r = prefix ++ uuid_show (rid a) →
  m !! rid a = None → kept f (holds_record f prefix rid) l m → kept f (holds_record f prefix rid) (l ++ [r]) (<[rid a := a]> m).
Proof.
  intros Hf Ha Hk Hn. assert (Hr : holds_record f prefix rid r (rid a) a) by by split_and!.
  apply clause_insert; [done| |done]. intros k' a'. by eapply holds_record_fun.
Qed.

Lemma fleet_indexed_same l r ix ix' f :
  record_family (sr_key r) = Ok f →
  match f with FFleetOrganization | FFleetProject | FFleetEnvironment | FFleetConnection | FFleetRoleBinding | FFleetAudit => False
             | _ => True end →
  (ix_fleet_organizations ix', ix_fleet_projects ix', ix_fleet_environments ix', ix_fleet_connections ix',
   ix_fleet_role_bindings ix', ix_fleet_audits ix') =
  (ix_fleet_organizations ix, ix_fleet_projects ix, ix_fleet_environments ix, ix_fleet_connections ix,
   ix_fleet_role_bindings ix, ix_fleet_audits ix) →
  fleet_indexed l ix → fleet_indexed (l ++ [r]) ix'.
Proof.
  intros Hf Hcase Heq [H1 H2 H3 H4 H5 H6]. injection Heq as E1 E2 E3 E4 E5 E6.
  split; rewrite ?E1, ?E2, ?E3, ?E4, ?E5, ?E6; (eapply kept_same; [exact Hf|by intros ->|done]).
Qed.

Lemma fleet_indexed_step f l r ix ix' :
  record_family (sr_key r) = Ok f → index_fleet f ix r = Ok ix' → fleet_indexed l ix → fleet_indexed (l ++ [r]) ix'.
Proof.
  intros Hf Hstep Hix. destruct ix as [orgs org_slugs projects project_slugs envs env_slugs conns bindings subjects idem audits].
  destruct f; cbn [index_fleet] in Hstep; ok_inv; try (refine (fleet_indexed_same l r _ _ _ Hf I _ Hix); reflexivity).
  all: pose proof Hix as [H1 H2 H3 H4 H5 H6]; reflect.
  all: split; first [apply kept_insert; assumption | eapply kept_same; [exact Hf|done|assumption]].
Qed.

(** *** The log *)

Definition event_record (tenant_id : str) (r : StoreRecord) (n : N) (ev : AuthEvent) : Prop :=
  record_family (sr_key r) = Ok FEvent ∧ sr_key r = event_key n ∧ from_json (sr_value r) = Some ev ∧
  ev_sequence ev = n ∧ ev_tenant_id ev = tenant_id.

(** [x] is the number in the record under [key], if there is one. *)
Definition number_read (key : str) (l : list StoreRecord) (x : option N) : Prop :=
  (NoDup (sr_key <$> l) → ∀ r, r ∈ l → sr_key r = key → x = parse_u64 (sr_value r) ∧ is_Some x) ∧
  ((∀ r, r ∈ l → sr_key r ≠ key) → x = None).

Lemma number_read_same key l r x : sr_key r ≠ key → number_read key l x → number_read key (l ++ [r]) x.
Proof.
  intros Hne [H1 H2]. split.
  - rewrite fmap_app. intros (Hnd & _)%NoDup_app r' [Hr|Hr%list_elem_of_singleton]%elem_of_app Hk; [by apply H1|by subst].
  - intros Hall. apply H2. intros r' Hr'. apply Hall. set_solver.
Qed.

Lemma number_read_set key l r n : sr_key r = key → parse_u64 (sr_value r) = Some n → number_read key (l ++ [r]) (Some n).
Proof.
  intros Hk Hn. split.
  - rewrite fmap_app. intros (_ & Hdis & _)%NoDup_app r' [Hr|Hr%list_elem_of_singleton]%elem_of_app Hk'; [|subst r'; by rewrite Hn].
    destruct (Hdis (sr_key r')); [by apply list_elem_of_fmap_2|]. rewrite Hk', <- Hk. set_solver.
  - intros Hall. destruct (Hall r); [set_solver|done].
Qed.

Lemma family_fixed f k : record_family k = Ok f → f = FEventSequence ∨ f = FEventMinSequence →
  k = match f with FEventSequence => SEQUENCE_KEY | _ => MIN_SEQUENCE_KEY end.
Proof.
  unfold record_family. intros Hk Hf. case_bool_decide as E1; [by injection Hk as <-|].
  case_bool_decide as E2; [by injection Hk as <-|]. exfalso.
  do 2 (case_bool_decide; [injection Hk as <-; by destruct Hf|]).
  destruct (List.find _ family_prefixes) as [pf|] eqn:Hfind.
  - injection Hk as <-. apply find_some in Hfind as [Hin _].
    assert (Hall : forallb (λ pf : str * Family, negb (bool_decide (pf.2 = FEventSequence)) &&
      negb (bool_decide (pf.2 = FEventMinSequence))) family_prefixes = true) by reflexivity.
    rewrite forallb_forall in Hall. specialize (Hall _ Hin). reflect. by destruct Hf.
  - do 2 (case_bool_decide; [injection Hk as <-; by destruct Hf|]). done.
Qed.

(** [ns] are the sequence numbers of the event records seen. *)
Record log_indexed (tenant_id : str) (l : list StoreRecord) (ix : LogIndex) (ns : list N) : Prop := {
  li_event n : n ∈ ns → ∃ r ev, r ∈ l ∧ event_record tenant_id r n ev;
  li_all r : r ∈ l → record_family (sr_key r) = Ok FEvent → ∃ n ev, event_record tenant_id r n ev ∧ n ∈ ns;
  li_keys : NoDup (sr_key <$> l) → NoDup ns;
  li_count : ix_event_count ix = N.min (N.of_nat (length ns)) u64_max;
  li_bounds n : n ∈ ns → match ix_event_lowest ix, ix_event_highest ix with Some lo, Some hi => lo ≤ n ∧ n ≤ hi | _, _ => False end;
  li_sequence : number_read SEQUENCE_KEY l (ix_event_sequence_record ix);
  li_minimum : number_read MIN_SEQUENCE_KEY l (ix_event_min_sequence_record ix)
}.

Lemma log_indexed_nil tenant_id : log_indexed tenant_id [] (ix_log empty_index) [].
Proof. split; [set_solver|set_solver|intros _; constructor|done|set_solver|split; [set_solver|done]..]. Qed.

Lemma log_indexed_same tenant_id l r ix ix' ns :
  (ix_event_count ix', ix_event_lowest ix', ix_event_highest ix') = (ix_event_count ix, ix_event_lowest ix, ix_event_highest ix) →
  number_read SEQUENCE_KEY (l ++ [r]) (ix_event_sequence_record ix') →
  number_read MIN_SEQUENCE_KEY (l ++ [r]) (ix_event_min_sequence_record ix') → record_family (sr_key r) ≠ Ok FEvent →
  log_indexed tenant_id l ix ns → log_indexed tenant_id (l ++ [r]) ix' ns.
Proof.
  intros Heq Hs Hm Hne [H1 H0' H2 H3 H4 _ _]. injection Heq as E1 E2 E3.
  split; rewrite ?E1, ?E2, ?E3; [| |intros Hnd; apply H2|done|done|done|done].
  - intros n Hn. destruct (H1 n Hn) as (r' & ev & ? & ?). exists r', ev. set_solver.
  - intros r' [Hr|Hr%list_elem_of_singleton]%elem_of_app Hg; [by apply H0'|by subst].
  - rewrite fmap_app in Hnd. by apply NoDup_app in Hnd as [? _].
Qed.

Lemma log_indexed_event tenant_id l r ix ns n ev :
  event_record tenant_id r n ev → log_indexed tenant_id l ix ns →
  log_indexed tenant_id (l ++ [r])
    (mkLogIndex (saturating_add (ix_event_count ix) 1)
       (Some (match ix_event_lowest ix with Some current => N.min current n | None => n end))
       (Some (match ix_event_highest ix with Some current => N.max current n | None => n end))
       (ix_event_sequence_record ix) (ix_event_min_sequence_record ix) (ix_keyset_count ix)) (ns ++ [n]).
Proof.
  intros Hr [H1 H0' H2 H3 H4 H5 H6]. pose proof Hr as (_ & Hkey & _). split.
  - intros n' [Hn|Hn%list_elem_of_singleton]%elem_of_app; [|subst n'; exists r, ev; set_solver].
    destruct (H1 n' Hn) as (r' & ev' & ? & ?). exists r', ev'. set_solver.
  - intros r' [Hr'|Hr'%list_elem_of_singleton]%elem_of_app Hg; [|subst r'; exists n, ev; set_solver].
    destruct (H0' r' Hr' Hg) as (n' & ev' & ? & ?). exists n', ev'. set_solver.
  - rewrite fmap_app. intros (Hnd & Hdis & _)%NoDup_app. apply NoDup_app. split_and!; [by apply H2| |apply NoDup_singleton].
    intros n' Hn Heq%list_elem_of_singleton. subst n'. destruct (H1 n Hn) as (r' & ev' & Hin & _ & Hk & _).
    apply (Hdis (sr_key r')); [by apply list_elem_of_fmap_2|]. cbn. rewrite Hkey, Hk. set_solver.
  - cbn. rewrite H3, length_app. cbn. unfold saturating_add. lia.
  - intros n' Hn. cbn. apply elem_of_app in Hn as [Hn|Hn%list_elem_of_singleton].
    + specialize (H4 n' Hn). destruct (ix_event_lowest ix), (ix_event_highest ix); try done. lia.
    + subst n'. destruct (ix_event_lowest ix), (ix_event_highest ix); lia.
  - apply number_read_same; [rewrite Hkey; unfold event_key, SEQUENCE_KEY; key_neq|done].
  - apply number_read_same; [rewrite Hkey; unfold event_key, MIN_SEQUENCE_KEY; key_neq|done].
Qed.

Lemma log_indexed_step tenant_id f l r ix ix' ns :
  record_family (sr_key r) = Ok f → index_log tenant_id f ix r = Ok ix' → log_indexed tenant_id l ix ns →
  ∃ ns', log_indexed tenant_id (l ++ [r]) ix' ns'.
Proof.
  intros Hf Hstep Hix. pose proof Hix as [_ _ _ _ _ H5 H6].
  assert (Hother : ∀ key g, record_family key = Ok g → f ≠ g → sr_key r ≠ key) by (intros key g Hg Hne Heq; congruence).
  assert (Hseq : f ≠ FEventSequence → number_read SEQUENCE_KEY (l ++ [r]) (ix_event_sequence_record ix)).
  { intros Hne. apply number_read_same; [|done]. by eapply Hother. }
  assert (Hmin : f ≠ FEventMinSequence → number_read MIN_SEQUENCE_KEY (l ++ [r]) (ix_event_min_sequence_record ix)).
  { intros Hne. apply number_read_same; [|done]. by eapply Hother. }
  destruct ix as [count lowest highest sequence minimum keysets].
  destruct f; cbn [index_log] in Hstep; ok_inv; reflect;
    try (exists ns; apply (log_indexed_same tenant_id l r (mkLogIndex count lowest highest sequence minimum keysets) _ ns); [reflexivity|by apply Hseq|by apply Hmin|by rewrite Hf|exact Hix]).
  - exists ns. apply (log_indexed_same tenant_id l r (mkLogIndex count lowest highest sequence minimum keysets) _ ns); [reflexivity| |by apply Hmin|by rewrite Hf|exact Hix].
    apply number_read_set; [|done]. by apply (family_fixed FEventSequence); [|left].
  - exists ns. apply (log_indexed_same tenant_id l r (mkLogIndex count lowest highest sequence minimum keysets) _ ns); [reflexivity|by apply Hseq| |by rewrite Hf|exact Hix].
    apply number_read_set; [|done]. by apply (family_fixed FEventMinSequence); [|right].
  - eexists. eapply (log_indexed_event tenant_id l r (mkLogIndex count lowest highest sequence minimum keysets) ns); [|exact Hix].
    by split_and!.
Qed.

(** *** The whole index *)

Record index_of (tenant_id : str) (l : list StoreRecord) (ix : SnapshotIndex) : Prop := {
  in_realm : realm_indexed l (ix_realm ix);
  in_fleet : fleet_indexed l (ix_fleet ix);
  in_log : ∃ ns, log_indexed tenant_id l (ix_log ix) ns;
  in_known r : r ∈ l → is_ok (record_family (sr_key r)) = true;
  in_expiry r f : r ∈ l → record_family (sr_key r) = Ok f → record_family_allows_expiry f = false → sr_expires_at r = None
}.

Lemma indexed_step tenant_id l r ix ix' :
  index_record tenant_id ix r = Ok ix' → index_of tenant_id l ix → index_of tenant_id (l ++ [r]) ix'.
Proof.
  intros Hstep [H1 H2 [ns H3] H4 H5]. unfold BackupSnapshot.index_record in Hstep. ok_inv.
  rename select (record_family (sr_key r) = Ok _) into Hf. split; cbn.
  - by eapply realm_indexed_step.
  - by eapply fleet_indexed_step.
  - by eapply log_indexed_step.
  - intros r' [Hr|Hr%list_elem_of_singleton]%elem_of_app; [by apply H4|subst r'; by rewrite Hf].
  - intros r' f [Hr|Hr%list_elem_of_singleton]%elem_of_app Hr' Hex; [by eapply H5|subst r'].
    rewrite Hf in Hr'. injection Hr' as <-. rename select (_ || _ = true) into Hx. rewrite Hex in Hx. by destruct (sr_expires_at r).
Qed.

Lemma index_records_indexed tenant_id records done ix ix' :
  index_records tenant_id ix records = Ok ix' → index_of tenant_id done ix → index_of tenant_id (done ++ records) ix'.
Proof.
  revert done ix. induction records as [|r records IH]; intros done ix; cbn [BackupSnapshot.index_records].
  { intros [= <-]. by rewrite app_nil_r. }
  intros (ix1 & H1 & H2)%bind_Ok Hix. rewrite cons_middle, app_assoc. eapply IH; [done|]. by eapply indexed_step.
Qed.

Lemma indexed_all tenant_id records ix : index_records tenant_id empty_index records = Ok ix → index_of tenant_id records ix.
Proof.
  intros Hix. apply (index_records_indexed tenant_id records [] empty_index ix Hix).
  split; [apply realm_indexed_nil|apply fleet_indexed_nil|exists []; apply log_indexed_nil|set_solver|set_solver].
Qed.

(** ** What an accepted snapshot is *)

(** As many different numbers as an interval has are all of it. *)
Lemma interval_full (ns : list N) lo hi :
  NoDup ns → (∀ n, n ∈ ns → lo ≤ n ∧ n ≤ hi) → hi - lo + 1 ≤ N.of_nat (length ns) → ∀ q, lo ≤ q → q ≤ hi → q ∈ ns.
Proof.
  intros Hnd Hin Hlen q Hlo Hhi. set (range := (λ i, lo + N.of_nat i) <$> seq 0 (N.to_nat (hi - lo + 1))).
  assert (Hrange : ∀ n, lo ≤ n → n ≤ hi → n ∈ range).
  { intros n H1 H2. apply list_elem_of_fmap. exists (N.to_nat (n - lo)). rewrite N2Nat.id. split; [lia|]. apply elem_of_seq. lia. }
  assert (Hp : ns ≡ₚ range).
  { apply submseteq_length_Permutation; [apply NoDup_submseteq; [done|]; intros n Hn; by apply Hrange; apply Hin|].
    unfold range. rewrite length_fmap, length_seq. lia. }
  rewrite Hp. by apply Hrange.
Qed.

Record sound_snapshot (tenant_id : str) (s : BackupSnapshot) : Prop := {
  ss_tenant : bs_tenant_id s = tenant_id;
  ss_sorted : StronglySorted by_key (bs_records s);
  ss_digest : mf_content_sha256 (bs_manifest s) = canonical_records_sha256 (bs_records s);
  ss_known r : r ∈ bs_records s → is_ok (record_family (sr_key r)) = true;
  (** accounts, and what belongs to them *)
  ss_user r : r ∈ bs_records s → record_family (sr_key r) = Ok FUser → ∃ id u, user_record r id u;
  ss_session r : r ∈ bs_records s → record_family (sr_key r) = Ok FSession →
    ∃ ses r' u, from_json (sr_value r) = Some ses ∧ is_Some (sr_expires_at r) ∧ r' ∈ bs_records s ∧ user_record r' (s_user_id ses) u;
  ss_operator r : r ∈ bs_records s → record_family (sr_key r) = Ok FOperator →
    ∃ op r' u, from_json (sr_value r) = Some op ∧ sr_key r = operator_key (op_user_id op) ∧
      r' ∈ bs_records s ∧ user_record r' (op_user_id op) u;
  (** the retained events, without a gap *)
  ss_sequence : ∃ y, number_read SEQUENCE_KEY (bs_records s) y ∧ default 0 y = mf_event_sequence (bs_manifest s);
  ss_events : ∃ x, number_read MIN_SEQUENCE_KEY (bs_records s) x ∧ 1 ≤ default 1 x ∧
    (∀ q, default 1 x ≤ q → q ≤ mf_event_sequence (bs_manifest s) → ∃ r ev, r ∈ bs_records s ∧ event_record tenant_id r q ev) ∧
    (∀ r, r ∈ bs_records s → record_family (sr_key r) = Ok FEvent →
       ∃ q ev, event_record tenant_id r q ev ∧ default 1 x ≤ q ∧ q ≤ mf_event_sequence (bs_manifest s));
  (** grants of the control plane: a live one is found by its secret, a revoked one is not *)
  ss_grant r id g : r ∈ bs_records s → grant_record r id g →
    match rg_revoked_at g with
    | None => ∃ r', r' ∈ bs_records s ∧ secret_record r' (rg_credential_digest g) id
    | Some _ => ∀ r' id', r' ∈ bs_records s → ¬ secret_record r' (rg_credential_digest g) id'
    end;
  (** the fleet hierarchy *)
  ss_environment r id e : r ∈ bs_records s → environment_record r id e →
    ∃ rp p ro org, rp ∈ bs_records s ∧ project_record rp (fe_project_id e) p ∧ fp_organization_id p = fe_organization_id e ∧
      ro ∈ bs_records s ∧ organization_record ro (fe_organization_id e) org;
  ss_connection r id c : r ∈ bs_records s → connection_record r id c →
    ∃ re e, re ∈ bs_records s ∧ environment_record re (fc_environment_id c) e ∧
      fe_organization_id e = fc_organization_id c ∧ fe_project_id e = fc_project_id c;
  ss_binding r id b : r ∈ bs_records s → binding_record r id b →
    match fb_resource_kind b with
    | KOrganization => ∃ r' o, r' ∈ bs_records s ∧ organization_record r' (fb_resource_id b) o
    | KProject => ∃ r' p, r' ∈ bs_records s ∧ project_record r' (fb_resource_id b) p
    | KEnvironment => ∃ r' e, r' ∈ bs_records s ∧ environment_record r' (fb_resource_id b) e
    end
}.

Lemma points_to_true {K : Type} `{Countable K} (m : gmap K Uuid) k id : points_to m k id = true → m !! k = Some id.
Proof. apply bool_decide_eq_true. Qed.
Lemma contains_key_true {K A : Type} `{Countable K} (m : gmap K A) k : contains_key m k = true → ∃ a, m !! k = Some a.
Proof. unfold contains_key. destruct (m !! k); [eauto|done]. Qed.
Lemma contains_key_false {K A : Type} `{Countable K} (m : gmap K A) k : contains_key m k = false → m !! k = None.
Proof. unfold contains_key. by destruct (m !! k). Qed.

(** An entry of the map, as a record of the snapshot. *)
Lemma kept_source {K A : Type} `{Countable K} f (R : StoreRecord → K → A → Prop) l (m : gmap K A) k :
  kept f R l m → contains_key m k = true → ∃ r a, r ∈ l ∧ R r k a.
Proof. intros (Hs & _) [a Ha]%contains_key_true. destruct (Hs k a Ha) as (r & ? & ?). by exists r, a. Qed.

Lemma events_sound s tenant_id ix ns :
  validate_event_sequence s ix = Ok tt → log_indexed tenant_id (bs_records s) ix ns → NoDup (sr_key <$> bs_records s) →
  mf_event_sequence (bs_manifest s) ≤ u64_max →
  let minimum := default 1 (ix_event_min_sequence_record ix) in
  1 ≤ minimum ∧
  (∀ q, minimum ≤ q → q ≤ mf_event_sequence (bs_manifest s) → q ∈ ns) ∧
  (∀ q, q ∈ ns → minimum ≤ q ∧ q ≤ mf_event_sequence (bs_manifest s)).
Proof.
  intros Hv [_ _ Hnd Hc Hb _ _] Hkeys Hmax. cbv zeta. unfold validate_event_sequence in Hv. ok_inv. rename Hv into Hcont.
  set (sequence := mf_event_sequence (bs_manifest s)) in *. set (minimum := default 1 (ix_event_min_sequence_record ix)) in *.
  apply negb_true_iff, orb_false_iff in Hcont as [Hcount Hbounds]. apply negb_false_iff in Hcount, Hbounds.
  apply N.eqb_eq in Hcount. apply bool_decide_eq_true in Hbounds.
  assert (Hmin : 1 ≤ minimum). { rename select (negb (_ || (_ <? minimum)) = true) into Hm. reflect. lia. }
  split; [done|]. destruct (N.leb_spec minimum sequence) as [Hle|Hgt].
  - assert (Hexp : saturating_add (saturating_sub sequence minimum) 1 = sequence - minimum + 1)
      by (unfold saturating_add, saturating_sub; lia).
    rewrite Hexp in *. destruct (N.ltb_spec 0 (sequence - minimum + 1)) as [_|?]; [|lia].
    destruct (ix_event_lowest ix) as [lo|] eqn:Hlo; [|done]. destruct (ix_event_highest ix) as [hi|] eqn:Hhi; [|done].
    cbn in Hbounds. injection Hbounds as -> ->. split; [|done].
    apply interval_full; [by apply Hnd|done|]. rewrite Hc in Hcount. lia.
  - cbn in Hbounds. split; [intros q ? ?; lia|]. intros q Hq. specialize (Hb q Hq).
    destruct (ix_event_lowest ix), (ix_event_highest ix); done.
Qed.

Lemma grants_sound l ix r id g :
  validate_record_ownership ix = Ok tt → realm_indexed l ix → r ∈ l → grant_record r id g →
  match rg_revoked_at g with
  | None => ∃ r', r' ∈ l ∧ secret_record r' (rg_credential_digest g) id
  | Some _ => ∀ r' id', r' ∈ l → ¬ secret_record r' (rg_credential_digest g) id'
  end.
Proof.
  intros Hv [_ (_ & Hg & _) (Hs & Hc & _) _ _] Hr Hrec. unfold validate_record_ownership in Hv. ok_inv.
  rename select (for_each (check_grant ix) _ = Ok _) into Hgs. match type of Hgs with _ = Ok ?u => destruct u end.
  rewrite for_each_Ok in Hgs. specialize (Hgs g). unfold check_grant in Hgs.
  pose proof (Hg r id g Hr Hrec) as Hk. assert (Hid : rg_connection_id g = id) by apply Hrec.
  specialize (Hgs (proj2 (values_elem _ _) (ex_intro _ id Hk))). ok_inv. rename Hgs into H2.
  rename select (negb (negb (is_some (rg_revoked_at g)) && _) = true) into H1.
  destruct (rg_revoked_at g) as [t|]; cbn in *.
  - apply negb_true_iff, contains_key_false in H2. intros r' id' Hr' Hsec. rewrite (Hc r' _ _ Hr' Hsec) in H2. done.
  - rewrite negb_involutive in H1. apply points_to_true in H1. rewrite Hid in H1. by apply Hs in H1.
Qed.

Lemma number_read_le key l x : NoDup (sr_key <$> l) → number_read key l x → default 0 x ≤ u64_max.
Proof.
  intros Hnd [H1 H2]. destruct (decide (key ∈ sr_key <$> l)) as [(r & Hk & Hr)%list_elem_of_fmap|Hno].
  - destruct (H1 Hnd r Hr (eq_sym Hk)) as [Hx [n Hn]]. rewrite Hn in *. cbn. symmetry in Hx. unfold parse_u64 in Hx.
    destruct (match sr_value r with 43 :: s' => s' | _ => sr_value r end); [done|].
    destruct (parse_digits _) as [n'|]; [|done]. destruct (N.leb_spec n' u64_max); [by injection Hx as <-|done].
  - rewrite H2; [cbn; unfold u64_max; lia|]. intros r Hr Hk. apply Hno. rewrite <- Hk. by apply list_elem_of_fmap_2.
Qed.

(** The checks of the fleet, by map. *)
Lemma fleet_checks ix : validate_fleet_workspace ix = Ok tt →
  (∀ id e, ix_fleet_environments ix !! id = Some e → check_environment ix e = Ok tt) ∧
  (∀ id c, ix_fleet_connections ix !! id = Some c → check_connection ix c = Ok tt) ∧
  (∀ id b, ix_fleet_role_bindings ix !! id = Some b → check_binding ix b = Ok tt) ∧
  (∀ id a, ix_fleet_audits ix !! id = Some a → check_audit ix a = Ok tt).
Proof.
  intros Hv. unfold validate_fleet_workspace in Hv. ok_inv.
  repeat match goal with Hx : for_each _ (values _) = Ok ?u |- _ => destruct u; rewrite for_each_Ok in Hx; setoid_rewrite values_elem in Hx end.
  split_and!; eauto.
Qed.

Lemma environment_sound l ix r id e :
  validate_fleet_workspace ix = Ok tt → fleet_indexed l ix → r ∈ l → environment_record r id e →
  ∃ rp p ro org, rp ∈ l ∧ project_record rp (fe_project_id e) p ∧ fp_organization_id p = fe_organization_id e ∧
    ro ∈ l ∧ organization_record ro (fe_organization_id e) org.
Proof.
  intros (He & _)%fleet_checks [Ho Hp (_ & Hec & _) _ _ _] Hr Hrec. specialize (He id e (Hec r id e Hr Hrec)).
  unfold check_environment in He. ok_inv. reflect. rename select (ix_fleet_projects ix !! _ = Some _) into Hproj.
  destruct (kept_source _ _ _ _ _ Ho ltac:(eassumption)) as (ro & org & ? & ?).
  destruct (proj1 Hp _ _ Hproj) as (rp & ? & ?). by eexists rp, _, ro, org.
Qed.

Lemma connection_sound l ix r id c :
  validate_fleet_workspace ix = Ok tt → fleet_indexed l ix → r ∈ l → connection_record r id c →
  ∃ re e, re ∈ l ∧ environment_record re (fc_environment_id c) e ∧
    fe_organization_id e = fc_organization_id c ∧ fe_project_id e = fc_project_id c.
Proof.
  intros (_ & Hc & _)%fleet_checks [_ _ He (_ & Hcc & _) _ _] Hr Hrec. specialize (Hc id c (Hcc r id c Hr Hrec)).
  unfold check_connection in Hc. ok_inv. reflect. rename select (ix_fleet_environments ix !! _ = Some _) into Henv.
  destruct (proj1 He _ _ Henv) as (re & ? & ?). by eexists re, _.
Qed.

Lemma binding_sound l ix r id b :
  validate_fleet_workspace ix = Ok tt → fleet_indexed l ix → r ∈ l → binding_record r id b →
  match fb_resource_kind b with
  | KOrganization => ∃ r' o, r' ∈ l ∧ organization_record r' (fb_resource_id b) o
  | KProject => ∃ r' p, r' ∈ l ∧ project_record r' (fb_resource_id b) p
  | KEnvironment => ∃ r' e, r' ∈ l ∧ environment_record r' (fb_resource_id b) e
  end.
Proof.
  intros (_ & _ & Hb & _)%fleet_checks [Ho Hp He _ (_ & Hbc & _) _] Hr Hrec. specialize (Hb id b (Hbc r id b Hr Hrec)).
  unfold check_binding in Hb. ok_inv.
  destruct (fb_resource_kind b); eapply kept_source; eassumption.
Qed.

Abbreviation validate_snapshot := (validate_snapshot parse_value json_get_u64).
Abbreviation capture := (capture parse_value json_get_u64).

(** The parts of a successful validation. *)
Lemma validate_parts s tenant_id : validate_snapshot s tenant_id = Ok tt →
  bs_tenant_id s = tenant_id ∧ StronglySorted by_key (bs_records s) ∧
  mf_content_sha256 (bs_manifest s) = canonical_records_sha256 (bs_records s) ∧
  ∃ ix, index_of tenant_id (bs_records s) ix ∧ validate_event_sequence s (ix_log ix) = Ok tt ∧
    validate_record_ownership (ix_realm ix) = Ok tt ∧ validate_fleet_workspace (ix_fleet ix) = Ok tt.
Proof.
  intros Hv. unfold BackupSnapshot.validate_snapshot in Hv. ok_inv. rename select (validate_format _ _ = Ok _) into Hfmt.
  unfold validate_format in Hfmt. ok_inv. reflect. rename select (bs_tenant_id s = tenant_id) into Ht. subst tenant_id.
  rename select (unsorted _ = false) into Hs. apply unsorted_spec in Hs.
  repeat match goal with u : unit |- _ => destruct u end.
  split_and!; [done|done|done|]. rename select (BackupSnapshot.index_records _ _ _ _ _ = Ok _) into Hix.
  eexists. split; [by apply indexed_all|done].
Qed.

Lemma validated_sound s tenant_id : validate_snapshot s tenant_id = Ok tt → sound_snapshot tenant_id s.
Proof.
  intros (Ht & Hs & Hd & ix & [Hrealm Hfleet [ns Hlog] Hknown _] & Hev & Hown & Hws)%validate_parts.
  pose proof (by_key_nodup _ Hs) as Hnd. pose proof Hrealm as [Hu _ _ Hses Hop].
  pose proof Hlog as [Hevent Hall _ _ _ Hseq Hmin].
  assert (Hlast : default 0 (ix_event_sequence_record (ix_log ix)) = mf_event_sequence (bs_manifest s)).
  { unfold validate_event_sequence in Hev. ok_inv. reflect. by rename select (default 0 _ = _) into Heq. }
  destruct (events_sound s tenant_id (ix_log ix) ns Hev Hlog Hnd) as (Hm1 & Hm2 & Hm3).
  { rewrite <- Hlast. by eapply number_read_le. }
  pose proof (λ r id g, grants_sound (bs_records s) (ix_realm ix) r id g Hown Hrealm) as Hgrants.
  unfold validate_record_ownership in Hown. ok_inv.
  assert (Hb : ∀ {A : Type} (f : A → Uuid) l a, negb (existsb (λ a, negb (contains_key (ix_users (ix_realm ix)) (f a))) l) = true →
    a ∈ l → ∃ r' u, r' ∈ bs_records s ∧ user_record r' (f a) u).
  { intros A f l a Hno Ha. apply (kept_source _ _ _ _ _ Hu). reflect. destruct (contains_key _ (f a)) eqn:Hc; [done|].
    edestruct (existsb_false_elem _ l a Hno Ha). by rewrite Hc. }
  split; [done|done|done|done|..].
  - intros r Hr Hf. by apply (proj2 (proj2 Hu) r Hr Hf).
  - intros r Hr Hf. destruct (Hses r Hr Hf) as (ses & Hj & Hin & Hex).
    destruct (Hb _ s_user_id _ ses ltac:(eassumption) Hin) as (r' & u & ? & ?). by exists ses, r', u.
  - intros r Hr Hf. destruct (Hop r Hr Hf) as (op & Hj & Hin & Hk).
    destruct (Hb _ op_user_id _ op ltac:(eassumption) Hin) as (r' & u & ? & ?). by exists op, r', u.
  - by eexists.
  - eexists. split; [exact Hmin|]. split; [done|]. split.
    + intros q Hlo Hhi. by apply Hevent, Hm2.
    + intros r Hr Hf. destruct (Hall r Hr Hf) as (q & ev & Hrec & Hq). exists q, ev. destruct (Hm3 q Hq). done.
  - done.
  - intros r id e. by apply (environment_sound (bs_records s) (ix_fleet ix)).
  - intros r id c. by apply (connection_sound (bs_records s) (ix_fleet ix)).
  - intros r id b. by apply (binding_sound (bs_records s) (ix_fleet ix)).
Qed.

(** C22: a snapshot that passes validation is sound.  It is the configured tenant's, its
    records are in strictly increasing key order and match the manifest's digest, and every
    record is of a known family.  Every account decodes under its own key; every session has
    an expiry and, like every operator, an account in the snapshot.  The events from the
    retained minimum to the recorded sequence are all there, once, numbered and of that
    tenant.  A live grant of the control plane is found by its secret, a revoked one is not.
    Every environment has its project and organization, every connection its environment in
    the same organization and project, and every role binding its resource. *)
Theorem validate_sound s tenant_id : validate_snapshot s tenant_id = Ok tt → sound_snapshot tenant_id s.
Proof. apply validated_sound. Qed.

(** *** Agreement with the restore *)

Lemma extends_prefix_elem ps p k : p ∈ ps → starts_with p k && (len p <? len k) = true → extends_prefix ps k = true.
Proof. intros Hp Hk. apply existsb_exists. exists p. by rewrite <- list_elem_of_In. Qed.

(** Every family of the validation is one that the export includes. *)
Lemma record_family_included k f : record_family k = Ok f → snapshot_key_policy k = Ok Include.
Proof.
  unfold record_family. intros Hk. do 4 (case_bool_decide; [subst k; reflexivity|]).
  destruct (List.find _ family_prefixes) as [pf|] eqn:Hfind.
  - apply find_some in Hfind as [Hin Hpk].
    assert (Htable : forallb (λ pf : str * Family, bool_decide (pf.1 ∈ analytics_prefixes) || bool_decide (pf.1 ∈ fleet_prefixes) ||
      bool_decide (pf.1 ∈ realm_prefixes)) family_prefixes = true) by reflexivity.
    rewrite forallb_forall in Htable. specialize (Htable _ Hin).
    apply orb_true_iff in Htable as [[Hp|Hp]%orb_true_iff|Hp]; apply bool_decide_eq_true in Hp; unfold snapshot_key_policy.
    + rewrite (extends_prefix_elem _ _ _ Hp Hpk), orb_true_r. done.
    + rewrite (extends_prefix_elem _ _ _ Hp Hpk). by destruct (_ || _).
    + apply andb_true_iff in Hpk as [Hpk _]. by eapply policy_realm.
  - do 2 (case_bool_decide; [subst k; reflexivity|]). done.
Qed.

Lemma len_app a b : len (a ++ b) = len a + len b.
Proof. induction a as [|d a IH]; cbn [len app]; [done|]. rewrite IH. lia. Qed.

Lemma len_pos x : x ≠ [] → 0 < len x.
Proof.
  destruct x as [|c x]; [done|]. intros _. cbn [len]. assert (0 < utf8_width c) by (unfold utf8_width; repeat case_match; lia). lia.
Qed.

Lemma user_family k f : record_family k = Ok f → starts_with #"auth:user:" k = true → f = FUser.
Proof.
  unfold record_family. intros Hk Hu. do 4 (case_bool_decide; [by subst k|]).
  destruct (len #"auth:user:" <? len k) eqn:Hlen.
  - cbn [List.find family_prefixes fst] in Hk. rewrite Hu, Hlen in Hk. cbn in Hk. by injection Hk as <-.
  - apply starts_with_spec in Hu as [x ->]. destruct x as [|c x].
    + by vm_compute in Hk.
    + exfalso. clear Hk. rewrite len_app in Hlen. pose proof (len_pos (c :: x) ltac:(done)). reflect. lia.
Qed.

(** A validated snapshot can be restored.  If a snapshot passes validation, has at most a
    million records and none above the size limit, then restoring it into an empty datastore
    with every round trip delivered succeeds, with or without its sessions. *)
Theorem validated_snapshot_restores s tenant_id p o w :
  validate_snapshot s tenant_id = Ok tt → N.of_nat (length (bs_records s)) ≤ MAX_SNAPSHOT_KEYS →
  (∀ r, r ∈ bs_records s → len (sr_value r) ≤ MAX_SNAPSHOT_VALUE_BYTES) → reliable o → vw w = ∅ →
  is_ok (restore_records (bs_records s) p o w).1 = true.
Proof.
  intros (_ & Hs & _ & ix & [[(_ & _ & Hu) _ _ _ _] _ _ Hknown _] & _)%validate_parts Hcount Hlen Hrel Hempty.
  apply (wp_restore_records (bs_records s) p o w (λ r _, is_ok r = true)); [|done].
  intros e w' _ [?|[Hsize|[(k & _ & Hk)|[Hno|(r & Hr & Hv)]]]]; exfalso.
  - done.
  - rewrite Hempty, map_size_empty in Hsize. unfold MAX_SNAPSHOT_KEYS in Hsize. lia.
  - rewrite Hempty, lookup_empty in Hk. by destruct Hk.
  - apply Hno. split; [done|done|]. intros r Hr. split; [|by apply Hlen]. specialize (Hknown r Hr).
    destruct (record_family (sr_key r)) as [f|] eqn:Hf; [by eapply record_family_included|done].
  - unfold restored_value in Hv. destruct (starts_with #"auth:user:" (sr_key r)) eqn:Hpre; [|done].
    specialize (Hknown r Hr). destruct (record_family (sr_key r)) as [f|] eqn:Hf; [|done].
    rewrite (user_family _ _ Hf Hpre) in Hf. destruct (Hu r Hr Hf) as (id & u & _ & _ & _ & u0 & Hj & Hn).
    rewrite Hj in Hv. cbn in Hv. by rewrite Hn in Hv.
Qed.

(** A snapshot with an audit record of an action the validation does not list. *)
Lemma unsupported_audit_refused s tenant_id r id a kind action :
  r ∈ bs_records s → audit_record r id a → split_once 46 (fa_action a) = Some (kind, action) →
  audit_supported kind action = false ∨ kind ≠ fa_resource_kind a → validate_snapshot s tenant_id ≠ Ok tt.
Proof.
  intros Hr Ha Hsplit Hbad (_ & _ & _ & ix & [_ [_ _ _ _ _ (_ & Hc & _)] _ _ _] & _ & _ & Hws)%validate_parts.
  destruct (fleet_checks _ Hws) as (_ & _ & _ & Haud). specialize (Haud id a (Hc r id a Hr Ha)).
  unfold check_audit in Haud. rewrite Hsplit in Haud. cbn [ok_or mbind result_bind] in Haud. ok_inv. reflect.
  destruct Hbad as [Hbad|Hbad]; congruence.
Qed.

(** An audit record of such an action in the datastore, which never expires. *)
Definition unlisted_audit (m : gmap str entry) : Prop :=
  ∃ id a kind action, m !! audit_key id = Some (Entry (to_json a) None) ∧ fa_id a = id ∧
    split_once 46 (fa_action a) = Some (kind, action) ∧ (audit_supported kind action = false ∨ kind ≠ fa_resource_kind a).

Lemma apart_starts p q x : apart p q = true → starts_with q (p ++ x) = false.
Proof.
  intros Hq. destruct (starts_with q (p ++ x)) eqn:Heq; [|done].
  apply starts_with_spec in Heq as [y Hy]. by apply (apart_app p q x y) in Hq.
Qed.

(** The family of a key with text after the prefix. *)
Lemma family_of_prefix p f x :
  x ≠ [] → forallb (apart p) realm_keys = true →
  forallb (λ pf : str * Family, apart p pf.1 || bool_decide (pf = (p, f))) family_prefixes = true → (p, f) ∈ family_prefixes →
  record_family (p ++ x) = Ok f.
Proof.
  intros Hx Hkeys Htable Hin. unfold record_family.
  assert (Hne : ∀ k, k ∈ realm_keys → p ++ x ≠ k).
  { intros k Hk. rewrite forallb_forall in Hkeys. apply apart_app_l, Hkeys. by apply list_elem_of_In. }
  do 4 (rewrite bool_decide_false by (apply Hne; unfold realm_keys; rewrite !elem_of_cons; tauto)).
  enough (Hfind : List.find (λ pf : str * Family, starts_with pf.1 (p ++ x) && (len pf.1 <? len (p ++ x))) family_prefixes = Some (p, f))
    by by rewrite Hfind.
  revert Htable Hin. generalize family_prefixes. intros l. induction l as [|pf l IH]; [by intros _ ?%elem_of_nil|].
  cbn [forallb List.find]. intros [Hpf Hl]%andb_true_iff Hin. apply orb_true_iff in Hpf as [Hpf|Hpf%bool_decide_eq_true].
  - rewrite (apart_starts _ _ _ Hpf). apply IH; [done|]. apply elem_of_cons in Hin as [<-|]; [|done].
    exfalso. cbn in Hpf. by apply (apart_ne p p).
  - subst pf. cbn [fst]. rewrite (proj2 (starts_with_spec p (p ++ x)) (ex_intro _ x eq_refl)). rewrite len_app.
    pose proof (len_pos x Hx). destruct (N.ltb_spec (len p) (len p + len x)); [done|lia].
Qed.

Lemma audit_key_family id : record_family (audit_key id) = Ok FFleetAudit.
Proof.
  apply family_of_prefix; [apply uuid_show_nonempty|vm_compute; reflexivity..|].
  apply list_elem_of_In. vm_compute. tauto.
Qed.

Lemma unlisted_audit_refused tenant_id o w : unlisted_audit (vw w) → is_ok (capture tenant_id o w).1 = false.
Proof.
  intros (id & a & kind & action & Hk & Hid & Hsplit & Hbad). unfold BackupSnapshot.capture.
  apply (wp_bind _ _ _ _ (λ r _, is_ok r = false)), wp_export_records; [done|]. intros recs w1 Hv1 [_ Hrec Hall _].
  destruct (Hall _ _ Hk (outlasts_persistent o _)) as (r & Hr & Hkey); [by vm_compute|by eapply record_family_included, audit_key_family|].
  destruct (Hrec r Hr) as (_ & e & He & Hv & _). rewrite Hkey, Hk in He. injection He as <-. cbn in Hv.
  unfold from_records. apply wp_bind, wp_lift. destruct (event_sequence_of recs); [|done]. apply wp_bind, wp_lift.
  destruct (count_families ∅ recs); [|done]. apply wp_bind, wp_new_v4. intros uid w2 _ _ _. apply wp_bind, wp_lift.
  match goal with |- context [BackupSnapshot.validate_snapshot _ _ ?s _] => destruct (validate_snapshot s tenant_id) as [[]|] eqn:Hval; [|done] end.
  exfalso. eapply unsupported_audit_refused; [| |exact Hsplit|exact Hbad|exact Hval]; [exact Hr|].
  split_and!; [by rewrite Hkey, audit_key_family|by rewrite Hv, from_to_json|exact Hid|exact Hkey].
Qed.

(** *** Operations whose audit the validation does not list *)

Lemma unlisted_kept m m' :
  (∀ id e, m !! audit_key id = Some e → m' !! audit_key id = Some e) → unlisted_audit m → unlisted_audit m'.
Proof. intros Hk (id & a & kind & action & He & Hrest). exists id, a, kind, action. split; [by apply Hk|done]. Qed.

Context `{!Serde FleetIdempotencyRecord}.

Lemma rotation_unlisted org project env id rid oper reason o w :
  fleet_ok (vw w) → conn_ok (vw w) → vw w !! idempotency_key rid = None →
  wp (rotate_fleet_connection_credential org project env id rid oper reason) o w
    (λ r w', ∀ c, r = Ok c → unlisted_audit (vw w')).
Proof.
  intros Hf Hc Hnew. apply (wp_idempotent _ rid connection_key); [apply fk_requests, Hf|done|done| |].
  { intros id' c w' _ (v & Hv & _) _. congruence. }
  intros w1 [Hv1 _] _.
  eapply (wp_found connection_key fc_id _ (option_filter _) id _ (vw w)); [done|apply (ck_records _ Hc)|done|done|].
  intros r ? w2 _ _ _ _ _. apply wp_bind, wp_ensure; [intros _|done].
  apply wp_bind, wp_some_or; [intros cred _|done]. apply wp_bind, wp_some_or; [intros hint _|done].
  apply wp_bind, wp_now. cbv zeta. apply wp_bind, wp_persist_fleet; [done|]. intros x w' aid t Hv.
  destruct x as [[]|]; [apply wp_ret|done]. intros _ _. rewrite Hv. unfold unlisted_audit, mutated.
  eexists aid, _, #"connection", #"rotate_credential". rewrite lookup_insert_eq. split_and!; [done|done|done|by left].
Qed.

Lemma remote_unlisted id rid oper action reason o w :
  fleet_ok (vw w) → conn_ok (vw w) → vw w !! idempotency_key rid = None → starts_with #"realm." action = true →
  wp (record_fleet_remote_mutation id rid oper action reason) o w (λ r w', ∀ a, r = Ok a → unlisted_audit (vw w')).
Proof.
  intros Hf Hc Hnew [rest Hact]%starts_with_spec. apply wp_bind, wp_idempotent_resource; [apply fk_requests, Hf|done| |].
  { intros rid' w1 _ (v & Hv & _). congruence. }
  intros w1 [Hv1 _] _. eapply (wp_found connection_key fc_id _ (option_filter _) id _ (vw w));
    [done|apply (ck_records _ Hc)|done|done|]. intros c r' w2 _ _ _ _ _.
  apply wp_bind, wp_new_v4. intros aid w3 _ _ _. apply wp_bind, wp_now. cbv zeta.
  apply wp_bind, wp_execute_view; [done|]. intros w' t _ Hv. apply wp_ret. intros a _. rewrite Hv. unfold unlisted_audit.
  set (audit := mkFleetAudit _ _ _ _ _ _ _ _ _ _ _). change ((exec_pipe _ _ _).2) with
    (<[idempotency_key rid := Entry (to_json (mkIdempotency action (fc_environment_id r'))) None]>
       (<[audit_key aid := Entry (to_json audit) None]> (vw (tick w3)))).
  exists aid, audit, #"realm", rest. rewrite lookup_insert_ne by key_neq. rewrite lookup_insert_eq.
  split_and!; [done|done|cbn [fa_action audit]; by rewrite Hact|by right].
Qed.

(** C30: a fleet's backups stop with the first rotated credential or remote change.  Once the
    rotation of a connection's credential, or a change made on a realm and recorded under a
    "realm." action, has succeeded for a new request, no later capture succeeds while the
    audit records are kept: the validation lists neither action. *)
Theorem fleet_audit_stops_backups tenant_id org project env id rid oper action reason o w w1 o' w' :
  fleet_ok (vw w) → conn_ok (vw w) → vw w !! idempotency_key rid = None →
  (∃ c, rotate_fleet_connection_credential org project env id rid oper reason o w = (Ok c, w1)) ∨
  (starts_with #"realm." action = true ∧ ∃ a, record_fleet_remote_mutation id rid oper action reason o w = (Ok a, w1)) →
  (∀ id e, vw w1 !! audit_key id = Some e → vw w' !! audit_key id = Some e) →
  is_ok (capture tenant_id o' w').1 = false.
Proof.
  intros Hf Hc Hnew Hrun Hkept. apply unlisted_audit_refused, (unlisted_kept _ _ Hkept). destruct Hrun as [[c Hrun]|[Hact [a Hrun]]].
  - pose proof (rotation_unlisted org project env id rid oper reason o w Hf Hc Hnew) as Hw. unfold wp in Hw. rewrite Hrun in Hw. by eapply Hw.
  - pose proof (remote_unlisted id rid oper action reason o w Hf Hc Hnew Hact) as Hw. unfold wp in Hw. rewrite Hrun in Hw. by eapply Hw.
Qed.
End IndexFacts.

(** ** Witnesses *)

Module DemoBackup.
Import DemoEnv DemoFleet DemoRoles DemoSigning DemoConnections DemoManagement DemoSnapshot.

#[export] Program Instance codec_idempotency_snapshot : Codec FleetIdempotencySnapshot :=
  codec_iso (λ r : FleetIdempotencySnapshot, (is_action r, is_resource_id r)) (λ '(a, b), Some (mkIdempotencySnapshot a b)) _.
Next Obligation. by intros []. Qed.

#[export] Program Instance codec_store_record : Codec StoreRecord :=
  codec_iso (λ r : StoreRecord, (sr_key r, (sr_value r, sr_expires_at r))) (λ '(a, (b, c)), Some (mkStoreRecord a b c)) _.
Next Obligation. by intros []. Qed.

(** The realm with one account and its signing keys. *)
Definition demo_keyed : world := Eval vm_compute in (execute [SET KEYSET_KEY #"keys"] demo_oracle demo_realm).2.
Abbreviation demo_capture w := (capture (λ _, None) (λ _ _, None) #"demo" demo_oracle w).
Definition demo_snapshot : BackupSnapshot :=
  Eval vm_compute in match (demo_capture demo_keyed).1 with
                     | Ok s => s
                     | Err _ => mkSnapshot 0 (demo_uuid_of 0) [] 0 [] (mkManifest 0 [] ∅ 0)
                     end.
Abbreviation demo_tenant := (bs_tenant_id demo_snapshot).

Lemma validate_sound_witness :
  (demo_capture demo_keyed).1 = Ok demo_snapshot ∧ length (bs_records demo_snapshot) = 8%nat ∧
  sound_snapshot demo_tenant demo_snapshot.
Proof.
  split; [eval_eq|]. split; [eval_eq|]. apply (validate_sound (λ _, None) (λ _ _, None)). eval_eq.
Defined.

Lemma validated_snapshot_restores_witness :
  is_ok (restore_records (bs_records demo_snapshot) true demo_oracle (demo_world [])).1 = true.
Proof.
  apply (validated_snapshot_restores (λ _, None) (λ _ _, None) demo_snapshot demo_tenant); [eval_eq|by vm_compute| |exact demo_reliable|reflexivity].
  assert (Hl : forallb (λ r, len (sr_value r) <=? MAX_SNAPSHOT_VALUE_BYTES) (bs_records demo_snapshot) = true) by eval_eq.
  intros r Hr%list_elem_of_In. rewrite forallb_forall in Hl. by apply N.leb_le, Hl.
Defined.

(** A remote change on the connected realm. *)
Abbreviation demo_changed := (demo_remote (demo_uuid_of 500) demo_connected_world).

Lemma fleet_audit_stops_backups_witness :
  is_ok demo_changed.1 = true ∧ is_ok (demo_capture demo_changed.2).1 = false.
Proof.
  assert (He : is_ok demo_changed.1 = true) by eval_eq. split; [exact He|]. destruct (is_ok_run _ He) as [a Ha].
  apply (fleet_audit_stops_backups (λ _, None) (λ _ _, None) #"demo" demo_org_id demo_project_id demo_environment_id
    (demo_uuid_of 500) (demo_uuid_of 220) demo_operator #"realm.remote.delete-webhook" [] demo_oracle demo_connected_world demo_changed.2);
    [exact (proj1 demo_connected_ok)|exact (proj2 demo_connected_ok)|eval_eq| |done].
  right. split; [reflexivity|]. exists a. exact Ha.
Defined.

(** The same fleet, with signing keys and the realm's credential, before and after. *)
Definition demo_sealed : FleetConnectionRecord :=
  set_credential (mkFleetCredential #"key" #"nonce" #"sealed") [] None None None 0 demo_connected.
Abbreviation demo_fleet_keyed :=
  ((execute [SET KEYSET_KEY #"keys"; SET (connection_key (demo_uuid_of 500)) (to_json demo_sealed)] demo_oracle demo_connected_world).2).
Example fleet_backed_up_before :
  is_ok (demo_capture demo_fleet_keyed).1 = true ∧
  (demo_capture (demo_remote (demo_uuid_of 500) demo_fleet_keyed).2).1 = Err (EBail "backup Fleet audit action does not match its resource kind").
Proof. split; eval_eq. Qed.
End DemoBackup.
