(* ===== verification/Envelope.v ===== *)
(** * Backup envelopes (src/src/backup/envelope.rs, the compact codec of src/src/backup/snapshot.rs)

    A snapshot is serialized, compressed and sealed under the active backup key.  The header
    (magic, length and text of the key's id, nonce) is authenticated with the contents. *)

From S2P Require Import Prelude Sable Logic Demo Bytes Records Users Accounts SigningKeys Snapshot BackupSnapshot.

(** ** The compact form *)

(** [snapshot_id] is the sixteen bytes of the id, [content_sha256] the thirty-two of the digest. *)
Record BinarySnapshotV3 := mkBinary {
  bv_snapshot_id : Uuid;
  bv_tenant_id : str;
  bv_captured_at : N;
  bv_records : list StoreRecord;
  bv_record_count : N;
  bv_content_sha256 : list N;
  bv_key_families : gmap str N;
  bv_event_sequence : N
}.

Definition MAGIC_V3 : list N := bytes #"RAUTHBK3".
Definition MAGIC_V2 : list N := bytes #"RAUTHBK2".
Definition LEGACY_MAGIC : list N := bytes #"PAUTHBK1".
Definition MAX_SNAPSHOT_BYTES : N := 512 * 1024 * 1024.

(** The crates postcard, zstd and aes-gcm.  [zstd_read n] decompresses at most the first
    [n] bytes of the contents. *)
Class ExtBackup `{Env} := {
  postcard_to_vec : BinarySnapshotV3 → option (list N);
  postcard_from_bytes : list N → option BinarySnapshotV3;
  postcard_from_to s b : postcard_to_vec s = Some b → postcard_from_bytes b = Some s;
  zstd_encode_all : list N → option (list N);
  zstd_read : N → list N → option (list N);
  zstd_read_encode n b c : zstd_encode_all b = Some c → zstd_read n c = Some (take (N.to_nat n) b);
  (** key, nonce, message, associated data *)
  gcm_encrypt : list N → list N → list N → list N → option (list N);
  gcm_decrypt : list N → list N → list N → list N → option (list N);
  gcm_decrypt_encrypt k n m a c : gcm_encrypt k n m a = Some c → gcm_decrypt k n c a = Some m;
  gcm_tag k n m a c : gcm_encrypt k n m a = Some c → length c = (length m + 16)%nat
}.

Section Envelope.
Context `{Env, !ExtBackup, !Serde BackupSnapshot}.

Definition encode_binary_v3 (self : BackupSnapshot) : result error (list N) :=
  let m := bs_manifest self in
  digest ← ok_or (EBail "backup manifest digest is not hexadecimal") (hex_decode (mf_content_sha256 m));
  content_sha256 ← (if (length digest =? 32)%nat then Ok digest else Err (EBail "backup manifest digest is not 32 bytes"));
  ok_or (EBail "serialize compact binary backup snapshot")
    (postcard_to_vec (mkBinary (bs_snapshot_id self) (bs_tenant_id self) (bs_captured_at self) (bs_records self)
       (mf_record_count m) content_sha256 (mf_key_families m) (mf_event_sequence m))).

Definition decode_binary_v3 (b : list N) : result error BackupSnapshot :=
  binary ← ok_or (EBail "decode compact binary backup snapshot") (postcard_from_bytes b);
  Ok (mkSnapshot SNAPSHOT_VERSION (bv_snapshot_id binary) (bv_tenant_id binary) (bv_captured_at binary) (bv_records binary)
        (mkManifest (bv_record_count binary) (hex_encode (bv_content_sha256 binary)) (bv_key_families binary)
           (bv_event_sequence binary))).

(** ** Sealing *)

Definition encrypt_envelope (keys : KeyRing) (magic plaintext : list N) : M error (list N) :=
  let '(mkKeyEntry key_id key) := kr_active keys in
  _ ← ensure (negb (255 <? len key_id)) (EBail "backup encryption key id is too long");
  nonce ← random_bytes 12;
  let header := magic ++ [len key_id mod 256] ++ bytes key_id ++ nonce in
  ciphertext ← some_or (EBail "encrypt auth backup") (gcm_encrypt key nonce plaintext header);
  mret (header ++ ciphertext).

Definition encode_snapshot (keys : KeyRing) (snapshot : BackupSnapshot) : M error (list N) :=
  plaintext ← lift (encode_binary_v3 snapshot);
  _ ← ensure (negb (MAX_SNAPSHOT_BYTES <? N.of_nat (length plaintext)))
        (EBail "backup snapshot exceeds the 512 MiB plaintext safety limit");
  compressed ← some_or (EBail "compress backup snapshot") (zstd_encode_all plaintext);
  encrypt_envelope keys MAGIC_V3 compressed.

(** ** Opening *)

Definition supported_magic (envelope : list N) : bool :=
  starts_with_bytes MAGIC_V3 envelope || starts_with_bytes MAGIC_V2 envelope.

(** The checks [envelope_key_id] and [decrypt_envelope] both begin with. *)
Definition check_magic (envelope : list N) : result error unit :=
  _ ← require (negb (starts_with_bytes LEGACY_MAGIC envelope))
        "legacy PAUTHBK1 payloads predate restorable snapshots and cannot be restored";
  require (negb (negb (supported_magic envelope) || (N.of_nat (length envelope) <? 8 + 1 + 12 + 16)))
    "backup envelope is truncated or has an unsupported format".

Definition envelope_key_id (envelope : list N) : result error str :=
  _ ← check_magic envelope;
  key_id_length ← byte_at envelope 8;
  let key_id_start := 8 + 1 in
  let nonce_start := saturating_add key_id_start key_id_length in
  let ciphertext_start := saturating_add nonce_start 12 in
  _ ← require (negb ((key_id_length =? 0) || (N.of_nat (length envelope) <? saturating_add ciphertext_start 16)))
        "backup envelope header is malformed";
  text ← slice envelope key_id_start nonce_start;
  ok_or (EBail "backup encryption key id is not UTF-8") (from_utf8 text).

Definition envelope_format_version (envelope : list N) : result error N :=
  if starts_with_bytes MAGIC_V3 envelope then Ok 3
  else if starts_with_bytes MAGIC_V2 envelope then Ok 2
  else if starts_with_bytes LEGACY_MAGIC envelope
  then Err (EBail "legacy PAUTHBK1 payloads predate restorable snapshots and cannot be restored")
  else Err (EBail "backup envelope has an unsupported format").

Definition decrypt_envelope (keys : KeyRing) (envelope : list N) : result error (list N) :=
  _ ← check_magic envelope;
  key_id ← envelope_key_id envelope;
  let key_id_start := 8 + 1 in
  let nonce_start := saturating_add key_id_start (len key_id) in
  let ciphertext_start := saturating_add nonce_start 12 in
  key ← ok_or (EBail "backup requires encryption key; retain it in AUTH_BACKUP_PREVIOUS_KEYS_HEX") (keyring_get keys key_id);
  nonce ← slice envelope nonce_start ciphertext_start;
  _ ← (if (length nonce =? 12)%nat then Ok tt else Err EPanic);
  header ← slice envelope 0 ciphertext_start;
  msg ← slice envelope ciphertext_start (N.of_nat (length envelope));
  ok_or (EBail "backup authentication failed") (gcm_decrypt key nonce msg header).

Definition decode_snapshot (keys : KeyRing) (envelope : list N) : result error BackupSnapshot :=
  let binary_v3 := starts_with_bytes MAGIC_V3 envelope in
  compressed ← decrypt_envelope keys envelope;
  plaintext ← ok_or (EBail "decompress backup snapshot") (zstd_read (MAX_SNAPSHOT_BYTES + 1) compressed);
  _ ← require (negb (MAX_SNAPSHOT_BYTES <? N.of_nat (length plaintext))) "decompressed backup exceeds the 512 MiB safety limit";
  if binary_v3 then decode_binary_v3 plaintext
  else ok_or (EBail "decode legacy JSON backup snapshot") (from_utf8 plaintext ≫= from_json).

(** ** The keys of a ring *)

Lemma keyring_entries_spec purpose seen previous entries :
  keyring_entries purpose seen previous = Ok entries →
  (∀ k, k ∈ previous → mkKeyEntry (derived_key_id purpose k) k ∈ entries) ∧
  NoDup (ke_id <$> entries) ∧ (∀ x, x ∈ ke_id <$> entries → x ∉ seen).
Proof.
  revert seen entries. induction previous as [|k previous IH]; intros seen entries; simpl.
  { intros [= <-]. split_and!; [set_solver|constructor|set_solver]. }
  case_bool_decide as Hin; [done|]. destruct (keyring_entries _ _ previous) as [l|] eqn:Hl; [|done]. intros [= <-].
  destruct (IH _ _ Hl) as (Hk & Hnd & Hseen). split_and!.
  - intros k' [->|Hk']%elem_of_cons; [by left|right; by apply Hk].
  - constructor; [|done]. intros Hx. apply (Hseen _ Hx). by left.
  - intros x [->|Hx]%elem_of_cons; [done|]. specialize (Hseen x Hx). set_solver.
Qed.

Lemma find_entry (l : list KeyEntry) e :
  NoDup (ke_id <$> l) → e ∈ l → List.find (λ x, bool_decide (ke_id x = ke_id e)) l = Some e.
Proof.
  induction l as [|x l IH]; [by intros _ ?%elem_of_nil|]. intros [Hx Hl]%NoDup_cons [<-|He]%elem_of_cons; simpl.
  - by rewrite bool_decide_eq_true_2.
  - rewrite bool_decide_eq_false_2; [by apply IH|]. intros Heq. apply Hx. change (ke_id x ∈ ke_id <$> l). rewrite Heq.
    by apply list_elem_of_fmap_2.
Qed.

Lemma keyring_get_key purpose active previous ring k :
  keyring_new purpose active previous = Ok ring → k = active ∨ k ∈ previous →
  keyring_get ring (derived_key_id purpose k) = Some k.
Proof.
  unfold keyring_new. destruct (keyring_entries _ _ previous) as [l|] eqn:Hl; [|done]. intros [= <-] Hk.
  destruct (keyring_entries_spec _ _ _ _ Hl) as (Hin & Hnd & Hseen). unfold keyring_get. cbn [kr_active ke_id ke_key kr_previous].
  destruct Hk as [->|Hk]; [by rewrite bool_decide_eq_true_2|]. specialize (Hin k Hk).
  rewrite bool_decide_eq_false_2.
  - pose proof (find_entry l _ Hnd Hin) as Hf. cbn [ke_id] in Hf. by rewrite Hf.
  - intros Heq. apply (Hseen (derived_key_id purpose k)); [by apply (list_elem_of_fmap_2 ke_id _ _ Hin)|]. rewrite <- Heq. by left.
Qed.

Lemma ascii_len x : forallb (λ c, c <? 128) x = true → len x = N.of_nat (length x).
Proof.
  induction x as [|c x IH]; [done|]. cbn [forallb len length]. intros [Hc Hx]%andb_true_iff. rewrite IH by done.
  unfold utf8_width. rewrite Hc. lia.
Qed.

(** The id of a backup key is ASCII text of thirty-one characters. *)
Lemma backup_key_id k :
  forallb (λ c, c <? 128) (derived_key_id #"backup" k) = true ∧ len (derived_key_id #"backup" k) = 31.
Proof.
  assert (Hhex : forallb (λ c, c <? 128) (hex_encode (take 12 (sha256 k))) = true).
  { pose proof (hex_encode_digits (take 12 (sha256 k))) as Hd. rewrite forallb_forall in *. intros c Hc. specialize (Hd c Hc).
    unfold is_ascii_hexdigit, is_ascii_digit, in_range in Hd. lia. }
  assert (Ha : forallb (λ c, c <? 128) (derived_key_id #"backup" k) = true)
    by (unfold derived_key_id; by rewrite !forallb_app, Hhex).
  split; [done|]. rewrite ascii_len by done. unfold derived_key_id. rewrite !length_app, hex_encode_length, length_take, sha256_length. done.
Qed.

(** ** Opening what was sealed *)

Definition header_of (magic : list N) (key_id : str) (nonce : list N) : list N :=
  magic ++ [len key_id mod 256] ++ bytes key_id ++ nonce.

(** Where the parts of an envelope lie. *)
Lemma header_slices magic key_id nonce c :
  length magic = 8%nat → length nonce = 12%nat → len key_id ≤ 255 →
  let e := header_of magic key_id nonce ++ c in
  let nonce_start := saturating_add (8 + 1) (len key_id) in
  let ciphertext_start := saturating_add nonce_start 12 in
  slice e nonce_start ciphertext_start = Ok nonce ∧ slice e 0 ciphertext_start = Ok (header_of magic key_id nonce) ∧
  slice e ciphertext_start (N.of_nat (length e)) = Ok c.
Proof.
  intros Hl Hn Hmax e. pose proof (bytes_length key_id) as Hb. cbv zeta. unfold saturating_add, u64_max. rewrite !N.min_l by lia.
  assert (Hh : N.of_nat (length (header_of magic key_id nonce)) = 8 + 1 + len key_id + 12)
    by (unfold header_of; rewrite !length_app, Hl, Hn; cbn [length]; lia).
  assert (He : e = (magic ++ [len key_id mod 256] ++ bytes key_id) ++ nonce ++ c) by (unfold e, header_of; by rewrite <- !app_assoc).
  split_and!.
  - rewrite He. apply slice_app; rewrite !length_app, Hl; cbn [length]; lia.
  - unfold e. rewrite <- (app_nil_l (header_of _ _ _ ++ c)). apply slice_app; [done|]. cbn [length]. lia.
  - unfold e. rewrite <- (app_nil_r c) at 1. apply slice_app; rewrite ?length_app; lia.
Qed.

(** The header of an envelope is read back as it was written. *)
Lemma header_read magic key_id nonce c :
  magic = MAGIC_V3 ∨ magic = MAGIC_V2 → forallb is_scalar key_id = true → 0 < len key_id → len key_id ≤ 255 →
  length nonce = 12%nat → (16 ≤ length c)%nat →
  let e := header_of magic key_id nonce ++ c in check_magic e = Ok tt ∧ envelope_key_id e = Ok key_id.
Proof.
  intros Hm Hs Hpos Hmax Hn Hc e. pose proof (bytes_length key_id) as Hb.
  assert (Hl : length magic = 8%nat) by (by destruct Hm as [-> | ->]).
  assert (He : N.of_nat (length e) = 21 + len key_id + N.of_nat (length c)).
  { unfold e, header_of. rewrite !length_app, Hl, Hn. cbn [length]. lia. }
  assert (Hmagic : check_magic e = Ok tt).
  { unfold check_magic, supported_magic. rewrite He. unfold e, header_of. rewrite <- app_assoc.
    rewrite !starts_with_bytes_same by (by rewrite Hl). replace (_ <? 8 + 1 + 12 + 16) with false by lia. by destruct Hm as [-> | ->]. }
  split; [done|]. unfold envelope_key_id. rewrite Hmagic. cbn [mbind result_bind].
  assert (Hat : byte_at e 8 = Ok (len key_id)).
  { unfold byte_at, e, header_of. rewrite <- app_assoc, lookup_app_r by (rewrite Hl; done). rewrite Hl. simpl. f_equal.
    apply N.mod_small. lia. }
  rewrite Hat. cbn [mbind result_bind]. unfold saturating_add, u64_max. rewrite !N.min_l by lia. rewrite He.
  replace (negb _) with true by lia. cbn [require mbind result_bind].
  assert (Hkey : slice e (8 + 1) (8 + 1 + len key_id) = Ok (bytes key_id)).
  { unfold e, header_of. rewrite app_assoc, <- !app_assoc, (app_assoc magic). apply slice_app; rewrite length_app, Hl; cbn [length]; lia. }
  rewrite Hkey. cbn [mbind result_bind]. by rewrite from_utf8_bytes.
Qed.

Lemma binary_roundtrip s b :
  bs_format_version s = SNAPSHOT_VERSION → (∃ d, mf_content_sha256 (bs_manifest s) = hex_encode (sha256 d)) →
  encode_binary_v3 s = Ok b → decode_binary_v3 b = Ok s.
Proof.
  intros Hv [d Hd] He. unfold encode_binary_v3 in He. rewrite Hd in He. rewrite hex_decode_encode in He by apply sha256_bytes.
  cbn [ok_or mbind result_bind] in He. rewrite sha256_length in He. cbn [Nat.eqb mbind result_bind] in He.
  apply ok_or_Ok in He. unfold decode_binary_v3. rewrite (postcard_from_to _ _ He). cbn. rewrite <- Hd, <- Hv. by destruct s as [? ? ? ? ? []].
Qed.

Lemma decrypt_encrypt key previous ring key' previous' ring' magic m o w :
  keyring_new #"backup" key previous = Ok ring → keyring_new #"backup" key' previous' = Ok ring' → key = key' ∨ key ∈ previous' →
  magic = MAGIC_V3 ∨ magic = MAGIC_V2 →
  wp (encrypt_envelope ring magic m) o w (λ r _, ∀ e, r = Ok e → decrypt_envelope ring' e = Ok m ∧ ∃ x, e = magic ++ x).
Proof.
  intros Hring Hring' Hkey Hm. unfold encrypt_envelope.
  assert (Hact : kr_active ring = mkKeyEntry (derived_key_id #"backup" key) key).
  { unfold keyring_new in Hring. destruct (keyring_entries _ _ _); [by injection Hring as <-|done]. }
  rewrite Hact. destruct (backup_key_id key) as [Hascii Hlen]. pose proof (keyring_get_key _ _ _ _ key Hring' Hkey) as Hget.
  generalize dependent (derived_key_id #"backup" key). intros id _ Hascii Hlen Hget. apply wp_bind, wp_ensure; [intros _|done].
  apply wp_bind, wp_random_bytes. intros nonce w1 Hn _ _ _. cbv zeta. apply wp_bind, wp_some_or; [intros c Hc|done]. apply wp_ret.
  intros e [= <-]. change (magic ++ len id mod 256 :: _) with (header_of magic id nonce). change (magic ++ _ ++ _) with (header_of magic id nonce) in Hc. split; [|unfold header_of; eexists; by rewrite <- app_assoc].
  assert (Hl : length magic = 8%nat) by (by destruct Hm as [-> | ->]).
  destruct (header_read magic id nonce c) as (H1 & H2); [done|by apply ascii_scalar|lia|lia|done| |].
  { rewrite (gcm_tag _ _ _ _ _ Hc). lia. }
  destruct (header_slices magic id nonce c Hl Hn) as (H3 & H4 & H5); [lia|].
  unfold decrypt_envelope. rewrite H1. cbn [mbind result_bind]. rewrite H2. cbn [mbind result_bind]. rewrite Hget. cbn [ok_or mbind result_bind].
  rewrite H3. cbn [mbind result_bind]. rewrite Hn. cbn [Nat.eqb mbind result_bind]. rewrite H4. cbn [mbind result_bind].
  rewrite H5. cbn [mbind result_bind]. by rewrite (gcm_decrypt_encrypt _ _ _ _ _ Hc).
Qed.

(** Contents within the limit are decompressed whole. *)
Lemma zstd_whole n b c : zstd_encode_all b = Some c → (n <? N.of_nat (length b)) = false → zstd_read (n + 1) c = Some b.
Proof. intros Hc Hn. rewrite (zstd_read_encode _ _ _ Hc). reflect. by rewrite take_ge by lia. Qed.

Lemma encode_decode `{!Serde (list StoreRecord)} key previous ring key' previous' ring' s o w :
  keyring_new #"backup" key previous = Ok ring → keyring_new #"backup" key' previous' = Ok ring' → key = key' ∨ key ∈ previous' →
  bs_format_version s = SNAPSHOT_VERSION → mf_content_sha256 (bs_manifest s) = canonical_records_sha256 (bs_records s) →
  wp (encode_snapshot ring s) o w (λ r _, ∀ e, r = Ok e → decode_snapshot ring' e = Ok s ∧ envelope_format_version e = Ok 3).
Proof.
  intros Hring Hring' Hkey Hv Hd. unfold encode_snapshot. apply wp_bind, wp_lift.
  destruct (encode_binary_v3 s) as [b|] eqn:Hb; [|done]. apply wp_bind, wp_ensure; [intros Hmax|done].
  apply wp_bind, wp_some_or; [intros c Hc|done].
  eapply wp_mono; [by apply (decrypt_encrypt key previous ring key' previous' ring'); [| | |left]|].
  intros r w1 Hr e He. destruct (Hr e He) as [Hdec [x ->]]. unfold envelope_format_version. rewrite starts_with_bytes_app. split; [|done].
  unfold decode_snapshot. rewrite starts_with_bytes_app, Hdec. cbn [mbind result_bind]. apply negb_true_iff in Hmax.
  rewrite (zstd_whole _ _ _ Hc Hmax). cbn [ok_or mbind result_bind]. rewrite Hmax. cbn [negb require mbind result_bind].
  apply binary_roundtrip; [done|by eexists|done].
Qed.

(** A sealed snapshot opens under every later key ring.  Let a snapshot be sealed under a
    ring of backup keys.  Then every ring in which its active key is still the active key or
    one of the previous keys opens the envelope to exactly that snapshot. *)
Theorem envelope_roundtrip `{!Serde (list StoreRecord)} key previous ring key' previous' ring' s o w e w' :
  keyring_new #"backup" key previous = Ok ring → keyring_new #"backup" key' previous' = Ok ring' → key = key' ∨ key ∈ previous' →
  bs_format_version s = SNAPSHOT_VERSION → mf_content_sha256 (bs_manifest s) = canonical_records_sha256 (bs_records s) →
  encode_snapshot ring s o w = (Ok e, w') → decode_snapshot ring' e = Ok s.
Proof.
  intros Hring Hring' Hkey Hv Hd He.
  pose proof (encode_decode key previous ring key' previous' ring' s o w Hring Hring' Hkey Hv Hd) as Hw.
  unfold wp in Hw. rewrite He in Hw. by apply Hw.
Qed.

(** ** Arbitrary bytes *)

(** The bytes of an envelope that opens: the header, which is the associated data, and the
    ciphertext, and nothing besides. *)
Definition opened (keys : KeyRing) (e m : list N) : Prop :=
  ∃ magic key_id key nonce c, e = header_of magic key_id nonce ++ c ∧ (magic = MAGIC_V3 ∨ magic = MAGIC_V2) ∧
    0 < len key_id ≤ 255 ∧ length nonce = 12%nat ∧ (16 ≤ length c)%nat ∧ keyring_get keys key_id = Some key ∧
    gcm_decrypt key nonce c (header_of magic key_id nonce) = Some m.

Lemma check_magic_inv e : check_magic e = Ok tt →
  ∃ magic x, e = magic ++ x ∧ (magic = MAGIC_V3 ∨ magic = MAGIC_V2) ∧ length magic = 8%nat ∧ (29 ≤ length x)%nat.
Proof.
  unfold check_magic, supported_magic. intros Hm. ok_inv. apply negb_true_iff, orb_false_iff in Hm as [Hm Hlen].
  apply negb_false_iff, orb_true_iff in Hm.
  assert (∃ magic, (magic = MAGIC_V3 ∨ magic = MAGIC_V2) ∧ take 8 e = magic) as (magic & Hor & Ht).
  { unfold starts_with_bytes in Hm. rewrite !bool_decide_eq_true in Hm. destruct Hm as [Hm|Hm]; eauto. }
  exists magic, (drop 8 e). rewrite <- Ht, take_drop. split_and!; [done|by rewrite Ht| |].
  - rewrite length_take. lia.
  - rewrite length_drop. lia.
Qed.

Lemma check_magic_error e x : check_magic e = Err x → x ≠ EPanic.
Proof.
  unfold check_magic. destruct (negb (starts_with_bytes _ _)); [|intros He; by simplify_eq/=]. cbn [require mbind result_bind].
  destruct (negb _); cbn [require]; intros He; by simplify_eq/=.
Qed.

(** The key id read from arbitrary bytes, which does not panic. *)
Lemma key_id_read e : Forall is_byte e →
  match envelope_key_id e with
  | Ok id => ∃ magic x, e = magic ++ [len id mod 256] ++ bytes id ++ x ∧ (magic = MAGIC_V3 ∨ magic = MAGIC_V2) ∧
      length magic = 8%nat ∧ 0 < len id ≤ 255 ∧ (28 ≤ length x)%nat
  | Err err => err ≠ EPanic
  end.
Proof.
  intros Hb. unfold envelope_key_id. destruct (check_magic e) as [[]|err] eqn:Hm; [|by apply check_magic_error in Hm].
  apply check_magic_inv in Hm as (magic & x & -> & Hor & Hl & Hx). cbn [mbind result_bind].
  destruct x as [|n x]; [cbn in Hx; lia|]. apply Forall_app in Hb as [_ [Hn _]%Forall_cons]. unfold is_byte in Hn.
  assert (Hat : byte_at (magic ++ n :: x) 8 = Ok n).
  { unfold byte_at. rewrite lookup_app_r by (rewrite Hl; done). by rewrite Hl. }
  rewrite Hat. cbn [mbind result_bind]. unfold saturating_add, u64_max. rewrite !N.min_l by lia. rewrite length_app, Hl. cbn [length].
  destruct (negb _) eqn:Hc; [|done]. cbn [require mbind result_bind]. apply negb_true_iff, orb_false_iff in Hc as [Hz Hlen].
  assert (Hcut : x = take (N.to_nat n) x ++ drop (N.to_nat n) x) by (by rewrite take_drop).
  set (text := take (N.to_nat n) x) in *. set (rest := drop (N.to_nat n) x) in *.
  assert (Htext : length text = N.to_nat n) by (unfold text; rewrite length_take; cbn in Hlen; lia).
  assert (Hs : slice (magic ++ n :: x) (8 + 1) (8 + 1 + n) = Ok text).
  { rewrite Hcut. change (n :: text ++ rest) with ([n] ++ text ++ rest). rewrite (app_assoc magic).
    apply slice_app; rewrite !length_app, Hl; cbn [length]; lia. }
  rewrite Hs. cbn [mbind result_bind]. destruct (from_utf8 text) as [id|] eqn:Hid; [|done]. cbn [ok_or].
  pose proof (from_utf8_len _ _ Hid) as Hlid. apply from_utf8_inv in Hid. exists magic, rest. rewrite Hid.
  split_and!; [|done|done|lia|lia|].
  - rewrite Hcut, Hlid, Htext, N2Nat.id, N.mod_small by lia. done.
  - unfold rest. rewrite length_drop. cbn in Hlen. lia.
Qed.

Lemma decrypt_cases keys e : Forall is_byte e →
  match decrypt_envelope keys e with Ok m => opened keys e m | Err err => err ≠ EPanic end.
Proof.
  intros Hb. unfold decrypt_envelope. destruct (check_magic e) as [[]|err] eqn:Hm; [|by apply check_magic_error in Hm].
  cbn [mbind result_bind]. pose proof (key_id_read e Hb) as Hid. destruct (envelope_key_id e) as [id|err]; [|done]. cbn [mbind result_bind].
  destruct (keyring_get keys id) as [key|] eqn:Hkey; [|done]. cbn [ok_or mbind result_bind].
  destruct Hid as (magic & x & -> & Hor & Hl & Hlen & Hx).
  assert (Hcut : x = take 12 x ++ drop 12 x) by (by rewrite take_drop). set (nonce := take 12 x) in *. set (c := drop 12 x) in *.
  assert (Hn : length nonce = 12%nat) by (unfold nonce; rewrite length_take; lia).
  assert (Hc : (16 ≤ length c)%nat) by (unfold c; rewrite length_drop; lia).
  assert (He : magic ++ [len id mod 256] ++ bytes id ++ x = header_of magic id nonce ++ c)
    by (rewrite Hcut; unfold header_of; by rewrite <- !app_assoc).
  rewrite He. destruct (header_slices magic id nonce c Hl Hn) as (H3 & H4 & H5); [lia|].
  rewrite H3. cbn [mbind result_bind]. rewrite Hn. cbn [Nat.eqb mbind result_bind]. rewrite H4. cbn [mbind result_bind].
  rewrite H5. cbn [mbind result_bind]. destruct (gcm_decrypt key nonce c _) as [m|] eqn:Hdec; [|done]. cbn [ok_or].
  exists magic, id, key, nonce, c. done.
Qed.

(** C33: opening a downloaded object never panics, and what it opens is authenticated.  For
    arbitrary bytes, opening either fails with an ordinary error or the bytes are a header
    followed by a ciphertext: the magic of version 2 or 3, the length and text of the id of a
    key in the ring, the nonce; the ciphertext decrypts under that key with the whole header
    as associated data, so no byte is left unauthenticated; and at most 512 MiB of plaintext
    are decompressed. *)
Theorem decode_authenticated keys e : Forall is_byte e →
  match decode_snapshot keys e with
  | Ok s => ∃ m plaintext, opened keys e m ∧ zstd_read (MAX_SNAPSHOT_BYTES + 1) m = Some plaintext ∧
      N.of_nat (length plaintext) ≤ MAX_SNAPSHOT_BYTES
  | Err err => err ≠ EPanic
  end.
Proof.
  intros Hb. unfold decode_snapshot. pose proof (decrypt_cases keys e Hb) as Hd. destruct (decrypt_envelope keys e) as [m|err]; [|done].
  cbn [mbind result_bind]. destruct (zstd_read _ m) as [plaintext|] eqn:Hz; [|done]. cbn [ok_or mbind result_bind].
  destruct (_ <? _) eqn:Hmax; [done|]. cbn [negb require mbind result_bind]. reflect.
  destruct (starts_with_bytes MAGIC_V3 e).
  - unfold decode_binary_v3. destruct (postcard_from_bytes plaintext); [|done]. cbn [ok_or mbind result_bind]. by exists m, plaintext.
  - destruct (_ ≫= _); [|done]. cbn [ok_or]. by exists m, plaintext.
Qed.
End Envelope.
