(* ===== verification/Backups.v ===== *)
(** * Backup objects and their schedule (src/src/backup.rs, src/src/backup/{object,scheduler}.rs, the backup commands of src/src/cli.rs)

    Sealed snapshots are uploaded under keys of the tenant and read back before a receipt is
    given; a worker takes them on a schedule, one at a time, and keeps a status record. *)

From S2P Require Import Prelude Sable Logic Demo Bytes Records Events Identifiers Users Accounts Sessions Organization.
From S2P Require Import ServiceAccounts SigningKeys RemoteMutations Management Fleet FleetConnections FleetRoles System Snapshot.
From S2P Require Import Invitations Touches Credentials Recovery Ceremonies Verification Webhooks ManagementEndpoint BackupSnapshot Envelope.

(** ** Configuration and records *)

Inductive BackupStorageProfile := Immutable | Portable.
#[global] Instance BackupStorageProfile_eq_dec : EqDecision BackupStorageProfile.
Proof. solve_decision. Defined.
Inductive BackupServerSideEncryption := SseProvider | Aes256 | AwsKms.

Definition profile_as_str (p : BackupStorageProfile) : str :=
  match p with Immutable => #"immutable" | Portable => #"portable" end.
Definition sse_as_str (e : BackupServerSideEncryption) : str :=
  match e with SseProvider => #"provider" | Aes256 => #"AES256" | AwsKms => #"aws:kms" end.

(** [BackupStore] without its client, which is [ExtBucket], and its status, which is passed
    along. *)
Record BackupStore := mkBackupStore {
  b_encryption_keys : KeyRing;
  b_interval_seconds : N;
  b_rpo_seconds : N;
  b_retention_days : N;
  b_alert_after_failures : N;
  b_storage_profile : BackupStorageProfile;
  b_server_side_encryption : BackupServerSideEncryption;
  b_sse_kms_key_id : option str
}.

Record BackupReceipt := mkReceipt {
  rc_format_version : N;
  rc_snapshot_id : Uuid;
  rc_object_key : str;
  rc_captured_at : N;
  rc_record_count : N;
  rc_envelope_bytes : N;
  rc_encryption_key_id : str;
  rc_storage_profile : str;
  rc_object_version_id : option str;
  rc_retained_until : option N;
  rc_server_side_encryption : option str
}.

Record BackupObject := mkObject { ob_key : str; ob_size : Z; ob_last_modified : option str }.

Record ObjectPosture := mkPosture {
  p_version_id : option str;
  p_server_side_encryption : option str;
  p_sse_kms_key_id : option str;
  p_object_lock_mode : option str;
  p_retained_until : option N
}.

(** What the object store answers; [go_body] is [None] when the transfer breaks off. *)
Record GetObjectOutput := mkGetOutput {
  go_version_id : option str;
  go_server_side_encryption : option str;
  go_ssekms_key_id : option str;
  go_object_lock_mode : option str;
  go_retain_until_secs : option Z;
  go_content_length : option Z;
  go_body : option (list N)
}.
Record ListedObject := mkListed { lo_key : option str; lo_size : option Z; lo_last_modified : option str }.
Record ListPage := mkPage { lp_contents : list ListedObject; lp_is_truncated : option bool; lp_next_continuation_token : option str }.

(** The S3 client, and two encodings.  Its requests do not touch the datastore. *)
Class ExtBucket `{Env} := {
  (** key, content type, checksum, metadata, body; the version id of the new object *)
  put_object : str → str → str → list (str * str) → list N → M error (option str);
  get_object : str → M error GetObjectOutput;
  list_objects_v2 : str → option str → M error ListPage;
  put_object_frame k t c m b : moves eq (put_object k t c m b);
  get_object_frame k : moves eq (get_object k);
  list_objects_frame p token : moves eq (list_objects_v2 p token);
  (** [STANDARD.encode] *)
  b64_standard : list N → str;
  (** [OffsetDateTime::from_unix_timestamp(seconds)?.format(&Rfc3339)] *)
  rfc3339_seconds : Z → option str;
  rfc3339_no_slash z text : rfc3339_seconds z = Some text → 47 ∉ text
}.

Definition MAX_ENVELOPE_BYTES : N := 256 * 1024 * 1024.
Definition CONTENT_TYPE : str := #"application/vnd.rustyauth.backup.v3".
Definition RETENTION_CLOCK_SKEW_SECONDS : N := 300.

(** ** Checks on objects *)

Definition validate_storage_posture (storage_profile : BackupStorageProfile)
    (server_side_encryption : BackupServerSideEncryption) (sse_kms_key_id : option str) (retention_days : N)
    (object_key : str) (posture : ObjectPosture) (captured_at : N) : result error unit :=
  if contains_str #"/v2/" object_key then Ok tt
  else
    _ ← (if bool_decide (storage_profile = Immutable) then
           _ ← require (match p_version_id posture with Some v => negb (bool_decide (v = [])) | None => false end)
                 "backup object has no version id; bucket versioning is required";
           _ ← require (bool_decide (p_object_lock_mode posture = Some #"COMPLIANCE"))
                 "backup object is not protected by Object Lock compliance mode";
           let expected_until := saturating_sub (saturating_add captured_at (saturating_mul retention_days 86400))
                                   RETENTION_CLOCK_SKEW_SECONDS in
           require (match p_retained_until posture with Some v => negb (v <? expected_until) | None => false end)
             "backup object retention is shorter than configured"
         else Ok tt);
    let expected_sse := sse_as_str server_side_encryption in
    _ ← require (negb (negb (bool_decide (expected_sse = #"provider"))
                       && negb (bool_decide (p_server_side_encryption posture = Some expected_sse))))
          "backup object did not use required server-side encryption";
    match sse_kms_key_id with
    | Some expected_key => require (bool_decide (p_sse_kms_key_id posture = Some expected_key))
                             "backup object did not use the configured SSE-KMS key"
    | None => Ok tt
    end.

Definition check_advertised_length (content_length : option Z) : result error unit :=
  length ← ok_or (EBail "backup object does not advertise a content length") content_length;
  _ ← require (0 <=? length)%Z "backup object advertises a negative content length";
  require (negb (Z.of_N MAX_ENVELOPE_BYTES <? length)%Z) "backup object exceeds the 256 MiB safety limit".

Definition v3_prefix (tenant_id : str) : str := #"rustyauth-backups/v3/" ++ tenant_id ++ #"/".
Definition v2_prefix (tenant_id : str) : str := #"rustyauth-backups/v2/" ++ tenant_id ++ #"/".

Definition validate_object_key (object_key tenant_id : str) : result error unit :=
  require (negb (negb (starts_with (v3_prefix tenant_id) object_key || starts_with (v2_prefix tenant_id) object_key)
                 || contains_str #".." object_key || existsb is_control object_key || negb (ends_with #".rauth" object_key)))
    "backup object key is outside the configured tenant prefix".

(** [validate_tenant_id] of the configuration. *)
Definition validate_tenant_id (value : str) : result error unit :=
  require (negb (bool_decide (value = []) || (64 <? len value)
                 || negb (forallb (λ c, is_ascii_alphanumeric c || (c =? 45) || (c =? 95)) value)))
    "tenant id must contain 1-64 ASCII letters, digits, hyphens or underscores".

(** [n as i64] *)
Definition as_i64 (n : N) : Z := if n <? 2 ^ 63 then Z.of_N n else (Z.of_N n - 2 ^ 64)%Z.

(** [u64::try_from(value.secs()).ok()] *)
Definition secs_u64 (secs : Z) : option N := if (0 <=? secs)%Z then Some (Z.to_N secs) else None.

Definition posture_of (output : GetObjectOutput) : ObjectPosture :=
  mkPosture (go_version_id output) (go_server_side_encryption output) (go_ssekms_key_id output) (go_object_lock_mode output)
    (go_retain_until_secs output ≫= secs_u64).

(** ** Status *)

Record BackupStatus := mkBackupStatus {
  bk_running : bool;
  bk_last_attempt_at : option N;
  bk_last_success_at : option N;
  bk_last_object_key : option str;
  bk_consecutive_failures : N;
  bk_rpo_seconds : N;
  bk_retention_days : N;
  bk_storage_profile : str;
  bk_profile_transition_pending : bool;
  bk_overdue : bool;
  bk_alerting : bool
}.
Definition default_status : BackupStatus := mkBackupStatus false None None None 0 0 0 [] false false false.

Definition BACKUP_STATUS_KEY : str := #"auth:backup:status".

Definition scheduler_initial_delay_seconds (status : BackupStatus) (current_time interval_seconds : N) : N :=
  match bk_last_success_at status with
  | None => 0
  | Some last_success_at =>
      let elapsed := saturating_sub current_time last_success_at in
      saturating_sub interval_seconds (N.min elapsed interval_seconds)
  end.

Definition storage_profile_transition_pending (stored_profile : str) (current_profile : BackupStorageProfile) : bool :=
  let current_profile := profile_as_str current_profile in
  if bool_decide (stored_profile = []) then bool_decide (current_profile = #"portable")
  else negb (bool_decide (stored_profile = current_profile)).

(** ** Which keys are exempt from the posture check *)

Lemma starts_with_cons a p c x : starts_with (a :: p) (c :: x) = (a =? c) && starts_with p x.
Proof. unfold starts_with. cbn [strip_prefix]. by destruct (a =? c). Qed.

Lemma contains_slash_segment p x y : 47 ∉ x → contains_str (47 :: p) (x ++ y) = contains_str (47 :: p) y.
Proof.
  induction x as [|c x IH]; [done|]. intros [Hc Hx]%not_elem_of_cons. cbn [app contains_str]. rewrite IH, starts_with_cons by done.
  by replace (47 =? c) with false by lia.
Qed.

Lemma contains_slash p x : 47 ∉ x → contains_str (47 :: p) x = false.
Proof. intros Hx. by rewrite <- (app_nil_r x), contains_slash_segment. Qed.

Lemma segment_inj (x y x' y' : str) : 47 ∉ x → 47 ∉ x' → x ++ 47 :: y = x' ++ 47 :: y' → x = x' ∧ y = y'.
Proof.
  revert x'. induction x as [|c x IH]; intros [|c' x'] Hx Hx' Heq; simplify_eq/=; [done|set_solver|set_solver|].
  destruct (IH x') as [-> ->]; set_solver.
Qed.

(** The path segments of an uploaded object's key decide: the tenant is the only one that can
    be [v2]. *)
Lemma object_key_exempt t file :
  47 ∉ t → 47 ∉ file → contains_str #"/v2/" (v3_prefix t ++ file) = bool_decide (t = #"v2").
Proof.
  intros Ht Hf. change (#"/v2/") with (47 :: #"v2/"). unfold v3_prefix. change (#"rustyauth-backups/v3/") with
    (#"rustyauth-backups" ++ 47 :: #"v3" ++ [47]). change (#"/") with [47 : N]. rewrite <- !app_assoc. cbn [app].
  rewrite contains_slash_segment by (refine (bool_decide_unpack _ _); vm_compute; exact I). cbn [contains_str]. rewrite starts_with_cons. cbn [N.eqb Pos.eqb andb].
  rewrite <- !app_assoc. rewrite contains_slash_segment by (refine (bool_decide_unpack _ _); vm_compute; exact I). cbn [app contains_str].
  rewrite starts_with_cons. cbn [N.eqb Pos.eqb andb]. rewrite contains_slash_segment by done. cbn [contains_str].
  rewrite starts_with_cons, contains_slash by done. cbn [N.eqb Pos.eqb andb]. rewrite orb_false_r.
  assert (Hno : starts_with #"v2/" file = false).
  { destruct (starts_with #"v2/" file) eqn:Heq; [|done]. apply starts_with_spec in Heq as [x ->]. exfalso. apply Hf. set_solver. }
  rewrite Hno, orb_false_r. replace (starts_with #"v2/" (#"v3" ++ _)) with false by (symmetry; by vm_compute).
  cbn [orb]. apply eq_true_iff_eq. rewrite bool_decide_eq_true, starts_with_spec. split.
  - intros [x Hx]. change (#"v2/" ++ x) with (#"v2" ++ 47 :: x) in Hx. by apply segment_inj in Hx as [-> _];
      [|done|refine (bool_decide_unpack _ _); vm_compute; exact I].
  - intros ->. by exists file.
Qed.

(** [spawn_blocking] and its join error: a panic of the task is an error of the caller. *)
Definition joined {A : Type} (message : String.string) (r : result error A) : result error A :=
  match r with Err EPanic => Err (EBail message) | _ => r end.
#[global] Arguments joined {A} message%_string_scope r.

Section Backups.
Context `{Env, !ExtSigning, !ExtBackup, !ExtBucket}.
Context `{!Serde AuthEvent, !Serde User, !Serde Session, !Serde OrganizationRecord, !Serde OperatorRecord}.
Context `{!Serde ServiceAccountRecord, !Serde ServiceCredentialLocator, !Serde RealmFleetGrantRecord}.
Context `{!Serde FleetOrganizationRecord, !Serde FleetProjectRecord, !Serde FleetEnvironmentRecord}.
Context `{!Serde FleetConnectionRecord, !Serde FleetRoleBindingRecord, !Serde FleetAuditRecord}.
Context `{!Serde FleetIdempotencySnapshot, !Serde (list StoreRecord), !Serde BackupSnapshot}.
Context `{!Serde StoredKeySet, !Serde LegacyStoredKey, !Serde BackupStatus}.
Context (parse_value : str → option Value) (json_get_u64 : Value → str → option N).
Abbreviation validate_snapshot := (validate_snapshot parse_value json_get_u64).
Abbreviation capture := (capture parse_value json_get_u64).

(** ** Objects *)

Definition validate_object_posture (self : BackupStore) (object_key : str) (posture : ObjectPosture) (captured_at : N) :
    result error unit :=
  validate_storage_posture (b_storage_profile self) (b_server_side_encryption self) (b_sse_kms_key_id self)
    (b_retention_days self) object_key posture captured_at.

Definition download_object (self : BackupStore) (object_key tenant_id : str) :
    M error (BackupSnapshot * str * N * ObjectPosture * N) :=
  _ ← lift (validate_object_key object_key tenant_id);
  output ← get_object object_key;
  let posture := posture_of output in
  _ ← lift (check_advertised_length (go_content_length output));
  bytes ← some_or (EBail "read encrypted auth snapshot") (go_body output);
  _ ← ensure (negb (MAX_ENVELOPE_BYTES <? N.of_nat (length bytes))) (EBail "backup object exceeds the 256 MiB safety limit");
  format_version ← lift (envelope_format_version bytes);
  key_id ← lift (envelope_key_id bytes);
  let envelope_bytes := N.of_nat (length bytes) in
  snapshot ← lift (joined "decode backup snapshot"
    (snapshot ← decode_snapshot (b_encryption_keys self) bytes;
     _ ← validate_snapshot snapshot tenant_id;
     Ok snapshot));
  _ ← lift (validate_object_posture self object_key posture (bs_captured_at snapshot));
  mret (snapshot, key_id, envelope_bytes, posture, format_version).

Definition download (self : BackupStore) (object_key tenant_id : str) : M error BackupSnapshot :=
  '(snapshot, _, _, _, _) ← download_object self object_key tenant_id;
  mret snapshot.

Definition verify (self : BackupStore) (object_key tenant_id : str) : M error (BackupReceipt * BackupSnapshot) :=
  '(snapshot, key_id, envelope_bytes, posture, format_version) ← download_object self object_key tenant_id;
  mret (mkReceipt format_version (bs_snapshot_id snapshot) object_key (bs_captured_at snapshot)
          (mf_record_count (bs_manifest snapshot)) envelope_bytes key_id (profile_as_str (b_storage_profile self))
          (p_version_id posture) (p_retained_until posture) (p_server_side_encryption posture),
        snapshot).

(** [text.replace(':', "-")] *)
Definition replace_colons (text : str) : str := (λ c, if c =? 58 then 45 else c) <$> text.

Definition create_inner (self : BackupStore) (tenant_id : str) (master_keys : KeyRing) : M error BackupReceipt :=
  snapshot ← capture tenant_id;
  keyset ← lift (signing_keyset snapshot);
  _ ← lift (validate_snapshot_keyset keyset master_keys);
  let snapshot_id := bs_snapshot_id snapshot in
  let captured_at := bs_captured_at snapshot in
  let record_count := mf_record_count (bs_manifest snapshot) in
  let content_sha256 := mf_content_sha256 (bs_manifest snapshot) in
  encoded ← attempt (encode_snapshot (b_encryption_keys self) snapshot);
  envelope ← lift (joined "encode backup snapshot" encoded);
  _ ← ensure (negb (MAX_ENVELOPE_BYTES <? N.of_nat (length envelope)))
        (EBail "encrypted backup exceeds the 256 MiB object safety limit");
  let checksum := b64_standard (sha256 envelope) in
  text ← some_or (EBail "timestamp is out of range") (rfc3339_seconds (as_i64 captured_at));
  let timestamp := replace_colons text in
  let object_key := v3_prefix tenant_id ++ timestamp ++ #"-" ++ uuid_show snapshot_id ++ #".rauth" in
  let envelope_bytes := N.of_nat (length envelope) in
  let key_id := ke_id (kr_active (b_encryption_keys self)) in
  version_id ← put_object object_key CONTENT_TYPE checksum
    [(#"snapshot-id", uuid_show snapshot_id); (#"key-id", key_id); (#"format-version", #"3");
     (#"scope", #"complete-server-workspace")] envelope;
  _ ← ensure (negb (bool_decide (b_storage_profile self = Immutable) && negb (is_some version_id)))
        (EBail "backup upload did not return an object version id; bucket versioning is required");
  '(downloaded, _, _, posture, format_version) ← download_object self object_key tenant_id;
  _ ← ensure (negb (negb (bool_decide (bs_snapshot_id downloaded = snapshot_id))
                    || negb (bool_decide (mf_content_sha256 (bs_manifest downloaded) = content_sha256))))
        (EBail "uploaded backup failed read-after-write verification");
  mret (mkReceipt format_version snapshot_id object_key captured_at record_count envelope_bytes key_id
          (profile_as_str (b_storage_profile self)) (p_version_id posture) (p_retained_until posture)
          (p_server_side_encryption posture)).

(** The objects of one page. *)
Definition page_objects (page : ListPage) : list BackupObject :=
  omap (λ object, key ← lo_key object; Some (mkObject key (default 0%Z (lo_size object)) (lo_last_modified object)))
    (lp_contents page).

(** The loop, with [fuel] for the number of pages. *)
Fixpoint list_pages (fuel : nat) (prefix : str) (continuation : option str) (objects : list BackupObject) :
    M error (list BackupObject) :=
  match fuel with
  | O => fail (EBail "out of fuel")
  | S fuel =>
      output ← list_objects_v2 prefix continuation;
      let objects := objects ++ page_objects output in
      if negb (default false (lp_is_truncated output)) then mret objects
      else match lp_next_continuation_token output with
           | None => fail (EBail "backup listing was truncated without a continuation token")
           | Some token => list_pages fuel prefix (Some token) objects
           end
  end.

Definition list_prefix (fuel : nat) (prefix : str) : M error (list BackupObject) := list_pages fuel prefix None [].

Definition list_backups (fuel : nat) (tenant_id : str) : M error (list BackupObject) :=
  objects ← list_prefix fuel (v3_prefix tenant_id);
  older ← list_prefix fuel (v2_prefix tenant_id);
  mret (sort_by (λ left right, lex_ltb (ob_key right) (ob_key left)) (objects ++ older)).

(** ** The worker *)

(** The clock is read only when there has been an attempt and a success. *)
Definition evaluate_health (self : BackupStore) (status : BackupStatus) : M error BackupStatus :=
  overdue ← (if is_some (bk_last_attempt_at status) then
               match bk_last_success_at status with
               | None => mret true
               | Some success => t ← now; mret (b_rpo_seconds self <? saturating_sub t success)
               end
             else mret false);
  let alerting := overdue || (b_alert_after_failures self <=? bk_consecutive_failures status) in
  mret (mkBackupStatus (bk_running status) (bk_last_attempt_at status) (bk_last_success_at status) (bk_last_object_key status)
          (bk_consecutive_failures status) (b_rpo_seconds self) (b_retention_days self)
          (profile_as_str (b_storage_profile self)) (bk_profile_transition_pending status) overdue alerting).

Definition backup_status (self : BackupStore) (current : BackupStatus) : M error BackupStatus := evaluate_health self current.

Definition persisted_status (self : BackupStore) : M error BackupStatus :=
  value ← get_json BACKUP_STATUS_KEY;
  let status := default default_status value in
  let pending := storage_profile_transition_pending (bk_storage_profile status) (b_storage_profile self) in
  let status :=
    if pending
    then mkBackupStatus false None None None 0 (bk_rpo_seconds status) (bk_retention_days status) (bk_storage_profile status) pending
           (bk_overdue status) (bk_alerting status)
    else mkBackupStatus (bk_running status) (bk_last_attempt_at status) (bk_last_success_at status) (bk_last_object_key status)
           (bk_consecutive_failures status) (bk_rpo_seconds status) (bk_retention_days status) (bk_storage_profile status) pending
           (bk_overdue status) (bk_alerting status) in
  evaluate_health self status.

Definition hydrate_status (self : BackupStore) (status : BackupStatus) : M error BackupStatus :=
  if is_some (bk_last_attempt_at status) then mret status
  else r ← attempt (E := error) (persisted_status self); mret (match r with Ok stored => stored | Err _ => status end).

(** A failure is only logged. *)
Definition persist_status (status : BackupStatus) : M error unit :=
  _ ← attempt (E := error) (execute [SET BACKUP_STATUS_KEY (to_json status)]);
  mret tt.

(** The status when a run starts and when it ends with [outcome]. *)
Definition started (self : BackupStore) (t : N) (status : BackupStatus) : BackupStatus :=
  mkBackupStatus true (Some t) (bk_last_success_at status) (bk_last_object_key status) (bk_consecutive_failures status)
    (b_rpo_seconds self) (b_retention_days self) (profile_as_str (b_storage_profile self)) false (bk_overdue status)
    (bk_alerting status).
Definition ended (outcome : result error BackupReceipt) (status : BackupStatus) : M error BackupStatus :=
  match outcome with
  | Ok receipt =>
      t ← now;
      mret (mkBackupStatus false (bk_last_attempt_at status) (Some t) (Some (rc_object_key receipt)) 0 (bk_rpo_seconds status)
              (bk_retention_days status) (bk_storage_profile status) (bk_profile_transition_pending status) (bk_overdue status)
              (bk_alerting status))
  | Err _ =>
      mret (mkBackupStatus false (bk_last_attempt_at status) (bk_last_success_at status) (bk_last_object_key status)
              (saturating_add (bk_consecutive_failures status) 1) (bk_rpo_seconds status) (bk_retention_days status)
              (bk_storage_profile status) (bk_profile_transition_pending status) (bk_overdue status) (bk_alerting status))
  end.

(** The status afterwards and the outcome.  [catch_unwind] turns a panic into an error. *)
Definition create (self : BackupStore) (tenant_id : str) (master_keys : KeyRing) (status : BackupStatus) :
    M error (BackupStatus * result error BackupReceipt) :=
  status ← hydrate_status self status;
  lease ← attempt (E := error) acquire_backup_lease;
  match lease with
  | Err e => mret (status, Err e)
  | Ok None => mret (status, Err (EBail "another backup is already running"))
  | Ok (Some lease) =>
      t ← now;
      status ← evaluate_health self (started self t status);
      _ ← persist_status status;
      inner ← attempt (E := error) (create_inner self tenant_id master_keys);
      let outcome := joined "backup task panicked" inner in
      _ ← release_backup_lease lease;
      status ← ended outcome status;
      status ← evaluate_health self status;
      _ ← persist_status status;
      mret (status, outcome)
  end.

(** What [run_scheduler] waits for: a tick, or a change of the shutdown signal, which is
    [None] when its sender is gone. *)
Inductive scheduler_event := Tick | ShutdownChanged (value : option bool).

Fixpoint scheduler_loop (self : BackupStore) (tenant_id : str) (master_keys : KeyRing) (events : list scheduler_event)
    (status : BackupStatus) : M error BackupStatus :=
  match events with
  | [] => mret status
  | Tick :: events =>
      '(status, _) ← create self tenant_id master_keys status;
      scheduler_loop self tenant_id master_keys events status
  | ShutdownChanged value :: events =>
      if default true value then mret status else scheduler_loop self tenant_id master_keys events status
  end.

(** The delay before the first tick, and the status when the worker stops. *)
Definition run_scheduler (self : BackupStore) (tenant_id : str) (master_keys : KeyRing) (events : list scheduler_event)
    (status : BackupStatus) : M error (N * BackupStatus) :=
  status ← hydrate_status self status;
  t ← now;
  let initial_delay := scheduler_initial_delay_seconds status t (b_interval_seconds self) in
  status ← scheduler_loop self tenant_id master_keys events status;
  mret (initial_delay, status).

(** ** The commands *)

Definition backup_verify (self : BackupStore) (tenant_id : str) (master_keys : KeyRing) (object_key : str) : M error BackupReceipt :=
  '(receipt, snapshot) ← verify self object_key tenant_id;
  keyset ← lift (signing_keyset snapshot);
  _ ← lift (validate_snapshot_keyset keyset master_keys);
  mret receipt.

(** [backup restore] up to the last step, and whole; the printed summary is returned. *)
Definition backup_restore_steps (self : BackupStore) (store : Store) (tenant_id : str) (issuer : JwtIssuer) (object_key : str)
    (preserve_sessions : bool) : M error (Uuid * N * N * N * str) :=
  snapshot ← download self object_key tenant_id;
  keyset ← lift (signing_keyset snapshot);
  _ ← lift (validate_snapshot_keyset keyset (ji_master_keys issuer));
  restored ← restore_records (bs_records snapshot) preserve_sessions;
  runtime ← load_or_create issuer;
  '(key_status, _) ← force_rotate issuer runtime true;
  _ ← append_event store #"recovery.restored" None;
  mret (bs_snapshot_id snapshot, bs_captured_at snapshot, mf_record_count (bs_manifest snapshot), restored, active_kid key_status).

Definition backup_restore (self : BackupStore) (store : Store) (tenant_id : str) (issuer : JwtIssuer) (object_key : str)
    (preserve_sessions : bool) : M error (Uuid * N * N * N * str) :=
  summary ← backup_restore_steps self store tenant_id issuer object_key preserve_sessions;
  _ ← complete_restore;
  mret summary.

(** ** Captures *)

Lemma wp_capture t o w (Q : result error BackupSnapshot → world → Prop) :
  (∀ e w', vw w' = vw w → Q (Err e) w') →
  (∀ s w', vw w' = vw w → bs_captured_at s = clock o w → exported o (clock o w) (vw w) (bs_records s) →
     validate_snapshot s t = Ok tt → Q (Ok s) w') →
  wp (capture t) o w Q.
Proof.
  intros He Hok. unfold BackupSnapshot.capture. apply wp_bind, wp_export_records; [by intros; apply He|].
  intros recs w1 Hv1 Hex. unfold from_records. apply wp_bind, wp_lift. destruct (event_sequence_of recs); [|by apply He].
  apply wp_bind, wp_lift. destruct (count_families ∅ recs); [|by apply He]. apply wp_bind, wp_new_v4. intros id w2 Hdb _ _.
  assert (Hv2 : vw w2 = vw w) by (unfold vw in *; congruence). apply wp_bind, wp_lift.
  match goal with |- context [BackupSnapshot.validate_snapshot _ _ ?s _] => destruct (validate_snapshot s t) as [[]|] eqn:Hval; [|by apply He] end.
  apply wp_ret. by apply Hok.
Qed.

Lemma encode_reads ring s : moves eq (encode_snapshot ring s).
Proof. unfold encode_snapshot, encrypt_envelope. destruct (kr_active ring). moves_go. Qed.

(** ** Downloads *)

Record fetched (self : BackupStore) (key t : str) (out : GetObjectOutput) (s : BackupSnapshot) : Prop := {
  ft_key : validate_object_key key t = Ok tt;
  ft_body : ∃ e, go_body out = Some e ∧ N.of_nat (length e) ≤ MAX_ENVELOPE_BYTES ∧ decode_snapshot (b_encryption_keys self) e = Ok s;
  ft_valid : validate_snapshot s t = Ok tt;
  ft_posture : validate_object_posture self key (posture_of out) (bs_captured_at s) = Ok tt
}.

Lemma wp_download_object self key t o w (Q : result error (BackupSnapshot * str * N * ObjectPosture * N) → world → Prop) :
  (∀ e w', vw w' = vw w → Q (Err e) w') →
  (∀ s kid n out v w', vw w' = vw w → (get_object key o w).1 = Ok out → fetched self key t out s →
     Q (Ok (s, kid, n, posture_of out, v)) w') →
  wp (download_object self key t) o w Q.
Proof.
  intros He Hok. unfold download_object. apply wp_bind, wp_lift. destruct (validate_object_key key t) as [[]|] eqn:Hkey; [|by apply He].
  apply wp_bind, wp_reads_run; [apply get_object_frame|]. intros [out|e] w1 Hv1 Hget; [|by apply He]. cbv zeta.
  apply wp_bind, wp_lift. destruct (check_advertised_length _) as [[]|]; [|by apply He].
  apply wp_bind, wp_some_or; [|intros _; by apply He]. intros e Hbody. apply wp_bind, wp_ensure; [intros Hlen|intros _; by apply He].
  apply wp_bind, wp_lift. destruct (envelope_format_version e) as [v|]; [|by apply He].
  apply wp_bind, wp_lift. destruct (envelope_key_id e) as [kid|]; [|by apply He].
  apply wp_bind, wp_lift. destruct (decode_snapshot _ e) as [s|[]] eqn:Hdec; try (by apply He). cbn [mbind result_bind].
  destruct (validate_snapshot s t) as [[]|[]] eqn:Hval; try (by apply He). cbn [mbind result_bind joined].
  apply wp_bind, wp_lift. destruct (validate_object_posture _ _ _ _) as [[]|] eqn:Hp; [|by apply He]. apply wp_ret.
  apply Hok; [done|by rewrite Hget|]. split; [done| |done|done]. exists e. split_and!; [done|by reflect|done].
Qed.

(** ** What a receipt stands for *)

(** The provider keeps the object under compliance lock for the retention period. *)
Definition locked (self : BackupStore) (captured_at : N) (p : ObjectPosture) : Prop :=
  (∃ v, p_version_id p = Some v ∧ v ≠ []) ∧ p_object_lock_mode p = Some #"COMPLIANCE" ∧
  ∃ u, p_retained_until p = Some u ∧
    saturating_add captured_at (saturating_mul (b_retention_days self) 86400) ≤ u + RETENTION_CLOCK_SKEW_SECONDS.

Lemma posture_enforced self key p c :
  validate_object_posture self key p c = Ok tt → contains_str #"/v2/" key = false → b_storage_profile self = Immutable → locked self c p.
Proof.
  unfold validate_object_posture, validate_storage_posture. intros Hp Hv Hi. rewrite Hv, Hi in Hp. ok_inv.
  rename select ((if bool_decide _ then _ else _) = Ok _) into Hl. rewrite bool_decide_eq_true_2 in Hl by done. ok_inv. reflect.
  split_and!.
  - destruct (p_version_id p) as [v|]; [|done]. exists v. split; [done|]. by reflect.
  - done.
  - destruct (p_retained_until p) as [u|]; [|done]. exists u. split; [done|]. reflect. unfold saturating_sub in *. lia.
Qed.

Lemma tenant_no_slash t : validate_tenant_id t = Ok tt → 47 ∉ t.
Proof.
  unfold validate_tenant_id. intros Ht. apply require_Ok in Ht. apply negb_true_iff, orb_false_iff in Ht as [_ Ht].
  apply negb_false_iff in Ht. rewrite forallb_forall in Ht. intros Hin%list_elem_of_In. by specialize (Ht _ Hin).
Qed.

(** What the object store returned for the receipt's key, and the snapshot in it. *)
Record proven (self : BackupStore) (t : str) (s s' : BackupSnapshot) (rc : BackupReceipt) (out : GetObjectOutput) : Prop := {
  pv_fetched : ∃ o w, (get_object (rc_object_key rc) o w).1 = Ok out;
  pv_snapshot : fetched self (rc_object_key rc) t out s';
  pv_key : ∃ file, rc_object_key rc = v3_prefix t ++ file ∧ 47 ∉ file;
  pv_id : bs_snapshot_id s' = bs_snapshot_id s ∧ rc_snapshot_id rc = bs_snapshot_id s;
  pv_digest : canonical_records_sha256 (bs_records s') = canonical_records_sha256 (bs_records s);
  pv_receipt : rc_captured_at rc = bs_captured_at s ∧ rc_record_count rc = N.of_nat (length (bs_records s)) ∧
    rc_retained_until rc = p_retained_until (posture_of out)
}.

Lemma uuid_no_slash id : 47 ∉ uuid_show id.
Proof.
  pose proof (uuid_show_chars id) as Hc. rewrite forallb_forall in Hc. intros Hin%list_elem_of_In. by specialize (Hc _ Hin).
Qed.

Lemma validate_count s t : validate_snapshot s t = Ok tt → mf_record_count (bs_manifest s) = N.of_nat (length (bs_records s)).
Proof. unfold BackupSnapshot.validate_snapshot, validate_format. intros Hv. ok_inv. by reflect. Qed.

Lemma validate_version s t : validate_snapshot s t = Ok tt → bs_format_version s = SNAPSHOT_VERSION.
Proof. unfold BackupSnapshot.validate_snapshot, validate_format. intros Hv. ok_inv. by reflect. Qed.

Lemma wp_create_inner self t mk o w (Q : result error BackupReceipt → world → Prop) :
  (∀ e w', vw w' = vw w → Q (Err e) w') →
  (∀ rc s s' out w', vw w' = vw w → (capture t o w).1 = Ok s → validate_snapshot s t = Ok tt → proven self t s s' rc out → Q (Ok rc) w') →
  wp (create_inner self t mk) o w Q.
Proof.
  intros He Hok. unfold create_inner. apply wp_bind, wp_run, wp_capture; [by intros; apply He|].
  intros s w1 Hv1 _ _ Hval Hcap. pose proof (validate_count _ _ Hval) as Hcount.
  apply wp_bind, wp_lift. destruct (signing_keyset s); [|by apply He]. apply wp_bind, wp_lift.
  destruct (validate_snapshot_keyset _ mk); [|by apply He]. cbv zeta.
  apply wp_bind, wp_attempt, wp_reads; [apply encode_reads|]. intros encoded w2 Hv2. apply wp_bind, wp_lift.
  destruct (joined _ encoded) as [envelope|]; [|apply He; congruence].
  apply wp_bind, wp_ensure; [intros _|intros _; apply He; congruence].
  apply wp_bind, wp_some_or; [|intros _; apply He; congruence]. intros text Htext.
  apply wp_bind, wp_reads; [apply put_object_frame|]. intros [version|e] w3 Hv3; [|apply He; congruence].
  apply wp_bind, wp_ensure; [intros _|intros _; apply He; congruence].
  apply wp_bind, wp_download_object; [intros; apply He; congruence|]. intros s' kid n out v w4 Hv4 Hget Hft.
  apply wp_bind, wp_ensure; [intros Hsame|intros _; apply He; congruence]. apply wp_ret.
  apply negb_true_iff, orb_false_iff in Hsame as [Hid Hdig]. reflect.
  pose proof (validate_parts _ _ _ _ (ft_valid _ _ _ _ _ Hft)) as (_ & _ & Hd' & _). pose proof (validate_parts _ _ _ _ Hval) as (_ & _ & Hd & _).
  apply (Hok _ s s' out); [congruence|by rewrite Hcap|done|]. split; cbn [rc_object_key rc_snapshot_id rc_captured_at rc_record_count rc_retained_until].
  - by exists o, w3.
  - done.
  - eexists. split; [done|]. unfold replace_colons. pose proof (rfc3339_no_slash _ _ Htext) as Hns. pose proof (uuid_no_slash (bs_snapshot_id s)).
    rewrite !elem_of_app. intros [Hin|[Hin|[Hin|Hin]]]; [|by revert Hin; refine (bool_decide_unpack _ _); vm_compute|done|by revert Hin; refine (bool_decide_unpack _ _); vm_compute].
    apply list_elem_of_fmap in Hin as (c & Hc & Hin). destruct (c =? 58) eqn:H58; [done|]. congruence.
  - done.
  - congruence.
  - done.
Qed.

Lemma create_inner_reads self t mk : moves eq (create_inner self t mk).
Proof. intros o w. symmetry. by apply (wp_create_inner self t mk o w (λ _ w', vw w' = vw w)). Qed.

(** C8: a receipt stands for a restorable object.  If a backup run gives a receipt, then the
    datastore is as it was; the object store, asked for the receipt's key, which lies under
    the tenant's prefix, returned an object of at most 256 MiB that opens, under the
    configured keys, to a sound snapshot of that tenant with the identifier of the captured
    one and records of the same digest; and with the immutable profile, for every tenant but
    one named v2, the object has a version and is locked in compliance mode for the retention
    period. *)
Theorem receipt_restorable self t mk o w rc w' :
  create_inner self t mk o w = (Ok rc, w') →
  vw w' = vw w ∧ ∃ s s' out, (capture t o w).1 = Ok s ∧ proven self t s s' rc out ∧ sound_snapshot t s' ∧
    (validate_tenant_id t = Ok tt → t ≠ #"v2" → b_storage_profile self = Immutable → locked self (bs_captured_at s') (posture_of out)).
Proof.
  intros Hrun. set (Q := λ (r : result error BackupReceipt) w', r = Ok rc → vw w' = vw w ∧ ∃ s s' out, (capture t o w).1 = Ok s ∧
    proven self t s s' rc out ∧ sound_snapshot t s' ∧
    (validate_tenant_id t = Ok tt → t ≠ #"v2" → b_storage_profile self = Immutable → locked self (bs_captured_at s') (posture_of out))).
  enough (HQ : wp (create_inner self t mk) o w Q) by (unfold wp in HQ; rewrite Hrun in HQ; by apply HQ).
  apply wp_create_inner; [done|]. intros rc' s s' out w1 Hv Hcap Hval Hp [= ->]. split; [done|]. exists s, s', out.
  destruct (pv_snapshot _ _ _ _ _ _ Hp) as [_ _ Hval' Hpost]. split_and!; [done|done|by eapply validated_sound|].
  intros Ht Hne Hi. destruct (pv_key _ _ _ _ _ _ Hp) as (file & Hkey & Hfile). eapply posture_enforced; [done| |done].
  rewrite Hkey, object_key_exempt by (done || by apply tenant_no_slash). by apply bool_decide_eq_false.
Qed.

(** ** Recovery from a sealed backup *)

Lemma exported_size o c m recs : exported o c m recs → N.of_nat (length recs) ≤ N.of_nat (size m).
Proof.
  intros [Hs Hrec _ _]. pose proof (by_key_nodup _ Hs) as Hnd. rewrite <- (length_fmap sr_key).
  assert (Hsub : list_to_set (sr_key <$> recs) ⊆@{gset str} dom m).
  { intros k (r & -> & Hr)%elem_of_list_to_set%list_elem_of_fmap. destruct (Hrec r Hr) as (_ & e & He & _). by eapply elem_of_dom_2. }
  apply subseteq_size in Hsub. rewrite size_list_to_set, size_dom in Hsub by done. lia.
Qed.

(** C7: a backup brings the realm back.  Let a snapshot of a consistent realm within the size
    limits be captured and sealed.  Under every ring that still has the sealing key the
    envelope opens to a snapshot that passes validation; restoring it into a new datastore
    with every round trip delivered succeeds; and the realm is consistent again, with every
    account under its identifier (and, unless sessions are kept, its session version raised,
    so that no token authenticates) and every other durable record with its value. *)
Theorem disaster_recovery key previous ring key' previous' ring' t p o1 w1 s w1' o2 w2 e w2' o3 w3 :
  keyring_new #"backup" key previous = Ok ring → keyring_new #"backup" key' previous' = Ok ring' → key = key' ∨ key ∈ previous' →
  system_ok (vw w1) → ¬ oversized (vw w1) → N.of_nat (size (vw w1)) ≤ MAX_SNAPSHOT_KEYS →
  capture t o1 w1 = (Ok s, w1') → encode_snapshot ring s o2 w2 = (Ok e, w2') → reliable o3 → vw w3 = ∅ →
  ∃ s' n, decode_snapshot ring' e = Ok s' ∧ validate_snapshot s' t = Ok tt ∧
    let '(r, w') := restore_records (bs_records s') p o3 w3 in
    r = Ok n ∧ system_ok (vw w') ∧
    (∀ id u, stored_user (vw w1) id u → stored_user (vw w') id (restored_user p u)) ∧
    (∀ k v, vw w1 !! k = Some (Entry v None) → managed k = true → snapshot_key_policy k = Ok Include →
       starts_with #"auth:user:" k = false → starts_with #"auth:session:" k && negb p = false →
       vw w' !! k = Some (Entry v None)) ∧
    (p = false → ∀ token idle o x touches, (session token idle o w').1 ≠ Ok (Some x, touches)).
Proof.
  intros Hring Hring' Hkey Hsys Hsize Hcount Hcap Henc Hrel Hempty.
  assert (exported o1 (clock o1 w1) (vw w1) (bs_records s) ∧ validate_snapshot s t = Ok tt) as [Hex Hval].
  { enough (Hw : wp (capture t) o1 w1 (λ r _, r = Ok s → exported o1 (clock o1 w1) (vw w1) (bs_records s) ∧ validate_snapshot s t = Ok tt))
      by (unfold wp in Hw; rewrite Hcap in Hw; by apply Hw).
    apply wp_capture; [done|]. by intros s' w' _ _ Hx Hv [= <-]. }
  pose proof (validate_parts _ _ _ _ Hval) as (_ & _ & Hd & _).
  assert (Hver : bs_format_version s = SNAPSHOT_VERSION) by (by eapply validate_version).
  pose proof (encode_decode key previous ring key' previous' ring' s o2 w2 Hring Hring' Hkey Hver Hd) as Hdec.
  unfold wp in Hdec. rewrite Henc in Hdec. destruct (Hdec e eq_refl) as [Hopen _].
  assert (Hok : is_ok (restore_records (bs_records s) p o3 w3).1 = true).
  { eapply validated_snapshot_restores; [done| | |done|done].
    - pose proof (exported_size _ _ _ _ Hex). lia.
    - intros r Hr. destruct (ex_record _ _ _ _ Hex r Hr) as (_ & x & Hx & Hv & _). destruct (N.leb_spec (len (sr_value r)) MAX_SNAPSHOT_VALUE_BYTES); [done|].
      destruct Hsize. exists (sr_key r), x. split; [done|]. congruence. }
  destruct (restore_records (bs_records s) p o3 w3) as [[n|x] w'] eqn:Hre; [|done].
  destruct (exported_restores p o1 (clock o1 w1) (vw w1) (bs_records s) o3 w3 n Hex Hempty) as (Hsys3 & Husers & Hcopies & _ & Htokens); [by rewrite Hre|done|].
  exists s, n. split_and!; [done|done|]. rewrite Hre in *. done.
Qed.

(** ** The worker's bookkeeping *)

(** All round trips happen within an hour of each other. *)
Definition prompt_trips (o : oracle) : Prop := ∀ i j, t_at (o_trip o i) < t_at (o_trip o j) + 3600.

Lemma wp_acquire_backup_lease o w (Q : result error (option str) → world → Prop) :
  (∀ w', ¬ reliable o → Q (Err EDb) w') →
  (∀ w', vw w' = vw w → (∃ t, is_Some (live t (vw w) BACKUP_LEASE_KEY)) → Q (Ok None) w') →
  (∀ token i w', vw w' = <[BACKUP_LEASE_KEY := Entry token (Some (t_at (o_trip o i) + 3600))]> (vw w) → Q (Ok (Some token)) w') →
  wp acquire_backup_lease o w Q.
Proof.
  intros He Hnone Hsome. unfold acquire_backup_lease. apply wp_bind, wp_new_v4. intros id w1 Hdb _ _.
  assert (Hv1 : vw w1 = vw w) by (unfold vw; by rewrite Hdb). cbv zeta. apply wp_bind, wp_query.
  { intros d Hd _. apply He. by eapply not_delivered. }
  intros d _ Hd. rewrite Hv1 in Hd. simpl in *. rewrite Hv1.
  destruct (live (trip_time o w1) (vw w) BACKUP_LEASE_KEY) as [v|] eqn:Hl; simpl in *.
  - apply wp_ret, Hnone; [done|]. exists (trip_time o w1). by rewrite Hl.
  - apply wp_ret. by eapply Hsome.
Qed.

Lemma wp_release_backup_lease token o w (Q : result error unit → world → Prop) :
  (∀ w', (∀ k, k ≠ BACKUP_LEASE_KEY → vw w' !! k = vw w !! k) →
     (∀ i, reliable o → prompt_trips o → vw w !! BACKUP_LEASE_KEY = Some (Entry token (Some (t_at (o_trip o i) + 3600))) →
        vw w' !! BACKUP_LEASE_KEY = None) → Q (Ok tt) w') →
  wp (release_backup_lease token) o w Q.
Proof.
  intros HQ. unfold release_backup_lease. apply wp_bind, wp_attempt, wp_query.
  - intros d Hd Hv. apply wp_ret, HQ.
    + intros k Hk. change (vw (after_trip w d)) with (db_view d). destruct Hv as [-> | ->]; [done|]. simpl.
      destruct (live _ _ _); simpl; [|done]. case_bool_decide; simpl; [by apply lookup_delete_ne|done].
    + intros i Hrel. by destruct (not_delivered _ _ Hd Hrel).
  - intros d _ Hv. cbv zeta. assert (Hframe : ∀ k, k ≠ BACKUP_LEASE_KEY → db_view d !! k = vw w !! k).
    { intros k Hk. rewrite Hv. simpl. destruct (live _ _ _); simpl; [|done]. case_bool_decide; simpl; [by apply lookup_delete_ne|done]. }
    apply wp_ret, HQ; [done|]. intros i _ Hp Hlease. change (vw (after_trip w d)) with (db_view d). rewrite Hv. simpl.
    assert (Hl : live (trip_time o w) (vw w) BACKUP_LEASE_KEY = Some token).
    { unfold live. rewrite Hlease. cbn. unfold expired. cbn. specialize (Hp (w_trip w) i). unfold trip_time. by replace (_ <=? _) with false by lia. }
    rewrite Hl. simpl. rewrite bool_decide_eq_true_2 by done. apply lookup_delete_eq.
Qed.

Definition evaluated (self : BackupStore) (overdue : bool) (st : BackupStatus) : BackupStatus :=
  mkBackupStatus (bk_running st) (bk_last_attempt_at st) (bk_last_success_at st) (bk_last_object_key st) (bk_consecutive_failures st)
    (b_rpo_seconds self) (b_retention_days self) (profile_as_str (b_storage_profile self)) (bk_profile_transition_pending st)
    overdue (overdue || (b_alert_after_failures self <=? bk_consecutive_failures st)).

Lemma wp_evaluate_health self st o w (Q : result error BackupStatus → world → Prop) :
  (∀ overdue w', vw w' = vw w → Q (Ok (evaluated self overdue st)) w') → wp (evaluate_health self st) o w Q.
Proof.
  intros HQ. unfold evaluate_health. apply wp_bind. destruct (is_some _); [|apply wp_ret, wp_ret; by apply HQ].
  assert (Hend : ∀ overdue w', vw w' = vw w → Q (Ok (evaluated self overdue st)) w') by done. unfold evaluated in Hend.
  destruct (bk_last_success_at st); [apply wp_bind, wp_now|]; apply wp_ret, wp_ret; by apply Hend.
Qed.

Lemma wp_persist_status st o w (Q : result error unit → world → Prop) :
  (∀ w', (∀ k, k ≠ BACKUP_STATUS_KEY → vw w' !! k = vw w !! k) →
     (reliable o → vw w' !! BACKUP_STATUS_KEY = Some (Entry (to_json st) None)) → Q (Ok tt) w') →
  wp (persist_status st) o w Q.
Proof.
  intros HQ. unfold persist_status. apply wp_bind, wp_attempt, wp_execute_view.
  - intros w' t Hf Hv. apply wp_ret, HQ.
    + intros k Hk. destruct Hv as [-> | ->]; [done|]. by apply lookup_insert_ne.
    + intros Hr. by destruct Hf.
  - intros w' t _ Hv. apply wp_ret, HQ; [|intros _; rewrite Hv; apply lookup_insert_eq]. intros k Hk. rewrite Hv. by apply lookup_insert_ne.
Qed.

Lemma evaluate_reads self st : moves eq (evaluate_health self st).
Proof. unfold evaluate_health. moves_go. Qed.
Hint Resolve evaluate_reads : moves.
Lemma persisted_reads self : moves eq (persisted_status self).
Proof. unfold persisted_status. moves_go. Qed.
Hint Resolve persisted_reads : moves.
Lemma hydrate_reads self st : moves eq (hydrate_status self st).
Proof. unfold hydrate_status. moves_go. Qed.

Lemma wp_hydrate self st o w (Q : result error BackupStatus → world → Prop) :
  (∀ st0 w', vw w' = vw w → (is_Some (bk_last_attempt_at st) → st0 = st) → Q (Ok st0) w') → wp (hydrate_status self st) o w Q.
Proof.
  intros HQ. apply wp_reads_run; [apply hydrate_reads|]. intros r w' Hv. unfold hydrate_status.
  destruct (is_some (bk_last_attempt_at st)) eqn:Ha; [intros [= <- <-]; by apply HQ|].
  intros Hrun. assert (∃ st0, r = Ok st0) as [st0 ->].
  { revert Hrun. unfold attempt, mbind, M_bind. destruct (persisted_status self o w) as [r' w1]. intros [= <- _]. eauto. }
  apply HQ; [done|]. intros [x Hx]. by rewrite Hx in Ha.
Qed.

(** What a run that got the lease leaves of the status. *)
Record settled (self : BackupStore) (st0 : BackupStatus) (r : result error BackupReceipt) (st' : BackupStatus) : Prop := {
  sd_running : bk_running st' = false;
  sd_attempt : is_Some (bk_last_attempt_at st');
  sd_outcome :
    match r with
    | Ok rc => bk_consecutive_failures st' = 0 ∧ is_Some (bk_last_success_at st') ∧ bk_last_object_key st' = Some (rc_object_key rc)
    | Err _ => bk_consecutive_failures st' = saturating_add (bk_consecutive_failures st0) 1 ∧
        bk_last_success_at st' = bk_last_success_at st0 ∧ bk_last_object_key st' = bk_last_object_key st0
    end;
  sd_alerting : bk_alerting st' = bk_overdue st' || (b_alert_after_failures self <=? bk_consecutive_failures st')
}.

Lemma joined_no_panic {A : Type} msg (r : result error A) : joined msg r ≠ Err EPanic.
Proof. by destruct r as [|[]]. Qed.


(** ** The restore command *)

Definition is_sentinel (k : str) : bool := bool_decide (k = RESTORE_SENTINEL).

Lemma sentinel_off_log : off_log is_sentinel.
Proof. intros k Hk. apply bool_decide_eq_true in Hk as ->. reflexivity. Qed.

Lemma leaves_reads {A : Type} P (m : M error A) : moves eq m → leaves P m.
Proof. intros Hm. eapply moves_mono; [|exact Hm]. by intros ?? ->. Qed.

Lemma maintain_leaves issuer rt c f a : leaves is_sentinel (maintain_at issuer rt c f a).
Proof.
  assert (Hread : leaves is_sentinel read_keyset) by (apply leaves_reads; unfold read_keyset; moves_go).
  assert (Hwork : leaves is_sentinel (maintain_while_locked issuer c f a)).
  { unfold maintain_while_locked, leaves. moves_go; first [apply leaves_reads, maintain_keyset_reads|by apply leaves_execute]. }
  unfold maintain_at, acquire_maintenance_lock, release_maintenance_lock, leaves. moves_go.
  all: first [by apply leaves_query|by apply moves_attempt, leaves_query].
Qed.

Lemma load_or_create_leaves issuer : leaves is_sentinel (load_or_create issuer).
Proof.
  unfold load_or_create, load_or_create_keyset, migrate_legacy, read_keyset, set_nx, leaves. moves_go.
  all: first [apply maintain_leaves|by apply leaves_query|apply leaves_reads; first [apply seal_private_key_reads|apply generate_reads]].
Qed.

Lemma force_rotate_leaves issuer rt a : leaves is_sentinel (force_rotate issuer rt a).
Proof.
  unfold force_rotate, stored_status, read_keyset, leaves. moves_go. apply maintain_leaves.
Qed.

Lemma marked_leaves {A : Type} (m : M error A) o w (Q : result error A → world → Prop) :
  leaves is_sentinel m → marked (vw w) → (∀ r w', marked (vw w') → Q r w') → wp m o w Q.
Proof.
  intros Hm [v Hv] HQ. apply HQ. exists v. rewrite (Hm o w RESTORE_SENTINEL); [done|]. by apply bool_decide_eq_true.
Qed.

(** C21: a restore is whole or it is noticed.  Whatever is lost on the way, after the command
    either the datastore is as it was, or the in-progress marker is there and start-up
    refuses the datastore, or every step of the restore succeeded (the snapshot was
    downloaded and validated, its records written, the signing key replaced, the event
    appended) and exactly the marker has been removed since.  When the command succeeds it is
    the last of these. *)
Theorem restore_whole_or_noticed self store t issuer key p o w :
  let '(r, w') := backup_restore self store t issuer key p o w in
  (vw w' = vw w ∧ is_ok r = false) ∨
  (marked (vw w') ∧ (∀ o', (ensure_restore_complete o' w').1 ≠ Ok tt) ∧ is_ok r = false) ∨
  ∃ summary w1, backup_restore_steps self store t issuer key p o w = (Ok summary, w1) ∧ marked (vw w1) ∧
    vw w' = delete RESTORE_SENTINEL (vw w1).
Proof.
  assert (Hsteps : wp (backup_restore_steps self store t issuer key p) o w (λ r w1,
    match r with Ok _ => marked (vw w1) | Err _ => vw w1 = vw w ∨ marked (vw w1) end)).
  { unfold backup_restore_steps, download. apply wp_bind, wp_bind, wp_download_object; [by left|]. intros s kid n out v w1 Hv1 _ _. apply wp_ret.
    apply wp_bind, wp_lift. destruct (signing_keyset s); [|by left]. apply wp_bind, wp_lift.
    destruct (validate_snapshot_keyset _ _); [|by left]. apply wp_bind, wp_restore_records.
    { intros e w2 [Hv2|Hm] _; [left; congruence|by right]. }
    intros n2 w2 c2 t2 _ Hm _. apply wp_bind, (marked_leaves _ _ _ _ (load_or_create_leaves _) Hm). intros [rt|e] w3 Hm3; [|by right].
    apply wp_bind, (marked_leaves _ _ _ _ (force_rotate_leaves _ _ _) Hm3). intros [[st rt']|e] w4 Hm4; [|by right].
    apply wp_bind, (marked_leaves _ _ _ _ (leaves_append is_sentinel _ _ _ sentinel_off_log) Hm4). intros [ev|e] w5 Hm5; [|by right]. by apply wp_ret. }
  unfold backup_restore, wp in *. unfold mbind at 1, M_bind at 1.
  destruct (backup_restore_steps self store t issuer key p o w) as [[summary|e] w1] eqn:Hrun; cbn [fst snd] in Hsteps.
  2: { destruct Hsteps as [Hv|Hm]; [by left|right; left]. split_and!; [done| |done]. intros o'. by apply marked_not_complete. }
  set (Q := λ (r : result error (Uuid * N * N * N * str)) w', (marked (vw w') ∧ (∀ o', (ensure_restore_complete o' w').1 ≠ Ok tt) ∧ is_ok r = false) ∨
     vw w' = delete RESTORE_SENTINEL (vw w1)).
  enough (HQ : wp (_ ← complete_restore; mret summary) o w1 Q).
  { destruct ((_ ← complete_restore; mret summary) o w1) as [r w'] eqn:Hc. unfold wp in HQ. rewrite Hc in HQ.
    destruct HQ as [Hm|Hd]; [right; by left|right; right]. by exists summary, w1. }
  unfold complete_restore. apply wp_bind, wp_execute_view.
  - intros w' t' _ [Hv|Hv]; [left|by right]. rewrite <- Hv in Hsteps. split_and!; [done| |done]. intros o'. by apply marked_not_complete.
  - intros w' t' _ Hv. apply wp_ret. by right.
Qed.

(** ** Listing *)

(** The object store serves the listing of [prefix] from [token] on in these pages. *)
Inductive paged (prefix : str) (o : oracle) : option str → list ListPage → Prop :=
  | paged_last token page :
      (∀ w, (list_objects_v2 prefix token o w).1 = Ok page) → default false (lp_is_truncated page) = false → paged prefix o token [page]
  | paged_more token page next pages :
      (∀ w, (list_objects_v2 prefix token o w).1 = Ok page) → lp_is_truncated page = Some true →
      lp_next_continuation_token page = Some next → paged prefix o (Some next) pages → paged prefix o token (page :: pages).

Lemma list_pages_complete fuel prefix token objects pages o w :
  paged prefix o token pages → (length pages ≤ fuel)%nat →
  (list_pages fuel prefix token objects o w).1 = Ok (objects ++ concat (page_objects <$> pages)).
Proof.
  intros Hp. revert fuel objects w. induction Hp as [token page Hl Ht|token page next pages Hl Ht Hn Hp IH]; intros [|fuel] objects w Hf;
    [cbn in Hf; lia| |cbn in Hf; lia|]; cbn [list_pages]; unfold mbind, M_bind; specialize (Hl w).
  - destruct (list_objects_v2 prefix token o w) as [r w1]. cbn in Hl. subst r. rewrite Ht. cbn. by rewrite app_nil_r.
  - destruct (list_objects_v2 prefix token o w) as [r w1]. cbn in Hl. subst r. rewrite Ht, Hn. cbn [default negb].
    change (negb (id true)) with false. cbn beta iota. rewrite IH by (cbn in Hf; lia). cbn. by rewrite app_assoc.
Qed.

(** The loop of [list_prefix] ends and returns every object of every page. *)
Theorem list_prefix_complete prefix pages o w :
  paged prefix o None pages → (list_prefix (length pages) prefix o w).1 = Ok (concat (page_objects <$> pages)).
Proof. intros Hp. by apply (list_pages_complete (length pages) prefix None []). Qed.

(** ** The schedule *)

(** After a restart the next run is due one interval after the last success, at once when
    that has passed or when there has been none. *)
Theorem schedule_resumed status t interval :
  let delay := scheduler_initial_delay_seconds status t interval in
  delay ≤ interval ∧
  match bk_last_success_at status with
  | None => delay = 0
  | Some last => if last + interval <=? t then delay = 0 else last ≤ t → t + delay = last + interval
  end.
Proof.
  cbv zeta. unfold scheduler_initial_delay_seconds, saturating_sub. destruct (bk_last_success_at status) as [last|]; [|split; lia].
  destruct (last + interval <=? t) eqn:Hd; lia.
Qed.
End Backups.

(** ** Witnesses *)

Module DemoBackups.
Import DemoEnv DemoFleet DemoRoles DemoSigning DemoConnections DemoManagement DemoSnapshot DemoBackup.

#[export] Program Instance codec_families : Codec (gmap str N) :=
  codec_iso (A := list (str * N)) map_to_list (λ l, Some (list_to_map l)) _.
Next Obligation. intros m. cbn beta. f_equal. apply list_to_map_to_list. Qed.

#[export] Program Instance codec_binary : Codec BinarySnapshotV3 :=
  codec_iso (λ b : BinarySnapshotV3, (bv_snapshot_id b, (bv_tenant_id b, (bv_captured_at b, (bv_records b, (bv_record_count b,
      (bv_content_sha256 b, (bv_key_families b, bv_event_sequence b))))))))
    (λ '(a, (b, (c, (d, (e, (f, (g, h))))))), Some (mkBinary a b c d e f g h)) _.
Next Obligation. by intros []. Qed.

#[export] Program Instance codec_manifest : Codec SnapshotManifest :=
  codec_iso (λ m : SnapshotManifest, (mf_record_count m, (mf_content_sha256 m, (mf_key_families m, mf_event_sequence m))))
    (λ '(a, (b, (c, d))), Some (mkManifest a b c d)) _.
Next Obligation. by intros []. Qed.

#[export] Program Instance codec_snapshot : Codec BackupSnapshot :=
  codec_iso (λ s : BackupSnapshot, (bs_format_version s, (bs_snapshot_id s, (bs_tenant_id s, (bs_captured_at s, (bs_records s, bs_manifest s))))))
    (λ '(a, (b, (c, (d, (e, f))))), Some (mkSnapshot a b c d e f)) _.
Next Obligation. by intros []. Qed.

#[export] Program Instance codec_backup_status : Codec BackupStatus :=
  codec_iso (λ s : BackupStatus, (bk_running s, (bk_last_attempt_at s, (bk_last_success_at s, (bk_last_object_key s, (bk_consecutive_failures s,
      (bk_rpo_seconds s, (bk_retention_days s, (bk_storage_profile s, (bk_profile_transition_pending s, (bk_overdue s, bk_alerting s)))))))))))
    (λ '(a, (b, (c, (d, (e, (f, (g, (h, (i, (j, k)))))))))), Some (mkBackupStatus a b c d e f g h i j k)) _.
Next Obligation. by intros []. Qed.

(** No compression, and sealing that only appends a tag. *)
Definition demo_zstd_read (n : N) (b : list N) : list N := if N.of_nat (length b) <=? n then b else take (N.to_nat n) b.
Definition demo_open (c : list N) : list N := take (length c - 16) c.

#[export] Program Instance demo_backup : ExtBackup :=
  {| postcard_to_vec s := Some (enc s); postcard_from_bytes := decode_all; zstd_encode_all := Some;
     zstd_read n b := Some (demo_zstd_read n b);
     gcm_encrypt _ _ m _ := Some (m ++ replicate 16 0); gcm_decrypt _ _ c _ := Some (demo_open c) |}.
Next Obligation. intros s b [= <-]. exact (from_to_json s). Qed.
Next Obligation.
  intros n b c [= <-]. unfold demo_zstd_read. destruct (N.leb_spec (N.of_nat (length b)) n); [|done]. by rewrite take_ge by lia.
Qed.
Next Obligation.
  intros k n m a c [= <-]. cbn beta. unfold demo_open. rewrite length_app. cbn [length replicate]. rewrite Nat.add_sub. by rewrite take_app_length.
Qed.
Next Obligation. intros k n m a c [= <-]. by rewrite length_app. Qed.

(** A bucket with one object. *)
Program Definition bucket_of (body : list N) : ExtBucket :=
  {| put_object _ _ _ _ _ := mret (Some #"1");
     get_object _ := mret (mkGetOutput (Some #"1") (Some #"AES256") None (Some #"COMPLIANCE") (Some 1000000%Z) (Some (Z.of_nat (length body))) (Some body));
     list_objects_v2 _ _ := mret (mkPage [] None None);
     b64_standard _ := []; rfc3339_seconds z := Some (show_u64 (Z.to_N z)) |}.
Next Obligation. intros. apply moves_ret, _. Qed.
Next Obligation. intros. apply moves_ret, _. Qed.
Next Obligation. intros. apply moves_ret, _. Qed.
Next Obligation.
  intros body z text [= <-]. pose proof (show_u64_digits (Z.to_N z)) as Hd. rewrite Forall_forall in Hd. intros Hin. specialize (Hd _ Hin). lia.
Qed.

(** The realm with one account and a valid set of signing keys. *)
Definition demo_source : world := Eval vm_compute in (execute [SET KEYSET_KEY (to_json demo_keyset)] demo_oracle demo_realm).2.
Definition demo_sealing_ring : KeyRing := mkKeyRing (mkKeyEntry (derived_key_id #"backup" (replicate 32 9)) (replicate 32 9)) [].
Definition demo_later_ring : KeyRing :=
  Eval vm_compute in match keyring_new #"backup" (replicate 32 8) [replicate 32 9] with Ok r => r | Err _ => demo_sealing_ring end.
Abbreviation demo_taken := (capture (λ _, None) (λ _ _, None) #"demo" demo_oracle demo_source).
Definition demo_taken_snapshot : BackupSnapshot := Eval vm_compute in match demo_taken.1 with Ok s => s | Err _ => demo_snapshot end.
Abbreviation demo_sealing := (encode_snapshot demo_sealing_ring demo_taken_snapshot demo_oracle demo_taken.2).
Definition demo_envelope : list N := Eval vm_compute in match demo_sealing.1 with Ok e => e | Err _ => [] end.

Lemma envelope_roundtrip_witness :
  (demo_envelope ≠ []) ∧ decode_snapshot demo_later_ring demo_envelope = Ok demo_taken_snapshot.
Proof.
  split; [by vm_compute|].
  apply (envelope_roundtrip (replicate 32 9) [] demo_sealing_ring (replicate 32 8) [replicate 32 9] demo_later_ring demo_taken_snapshot
    demo_oracle demo_taken.2 demo_envelope demo_sealing.2).
  - reflexivity.
  - eval_eq.
  - right. by left.
  - reflexivity.
  - eval_eq.
  - eval_eq.
Defined.

(** An envelope without contents opens, and is then refused by the decoder. *)
Definition demo_empty_envelope : list N :=
  header_of MAGIC_V3 (derived_key_id #"backup" (replicate 32 9)) (replicate 12 1) ++ replicate 16 0.
Lemma decode_authenticated_witness :
  decrypt_envelope demo_later_ring demo_empty_envelope = Ok [] ∧
  match decode_snapshot demo_later_ring demo_empty_envelope with
  | Ok s => ∃ m plaintext, opened demo_later_ring demo_empty_envelope m ∧ zstd_read (MAX_SNAPSHOT_BYTES + 1) m = Some plaintext ∧
      N.of_nat (length plaintext) ≤ MAX_SNAPSHOT_BYTES
  | Err err => err ≠ EPanic
  end.
Proof.
  split; [eval_eq|]. apply (decode_authenticated demo_later_ring demo_empty_envelope). apply all_bytes_spec. eval_eq.
Defined.

Definition demo_backup_store : BackupStore := mkBackupStore demo_sealing_ring 3600 7200 1 3 Immutable Aes256 None.
#[local] Instance demo_bucket : ExtBucket := bucket_of demo_envelope.
Abbreviation demo_run :=
  (create_inner (λ _, None) (λ _ _, None) demo_backup_store #"demo" demo_ring demo_oracle demo_source).

Lemma receipt_restorable_witness :
  is_ok demo_run.1 = true ∧
  ∃ rc s s' out, demo_run.1 = Ok rc ∧ proven (λ _, None) (λ _ _, None) demo_backup_store #"demo" s s' rc out ∧
    sound_snapshot #"demo" s' ∧ locked demo_backup_store (bs_captured_at s') (posture_of out).
Proof.
  assert (He : is_ok demo_run.1 = true) by eval_eq. split; [exact He|]. destruct (is_ok_run _ He) as [rc Hrc].
  destruct (receipt_restorable (λ _, None) (λ _ _, None) demo_backup_store #"demo" demo_ring demo_oracle demo_source rc demo_run.2 Hrc)
    as (_ & s & s' & out & _ & Hp & Hs & Hl).
  exists rc, s, s', out. split_and!; [by rewrite Hrc|exact Hp|exact Hs|]. apply Hl; [reflexivity|by vm_compute|reflexivity].
Defined.

Lemma demo_source_ok : system_ok (vw demo_source).
Proof.
  apply (system_step_ok demo_store demo_realm); [|exact demo_realm_ok]. apply step_foreign.
  assert (demo_source = (execute [SET KEYSET_KEY (to_json demo_keyset)] demo_oracle demo_realm).2) as -> by eval_eq.
  intros k Hk. assert (Hne : KEYSET_KEY ≠ k) by (by intros <-; destruct Hk).
  apply (wp_execute_inv (λ m, m !! k = vw demo_realm !! k)); [done|]. intros t. by apply lookup_insert_ne.
Qed.

Lemma demo_source_sizes : ¬ oversized (vw demo_source).
Proof.
  intros (k & e & He & Hlen). assert (Hno : ¬ refused (vw demo_source)) by (apply refusedb_spec; eval_eq).
  apply Hno. left. by exists k, e.
Qed.

Lemma disaster_recovery_witness :
  ∃ s' n, decode_snapshot demo_later_ring demo_envelope = Ok s' ∧
    let '(r, w') := restore_records (bs_records s') false demo_oracle (demo_world []) in
    r = Ok n ∧ system_ok (vw w') ∧ stored_user (vw w') demo_id (restored_user false demo_user).
Proof.
  destruct (disaster_recovery (λ _, None) (λ _ _, None) (replicate 32 9) [] demo_sealing_ring (replicate 32 8) [replicate 32 9] demo_later_ring
    #"demo" false demo_oracle demo_source demo_taken_snapshot demo_taken.2 demo_oracle demo_taken.2 demo_envelope demo_sealing.2
    demo_oracle (demo_world [])) as (s' & n & Hd & _ & Hr).
  - reflexivity.
  - eval_eq.
  - right. by left.
  - exact demo_source_ok.
  - exact demo_source_sizes.
  - by vm_compute.
  - eval_eq.
  - eval_eq.
  - exact demo_reliable.
  - reflexivity.
  - exists s', n. split; [exact Hd|]. destruct (restore_records (bs_records s') false demo_oracle (demo_world [])) as [r w'].
    destruct Hr as (Hn & Hs & Hu & _). split_and!; [exact Hn|exact Hs|]. apply Hu. exists (to_json demo_user), demo_user. split_and!; eval_eq.
Defined.

(** A tenant named v2 passes the configuration's check, and its uploads are exempt from the
    posture check: the provider need not have kept a version or a lock. *)
Definition demo_bare : ObjectPosture := mkPosture None None None None None.
Example tenant_v2_unlocked :
  validate_tenant_id #"v2" = Ok tt ∧
  (∀ file, validate_object_posture demo_backup_store (v3_prefix #"v2" ++ file) demo_bare 0 = Ok tt) ∧
  is_ok (validate_object_posture demo_backup_store (v3_prefix #"demo" ++ #"f") demo_bare 0) = false.
Proof. split_and!; [done| |done]. intros file. reflexivity. Qed.
End DemoBackups.
