(* ===== verification/CommandLine.v ===== *)
(** * The process and its operator commands (src/src/cli.rs, the dispatch of src/src/main.rs)

    Argument parsing, the writer lease around a one-shot command, and the commands
    themselves as compositions of the store, signing and backup operations.  A command
    yields what it prints together with how it ends afterwards, because [backup status]
    and [doctor] print their report and then fail while backups are alerting.  The modes
    that never reach [cli::run] are its [unreachable!] arms. *)

From S2P Require Import Prelude Sable Bytes Logic Demo Records Events Identifiers Users Invitations Accounts Sessions Ceremonies Organization.
From S2P Require Import WriterLease SigningKeys Guards OperatorAuth ServiceAccounts Management Fleet FleetConnections FleetRoles ManagementEndpoint.
From S2P Require Import Connector System Snapshot BackupSnapshot Envelope Backups.

(** ** Arguments *)

Record LocalAgentRequest := mkAgentRequest { la_email : str; la_redirect_url : option Url }.

Inductive ProcessMode :=
  | Help
  | Serve
  | Healthcheck
  | ConfigExample (kind : str)
  | ConfigValidate (path : option str)
  | LocalAgent (request : LocalAgentRequest)
  | BackupCreate
  | BackupList
  | BackupStatusMode
  | BackupVerify (object_key : str)
  | BackupRestore (object_key : str) (preserve_sessions : bool)
  | KeysStatus
  | KeysRotate
  | OperatorPromote (user_id role : str)
  | OperatorDemote (user_id : str)
  | OperatorFind (email : str)
  | OperatorList
  | InvitationCreate (identifier_type identifier_value : str) (lifetime_seconds : N)
  | InvitationList
  | InvitationRevoke (invitation_id : str)
  | FleetPairingCode (control_plane_origin operator_user_id : str) (allow_remote_support : bool)
  | FleetPairOutbound (control_plane_origin attempt_id : str) (allow_remote_support : bool)
  | Doctor.

Definition requires_writer_lease (mode : ProcessMode) : bool :=
  match mode with
  | LocalAgent _ | BackupCreate | BackupRestore _ _ | KeysRotate | OperatorPromote _ _ | OperatorDemote _
  | InvitationCreate _ _ _ | InvitationRevoke _ | FleetPairingCode _ _ _ | FleetPairOutbound _ _ _ => true
  | _ => false
  end.

(** The loop of [extract_config_path]: the path found so far, and the arguments from the
    index on; the ones before it stay. *)
Fixpoint extract_config (config_path : option str) (arguments : list str) : result error (option str * list str) :=
  match arguments with
  | [] => Ok (config_path, [])
  | argument :: rest =>
      if bool_decide (argument = #"--config") then
        match rest with
        | value :: rest =>
            if bool_decide (trim value = []) || starts_with #"-" value then Err (EBail "--config requires a filesystem path")
            else if is_some config_path then Err (EBail "--config may be supplied only once")
            else extract_config (Some value) rest
        | [] => Err (EBail "--config requires a filesystem path")
        end
      else
        match strip_prefix #"--config=" argument with
        | Some value =>
            if bool_decide (trim value = []) then Err (EBail "--config requires a filesystem path")
            else if is_some config_path then Err (EBail "--config may be supplied only once")
            else extract_config (Some value) rest
        | None =>
            '(path, rest) ← extract_config config_path rest;
            Ok (path, argument :: rest)
        end
  end.

Definition extract_config_path (arguments : list str) : result error (option str * list str) := extract_config None arguments.

(** What the command line uses of the [url] and [humantime] crates, of the HTTP client and
    of the process: URLs are edited, durations parsed (in whole seconds), and the control
    plane is another process with a datastore of its own. *)
Class ExtProcess `{Env} := {
  parse_duration : str → option N;
  same_origin : Url → Url → bool;
  set_fragment : Url → option str → Url;
  url_join : Url → str → option Url;
  append_pair : Url → str → str → Url;
  uri_parses : str → bool;
  pair_outbound_with_options : str → OutboundPairingRequest → M error PairingGrant;
  pair_outbound_frame endpoint request : moves eq (pair_outbound_with_options endpoint request);
  CARGO_PKG_VERSION : str
}.

Section Parsing.
Context `{Env, !ExtUrl, !ExtProcess}.

(** The guards [group == .. && command == ..] of the arms. *)
Definition selects (group command g c : str) : bool := bool_decide (group = g) && bool_decide (command = c).

(** The arms of the [match] that return; [None] falls through to the last form. *)
Definition parse_command (arguments : list str) : option (result error ProcessMode) :=
  match arguments with
  | [] => Some (Ok Serve)
  | [value] =>
      if bool_decide (value = #"--help") || bool_decide (value = #"-h") || bool_decide (value = #"help") then Some (Ok Help)
      else if bool_decide (value = #"--healthcheck") then Some (Ok Healthcheck)
      else if bool_decide (value = #"doctor") then Some (Ok Doctor)
      else None
  | [group; command] =>
      let at_ := selects group command in
      if at_ #"config" #"example" then Some (Ok (ConfigExample #"realm"))
      else if at_ #"config" #"validate" then Some (Ok (ConfigValidate None))
      else if at_ #"backup" #"create" then Some (Ok BackupCreate)
      else if at_ #"backup" #"list" then Some (Ok BackupList)
      else if at_ #"backup" #"status" then Some (Ok BackupStatusMode)
      else if at_ #"keys" #"status" then Some (Ok KeysStatus)
      else if at_ #"keys" #"rotate" then Some (Ok KeysRotate)
      else if at_ #"operator" #"list" then Some (Ok OperatorList)
      else if at_ #"invitation" #"list" then Some (Ok InvitationList)
      else None
  | [group; command; value] =>
      let at_ := selects group command in
      if at_ #"config" #"example" then
        Some (if bool_decide (value = #"realm") || bool_decide (value = #"fleet") then Ok (ConfigExample value)
              else Err (EBail "config example kind must be realm or fleet"))
      else if at_ #"config" #"validate" then Some (Ok (ConfigValidate (Some value)))
      else if at_ #"backup" #"verify" then Some (Ok (BackupVerify value))
      else if at_ #"backup" #"restore" then Some (Ok (BackupRestore value false))
      else if at_ #"operator" #"demote" then Some (Ok (OperatorDemote value))
      else if at_ #"operator" #"find" then Some (Ok (OperatorFind value))
      else if at_ #"invitation" #"revoke" then Some (Ok (InvitationRevoke value))
      else None
  | [group; command; first; second] =>
      let at_ := selects group command in
      if at_ #"backup" #"restore" && bool_decide (second = #"--preserve-sessions") then Some (Ok (BackupRestore first true))
      else if at_ #"operator" #"promote" then Some (Ok (OperatorPromote first second))
      else if at_ #"invitation" #"create" then Some (Ok (InvitationCreate first second 86400))
      else if at_ #"fleet" #"pairing-code" then Some (Ok (FleetPairingCode first second false))
      else if at_ #"fleet" #"pair-outbound" then Some (Ok (FleetPairOutbound first second false))
      else None
  | [group; command; first; second; third] =>
      let at_ := selects group command in
      if at_ #"invitation" #"create" then
        Some (match parse_duration third with
              | Some seconds => Ok (InvitationCreate first second seconds)
              | None => Err (EBail "invitation lifetime must be a duration such as 24h")
              end)
      else if at_ #"fleet" #"pairing-code" && bool_decide (third = #"--allow-remote-support") then Some (Ok (FleetPairingCode first second true))
      else if at_ #"fleet" #"pair-outbound" && bool_decide (third = #"--allow-remote-support") then Some (Ok (FleetPairOutbound first second true))
      else None
  | _ => None
  end.

Definition invalid_command : error := EBail "invalid command".

Definition agent_email (argument : str) : result error str :=
  let email := to_ascii_lowercase <$> trim argument in
  if (320 <? len email) || negb (contains_char 64 email) || starts_with #"@" email || ends_with_char 64 email
  then Err (EBail "valid existing account email required") else Ok email.

(** The form after the [match]: [--local-agent-session --email e [--redirect url]]. *)
Definition parse_local_agent (arguments : list str) : result error ProcessMode :=
  match arguments with
  | [session; flag; email] =>
      if bool_decide (session = #"--local-agent-session") && bool_decide (flag = #"--email")
      then email ← agent_email email; Ok (LocalAgent (mkAgentRequest email None))
      else Err invalid_command
  | [session; flag; email; redirect; value] =>
      if bool_decide (session = #"--local-agent-session") && bool_decide (flag = #"--email") && bool_decide (redirect = #"--redirect")
      then
        email ← agent_email email;
        url ← ok_or (EBail "agent redirect is not a valid URL") (url_parse value);
        Ok (LocalAgent (mkAgentRequest email (Some url)))
      else Err invalid_command
  | _ => Err invalid_command
  end.

Definition parse_process_arguments (arguments : list str) : result error ProcessMode :=
  match parse_command arguments with
  | Some r => r
  | None => parse_local_agent arguments
  end.

(** The start of [main]: the option is taken out, the rest is the command. *)
Definition process_arguments (arguments : list str) : result error (option str * ProcessMode) :=
  '(config_path, arguments) ← extract_config_path arguments;
  mode ← parse_process_arguments arguments;
  Ok (config_path, mode).

(** ** The accepted command lines *)

(** The usage text, a rule per form. *)
Inductive usage : list str → ProcessMode → Prop :=
  | usage_serve : usage [] Serve
  | usage_help a : a = #"--help" ∨ a = #"-h" ∨ a = #"help" → usage [a] Help
  | usage_health : usage [lit "--healthcheck"] Healthcheck
  | usage_doctor : usage [lit "doctor"] Doctor
  | usage_example : usage [lit "config"; lit "example"] (ConfigExample #"realm")
  | usage_example_kind kind : kind = #"realm" ∨ kind = #"fleet" → usage [lit "config"; lit "example"; kind] (ConfigExample kind)
  | usage_validate : usage [lit "config"; lit "validate"] (ConfigValidate None)
  | usage_validate_path path : usage [lit "config"; lit "validate"; path] (ConfigValidate (Some path))
  | usage_backup_create : usage [lit "backup"; lit "create"] BackupCreate
  | usage_backup_list : usage [lit "backup"; lit "list"] BackupList
  | usage_backup_status : usage [lit "backup"; lit "status"] BackupStatusMode
  | usage_backup_verify key : usage [lit "backup"; lit "verify"; key] (BackupVerify key)
  | usage_backup_restore key : usage [lit "backup"; lit "restore"; key] (BackupRestore key false)
  | usage_backup_preserve key : usage [lit "backup"; lit "restore"; key; lit "--preserve-sessions"] (BackupRestore key true)
  | usage_keys_status : usage [lit "keys"; lit "status"] KeysStatus
  | usage_keys_rotate : usage [lit "keys"; lit "rotate"] KeysRotate
  | usage_operator_list : usage [lit "operator"; lit "list"] OperatorList
  | usage_operator_find email : usage [lit "operator"; lit "find"; email] (OperatorFind email)
  | usage_operator_promote id role : usage [lit "operator"; lit "promote"; id; role] (OperatorPromote id role)
  | usage_operator_demote id : usage [lit "operator"; lit "demote"; id] (OperatorDemote id)
  | usage_invitation_create kind value :
      usage [lit "invitation"; lit "create"; kind; value] (InvitationCreate kind value 86400)
  | usage_invitation_lifetime kind value lifetime seconds : parse_duration lifetime = Some seconds →
      usage [lit "invitation"; lit "create"; kind; value; lifetime] (InvitationCreate kind value seconds)
  | usage_invitation_list : usage [lit "invitation"; lit "list"] InvitationList
  | usage_invitation_revoke id : usage [lit "invitation"; lit "revoke"; id] (InvitationRevoke id)
  | usage_pairing_code origin id : usage [lit "fleet"; lit "pairing-code"; origin; id] (FleetPairingCode origin id false)
  | usage_pairing_support origin id :
      usage [lit "fleet"; lit "pairing-code"; origin; id; lit "--allow-remote-support"] (FleetPairingCode origin id true)
  | usage_outbound origin id : usage [lit "fleet"; lit "pair-outbound"; origin; id] (FleetPairOutbound origin id false)
  | usage_outbound_support origin id :
      usage [lit "fleet"; lit "pair-outbound"; origin; id; lit "--allow-remote-support"] (FleetPairOutbound origin id true)
  | usage_agent argument email : agent_email argument = Ok email →
      usage [lit "--local-agent-session"; lit "--email"; argument] (LocalAgent (mkAgentRequest email None))
  | usage_agent_redirect argument email value url : agent_email argument = Ok email → url_parse value = Some url →
      usage [lit "--local-agent-session"; lit "--email"; argument; lit "--redirect"; value]
        (LocalAgent (mkAgentRequest email (Some url))).

(** An argument that is not the option. *)
Definition plain (argument : str) : Prop := argument ≠ #"--config" ∧ strip_prefix #"--config=" argument = None.

Lemma selects_spec group command g c : selects group command g c = true ↔ group = g ∧ command = c.
Proof. unfold selects. rewrite andb_true_iff, !bool_decide_eq_true. done. Qed.

Lemma taken_inj (x y : ProcessMode) : Some (Ok (E := error) x) = Some (Ok y) → x = y.
Proof. congruence. Qed.

(** Split an accepted command line by the arm that took it. *)
Ltac split_arms := repeat match goal with
  | Hc : (if ?b then _ else _) = _ |- _ => destruct b eqn:?
  | Hc : Some (if ?b then _ else _) = _ |- _ => destruct b eqn:?
  | Hc : Some (match ?x with Some _ => _ | None => _ end) = _ |- _ => destruct x eqn:?
  | Hc : Some (Ok _) = Some (Ok _) |- _ => apply taken_inj in Hc as <-
  | Hc : Some (Err _) = Some (Ok _) |- _ => discriminate Hc
  | Hc : None = Some _ |- _ => discriminate Hc
  | Hc : selects _ _ _ _ = true |- _ => apply selects_spec in Hc as [-> ->]
  | Hc : bool_decide (_ = _) = true |- _ => apply bool_decide_eq_true in Hc as ->
  | Hc : _ && _ = true |- _ => apply andb_true_iff in Hc as [? ?]
  end.

Lemma parse_command_usage arguments mode : parse_command arguments = Some (Ok mode) → usage arguments mode.
Proof.
  destruct arguments as [|a [|b [|c [|d [|e []]]]]]; cbn [parse_command]; intros Hp; split_arms; try discriminate Hp.
  all: rewrite ?orb_true_iff, ?bool_decide_eq_true in *.
  all: by constructor; tauto.
Qed.

Lemma parse_agent_usage arguments mode : parse_local_agent arguments = Ok mode → usage arguments mode.
Proof.
  destruct arguments as [|a [|b [|c [|d [|e []]]]]]; cbn [parse_local_agent]; intros Hp; split_arms; try discriminate Hp.
  - destruct (agent_email c) as [email|] eqn:He; [|discriminate Hp]. cbn in Hp. assert (mode = LocalAgent (mkAgentRequest email None)) as -> by congruence.
    by constructor.
  - destruct (agent_email c) as [email|] eqn:He; [|discriminate Hp]. destruct (url_parse e) as [url|] eqn:Hu; [|discriminate Hp].
    cbn in Hp. assert (mode = LocalAgent (mkAgentRequest email (Some url))) as -> by congruence. by constructor.
Qed.

(** Every form is taken by its arm, and by no earlier one. *)
Lemma usage_parsed arguments mode : usage arguments mode → parse_process_arguments arguments = Ok mode.
Proof.
  destruct 1 as [|a Ha| | | |kind Hk| | | | | | | | | | | | | | | |kind value lifetime seconds Hd| | | | | | |arg email He|arg email value url He Hu];
    try reflexivity.
  - by destruct Ha as [->|[->| ->]].
  - by destruct Hk as [->| ->].
  - change (match parse_duration lifetime with Some seconds => Ok (InvitationCreate kind value seconds)
            | None => Err (EBail "invitation lifetime must be a duration such as 24h") end = Ok (InvitationCreate kind value seconds)).
    by rewrite Hd.
  - change ((email ← agent_email arg; Ok (LocalAgent (mkAgentRequest email None))) = Ok (LocalAgent (mkAgentRequest email None))).
    by rewrite He.
  - change ((email ← agent_email arg; url ← ok_or (EBail "agent redirect is not a valid URL") (url_parse value);
             Ok (LocalAgent (mkAgentRequest email (Some url)))) = Ok (LocalAgent (mkAgentRequest email (Some url)))).
    by rewrite He, Hu.
Qed.


(** ** The [--config] option *)

Lemma extract_plain seen l1 l2 : Forall plain l1 →
  extract_config seen (l1 ++ l2) = ('(path, rest) ← extract_config seen l2; Ok (path, l1 ++ rest)).
Proof.
  induction 1 as [|a l1 [Hne Hs] _ IH]; cbn [app extract_config].
  - by destruct (extract_config seen l2) as [[]|].
  - rewrite bool_decide_eq_false_2, Hs, IH by done. by destruct (extract_config seen l2) as [[]|].
Qed.

Lemma extract_none seen l : Forall plain l → extract_config seen l = Ok (seen, l).
Proof. intros Hl. rewrite <- (app_nil_r l) at 1. rewrite extract_plain by done. cbn. by rewrite app_nil_r. Qed.

(** The [--config] option may stand anywhere on the command line, in either spelling, and
    leaves the command as if it were not there; giving it twice is an error wherever the two
    stand. *)
Theorem config_option_anywhere l1 l2 path mode :
  Forall plain l1 → Forall plain l2 → trim path ≠ [] → usage (l1 ++ l2) mode →
  (starts_with #"-" path = false → process_arguments (l1 ++ [lit "--config"; path] ++ l2) = Ok (Some path, mode)) ∧
  process_arguments (l1 ++ [lit "--config=" ++ path] ++ l2) = Ok (Some path, mode) ∧
  process_arguments (l1 ++ l2) = Ok (None, mode) ∧
  ∀ l3 l4 other, l2 = l3 ++ l4 → trim other ≠ [] →
    is_ok (process_arguments (l1 ++ [lit "--config=" ++ path] ++ l3 ++ [lit "--config=" ++ other] ++ l4)) = false.
Proof.
  intros Hl1 Hl2 Hpath Hu. apply usage_parsed in Hu. unfold process_arguments, extract_config_path.
  assert (Heq : ∀ x l, trim x ≠ [] → extract_config None ((#"--config=" ++ x) :: l) = extract_config (Some x) l).
  { intros x l Hx. cbn [extract_config]. rewrite bool_decide_eq_false_2 by done. rewrite strip_prefix_app. by rewrite bool_decide_eq_false_2. }
  split_and!.
  - intros Hdash. rewrite extract_plain by done. cbn [app extract_config]. rewrite bool_decide_eq_true_2 by done.
    rewrite (bool_decide_eq_false_2 (trim path = [])), Hdash by done. cbn [orb is_some]. rewrite extract_none by done. cbn. by rewrite Hu.
  - rewrite extract_plain by done. cbn [app]. rewrite Heq, extract_none by done. cbn. by rewrite Hu.
  - rewrite extract_none by by apply Forall_app. cbn. by rewrite Hu.
  - intros l3 l4 other -> Hother. apply Forall_app in Hl2 as [Hl3 _]. rewrite extract_plain by done. cbn [app]. rewrite Heq by done.
    rewrite extract_plain by done. cbn [app extract_config]. rewrite bool_decide_eq_false_2 by done. rewrite strip_prefix_app.
    by rewrite bool_decide_eq_false_2.
Qed.
End Parsing.

(** ** Configuration and output *)

Inductive DeploymentRole := Realm | FleetControlPlane.
#[global] Instance DeploymentRole_eq_dec : EqDecision DeploymentRole.
Proof. solve_decision. Defined.

(** The fields of [Config] that the commands read; [cfg_backup] is what [BackupStore::new]
    builds from the configured target, with its object client. *)
Record Config := mkConfig {
  cfg_environment : Environment;
  cfg_deployment_role : DeploymentRole;
  cfg_issuer : Url;
  cfg_rp_id : str;
  cfg_rp_origin : Url;
  cfg_master_keys : KeyRing;
  cfg_tenant_id : str;
  cfg_realm_id : str;
  cfg_signing_rotation : SigningRotationConfig;
  cfg_backup : option BackupStore
}.

(** The environment variables and the file behind the outbound pairing code: a value that
    is not Unicode, and a file that cannot be read, are [None]. *)
Record PairingSecret := mkPairingSecret {
  ps_direct : option (option str);
  ps_file : option (option (N * option str))
}.

Record IdentifierSummary := mkSummary {
  is_kind : IdentifierKind; is_value : str; is_verified : bool; is_primary : bool; is_claimed_at : N
}.

Record OperatorSummary := mkOperatorSummary {
  os_user_id : Uuid; os_role : OperatorRoleRecord; os_email : option str; os_created_at : N;
  os_last_authenticated_at : option N; os_revoked_at : option N
}.

Record InvitationSummary := mkInvitationSummary {
  vs_id : Uuid; vs_identifier : IdentifierValue; vs_created_by : Uuid; vs_created_at : N; vs_expires_at : N;
  vs_consumed_at : option N; vs_revoked_at : option N
}.

(** The JSON documents that the commands print. *)
Inductive CommandOutput :=
  | OHandoff (url : str)
  | OReceipt (receipt : BackupReceipt)
  | OObjects (objects : list BackupObject)
  | OStatus (status : BackupStatus)
  | ORestored (snapshot_id : Uuid) (captured_at record_count restored : N) (sessions_preserved : bool) (active_kid : str)
  | OKeys (status : SigningKeyStatus)
  | OPromoted (user_id : Uuid) (role : OperatorRoleRecord) (identifiers : list IdentifierSummary)
  | ODemoted (user_id : Uuid) (removed : bool)
  | OCandidates (users : list (Uuid * N * list IdentifierSummary))
  | OOperators (operators : list OperatorSummary)
  | OInvitation (id : Uuid) (identifier : IdentifierValue) (code : str) (expires_at : N)
  | OInvitations (invitations : list InvitationSummary)
  | ORevoked (id : Uuid) (revoked_at : option N)
  | OPairing (code realm_id control_plane_origin : str) (expires_at : N) (requested_scopes : list str)
  | OPaired (connection_id : Uuid) (realm_id control_plane_origin : str) (assignment_epoch : N) (granted_scopes : list str)
  | ODoctor (degraded : bool) (signing_keys : SigningKeyStatus) (backups : option (N * BackupStatus)).

Definition nil_uuid : Uuid := mkUuid 0 I.
Definition rpair_scopes (allow_remote_support : bool) : list str :=
  [lit "realm.read"; lit "telemetry.export"] ++ (if allow_remote_support then [lit "realm.support"] else []).

(** ** The commands *)

Section Commands.
Context `{Env, !ExtSigning, !ExtBackup, !ExtBucket, !ExtUrl, !ExtProcess}.
Context `{!Serde AuthEvent, !Serde User, !Serde Session, !Serde OrganizationRecord, !Serde OperatorRecord}.
Context `{!Serde AccountInvitationRecord, !Serde LocalAgentHandoff, !Serde RealmPairingRecord}.
Context `{!Serde ServiceAccountRecord, !Serde ServiceCredentialLocator, !Serde RealmFleetGrantRecord}.
Context `{!Serde FleetOrganizationRecord, !Serde FleetProjectRecord, !Serde FleetEnvironmentRecord}.
Context `{!Serde FleetConnectionRecord, !Serde FleetRoleBindingRecord, !Serde FleetAuditRecord}.
Context `{!Serde FleetIdempotencySnapshot, !Serde (list StoreRecord), !Serde BackupSnapshot}.
Context `{!Serde StoredKeySet, !Serde LegacyStoredKey, !Serde BackupStatus}.
Context (parse_value : str → option Value) (json_get_u64 : Value → str → option N).

Definition identifier_summary (u : User) : list IdentifierSummary :=
  (λ i, mkSummary (ai_kind i) (ai_value i) (ai_verified i) (ai_primary i) (ai_created_at i)) <$> u_identifiers u.

Definition listing_summary (l : OperatorListing) : OperatorSummary :=
  mkOperatorSummary (op_user_id (ol_operator l)) (op_role (ol_operator l)) (ai_value <$> primary_email (ol_user l))
    (op_created_at (ol_operator l)) (ol_last_authenticated_at l) (op_revoked_at (ol_operator l)).

Definition invitation_summary (r : AccountInvitationRecord) : InvitationSummary :=
  mkInvitationSummary (inv_id r) (inv_identifier r) (inv_created_by r) (inv_created_at r) (inv_expires_at r)
    (inv_consumed_at r) (inv_revoked_at r).

Definition outbound_pairing_secret (secret : PairingSecret) : result error str :=
  if is_some (ps_direct secret) && is_some (ps_file secret)
  then Err (EBail "configure either RUSTYAUTH_FLEET_PAIRING_CODE or RUSTYAUTH_FLEET_PAIRING_CODE_FILE, not both")
  else
    value ← match ps_file secret, ps_direct secret with
            | Some None, _ => Err (EBail "inspect outbound pairing secret file")
            | Some (Some (size, contents)), _ =>
                if 1024 <? size then Err (EBail "outbound pairing secret file exceeds 1024 bytes")
                else ok_or (EBail "read outbound pairing secret file") contents
            | None, Some value => ok_or (EBail "RUSTYAUTH_FLEET_PAIRING_CODE is not Unicode") value
            | None, None => Err (EBail "RUSTYAUTH_FLEET_PAIRING_CODE or RUSTYAUTH_FLEET_PAIRING_CODE_FILE is required")
            end;
    let value := trim value in
    if negb (starts_with #"rpair_" value) || negb ((32 <=? len value) && (len value <=? 128)) || existsb is_whitespace value
    then Err (EBail "outbound Fleet pairing code is invalid") else Ok value.

Definition issuer_of (config : Config) : JwtIssuer := mkIssuer (cfg_master_keys config) (cfg_signing_rotation config).
Definition store_of (config : Config) : Store := mkStore (cfg_tenant_id config).
Definition initialize_jwt (config : Config) : M error RuntimeKeySet := load_or_create (issuer_of config).
Definition configured_backup (config : Config) : M error BackupStore :=
  some_or (EBail "backups are not configured; provide the complete AUTH_BACKUP_* environment") (cfg_backup config).

(** [promote_operator], [find_operator_candidates] and [demote_operator] of cli.rs *)
Definition promote_command (store : Store) (user_id role : str) : M error CommandOutput :=
  role ← lift (if bool_decide (role = #"owner") then Ok Owner
               else if bool_decide (role = #"administrator") then Ok Administrator
               else if bool_decide (role = #"support") then Ok Support
               else if bool_decide (role = #"auditor") then Ok Auditor
               else Err (EBail "role must be owner, administrator, support or auditor"));
  user_id ← some_or (EBail "expected a user id; run `rustyauth operator find <email>` to look one up") (uuid_parse (trim user_id));
  '(operator, user) ← promote_operator store user_id role;
  mret (OPromoted (op_user_id operator) (op_role operator) (identifier_summary user)).

Definition find_operator_candidates (email : str) : M error CommandOutput :=
  identifier ← lift (match canonical Email email with Ok i => Ok i | Err _ => Err (EBail "operator email is not a valid address") end);
  found ← user_by_identifier identifier;
  mret (OCandidates (match found with Some user => [(u_id user, u_created_at user, identifier_summary user)] | None => [] end)).

Definition demote_command (store : Store) (user_id : str) : M error CommandOutput :=
  user_id ← some_or (EBail "expected a user id") (uuid_parse (trim user_id));
  removed ← demote_operator store user_id;
  mret (ODemoted user_id removed).

Definition invitation_create (config : Config) (identifier_type identifier_value : str) (lifetime_seconds : N) : M error CommandOutput :=
  ensure (bool_decide (cfg_deployment_role config = Realm)) (EBail "account invitations belong to realm deployments");;
  let named := to_ascii_lowercase <$> trim identifier_type in
  kind ← lift (if bool_decide (named = #"email") then Ok Email else if bool_decide (named = #"phone") then Ok Phone
               else Err (EBail "identifier type must be email or phone"));
  identifier ← lift (match canonical kind identifier_value with Ok i => Ok i | Err _ => Err (EBail "invitation identifier is invalid") end);
  '(record, code) ← create_account_invitation (store_of config) identifier nil_uuid lifetime_seconds;
  mret (OInvitation (inv_id record) (inv_identifier record) code (inv_expires_at record)).

Definition may_pair (record : OperatorRecord) : bool :=
  negb (is_some (op_revoked_at record)) && bool_decide (op_role record = Owner ∨ op_role record = Administrator).

Definition create_fleet_pairing_code (config : Config) (control_plane_origin operator_user_id : str) (allow_remote_support : bool) :
    M error CommandOutput :=
  ensure (bool_decide (cfg_deployment_role config = Realm))
    (EBail "Fleet pairing codes are created by realm deployments, not the control plane");;
  origin ← some_or (EBail "control-plane origin is not a valid URL") (url_parse control_plane_origin);
  ensure (bool_decide (url_path origin = #"/") && negb (is_some (url_query origin)) && negb (is_some (url_fragment origin)))
    (EBail "control-plane origin must not contain a path, query or fragment");;
  ensure ((bool_decide (url_scheme origin = #"http") || bool_decide (url_scheme origin = #"https"))
          && negb (bool_decide (cfg_environment config = EnvProduction) && negb (bool_decide (url_scheme origin = #"https"))))
    (EBail "control-plane origin must use HTTPS in production");;
  operator_user_id ← some_or (EBail "operator-user-id must be an existing operator UUID") (uuid_parse operator_user_id);
  found ← operator operator_user_id;
  operator ← some_or (EBail "an active owner or administrator must authorize realm pairing")
               (match found with Some record => if may_pair record then Some record else None | None => None end);
  '(record, code) ← create_realm_pairing (cfg_realm_id config) (trim_end_matches 47 (url_to_string origin))
                      (rpair_scopes allow_remote_support) (op_user_id operator);
  mret (OPairing code (rp_realm_id record) (rp_control_plane_origin record) (rp_expires_at record) (rp_requested_scopes record)).

(** [connector_pairing_client] of telemetry.rs: the endpoint it is built for. *)
Definition connector_pairing_client (endpoint : str) : result error str :=
  url ← ok_or (EBail "Fleet connector endpoint is invalid") (url_parse endpoint);
  if negb (bool_decide (url_scheme url = #"http") || bool_decide (url_scheme url = #"https"))
  then Err (EBail "Fleet connector endpoint must use HTTP or HTTPS")
  else if uri_parses endpoint then Ok endpoint else Err (EBail "Fleet connector endpoint is invalid").

Definition outbound_discovery (realm_id issuer rp_id : str) : RealmDiscovery :=
  mkDiscovery realm_id CARGO_PKG_VERSION #"1" (trim_end_matches 47 issuer) rp_id true true
    [(lit "realm.health", 1); (lit "realm.summary", 1); (lit "realm.operations", 1); (lit "realm.remote-admin", 1);
     (CAPABILITY_TELEMETRY_ROLLUPS_V1, 1)].

Definition origin_unsafe (endpoint : Url) (host : str) : bool :=
  negb (bool_decide (url_username endpoint = [])) || is_some (url_password endpoint) || is_some (url_query endpoint)
  || is_some (url_fragment endpoint) || negb (bool_decide (url_path endpoint = []) || bool_decide (url_path endpoint = #"/"))
  || negb (bool_decide (url_scheme endpoint = #"https")
           || (bool_decide (url_scheme endpoint = #"http") && bool_decide (host ∈ [lit "localhost"; lit "127.0.0.1"; lit "::1"]))).

(** [anyhow!(error.to_string())] *)
Definition connect_failed (e : ConnectError) : error := EBail (connect_message e).

Definition pair_outbound_realm (control_plane_origin : str) (attempt_id : Uuid) (pairing_code realm_id issuer rp_id : str)
    (requested_scopes : list str) : M error RealmFleetGrantRecord :=
  endpoint ← some_or (EBail "Fleet control-plane origin is invalid") (url_parse control_plane_origin);
  host ← some_or (EBail "Fleet control-plane origin has no host") (url_host_str endpoint);
  ensure (negb (origin_unsafe endpoint host)) (EBail "Fleet control-plane origin must use HTTPS (or loopback HTTP)");;
  _ ← map_err connect_failed (lift (safe_outbound_pairing_code pairing_code));
  let discovery := outbound_discovery realm_id issuer rp_id in
  _ ← map_err connect_failed (lift (validate_management_discovery discovery true));
  client ← lift (connector_pairing_client control_plane_origin);
  response ← pair_outbound_with_options client
               (mkOutboundPairing (uuid_show attempt_id) pairing_code (Some discovery) requested_scopes);
  ensure (bool_decide (pg_realm_id response = realm_id) && negb (pg_assignment_epoch response =? 0)
          && bool_decide (pg_granted_scopes response = requested_scopes)
          && negb (bool_decide (pg_control_plane_instance_id response = [])))
    (EBail "Fleet returned an inconsistent outbound pairing grant");;
  connection_id ← some_or (EBail "Fleet returned an invalid outbound connection id") (uuid_parse (pg_connection_id response));
  consume_outbound_realm_pairing pairing_code (trim_end_matches 47 control_plane_origin) (pg_control_plane_instance_id response)
    (pg_assignment_epoch response) connection_id (pg_credential response) (pg_granted_scopes response).

Definition complete_outbound_fleet_pairing (config : Config) (secret : PairingSecret) (control_plane_origin attempt_id : str)
    (allow_remote_support : bool) : M error CommandOutput :=
  ensure (bool_decide (cfg_deployment_role config = Realm)) (EBail "outbound pairing is initiated by a realm deployment");;
  attempt_id ← some_or (EBail "attempt-id must be a UUID") (uuid_parse attempt_id);
  pairing_code ← lift (outbound_pairing_secret secret);
  grant ← pair_outbound_realm control_plane_origin attempt_id pairing_code (cfg_realm_id config) (url_to_string (cfg_issuer config))
            (cfg_rp_id config) (rpair_scopes allow_remote_support);
  mret (OPaired (rg_connection_id grant) (rg_realm_id grant) (rg_control_plane_origin grant) (rg_assignment_epoch grant)
          (rg_granted_scopes grant)).

Definition validated_local_redirect (rp_origin : Url) (requested : option Url) : result error str :=
  let requested := default (set_fragment rp_origin (Some #"/dashboard")) requested in
  if negb (same_origin requested rp_origin) || negb (bool_decide (url_path requested = #"/")) || is_some (url_query requested)
     || negb (bool_decide (url_username requested = [])) || is_some (url_password requested)
     || match url_fragment requested with Some fragment => negb (starts_with #"/" fragment) | None => true end
  then Err (EBail "agent redirect must be a hash route on the configured loopback app origin")
  else Ok (url_to_string requested).

(** [create_local_agent_handoff] of cli.rs *)
Definition handoff_command (config : Config) (request : LocalAgentRequest) : M error CommandOutput :=
  ensure (bool_decide (cfg_environment config = EnvDevelopment) && bool_decide (url_host_str (cfg_issuer config) = Some #"localhost")
          && bool_decide (url_host_str (cfg_rp_origin config) = Some #"localhost"))
    (EBail "local agent handoff is disabled outside loopback development");;
  redirect_url ← lift (validated_local_redirect (cfg_rp_origin config) (la_redirect_url request));
  code ← create_local_agent_handoff (store_of config) (la_email request) redirect_url 60;
  url ← some_or (EBail "construct local handoff URL") (url_join (cfg_issuer config) #"/v1/local-agent-handoff");
  mret (OHandoff (url_to_string (append_pair url #"code" code))).

Definition alerting : error := EBail "backup health is alerting: recovery point overdue or failure threshold reached".
Definition unless_alerting (status : BackupStatus) : result error unit := if bk_alerting status then Err alerting else Ok tt.

(** The answer to [PING] is checked, then the signing keys and the backups. *)
Definition doctor (fuel : nat) (config : Config) : M error (CommandOutput * result error unit) :=
  rs ← query [PING];
  pong ← lift (match rs with [RBulk v] => Ok v | _ => Err EDb end);
  ensure (bool_decide (pong = #"PONG")) (EBail "SableDB returned an unexpected readiness response");;
  _ ← initialize_jwt config;
  backups ← match cfg_backup config with
            | Some _ =>
                backup ← configured_backup config;
                objects ← list_backups fuel (cfg_tenant_id config);
                status ← persisted_status backup;
                mret (Some (N.of_nat (length objects), status))
            | None => mret None
            end;
  keys ← stored_status (issuer_of config);
  let failing := match backups with Some (_, status) => bk_alerting status | None => false end in
  mret (ODoctor failing keys backups, if failing then Err alerting else Ok tt).

Definition printed (m : M error CommandOutput) : M error (CommandOutput * result error unit) := out ← m; mret (out, Ok tt).

(** [cli::run]; [fuel] bounds the pages of a listing. *)
Definition run (fuel : nat) (secret : PairingSecret) (config : Config) (mode : ProcessMode) :
    M error (CommandOutput * result error unit) :=
  let store := store_of config in
  let tenant := cfg_tenant_id config in
  match mode with
  | LocalAgent request => printed (handoff_command config request)
  | BackupCreate => printed (
      _ ← initialize_jwt config;
      backup ← configured_backup config;
      '(_, outcome) ← create parse_value json_get_u64 backup tenant (cfg_master_keys config) default_status;
      receipt ← lift outcome;
      mret (OReceipt receipt))
  | BackupList => printed (
      _ ← configured_backup config;
      objects ← list_backups fuel tenant;
      mret (OObjects objects))
  | BackupStatusMode =>
      backup ← configured_backup config;
      status ← persisted_status backup;
      mret (OStatus status, unless_alerting status)
  | BackupVerify object_key => printed (
      backup ← configured_backup config;
      receipt ← backup_verify parse_value json_get_u64 backup tenant (cfg_master_keys config) object_key;
      mret (OReceipt receipt))
  | BackupRestore object_key preserve_sessions => printed (
      backup ← configured_backup config;
      '(snapshot_id, captured_at, record_count, restored, kid) ←
        backup_restore parse_value json_get_u64 backup store tenant (issuer_of config) object_key preserve_sessions;
      mret (ORestored snapshot_id captured_at record_count restored preserve_sessions kid))
  | KeysStatus => printed (
      _ ← initialize_jwt config;
      status ← stored_status (issuer_of config);
      mret (OKeys status))
  | KeysRotate => printed (
      runtime ← initialize_jwt config;
      '(status, _) ← force_rotate (issuer_of config) runtime false;
      mret (OKeys status))
  | OperatorPromote user_id role => printed (promote_command store user_id role)
  | OperatorDemote user_id => printed (demote_command store user_id)
  | OperatorFind email => printed (find_operator_candidates email)
  | OperatorList => printed (
      listings ← operators;
      mret (OOperators (listing_summary <$> listings)))
  | InvitationCreate identifier_type identifier_value lifetime_seconds =>
      printed (invitation_create config identifier_type identifier_value lifetime_seconds)
  | InvitationList => printed (
      records ← account_invitations;
      mret (OInvitations (invitation_summary <$> records)))
  | InvitationRevoke invitation_id => printed (
      id ← some_or (EBail "invitation id must be a UUID") (uuid_parse (trim invitation_id));
      record ← revoke_account_invitation store id;
      mret (ORevoked (inv_id record) (inv_revoked_at record)))
  | FleetPairingCode control_plane_origin operator_user_id allow_remote_support =>
      printed (create_fleet_pairing_code config control_plane_origin operator_user_id allow_remote_support)
  | FleetPairOutbound control_plane_origin attempt_id allow_remote_support =>
      printed (complete_outbound_fleet_pairing config secret control_plane_origin attempt_id allow_remote_support)
  | Doctor => doctor fuel config
  | Serve | Help | Healthcheck | ConfigExample _ | ConfigValidate _ => fail EPanic
  end.

(** [main] from the connected store on, for every mode but [Serve]: a failed release of the
    lease is logged, and a panic of the command ends the process with the lease in place. *)
Definition one_shot (fuel : nat) (secret : PairingSecret) (config : Config) (mode : ProcessMode) :
    M error (CommandOutput * result error unit) :=
  _ ← ensure_restore_complete;
  writer_lease ← (if requires_writer_lease mode then lease ← acquire_writer_lease; mret (Some lease) else mret None);
  result ← attempt (E := error) (run fuel secret config mode);
  match result with
  | Err EPanic => fail EPanic
  | _ =>
      _ ← match writer_lease with
          | Some lease => _ ← attempt (E := error) (release lease); mret tt
          | None => mret tt
          end;
      lift result
  end.

(** ** Commands that only read *)

Lemma printed_moves R `{!PreOrder R} (m : M error CommandOutput) : moves R m → moves R (printed m).
Proof. intros Hm. unfold printed. moves_go. Qed.

Lemma ensure_complete_reads : moves eq ensure_restore_complete.
Proof. unfold ensure_restore_complete. moves_go. Qed.

Lemma list_pages_reads fuel prefix token objects : moves eq (list_pages fuel prefix token objects).
Proof. revert token objects. induction fuel; intros; cbn [list_pages]; moves_go. apply list_objects_frame. Qed.

Lemma list_backups_reads fuel t : moves eq (list_backups fuel t).
Proof. unfold list_backups, list_prefix. moves_go; apply list_pages_reads. Qed.

Lemma download_reads self key t : moves eq (download_object parse_value json_get_u64 self key t).
Proof. intros o w. symmetry. apply (wp_download_object parse_value json_get_u64 self key t o w (λ _ w', vw w' = vw w)); done. Qed.

Lemma verify_reads self t mk key : moves eq (backup_verify parse_value json_get_u64 self t mk key).
Proof. unfold backup_verify, verify. moves_go; apply download_reads. Qed.

Lemma operators_reads : moves eq operators.
Proof.
  unfold operators. moves_go. apply moves_mapM; [apply _|]. intros. unfold operator_listing, operator, operator_seen_at. moves_go.
  apply user_reads, _.
Qed.

Lemma invitations_reads : moves eq account_invitations.
Proof. unfold account_invitations. moves_go. apply load_records_reads; [apply _|]. intros. apply account_invitation_reads, _. Qed.

Lemma configured_reads config : moves eq (configured_backup config).
Proof. unfold configured_backup. moves_go. Qed.

(** Without the lease, only [keys status] and [doctor] may write. *)
Lemma run_reads fuel secret config mode :
  requires_writer_lease mode = false → mode ≠ KeysStatus → mode ≠ Doctor → moves eq (run fuel secret config mode).
Proof.
  intros Hl Hk Hd. destruct mode; try done; cbn [run]; try apply printed_moves; try apply _.
  all: unfold find_operator_candidates; moves_go.
  all: first [apply configured_reads|apply list_backups_reads|apply persisted_reads|apply verify_reads|apply operators_reads
             |apply invitations_reads|apply user_by_identifier_reads, _].
Qed.

(** ** The lease around a command *)

Definition others (k : str) : Prop := k ≠ WRITER_LEASE_KEY.

Lemma acquire_others : moves (agree_on others) acquire_writer_lease.
Proof.
  unfold acquire_writer_lease. moves_go. apply moves_query; [apply _|]. intros t m k Hk. simpl.
  destruct (live _ _ _); [done|]. by apply lookup_insert_ne, not_eq_sym.
Qed.

Lemma release_others lease : moves (agree_on others) (release lease).
Proof.
  unfold release. moves_go. apply moves_query; [apply _|]. intros t m k Hk. simpl.
  case_bool_decide; [|done]. by apply lookup_delete_ne, not_eq_sym.
Qed.

(** A lease that another process holds is not taken. *)
Lemma acquire_refused o w (Q : result error WriterLease → world → Prop) :
  (∀ i, is_Some (live (t_at (o_trip o i)) (vw w) WRITER_LEASE_KEY)) → (∀ e w', vw w' = vw w → Q (Err e) w') →
  wp acquire_writer_lease o w Q.
Proof.
  intros Hheld HQ. unfold acquire_writer_lease. apply wp_bind, wp_new_v4. intros id w1 Hdb _ _.
  assert (Hv : vw w1 = vw w) by (unfold vw; by rewrite Hdb). rewrite <- Hv in Hheld.
  destruct (Hheld (w_trip w1)) as [v Hl]. fold (trip_time o w1) in Hl. apply wp_bind, wp_query.
  - intros d _ Hd. simpl in Hd. rewrite Hl in Hd. apply HQ. rewrite <- Hv. by destruct Hd.
  - intros d _ Hd. simpl in Hd |- *. rewrite Hl in *. cbn [fst snd existsb is_err orb] in *.
    apply wp_bind, wp_lift, wp_bind, wp_ensure; [done|]. intros _. apply HQ. by rewrite <- Hv.
Qed.

(** C32: while another process holds the writer lease, a one-shot command changes nothing,
    whichever it is and whatever is lost on the way: the commands that write are refused the
    lease before they start, and the others only read.  The exceptions are [keys status] and
    [doctor], which load the signing keys and may create or rotate them. *)
Theorem commands_respect_writer fuel secret config mode o w :
  mode ≠ KeysStatus → mode ≠ Doctor →
  (∀ i, is_Some (live (t_at (o_trip o i)) (vw w) WRITER_LEASE_KEY)) →
  let '(r, w') := one_shot fuel secret config mode o w in
  vw w' = vw w ∧ (requires_writer_lease mode = true → is_ok r = false).
Proof.
  intros Hk Hd Hheld. set (Q := λ (r : result error (CommandOutput * result error unit)) w',
    vw w' = vw w ∧ (requires_writer_lease mode = true → is_ok r = false)).
  enough (HQ : wp (one_shot fuel secret config mode) o w Q).
  { unfold wp in HQ. by destruct (one_shot fuel secret config mode o w). }
  unfold one_shot. apply wp_bind, wp_reads; [apply ensure_complete_reads|]. intros [[]|e] w1 Hv1; [|by split].
  destruct (requires_writer_lease mode) eqn:Hl.
  - apply wp_bind, wp_bind, acquire_refused; [by rewrite Hv1|]. intros e w2 Hv2. split; [congruence|done].
  - apply wp_bind, wp_ret, wp_bind, wp_attempt, wp_reads; [by apply run_reads|]. intros r w2 Hv2.
    assert (HQ : Q r w2) by (split; [congruence|done]).
    assert (Hret : wp (_ ← mret tt; lift r) o w2 Q) by by apply wp_bind, wp_ret, wp_lift.
    destruct r as [?|[]]; exact Hret || exact HQ.
Qed.

(** A restore into a datastore with a key of the managed namespaces. *)
Lemma restore_occupied fuel secret config key p k e o w (Q : result error (CommandOutput * result error unit) → world → Prop) :
  vw w !! k = Some e → outlasts o e → managed k = true → (∀ e' w', vw w' = vw w → Q (Err e') w') →
  wp (run fuel secret config (BackupRestore key p)) o w Q.
Proof.
  intros Hk Ho Hm HQ. cbn [run]. unfold printed, configured_backup, backup_restore, backup_restore_steps, download.
  apply wp_bind, wp_bind, wp_some_or; [|intros _; by apply HQ]. intros self _.
  apply wp_bind, wp_bind, wp_bind, wp_bind, wp_download_object; [intros; by apply HQ|]. intros s kid n out v w1 Hv1 _ _.
  apply wp_ret, wp_bind, wp_lift. destruct (signing_keyset s); [|by apply HQ]. apply wp_bind, wp_lift.
  destruct (validate_snapshot_keyset _ _); [|by apply HQ]. rewrite <- Hv1 in Hk.
  apply wp_bind, (occupied_not_restored k e); [done..|]. intros e' w2 Hv2. apply HQ. congruence.
Qed.

(** C9: [rustyauth backup restore] cannot succeed.  The process takes the writer lease before
    it runs the command, the restore refuses a datastore that holds any key of the managed
    namespaces, and the lease is such a key.  So when the command runs within the sixty
    seconds of its lease it fails for every object, configuration and datastore, the empty
    one included, and leaves every record but the lease as it was. *)
Theorem restore_command_refused fuel secret config key p o w :
  (∀ i j, t_at (o_trip o i) < t_at (o_trip o j) + WRITER_LEASE_SECONDS) →
  let '(r, w') := one_shot fuel secret config (BackupRestore key p) o w in
  is_ok r = false ∧ ∀ k, k ≠ WRITER_LEASE_KEY → vw w' !! k = vw w !! k.
Proof.
  intros Htime. set (Q := λ (r : result error (CommandOutput * result error unit)) w', is_ok r = false ∧ agree_on others (vw w) (vw w')).
  enough (HQ : wp (one_shot fuel secret config (BackupRestore key p)) o w Q).
  { unfold wp in HQ. by destruct (one_shot fuel secret config (BackupRestore key p) o w). }
  unfold one_shot. cbn [requires_writer_lease]. apply wp_bind, wp_reads; [apply ensure_complete_reads|].
  intros [[]|e] w1 Hv1; [|split; [done|by rewrite Hv1]].
  apply wp_bind, wp_bind. pose proof (acquire_others o w1) as Hothers. pose proof (wp_acquire o w1) as Hacq. unfold wp in Hacq |- * at 1.
  destruct (acquire_writer_lease o w1) as [[lease|e] w2]; cbn [fst snd] in *; [|split; [done|by rewrite <- Hv1]].
  destruct Hacq as [_ Hheld]. destruct (Hheld lease eq_refl) as [_ (d & Hlease & Hd)]. rewrite Hv1 in Hothers.
  assert (Hout : outlasts o (Entry (lease_token lease) (Some d))).
  { intros i. unfold expired. cbn [e_deadline]. apply N.leb_gt. specialize (Htime i (w_trip w1)). unfold trip_time in Hd. lia. }
  apply wp_ret, wp_bind, wp_attempt, (restore_occupied _ _ _ _ _ _ _ _ _ _ Hlease Hout eq_refl). intros e w3 Hv3.
  assert (HQ : ∀ w4, agree_on others (vw w3) (vw w4) → Q (Err e) w4).
  { intros w4 Hw4. split; [done|]. etrans; [exact Hothers|]. by rewrite <- Hv3. }
  assert (Hret : wp (_ ← (_ ← attempt (E := error) (release lease); mret tt); lift (Err e)) o w3 Q).
  { apply wp_bind, wp_bind, wp_attempt. apply (wp_mono _ _ _ _ _ (wp_moves _ _ o w3 (release_others lease))). intros r w4 Hw4.
    by apply wp_ret, wp_lift, HQ. }
  destruct e; exact Hret || by apply wp_fail, HQ.
Qed.

(** ** Pairing codes *)

(** What stands behind a pairing code that was printed: the stored operator who asked for
    it, the checked origin, and the stored pairing. *)
Definition pairing_backed (config : Config) (origin id : str) (support : bool) (m : gmap str entry) (out : CommandOutput)
    (m' : gmap str entry) : Prop :=
  ∃ url uid t v operator code pairing d,
    (uuid_parse id = Some uid ∧ live t m (operator_key uid) = Some v ∧ from_json v = Some operator ∧
     op_revoked_at operator = None ∧ (op_role operator = Owner ∨ op_role operator = Administrator)) ∧
    (url_parse origin = Some url ∧ url_path url = #"/" ∧ (cfg_environment config = EnvProduction → url_scheme url = #"https")) ∧
    out = OPairing code (cfg_realm_id config) (rp_control_plane_origin pairing) (rp_expires_at pairing) (rp_requested_scopes pairing) ∧
    m' !! pairing_key code = Some (Entry (to_json pairing) (Some d)) ∧
    rp_realm_id pairing = cfg_realm_id config ∧ rp_created_by pairing = op_user_id operator ∧
    rp_control_plane_origin pairing = trim_end_matches 47 (url_to_string url) ∧
    (lit "realm.support" ∈ rp_requested_scopes pairing ↔ support = true).

Lemma rpair_support support : lit "realm.support" ∈ rpair_scopes support ↔ support = true.
Proof. destruct support; [|split; [|done]]; [split; [done|]; intros _; refine (bool_decide_unpack _ _); by vm_compute|]. intros Hin. exfalso. revert Hin. refine (bool_decide_unpack _ _). by vm_compute. Qed.

Lemma wp_create_pairing realm origin scopes by_ o w (Q : result error (RealmPairingRecord * str) → world → Prop) :
  (∀ e w', Q (Err e) w') →
  (∀ id code t1 t2 d w', let r := mkPairing id realm origin scopes by_ t1 t2 in
     vw w' !! pairing_key code = Some (Entry (to_json r) (Some d)) → Q (Ok (r, code)) w') →
  wp (create_realm_pairing realm origin scopes by_) o w Q.
Proof.
  intros He Hok. unfold create_realm_pairing. apply wp_bind, wp_now, wp_bind, wp_new_v4. intros pid w2 _ _ _. apply wp_bind, wp_random_bytes.
  intros raw w3 _ _ _ _. apply wp_bind, wp_execute_view; [done|]. intros w4 t4 _ Hv4. apply wp_ret, (Hok _ _ _ _ (t4 + PAIRING_SECONDS)).
  rewrite Hv4. apply lookup_insert_eq.
Qed.

(** A pairing code is issued on a realm, for an active Owner or Administrator.  When the
    command succeeds, the stored record of the named operator is not revoked and has one of
    the two roles, the origin is bare and, in production, HTTPS; the code is stored as a
    pairing of this realm made by that operator, which expires by itself, and remote support
    is among its scopes exactly when it was asked for. *)
Theorem pairing_code_authorized config origin id support o w out w' :
  create_fleet_pairing_code config origin id support o w = (Ok out, w') →
  cfg_deployment_role config = Realm ∧ pairing_backed config origin id support (vw w) out (vw w').
Proof.
  intros Hrun. enough (HQ : wp (create_fleet_pairing_code config origin id support) o w (λ r w',
    ∀ out, r = Ok out → cfg_deployment_role config = Realm ∧ pairing_backed config origin id support (vw w) out (vw w'))).
  { unfold wp in HQ. rewrite Hrun in HQ. by apply HQ. }
  unfold create_fleet_pairing_code. apply wp_bind, wp_ensure; [|done]. intros Hrole. apply wp_bind, wp_some_or; [|done]. intros url Hurl.
  apply wp_bind, wp_ensure; [|done]. intros [[Hpath _]%andb_true_iff _]%andb_true_iff. apply wp_bind, wp_ensure; [|done].
  intros [_ Hscheme]%andb_true_iff. apply wp_bind, wp_some_or; [|done]. intros uid Huid. unfold operator.
  apply wp_bind, wp_get_json_view; [done|]. intros t w1 Hv1.
  destruct (live t (vw w) (operator_key uid)) as [v|] eqn:Hv; [|by apply wp_bind, wp_some_or].
  destruct (from_json v) as [record|] eqn:Hrecord; [|done]. apply wp_bind, wp_some_or; [|done]. intros operator Hop.
  destruct (may_pair record) eqn:Hmay; [|done]. assert (record = operator) as -> by congruence.
  apply wp_bind, wp_create_pairing; [done|]. intros pid code t1 t2 d w2 r Hstored. apply wp_ret. intros out' Hout.
  apply andb_true_iff in Hmay as [Hactive Hroles]. rewrite bool_decide_eq_true in *. split; [done|].
  exists url, uid, t, v, operator, code, r, d. split_and!; try done.
  - by destruct (op_revoked_at operator).
  - intros Henv. rewrite bool_decide_eq_true_2 in Hscheme by done. cbn [andb] in Hscheme. rewrite negb_involutive in Hscheme.
    by apply bool_decide_eq_true in Hscheme.
  - by injection Hout as <-.
  - apply rpair_support.
Qed.
End Commands.

(** ** Witnesses *)

Module DemoCommands.
Import DemoEnv DemoFleet DemoRoles DemoSigning DemoConnections DemoManagement DemoEndpoint DemoSnapshot DemoBackup DemoBackups.

#[export] Program Instance demo_process : ExtProcess :=
  {| parse_duration s := if bool_decide (s = #"2h") then Some 7200 else None;
     same_origin _ _ := true; set_fragment u f := u; url_join _ _ := None; append_pair u _ _ := u; uri_parses _ := true;
     pair_outbound_with_options _ _ := fail EDb; CARGO_PKG_VERSION := #"0.1.0" |}.
Next Obligation. intros. apply moves_fail, _. Qed.

(** A clock that stands still while the command runs. *)
Definition still_oracle : oracle := Oracle (o_now demo_oracle) (o_rand demo_oracle) (o_uuid demo_oracle) (λ _, Trip 1000 Delivered).
Definition no_secret : PairingSecret := mkPairingSecret None None.
Definition demo_config : Config :=
  mkConfig EnvProduction Realm demo_url #"auth.customer.example" demo_url demo_ring #"demo" #"realm-a" (mkRotation 100 10 20 5) (Some demo_backup_store).
#[local] Instance stored_bucket : ExtBucket := bucket_of demo_envelope.
Definition demo_object : str := v3_prefix #"demo" ++ #"f.rauth".
Abbreviation commanded mode w := (one_shot (λ _, None) (λ _ _, None) 1 no_secret demo_config mode still_oracle w).

Lemma config_option_anywhere_witness :
  process_arguments [lit "backup"; lit "--config"; lit "/etc/a.yaml"; lit "list"] = Ok (Some #"/etc/a.yaml", BackupList).
Proof.
  destruct (config_option_anywhere [lit "backup"] [lit "list"] #"/etc/a.yaml" BackupList) as [Hr _].
  - by repeat constructor.
  - by repeat constructor.
  - done.
  - apply usage_backup_list.
  - by apply Hr.
Defined.

Lemma restore_command_refused_witness :
  is_ok (commanded (BackupRestore demo_object false) (demo_world [])).1 = false.
Proof.
  pose proof (restore_command_refused (λ _, None) (λ _ _, None) 1 no_secret demo_config demo_object false still_oracle (demo_world [])) as Hr.
  destruct (commanded (BackupRestore demo_object false) (demo_world [])) as [r w']. apply Hr. intros i j. reflexivity.
Defined.

(** The command itself restores that object into the empty datastore; under the lease it
    does not. *)
Example restore_without_lease :
  is_ok (run (λ _, None) (λ _ _, None) 1 no_secret demo_config (BackupRestore demo_object false) still_oracle (demo_world [])).1 = true ∧
  (commanded (BackupRestore demo_object false) (demo_world [])).1 = Err (EBail "restore destination is not empty; use a new SableDB volume").
Proof. split; eval_eq. Qed.

Definition led_world : world := demo_world [(WRITER_LEASE_KEY, Entry #"other" (Some 2000))].

Lemma commands_respect_writer_witness :
  vw (commanded KeysRotate led_world).2 = vw led_world ∧ is_ok (commanded KeysRotate led_world).1 = false.
Proof.
  pose proof (commands_respect_writer (λ _, None) (λ _ _, None) 1 no_secret demo_config KeysRotate still_oracle led_world) as Hr.
  destruct (commanded KeysRotate led_world) as [r w']. destruct Hr as [Hv Hr]; [done|done| |split; [exact Hv|by apply Hr]].
  intros i. eexists. reflexivity.
Defined.

(** [doctor] beside another writer stores a new set of signing keys. *)
Example doctor_writes :
  is_ok (commanded Doctor led_world).1 = true ∧ vw led_world !! KEYSET_KEY = None ∧
  is_some (vw (commanded Doctor led_world).2 !! KEYSET_KEY) = true.
Proof. split_and!; eval_eq. Qed.

Definition demo_owner : OperatorRecord := mkOperator (demo_uuid_of 900) Owner 1 None.
Definition owner_world : world := demo_world [(operator_key (demo_uuid_of 900), Entry (to_json demo_owner) None)].
Abbreviation demo_issue := (create_fleet_pairing_code demo_config #"https://auth.customer.example" (uuid_show (demo_uuid_of 900)) true still_oracle owner_world).

Lemma pairing_code_authorized_witness :
  ∃ out, demo_issue.1 = Ok out ∧
    pairing_backed demo_config #"https://auth.customer.example" (uuid_show (demo_uuid_of 900)) true (vw owner_world) out (vw demo_issue.2).
Proof.
  assert (He : is_ok demo_issue.1 = true) by eval_eq. destruct (is_ok_run _ He) as [out Hout]. exists out. split; [by rewrite Hout|].
  apply (pairing_code_authorized demo_config #"https://auth.customer.example" (uuid_show (demo_uuid_of 900)) true still_oracle owner_world).
  exact Hout.
Defined.
End DemoCommands.
